(* ===== verification/_CoqProject ===== *)
-Q . S2P
Prelude.v
Xlen.v
IR.v
IRBuild.v
IRSem.v
IRFacts.v
Isa.v
Ext.v
Base.v
MExt.v
AExt.v
CExt.v
ZicsrExt.v
ZbaExt.v
ZbbExt.v
ZbsExt.v
ZbkbExt.v
ZicondExt.v
ZifenceiExt.v
Syscalls.v
Registry.v
RiscvSpec.v
Fields.v
TableDecode.v
LiftFacts.v
BaseSpec.v
BaseDecode.v
BaseLift.v
MCorrect.v
ZbaCorrect.v
ZicondCorrect.v
ZbsCorrect.v
ZbkbCorrect.v
ZbbCorrect.v
ZicsrCorrect.v
ACorrect.v
CSpec.v
CDecode.v
CLift.v
Promise.v
RegistryCorrect.v
Order.v
SyscallCorrect.v
ExecFacts.v
IRProps.v
InstrTable.v
TableFacts.v
TableProps.v
CfgData.v
CfgScan.v
CfgFlow.v
CfgDomain.v
CfgSound.v
CfgEdges.v
CfgWork.v
CfgPath.v
ScanFacts.v
CfgProps.v
BlockTable.v
BlockFacts.v
MergeFacts.v
StaleFacts.v
SuperFacts.v
TailFacts.v
BlockProps.v
Elf.v
ElfFacts.v
ElfSafe.v
ElfProps.v
Pipeline.v
BlockExec.v
LiftBlocks.v
PipelineProps.v
ExtProps.v
SyscallProps.v
RegistryProps.v
