(* ===== verification/Prelude.v ===== *)
(** * rvr: a verification library for the RISC-V recompiler

    rvr recompiles RISC-V programs.  [crates/rvr-elf] loads a program; its bytes are
    decoded and lifted, one instruction at a time, to an intermediate
    representation ([crates/rvr-ir]) by the decoders, the lifters and the registry
    that chains them ([crates/rvr-isa]); [crates/rvr-cfg] keeps the decoded
    program, finds its control flow and forms blocks; the pipeline in [crates/rvr]
    calls these in turn; [crates/rvr-emit] prints the lifted blocks as C or
    assembly; [crates/rvr-state], [crates/rvr-rt] and the rest of [crates/rvr] run
    the result.  This library models the way from the file to the lifted blocks.

    ** Layout

    Foundations.  [Prelude]: fixed-width integers as [Z], panics as the type
    [result], the lemmas both share.  A [w]-bit Rust integer is a [Z]; a cast is
    [wrap] or [to_signed]; an operation that panics on overflow in a checked build
    returns a [result].

    The IR ([crates/rvr-ir/src]).  [Xlen] models [xlen.rs] (the trait and its two
    implementations as a type of two constructors); [IR] the data types of
    [expr/mod.rs], [stmt.rs], [terminator.rs], [instr.rs], [block.rs] and their
    well-formedness (every immediate fits the register width); [IRBuild] the
    smart constructors of [expr/mod.rs] with their constant folding, those of
    statements and terminators, blocks, and the fluent builder of [builder.rs].
    [IRSem] gives the IR a meaning: a denotational semantics over a machine state,
    the specification the lifter is verified against and every backend has to
    realise.

    The instruction set ([crates/rvr-isa/src]).  [Isa] models [types.rs] and
    [encode.rs]; [Ext] the trait [InstructionExtension], a record of its methods;
    [Base], [MExt], [AExt], [CExt], [ZicsrExt], [ZbaExt], [ZbbExt], [ZbsExt],
    [ZbkbExt], [ZicondExt], [ZifenceiExt] the extensions, each with its
    identifiers, metadata table, decoder and lifter ([extensions/]);
    [Syscalls] the lowering of [ECALL] ([syscalls/table.rs], [linux.rs],
    [baremetal.rs]); [Registry] the registry and its builder methods
    ([extensions/mod.rs]).

    The instruction set as the manual states it.  [RiscvSpec], [BaseSpec], [CSpec]
    and the first part of each [*Correct] file: a table of encodings, each with
    its operands as bit slices of the word and its effect on the state, written
    with arithmetic instead of shifts and masks.  They do not mention the decoder
    or the lifter; only the identifiers are shared.

    Their proofs.  [IRFacts]: the IR is typed, and its factories preserve meaning.
    [Fields]: shifts and masks compute the slices.  [TableDecode]: comparing a
    decoder with a table.  [LiftFacts]: [denotes] (an expression computes a
    function of the state) and [refines] (lifted code does not panic, is
    well-formed, and has a given effect up to scratch temporaries).  [BaseDecode],
    [BaseLift], [MCorrect] to [ZicondCorrect], [CDecode] and [CLift] prove each
    decoder equal to its table and each lifter a refinement of it.  [Promise] is
    the interface between extensions and registry, the class [Implements], with
    its instances; [RegistryCorrect] and [Order] prove the registry from it;
    [SyscallCorrect] proves the lowering of system calls against a table-lookup
    specification; [ExecFacts] has preservation of well-formed states.

    The decoded program ([crates/rvr-cfg/src]).  [InstrTable] models
    [instruction_table.rs]: read-only segments, slots of two bytes, the decoding
    loop, lookups and iteration.  [TableFacts] proves the loop equal to a sweep
    written without indices, against the interface [SizedRegistry] (a decoder
    returns instructions of two or four bytes that are there), which the standard
    registry implements.

    Control flow ([crates/rvr-cfg/src/analysis]).  [CfgData] models [data.rs] and
    the data of [mod.rs]: sets of at most sixteen values, register states, the
    classes of decoded instructions.  [CfgScan] is the linear pass that collects
    call return sites and the targets of internal jumps; [CfgFlow] the worklist,
    the transfer function, successors, predecessors and leaders.  [CfgDomain] gives
    value sets a concretisation; [CfgSound] and [CfgEdges] prove the transfer
    function and the successors against the manual; [CfgWork] has the invariant of
    the worklist, [CfgPath] lifts it to executions, [ScanFacts] is about the pass.

    Blocks ([crates/rvr-cfg/src/block_table.rs]).  [BlockTable] models the
    construction of blocks at the leaders, merging, tail duplication, superblocks
    and the repair of mappings.  [BlockFacts], [MergeFacts], [TailFacts],
    [SuperFacts] and [StaleFacts] have the lemmas on each pass.

    Loading ([crates/rvr-elf/src]).  [Elf] models [file.rs], [image.rs],
    [header.rs] and the constants: [ElfFile] (headers, sections, symbols) and
    [ElfImage] (segments, validation, entry and symbols), with error values and
    panics.  [ElfFacts] and [ElfSafe] have the lemmas.

    The pipeline ([crates/rvr/src/pipeline.rs], [crates/rvr-emit/src/inputs.rs]).
    [Pipeline] models building the block table, lifting blocks with their
    continuations and the inputs given to the emitters.  [BlockExec] says what the
    code emitted for a block does and what a run of the machine is; [LiftBlocks]
    proves that the one realises the other.

    ** Theorems

    The properties are in the [*Props] files.  [recompile_instruction]
    ([RegistryProps]) and [lifted_program_runs] ([PipelineProps]) are the main
    ones.  The first: for every byte sequence to which the manual gives an effect,
    decoding with the standard registry succeeds, lifting does not panic, and the
    lifted code has exactly that effect.  The second composes it with the table,
    the analysis, the merging of blocks and the lifting of blocks: the code emitted
    for each block leaves the state and the next address that the machine, running
    the bytes, leaves.

    [RegistryProps]: what the registry decodes, registration order, overrides,
    metadata.  [ExtProps]: each extension against the manual, and exactly what the
    code does where it departs from it.  [IRProps]: typing, simplification,
    preservation, address arithmetic.  [SyscallProps]: system calls.  [TableProps]:
    what the instruction table holds.  [CfgProps]: value sets, transfer function and
    successors are sound, and executions follow the recorded edges.  [BlockProps]:
    what each pass over the block table does, and that the optimiser terminates.
    [ElfProps]: round trip, segments, absence of panics on 32-bit files and the
    inputs on which 64-bit files panic.  [PipelineProps]: the composition, and a
    program that tail duplication breaks.

    ** Assumptions and bounds

    Fuel.  The decoding loop of the table and the linear pass get one more than
    the number of bytes, and each iteration advances by at least two of them; a
    block and a lifted range get one more than their length in bytes; a chain of
    merged blocks one more than the number of blocks; following a stale mapping
    two more than the number of mappings.  [from_bytes_correct], [scan_correct],
    [blocks_from_leaders], [lifted_program_runs], [merge_blocks_correct] and
    [fix_stale_mappings_correct] show that it is never exhausted.  The bound on the
    iterations of the worklist is the code's own.  The rest is structural.

    The host is taken to have 64-bit pointers, so that conversions between [u64]
    and [usize] succeed.  Where the code iterates over a hash table, the order is a
    parameter of the model and the theorems hold for every order.  Lifting theorems
    assume [pc_ok]: the next address is in range and the target arithmetic on
    [i64] does not overflow for any 32-bit offset ([branch_target_bounds] says when
    it does).  The execution theorems start from a well-formed state that has not
    exited.  The shift amounts of 32 and more that RV32 reserves are excluded where
    the decoder accepts them ([reserved_shift], [c_reserved_shift]).  [c.jr],
    [c.jalr] and [mret] are given no effect by the specification of programs,
    since the code departs from the manual on them ([c_indirect_jumps]); blocks
    with them are outside [lifted_program_runs].  Runtime functions and C variables
    are parameters of the semantics ([extern], [vars]).

    ** Not modelled

    [crates/rvr-emit] apart from its inputs, [crates/rvr-state]: planned, in this
    order.  [crates/rvr-elf/src/debug.rs] runs an external program.  Disassembly
    strings, logging, the GDB server, the command line, process running and
    benchmarks of [crates/rvr], and the guest runtime [crates/rvr-rt] are I/O or
    formatting. *)

From stdpp Require Export prelude strings gmap.
From Stdlib Require Export ZArith Lia.

#[global] Open Scope Z_scope.

(** ** Fixed-width integers

    A [w]-bit Rust integer is a [Z].  Unsigned values live in [[0, 2^w)],
    signed ones in [[-2^(w-1), 2^(w-1))]. *)

Declare Scope word_scope.
Delimit Scope word_scope with word.

(** [wrap w x] is [x as uW]: reduction modulo [2^w]. *)
Definition wrap (w x : Z) : Z := x mod 2 ^ w.

(** [to_signed w x] is [x.cast_signed()] for an unsigned [w]-bit [x]. *)
Definition to_signed (w x : Z) : Z := if x <? 2 ^ (w - 1) then x else x - 2 ^ w.

(** [sext w x] reads the low [w] bits of [x] as a two's complement number. *)
Definition sext (w x : Z) : Z := to_signed w (wrap w x).

(** Membership in the unsigned and signed ranges of width [w]. *)
Definition in_u (w x : Z) : Prop := 0 <= x < 2 ^ w.
Definition in_i (w x : Z) : Prop := - 2 ^ (w - 1) <= x < 2 ^ (w - 1).
Definition in_ub (w x : Z) : bool := (0 <=? x) && (x <? 2 ^ w).
Definition in_ib (w x : Z) : bool := (- 2 ^ (w - 1) <=? x) && (x <? 2 ^ (w - 1)).

(** Boolean as an integer, as a C comparison yields. *)
Definition b2z (b : bool) : Z := if b then 1 else 0.

Notation "x &ᵇ y" := (Z.land x y) (at level 40, left associativity) : word_scope.
Notation "x |ᵇ y" := (Z.lor x y) (at level 50, left associativity) : word_scope.

(** ** Panics

    A Rust computation that can panic ([expect], [unwrap], checked arithmetic
    in a build with overflow checks, an index out of bounds). *)

Inductive result (A : Type) : Type :=
| Ok (a : A)
| Panic.
Arguments Ok {A} a.
Arguments Panic {A}.

#[export] Instance result_ret : MRet result := fun A a => Ok a.
#[export] Instance result_bind : MBind result := fun A B f m =>
  match m with Ok a => f a | Panic => Panic end.
#[export] Instance result_fmap : FMap result := fun A B f m =>
  match m with Ok a => Ok (f a) | Panic => Panic end.

#[export] Instance result_eq_dec {A} `{EqDecision A} : EqDecision (result A).
Proof. solve_decision. Defined.

(** [x + y] on [uW] and on [iW] with overflow checks. *)
Definition add_u (w x y : Z) : result Z := if in_ub w (x + y) then Ok (x + y) else Panic.
Definition add_i (w x y : Z) : result Z := if in_ib w (x + y) then Ok (x + y) else Panic.
Definition sub_u (w x y : Z) : result Z := if in_ub w (x - y) then Ok (x - y) else Panic.

(** [iW::try_from(x).expect(..)] and [uW::try_from(x).expect(..)]. *)
Definition expect_i (w x : Z) : result Z := if in_ib w x then Ok x else Panic.
Definition expect_u (w x : Z) : result Z := if in_ub w x then Ok x else Panic.

(** [x << n] and [x >> n] on [uW] and [iW], for [n] below the width. *)
Definition shl_u (w x n : Z) : Z := wrap w (Z.shiftl x n).
Definition shl_i (w x n : Z) : Z := sext w (Z.shiftl x n).
Definition shr (x n : Z) : Z := Z.shiftr x n.

(** ** Lemmas on fixed-width integers *)

Lemma in_ub_spec w x : in_ub w x = true <-> in_u w x.
Proof. unfold in_ub, in_u. rewrite andb_true_iff, Z.leb_le, Z.ltb_lt. tauto. Qed.

Lemma in_ib_spec w x : in_ib w x = true <-> in_i w x.
Proof. unfold in_ib, in_i. rewrite andb_true_iff, Z.leb_le, Z.ltb_lt. tauto. Qed.

#[export] Instance in_u_dec w x : Decision (in_u w x).
Proof. unfold in_u. apply _. Defined.
#[export] Instance in_i_dec w x : Decision (in_i w x).
Proof. unfold in_i. apply _. Defined.

Lemma pow2_pos w : 0 <= w -> 0 < 2 ^ w.
Proof. intros. apply Z.pow_pos_nonneg; lia. Qed.

Lemma pow2_half w : 0 < w -> 2 ^ w = 2 * 2 ^ (w - 1).
Proof. intros. rewrite <- Z.pow_succ_r by lia. f_equal. lia. Qed.

Lemma wrap_range w x : 0 <= w -> in_u w (wrap w x).
Proof. intros. apply Z.mod_pos_bound, pow2_pos; lia. Qed.

Lemma wrap_id w x : in_u w x -> wrap w x = x.
Proof. intros. apply Z.mod_small. exact H. Qed.

Lemma wrap_wrap w x : wrap w (wrap w x) = wrap w x.
Proof. unfold wrap. apply Zmod_mod. Qed.

Lemma wrap_add_l w x y : wrap w (wrap w x + y) = wrap w (x + y).
Proof. unfold wrap. apply Zplus_mod_idemp_l. Qed.

Lemma wrap_add_r w x y : wrap w (x + wrap w y) = wrap w (x + y).
Proof. unfold wrap. apply Zplus_mod_idemp_r. Qed.

Lemma wrap_sub_l w x y : wrap w (wrap w x - y) = wrap w (x - y).
Proof. unfold wrap. apply Zminus_mod_idemp_l. Qed.

Lemma wrap_sub_r w x y : wrap w (x - wrap w y) = wrap w (x - y).
Proof. unfold wrap. apply Zminus_mod_idemp_r. Qed.

Lemma wrap_mul_l w x y : wrap w (wrap w x * y) = wrap w (x * y).
Proof. unfold wrap. apply Zmult_mod_idemp_l. Qed.

Lemma wrap_mul_r w x y : wrap w (x * wrap w y) = wrap w (x * y).
Proof. unfold wrap. apply Zmult_mod_idemp_r. Qed.

(** A narrower wrap absorbs a wider one. *)
Lemma wrap_wrap_le v w x : 0 <= v <= w -> wrap v (wrap w x) = wrap v x.
Proof.
  intros. unfold wrap. replace w with (v + (w - v)) by lia.
  rewrite Z.pow_add_r by lia. apply Z.mod_mod_divide, Z.divide_factor_l.
Qed.

Lemma to_signed_range w x : 0 < w -> in_u w x -> in_i w (to_signed w x).
Proof.
  unfold in_u, in_i, to_signed. intros Hw Hx. pose proof (pow2_half w Hw).
  destruct (Z.ltb_spec x (2 ^ (w - 1))); lia.
Qed.

Lemma wrap_to_signed w x : in_u w x -> wrap w (to_signed w x) = x.
Proof.
  intros Hx. unfold wrap, to_signed. destruct (_ <? _).
  - apply Z.mod_small, Hx.
  - replace (x - 2 ^ w) with (x + (-1) * 2 ^ w) by lia.
    rewrite Z_mod_plus_full. apply Z.mod_small, Hx.
Qed.

Lemma wrap_sext w x : 0 <= w -> wrap w (sext w x) = wrap w x.
Proof. intros. apply wrap_to_signed, wrap_range. done. Qed.

Lemma sext_range w x : 0 < w -> in_i w (sext w x).
Proof. intros. apply to_signed_range; [done|]. apply wrap_range. lia. Qed.

(** Signed values are determined by their low bits. *)
Lemma sext_id w x : 0 < w -> in_i w x -> sext w x = x.
Proof.
  unfold in_i, sext, to_signed, wrap. intros Hw Hx. pose proof (pow2_half w Hw).
  destruct (Z.le_gt_cases 0 x).
  - rewrite Z.mod_small by lia. case_match; lia.
  - rewrite <- (Z.mod_unique x (2 ^ w) (-1) (x + 2 ^ w)) by lia. case_match; lia.
Qed.

Lemma sext_wrap w x : 0 <= w -> sext w (wrap w x) = sext w x.
Proof. intros. unfold sext. by rewrite wrap_wrap. Qed.
