(* ===== verification/Xlen.v ===== *)
(** * Register width ([crates/rvr-ir/src/xlen.rs])

    The trait [Xlen] has exactly two implementations, the marker types [Rv32]
    and [Rv64]; here they are the two constructors of a type, and an associated
    constant or function of the trait is a function of the constructor.  A
    register value ([X::Reg]) is an unsigned integer of [VALUE X] bits. *)

From S2P Require Import Prelude.

Inductive Xlen := Rv32 | Rv64.

#[export] Instance Xlen_eq_dec : EqDecision Xlen.
Proof. solve_decision. Defined.

Definition VALUE (X : Xlen) : Z := match X with Rv32 => 32 | Rv64 => 64 end.
Definition SHIFT_MASK (X : Xlen) : Z := match X with Rv32 => 0x1F | Rv64 => 0x3F end.
Definition REG_BYTES (X : Xlen) : Z := match X with Rv32 => 4 | Rv64 => 8 end.

(** Sign-extend a 32-bit value to register width. *)
Definition sign_extend_32 (X : Xlen) (val : Z) : Z :=
  match X with
  | Rv32 => val
  | Rv64 => wrap 64 (to_signed 32 val)
  end.

(** The [Rv64] implementation is [u32::try_from(val).expect(..)]: it panics on
    a value that does not fit. *)
Definition truncate_to_32 (X : Xlen) (val : Z) : result Z :=
  match X with
  | Rv32 => Ok val
  | Rv64 => expect_u 32 val
  end.

(** The [Rv32] implementation masks first, so its [expect] is never reached. *)
Definition from_u64 (X : Xlen) (val : Z) : Z :=
  match X with
  | Rv32 => Z.land val 0xFFFFFFFF
  | Rv64 => val
  end.

Definition to_u64 (X : Xlen) (val : Z) : Z := val.

(** A register-width value. *)
Abbreviation in_reg X v := (in_u (VALUE X) v).

Lemma VALUE_pos X : 0 < VALUE X.
Proof. destruct X; done. Qed.

Lemma VALUE_le_64 X : 32 <= VALUE X <= 64.
Proof. destruct X; done. Qed.

Lemma land_ones_wrap w x : 0 <= w -> Z.land x (Z.ones w) = wrap w x.
Proof. intros. apply Z.land_ones. done. Qed.

Lemma from_u64_wrap X v : in_u 64 v -> from_u64 X v = wrap (VALUE X) v.
Proof.
  intros Hv. destruct X; simpl.
  - apply (land_ones_wrap 32). done.
  - symmetry. apply wrap_id, Hv.
Qed.

Lemma from_u64_range X v : in_u 64 v -> in_reg X (from_u64 X v).
Proof.
  intros. rewrite from_u64_wrap by done. apply wrap_range. pose proof (VALUE_pos X). lia.
Qed.

Lemma from_u64_id X v : in_reg X v -> from_u64 X v = v.
Proof.
  intros H. rewrite from_u64_wrap; [by apply wrap_id|].
  destruct H as [H1 H2]. split; [done|]. eapply Z.lt_le_trans; [apply H2|].
  apply Z.pow_le_mono_r; [done|]. apply VALUE_le_64.
Qed.

Lemma sign_extend_32_spec X v : in_u 32 v -> sign_extend_32 X v = wrap (VALUE X) (to_signed 32 v).
Proof.
  intros. destruct X; simpl; [|done]. symmetry. by apply wrap_to_signed.
Qed.
