(* ===== verification/IR.v ===== *)
(** * IR data types ([crates/rvr-ir/src/expr/mod.rs], [stmt.rs],
    [terminator.rs], [instr.rs], [block.rs])

    The types are those of the source, with the register-width parameter [X]
    erased: a [X::Reg] is a [Z], and the invariant that it fits is the
    predicate [wf_expr] below. *)

From S2P Require Import Prelude Xlen.

#[global] Set Warnings "-register-all".

Inductive UnaryOp :=
| Not | Neg | Sext8 | Sext16 | Sext32 | Zext8 | Zext16 | Zext32
| Clz | Ctz | Cpop | Clz32 | Ctz32 | Cpop32 | Orc8 | Rev8 | Brev8 | Zip | Unzip.

Inductive BinaryOp :=
| Add | Sub | Mul | MulH | MulHSU | MulHU | Div | DivU | Rem | RemU
| And | Or | Xor | Sll | Srl | Sra | Eq | Ne | Lt | Ge | Ltu | Geu
| AddW | SubW | MulW | DivW | DivUW | RemW | RemUW | SllW | SrlW | SraW
| Pack | Pack8 | Pack16.

Inductive TernaryOp := Select.

Inductive Expr : Type :=
| Imm (v : Z)
| Read (r : ReadExpr)
| PcConst (pc : Z)
| Var (name : string)
| Unary (op : UnaryOp) (e : Expr)
| Binary (op : BinaryOp) (left right : Expr)
| Ternary (op : TernaryOp) (first second third : Expr)
| ExternCall (name : string) (args : list Expr) (ret_width : Z)
with ReadExpr : Type :=
| Reg (r : Z)
| Csr (c : Z)
| Mem (base : Expr) (offset : Z) (width : Z) (signed : bool)
| MemAddr (addr : Expr) (width : Z) (signed : bool)
| Pc
| Cycle
| Instret
| Temp (t : Z)
| TraceIdx
| PcIdx
| ResAddr
| ResValid
| Exited
| ExitCode.

Inductive WriteTarget :=
| WReg (r : Z)
| WCsr (c : Z)
| WMem (base : Expr) (offset : Z) (width : Z)
| WPc
| WTemp (t : Z)
| WResAddr
| WResValid
| WExited
| WExitCode.

Inductive Stmt :=
| Write (target : WriteTarget) (value : Expr)
| If (cond : Expr) (then_stmts else_stmts : list Stmt)
| SExternCall (fn_name : string) (args : list Expr).

Inductive BranchHint := HNone | HTaken | HNotTaken.

Inductive Terminator :=
| Fall (target : option Z)
| Jump (target : Z)
| JumpDyn (addr : Expr) (resolved : option (list Z))
| Branch (cond : Expr) (target : Z) (fall : option Z) (hint : BranchHint)
| Exit (code : Expr)
| Trap (message : string).

Record SourceLoc := mkSourceLoc { file : string; line : Z; function : string }.

Record InstrIR := mkInstrIR {
  ir_pc : Z;
  ir_size : Z;
  ir_op : Z;
  ir_raw : Z;
  statements : list Stmt;
  terminator : Terminator;
  source_loc : option SourceLoc
}.

Record BlockIR := mkBlockIR {
  start_pc : Z;
  end_pc : Z;
  instructions : list InstrIR
}.

(** ** Induction over expressions, through reads and argument lists *)

Section expr_ind.
Variables (P : Expr -> Prop) (Q : ReadExpr -> Prop).
Hypotheses
  (HImm : forall v, P (Imm v)) (HRead : forall r, Q r -> P (Read r))
  (HPcConst : forall p, P (PcConst p)) (HVar : forall n, P (Var n))
  (HUnary : forall o e, P e -> P (Unary o e))
  (HBinary : forall o l r, P l -> P r -> P (Binary o l r))
  (HTernary : forall o a b c, P a -> P b -> P c -> P (Ternary o a b c))
  (HExtern : forall n args w, Forall P args -> P (ExternCall n args w))
  (HMem : forall b o w s, P b -> Q (Mem b o w s))
  (HMemAddr : forall a w s, P a -> Q (MemAddr a w s))
  (HLeaf : forall r, (forall b o w s, r <> Mem b o w s) -> (forall a w s, r <> MemAddr a w s) -> Q r).

Fixpoint Expr_rect_nested (e : Expr) : P e :=
  match e with
  | Imm v => HImm v
  | Read r => HRead r (ReadExpr_rect_nested r)
  | PcConst p => HPcConst p
  | Var n => HVar n
  | Unary o e => HUnary o e (Expr_rect_nested e)
  | Binary o l r => HBinary o l r (Expr_rect_nested l) (Expr_rect_nested r)
  | Ternary o a b c =>
      HTernary o a b c (Expr_rect_nested a) (Expr_rect_nested b) (Expr_rect_nested c)
  | ExternCall n args w =>
      HExtern n args w
        ((fix go (l : list Expr) : Forall P l :=
            match l with
            | [] => Forall_nil_2 P
            | x :: l' => Forall_cons_2 P x l' (Expr_rect_nested x) (go l')
            end) args)
  end
with ReadExpr_rect_nested (r : ReadExpr) : Q r.
Proof.
  destruct r as [r|c|b o w s|a w s| | | |t| | | | | |].
  all: try (apply HLeaf; intros; discriminate).
  - apply HMem, Expr_rect_nested.
  - apply HMemAddr, Expr_rect_nested.
Defined.
End expr_ind.

(** ** Well-formedness: every immediate fits the register width *)

Fixpoint wf_expr (X : Xlen) (e : Expr) : bool :=
  match e with
  | Imm v => in_ub (VALUE X) v
  | Read r => wf_read X r
  | PcConst p => in_ub (VALUE X) p
  | Var _ => true
  | Unary _ e => wf_expr X e
  | Binary _ l r => wf_expr X l && wf_expr X r
  | Ternary _ a b c => wf_expr X a && wf_expr X b && wf_expr X c
  | ExternCall _ args _ => forallb (wf_expr X) args
  end
with wf_read (X : Xlen) (r : ReadExpr) : bool :=
  match r with
  | Reg r => in_ub 5 r
  | Csr c => in_ub 12 c
  | Mem b o w _ => wf_expr X b && in_ib 16 o && (bool_decide (w ∈ [1; 2; 4; 8]))
  | MemAddr a w _ => wf_expr X a && (bool_decide (w ∈ [1; 2; 4; 8]))
  | _ => true
  end.

Definition wf_target (X : Xlen) (t : WriteTarget) : bool :=
  match t with
  | WReg r => in_ub 5 r
  | WCsr c => in_ub 12 c
  | WMem b o w => wf_expr X b && in_ib 16 o && bool_decide (w ∈ [1; 2; 4; 8])
  | _ => true
  end.

Fixpoint wf_stmt (X : Xlen) (s : Stmt) : bool :=
  match s with
  | Write t v => wf_target X t && wf_expr X v
  | If c ts es => wf_expr X c && forallb (wf_stmt X) ts && forallb (wf_stmt X) es
  | SExternCall _ args => forallb (wf_expr X) args
  end.

Definition wf_term (X : Xlen) (t : Terminator) : bool :=
  match t with
  | Fall None => true
  | Fall (Some p) => in_ub (VALUE X) p
  | Jump p => in_ub (VALUE X) p
  | JumpDyn a rs =>
      wf_expr X a && match rs with None => true | Some l => forallb (in_ub (VALUE X)) l end
  | Branch c p f _ =>
      wf_expr X c && in_ub (VALUE X) p && match f with None => true | Some q => in_ub (VALUE X) q end
  | Exit c => wf_expr X c
  | Trap _ => true
  end.

Definition wf_instr (X : Xlen) (i : InstrIR) : bool :=
  in_ub (VALUE X) (ir_pc i) && bool_decide (ir_size i ∈ [2; 4]) && in_ub 16 (ir_op i)
  && in_ub 32 (ir_raw i) && forallb (wf_stmt X) (statements i) && wf_term X (terminator i).
