(* ===== verification/IRBuild.v ===== *)
(** * IR construction ([crates/rvr-ir/src/expr/mod.rs], [stmt.rs],
    [terminator.rs], [instr.rs], [block.rs], [builder.rs])

    The factory functions of the source, one definition each, in modules named
    after the Rust type they belong to.  The register width is an explicit
    argument where the Rust method uses it. *)

From S2P Require Import Prelude Xlen IR.

Module Expr.

Definition imm (val : Z) : Expr := Imm val.
Definition reg (idx : Z) : Expr := Read (Reg idx).
Definition mem (base : Expr) (offset width : Z) (signed : bool) : Expr :=
  Read (Mem base offset width signed).
Definition mem_addr (addr : Expr) (width : Z) (signed : bool) : Expr :=
  Read (MemAddr addr width signed).
Definition csr (c : Z) : Expr := Read (Csr c).
Definition pc_const (pc : Z) : Expr := PcConst pc.
Definition var (name : string) : Expr := Var name.
Definition extern_call (fn_name : string) (args : list Expr) (ret_width : Z) : Expr :=
  ExternCall fn_name args ret_width.

Definition unary (op : UnaryOp) (e : Expr) : Expr := Unary op e.
Definition binary (op : BinaryOp) (left right : Expr) : Expr := Binary op left right.
Definition ternary (op : TernaryOp) (first second third : Expr) : Expr :=
  Ternary op first second third.

(** Statically known to be zero: [Imm(0)] or a read of [x0]. *)
Definition is_zero (X : Xlen) (e : Expr) : bool :=
  match e with
  | Imm v => to_u64 X v =? 0
  | Read (Reg r) => r =? 0
  | _ => false
  end.

Definition neg (val : Expr) : Expr := unary Neg val.
Definition not (val : Expr) : Expr := unary Not val.

(** [add] folds two immediates and drops a zero operand. *)
Definition add (X : Xlen) (left right : Expr) : Expr :=
  match left, right with
  | Imm l, Imm r => Imm (from_u64 X (wrap 64 (to_u64 X l + to_u64 X r)))
  | _, _ =>
      if is_zero X right then left
      else if is_zero X left then right
      else binary Add left right
  end.

Definition sub (X : Xlen) (left right : Expr) : Expr :=
  match left, right with
  | Imm l, Imm r => Imm (from_u64 X (wrap 64 (to_u64 X l - to_u64 X r)))
  | _, _ =>
      if is_zero X right then left
      else if is_zero X left then neg right
      else binary Sub left right
  end.

Definition mul (left right : Expr) : Expr := binary Mul left right.

Definition and (X : Xlen) (left right : Expr) : Expr :=
  match left, right with
  | Imm l, Imm r => Imm (from_u64 X (Z.land (to_u64 X l) (to_u64 X r)))
  | _, _ => binary And left right
  end.

Definition or (X : Xlen) (left right : Expr) : Expr :=
  match left, right with
  | Imm l, Imm r => Imm (from_u64 X (Z.lor (to_u64 X l) (to_u64 X r)))
  | _, _ =>
      if is_zero X right then left
      else if is_zero X left then right
      else binary Or left right
  end.

Definition xor (X : Xlen) (left right : Expr) : Expr :=
  match left, right with
  | Imm l, Imm r => Imm (from_u64 X (Z.lxor (to_u64 X l) (to_u64 X r)))
  | _, _ =>
      if is_zero X right then left
      else if is_zero X left then right
      else binary Xor left right
  end.

Definition sll (X : Xlen) (left right : Expr) : Expr :=
  if is_zero X right then left else binary Sll left right.
Definition srl (X : Xlen) (left right : Expr) : Expr :=
  if is_zero X right then left else binary Srl left right.
Definition sra (X : Xlen) (left right : Expr) : Expr :=
  if is_zero X right then left else binary Sra left right.

Definition eq (left right : Expr) : Expr := binary Eq left right.
Definition ne (left right : Expr) : Expr := binary Ne left right.
Definition lt (left right : Expr) : Expr := binary Lt left right.
Definition ge (left right : Expr) : Expr := binary Ge left right.

(** [sltu(0, x)] is [x != 0]. *)
Definition ltu (X : Xlen) (left right : Expr) : Expr :=
  if is_zero X left then ne right (Imm (from_u64 X 0)) else binary Ltu left right.
Definition geu (left right : Expr) : Expr := binary Geu left right.

Definition select (cond then_val else_val : Expr) : Expr :=
  ternary Select cond then_val else_val.

(** Sign extension from 32 bits, folded on an immediate. *)
Definition sext32 (X : Xlen) (val : Expr) : Expr :=
  match val with
  | Imm v =>
      let v64 := to_u64 X v in
      let low := Z.land v64 0xffffffff in
      let sx := wrap 64 (to_signed 32 low) in
      Imm (from_u64 X sx)
  | _ => unary Sext32 val
  end.

Definition read (idx : Z) : Expr := reg idx.
Definition mem_u (addr : Expr) (width : Z) : Expr := mem_addr addr width false.
Definition mem_s (addr : Expr) (width : Z) : Expr := mem_addr addr width true.

Definition div (left right : Expr) : Expr := binary Div left right.
Definition divu (left right : Expr) : Expr := binary DivU left right.
Definition rem (left right : Expr) : Expr := binary Rem left right.
Definition remu (left right : Expr) : Expr := binary RemU left right.

Definition addw (X : Xlen) (left right : Expr) : Expr :=
  if is_zero X right then sext32 X left
  else if is_zero X left then sext32 X right
  else binary AddW left right.

Definition subw (X : Xlen) (left right : Expr) : Expr :=
  if is_zero X right then sext32 X left
  else if is_zero X left then sext32 X (neg right)
  else binary SubW left right.

Definition sllw (X : Xlen) (left right : Expr) : Expr :=
  if is_zero X right then sext32 X left else binary SllW left right.
Definition srlw (X : Xlen) (left right : Expr) : Expr :=
  if is_zero X right then sext32 X left else binary SrlW left right.
Definition sraw (X : Xlen) (left right : Expr) : Expr :=
  if is_zero X right then sext32 X left else binary SraW left right.

Definition mulw (left right : Expr) : Expr := binary MulW left right.
Definition divw (left right : Expr) : Expr := binary DivW left right.
Definition divuw (left right : Expr) : Expr := binary DivUW left right.
Definition remw (left right : Expr) : Expr := binary RemW left right.
Definition remuw (left right : Expr) : Expr := binary RemUW left right.

Definition mulh (left right : Expr) : Expr := binary MulH left right.
Definition mulhsu (left right : Expr) : Expr := binary MulHSU left right.
Definition mulhu (left right : Expr) : Expr := binary MulHU left right.

Definition clz (val : Expr) : Expr := unary Clz val.
Definition ctz (val : Expr) : Expr := unary Ctz val.
Definition cpop (val : Expr) : Expr := unary Cpop val.
Definition clz32 (val : Expr) : Expr := unary Clz32 val.
Definition ctz32 (val : Expr) : Expr := unary Ctz32 val.
Definition cpop32 (val : Expr) : Expr := unary Cpop32 val.
Definition orc8 (val : Expr) : Expr := unary Orc8 val.
Definition rev8 (val : Expr) : Expr := unary Rev8 val.

Definition sext8 (X : Xlen) (val : Expr) : Expr :=
  match val with
  | Imm v =>
      let low := Z.land (to_u64 X v) 0xff in
      let sx := wrap 64 (to_signed 8 low) in
      Imm (from_u64 X sx)
  | _ => unary Sext8 val
  end.

Definition sext16 (X : Xlen) (val : Expr) : Expr :=
  match val with
  | Imm v =>
      let low := Z.land (to_u64 X v) 0xffff in
      let sx := wrap 64 (to_signed 16 low) in
      Imm (from_u64 X sx)
  | _ => unary Sext16 val
  end.

Definition zext8 (X : Xlen) (val : Expr) : Expr :=
  match val with
  | Imm v => Imm (from_u64 X (Z.land (to_u64 X v) 0xff))
  | _ => unary Zext8 val
  end.

Definition zext16 (X : Xlen) (val : Expr) : Expr :=
  match val with
  | Imm v => Imm (from_u64 X (Z.land (to_u64 X v) 0xffff))
  | _ => unary Zext16 val
  end.

Definition zext32 (X : Xlen) (val : Expr) : Expr :=
  match val with
  | Imm v => Imm (from_u64 X (Z.land (to_u64 X v) 0xffffffff))
  | _ => unary Zext32 val
  end.

Definition pack (left right : Expr) : Expr := binary Pack left right.
Definition pack8 (left right : Expr) : Expr := binary Pack8 left right.
Definition pack16 (left right : Expr) : Expr := binary Pack16 left right.
Definition brev8 (val : Expr) : Expr := unary Brev8 val.
Definition zip (val : Expr) : Expr := unary Zip val.
Definition unzip (val : Expr) : Expr := unary Unzip val.

Definition res_addr : Expr := Read ResAddr.
Definition res_valid : Expr := Read ResValid.
Definition instret : Expr := Read Instret.
Definition cycle : Expr := Read Cycle.
Definition temp (idx : Z) : Expr := Read (Temp idx).
Definition trace_idx : Expr := Read TraceIdx.
Definition pc_idx : Expr := Read PcIdx.
Definition exited : Expr := Read Exited.
Definition exit_code : Expr := Read ExitCode.

Definition slt (left right : Expr) : Expr := lt left right.
Definition sltu (X : Xlen) (left right : Expr) : Expr := ltu X left right.

Definition min (left right : Expr) : Expr := select (lt left right) left right.
Definition max (left right : Expr) : Expr := select (lt left right) right left.
Definition minu (X : Xlen) (left right : Expr) : Expr := select (ltu X left right) left right.
Definition maxu (X : Xlen) (left right : Expr) : Expr := select (ltu X left right) right left.

Definition min32 (X : Xlen) (left right : Expr) : Expr :=
  select (lt (sext32 X left) (sext32 X right)) left right.
Definition max32 (X : Xlen) (left right : Expr) : Expr :=
  select (lt (sext32 X left) (sext32 X right)) right left.
Definition minu32 (X : Xlen) (left right : Expr) : Expr :=
  select (ltu X (zext32 X left) (zext32 X right)) left right.
Definition maxu32 (X : Xlen) (left right : Expr) : Expr :=
  select (ltu X (zext32 X left) (zext32 X right)) right left.

End Expr.

Module Stmt.

Definition write_reg (r : Z) (value : Expr) : Stmt := Write (WReg r) value.
Definition write_mem (base : Expr) (offset : Z) (value : Expr) (width : Z) : Stmt :=
  Write (WMem base offset width) value.
Definition write_mem_addr (addr value : Expr) (width : Z) : Stmt :=
  Write (WMem addr 0 width) value.
Definition write_csr (c : Z) (value : Expr) : Stmt := Write (WCsr c) value.
Definition write_pc (value : Expr) : Stmt := Write WPc value.
Definition write_temp (idx : Z) (value : Expr) : Stmt := Write (WTemp idx) value.
Definition write_res_addr (value : Expr) : Stmt := Write WResAddr value.
Definition write_res_valid (value : Expr) : Stmt := Write WResValid value.
Definition write_exited (value : Expr) : Stmt := Write WExited value.
Definition write_exit_code (value : Expr) : Stmt := Write WExitCode value.
Definition extern_call (fn_name : string) (args : list Expr) : Stmt := SExternCall fn_name args.
Definition if_then (cond : Expr) (then_stmts : list Stmt) : Stmt := If cond then_stmts [].
Definition if_then_else (cond : Expr) (then_stmts else_stmts : list Stmt) : Stmt :=
  If cond then_stmts else_stmts.

End Stmt.

Module Terminator.

Definition default : Terminator := Fall None.
Definition jump (target : Z) : Terminator := Jump target.
Definition jump_dyn (addr : Expr) : Terminator := JumpDyn addr None.
Definition fall (target : Z) : Terminator := Fall (Some target).
Definition branch (cond : Expr) (target : Z) : Terminator := Branch cond target None HNone.
Definition branch_with_fall (cond : Expr) (target fall : Z) : Terminator :=
  Branch cond target (Some fall) HNone.
Definition exit (code : Expr) : Terminator := Exit code.
Definition trap (message : string) : Terminator := Trap message.

Definition is_fall (t : Terminator) : bool := match t with Fall _ => true | _ => false end.
Definition is_jump (t : Terminator) : bool :=
  match t with Jump _ | JumpDyn _ _ => true | _ => false end.
Definition is_static_jump (t : Terminator) : bool := match t with Jump _ => true | _ => false end.
Definition is_dyn_jump (t : Terminator) : bool :=
  match t with JumpDyn _ _ => true | _ => false end.
Definition is_branch (t : Terminator) : bool :=
  match t with Branch _ _ _ _ => true | _ => false end.

Definition static_targets (t : Terminator) : list Z :=
  match t with
  | Jump target | Branch _ target _ _ => [target]
  | JumpDyn _ (Some targets) => targets
  | _ => []
  end.

Definition is_control_flow (t : Terminator) : bool :=
  negb (match t with Fall _ => true | _ => false end).

Definition fall_target (t : Terminator) : option Z :=
  match t with
  | Fall target => target
  | Branch _ _ fall _ => fall
  | _ => None
  end.

End Terminator.

Module SourceLoc.

Definition new (f : string) (l : Z) (fn : string) : SourceLoc := mkSourceLoc f l fn.
Definition is_valid (s : SourceLoc) : bool :=
  negb (bool_decide (file s = EmptyString)) && negb (bool_decide (file s = "??"%string))
  && (0 <? line s).

End SourceLoc.

Module InstrIR.

Definition new (pc size op raw : Z) (stmts : list Stmt) (term : Terminator) : InstrIR :=
  mkInstrIR pc size op raw stmts term None.
Definition with_source_loc (pc size op raw : Z) (stmts : list Stmt) (term : Terminator)
    (loc : SourceLoc) : InstrIR :=
  mkInstrIR pc size op raw stmts term (Some loc).
Definition set_source_loc (i : InstrIR) (loc : SourceLoc) : InstrIR :=
  mkInstrIR (ir_pc i) (ir_size i) (ir_op i) (ir_raw i) (statements i) (terminator i) (Some loc).

(** [X::from_u64(X::to_u64(self.pc) + u64::from(self.size))]; the addition is on [u64]. *)
Definition next_pc (X : Xlen) (i : InstrIR) : result Z :=
  s ← add_u 64 (to_u64 X (ir_pc i)) (ir_size i); mret (from_u64 X s).

Definition is_compressed (i : InstrIR) : bool := ir_size i =? 2.
Definition is_branch (i : InstrIR) : bool := Terminator.is_branch (terminator i).
Definition is_jump (i : InstrIR) : bool := Terminator.is_jump (terminator i).
Definition is_block_end (i : InstrIR) : bool := Terminator.is_control_flow (terminator i).
Definition with_raw (i : InstrIR) (raw : Z) : InstrIR :=
  mkInstrIR (ir_pc i) (ir_size i) (ir_op i) raw (statements i) (terminator i) (source_loc i).

End InstrIR.

Module BlockIR.

Definition new (pc : Z) : BlockIR := mkBlockIR pc pc [].
Definition push (X : Xlen) (b : BlockIR) (i : InstrIR) : result BlockIR :=
  e ← InstrIR.next_pc X i; mret (mkBlockIR (start_pc b) e (instructions b ++ [i])).
Definition terminator (b : BlockIR) : option Terminator := terminator <$> last (instructions b).
(** The subtraction is on [u64]. *)
Definition size (X : Xlen) (b : BlockIR) : result Z :=
  sub_u 64 (to_u64 X (end_pc b)) (to_u64 X (start_pc b)).
Definition len (b : BlockIR) : nat := length (instructions b).
Definition is_empty (b : BlockIR) : bool := match instructions b with [] => true | _ => false end.

End BlockIR.

(** The fluent builder. *)
Module IRBuilder.

Record t := mk {
  b_pc : Z; b_size : Z; b_op : Z; b_raw : Z; b_statements : list Stmt
}.

Definition new (pc size : Z) : t := mk pc size 0 0 [].
Definition with_op (b : t) (op : Z) : t :=
  mk (b_pc b) (b_size b) op (b_raw b) (b_statements b).
Definition with_raw (b : t) (raw : Z) : t :=
  mk (b_pc b) (b_size b) (b_op b) raw (b_statements b).
Definition stmt (b : t) (s : Stmt) : t :=
  mk (b_pc b) (b_size b) (b_op b) (b_raw b) (b_statements b ++ [s]).

Definition write_reg (b : t) (rd : Z) (value : Expr) : t :=
  if negb (rd =? 0) then stmt b (Stmt.write_reg rd value) else b.
Definition write_mem (b : t) (base : Expr) (offset : Z) (value : Expr) (width : Z) : t :=
  stmt b (Stmt.write_mem base offset value width).
Definition write_mem_addr (b : t) (addr value : Expr) (width : Z) : t :=
  stmt b (Stmt.write_mem_addr addr value width).
Definition write_csr (b : t) (c : Z) (value : Expr) : t := stmt b (Stmt.write_csr c value).
Definition extern_call (b : t) (fn_name : string) (args : list Expr) : t :=
  stmt b (Stmt.extern_call fn_name args).
Definition extern_call_to_reg (X : Xlen) (b : t) (rd : Z) (fn_name : string)
    (args : list Expr) : t :=
  if negb (rd =? 0)
  then stmt b (Stmt.write_reg rd (Expr.extern_call fn_name args (REG_BYTES X)))
  else b.
Definition if_then (b : t) (cond : Expr) (then_stmts : list Stmt) : t :=
  stmt b (Stmt.if_then cond then_stmts).

Definition build (b : t) (term : Terminator) : InstrIR :=
  InstrIR.new (b_pc b) (b_size b) (b_op b) (b_raw b) (b_statements b) term.
Definition build_fall (X : Xlen) (b : t) : result InstrIR :=
  s ← add_u 64 (to_u64 X (b_pc b)) (b_size b);
  mret (build b (Terminator.fall (from_u64 X s))).
Definition build_fall_no_target (b : t) : InstrIR := build b (Fall None).
Definition build_jump (b : t) (target : Z) : InstrIR := build b (Terminator.jump target).
Definition build_jump_dyn (b : t) (addr : Expr) : InstrIR := build b (Terminator.jump_dyn addr).
Definition build_branch (b : t) (cond : Expr) (target : Z) : InstrIR :=
  build b (Terminator.branch cond target).
Definition build_exit (b : t) (code : Expr) : InstrIR := build b (Terminator.exit code).
Definition build_trap (b : t) (message : string) : InstrIR := build b (Terminator.trap message).

End IRBuilder.
