(* ===== verification/IRSem.v ===== *)
(** * Meaning of the IR

    A denotational semantics of the IR: the specification that every backend
    has to realise and that the lifter is verified against.  Values are
    unsigned integers of [VALUE X] bits.  [None] is a program without a meaning
    (a shift by the register width or more, which the C backend renders as a
    shift with undefined behaviour). *)

From S2P Require Import Prelude Xlen IR IRBuild.

(** ** Machine state *)

Record state := mkState {
  s_regs : Z -> Z;
  s_csrs : Z -> Z;
  s_mem : Z -> Z;
  s_temps : Z -> Z;
  s_res_addr : Z;
  s_res_valid : Z;
  s_exited : Z;
  s_exit_code : Z;
  s_pc : Z;
  s_cycle : Z;
  s_instret : Z;
  s_trace_idx : Z;
  s_pc_idx : Z
}.

Definition upd (f : Z -> Z) (k v : Z) : Z -> Z := fun i => if i =? k then v else f i.

(** [x0] reads as zero and ignores writes. *)
Definition get_reg (st : state) (r : Z) : Z := if r =? 0 then 0 else s_regs st r.

Definition with_regs (st : state) (f : Z -> Z) : state :=
  mkState f (s_csrs st) (s_mem st) (s_temps st) (s_res_addr st) (s_res_valid st)
    (s_exited st) (s_exit_code st) (s_pc st) (s_cycle st) (s_instret st)
    (s_trace_idx st) (s_pc_idx st).
Definition with_csrs (st : state) (f : Z -> Z) : state :=
  mkState (s_regs st) f (s_mem st) (s_temps st) (s_res_addr st) (s_res_valid st)
    (s_exited st) (s_exit_code st) (s_pc st) (s_cycle st) (s_instret st)
    (s_trace_idx st) (s_pc_idx st).
Definition with_mem (st : state) (f : Z -> Z) : state :=
  mkState (s_regs st) (s_csrs st) f (s_temps st) (s_res_addr st) (s_res_valid st)
    (s_exited st) (s_exit_code st) (s_pc st) (s_cycle st) (s_instret st)
    (s_trace_idx st) (s_pc_idx st).
Definition with_temps (st : state) (f : Z -> Z) : state :=
  mkState (s_regs st) (s_csrs st) (s_mem st) f (s_res_addr st) (s_res_valid st)
    (s_exited st) (s_exit_code st) (s_pc st) (s_cycle st) (s_instret st)
    (s_trace_idx st) (s_pc_idx st).
Definition with_res_addr (st : state) (v : Z) : state :=
  mkState (s_regs st) (s_csrs st) (s_mem st) (s_temps st) v (s_res_valid st)
    (s_exited st) (s_exit_code st) (s_pc st) (s_cycle st) (s_instret st)
    (s_trace_idx st) (s_pc_idx st).
Definition with_res_valid (st : state) (v : Z) : state :=
  mkState (s_regs st) (s_csrs st) (s_mem st) (s_temps st) (s_res_addr st) v
    (s_exited st) (s_exit_code st) (s_pc st) (s_cycle st) (s_instret st)
    (s_trace_idx st) (s_pc_idx st).
Definition with_exited (st : state) (v : Z) : state :=
  mkState (s_regs st) (s_csrs st) (s_mem st) (s_temps st) (s_res_addr st) (s_res_valid st)
    v (s_exit_code st) (s_pc st) (s_cycle st) (s_instret st)
    (s_trace_idx st) (s_pc_idx st).
Definition with_exit_code (st : state) (v : Z) : state :=
  mkState (s_regs st) (s_csrs st) (s_mem st) (s_temps st) (s_res_addr st) (s_res_valid st)
    (s_exited st) v (s_pc st) (s_cycle st) (s_instret st)
    (s_trace_idx st) (s_pc_idx st).
Definition with_pc (st : state) (v : Z) : state :=
  mkState (s_regs st) (s_csrs st) (s_mem st) (s_temps st) (s_res_addr st) (s_res_valid st)
    (s_exited st) (s_exit_code st) v (s_cycle st) (s_instret st)
    (s_trace_idx st) (s_pc_idx st).

Definition set_reg (st : state) (r v : Z) : state :=
  if r =? 0 then st else with_regs st (upd (s_regs st) r v).
Definition set_csr (st : state) (c v : Z) : state := with_csrs st (upd (s_csrs st) c v).
Definition set_temp (st : state) (t v : Z) : state := with_temps st (upd (s_temps st) t v).

(** Little-endian memory access of [n] bytes; addresses wrap at the register width. *)
Fixpoint load_le (X : Xlen) (m : Z -> Z) (addr : Z) (n : nat) : Z :=
  match n with
  | O => 0
  | S n' => wrap 8 (m (wrap (VALUE X) addr)) + 2 ^ 8 * load_le X m (addr + 1) n'
  end.

Fixpoint store_le (X : Xlen) (m : Z -> Z) (addr : Z) (n : nat) (v : Z) : Z -> Z :=
  match n with
  | O => m
  | S n' => store_le X (upd m (wrap (VALUE X) addr) (wrap 8 v)) (addr + 1) n' (Z.shiftr v 8)
  end.

Definition load (X : Xlen) (st : state) (addr width : Z) (signed : bool) : Z :=
  let raw := load_le X (s_mem st) addr (Z.to_nat width) in
  wrap (VALUE X) (if signed then sext (8 * width) raw else raw).

Definition store (X : Xlen) (st : state) (addr width v : Z) : state :=
  with_mem st (store_le X (s_mem st) addr (Z.to_nat width) v).

(** ** Bit counting and permutation *)

Definition clz (w x : Z) : Z := if x =? 0 then w else w - 1 - Z.log2 x.

Fixpoint ctz_from (x i : Z) (n : nat) : Z :=
  match n with
  | O => i
  | S n' => if Z.testbit x i then i else ctz_from x (i + 1) n'
  end.
Definition ctz (w x : Z) : Z := ctz_from x 0 (Z.to_nat w).

Fixpoint cpop_from (x i : Z) (n : nat) : Z :=
  match n with
  | O => 0
  | S n' => b2z (Z.testbit x i) + cpop_from x (i + 1) n'
  end.
Definition cpop (w x : Z) : Z := cpop_from x 0 (Z.to_nat w).

(** Build a word from its bits. *)
Fixpoint of_bits (f : Z -> bool) (i : Z) (n : nat) : Z :=
  match n with
  | O => 0
  | S n' => b2z (f i) + 2 * of_bits f (i + 1) n'
  end.
Definition word_of_bits (w : Z) (f : Z -> bool) : Z := of_bits f 0 (Z.to_nat w).

(** Bit [i] of each result: OR-combine of the byte, byte reversal, bit reversal
    in bytes, interleave and its inverse. *)
Definition orc8 (w x : Z) : Z :=
  word_of_bits w (fun i => negb (wrap 8 (Z.shiftr x (8 * (i / 8))) =? 0)).
Definition rev8 (w x : Z) : Z :=
  word_of_bits w (fun i => Z.testbit x (w - 8 - 8 * (i / 8) + i mod 8)).
Definition brev8 (w x : Z) : Z :=
  word_of_bits w (fun i => Z.testbit x (8 * (i / 8) + (7 - i mod 8))).
Definition zip (w x : Z) : Z :=
  word_of_bits w (fun i => Z.testbit x (i / 2 + (w / 2) * (i mod 2))).
Definition unzip (w x : Z) : Z :=
  word_of_bits w (fun i => Z.testbit x (if i <? w / 2 then 2 * i else 2 * (i - w / 2) + 1)).

(** ** Operators *)

Definition sx32 (X : Xlen) (x : Z) : Z := wrap (VALUE X) (sext 32 x).

Definition eval_unary (X : Xlen) (op : UnaryOp) (x : Z) : Z :=
  let w := VALUE X in
  match op with
  | Not => wrap w (Z.lnot x)
  | Neg => wrap w (- x)
  | Sext8 => wrap w (sext 8 x)
  | Sext16 => wrap w (sext 16 x)
  | Sext32 => sx32 X x
  | Zext8 => wrap 8 x
  | Zext16 => wrap 16 x
  | Zext32 => wrap 32 x
  | Clz => clz w x
  | Ctz => ctz w x
  | Cpop => cpop w x
  | Clz32 => clz 32 (wrap 32 x)
  | Ctz32 => ctz 32 (wrap 32 x)
  | Cpop32 => cpop 32 (wrap 32 x)
  | Orc8 => orc8 w x
  | Rev8 => rev8 w x
  | Brev8 => brev8 w x
  | Zip => zip 32 (wrap 32 x)
  | Unzip => unzip 32 (wrap 32 x)
  end.

Definition eval_binary (X : Xlen) (op : BinaryOp) (l r : Z) : option Z :=
  let w := VALUE X in
  let s := to_signed w in
  let s32 := sext 32 in
  let u32 := wrap 32 in
  match op with
  | Add => Some (wrap w (l + r))
  | Sub => Some (wrap w (l - r))
  | Mul => Some (wrap w (l * r))
  | MulH => Some (wrap w (Z.shiftr (s l * s r) w))
  | MulHSU => Some (wrap w (Z.shiftr (s l * r) w))
  | MulHU => Some (wrap w (Z.shiftr (l * r) w))
  | Div => Some (if r =? 0 then 2 ^ w - 1 else wrap w (Z.quot (s l) (s r)))
  | DivU => Some (if r =? 0 then 2 ^ w - 1 else l / r)
  | Rem => Some (if r =? 0 then l else wrap w (Z.rem (s l) (s r)))
  | RemU => Some (if r =? 0 then l else l mod r)
  | And => Some (Z.land l r)
  | Or => Some (Z.lor l r)
  | Xor => Some (Z.lxor l r)
  | Sll => if r <? w then Some (wrap w (Z.shiftl l r)) else None
  | Srl => if r <? w then Some (Z.shiftr l r) else None
  | Sra => if r <? w then Some (wrap w (Z.shiftr (s l) r)) else None
  | Eq => Some (b2z (l =? r))
  | Ne => Some (b2z (negb (l =? r)))
  | Lt => Some (b2z (s l <? s r))
  | Ge => Some (b2z (s r <=? s l))
  | Ltu => Some (b2z (l <? r))
  | Geu => Some (b2z (r <=? l))
  | AddW => Some (sx32 X (l + r))
  | SubW => Some (sx32 X (l - r))
  | MulW => Some (sx32 X (l * r))
  | DivW => Some (if u32 r =? 0 then 2 ^ w - 1 else sx32 X (Z.quot (s32 l) (s32 r)))
  | DivUW => Some (if u32 r =? 0 then 2 ^ w - 1 else sx32 X (u32 l / u32 r))
  | RemW => Some (if u32 r =? 0 then sx32 X l else sx32 X (Z.rem (s32 l) (s32 r)))
  | RemUW => Some (if u32 r =? 0 then sx32 X l else sx32 X (u32 l mod u32 r))
  | SllW => if r <? 32 then Some (sx32 X (Z.shiftl l r)) else None
  | SrlW => if r <? 32 then Some (sx32 X (Z.shiftr (u32 l) r)) else None
  | SraW => if r <? 32 then Some (wrap w (Z.shiftr (s32 l) r)) else None
  | Pack => Some (Z.lor (wrap (w / 2) l) (Z.shiftl (wrap (w / 2) r) (w / 2)))
  | Pack8 => Some (Z.lor (wrap 8 l) (Z.shiftl (wrap 8 r) 8))
  | Pack16 => Some (sx32 X (Z.lor (wrap 16 l) (Z.shiftl (wrap 16 r) 16)))
  end.

Section semantics.
(** C variables in scope and the runtime functions the generated code calls. *)
Context (vars : string -> Z) (extern : string -> list Z -> state -> option (Z * state)).
Context (X : Xlen).

Fixpoint eval (st : state) (e : Expr) : option Z :=
  match e with
  | Imm v => Some v
  | Read r => eval_read st r
  | PcConst pc => Some pc
  | Var name => Some (wrap (VALUE X) (vars name))
  | Unary op e => x ← eval st e; Some (eval_unary X op x)
  | Binary op l r => x ← eval st l; y ← eval st r; eval_binary X op x y
  | Ternary Select c t f => b ← eval st c; if b =? 0 then eval st f else eval st t
  | ExternCall _ _ _ => None
  end
with eval_read (st : state) (r : ReadExpr) : option Z :=
  match r with
  | Reg r => Some (get_reg st r)
  | Csr c => Some (s_csrs st c)
  | Mem base offset width signed => b ← eval st base; Some (load X st (b + offset) width signed)
  | MemAddr addr width signed => a ← eval st addr; Some (load X st a width signed)
  | Pc => Some (s_pc st)
  | Cycle => Some (s_cycle st)
  | Instret => Some (s_instret st)
  | Temp t => Some (s_temps st t)
  | TraceIdx => Some (s_trace_idx st)
  | PcIdx => Some (s_pc_idx st)
  | ResAddr => Some (s_res_addr st)
  | ResValid => Some (s_res_valid st)
  | Exited => Some (s_exited st)
  | ExitCode => Some (s_exit_code st)
  end.

(** A call has a meaning where the lifter puts it: as the whole right-hand side
    of a write, or as a statement. *)
Definition eval_rhs (st : state) (e : Expr) : option (Z * state) :=
  match e with
  | ExternCall name args _ => vs ← mapM (eval st) args; extern name vs st
  | _ => v ← eval st e; Some (v, st)
  end.

Definition exec_write (st : state) (t : WriteTarget) (v : Z) : option state :=
  match t with
  | WReg r => Some (set_reg st r v)
  | WCsr c => Some (set_csr st c v)
  | WMem base offset width => b ← eval st base; Some (store X st (b + offset) width v)
  | WPc => Some (with_pc st v)
  | WTemp i => Some (set_temp st i v)
  | WResAddr => Some (with_res_addr st v)
  | WResValid => Some (with_res_valid st v)
  | WExited => Some (with_exited st v)
  | WExitCode => Some (with_exit_code st v)
  end.

Fixpoint exec_stmt (st : state) (s : Stmt) : option state :=
  let fix exec_list (st : state) (l : list Stmt) : option state :=
    match l with
    | [] => Some st
    | s :: l' => st' ← exec_stmt st s; exec_list st' l'
    end in
  match s with
  | Write t e => '(v, st') ← eval_rhs st e; exec_write st' t v
  | If c ts es => b ← eval st c; if b =? 0 then exec_list st es else exec_list st ts
  | SExternCall name args => vs ← mapM (eval st) args; snd <$> extern name vs st
  end.

Fixpoint exec_stmts (st : state) (l : list Stmt) : option state :=
  match l with
  | [] => Some st
  | s :: l' => st' ← exec_stmt st s; exec_stmts st' l'
  end.
End semantics.

(** Does a statement list write the exit flag or the exit code
    ([CEmitter::statements_write_exit])?  If so the generated code tests the
    flag before the terminator. *)
Fixpoint stmt_writes_exit (s : Stmt) : bool :=
  match s with
  | Write WExited _ | Write WExitCode _ => true
  | Write _ _ => false
  | If _ ts es => existsb stmt_writes_exit ts || existsb stmt_writes_exit es
  | SExternCall _ _ => false
  end.
Definition statements_write_exit (l : list Stmt) : bool := existsb stmt_writes_exit l.

(** Where control goes after an instruction. *)
Inductive next := NPc (pc : Z) | NExit (code : Z) | NTrap.

Section instr_semantics.
Context (vars : string -> Z) (extern : string -> list Z -> state -> option (Z * state)).
Context (X : Xlen).

Definition exec_term (st : state) (pc size : Z) (t : Terminator) : option next :=
  let fall_pc := wrap (VALUE X) (pc + size) in
  match t with
  | Fall target => Some (NPc (default fall_pc target))
  | Jump target => Some (NPc target)
  | JumpDyn addr _ => a ← eval vars X st addr; Some (NPc a)
  | Branch cond target fall _ =>
      b ← eval vars X st cond; Some (NPc (if b =? 0 then default fall_pc fall else target))
  | Exit code => c ← eval vars X st code; Some (NExit c)
  | Trap _ => Some NTrap
  end.

Definition exec_instr (st : state) (i : InstrIR) : option (state * next) :=
  st' ← exec_stmts vars extern X st (statements i);
  if statements_write_exit (statements i) && negb (s_exited st' =? 0)
  then Some (st', NExit (s_exit_code st'))
  else n ← exec_term st' (ir_pc i) (ir_size i) (terminator i); Some (st', n).
End instr_semantics.
