(* ===== verification/IRFacts.v ===== *)
(** * Facts about the IR semantics

    Evaluation stays within the register width, and the simplifications the
    expression factories perform (constant folding, zero operands, [x0])
    preserve the meaning of the expression they are asked to build. *)

From S2P Require Import Prelude Xlen IR IRBuild IRSem.

(** ** States whose components fit their width *)

Record wf_state (X : Xlen) (st : state) : Prop := {
  wf_regs : forall r, in_reg X (s_regs st r);
  wf_csrs : forall c, in_reg X (s_csrs st c);
  wf_temps : forall t, in_reg X (s_temps st t);
  wf_res_addr : in_reg X (s_res_addr st);
  wf_res_valid : in_reg X (s_res_valid st);
  wf_exited : in_reg X (s_exited st);
  wf_exit_code : in_reg X (s_exit_code st);
  wf_pc : in_reg X (s_pc st);
  wf_cycle : in_reg X (s_cycle st);
  wf_instret : in_reg X (s_instret st);
  wf_trace_idx : in_reg X (s_trace_idx st);
  wf_pc_idx : in_reg X (s_pc_idx st)
}.

Create HintDb width discriminated.

Lemma in_reg_0 X : in_reg X 0.
Proof. destruct X; done. Qed.

Lemma in_reg_1 X : in_reg X 1.
Proof. destruct X; done. Qed.

Lemma in_reg_b2z X b : in_reg X (b2z b).
Proof. destruct b; [apply in_reg_1 | apply in_reg_0]. Qed.

Lemma in_reg_wrap X v : in_reg X (wrap (VALUE X) v).
Proof. apply wrap_range. pose proof (VALUE_pos X). lia. Qed.

Lemma in_u_le v w x : 0 <= v <= w -> in_u v x -> in_u w x.
Proof.
  intros H [H1 H2]. split; [done|]. eapply Z.lt_le_trans; [done|].
  apply Z.pow_le_mono_r; lia.
Qed.

Lemma in_reg_small X v w : 0 <= v <= 32 -> in_u v w -> in_reg X w.
Proof. intros. eapply in_u_le; [|done]. pose proof (VALUE_le_64 X). lia. Qed.

Lemma in_reg_64 X v : in_reg X v -> in_u 64 v.
Proof. apply in_u_le. pose proof (VALUE_le_64 X). lia. Qed.

Lemma get_reg_range X st r : wf_state X st -> in_reg X (get_reg st r).
Proof.
  intros H. unfold get_reg. destruct (r =? 0); [apply in_reg_0 | apply (wf_regs X st H)].
Qed.

Lemma sx32_range X v : in_reg X (sx32 X v).
Proof. apply in_reg_wrap. Qed.

Lemma bound_land w x y : 0 <= w -> in_u w x -> 0 <= y -> in_u w (Z.land x y).
Proof.
  intros Hw [H1 H2] Hy. split; [apply Z.land_nonneg; lia|].
  rewrite <- (Z.mod_small x (2 ^ w)) by lia. rewrite <- Z.land_ones by done.
  rewrite <- Z.land_assoc, (Z.land_comm (Z.ones w)), Z.land_assoc, Z.land_ones by done.
  apply Z.mod_pos_bound, pow2_pos. done.
Qed.

(** A nonnegative number is below [2^w] when all its bits from [w] on are clear. *)
Lemma in_u_bits w x :
  0 <= w -> 0 <= x -> (forall i, w <= i -> Z.testbit x i = false) -> in_u w x.
Proof.
  intros Hw Hx Hb. split; [done|].
  assert (x = x mod 2 ^ w) as E.
  { apply Z.bits_inj'. intros i Hi. destruct (Z.ltb_spec i w).
    - by rewrite Z.mod_pow2_bits_low.
    - rewrite Z.mod_pow2_bits_high by lia. by apply Hb. }
  rewrite E. apply Z.mod_pos_bound, pow2_pos. done.
Qed.

Lemma testbit_high w x i : 0 <= w -> in_u w x -> w <= i -> Z.testbit x i = false.
Proof.
  intros Hw Hx Hi. rewrite <- (Z.mod_small x (2 ^ w)) by apply Hx.
  apply Z.mod_pow2_bits_high. lia.
Qed.

Lemma bound_lor w x y : 0 <= w -> in_u w x -> in_u w y -> in_u w (Z.lor x y).
Proof.
  intros Hw Hx Hy. apply in_u_bits; [done| |].
  - apply Z.lor_nonneg. split; [apply Hx | apply Hy].
  - intros i Hi. rewrite Z.lor_spec, !(testbit_high w) by done. done.
Qed.

Lemma bound_lxor w x y : 0 <= w -> in_u w x -> in_u w y -> in_u w (Z.lxor x y).
Proof.
  intros Hw Hx Hy. apply in_u_bits; [done| |].
  - apply Z.lxor_nonneg. destruct Hx, Hy. lia.
  - intros i Hi. rewrite Z.lxor_spec, !(testbit_high w) by done. done.
Qed.

Lemma bound_shiftr w x n : 0 <= n -> in_u w x -> in_u w (Z.shiftr x n).
Proof.
  intros Hn [H1 H2]. rewrite Z.shiftr_div_pow2 by done. split.
  - apply Z.div_pos; [done | apply pow2_pos; done].
  - apply Z.div_lt_upper_bound; [apply pow2_pos; done|].
    pose proof (pow2_pos n Hn). nia.
Qed.

Lemma ctz_from_range x i n : i <= ctz_from x i n <= i + Z.of_nat n.
Proof.
  revert i. induction n as [|n IH]; intros i; simpl; [lia|].
  destruct (Z.testbit x i); [lia|]. specialize (IH (i + 1)). lia.
Qed.

Lemma cpop_from_range x i n : 0 <= cpop_from x i n <= Z.of_nat n.
Proof.
  revert i. induction n as [|n IH]; intros i; simpl; [lia|].
  specialize (IH (i + 1)). destruct (Z.testbit x i); simpl; lia.
Qed.

Lemma of_bits_range f i n : 0 <= of_bits f i n < 2 ^ Z.of_nat n.
Proof.
  revert i. induction n as [|n IH]; intros i; simpl of_bits; [done|].
  rewrite Nat2Z.inj_succ, Z.pow_succ_r by lia. specialize (IH (i + 1)).
  destruct (f i); simpl; lia.
Qed.

Lemma word_of_bits_range w f : 0 <= w -> in_u w (word_of_bits w f).
Proof.
  intros. unfold word_of_bits, in_u. pose proof (of_bits_range f 0 (Z.to_nat w)).
  by rewrite Z2Nat.id in H0.
Qed.

Lemma clz_range w x : 0 < w -> in_u w x -> 0 <= clz w x <= w.
Proof.
  intros Hw [H1 H2]. unfold clz. destruct (Z.eqb_spec x 0); [lia|].
  pose proof (Z.log2_nonneg x). pose proof (proj1 (Z.log2_lt_pow2 x w ltac:(lia)) H2). lia.
Qed.

Lemma ctz_range w x : 0 <= w -> 0 <= ctz w x <= w.
Proof. intros. pose proof (ctz_from_range x 0 (Z.to_nat w)). unfold ctz. lia. Qed.

Lemma cpop_range w x : 0 <= w -> 0 <= cpop w x <= w.
Proof. intros. pose proof (cpop_from_range x 0 (Z.to_nat w)). unfold cpop. lia. Qed.

Lemma small_in_reg X v : 0 <= v <= 64 -> in_reg X v.
Proof. intros. destruct X; split; simpl; lia. Qed.

Lemma eval_unary_range X op x : in_reg X x -> in_reg X (eval_unary X op x).
Proof.
  intros Hx. pose proof (VALUE_le_64 X) as HV.
  assert (in_u 32 (wrap 32 x)) as H32 by (apply wrap_range; lia).
  pose proof (clz_range (VALUE X) x ltac:(lia) Hx).
  pose proof (clz_range 32 (wrap 32 x) ltac:(lia) H32).
  pose proof (ctz_range (VALUE X) x). pose proof (ctz_range 32 (wrap 32 x)).
  pose proof (cpop_range (VALUE X) x). pose proof (cpop_range 32 (wrap 32 x)).
  destruct op; cbn [eval_unary]; unfold orc8, rev8, brev8, zip, unzip;
    first
    [ apply in_reg_wrap
    | apply word_of_bits_range; lia
    | apply (in_reg_small X 8); [lia|]; apply wrap_range; lia
    | apply (in_reg_small X 16); [lia|]; apply wrap_range; lia
    | apply (in_reg_small X 32); [lia|]; done
    | apply (in_reg_small X 32); [lia|]; apply word_of_bits_range; lia
    | apply small_in_reg; lia ].
Qed.

Lemma in_reg_ones X : in_reg X (2 ^ VALUE X - 1).
Proof. destruct X; done. Qed.

Lemma in_u_shiftl v w n x : 0 <= v -> 0 <= n -> v + n <= w -> in_u v x -> in_u w (Z.shiftl x n).
Proof.
  intros Hv Hn Hw [H1 H2]. rewrite Z.shiftl_mul_pow2 by done. split; [nia|].
  apply Z.lt_le_trans with (2 ^ (v + n)); [|apply Z.pow_le_mono_r; lia].
  rewrite Z.pow_add_r by done. pose proof (pow2_pos n Hn). nia.
Qed.

Lemma in_reg_divmod X l r : in_reg X l -> 0 < r -> in_reg X (l / r) /\ in_reg X (l mod r).
Proof.
  intros [H1 H2] Hr. pose proof (Z.mod_pos_bound l r Hr). split; split.
  - apply Z.div_pos; lia.
  - apply Z.div_lt_upper_bound; nia.
  - lia.
  - pose proof (Z.mod_le l r). lia.
Qed.

Lemma in_reg_pack X h l r :
  0 < h -> 2 * h <= VALUE X -> in_reg X (Z.lor (wrap h l) (Z.shiftl (wrap h r) h)).
Proof.
  intros. apply bound_lor; [lia| |].
  - apply (in_u_le h); [lia|]. apply wrap_range. lia.
  - apply (in_u_shiftl h); [lia..|]. apply wrap_range. lia.
Qed.

Lemma eval_binary_range X op l r v :
  in_reg X l -> in_reg X r -> eval_binary X op l r = Some v -> in_reg X v.
Proof.
  intros Hl Hr He. pose proof (VALUE_le_64 X) as HV.
  destruct (Z.eqb_spec r 0) as [->|Hr0]; destruct op; cbn [eval_binary] in He; simplify_eq/=;
    repeat case_match; simplify_eq;
    first
    [ apply in_reg_wrap
    | apply sx32_range
    | apply in_reg_b2z
    | apply in_reg_ones
    | done
    | apply bound_land; [lia | done | apply Hr]
    | apply bound_lor; [lia | done | done]
    | apply bound_lxor; [lia | done | done]
    | apply bound_shiftr; [by destruct Hr | done]
    | apply in_reg_pack; destruct X; done
    | apply (in_reg_divmod X l r); [done | destruct Hr; lia] ].
Qed.

Section eval.
Context (vars : string -> Z) (X : Xlen) (st : state).
Hypothesis (Hst : wf_state X st).

Lemma load_range addr width signed : in_reg X (load X st addr width signed).
Proof. apply in_reg_wrap. Qed.

(** Evaluating a well-formed expression yields a register-width value. *)
Lemma eval_in_reg e v : wf_expr X e = true -> eval vars X st e = Some v -> in_reg X v.
Proof.
  revert v. apply (Expr_rect_nested
    (fun e => forall v, wf_expr X e = true -> eval vars X st e = Some v -> in_reg X v)
    (fun r => forall v, wf_read X r = true -> eval_read vars X st r = Some v -> in_reg X v)).
  - intros v u Hwf [= ->]. by apply in_ub_spec.
  - intros r IH. apply IH.
  - intros p u Hwf [= ->]. by apply in_ub_spec.
  - intros n u _ [= <-]. apply in_reg_wrap.
  - intros o e' IH u Hwf He. cbn in *. simplify_option_eq. apply eval_unary_range. by apply IH.
  - intros o l r IHl IHr u Hwf He. cbn in *. simplify_option_eq.
    apply andb_true_iff in Hwf as [? ?]. eapply eval_binary_range; [..|done]; auto.
  - intros [] a b c IHa IHb IHc u Hwf He. cbn in *. simplify_option_eq.
    rewrite !andb_true_iff in Hwf. destruct Hwf as [[? ?] ?]. case_match; auto.
  - intros n args w _ u _ [=].
  - intros b o w s IH u _ He. cbn in *. simplify_option_eq. apply load_range.
  - intros a w s IH u _ He. cbn in *. simplify_option_eq. apply load_range.
  - intros r Hn1 Hn2 u _ He. destruct r; simplify_eq/=; try apply Hst;
      [ apply get_reg_range; done | by edestruct Hn1 | by edestruct Hn2 ].
Qed.

Lemma eval_is_zero e : Expr.is_zero X e = true -> eval vars X st e = Some 0.
Proof.
  destruct e as [v|[]| | | | | |]; simpl; try done; intros Hz; apply Z.eqb_eq in Hz;
    unfold to_u64 in *; subst; done.
Qed.

(** The two shapes of every simplification: a zero operand is dropped, and two
    immediates are folded at [u64] and narrowed. *)
Lemma eval_drop_zero_r op l r :
  (forall x, in_reg X x -> eval_binary X op x 0 = Some x) ->
  wf_expr X l = true -> Expr.is_zero X r = true ->
  eval vars X st (Binary op l r) = eval vars X st l.
Proof.
  intros Hop Hl Hr. simpl. rewrite (eval_is_zero r Hr).
  destruct (eval vars X st l) as [x|] eqn:E; [|done]. simpl.
  apply Hop. by apply (eval_in_reg l).
Qed.

Lemma eval_drop_zero_l op l r :
  (forall y, in_reg X y -> eval_binary X op 0 y = Some y) ->
  wf_expr X r = true -> Expr.is_zero X l = true ->
  eval vars X st (Binary op l r) = eval vars X st r.
Proof.
  intros Hop Hr Hl. simpl. rewrite (eval_is_zero l Hl). simpl.
  destruct (eval vars X st r) as [y|] eqn:E; [|done]. simpl.
  apply Hop. by apply (eval_in_reg r).
Qed.

Lemma from_u64_wrap64 v : from_u64 X (wrap 64 v) = wrap (VALUE X) v.
Proof.
  rewrite from_u64_wrap by (apply wrap_range; lia).
  apply wrap_wrap_le. pose proof (VALUE_le_64 X). lia.
Qed.

Lemma eval_drop_zero op l r :
  (forall x, in_reg X x -> eval_binary X op x 0 = Some x) ->
  (forall y, in_reg X y -> eval_binary X op 0 y = Some y) ->
  wf_expr X l = true -> wf_expr X r = true ->
  eval vars X st (if Expr.is_zero X r then l
                  else if Expr.is_zero X l then r else Expr.binary op l r)
  = eval vars X st (Binary op l r).
Proof.
  intros Hop1 Hop2 Hl Hr. destruct (Expr.is_zero X r) eqn:Zr.
  { symmetry. by apply eval_drop_zero_r. }
  destruct (Expr.is_zero X l) eqn:Zl; [|done]. symmetry. by apply eval_drop_zero_l.
Qed.

Lemma eval_add l r : wf_expr X l = true -> wf_expr X r = true ->
  eval vars X st (Expr.add X l r) = eval vars X st (Binary Add l r).
Proof.
  intros Hl Hr. pose proof (eval_drop_zero Add l r) as H.
  destruct l as [v| | | | | | |], r as [u| | | | | | |]; try (apply H; [..|done|done];
    intros; simpl; rewrite ?Z.add_0_r, wrap_id; done).
  simpl. unfold to_u64. by rewrite from_u64_wrap64.
Qed.

Lemma eval_sub_zero l r : wf_expr X l = true -> 
  eval vars X st (if Expr.is_zero X r then l
                  else if Expr.is_zero X l then Expr.neg r else Expr.binary Sub l r)
  = eval vars X st (Binary Sub l r).
Proof.
  intros Hl. destruct (Expr.is_zero X r) eqn:Zr.
  - symmetry. apply eval_drop_zero_r; [|done|done]. intros. simpl. rewrite Z.sub_0_r, wrap_id; done.
  - destruct (Expr.is_zero X l) eqn:Zl; [|done]. simpl. by rewrite (eval_is_zero l Zl).
Qed.

Lemma eval_sub l r : wf_expr X l = true -> 
  eval vars X st (Expr.sub X l r) = eval vars X st (Binary Sub l r).
Proof.
  intros Hl. pose proof (eval_sub_zero l r Hl) as H.
  destruct l as [v| | | | | | |], r as [u| | | | | | |]; try apply H.
  simpl. unfold to_u64. by rewrite from_u64_wrap64.
Qed.

Lemma eval_fold_bits (f : Z -> Z -> Z) v u :
  in_reg X (f v u) -> from_u64 X (f (to_u64 X v) (to_u64 X u)) = f v u.
Proof. intros. by apply from_u64_id. Qed.

Lemma eval_and l r : wf_expr X l = true -> wf_expr X r = true ->
  eval vars X st (Expr.and X l r) = eval vars X st (Binary And l r).
Proof.
  intros Hl Hr. destruct l as [v| | | | | | |], r as [u| | | | | | |]; try done.
  simpl in *. apply in_ub_spec in Hl, Hr. f_equal. apply eval_fold_bits.
  apply bound_land; [apply Z.lt_le_incl, VALUE_pos | done | apply Hr].
Qed.

Lemma eval_or l r : wf_expr X l = true -> wf_expr X r = true ->
  eval vars X st (Expr.or X l r) = eval vars X st (Binary Or l r).
Proof.
  intros Hl Hr. pose proof (eval_drop_zero Or l r) as H.
  destruct l as [v| | | | | | |], r as [u| | | | | | |]; try (apply H; [..|done|done];
    intros; simpl; rewrite ?Z.lor_0_r; done).
  simpl in *. apply in_ub_spec in Hl, Hr. f_equal. apply eval_fold_bits.
  by apply bound_lor; [apply Z.lt_le_incl, VALUE_pos | |].
Qed.

Lemma eval_xor l r : wf_expr X l = true -> wf_expr X r = true ->
  eval vars X st (Expr.xor X l r) = eval vars X st (Binary Xor l r).
Proof.
  intros Hl Hr. pose proof (eval_drop_zero Xor l r) as H.
  destruct l as [v| | | | | | |], r as [u| | | | | | |]; try (apply H; [..|done|done];
    intros; simpl; rewrite ?Z.lxor_0_r; done).
  simpl in *. apply in_ub_spec in Hl, Hr. f_equal. apply eval_fold_bits.
  by apply bound_lxor; [apply Z.lt_le_incl, VALUE_pos | |].
Qed.

Lemma VALUE_ltb_0 : 0 <? VALUE X = true.
Proof. by destruct X. Qed.

Lemma eval_shift op l r :
  (forall x, in_reg X x -> eval_binary X op x 0 = Some x) ->
  wf_expr X l = true ->
  eval vars X st (if Expr.is_zero X r then l else Expr.binary op l r)
  = eval vars X st (Binary op l r).
Proof. intros. case_match; [symmetry; by apply eval_drop_zero_r | done]. Qed.

Lemma eval_sll l r : wf_expr X l = true ->
  eval vars X st (Expr.sll X l r) = eval vars X st (Binary Sll l r).
Proof.
  apply eval_shift. intros. simpl. rewrite VALUE_ltb_0, Z.shiftl_0_r, wrap_id; done.
Qed.

Lemma eval_srl l r : wf_expr X l = true ->
  eval vars X st (Expr.srl X l r) = eval vars X st (Binary Srl l r).
Proof. apply eval_shift. intros. simpl. by rewrite VALUE_ltb_0, Z.shiftr_0_r. Qed.

Lemma eval_sra l r : wf_expr X l = true ->
  eval vars X st (Expr.sra X l r) = eval vars X st (Binary Sra l r).
Proof.
  apply eval_shift. intros. simpl. rewrite VALUE_ltb_0, Z.shiftr_0_r, wrap_to_signed; done.
Qed.

Lemma eval_ltu l r : wf_expr X r = true ->
  eval vars X st (Expr.ltu X l r) = eval vars X st (Binary Ltu l r).
Proof.
  intros Hr. unfold Expr.ltu. case_match eqn:Hz; [|done]. simpl.
  rewrite (eval_is_zero l Hz). simpl.
  destruct (eval vars X st r) as [y|] eqn:E; [|done]. simpl.
  pose proof (eval_in_reg r y Hr E) as [H1 H2]. do 2 f_equal.
  replace (from_u64 X 0) with 0 by (by destruct X).
  destruct (Z.eqb_spec y 0), (Z.ltb_spec 0 y); simpl; lia || done.
Qed.

(** Sign and zero extension of an immediate are folded. *)
Lemma low_mask w v : 0 <= w -> Z.land v (Z.ones w) = wrap w v.
Proof. apply Z.land_ones. Qed.

Lemma fold_sext w v : 0 < w <= 32 ->
  from_u64 X (wrap 64 (to_signed w (Z.land (to_u64 X v) (Z.ones w))))
  = wrap (VALUE X) (sext w v).
Proof. intros. by rewrite low_mask, from_u64_wrap64 by lia. Qed.

Lemma fold_zext w v : 0 < w <= 32 -> from_u64 X (Z.land (to_u64 X v) (Z.ones w)) = wrap w v.
Proof.
  intros. rewrite low_mask by lia. apply from_u64_id.
  apply (in_reg_small X w); [lia|]. apply wrap_range. lia.
Qed.

Lemma eval_sext32 e : eval vars X st (Expr.sext32 X e) = eval vars X st (Unary Sext32 e).
Proof. destruct e; try done. cbn -[Z.land]. f_equal. by apply (fold_sext 32). Qed.
Lemma eval_sext16 e : eval vars X st (Expr.sext16 X e) = eval vars X st (Unary Sext16 e).
Proof. destruct e; try done. cbn -[Z.land]. f_equal. by apply (fold_sext 16). Qed.
Lemma eval_sext8 e : eval vars X st (Expr.sext8 X e) = eval vars X st (Unary Sext8 e).
Proof. destruct e; try done. cbn -[Z.land]. f_equal. by apply (fold_sext 8). Qed.
Lemma eval_zext32 e : eval vars X st (Expr.zext32 X e) = eval vars X st (Unary Zext32 e).
Proof. destruct e; try done. cbn -[Z.land]. f_equal. by apply (fold_zext 32). Qed.
Lemma eval_zext16 e : eval vars X st (Expr.zext16 X e) = eval vars X st (Unary Zext16 e).
Proof. destruct e; try done. cbn -[Z.land]. f_equal. by apply (fold_zext 16). Qed.
Lemma eval_zext8 e : eval vars X st (Expr.zext8 X e) = eval vars X st (Unary Zext8 e).
Proof. destruct e; try done. cbn -[Z.land]. f_equal. by apply (fold_zext 8). Qed.

Lemma sx32_wrap w v : 32 <= w -> sx32 X (wrap w v) = sx32 X v.
Proof. intros. unfold sx32, sext. by rewrite wrap_wrap_le by lia. Qed.

Lemma eval_addw l r :
  eval vars X st (Expr.addw X l r) = eval vars X st (Binary AddW l r).
Proof.
  unfold Expr.addw. repeat case_match; [| |done]; rewrite eval_sext32; simpl;
    erewrite (eval_is_zero _ ltac:(eassumption)).
  - destruct (eval vars X st l); [|done]. simpl. by rewrite Z.add_0_r.
  - by destruct (eval vars X st r).
Qed.

Lemma eval_subw l r :
  eval vars X st (Expr.subw X l r) = eval vars X st (Binary SubW l r).
Proof.
  unfold Expr.subw. repeat case_match; [| |done]; rewrite eval_sext32; simpl;
    erewrite (eval_is_zero _ ltac:(eassumption)).
  - destruct (eval vars X st l); [|done]. simpl. by rewrite Z.sub_0_r.
  - destruct (eval vars X st r); [|done]. simpl.
    rewrite sx32_wrap; [done|]. apply VALUE_le_64.
Qed.

Lemma eval_shiftw op l r :
  (forall x, eval_binary X op x 0 = Some (sx32 X x)) ->
  eval vars X st (if Expr.is_zero X r then Expr.sext32 X l else Expr.binary op l r)
  = eval vars X st (Binary op l r).
Proof.
  intros Hop. case_match; [|done]. rewrite eval_sext32. simpl.
  erewrite (eval_is_zero r) by done. destruct (eval vars X st l); [|done].
  simpl. by rewrite Hop.
Qed.

Lemma eval_sllw l r : eval vars X st (Expr.sllw X l r) = eval vars X st (Binary SllW l r).
Proof. apply eval_shiftw. intros. simpl. by rewrite Z.shiftl_0_r. Qed.
Lemma eval_srlw l r : eval vars X st (Expr.srlw X l r) = eval vars X st (Binary SrlW l r).
Proof.
  apply eval_shiftw. intros. simpl. by rewrite Z.shiftr_0_r, sx32_wrap.
Qed.
Lemma eval_sraw l r : eval vars X st (Expr.sraw X l r) = eval vars X st (Binary SraW l r).
Proof. apply eval_shiftw. intros. simpl. by rewrite Z.shiftr_0_r. Qed.
End eval.

#[export] Hint Resolve in_reg_0 in_reg_1 in_reg_b2z in_reg_wrap get_reg_range sx32_range : width.
