(* ===== verification/Isa.v ===== *)
(** * ISA types and field extraction ([crates/rvr-isa/src/types.rs], [encode.rs]) *)

From S2P Require Import Prelude Xlen IR IRBuild.
#[local] Open Scope word_scope.

(** ** Instruction identifiers *)

Record OpId := mkOpId { ext : Z; idx : Z }.

#[export] Instance OpId_eq_dec : EqDecision OpId.
Proof. solve_decision. Defined.

#[export] Instance OpId_countable : Countable OpId.
Proof.
  apply (inj_countable' (fun o => (ext o, idx o)) (fun p => mkOpId p.1 p.2)).
  by intros [].
Defined.

Module OpId.
Definition new (e i : Z) : OpId := mkOpId e i.
(** [((ext as u16) << 8) | (idx as u16)] *)
Definition pack (o : OpId) : Z := shl_u 16 (ext o) 8 |ᵇ idx o.
Definition eqb (a b : OpId) : bool := (ext a =? ext b) && (idx a =? idx b).
End OpId.

(** ** Instruction arguments *)

Inductive InstrArgs :=
| A_R (rd rs1 rs2 : Z)
| A_R4 (rd rs1 rs2 rs3 : Z)
| A_I (rd rs1 imm : Z)
| A_S (rs1 rs2 imm : Z)
| A_B (rs1 rs2 imm : Z)
| A_U (rd imm : Z)
| A_J (rd imm : Z)
| A_Csr (rd rs1 csr : Z)
| A_CsrI (rd imm csr : Z)
| A_Amo (rd rs1 rs2 : Z) (aq rl : bool)
| A_None
| A_Custom (words : list Z).

#[export] Instance InstrArgs_eq_dec : EqDecision InstrArgs.
Proof. solve_decision. Defined.

Record DecodedInstr := mkDecoded {
  opid : OpId;
  di_pc : Z;
  di_size : Z;
  di_raw : Z;
  args : InstrArgs
}.

Module DecodedInstr.
Definition new (o : OpId) (pc size raw : Z) (a : InstrArgs) : DecodedInstr :=
  mkDecoded o pc size raw a.
End DecodedInstr.

(** ** Instruction metadata *)

Inductive OpClass :=
| CAlu | CLoad | CStore | CBranch | CJump | CJumpIndirect | CCsr | CAtomic
| CFence | CSystem | CMul | CDiv | CNop | COther.

#[export] Instance OpClass_eq_dec : EqDecision OpClass.
Proof. solve_decision. Defined.

Record OpInfo := mkOpInfo { oi_opid : OpId; oi_name : string; oi_class : OpClass; size_hint : Z }.

#[export] Instance OpInfo_eq_dec : EqDecision OpInfo.
Proof. solve_decision. Defined.

(** ** Extension identifiers, register counts and ABI names *)

Definition EXT_I : Z := 0.
Definition EXT_M : Z := 1.
Definition EXT_A : Z := 2.
Definition EXT_C : Z := 3.
Definition EXT_ZICSR : Z := 4.
Definition EXT_ZIFENCEI : Z := 5.
Definition EXT_ZBA : Z := 6.
Definition EXT_ZBB : Z := 7.
Definition EXT_ZBS : Z := 8.
Definition EXT_ZBKB : Z := 9.
Definition EXT_ZICOND : Z := 10.

Definition NUM_REGS_I : Z := 32.
Definition NUM_REGS_E : Z := 16.
Definition NUM_CSRS : Z := 4096.

Definition REG_ZERO : Z := 0.
Definition REG_RA : Z := 1.
Definition REG_SP : Z := 2.
Definition REG_T0 : Z := 5.
Definition REG_A0 : Z := 10.
Definition REG_A7 : Z := 17.

Definition REG_ABI_NAMES : list string :=
  ["zero"; "ra"; "sp"; "gp"; "tp"; "t0"; "t1"; "t2"; "s0"; "s1"; "a0"; "a1"; "a2"; "a3"; "a4";
   "a5"; "a6"; "a7"; "s2"; "s3"; "s4"; "s5"; "s6"; "s7"; "s8"; "s9"; "s10"; "s11"; "t3"; "t4";
   "t5"; "t6"]%string.

Definition reg_name (r : Z) : string := default "??"%string (REG_ABI_NAMES !! Z.to_nat r).

(** ** Immediate and field extraction ([encode.rs])

    [instr] is a [u32]; immediates are [i32]. *)

Definition decode_i_imm (instr : Z) : Z := shr (to_signed 32 instr) 20.

Definition decode_s_imm (instr : Z) : Z :=
  let imm11_5 := shr instr 25 &ᵇ 0x7F in
  let imm4_0 := shr instr 7 &ᵇ 0x1F in
  let imm := shl_u 32 imm11_5 5 |ᵇ imm4_0 in
  shr (shl_i 32 (to_signed 32 imm) 20) 20.

Definition decode_b_imm (instr : Z) : Z :=
  let imm12 := shr instr 31 &ᵇ 0x1 in
  let imm11 := shr instr 7 &ᵇ 0x1 in
  let imm10_5 := shr instr 25 &ᵇ 0x3F in
  let imm4_1 := shr instr 8 &ᵇ 0xF in
  let imm := shl_u 32 imm12 12 |ᵇ shl_u 32 imm11 11 |ᵇ shl_u 32 imm10_5 5 |ᵇ shl_u 32 imm4_1 1 in
  shr (shl_i 32 (to_signed 32 imm) 19) 19.

Definition decode_u_imm (instr : Z) : Z := to_signed 32 (instr &ᵇ 0xFFFFF000).

Definition decode_j_imm (instr : Z) : Z :=
  let imm20 := shr instr 31 &ᵇ 0x1 in
  let imm19_12 := shr instr 12 &ᵇ 0xFF in
  let imm11 := shr instr 20 &ᵇ 0x1 in
  let imm10_1 := shr instr 21 &ᵇ 0x3FF in
  let imm := shl_u 32 imm20 20 |ᵇ shl_u 32 imm19_12 12 |ᵇ shl_u 32 imm11 11 |ᵇ shl_u 32 imm10_1 1 in
  shr (shl_i 32 (to_signed 32 imm) 11) 11.

Definition decode_rd (instr : Z) : Z := wrap 8 (shr instr 7 &ᵇ 0x1F).
Definition decode_rs1 (instr : Z) : Z := wrap 8 (shr instr 15 &ᵇ 0x1F).
Definition decode_rs2 (instr : Z) : Z := wrap 8 (shr instr 20 &ᵇ 0x1F).
Definition decode_funct3 (instr : Z) : Z := wrap 8 (shr instr 12 &ᵇ 0x7).
Definition decode_funct7 (instr : Z) : Z := wrap 8 (shr instr 25 &ᵇ 0x7F).
Definition decode_opcode (instr : Z) : Z := wrap 8 (instr &ᵇ 0x7F).

Definition sign_extend_8 (val : Z) : Z := to_signed 8 val.
Definition sign_extend_16 (val : Z) : Z := to_signed 16 val.
Definition sign_extend_32_i64 (val : Z) : Z := to_signed 32 val.

(** ** Dispatch on an identifier

    A [match opid { OP_A => a, .., _ => d }] of the source is a chain of
    comparisons. *)
Notation "a =ₒ b" := (OpId.eqb a b) (at level 70, no associativity) : word_scope.
