(* ===== verification/Ext.v ===== *)
(** * The extension interface ([crates/rvr-isa/src/extensions/mod.rs], trait
    [InstructionExtension])

    A trait object is a record of its methods.  [lift] can panic ([expect] on an
    immediate, checked address arithmetic). *)

From S2P Require Import Prelude Xlen IR IRBuild Isa.
#[local] Open Scope word_scope.

(** [u16::from_le_bytes], [u32::from_le_bytes] *)
Fixpoint from_le_bytes (l : list Z) : Z :=
  match l with
  | [] => 0
  | b :: l' => b + 2 ^ 8 * from_le_bytes l'
  end.

Record InstructionExtension := {
  name : string;
  ext_id : Z;
  decode16 : Z -> Z -> option DecodedInstr;
  decode32 : Z -> Z -> option DecodedInstr;
  lift : DecodedInstr -> result InstrIR;
  op_info : OpId -> option OpInfo
}.

(** The provided method [decode]: a 16-bit instruction when the two low bits are
    not [11], a 32-bit one when four bytes are available. *)
Definition decode (e : InstructionExtension) (bytes : list Z) (pc : Z) : option DecodedInstr :=
  if (length bytes <? 2)%nat then None
  else
    let low := from_le_bytes (take 2 bytes) in
    if negb (low &ᵇ 0x3 =? 0x3) then decode16 e low pc
    else if (4 <=? length bytes)%nat then decode32 e (from_le_bytes (take 4 bytes)) pc
    else None.

(** The defaults of [decode16] and [decode32]. *)
Definition no_decode (_ _ : Z) : option DecodedInstr := None.

(** What a lifting helper produces for its instruction: the statements and the
    terminator.  The helpers of the source either return the two, or the
    [InstrIR] that [lift_with] builds from them. *)
Abbreviation lifted := (result (list Stmt * Terminator)).

Definition lift_with (i : DecodedInstr) (r : result (list Stmt * Terminator)) : result InstrIR :=
  '(stmts, term) ← r;
  mret (InstrIR.new (di_pc i) (di_size i) (OpId.pack (opid i)) (di_raw i) stmts term).

(** Table lookup of [op_info] ([iter().find(|info| info.opid == opid)]). *)
Fixpoint find_info (l : list OpInfo) (o : OpId) : option OpInfo :=
  match l with
  | [] => None
  | i :: l' => if oi_opid i =ₒ o then Some i else find_info l' o
  end.
