(* ===== verification/Base.v ===== *)
(** * Base I extension: decoding and lifting
    ([crates/rvr-isa/src/extensions/base/mod.rs], [decode.rs], [lift.rs]) *)

From S2P Require Import Prelude Xlen IR IRBuild Isa Ext.
#[local] Open Scope word_scope.

(** ** Instruction identifiers *)

Definition OP_LUI : OpId := OpId.new EXT_I 0.
Definition OP_AUIPC : OpId := OpId.new EXT_I 1.
Definition OP_JAL : OpId := OpId.new EXT_I 2.
Definition OP_JALR : OpId := OpId.new EXT_I 3.
Definition OP_BEQ : OpId := OpId.new EXT_I 4.
Definition OP_BNE : OpId := OpId.new EXT_I 5.
Definition OP_BLT : OpId := OpId.new EXT_I 6.
Definition OP_BGE : OpId := OpId.new EXT_I 7.
Definition OP_BLTU : OpId := OpId.new EXT_I 8.
Definition OP_BGEU : OpId := OpId.new EXT_I 9.
Definition OP_LB : OpId := OpId.new EXT_I 10.
Definition OP_LH : OpId := OpId.new EXT_I 11.
Definition OP_LW : OpId := OpId.new EXT_I 12.
Definition OP_LBU : OpId := OpId.new EXT_I 13.
Definition OP_LHU : OpId := OpId.new EXT_I 14.
Definition OP_SB : OpId := OpId.new EXT_I 15.
Definition OP_SH : OpId := OpId.new EXT_I 16.
Definition OP_SW : OpId := OpId.new EXT_I 17.
Definition OP_ADDI : OpId := OpId.new EXT_I 18.
Definition OP_SLTI : OpId := OpId.new EXT_I 19.
Definition OP_SLTIU : OpId := OpId.new EXT_I 20.
Definition OP_XORI : OpId := OpId.new EXT_I 21.
Definition OP_ORI : OpId := OpId.new EXT_I 22.
Definition OP_ANDI : OpId := OpId.new EXT_I 23.
Definition OP_SLLI : OpId := OpId.new EXT_I 24.
Definition OP_SRLI : OpId := OpId.new EXT_I 25.
Definition OP_SRAI : OpId := OpId.new EXT_I 26.
Definition OP_ADD : OpId := OpId.new EXT_I 27.
Definition OP_SUB : OpId := OpId.new EXT_I 28.
Definition OP_SLL : OpId := OpId.new EXT_I 29.
Definition OP_SLT : OpId := OpId.new EXT_I 30.
Definition OP_SLTU : OpId := OpId.new EXT_I 31.
Definition OP_XOR : OpId := OpId.new EXT_I 32.
Definition OP_SRL : OpId := OpId.new EXT_I 33.
Definition OP_SRA : OpId := OpId.new EXT_I 34.
Definition OP_OR : OpId := OpId.new EXT_I 35.
Definition OP_AND : OpId := OpId.new EXT_I 36.
Definition OP_FENCE : OpId := OpId.new EXT_I 37.
Definition OP_ECALL : OpId := OpId.new EXT_I 38.
Definition OP_EBREAK : OpId := OpId.new EXT_I 39.
Definition OP_LWU : OpId := OpId.new EXT_I 40.
Definition OP_LD : OpId := OpId.new EXT_I 41.
Definition OP_SD : OpId := OpId.new EXT_I 42.
Definition OP_ADDIW : OpId := OpId.new EXT_I 43.
Definition OP_SLLIW : OpId := OpId.new EXT_I 44.
Definition OP_SRLIW : OpId := OpId.new EXT_I 45.
Definition OP_SRAIW : OpId := OpId.new EXT_I 46.
Definition OP_ADDW : OpId := OpId.new EXT_I 47.
Definition OP_SUBW : OpId := OpId.new EXT_I 48.
Definition OP_SLLW : OpId := OpId.new EXT_I 49.
Definition OP_SRLW : OpId := OpId.new EXT_I 50.
Definition OP_SRAW : OpId := OpId.new EXT_I 51.
Definition OP_MRET : OpId := OpId.new EXT_I 52.

Definition base_mnemonic (o : OpId) : string :=
  match idx o with
  | 0 => "lui"
  | 1 => "auipc"
  | 2 => "jal"
  | 3 => "jalr"
  | 4 => "beq"
  | 5 => "bne"
  | 6 => "blt"
  | 7 => "bge"
  | 8 => "bltu"
  | 9 => "bgeu"
  | 10 => "lb"
  | 11 => "lh"
  | 12 => "lw"
  | 13 => "lbu"
  | 14 => "lhu"
  | 15 => "sb"
  | 16 => "sh"
  | 17 => "sw"
  | 18 => "addi"
  | 19 => "slti"
  | 20 => "sltiu"
  | 21 => "xori"
  | 22 => "ori"
  | 23 => "andi"
  | 24 => "slli"
  | 25 => "srli"
  | 26 => "srai"
  | 27 => "add"
  | 28 => "sub"
  | 29 => "sll"
  | 30 => "slt"
  | 31 => "sltu"
  | 32 => "xor"
  | 33 => "srl"
  | 34 => "sra"
  | 35 => "or"
  | 36 => "and"
  | 37 => "fence"
  | 38 => "ecall"
  | 39 => "ebreak"
  | 40 => "lwu"
  | 41 => "ld"
  | 42 => "sd"
  | 43 => "addiw"
  | 44 => "slliw"
  | 45 => "srliw"
  | 46 => "sraiw"
  | 47 => "addw"
  | 48 => "subw"
  | 49 => "sllw"
  | 50 => "srlw"
  | 51 => "sraw"
  | 52 => "mret"
  | _ => "???"
  end%string.

Definition OP_INFO_I : list OpInfo :=
  [ mkOpInfo OP_LUI "lui" CAlu 4;
    mkOpInfo OP_AUIPC "auipc" CAlu 4;
    mkOpInfo OP_JAL "jal" CJump 4;
    mkOpInfo OP_JALR "jalr" CJumpIndirect 4;
    mkOpInfo OP_BEQ "beq" CBranch 4;
    mkOpInfo OP_BNE "bne" CBranch 4;
    mkOpInfo OP_BLT "blt" CBranch 4;
    mkOpInfo OP_BGE "bge" CBranch 4;
    mkOpInfo OP_BLTU "bltu" CBranch 4;
    mkOpInfo OP_BGEU "bgeu" CBranch 4;
    mkOpInfo OP_LB "lb" CLoad 4;
    mkOpInfo OP_LH "lh" CLoad 4;
    mkOpInfo OP_LW "lw" CLoad 4;
    mkOpInfo OP_LBU "lbu" CLoad 4;
    mkOpInfo OP_LHU "lhu" CLoad 4;
    mkOpInfo OP_SB "sb" CStore 4;
    mkOpInfo OP_SH "sh" CStore 4;
    mkOpInfo OP_SW "sw" CStore 4;
    mkOpInfo OP_ADDI "addi" CAlu 4;
    mkOpInfo OP_SLTI "slti" CAlu 4;
    mkOpInfo OP_SLTIU "sltiu" CAlu 4;
    mkOpInfo OP_XORI "xori" CAlu 4;
    mkOpInfo OP_ORI "ori" CAlu 4;
    mkOpInfo OP_ANDI "andi" CAlu 4;
    mkOpInfo OP_SLLI "slli" CAlu 4;
    mkOpInfo OP_SRLI "srli" CAlu 4;
    mkOpInfo OP_SRAI "srai" CAlu 4;
    mkOpInfo OP_ADD "add" CAlu 4;
    mkOpInfo OP_SUB "sub" CAlu 4;
    mkOpInfo OP_SLL "sll" CAlu 4;
    mkOpInfo OP_SLT "slt" CAlu 4;
    mkOpInfo OP_SLTU "sltu" CAlu 4;
    mkOpInfo OP_XOR "xor" CAlu 4;
    mkOpInfo OP_SRL "srl" CAlu 4;
    mkOpInfo OP_SRA "sra" CAlu 4;
    mkOpInfo OP_OR "or" CAlu 4;
    mkOpInfo OP_AND "and" CAlu 4;
    mkOpInfo OP_FENCE "fence" CFence 4;
    mkOpInfo OP_ECALL "ecall" CSystem 4;
    mkOpInfo OP_EBREAK "ebreak" CSystem 4;
    mkOpInfo OP_LWU "lwu" CLoad 4;
    mkOpInfo OP_LD "ld" CLoad 4;
    mkOpInfo OP_SD "sd" CStore 4;
    mkOpInfo OP_ADDIW "addiw" CAlu 4;
    mkOpInfo OP_SLLIW "slliw" CAlu 4;
    mkOpInfo OP_SRLIW "srliw" CAlu 4;
    mkOpInfo OP_SRAIW "sraiw" CAlu 4;
    mkOpInfo OP_ADDW "addw" CAlu 4;
    mkOpInfo OP_SUBW "subw" CAlu 4;
    mkOpInfo OP_SLLW "sllw" CAlu 4;
    mkOpInfo OP_SRLW "srlw" CAlu 4;
    mkOpInfo OP_SRAW "sraw" CAlu 4;
    mkOpInfo OP_MRET "mret" CSystem 4 ]%string.

(** ** Decoding *)

Definition decode_branch (funct3 rs1 rs2 instr : Z) : option (OpId * InstrArgs) :=
  let imm := decode_b_imm instr in
  op ← (if funct3 =? 0 then Some OP_BEQ
        else if funct3 =? 1 then Some OP_BNE
        else if funct3 =? 4 then Some OP_BLT
        else if funct3 =? 5 then Some OP_BGE
        else if funct3 =? 6 then Some OP_BLTU
        else if funct3 =? 7 then Some OP_BGEU
        else None);
  Some (op, A_B rs1 rs2 imm).

Definition decode_load (X : Xlen) (funct3 rd rs1 instr : Z) : option (OpId * InstrArgs) :=
  let imm := decode_i_imm instr in
  op ← (if funct3 =? 0 then Some OP_LB
        else if funct3 =? 1 then Some OP_LH
        else if funct3 =? 2 then Some OP_LW
        else if (funct3 =? 3) && (VALUE X =? 64) then Some OP_LD
        else if funct3 =? 4 then Some OP_LBU
        else if funct3 =? 5 then Some OP_LHU
        else if (funct3 =? 6) && (VALUE X =? 64) then Some OP_LWU
        else None);
  Some (op, A_I rd rs1 imm).

Definition decode_store (X : Xlen) (funct3 rs1 rs2 instr : Z) : option (OpId * InstrArgs) :=
  let imm := decode_s_imm instr in
  op ← (if funct3 =? 0 then Some OP_SB
        else if funct3 =? 1 then Some OP_SH
        else if funct3 =? 2 then Some OP_SW
        else if (funct3 =? 3) && (VALUE X =? 64) then Some OP_SD
        else None);
  Some (op, A_S rs1 rs2 imm).

Definition decode_op_imm (funct3 funct7 rd rs1 instr : Z) : option (OpId * InstrArgs) :=
  let imm := decode_i_imm instr in
  let shamt := shr instr 20 &ᵇ 0x3F in
  op ← (if funct3 =? 0 then Some OP_ADDI
        else if (funct3 =? 1) && (funct7 &ᵇ 0xFE =? 0) then Some OP_SLLI
        else if funct3 =? 2 then Some OP_SLTI
        else if funct3 =? 3 then Some OP_SLTIU
        else if funct3 =? 4 then Some OP_XORI
        else if (funct3 =? 5) && (funct7 &ᵇ 0xFE =? 0) then Some OP_SRLI
        else if (funct3 =? 5) && (funct7 &ᵇ 0xFE =? 0x20) then Some OP_SRAI
        else if funct3 =? 6 then Some OP_ORI
        else if funct3 =? 7 then Some OP_ANDI
        else None);
  let imm := if (funct3 =? 1) || (funct3 =? 5) then to_signed 32 shamt else imm in
  Some (op, A_I rd rs1 imm).

Definition decode_op_imm_32 (funct3 funct7 rd rs1 instr : Z) : option (OpId * InstrArgs) :=
  let imm := decode_i_imm instr in
  let shamt := to_signed 32 (shr instr 20 &ᵇ 0x1F) in
  op ← (if funct3 =? 0 then Some OP_ADDIW
        else if (funct3 =? 1) && (funct7 =? 0) then Some OP_SLLIW
        else if (funct3 =? 5) && (funct7 =? 0) then Some OP_SRLIW
        else if (funct3 =? 5) && (funct7 =? 0x20) then Some OP_SRAIW
        else None);
  let imm := if (funct3 =? 1) || (funct3 =? 5) then shamt else imm in
  Some (op, A_I rd rs1 imm).

Definition decode_op (funct3 funct7 rd rs1 rs2 : Z) : option (OpId * InstrArgs) :=
  op ← (if (funct7 =? 0x00) && (funct3 =? 0) then Some OP_ADD
        else if (funct7 =? 0x20) && (funct3 =? 0) then Some OP_SUB
        else if (funct7 =? 0x00) && (funct3 =? 1) then Some OP_SLL
        else if (funct7 =? 0x00) && (funct3 =? 2) then Some OP_SLT
        else if (funct7 =? 0x00) && (funct3 =? 3) then Some OP_SLTU
        else if (funct7 =? 0x00) && (funct3 =? 4) then Some OP_XOR
        else if (funct7 =? 0x00) && (funct3 =? 5) then Some OP_SRL
        else if (funct7 =? 0x20) && (funct3 =? 5) then Some OP_SRA
        else if (funct7 =? 0x00) && (funct3 =? 6) then Some OP_OR
        else if (funct7 =? 0x00) && (funct3 =? 7) then Some OP_AND
        else None);
  Some (op, A_R rd rs1 rs2).

Definition decode_op_32 (funct3 funct7 rd rs1 rs2 : Z) : option (OpId * InstrArgs) :=
  op ← (if (funct7 =? 0x00) && (funct3 =? 0) then Some OP_ADDW
        else if (funct7 =? 0x20) && (funct3 =? 0) then Some OP_SUBW
        else if (funct7 =? 0x00) && (funct3 =? 1) then Some OP_SLLW
        else if (funct7 =? 0x00) && (funct3 =? 5) then Some OP_SRLW
        else if (funct7 =? 0x20) && (funct3 =? 5) then Some OP_SRAW
        else None);
  Some (op, A_R rd rs1 rs2).

Definition decode_system (instr : Z) : option (OpId * InstrArgs) :=
  if instr =? 0x00000073 then Some (OP_ECALL, A_None)
  else if instr =? 0x00100073 then Some (OP_EBREAK, A_None)
  else if instr =? 0x30200073 then Some (OP_MRET, A_None)
  else None.

Definition decode_32bit (X : Xlen) (instr pc : Z) : option DecodedInstr :=
  let opcode := decode_opcode instr in
  let funct3 := decode_funct3 instr in
  let funct7 := decode_funct7 instr in
  let rd := decode_rd instr in
  let rs1 := decode_rs1 instr in
  let rs2 := decode_rs2 instr in
  '(opid, args) ←
    (if opcode =? 0x37 then Some (OP_LUI, A_U rd (decode_u_imm instr))
     else if opcode =? 0x17 then Some (OP_AUIPC, A_U rd (decode_u_imm instr))
     else if opcode =? 0x6F then Some (OP_JAL, A_J rd (decode_j_imm instr))
     else if (opcode =? 0x67) && (funct3 =? 0) then Some (OP_JALR, A_I rd rs1 (decode_i_imm instr))
     else if opcode =? 0x63 then decode_branch funct3 rs1 rs2 instr
     else if opcode =? 0x03 then decode_load X funct3 rd rs1 instr
     else if opcode =? 0x23 then decode_store X funct3 rs1 rs2 instr
     else if opcode =? 0x13 then decode_op_imm funct3 funct7 rd rs1 instr
     else if (opcode =? 0x1B) && (VALUE X =? 64) then decode_op_imm_32 funct3 funct7 rd rs1 instr
     else if (opcode =? 0x33) && negb (funct7 =? 0x01) then decode_op funct3 funct7 rd rs1 rs2
     else if (opcode =? 0x3B) && (VALUE X =? 64) && negb (funct7 =? 0x01)
          then decode_op_32 funct3 funct7 rd rs1 rs2
     else if (opcode =? 0x0F) && (funct3 =? 0) then Some (OP_FENCE, A_None)
     else if (opcode =? 0x73) && (funct3 =? 0) then decode_system instr
     else None);
  Some (DecodedInstr.new opid pc 4 instr args).

(** ** Lifting *)

Definition invalid_args : lifted := Ok ([], Terminator.trap "invalid args").

Definition lift_r (args : InstrArgs) (op : Expr -> Expr -> Expr) : lifted :=
  match args with
  | A_R rd rs1 rs2 =>
      let stmts :=
        if negb (rd =? 0) then [Stmt.write_reg rd (op (Expr.read rs1) (Expr.read rs2))] else [] in
      Ok (stmts, Fall None)
  | _ => invalid_args
  end.

(** R-type shift: the amount is masked by [XLEN - 1]. *)
Definition lift_shift (X : Xlen) (args : InstrArgs) (op : Expr -> Expr -> Expr) : lifted :=
  match args with
  | A_R rd rs1 rs2 =>
      let mask := from_u64 X (VALUE X - 1) in
      let masked_shamt := Expr.and X (Expr.read rs2) (Expr.imm mask) in
      let stmts :=
        if negb (rd =? 0) then [Stmt.write_reg rd (op (Expr.read rs1) masked_shamt)] else [] in
      Ok (stmts, Fall None)
  | _ => invalid_args
  end.

Definition lift_shiftw (X : Xlen) (args : InstrArgs) (op : Expr -> Expr -> Expr) : lifted :=
  match args with
  | A_R rd rs1 rs2 =>
      let mask := from_u64 X 0x1f in
      let masked_shamt := Expr.and X (Expr.read rs2) (Expr.imm mask) in
      let stmts :=
        if negb (rd =? 0) then [Stmt.write_reg rd (op (Expr.read rs1) masked_shamt)] else [] in
      Ok (stmts, Fall None)
  | _ => invalid_args
  end.

Definition lift_i (X : Xlen) (args : InstrArgs) (op : Expr -> Expr -> Expr) : lifted :=
  match args with
  | A_I rd rs1 imm =>
      let stmts :=
        if negb (rd =? 0)
        then [Stmt.write_reg rd (op (Expr.read rs1) (Expr.imm (from_u64 X (wrap 64 imm))))]
        else [] in
      Ok (stmts, Fall None)
  | _ => invalid_args
  end.

Definition lift_shamt (X : Xlen) (args : InstrArgs) (op : Expr -> Expr -> Expr) : lifted :=
  match args with
  | A_I rd rs1 imm =>
      let stmts :=
        if negb (rd =? 0)
        then [Stmt.write_reg rd
                (op (Expr.read rs1) (Expr.imm (from_u64 X (wrap 32 imm &ᵇ 0x3F))))]
        else [] in
      Ok (stmts, Fall None)
  | _ => invalid_args
  end.

Definition lift_lui (X : Xlen) (args : InstrArgs) : lifted :=
  match args with
  | A_U rd imm =>
      let stmts :=
        if negb (rd =? 0) then [Stmt.write_reg rd (Expr.imm (from_u64 X (wrap 64 imm)))] else [] in
      Ok (stmts, Fall None)
  | _ => invalid_args
  end.

(** [pc + imm] is folded at lift time, on [i64]. *)
Definition lift_auipc (X : Xlen) (args : InstrArgs) (pc : Z) : lifted :=
  match args with
  | A_U rd imm =>
      stmts ←
        (if negb (rd =? 0) then
           let pc_val := to_signed 64 (to_u64 X pc) in
           sum ← add_i 64 pc_val imm;
           mret [Stmt.write_reg rd (Expr.imm (from_u64 X (wrap 64 sum)))]
         else mret []);
      mret (stmts, Fall None)
  | _ => invalid_args
  end.

Definition lift_load (args : InstrArgs) (width : Z) (signed : bool) : lifted :=
  match args with
  | A_I rd rs1 imm =>
      stmts ←
        (if negb (rd =? 0) then
           offset ← expect_i 16 imm;
           mret [Stmt.write_reg rd (Expr.mem (Expr.read rs1) offset width signed)]
         else mret []);
      mret (stmts, Fall None)
  | _ => invalid_args
  end.

(** A store also clears the LR/SC reservation. *)
Definition lift_store (X : Xlen) (args : InstrArgs) (width : Z) : lifted :=
  match args with
  | A_S rs1 rs2 imm =>
      offset ← expect_i 16 imm;
      mret ([ Stmt.write_mem (Expr.read rs1) offset (Expr.read rs2) width;
              Stmt.write_res_valid (Expr.imm (from_u64 X 0)) ], Fall None)
  | _ => invalid_args
  end.

(** [X::from_u64((X::to_u64(pc).cast_signed() + offset).cast_unsigned())] with
    [offset] the register-width sign extension of [imm], added on [i64]. *)
Definition pc_relative (X : Xlen) (pc imm : Z) : result Z :=
  let offset := to_signed 64 (to_u64 X (sign_extend_32 X (wrap 32 imm))) in
  target ← add_i 64 (to_signed 64 (to_u64 X pc)) offset;
  mret (from_u64 X (wrap 64 target)).

(** [pc + X::from_u64(u64::from(size))], added on [X::Reg]. *)
Definition link_value (X : Xlen) (pc size : Z) : result Z :=
  add_u (VALUE X) pc (from_u64 X size).

Definition lift_jal (X : Xlen) (args : InstrArgs) (pc size : Z) : lifted :=
  match args with
  | A_J rd imm =>
      stmts ←
        (if negb (rd =? 0) then
           l ← link_value X pc size; mret [Stmt.write_reg rd (Expr.imm l)]
         else mret []);
      target ← pc_relative X pc imm;
      mret (stmts, Terminator.jump target)
  | _ => invalid_args
  end.

(** When [rd = rs1] the base is saved in a temporary before the link is written. *)
Definition lift_jalr (X : Xlen) (args : InstrArgs) (pc size : Z) : lifted :=
  match args with
  | A_I rd rs1 imm =>
      let '(stmts, base) :=
        if rd =? rs1 then ([Stmt.write_temp 0 (Expr.read rs1)], Expr.temp 0)
        else ([], Expr.read rs1) in
      stmts ←
        (if negb (rd =? 0) then
           l ← link_value X pc size; mret (stmts ++ [Stmt.write_reg rd (Expr.imm l)])
         else mret stmts);
      let target :=
        Expr.and X (Expr.add X base (Expr.imm (from_u64 X (wrap 64 imm))))
          (Expr.imm (from_u64 X (wrap 64 (Z.lnot 1)))) in
      mret (stmts, Terminator.jump_dyn target)
  | _ => invalid_args
  end.

Definition lift_branch (X : Xlen) (args : InstrArgs) (pc : Z) (cond : Expr -> Expr -> Expr) :
    lifted :=
  match args with
  | A_B rs1 rs2 imm =>
      target ← pc_relative X pc imm;
      mret ([], Terminator.branch (cond (Expr.read rs1) (Expr.read rs2)) target)
  | _ => invalid_args
  end.

Definition lift_base (X : Xlen) (args : InstrArgs) (opid : OpId) (pc size : Z) : lifted :=
  if opid =ₒ OP_ADD then lift_r args (Expr.add X)
  else if opid =ₒ OP_SUB then lift_r args (Expr.sub X)
  else if opid =ₒ OP_SLL then lift_shift X args (Expr.sll X)
  else if opid =ₒ OP_SLT then lift_r args Expr.slt
  else if opid =ₒ OP_SLTU then lift_r args (Expr.sltu X)
  else if opid =ₒ OP_XOR then lift_r args (Expr.xor X)
  else if opid =ₒ OP_SRL then lift_shift X args (Expr.srl X)
  else if opid =ₒ OP_SRA then lift_shift X args (Expr.sra X)
  else if opid =ₒ OP_OR then lift_r args (Expr.or X)
  else if opid =ₒ OP_AND then lift_r args (Expr.and X)
  else if opid =ₒ OP_ADDI then lift_i X args (Expr.add X)
  else if opid =ₒ OP_SLTI then lift_i X args Expr.slt
  else if opid =ₒ OP_SLTIU then lift_i X args (Expr.sltu X)
  else if opid =ₒ OP_XORI then lift_i X args (Expr.xor X)
  else if opid =ₒ OP_ORI then lift_i X args (Expr.or X)
  else if opid =ₒ OP_ANDI then lift_i X args (Expr.and X)
  else if opid =ₒ OP_SLLI then lift_shamt X args (Expr.sll X)
  else if opid =ₒ OP_SRLI then lift_shamt X args (Expr.srl X)
  else if opid =ₒ OP_SRAI then lift_shamt X args (Expr.sra X)
  else if opid =ₒ OP_ADDW then lift_r args (Expr.addw X)
  else if opid =ₒ OP_SUBW then lift_r args (Expr.subw X)
  else if opid =ₒ OP_SLLW then lift_shiftw X args (Expr.sllw X)
  else if opid =ₒ OP_SRLW then lift_shiftw X args (Expr.srlw X)
  else if opid =ₒ OP_SRAW then lift_shiftw X args (Expr.sraw X)
  else if opid =ₒ OP_ADDIW then lift_i X args (Expr.addw X)
  else if opid =ₒ OP_SLLIW then lift_shamt X args (Expr.sllw X)
  else if opid =ₒ OP_SRLIW then lift_shamt X args (Expr.srlw X)
  else if opid =ₒ OP_SRAIW then lift_shamt X args (Expr.sraw X)
  else if opid =ₒ OP_LUI then lift_lui X args
  else if opid =ₒ OP_AUIPC then lift_auipc X args pc
  else if opid =ₒ OP_LB then lift_load args 1 true
  else if opid =ₒ OP_LH then lift_load args 2 true
  else if opid =ₒ OP_LW then lift_load args 4 true
  else if opid =ₒ OP_LD then lift_load args 8 false
  else if opid =ₒ OP_LBU then lift_load args 1 false
  else if opid =ₒ OP_LHU then lift_load args 2 false
  else if opid =ₒ OP_LWU then lift_load args 4 false
  else if opid =ₒ OP_SB then lift_store X args 1
  else if opid =ₒ OP_SH then lift_store X args 2
  else if opid =ₒ OP_SW then lift_store X args 4
  else if opid =ₒ OP_SD then lift_store X args 8
  else if opid =ₒ OP_JAL then lift_jal X args pc size
  else if opid =ₒ OP_JALR then lift_jalr X args pc size
  else if opid =ₒ OP_BEQ then lift_branch X args pc Expr.eq
  else if opid =ₒ OP_BNE then lift_branch X args pc Expr.ne
  else if opid =ₒ OP_BLT then lift_branch X args pc Expr.lt
  else if opid =ₒ OP_BGE then lift_branch X args pc Expr.ge
  else if opid =ₒ OP_BLTU then lift_branch X args pc (Expr.ltu X)
  else if opid =ₒ OP_BGEU then lift_branch X args pc Expr.geu
  else if opid =ₒ OP_ECALL then Ok ([], Terminator.trap "ecall: use ExtensionRegistry")
  else if opid =ₒ OP_EBREAK then Ok ([], Terminator.exit (Expr.imm (from_u64 X 0)))
  else if (opid =ₒ OP_FENCE) || (opid =ₒ OP_MRET) then Ok ([], Fall None)
  else Ok ([], Terminator.trap "unknown base instruction").

(** ** The extension object *)

Definition BaseExtension (X : Xlen) : InstructionExtension := {|
  name := "I";
  ext_id := EXT_I;
  decode16 := no_decode;
  decode32 := decode_32bit X;
  lift := fun i => lift_with i (lift_base X (args i) (opid i) (di_pc i) (di_size i));
  op_info := find_info OP_INFO_I
|}.
