(* ===== verification/MExt.v ===== *)
(** * M extension: multiplication and division ([crates/rvr-isa/src/extensions/m.rs]) *)

From S2P Require Import Prelude Xlen IR IRBuild Isa Ext.
#[local] Open Scope word_scope.

Definition OP_MUL : OpId := OpId.new EXT_M 0.
Definition OP_MULH : OpId := OpId.new EXT_M 1.
Definition OP_MULHSU : OpId := OpId.new EXT_M 2.
Definition OP_MULHU : OpId := OpId.new EXT_M 3.
Definition OP_DIV : OpId := OpId.new EXT_M 4.
Definition OP_DIVU : OpId := OpId.new EXT_M 5.
Definition OP_REM : OpId := OpId.new EXT_M 6.
Definition OP_REMU : OpId := OpId.new EXT_M 7.
Definition OP_MULW : OpId := OpId.new EXT_M 8.
Definition OP_DIVW : OpId := OpId.new EXT_M 9.
Definition OP_DIVUW : OpId := OpId.new EXT_M 10.
Definition OP_REMW : OpId := OpId.new EXT_M 11.
Definition OP_REMUW : OpId := OpId.new EXT_M 12.

Definition m_mnemonic (o : OpId) : string :=
  match idx o with
  | 0 => "mul"
  | 1 => "mulh"
  | 2 => "mulhsu"
  | 3 => "mulhu"
  | 4 => "div"
  | 5 => "divu"
  | 6 => "rem"
  | 7 => "remu"
  | 8 => "mulw"
  | 9 => "divw"
  | 10 => "divuw"
  | 11 => "remw"
  | 12 => "remuw"
  | _ => "???"
  end%string.

Definition OP_INFO_M : list OpInfo :=
  [ mkOpInfo OP_MUL "mul" CMul 4;
    mkOpInfo OP_MULH "mulh" CMul 4;
    mkOpInfo OP_MULHSU "mulhsu" CMul 4;
    mkOpInfo OP_MULHU "mulhu" CMul 4;
    mkOpInfo OP_DIV "div" CDiv 4;
    mkOpInfo OP_DIVU "divu" CDiv 4;
    mkOpInfo OP_REM "rem" CDiv 4;
    mkOpInfo OP_REMU "remu" CDiv 4;
    mkOpInfo OP_MULW "mulw" CMul 4;
    mkOpInfo OP_DIVW "divw" CDiv 4;
    mkOpInfo OP_DIVUW "divuw" CDiv 4;
    mkOpInfo OP_REMW "remw" CDiv 4;
    mkOpInfo OP_REMUW "remuw" CDiv 4 ]%string.

Definition decode32_m (X : Xlen) (raw pc : Z) : option DecodedInstr :=
  let opcode := decode_opcode raw in
  let funct3 := decode_funct3 raw in
  let funct7 := decode_funct7 raw in
  let rd := decode_rd raw in
  let rs1 := decode_rs1 raw in
  let rs2 := decode_rs2 raw in
  if negb (funct7 =? 0x01) then None
  else
    opid ←
      (if opcode =? 0x33 then
         if funct3 =? 0 then Some OP_MUL
         else if funct3 =? 1 then Some OP_MULH
         else if funct3 =? 2 then Some OP_MULHSU
         else if funct3 =? 3 then Some OP_MULHU
         else if funct3 =? 4 then Some OP_DIV
         else if funct3 =? 5 then Some OP_DIVU
         else if funct3 =? 6 then Some OP_REM
         else if funct3 =? 7 then Some OP_REMU
         else None
       else if (opcode =? 0x3B) && (VALUE X =? 64) then
         if funct3 =? 0 then Some OP_MULW
         else if funct3 =? 4 then Some OP_DIVW
         else if funct3 =? 5 then Some OP_DIVUW
         else if funct3 =? 6 then Some OP_REMW
         else if funct3 =? 7 then Some OP_REMUW
         else None
       else None);
    Some (DecodedInstr.new opid pc 4 raw (A_R rd rs1 rs2)).

Definition lift_r (args : InstrArgs) (op : Expr -> Expr -> Expr) : lifted :=
  match args with
  | A_R rd rs1 rs2 =>
      let stmts :=
        if negb (rd =? 0) then [Stmt.write_reg rd (op (Expr.read rs1) (Expr.read rs2))] else [] in
      Ok (stmts, Fall None)
  | _ => Ok ([], Terminator.trap "invalid args")
  end.

Definition lift_m (args : InstrArgs) (opid : OpId) : lifted :=
  if opid =ₒ OP_MUL then lift_r args Expr.mul
  else if opid =ₒ OP_MULH then lift_r args Expr.mulh
  else if opid =ₒ OP_MULHSU then lift_r args Expr.mulhsu
  else if opid =ₒ OP_MULHU then lift_r args Expr.mulhu
  else if opid =ₒ OP_DIV then lift_r args Expr.div
  else if opid =ₒ OP_DIVU then lift_r args Expr.divu
  else if opid =ₒ OP_REM then lift_r args Expr.rem
  else if opid =ₒ OP_REMU then lift_r args Expr.remu
  else if opid =ₒ OP_MULW then lift_r args Expr.mulw
  else if opid =ₒ OP_DIVW then lift_r args Expr.divw
  else if opid =ₒ OP_DIVUW then lift_r args Expr.divuw
  else if opid =ₒ OP_REMW then lift_r args Expr.remw
  else if opid =ₒ OP_REMUW then lift_r args Expr.remuw
  else Ok ([], Terminator.trap "unknown M instruction").

Definition MExtension (X : Xlen) : InstructionExtension := {|
  name := "M";
  ext_id := EXT_M;
  decode16 := no_decode;
  decode32 := decode32_m X;
  lift := fun i => lift_with i (lift_m (args i) (opid i));
  op_info := find_info OP_INFO_M
|}.
