(* ===== verification/AExt.v ===== *)
(** * A extension: atomics ([crates/rvr-isa/src/extensions/a.rs]) *)

From S2P Require Import Prelude Xlen IR IRBuild Isa Ext.
#[local] Open Scope word_scope.

Definition OP_LR_W : OpId := OpId.new EXT_A 0.
Definition OP_SC_W : OpId := OpId.new EXT_A 1.
Definition OP_AMOSWAP_W : OpId := OpId.new EXT_A 2.
Definition OP_AMOADD_W : OpId := OpId.new EXT_A 3.
Definition OP_AMOXOR_W : OpId := OpId.new EXT_A 4.
Definition OP_AMOAND_W : OpId := OpId.new EXT_A 5.
Definition OP_AMOOR_W : OpId := OpId.new EXT_A 6.
Definition OP_AMOMIN_W : OpId := OpId.new EXT_A 7.
Definition OP_AMOMAX_W : OpId := OpId.new EXT_A 8.
Definition OP_AMOMINU_W : OpId := OpId.new EXT_A 9.
Definition OP_AMOMAXU_W : OpId := OpId.new EXT_A 10.
Definition OP_LR_D : OpId := OpId.new EXT_A 11.
Definition OP_SC_D : OpId := OpId.new EXT_A 12.
Definition OP_AMOSWAP_D : OpId := OpId.new EXT_A 13.
Definition OP_AMOADD_D : OpId := OpId.new EXT_A 14.
Definition OP_AMOXOR_D : OpId := OpId.new EXT_A 15.
Definition OP_AMOAND_D : OpId := OpId.new EXT_A 16.
Definition OP_AMOOR_D : OpId := OpId.new EXT_A 17.
Definition OP_AMOMIN_D : OpId := OpId.new EXT_A 18.
Definition OP_AMOMAX_D : OpId := OpId.new EXT_A 19.
Definition OP_AMOMINU_D : OpId := OpId.new EXT_A 20.
Definition OP_AMOMAXU_D : OpId := OpId.new EXT_A 21.

Definition a_mnemonic (o : OpId) : string :=
  match idx o with
  | 0 => "lr.w"
  | 1 => "sc.w"
  | 2 => "amoswap.w"
  | 3 => "amoadd.w"
  | 4 => "amoxor.w"
  | 5 => "amoand.w"
  | 6 => "amoor.w"
  | 7 => "amomin.w"
  | 8 => "amomax.w"
  | 9 => "amominu.w"
  | 10 => "amomaxu.w"
  | 11 => "lr.d"
  | 12 => "sc.d"
  | 13 => "amoswap.d"
  | 14 => "amoadd.d"
  | 15 => "amoxor.d"
  | 16 => "amoand.d"
  | 17 => "amoor.d"
  | 18 => "amomin.d"
  | 19 => "amomax.d"
  | 20 => "amominu.d"
  | 21 => "amomaxu.d"
  | _ => "???"
  end%string.

Definition OP_INFO_A : list OpInfo :=
  [ mkOpInfo OP_LR_W "lr.w" CAtomic 4;
    mkOpInfo OP_SC_W "sc.w" CAtomic 4;
    mkOpInfo OP_AMOSWAP_W "amoswap.w" CAtomic 4;
    mkOpInfo OP_AMOADD_W "amoadd.w" CAtomic 4;
    mkOpInfo OP_AMOXOR_W "amoxor.w" CAtomic 4;
    mkOpInfo OP_AMOAND_W "amoand.w" CAtomic 4;
    mkOpInfo OP_AMOOR_W "amoor.w" CAtomic 4;
    mkOpInfo OP_AMOMIN_W "amomin.w" CAtomic 4;
    mkOpInfo OP_AMOMAX_W "amomax.w" CAtomic 4;
    mkOpInfo OP_AMOMINU_W "amominu.w" CAtomic 4;
    mkOpInfo OP_AMOMAXU_W "amomaxu.w" CAtomic 4;
    mkOpInfo OP_LR_D "lr.d" CAtomic 4;
    mkOpInfo OP_SC_D "sc.d" CAtomic 4;
    mkOpInfo OP_AMOSWAP_D "amoswap.d" CAtomic 4;
    mkOpInfo OP_AMOADD_D "amoadd.d" CAtomic 4;
    mkOpInfo OP_AMOXOR_D "amoxor.d" CAtomic 4;
    mkOpInfo OP_AMOAND_D "amoand.d" CAtomic 4;
    mkOpInfo OP_AMOOR_D "amoor.d" CAtomic 4;
    mkOpInfo OP_AMOMIN_D "amomin.d" CAtomic 4;
    mkOpInfo OP_AMOMAX_D "amomax.d" CAtomic 4;
    mkOpInfo OP_AMOMINU_D "amominu.d" CAtomic 4;
    mkOpInfo OP_AMOMAXU_D "amomaxu.d" CAtomic 4 ]%string.

Definition decode_a_opid (funct5 : Z) (is_64 : bool) : option OpId :=
  if funct5 =? 0x02 then Some (if is_64 then OP_LR_D else OP_LR_W)
  else if funct5 =? 0x03 then Some (if is_64 then OP_SC_D else OP_SC_W)
  else if funct5 =? 0x01 then Some (if is_64 then OP_AMOSWAP_D else OP_AMOSWAP_W)
  else if funct5 =? 0x00 then Some (if is_64 then OP_AMOADD_D else OP_AMOADD_W)
  else if funct5 =? 0x04 then Some (if is_64 then OP_AMOXOR_D else OP_AMOXOR_W)
  else if funct5 =? 0x0C then Some (if is_64 then OP_AMOAND_D else OP_AMOAND_W)
  else if funct5 =? 0x08 then Some (if is_64 then OP_AMOOR_D else OP_AMOOR_W)
  else if funct5 =? 0x10 then Some (if is_64 then OP_AMOMIN_D else OP_AMOMIN_W)
  else if funct5 =? 0x14 then Some (if is_64 then OP_AMOMAX_D else OP_AMOMAX_W)
  else if funct5 =? 0x18 then Some (if is_64 then OP_AMOMINU_D else OP_AMOMINU_W)
  else if funct5 =? 0x1C then Some (if is_64 then OP_AMOMAXU_D else OP_AMOMAXU_W)
  else None.

Definition decode32_a (X : Xlen) (raw pc : Z) : option DecodedInstr :=
  if negb (decode_opcode raw =? 0x2F) then None
  else
    let funct3 := decode_funct3 raw in
    if negb (funct3 =? 2) && negb ((funct3 =? 3) && (VALUE X =? 64)) then None
    else
      let is_64 := funct3 =? 3 in
      let funct5 := shr raw 27 &ᵇ 0x1F in
      opid ← decode_a_opid funct5 is_64;
      Some (DecodedInstr.new opid pc 4 raw
              (A_Amo (decode_rd raw) (decode_rs1 raw) (decode_rs2 raw)
                 (negb (shr raw 26 &ᵇ 1 =? 0)) (negb (shr raw 25 &ᵇ 1 =? 0)))).

(** The old value is read once into temporary 2; the address and the source are
    saved in temporaries 1 and 3 when the destination overwrites them. *)
Definition lift_amo (X : Xlen) (rd rs1 rs2 width : Z) (signed : bool)
    (op : Expr -> Expr -> Expr) : lifted :=
  let '(stmts, addr) :=
    if rd =? rs1 then ([Stmt.write_temp 1 (Expr.read rs1)], Expr.temp 1)
    else ([], Expr.read rs1) in
  let '(stmts, src) :=
    if rd =? rs2 then (stmts ++ [Stmt.write_temp 3 (Expr.read rs2)], Expr.temp 3)
    else (stmts, Expr.read rs2) in
  let mem_read := if signed then Expr.mem_s addr width else Expr.mem_u addr width in
  let stmts := stmts ++ [Stmt.write_temp 2 mem_read] in
  let old := Expr.temp 2 in
  let new := op old src in
  let stmts := stmts ++ [Stmt.write_reg rd old] in
  let stmts := stmts ++ [Stmt.write_mem addr 0 new width] in
  let stmts := stmts ++ [Stmt.write_res_valid (Expr.imm (from_u64 X 0))] in
  Ok (stmts, Fall None).

Definition a_is_64 (opid : OpId) : bool :=
  existsb (OpId.eqb opid)
    [OP_LR_D; OP_SC_D; OP_AMOSWAP_D; OP_AMOADD_D; OP_AMOXOR_D; OP_AMOAND_D; OP_AMOOR_D; OP_AMOMIN_D; OP_AMOMAX_D; OP_AMOMINU_D; OP_AMOMAXU_D].

Definition lift_a (X : Xlen) (args : InstrArgs) (opid : OpId) : lifted :=
  match args with
  | A_Amo rd rs1 rs2 _ _ =>
      let is_64 := a_is_64 opid in
      let width := if is_64 then 8 else 4 in
      if (opid =ₒ OP_LR_W) || (opid =ₒ OP_LR_D) then
        let mem_read :=
          if is_64 then Expr.mem_u (Expr.read rs1) width else Expr.mem_s (Expr.read rs1) width in
        Ok ([ Stmt.write_res_addr (Expr.read rs1);
              Stmt.write_res_valid (Expr.imm (from_u64 X 1));
              Stmt.write_reg rd mem_read ], Fall None)
      else if (opid =ₒ OP_SC_W) || (opid =ₒ OP_SC_D) then
        let cond := Expr.and X (Expr.ne Expr.res_valid (Expr.imm (from_u64 X 0)))
                      (Expr.eq Expr.res_addr (Expr.read rs1)) in
        let then_stmts :=
          [ Stmt.write_mem (Expr.read rs1) 0 (Expr.read rs2) width;
            Stmt.write_reg rd (Expr.imm (from_u64 X 0));
            Stmt.write_res_valid (Expr.imm (from_u64 X 0)) ] in
        let else_stmts :=
          [ Stmt.write_reg rd (Expr.imm (from_u64 X 1));
            Stmt.write_res_valid (Expr.imm (from_u64 X 0)) ] in
        Ok ([Stmt.if_then_else cond then_stmts else_stmts], Fall None)
      else
        let signed := negb is_64 in
        let amo := lift_amo X rd rs1 rs2 width signed in
        if (opid =ₒ OP_AMOSWAP_W) || (opid =ₒ OP_AMOSWAP_D) then amo (fun _ b => b)
        else if (opid =ₒ OP_AMOADD_W) || (opid =ₒ OP_AMOADD_D) then amo (Expr.add X)
        else if (opid =ₒ OP_AMOXOR_W) || (opid =ₒ OP_AMOXOR_D) then amo (Expr.xor X)
        else if (opid =ₒ OP_AMOAND_W) || (opid =ₒ OP_AMOAND_D) then amo (Expr.and X)
        else if (opid =ₒ OP_AMOOR_W) || (opid =ₒ OP_AMOOR_D) then amo (Expr.or X)
        else if opid =ₒ OP_AMOMIN_W then amo (Expr.min32 X)
        else if opid =ₒ OP_AMOMAX_W then amo (Expr.max32 X)
        else if opid =ₒ OP_AMOMINU_W then amo (Expr.minu32 X)
        else if opid =ₒ OP_AMOMAXU_W then amo (Expr.maxu32 X)
        else if opid =ₒ OP_AMOMIN_D then amo Expr.min
        else if opid =ₒ OP_AMOMAX_D then amo Expr.max
        else if opid =ₒ OP_AMOMINU_D then amo (Expr.minu X)
        else if opid =ₒ OP_AMOMAXU_D then amo (Expr.maxu X)
        else Ok ([], Terminator.trap "unknown A instruction")
  | _ => Ok ([], Terminator.trap "invalid args")
  end.

Definition AExtension (X : Xlen) : InstructionExtension := {|
  name := "A";
  ext_id := EXT_A;
  decode16 := no_decode;
  decode32 := decode32_a X;
  lift := fun i => lift_with i (lift_a X (args i) (opid i));
  op_info := find_info OP_INFO_A
|}.
