(* ===== verification/CExt.v ===== *)
(** * C extension: compressed instructions
    ([crates/rvr-isa/src/extensions/c/mod.rs], [decode.rs], [lift.rs]) *)

From S2P Require Import Prelude Xlen IR IRBuild Isa Ext.
#[local] Open Scope word_scope.

Definition OP_C_ADDI4SPN : OpId := OpId.new EXT_C 0.
Definition OP_C_LW : OpId := OpId.new EXT_C 1.
Definition OP_C_SW : OpId := OpId.new EXT_C 2.
Definition OP_C_LD : OpId := OpId.new EXT_C 3.
Definition OP_C_SD : OpId := OpId.new EXT_C 4.
Definition OP_C_NOP : OpId := OpId.new EXT_C 5.
Definition OP_C_ADDI : OpId := OpId.new EXT_C 6.
Definition OP_C_JAL : OpId := OpId.new EXT_C 7.
Definition OP_C_ADDIW : OpId := OpId.new EXT_C 8.
Definition OP_C_LI : OpId := OpId.new EXT_C 9.
Definition OP_C_ADDI16SP : OpId := OpId.new EXT_C 10.
Definition OP_C_LUI : OpId := OpId.new EXT_C 11.
Definition OP_C_SRLI : OpId := OpId.new EXT_C 12.
Definition OP_C_SRAI : OpId := OpId.new EXT_C 13.
Definition OP_C_ANDI : OpId := OpId.new EXT_C 14.
Definition OP_C_SUB : OpId := OpId.new EXT_C 15.
Definition OP_C_XOR : OpId := OpId.new EXT_C 16.
Definition OP_C_OR : OpId := OpId.new EXT_C 17.
Definition OP_C_AND : OpId := OpId.new EXT_C 18.
Definition OP_C_SUBW : OpId := OpId.new EXT_C 19.
Definition OP_C_ADDW : OpId := OpId.new EXT_C 20.
Definition OP_C_J : OpId := OpId.new EXT_C 21.
Definition OP_C_BEQZ : OpId := OpId.new EXT_C 22.
Definition OP_C_BNEZ : OpId := OpId.new EXT_C 23.
Definition OP_C_SLLI : OpId := OpId.new EXT_C 24.
Definition OP_C_LWSP : OpId := OpId.new EXT_C 25.
Definition OP_C_LDSP : OpId := OpId.new EXT_C 26.
Definition OP_C_JR : OpId := OpId.new EXT_C 27.
Definition OP_C_MV : OpId := OpId.new EXT_C 28.
Definition OP_C_EBREAK : OpId := OpId.new EXT_C 29.
Definition OP_C_JALR : OpId := OpId.new EXT_C 30.
Definition OP_C_ADD : OpId := OpId.new EXT_C 31.
Definition OP_C_SWSP : OpId := OpId.new EXT_C 32.
Definition OP_C_SDSP : OpId := OpId.new EXT_C 33.
Definition OP_C_INVALID : OpId := OpId.new EXT_C 34.

Definition c_mnemonic (o : OpId) : string :=
  match idx o with
  | 0 => "c.addi4spn"
  | 1 => "c.lw"
  | 2 => "c.sw"
  | 3 => "c.ld"
  | 4 => "c.sd"
  | 5 => "c.nop"
  | 6 => "c.addi"
  | 7 => "c.jal"
  | 8 => "c.addiw"
  | 9 => "c.li"
  | 10 => "c.addi16sp"
  | 11 => "c.lui"
  | 12 => "c.srli"
  | 13 => "c.srai"
  | 14 => "c.andi"
  | 15 => "c.sub"
  | 16 => "c.xor"
  | 17 => "c.or"
  | 18 => "c.and"
  | 19 => "c.subw"
  | 20 => "c.addw"
  | 21 => "c.j"
  | 22 => "c.beqz"
  | 23 => "c.bnez"
  | 24 => "c.slli"
  | 25 => "c.lwsp"
  | 26 => "c.ldsp"
  | 27 => "c.jr"
  | 28 => "c.mv"
  | 29 => "c.ebreak"
  | 30 => "c.jalr"
  | 31 => "c.add"
  | 32 => "c.swsp"
  | 33 => "c.sdsp"
  | 34 => "c.invalid"
  | _ => "???"
  end%string.

Definition OP_INFO_C : list OpInfo :=
  [ mkOpInfo OP_C_ADDI4SPN "c.addi4spn" CAlu 2;
    mkOpInfo OP_C_LW "c.lw" CLoad 2;
    mkOpInfo OP_C_SW "c.sw" CStore 2;
    mkOpInfo OP_C_LD "c.ld" CLoad 2;
    mkOpInfo OP_C_SD "c.sd" CStore 2;
    mkOpInfo OP_C_NOP "c.nop" CNop 2;
    mkOpInfo OP_C_ADDI "c.addi" CAlu 2;
    mkOpInfo OP_C_JAL "c.jal" CJump 2;
    mkOpInfo OP_C_ADDIW "c.addiw" CAlu 2;
    mkOpInfo OP_C_LI "c.li" CAlu 2;
    mkOpInfo OP_C_ADDI16SP "c.addi16sp" CAlu 2;
    mkOpInfo OP_C_LUI "c.lui" CAlu 2;
    mkOpInfo OP_C_SRLI "c.srli" CAlu 2;
    mkOpInfo OP_C_SRAI "c.srai" CAlu 2;
    mkOpInfo OP_C_ANDI "c.andi" CAlu 2;
    mkOpInfo OP_C_SUB "c.sub" CAlu 2;
    mkOpInfo OP_C_XOR "c.xor" CAlu 2;
    mkOpInfo OP_C_OR "c.or" CAlu 2;
    mkOpInfo OP_C_AND "c.and" CAlu 2;
    mkOpInfo OP_C_SUBW "c.subw" CAlu 2;
    mkOpInfo OP_C_ADDW "c.addw" CAlu 2;
    mkOpInfo OP_C_J "c.j" CJump 2;
    mkOpInfo OP_C_BEQZ "c.beqz" CBranch 2;
    mkOpInfo OP_C_BNEZ "c.bnez" CBranch 2;
    mkOpInfo OP_C_SLLI "c.slli" CAlu 2;
    mkOpInfo OP_C_LWSP "c.lwsp" CLoad 2;
    mkOpInfo OP_C_LDSP "c.ldsp" CLoad 2;
    mkOpInfo OP_C_JR "c.jr" CJumpIndirect 2;
    mkOpInfo OP_C_MV "c.mv" CAlu 2;
    mkOpInfo OP_C_EBREAK "c.ebreak" CSystem 2;
    mkOpInfo OP_C_JALR "c.jalr" CJumpIndirect 2;
    mkOpInfo OP_C_ADD "c.add" CAlu 2;
    mkOpInfo OP_C_SWSP "c.swsp" CStore 2;
    mkOpInfo OP_C_SDSP "c.sdsp" CStore 2 ]%string.

(** ** Immediates

    [instr] is a [u16]; the shifts of the fields stay within 16 bits. *)

Definition decode_addi4spn_imm (instr : Z) : Z :=
  shl_u 16 (shr instr 6 &ᵇ 0x1) 2 |ᵇ shl_u 16 (shr instr 5 &ᵇ 0x1) 3
  |ᵇ shl_u 16 (shr instr 11 &ᵇ 0x3) 4 |ᵇ shl_u 16 (shr instr 7 &ᵇ 0xF) 6.

Definition decode_cl_lw_offset (instr : Z) : Z :=
  shl_u 16 (shr instr 6 &ᵇ 0x1) 2 |ᵇ shl_u 16 (shr instr 10 &ᵇ 0x7) 3
  |ᵇ shl_u 16 (shr instr 5 &ᵇ 0x1) 6.
Definition decode_cs_sw_offset (instr : Z) : Z := decode_cl_lw_offset instr.

Definition decode_cl_ld_offset (instr : Z) : Z :=
  shl_u 16 (shr instr 10 &ᵇ 0x7) 3 |ᵇ shl_u 16 (shr instr 5 &ᵇ 0x3) 6.
Definition decode_cs_sd_offset (instr : Z) : Z := decode_cl_ld_offset instr.

Definition decode_ci_imm (instr : Z) : Z :=
  let imm := (shr instr 2 &ᵇ 0x1F) |ᵇ shl_u 16 (shr instr 12 &ᵇ 0x1) 5 in
  shr (shl_i 16 (to_signed 16 imm) 10) 10.

Definition decode_cj_imm (instr : Z) : Z :=
  let imm :=
    shl_u 16 (shr instr 3 &ᵇ 0x7) 1 |ᵇ shl_u 16 (shr instr 11 &ᵇ 0x1) 4
    |ᵇ shl_u 16 (shr instr 2 &ᵇ 0x1) 5 |ᵇ shl_u 16 (shr instr 7 &ᵇ 0x1) 6
    |ᵇ shl_u 16 (shr instr 6 &ᵇ 0x1) 7 |ᵇ shl_u 16 (shr instr 9 &ᵇ 0x3) 8
    |ᵇ shl_u 16 (shr instr 8 &ᵇ 0x1) 10 |ᵇ shl_u 16 (shr instr 12 &ᵇ 0x1) 11 in
  shr (shl_i 16 (to_signed 16 imm) 4) 4.

Definition decode_ci16sp_imm (instr : Z) : Z :=
  let imm :=
    shl_u 16 (shr instr 6 &ᵇ 0x1) 4 |ᵇ shl_u 16 (shr instr 2 &ᵇ 0x1) 5
    |ᵇ shl_u 16 (shr instr 5 &ᵇ 0x1) 6 |ᵇ shl_u 16 (shr instr 3 &ᵇ 0x3) 7
    |ᵇ shl_u 16 (shr instr 12 &ᵇ 0x1) 9 in
  shr (shl_i 16 (to_signed 16 imm) 6) 6.

Definition decode_ci_lui_imm (instr : Z) : Z :=
  let imm := (shr instr 2 &ᵇ 0x1F) |ᵇ shl_u 16 (shr instr 12 &ᵇ 0x1) 5 in
  let imm := shl_u 32 imm 12 in
  shr (shl_i 32 (to_signed 32 imm) 14) 14.

Definition decode_ci_shamt (instr : Z) : Z :=
  (shr instr 2 &ᵇ 0x1F) |ᵇ shl_u 16 (shr instr 12 &ᵇ 0x1) 5.

Definition decode_cb_imm (instr : Z) : Z :=
  let imm :=
    shl_u 16 (shr instr 3 &ᵇ 0x3) 1 |ᵇ shl_u 16 (shr instr 10 &ᵇ 0x3) 3
    |ᵇ shl_u 16 (shr instr 2 &ᵇ 0x1) 5 |ᵇ shl_u 16 (shr instr 5 &ᵇ 0x3) 6
    |ᵇ shl_u 16 (shr instr 12 &ᵇ 0x1) 8 in
  shr (shl_i 16 (to_signed 16 imm) 7) 7.

Definition decode_ci_lwsp_offset (instr : Z) : Z :=
  shl_u 16 (shr instr 4 &ᵇ 0x7) 2 |ᵇ shl_u 16 (shr instr 12 &ᵇ 0x1) 5
  |ᵇ shl_u 16 (shr instr 2 &ᵇ 0x3) 6.

Definition decode_css_swsp_offset (instr : Z) : Z :=
  shl_u 16 (shr instr 9 &ᵇ 0xF) 2 |ᵇ shl_u 16 (shr instr 7 &ᵇ 0x3) 6.

Definition decode_ci_ldsp_offset (instr : Z) : Z :=
  shl_u 16 (shr instr 5 &ᵇ 0x3) 3 |ᵇ shl_u 16 (shr instr 12 &ᵇ 0x1) 5
  |ᵇ shl_u 16 (shr instr 2 &ᵇ 0x7) 6.

Definition decode_css_sdsp_offset (instr : Z) : Z :=
  shl_u 16 (shr instr 10 &ᵇ 0x7) 3 |ᵇ shl_u 16 (shr instr 7 &ᵇ 0x7) 6.

(** Register fields: [as u8], and the three-bit ones offset by 8. *)
Definition creg5 (instr lo : Z) : Z := wrap 8 (shr instr lo &ᵇ 0x1F).
Definition creg3 (instr lo : Z) : Z := wrap 8 (shr instr lo &ᵇ 0x7) + 8.

(** ** Decoding *)

Definition decode_q0 (X : Xlen) (instr funct3 : Z) : option (OpId * InstrArgs) :=
  if funct3 =? 0x0 then
    let rd := creg3 instr 2 in
    let nzuimm := decode_addi4spn_imm instr in
    if nzuimm =? 0 then None else Some (OP_C_ADDI4SPN, A_I rd 2 nzuimm)
  else if funct3 =? 0x2 then
    let rd := creg3 instr 2 in
    let rs1 := creg3 instr 7 in
    let offset := decode_cl_lw_offset instr in
    Some (OP_C_LW, A_I rd rs1 offset)
  else if (funct3 =? 0x3) && (VALUE X =? 64) then
    let rd := creg3 instr 2 in
    let rs1 := creg3 instr 7 in
    let offset := decode_cl_ld_offset instr in
    Some (OP_C_LD, A_I rd rs1 offset)
  else if funct3 =? 0x6 then
    let rs2 := creg3 instr 2 in
    let rs1 := creg3 instr 7 in
    let offset := decode_cs_sw_offset instr in
    Some (OP_C_SW, A_S rs1 rs2 offset)
  else if (funct3 =? 0x7) && (VALUE X =? 64) then
    let rs2 := creg3 instr 2 in
    let rs1 := creg3 instr 7 in
    let offset := decode_cs_sd_offset instr in
    Some (OP_C_SD, A_S rs1 rs2 offset)
  else None.

Definition decode_q1_addi (instr : Z) : OpId * InstrArgs :=
  let rd := creg5 instr 7 in
  let imm := decode_ci_imm instr in
  if (rd =? 0) && (imm =? 0) then (OP_C_NOP, A_None) else (OP_C_ADDI, A_I rd rd imm).

Definition decode_q1_addiw_or_jal (X : Xlen) (instr : Z) : option (OpId * InstrArgs) :=
  if VALUE X =? 64 then
    let rd := creg5 instr 7 in
    let imm := decode_ci_imm instr in
    if rd =? 0 then None else Some (OP_C_ADDIW, A_I rd rd imm)
  else
    let offset := decode_cj_imm instr in
    Some (OP_C_JAL, A_J 1 offset).

Definition decode_q1_li (instr : Z) : OpId * InstrArgs :=
  let rd := creg5 instr 7 in
  let imm := decode_ci_imm instr in
  (OP_C_LI, A_I rd 0 imm).

Definition decode_q1_addi16sp_or_lui (instr : Z) : option (OpId * InstrArgs) :=
  let rd := creg5 instr 7 in
  if rd =? 2 then
    let imm := decode_ci16sp_imm instr in
    if imm =? 0 then None else Some (OP_C_ADDI16SP, A_I 2 2 imm)
  else
    let imm := decode_ci_lui_imm instr in
    if (imm =? 0) || (rd =? 0) then None else Some (OP_C_LUI, A_U rd imm).

Definition decode_q1_j (instr : Z) : OpId * InstrArgs :=
  let offset := decode_cj_imm instr in (OP_C_J, A_J 0 offset).

Definition decode_q1_beqz (instr : Z) : OpId * InstrArgs :=
  let rs1 := creg3 instr 7 in
  let offset := decode_cb_imm instr in (OP_C_BEQZ, A_B rs1 0 offset).

Definition decode_q1_bnez (instr : Z) : OpId * InstrArgs :=
  let rs1 := creg3 instr 7 in
  let offset := decode_cb_imm instr in (OP_C_BNEZ, A_B rs1 0 offset).

Definition decode_misc_alu (X : Xlen) (instr : Z) : option (OpId * InstrArgs) :=
  let funct2 := wrap 8 (shr instr 10 &ᵇ 0x3) in
  let rd := creg3 instr 7 in
  if funct2 =? 0x0 then
    let shamt := decode_ci_shamt instr in Some (OP_C_SRLI, A_I rd rd shamt)
  else if funct2 =? 0x1 then
    let shamt := decode_ci_shamt instr in Some (OP_C_SRAI, A_I rd rd shamt)
  else if funct2 =? 0x2 then
    let imm := decode_ci_imm instr in Some (OP_C_ANDI, A_I rd rd imm)
  else if funct2 =? 0x3 then
    let rs2 := creg3 instr 2 in
    let funct6 := wrap 8 (shr instr 12 &ᵇ 0x1) in
    let funct2_low := wrap 8 (shr instr 5 &ᵇ 0x3) in
    if funct6 =? 0 then
      op ← (if funct2_low =? 0x0 then Some OP_C_SUB
            else if funct2_low =? 0x1 then Some OP_C_XOR
            else if funct2_low =? 0x2 then Some OP_C_OR
            else if funct2_low =? 0x3 then Some OP_C_AND
            else None);
      Some (op, A_R rd rd rs2)
    else if negb (VALUE X =? 64) then None
    else
      op ← (if funct2_low =? 0x0 then Some OP_C_SUBW
            else if funct2_low =? 0x1 then Some OP_C_ADDW
            else None);
      Some (op, A_R rd rd rs2)
  else None.

Definition decode_q1 (X : Xlen) (instr funct3 : Z) : option (OpId * InstrArgs) :=
  if funct3 =? 0x0 then Some (decode_q1_addi instr)
  else if funct3 =? 0x1 then decode_q1_addiw_or_jal X instr
  else if funct3 =? 0x2 then Some (decode_q1_li instr)
  else if funct3 =? 0x3 then decode_q1_addi16sp_or_lui instr
  else if funct3 =? 0x4 then decode_misc_alu X instr
  else if funct3 =? 0x5 then Some (decode_q1_j instr)
  else if funct3 =? 0x6 then Some (decode_q1_beqz instr)
  else if funct3 =? 0x7 then Some (decode_q1_bnez instr)
  else None.

Definition decode_q2 (X : Xlen) (instr funct3 : Z) : option (OpId * InstrArgs) :=
  if funct3 =? 0x0 then
    let rd := creg5 instr 7 in
    let shamt := decode_ci_shamt instr in
    if rd =? 0 then None else Some (OP_C_SLLI, A_I rd rd shamt)
  else if funct3 =? 0x2 then
    let rd := creg5 instr 7 in
    let offset := decode_ci_lwsp_offset instr in
    if rd =? 0 then None else Some (OP_C_LWSP, A_I rd 2 offset)
  else if (funct3 =? 0x3) && (VALUE X =? 64) then
    let rd := creg5 instr 7 in
    let offset := decode_ci_ldsp_offset instr in
    if rd =? 0 then None else Some (OP_C_LDSP, A_I rd 2 offset)
  else if funct3 =? 0x4 then
    let funct4 := wrap 8 (shr instr 12 &ᵇ 0x1) in
    let rs1 := creg5 instr 7 in
    let rs2 := creg5 instr 2 in
    if funct4 =? 0 then
      if rs2 =? 0 then
        if rs1 =? 0 then None else Some (OP_C_JR, A_I 0 rs1 0)
      else Some (OP_C_MV, A_R rs1 0 rs2)
    else if (rs1 =? 0) && (rs2 =? 0) then Some (OP_C_EBREAK, A_None)
    else if rs2 =? 0 then Some (OP_C_JALR, A_I 1 rs1 0)
    else Some (OP_C_ADD, A_R rs1 rs1 rs2)
  else if funct3 =? 0x6 then
    let rs2 := creg5 instr 2 in
    let offset := decode_css_swsp_offset instr in
    Some (OP_C_SWSP, A_S 2 rs2 offset)
  else if (funct3 =? 0x7) && (VALUE X =? 64) then
    let rs2 := creg5 instr 2 in
    let offset := decode_css_sdsp_offset instr in
    Some (OP_C_SDSP, A_S 2 rs2 offset)
  else None.

(** An illegal encoding decodes to [OP_C_INVALID], never to [None]. *)
Definition decode16_c (X : Xlen) (raw pc : Z) : option DecodedInstr :=
  let quadrant := raw &ᵇ 0x3 in
  let funct3 := wrap 8 (shr raw 13 &ᵇ 0x7) in
  let result :=
    if quadrant =? 0x0 then decode_q0 X raw funct3
    else if quadrant =? 0x1 then decode_q1 X raw funct3
    else if quadrant =? 0x2 then decode_q2 X raw funct3
    else None in
  let '(opid, args) := default (OP_C_INVALID, A_I 0 0 raw) result in
  Some (DecodedInstr.new opid pc 2 raw args).

(** ** Lifting *)

Definition invalid_args : lifted := Ok ([], Terminator.trap "invalid args").

Definition lift_r (args : InstrArgs) (op : Expr -> Expr -> Expr) : lifted :=
  match args with
  | A_R rd rs1 rs2 =>
      let stmts :=
        if negb (rd =? 0) then [Stmt.write_reg rd (op (Expr.read rs1) (Expr.read rs2))] else [] in
      Ok (stmts, Fall None)
  | _ => invalid_args
  end.

Definition lift_mv (args : InstrArgs) : lifted :=
  match args with
  | A_R rd _ rs2 =>
      let stmts := if negb (rd =? 0) then [Stmt.write_reg rd (Expr.read rs2)] else [] in
      Ok (stmts, Fall None)
  | _ => invalid_args
  end.

Definition lift_i (X : Xlen) (args : InstrArgs) (op : Expr -> Expr -> Expr) : lifted :=
  match args with
  | A_I rd rs1 imm =>
      let stmts :=
        if negb (rd =? 0)
        then [Stmt.write_reg rd (op (Expr.read rs1) (Expr.imm (from_u64 X (wrap 64 imm))))]
        else [] in
      Ok (stmts, Fall None)
  | _ => invalid_args
  end.

Definition lift_shamt (X : Xlen) (args : InstrArgs) (op : Expr -> Expr -> Expr) : lifted :=
  match args with
  | A_I rd rs1 imm =>
      let stmts :=
        if negb (rd =? 0)
        then [Stmt.write_reg rd
                (op (Expr.read rs1) (Expr.imm (from_u64 X (wrap 32 imm &ᵇ 0x3F))))]
        else [] in
      Ok (stmts, Fall None)
  | _ => invalid_args
  end.

Definition lift_lui (X : Xlen) (args : InstrArgs) : lifted :=
  match args with
  | A_U rd imm =>
      let stmts :=
        if negb (rd =? 0) then [Stmt.write_reg rd (Expr.imm (from_u64 X (wrap 64 imm)))] else [] in
      Ok (stmts, Fall None)
  | _ => invalid_args
  end.

Definition lift_load (args : InstrArgs) (width : Z) (signed : bool) : lifted :=
  match args with
  | A_I rd rs1 imm =>
      stmts ←
        (if negb (rd =? 0) then
           offset ← expect_i 16 imm;
           mret [Stmt.write_reg rd (Expr.mem (Expr.read rs1) offset width signed)]
         else mret []);
      mret (stmts, Fall None)
  | _ => invalid_args
  end.

Definition lift_store (X : Xlen) (args : InstrArgs) (width : Z) : lifted :=
  match args with
  | A_S rs1 rs2 imm =>
      offset ← expect_i 16 imm;
      mret ([ Stmt.write_mem (Expr.read rs1) offset (Expr.read rs2) width;
              Stmt.write_res_valid (Expr.imm (from_u64 X 0)) ], Fall None)
  | _ => invalid_args
  end.

(** The target computation shared by the jumps and branches, added on [i64]. *)
Definition pc_relative (X : Xlen) (pc imm : Z) : result Z :=
  let offset := to_signed 64 (to_u64 X (sign_extend_32 X (wrap 32 imm))) in
  target ← add_i 64 (to_signed 64 (to_u64 X pc)) offset;
  mret (from_u64 X (wrap 64 target)).

(** [pc + X::from_u64(u64::from(size))], added on [X::Reg]. *)
Definition link_value (X : Xlen) (pc size : Z) : result Z :=
  add_u (VALUE X) pc (from_u64 X size).

Definition lift_j (X : Xlen) (args : InstrArgs) (pc : Z) : lifted :=
  match args with
  | A_J _ imm => target ← pc_relative X pc imm; mret ([], Terminator.jump target)
  | _ => invalid_args
  end.

Definition lift_jal (X : Xlen) (args : InstrArgs) (pc size : Z) : lifted :=
  match args with
  | A_J rd imm =>
      stmts ←
        (if negb (rd =? 0) then
           l ← link_value X pc size; mret [Stmt.write_reg rd (Expr.imm l)]
         else mret []);
      target ← pc_relative X pc imm;
      mret (stmts, Terminator.jump target)
  | _ => invalid_args
  end.

(** The target is not masked. *)
Definition lift_jr (args : InstrArgs) : lifted :=
  match args with
  | A_I _ rs1 _ => Ok ([], Terminator.jump_dyn (Expr.read rs1))
  | _ => invalid_args
  end.

Definition lift_jalr (X : Xlen) (args : InstrArgs) (pc size : Z) : lifted :=
  match args with
  | A_I rd rs1 _ =>
      let '(stmts, base) :=
        if rd =? rs1 then ([Stmt.write_temp 0 (Expr.read rs1)], Expr.temp 0)
        else ([], Expr.read rs1) in
      stmts ←
        (if negb (rd =? 0) then
           l ← link_value X pc size; mret (stmts ++ [Stmt.write_reg rd (Expr.imm l)])
         else mret stmts);
      mret (stmts, Terminator.jump_dyn base)
  | _ => invalid_args
  end.

Definition lift_beqz (X : Xlen) (args : InstrArgs) (pc : Z) : lifted :=
  match args with
  | A_B rs1 _ imm =>
      target ← pc_relative X pc imm;
      let cond := Expr.eq (Expr.read rs1) (Expr.imm (from_u64 X 0)) in
      mret ([], Terminator.branch cond target)
  | _ => invalid_args
  end.

Definition lift_bnez (X : Xlen) (args : InstrArgs) (pc : Z) : lifted :=
  match args with
  | A_B rs1 _ imm =>
      target ← pc_relative X pc imm;
      let cond := Expr.ne (Expr.read rs1) (Expr.imm (from_u64 X 0)) in
      mret ([], Terminator.branch cond target)
  | _ => invalid_args
  end.

Definition lift_c (X : Xlen) (args : InstrArgs) (opid : OpId) (pc size : Z) : lifted :=
  if opid =ₒ OP_C_ADD then lift_r args (Expr.add X)
  else if opid =ₒ OP_C_SUB then lift_r args (Expr.sub X)
  else if opid =ₒ OP_C_XOR then lift_r args (Expr.xor X)
  else if opid =ₒ OP_C_OR then lift_r args (Expr.or X)
  else if opid =ₒ OP_C_AND then lift_r args (Expr.and X)
  else if opid =ₒ OP_C_MV then lift_mv args
  else if opid =ₒ OP_C_ADDW then lift_r args (Expr.addw X)
  else if opid =ₒ OP_C_SUBW then lift_r args (Expr.subw X)
  else if (opid =ₒ OP_C_ADDI) || (opid =ₒ OP_C_ADDI4SPN) || (opid =ₒ OP_C_ADDI16SP)
       then lift_i X args (Expr.add X)
  else if opid =ₒ OP_C_ADDIW then lift_i X args (Expr.addw X)
  else if opid =ₒ OP_C_LI then lift_i X args (fun _ b => b)
  else if opid =ₒ OP_C_ANDI then lift_i X args (Expr.and X)
  else if opid =ₒ OP_C_SLLI then lift_shamt X args (Expr.sll X)
  else if opid =ₒ OP_C_SRLI then lift_shamt X args (Expr.srl X)
  else if opid =ₒ OP_C_SRAI then lift_shamt X args (Expr.sra X)
  else if opid =ₒ OP_C_LUI then lift_lui X args
  else if (opid =ₒ OP_C_LW) || (opid =ₒ OP_C_LWSP) then lift_load args 4 true
  else if (opid =ₒ OP_C_LD) || (opid =ₒ OP_C_LDSP) then lift_load args 8 false
  else if (opid =ₒ OP_C_SW) || (opid =ₒ OP_C_SWSP) then lift_store X args 4
  else if (opid =ₒ OP_C_SD) || (opid =ₒ OP_C_SDSP) then lift_store X args 8
  else if opid =ₒ OP_C_J then lift_j X args pc
  else if opid =ₒ OP_C_JAL then lift_jal X args pc size
  else if opid =ₒ OP_C_JR then lift_jr args
  else if opid =ₒ OP_C_JALR then lift_jalr X args pc size
  else if opid =ₒ OP_C_BEQZ then lift_beqz X args pc
  else if opid =ₒ OP_C_BNEZ then lift_bnez X args pc
  else if opid =ₒ OP_C_NOP then Ok ([], Fall None)
  else if opid =ₒ OP_C_EBREAK then Ok ([], Terminator.exit (Expr.imm (from_u64 X 0)))
  else if opid =ₒ OP_C_INVALID then Ok ([], Terminator.trap "invalid")
  else Ok ([], Terminator.trap "unknown C instruction").

Definition CExtension (X : Xlen) : InstructionExtension := {|
  name := "C";
  ext_id := EXT_C;
  decode16 := decode16_c X;
  decode32 := no_decode;
  lift := fun i => lift_with i (lift_c X (args i) (opid i) (di_pc i) (di_size i));
  op_info := find_info OP_INFO_C
|}.
