(* ===== verification/ZicsrExt.v ===== *)
(** * Zicsr extension: control and status registers ([crates/rvr-isa/src/extensions/zicsr.rs]) *)

From S2P Require Import Prelude Xlen IR IRBuild Isa Ext.
#[local] Open Scope word_scope.

Definition OP_CSRRW : OpId := OpId.new EXT_ZICSR 0.
Definition OP_CSRRS : OpId := OpId.new EXT_ZICSR 1.
Definition OP_CSRRC : OpId := OpId.new EXT_ZICSR 2.
Definition OP_CSRRWI : OpId := OpId.new EXT_ZICSR 3.
Definition OP_CSRRSI : OpId := OpId.new EXT_ZICSR 4.
Definition OP_CSRRCI : OpId := OpId.new EXT_ZICSR 5.

Definition CSR_CYCLE : Z := 0xC00.
Definition CSR_TIME : Z := 0xC01.
Definition CSR_INSTRET : Z := 0xC02.
Definition CSR_CYCLEH : Z := 0xC80.
Definition CSR_TIMEH : Z := 0xC81.
Definition CSR_INSTRETH : Z := 0xC82.
Definition CSR_MISA : Z := 0x301.
Definition CSR_MVENDORID : Z := 0xF11.
Definition CSR_MARCHID : Z := 0xF12.
Definition CSR_MIMPID : Z := 0xF13.
Definition CSR_MHARTID : Z := 0xF14.

Definition zicsr_mnemonic (o : OpId) : string :=
  match idx o with
  | 0 => "csrrw"
  | 1 => "csrrs"
  | 2 => "csrrc"
  | 3 => "csrrwi"
  | 4 => "csrrsi"
  | 5 => "csrrci"
  | _ => "???"
  end%string.

Definition csr_name (csr : Z) : string :=
  if csr =? 0xC00 then "cycle"
  else if csr =? 0xC01 then "time"
  else if csr =? 0xC02 then "instret"
  else if csr =? 0xC80 then "cycleh"
  else if csr =? 0xC81 then "timeh"
  else if csr =? 0xC82 then "instreth"
  else if csr =? 0x301 then "misa"
  else if csr =? 0xF11 then "mvendorid"
  else if csr =? 0xF12 then "marchid"
  else if csr =? 0xF13 then "mimpid"
  else if csr =? 0xF14 then "mhartid"
  else "???".

Definition OP_INFO_ZICSR : list OpInfo :=
  [ mkOpInfo OP_CSRRW "csrrw" CCsr 4;
    mkOpInfo OP_CSRRS "csrrs" CCsr 4;
    mkOpInfo OP_CSRRC "csrrc" CCsr 4;
    mkOpInfo OP_CSRRWI "csrrwi" CCsr 4;
    mkOpInfo OP_CSRRSI "csrrsi" CCsr 4;
    mkOpInfo OP_CSRRCI "csrrci" CCsr 4 ]%string.

Definition decode32_zicsr (raw pc : Z) : option DecodedInstr :=
  let opcode := decode_opcode raw in
  let funct3 := decode_funct3 raw in
  if negb (opcode =? 0x73) || (funct3 =? 0) then None
  else
    let rd := decode_rd raw in
    let rs1 := decode_rs1 raw in
    let csr := wrap 16 (shr raw 20 &ᵇ 0xFFF) in
    '(opid, args) ←
      (if funct3 =? 1 then Some (OP_CSRRW, A_Csr rd rs1 csr)
       else if funct3 =? 2 then Some (OP_CSRRS, A_Csr rd rs1 csr)
       else if funct3 =? 3 then Some (OP_CSRRC, A_Csr rd rs1 csr)
       else if funct3 =? 5 then Some (OP_CSRRWI, A_CsrI rd rs1 csr)
       else if funct3 =? 6 then Some (OP_CSRRSI, A_CsrI rd rs1 csr)
       else if funct3 =? 7 then Some (OP_CSRRCI, A_CsrI rd rs1 csr)
       else None);
    Some (DecodedInstr.new opid pc 4 raw args).

Definition lift_csrrw (args : InstrArgs) : lifted :=
  match args with
  | A_Csr rd rs1 csr =>
      let stmts := if negb (rd =? 0) then [Stmt.write_reg rd (Expr.csr csr)] else [] in
      Ok (stmts ++ [Stmt.write_csr csr (Expr.read rs1)], Fall None)
  | _ => Ok ([], Terminator.trap "invalid args")
  end.

Definition lift_csrrs (X : Xlen) (args : InstrArgs) : lifted :=
  match args with
  | A_Csr rd rs1 csr =>
      let old_val := Expr.csr csr in
      let stmts := if negb (rd =? 0) then [Stmt.write_reg rd old_val] else [] in
      Ok (stmts ++ (if negb (rs1 =? 0) then [Stmt.write_csr csr (Expr.or X old_val (Expr.read rs1))] else []), Fall None)
  | _ => Ok ([], Terminator.trap "invalid args")
  end.

Definition lift_csrrc (X : Xlen) (args : InstrArgs) : lifted :=
  match args with
  | A_Csr rd rs1 csr =>
      let old_val := Expr.csr csr in
      let stmts := if negb (rd =? 0) then [Stmt.write_reg rd old_val] else [] in
      Ok (stmts ++ (if negb (rs1 =? 0) then [Stmt.write_csr csr (Expr.and X old_val (Expr.not (Expr.read rs1)))] else []), Fall None)
  | _ => Ok ([], Terminator.trap "invalid args")
  end.

Definition lift_csrrwi (X : Xlen) (args : InstrArgs) : lifted :=
  match args with
  | A_CsrI rd imm csr =>
      let stmts := if negb (rd =? 0) then [Stmt.write_reg rd (Expr.csr csr)] else [] in
      Ok (stmts ++ [Stmt.write_csr csr (Expr.imm (from_u64 X imm))], Fall None)
  | _ => Ok ([], Terminator.trap "invalid args")
  end.

Definition lift_csrrsi (X : Xlen) (args : InstrArgs) : lifted :=
  match args with
  | A_CsrI rd imm csr =>
      let old_val := Expr.csr csr in
      let stmts := if negb (rd =? 0) then [Stmt.write_reg rd old_val] else [] in
      Ok (stmts ++ (if negb (imm =? 0) then [Stmt.write_csr csr (Expr.or X old_val (Expr.imm (from_u64 X imm)))] else []), Fall None)
  | _ => Ok ([], Terminator.trap "invalid args")
  end.

Definition lift_csrrci (X : Xlen) (args : InstrArgs) : lifted :=
  match args with
  | A_CsrI rd imm csr =>
      let old_val := Expr.csr csr in
      let stmts := if negb (rd =? 0) then [Stmt.write_reg rd old_val] else [] in
      Ok (stmts ++ (if negb (imm =? 0) then [Stmt.write_csr csr (Expr.and X old_val (Expr.not (Expr.imm (from_u64 X imm))))] else []), Fall None)
  | _ => Ok ([], Terminator.trap "invalid args")
  end.

Definition lift_zicsr (X : Xlen) (args : InstrArgs) (opid : OpId) : lifted :=
  if opid =ₒ OP_CSRRW then lift_csrrw args
  else if opid =ₒ OP_CSRRS then lift_csrrs X args
  else if opid =ₒ OP_CSRRC then lift_csrrc X args
  else if opid =ₒ OP_CSRRWI then lift_csrrwi X args
  else if opid =ₒ OP_CSRRSI then lift_csrrsi X args
  else if opid =ₒ OP_CSRRCI then lift_csrrci X args
  else Ok ([], Terminator.trap "unknown zicsr instruction").

Definition ZicsrExtension (X : Xlen) : InstructionExtension := {|
  name := "Zicsr";
  ext_id := EXT_ZICSR;
  decode16 := no_decode;
  decode32 := decode32_zicsr;
  lift := fun i => lift_with i (lift_zicsr X (args i) (opid i));
  op_info := find_info OP_INFO_ZICSR
|}.
