(* ===== verification/ZbaExt.v ===== *)
(** * Zba extension: address generation ([crates/rvr-isa/src/extensions/zba.rs]) *)

From S2P Require Import Prelude Xlen IR IRBuild Isa Ext.
#[local] Open Scope word_scope.

Definition OP_SH1ADD : OpId := OpId.new EXT_ZBA 0.
Definition OP_SH2ADD : OpId := OpId.new EXT_ZBA 1.
Definition OP_SH3ADD : OpId := OpId.new EXT_ZBA 2.
Definition OP_ADD_UW : OpId := OpId.new EXT_ZBA 3.
Definition OP_SH1ADD_UW : OpId := OpId.new EXT_ZBA 4.
Definition OP_SH2ADD_UW : OpId := OpId.new EXT_ZBA 5.
Definition OP_SH3ADD_UW : OpId := OpId.new EXT_ZBA 6.
Definition OP_SLLI_UW : OpId := OpId.new EXT_ZBA 7.

Definition OPCODE_OP : Z := 0x33.
Definition OPCODE_OP_32 : Z := 0x3B.
Definition OPCODE_OP_IMM_32 : Z := 0x1B.

Definition FUNCT7_SHXADD : Z := 0x10.
Definition FUNCT7_ADD_UW : Z := 0x04.
Definition FUNCT6_SLLI_UW : Z := 0x02.

Definition OP_INFO_ZBA : list OpInfo :=
  [ mkOpInfo OP_SH1ADD "sh1add" CAlu 4;
    mkOpInfo OP_SH2ADD "sh2add" CAlu 4;
    mkOpInfo OP_SH3ADD "sh3add" CAlu 4;
    mkOpInfo OP_ADD_UW "add.uw" CAlu 4;
    mkOpInfo OP_SH1ADD_UW "sh1add.uw" CAlu 4;
    mkOpInfo OP_SH2ADD_UW "sh2add.uw" CAlu 4;
    mkOpInfo OP_SH3ADD_UW "sh3add.uw" CAlu 4;
    mkOpInfo OP_SLLI_UW "slli.uw" CAlu 4 ]%string.

Definition zba_mnemonic (o : OpId) : option string := oi_name <$> find_info OP_INFO_ZBA o.

(** Each [if] of the source returns when its opcode and [funct7] match, and falls
    through to the next otherwise. *)
Definition decode32_zba (X : Xlen) (raw pc : Z) : option DecodedInstr :=
  let opcode := raw &ᵇ 0x7F in
  let funct3 := decode_funct3 raw in
  let funct7 := decode_funct7 raw in
  let rd := decode_rd raw in
  let rs1 := decode_rs1 raw in
  let rs2 := decode_rs2 raw in
  if (opcode =? OPCODE_OP) && (funct7 =? FUNCT7_SHXADD) then
    opid ← (if funct3 =? 0x2 then Some OP_SH1ADD
            else if funct3 =? 0x4 then Some OP_SH2ADD
            else if funct3 =? 0x6 then Some OP_SH3ADD
            else None);
    Some (DecodedInstr.new opid pc 4 raw (A_R rd rs1 rs2))
  else if (opcode =? OPCODE_OP_32) && (VALUE X =? 64)
          && ((funct7 =? FUNCT7_ADD_UW) && (funct3 =? 0x0)) then
    Some (DecodedInstr.new OP_ADD_UW pc 4 raw (A_R rd rs1 rs2))
  else if (opcode =? OPCODE_OP_32) && (VALUE X =? 64) && (funct7 =? FUNCT7_SHXADD) then
    opid ← (if funct3 =? 0x2 then Some OP_SH1ADD_UW
            else if funct3 =? 0x4 then Some OP_SH2ADD_UW
            else if funct3 =? 0x6 then Some OP_SH3ADD_UW
            else None);
    Some (DecodedInstr.new opid pc 4 raw (A_R rd rs1 rs2))
  else if (opcode =? OPCODE_OP_IMM_32) && (VALUE X =? 64)
          && ((funct3 =? 0x1) && (shr raw 26 &ᵇ 0x3F =? FUNCT6_SLLI_UW)) then
    let shamt := to_signed 32 (shr raw 20 &ᵇ 0x3F) in
    Some (DecodedInstr.new OP_SLLI_UW pc 4 raw (A_I rd rs1 shamt))
  else None.

Definition lift_shxadd (X : Xlen) (shift : Z) (args : InstrArgs) : lifted :=
  match args with
  | A_R rd rs1 rs2 =>
      let shifted := Expr.sll X (Expr.reg rs1) (Expr.imm (from_u64 X shift)) in
      let result := Expr.add X (Expr.reg rs2) shifted in
      Ok ([Stmt.write_reg rd result], Fall None)
  | _ => Ok ([], Terminator.trap "bad args")
  end.

Definition lift_add_uw (X : Xlen) (args : InstrArgs) : lifted :=
  match args with
  | A_R rd rs1 rs2 =>
      let rs1_zext := Expr.zext32 X (Expr.reg rs1) in
      let result := Expr.add X (Expr.reg rs2) rs1_zext in
      Ok ([Stmt.write_reg rd result], Fall None)
  | _ => Ok ([], Terminator.trap "bad args")
  end.

Definition lift_shxadd_uw (X : Xlen) (shift : Z) (args : InstrArgs) : lifted :=
  match args with
  | A_R rd rs1 rs2 =>
      let rs1_zext := Expr.zext32 X (Expr.reg rs1) in
      let shifted := Expr.sll X rs1_zext (Expr.imm (from_u64 X shift)) in
      let result := Expr.add X (Expr.reg rs2) shifted in
      Ok ([Stmt.write_reg rd result], Fall None)
  | _ => Ok ([], Terminator.trap "bad args")
  end.

Definition lift_slli_uw (X : Xlen) (args : InstrArgs) : lifted :=
  match args with
  | A_I rd rs1 imm =>
      shamt ← expect_u 8 imm;
      let rs1_zext := Expr.zext32 X (Expr.reg rs1) in
      let result := Expr.sll X rs1_zext (Expr.imm (from_u64 X shamt)) in
      Ok ([Stmt.write_reg rd result], Fall None)
  | _ => Ok ([], Terminator.trap "bad args")
  end.

Definition lift_zba (X : Xlen) (args : InstrArgs) (opid : OpId) : lifted :=
  if opid =ₒ OP_SH1ADD then lift_shxadd X 1 args
  else if opid =ₒ OP_SH2ADD then lift_shxadd X 2 args
  else if opid =ₒ OP_SH3ADD then lift_shxadd X 3 args
  else if opid =ₒ OP_ADD_UW then lift_add_uw X args
  else if opid =ₒ OP_SH1ADD_UW then lift_shxadd_uw X 1 args
  else if opid =ₒ OP_SH2ADD_UW then lift_shxadd_uw X 2 args
  else if opid =ₒ OP_SH3ADD_UW then lift_shxadd_uw X 3 args
  else if opid =ₒ OP_SLLI_UW then lift_slli_uw X args
  else Ok ([], Terminator.trap "unknown Zba opid").

Definition ZbaExtension (X : Xlen) : InstructionExtension := {|
  name := "Zba";
  ext_id := EXT_ZBA;
  decode16 := no_decode;
  decode32 := decode32_zba X;
  lift := fun i => lift_with i (lift_zba X (args i) (opid i));
  op_info := find_info OP_INFO_ZBA
|}.
