(* ===== verification/ZbbExt.v ===== *)
(** * Zbb extension: basic bit manipulation ([crates/rvr-isa/src/extensions/zbb.rs]) *)

From S2P Require Import Prelude Xlen IR IRBuild Isa Ext.
#[local] Open Scope word_scope.

Definition OP_ANDN : OpId := OpId.new EXT_ZBB 0.
Definition OP_ORN : OpId := OpId.new EXT_ZBB 1.
Definition OP_XNOR : OpId := OpId.new EXT_ZBB 2.
Definition OP_CLZ : OpId := OpId.new EXT_ZBB 3.
Definition OP_CTZ : OpId := OpId.new EXT_ZBB 4.
Definition OP_CPOP : OpId := OpId.new EXT_ZBB 5.
Definition OP_CLZW : OpId := OpId.new EXT_ZBB 6.
Definition OP_CTZW : OpId := OpId.new EXT_ZBB 7.
Definition OP_CPOPW : OpId := OpId.new EXT_ZBB 8.
Definition OP_MAX : OpId := OpId.new EXT_ZBB 9.
Definition OP_MAXU : OpId := OpId.new EXT_ZBB 10.
Definition OP_MIN : OpId := OpId.new EXT_ZBB 11.
Definition OP_MINU : OpId := OpId.new EXT_ZBB 12.
Definition OP_SEXT_B : OpId := OpId.new EXT_ZBB 13.
Definition OP_SEXT_H : OpId := OpId.new EXT_ZBB 14.
Definition OP_ZEXT_H : OpId := OpId.new EXT_ZBB 15.
Definition OP_ROL : OpId := OpId.new EXT_ZBB 16.
Definition OP_ROR : OpId := OpId.new EXT_ZBB 17.
Definition OP_RORI : OpId := OpId.new EXT_ZBB 18.
Definition OP_ROLW : OpId := OpId.new EXT_ZBB 19.
Definition OP_RORW : OpId := OpId.new EXT_ZBB 20.
Definition OP_RORIW : OpId := OpId.new EXT_ZBB 21.
Definition OP_ORC_B : OpId := OpId.new EXT_ZBB 22.
Definition OP_REV8 : OpId := OpId.new EXT_ZBB 23.

Definition OPCODE_OP : Z := 0x33.
Definition OPCODE_OP_IMM : Z := 0x13.
Definition OPCODE_OP_32 : Z := 0x3B.
Definition OPCODE_OP_IMM_32 : Z := 0x1B.

Definition FUNCT7_ANDN_ORN_XNOR : Z := 0x20.
Definition FUNCT7_MINMAX : Z := 0x05.
Definition FUNCT7_ROL_ROR : Z := 0x30.
Definition FUNCT7_ZEXT_H : Z := 0x04.

Definition IMM_CLZ : Z := 0x600.
Definition IMM_CTZ : Z := 0x601.
Definition IMM_CPOP : Z := 0x602.
Definition IMM_SEXT_B : Z := 0x604.
Definition IMM_SEXT_H : Z := 0x605.
Definition IMM_ORC_B : Z := 0x287.
Definition IMM_REV8_32 : Z := 0x698.
Definition IMM_REV8_64 : Z := 0x6B8.

Definition OP_INFO_ZBB : list OpInfo :=
  [ mkOpInfo OP_ANDN "andn" CAlu 4;
    mkOpInfo OP_ORN "orn" CAlu 4;
    mkOpInfo OP_XNOR "xnor" CAlu 4;
    mkOpInfo OP_CLZ "clz" CAlu 4;
    mkOpInfo OP_CTZ "ctz" CAlu 4;
    mkOpInfo OP_CPOP "cpop" CAlu 4;
    mkOpInfo OP_CLZW "clzw" CAlu 4;
    mkOpInfo OP_CTZW "ctzw" CAlu 4;
    mkOpInfo OP_CPOPW "cpopw" CAlu 4;
    mkOpInfo OP_MAX "max" CAlu 4;
    mkOpInfo OP_MAXU "maxu" CAlu 4;
    mkOpInfo OP_MIN "min" CAlu 4;
    mkOpInfo OP_MINU "minu" CAlu 4;
    mkOpInfo OP_SEXT_B "sext.b" CAlu 4;
    mkOpInfo OP_SEXT_H "sext.h" CAlu 4;
    mkOpInfo OP_ZEXT_H "zext.h" CAlu 4;
    mkOpInfo OP_ROL "rol" CAlu 4;
    mkOpInfo OP_ROR "ror" CAlu 4;
    mkOpInfo OP_RORI "rori" CAlu 4;
    mkOpInfo OP_ROLW "rolw" CAlu 4;
    mkOpInfo OP_RORW "rorw" CAlu 4;
    mkOpInfo OP_RORIW "roriw" CAlu 4;
    mkOpInfo OP_ORC_B "orc.b" CAlu 4;
    mkOpInfo OP_REV8 "rev8" CAlu 4 ]%string.

Definition zbb_mnemonic (o : OpId) : option string := oi_name <$> find_info OP_INFO_ZBB o.

Definition decode_op_rtype (X : Xlen) (funct3 funct7 rs2 rd rs1 : Z) :
    option (OpId * InstrArgs) :=
  if (funct7 =? FUNCT7_ZEXT_H) && (funct3 =? 0x4) && (rs2 =? 0) && (VALUE X =? 32)
  then Some (OP_ZEXT_H, A_I rd rs1 0)
  else
    opid ←
      (if funct7 =? FUNCT7_ANDN_ORN_XNOR then
         if funct3 =? 0x7 then Some OP_ANDN
         else if funct3 =? 0x6 then Some OP_ORN
         else if funct3 =? 0x4 then Some OP_XNOR
         else None
       else if funct7 =? FUNCT7_MINMAX then
         if funct3 =? 0x4 then Some OP_MIN
         else if funct3 =? 0x5 then Some OP_MINU
         else if funct3 =? 0x6 then Some OP_MAX
         else if funct3 =? 0x7 then Some OP_MAXU
         else None
       else if funct7 =? FUNCT7_ROL_ROR then
         if funct3 =? 0x1 then Some OP_ROL
         else if funct3 =? 0x5 then Some OP_ROR
         else None
       else None);
    Some (opid, A_R rd rs1 rs2).

Definition decode_op_imm (X : Xlen) (raw funct3 imm12 rd rs1 : Z) : option (OpId * InstrArgs) :=
  if funct3 =? 0x1 then
    opid ← (if imm12 =? IMM_CLZ then Some OP_CLZ
            else if imm12 =? IMM_CTZ then Some OP_CTZ
            else if imm12 =? IMM_CPOP then Some OP_CPOP
            else if imm12 =? IMM_SEXT_B then Some OP_SEXT_B
            else if imm12 =? IMM_SEXT_H then Some OP_SEXT_H
            else None);
    Some (opid, A_I rd rs1 0)
  else if negb (funct3 =? 0x5) then None
  else if imm12 =? IMM_ORC_B then Some (OP_ORC_B, A_I rd rs1 0)
  else
    let rev8_imm := if VALUE X =? 32 then IMM_REV8_32 else IMM_REV8_64 in
    if imm12 =? rev8_imm then Some (OP_REV8, A_I rd rs1 0)
    else
      let funct6 := shr raw 26 &ᵇ 0x3F in
      if negb (funct6 =? 0x18) then None
      else if (VALUE X =? 32) && negb (shr raw 25 &ᵇ 1 =? 0) then None
      else
        let shamt := if VALUE X =? 32 then to_signed 32 (shr raw 20 &ᵇ 0x1F)
                     else to_signed 32 (shr raw 20 &ᵇ 0x3F) in
        Some (OP_RORI, A_I rd rs1 shamt).

Definition decode_op_32 (funct3 funct7 rs2 rd rs1 : Z) : option (OpId * InstrArgs) :=
  if (funct7 =? FUNCT7_ZEXT_H) && (funct3 =? 0x4) && (rs2 =? 0)
  then Some (OP_ZEXT_H, A_I rd rs1 0)
  else if negb (funct7 =? FUNCT7_ROL_ROR) then None
  else
    opid ← (if funct3 =? 0x1 then Some OP_ROLW
            else if funct3 =? 0x5 then Some OP_RORW
            else None);
    Some (opid, A_R rd rs1 rs2).

Definition decode_op_imm_32 (raw funct3 funct7 rd rs1 : Z) : option (OpId * InstrArgs) :=
  if negb (funct7 =? FUNCT7_ROL_ROR) then None
  else if funct3 =? 0x1 then
    let rs2_val := shr raw 20 &ᵇ 0x1F in
    opid ← (if rs2_val =? 0x0 then Some OP_CLZW
            else if rs2_val =? 0x1 then Some OP_CTZW
            else if rs2_val =? 0x2 then Some OP_CPOPW
            else None);
    Some (opid, A_I rd rs1 0)
  else if funct3 =? 0x5 then
    let shamt := to_signed 32 (shr raw 20 &ᵇ 0x1F) in
    Some (OP_RORIW, A_I rd rs1 shamt)
  else None.

Definition decode32_zbb (X : Xlen) (raw pc : Z) : option DecodedInstr :=
  let opcode := raw &ᵇ 0x7F in
  let funct3 := decode_funct3 raw in
  let funct7 := decode_funct7 raw in
  let rd := decode_rd raw in
  let rs1 := decode_rs1 raw in
  let rs2 := decode_rs2 raw in
  let imm12 := shr raw 20 &ᵇ 0xFFF in
  '(opid, args) ←
    (if opcode =? OPCODE_OP then decode_op_rtype X funct3 funct7 rs2 rd rs1
     else if opcode =? OPCODE_OP_IMM then decode_op_imm X raw funct3 imm12 rd rs1
     else if (opcode =? OPCODE_OP_32) && (VALUE X =? 64) then decode_op_32 funct3 funct7 rs2 rd rs1
     else if (opcode =? OPCODE_OP_IMM_32) && (VALUE X =? 64)
          then decode_op_imm_32 raw funct3 funct7 rd rs1
     else None);
  Some (DecodedInstr.new opid pc 4 raw args).

Definition lift_andn (X : Xlen) (args : InstrArgs) : lifted :=
  match args with
  | A_R rd rs1 rs2 =>
      let result := Expr.and X (Expr.reg rs1) (Expr.not (Expr.reg rs2)) in
      Ok ([Stmt.write_reg rd result], Fall None)
  | _ => Ok ([], Terminator.trap "bad args")
  end.

Definition lift_orn (X : Xlen) (args : InstrArgs) : lifted :=
  match args with
  | A_R rd rs1 rs2 =>
      let result := Expr.or X (Expr.reg rs1) (Expr.not (Expr.reg rs2)) in
      Ok ([Stmt.write_reg rd result], Fall None)
  | _ => Ok ([], Terminator.trap "bad args")
  end.

Definition lift_xnor (X : Xlen) (args : InstrArgs) : lifted :=
  match args with
  | A_R rd rs1 rs2 =>
      let result := Expr.not (Expr.xor X (Expr.reg rs1) (Expr.reg rs2)) in
      Ok ([Stmt.write_reg rd result], Fall None)
  | _ => Ok ([], Terminator.trap "bad args")
  end.

Definition lift_unary (op : Expr -> Expr) (args : InstrArgs) : lifted :=
  match args with
  | A_I rd rs1 _ => Ok ([Stmt.write_reg rd (op (Expr.reg rs1))], Fall None)
  | _ => Ok ([], Terminator.trap "bad args")
  end.

Definition lift_binary (op : Expr -> Expr -> Expr) (args : InstrArgs) : lifted :=
  match args with
  | A_R rd rs1 rs2 =>
      let result := op (Expr.reg rs1) (Expr.reg rs2) in
      Ok ([Stmt.write_reg rd result], Fall None)
  | _ => Ok ([], Terminator.trap "bad args")
  end.

Definition lift_rol (X : Xlen) (args : InstrArgs) : lifted :=
  match args with
  | A_R rd rs1 rs2 =>
      let mask := from_u64 X (VALUE X - 1) in
      let xlen := from_u64 X (VALUE X) in
      let val := Expr.reg rs1 in
      let shamt := Expr.and X (Expr.reg rs2) (Expr.imm mask) in
      let complement := Expr.and X (Expr.sub X (Expr.imm xlen) (Expr.reg rs2)) (Expr.imm mask) in
      let left := Expr.sll X val shamt in
      let right := Expr.srl X val complement in
      let result := Expr.or X left right in
      Ok ([Stmt.write_reg rd result], Fall None)
  | _ => Ok ([], Terminator.trap "bad args")
  end.

Definition lift_ror (X : Xlen) (args : InstrArgs) : lifted :=
  match args with
  | A_R rd rs1 rs2 =>
      let mask := from_u64 X (VALUE X - 1) in
      let xlen := from_u64 X (VALUE X) in
      let val := Expr.reg rs1 in
      let shamt := Expr.and X (Expr.reg rs2) (Expr.imm mask) in
      let complement := Expr.and X (Expr.sub X (Expr.imm xlen) (Expr.reg rs2)) (Expr.imm mask) in
      let right := Expr.srl X val shamt in
      let left := Expr.sll X val complement in
      let result := Expr.or X right left in
      Ok ([Stmt.write_reg rd result], Fall None)
  | _ => Ok ([], Terminator.trap "bad args")
  end.

Definition lift_rori (X : Xlen) (args : InstrArgs) : lifted :=
  match args with
  | A_I rd rs1 imm =>
      shamt ← expect_u 8 imm;
      d ← sub_u 64 (VALUE X) shamt;
      let complement := d &ᵇ (VALUE X - 1) in
      let val := Expr.reg rs1 in
      let right := Expr.srl X val (Expr.imm (from_u64 X shamt)) in
      let left := Expr.sll X val (Expr.imm (from_u64 X complement)) in
      let result := Expr.or X right left in
      Ok ([Stmt.write_reg rd result], Fall None)
  | _ => Ok ([], Terminator.trap "bad args")
  end.

Definition lift_rolw (X : Xlen) (args : InstrArgs) : lifted :=
  match args with
  | A_R rd rs1 rs2 =>
      let val := Expr.zext32 X (Expr.reg rs1) in
      let shamt := Expr.and X (Expr.reg rs2) (Expr.imm (from_u64 X 0x1F)) in
      let complement := Expr.and X (Expr.sub X (Expr.imm (from_u64 X 32)) (Expr.reg rs2)) (Expr.imm (from_u64 X 0x1F)) in
      let left := Expr.sll X val shamt in
      let right := Expr.srl X val complement in
      let result := Expr.sext32 X (Expr.or X left right) in
      Ok ([Stmt.write_reg rd result], Fall None)
  | _ => Ok ([], Terminator.trap "bad args")
  end.

Definition lift_rorw (X : Xlen) (args : InstrArgs) : lifted :=
  match args with
  | A_R rd rs1 rs2 =>
      let val := Expr.zext32 X (Expr.reg rs1) in
      let shamt := Expr.and X (Expr.reg rs2) (Expr.imm (from_u64 X 0x1F)) in
      let complement := Expr.and X (Expr.sub X (Expr.imm (from_u64 X 32)) (Expr.reg rs2)) (Expr.imm (from_u64 X 0x1F)) in
      let right := Expr.srl X val shamt in
      let left := Expr.sll X val complement in
      let result := Expr.sext32 X (Expr.or X right left) in
      Ok ([Stmt.write_reg rd result], Fall None)
  | _ => Ok ([], Terminator.trap "bad args")
  end.

Definition lift_roriw (X : Xlen) (args : InstrArgs) : lifted :=
  match args with
  | A_I rd rs1 imm =>
      shamt ← expect_u 8 imm;
      d ← sub_u 64 32 shamt;
      let complement := d &ᵇ 0x1F in
      let val := Expr.zext32 X (Expr.reg rs1) in
      let right := Expr.srl X val (Expr.imm (from_u64 X shamt)) in
      let left := Expr.sll X val (Expr.imm (from_u64 X complement)) in
      let result := Expr.sext32 X (Expr.or X right left) in
      Ok ([Stmt.write_reg rd result], Fall None)
  | _ => Ok ([], Terminator.trap "bad args")
  end.

Definition lift_zbb (X : Xlen) (args : InstrArgs) (opid : OpId) : lifted :=
  if opid =ₒ OP_ANDN then lift_andn X args
  else if opid =ₒ OP_ORN then lift_orn X args
  else if opid =ₒ OP_XNOR then lift_xnor X args
  else if opid =ₒ OP_CLZ then lift_unary Expr.clz args
  else if opid =ₒ OP_CTZ then lift_unary Expr.ctz args
  else if opid =ₒ OP_CPOP then lift_unary Expr.cpop args
  else if opid =ₒ OP_CLZW then lift_unary Expr.clz32 args
  else if opid =ₒ OP_CTZW then lift_unary Expr.ctz32 args
  else if opid =ₒ OP_CPOPW then lift_unary Expr.cpop32 args
  else if opid =ₒ OP_MAX then lift_binary Expr.max args
  else if opid =ₒ OP_MAXU then lift_binary (Expr.maxu X) args
  else if opid =ₒ OP_MIN then lift_binary Expr.min args
  else if opid =ₒ OP_MINU then lift_binary (Expr.minu X) args
  else if opid =ₒ OP_SEXT_B then lift_unary (Expr.sext8 X) args
  else if opid =ₒ OP_SEXT_H then lift_unary (Expr.sext16 X) args
  else if opid =ₒ OP_ZEXT_H then lift_unary (Expr.zext16 X) args
  else if opid =ₒ OP_ROL then lift_rol X args
  else if opid =ₒ OP_ROR then lift_ror X args
  else if opid =ₒ OP_RORI then lift_rori X args
  else if opid =ₒ OP_ROLW then lift_rolw X args
  else if opid =ₒ OP_RORW then lift_rorw X args
  else if opid =ₒ OP_RORIW then lift_roriw X args
  else if opid =ₒ OP_ORC_B then lift_unary Expr.orc8 args
  else if opid =ₒ OP_REV8 then lift_unary Expr.rev8 args
  else Ok ([], Terminator.trap "unknown Zbb opid").

Definition ZbbExtension (X : Xlen) : InstructionExtension := {|
  name := "Zbb";
  ext_id := EXT_ZBB;
  decode16 := no_decode;
  decode32 := decode32_zbb X;
  lift := fun i => lift_with i (lift_zbb X (args i) (opid i));
  op_info := find_info OP_INFO_ZBB
|}.
