(* ===== verification/ZbsExt.v ===== *)
(** * Zbs extension: single-bit operations ([crates/rvr-isa/src/extensions/zbs.rs]) *)

From S2P Require Import Prelude Xlen IR IRBuild Isa Ext.
#[local] Open Scope word_scope.

Definition OP_BCLR : OpId := OpId.new EXT_ZBS 0.
Definition OP_BCLRI : OpId := OpId.new EXT_ZBS 1.
Definition OP_BEXT : OpId := OpId.new EXT_ZBS 2.
Definition OP_BEXTI : OpId := OpId.new EXT_ZBS 3.
Definition OP_BINV : OpId := OpId.new EXT_ZBS 4.
Definition OP_BINVI : OpId := OpId.new EXT_ZBS 5.
Definition OP_BSET : OpId := OpId.new EXT_ZBS 6.
Definition OP_BSETI : OpId := OpId.new EXT_ZBS 7.

Definition OPCODE_OP : Z := 0x33.
Definition OPCODE_OP_IMM : Z := 0x13.

Definition FUNCT7_BCLR : Z := 0x24.
Definition FUNCT7_BINV : Z := 0x34.
Definition FUNCT7_BSET : Z := 0x14.

Definition FUNCT6_BCLRI : Z := 0x12.
Definition FUNCT6_BINVI : Z := 0x1A.
Definition FUNCT6_BSETI : Z := 0x0A.

Definition OP_INFO_ZBS : list OpInfo :=
  [ mkOpInfo OP_BCLR "bclr" CAlu 4;
    mkOpInfo OP_BCLRI "bclri" CAlu 4;
    mkOpInfo OP_BEXT "bext" CAlu 4;
    mkOpInfo OP_BEXTI "bexti" CAlu 4;
    mkOpInfo OP_BINV "binv" CAlu 4;
    mkOpInfo OP_BINVI "binvi" CAlu 4;
    mkOpInfo OP_BSET "bset" CAlu 4;
    mkOpInfo OP_BSETI "bseti" CAlu 4 ]%string.

Definition zbs_mnemonic (o : OpId) : option string := oi_name <$> find_info OP_INFO_ZBS o.

Definition decode32_zbs (X : Xlen) (raw pc : Z) : option DecodedInstr :=
  let opcode := raw &ᵇ 0x7F in
  let funct3 := decode_funct3 raw in
  let funct7 := decode_funct7 raw in
  let rd := decode_rd raw in
  let rs1 := decode_rs1 raw in
  let rs2 := decode_rs2 raw in
  if (opcode =? OPCODE_OP) && (funct3 =? 0x1) then
    opid ← (if funct7 =? FUNCT7_BCLR then Some OP_BCLR
            else if funct7 =? FUNCT7_BINV then Some OP_BINV
            else if funct7 =? FUNCT7_BSET then Some OP_BSET
            else None);
    Some (DecodedInstr.new opid pc 4 raw (A_R rd rs1 rs2))
  else if (opcode =? OPCODE_OP) && ((funct3 =? 0x5) && (funct7 =? FUNCT7_BCLR)) then
    Some (DecodedInstr.new OP_BEXT pc 4 raw (A_R rd rs1 rs2))
  else if opcode =? OPCODE_OP_IMM then
    if (VALUE X =? 32) && negb (shr raw 25 &ᵇ 1 =? 0) then None
    else
      let shamt_mask := if VALUE X =? 32 then 0x1F else 0x3F in
      let shamt := to_signed 32 (shr raw 20 &ᵇ shamt_mask) in
      let funct6 := shr raw 26 &ᵇ 0x3F in
      if funct3 =? 0x1 then
        opid ← (if funct6 =? FUNCT6_BCLRI then Some OP_BCLRI
                else if funct6 =? FUNCT6_BINVI then Some OP_BINVI
                else if funct6 =? FUNCT6_BSETI then Some OP_BSETI
                else None);
        Some (DecodedInstr.new opid pc 4 raw (A_I rd rs1 shamt))
      else if (funct3 =? 0x5) && (funct6 =? FUNCT6_BCLRI) then
        Some (DecodedInstr.new OP_BEXTI pc 4 raw (A_I rd rs1 shamt))
      else None
  else None.

Definition lift_bclr (X : Xlen) (args : InstrArgs) : lifted :=
  match args with
  | A_R rd rs1 rs2 =>
      let mask := from_u64 X (VALUE X - 1) in
      let index := Expr.and X (Expr.reg rs2) (Expr.imm mask) in
      let bit := Expr.sll X (Expr.imm (from_u64 X 1)) index in
      let result := Expr.and X (Expr.reg rs1) (Expr.not bit) in
      Ok ([Stmt.write_reg rd result], Fall None)
  | _ => Ok ([], Terminator.trap "bad args")
  end.

Definition lift_bclri (X : Xlen) (args : InstrArgs) : lifted :=
  match args with
  | A_I rd rs1 imm =>
      shamt ← expect_u 8 imm;
      let bit := Expr.sll X (Expr.imm (from_u64 X 1)) (Expr.imm (from_u64 X shamt)) in
      let result := Expr.and X (Expr.reg rs1) (Expr.not bit) in
      Ok ([Stmt.write_reg rd result], Fall None)
  | _ => Ok ([], Terminator.trap "bad args")
  end.

Definition lift_bext (X : Xlen) (args : InstrArgs) : lifted :=
  match args with
  | A_R rd rs1 rs2 =>
      let mask := from_u64 X (VALUE X - 1) in
      let index := Expr.and X (Expr.reg rs2) (Expr.imm mask) in
      let shifted := Expr.srl X (Expr.reg rs1) index in
      let result := Expr.and X shifted (Expr.imm (from_u64 X 1)) in
      Ok ([Stmt.write_reg rd result], Fall None)
  | _ => Ok ([], Terminator.trap "bad args")
  end.

Definition lift_bexti (X : Xlen) (args : InstrArgs) : lifted :=
  match args with
  | A_I rd rs1 imm =>
      shamt ← expect_u 8 imm;
      let shifted := Expr.srl X (Expr.reg rs1) (Expr.imm (from_u64 X shamt)) in
      let result := Expr.and X shifted (Expr.imm (from_u64 X 1)) in
      Ok ([Stmt.write_reg rd result], Fall None)
  | _ => Ok ([], Terminator.trap "bad args")
  end.

Definition lift_binv (X : Xlen) (args : InstrArgs) : lifted :=
  match args with
  | A_R rd rs1 rs2 =>
      let mask := from_u64 X (VALUE X - 1) in
      let index := Expr.and X (Expr.reg rs2) (Expr.imm mask) in
      let bit := Expr.sll X (Expr.imm (from_u64 X 1)) index in
      let result := Expr.xor X (Expr.reg rs1) bit in
      Ok ([Stmt.write_reg rd result], Fall None)
  | _ => Ok ([], Terminator.trap "bad args")
  end.

Definition lift_binvi (X : Xlen) (args : InstrArgs) : lifted :=
  match args with
  | A_I rd rs1 imm =>
      shamt ← expect_u 8 imm;
      let bit := Expr.sll X (Expr.imm (from_u64 X 1)) (Expr.imm (from_u64 X shamt)) in
      let result := Expr.xor X (Expr.reg rs1) bit in
      Ok ([Stmt.write_reg rd result], Fall None)
  | _ => Ok ([], Terminator.trap "bad args")
  end.

Definition lift_bset (X : Xlen) (args : InstrArgs) : lifted :=
  match args with
  | A_R rd rs1 rs2 =>
      let mask := from_u64 X (VALUE X - 1) in
      let index := Expr.and X (Expr.reg rs2) (Expr.imm mask) in
      let bit := Expr.sll X (Expr.imm (from_u64 X 1)) index in
      let result := Expr.or X (Expr.reg rs1) bit in
      Ok ([Stmt.write_reg rd result], Fall None)
  | _ => Ok ([], Terminator.trap "bad args")
  end.

Definition lift_bseti (X : Xlen) (args : InstrArgs) : lifted :=
  match args with
  | A_I rd rs1 imm =>
      shamt ← expect_u 8 imm;
      let bit := Expr.sll X (Expr.imm (from_u64 X 1)) (Expr.imm (from_u64 X shamt)) in
      let result := Expr.or X (Expr.reg rs1) bit in
      Ok ([Stmt.write_reg rd result], Fall None)
  | _ => Ok ([], Terminator.trap "bad args")
  end.

Definition lift_zbs (X : Xlen) (args : InstrArgs) (opid : OpId) : lifted :=
  if opid =ₒ OP_BCLR then lift_bclr X args
  else if opid =ₒ OP_BCLRI then lift_bclri X args
  else if opid =ₒ OP_BEXT then lift_bext X args
  else if opid =ₒ OP_BEXTI then lift_bexti X args
  else if opid =ₒ OP_BINV then lift_binv X args
  else if opid =ₒ OP_BINVI then lift_binvi X args
  else if opid =ₒ OP_BSET then lift_bset X args
  else if opid =ₒ OP_BSETI then lift_bseti X args
  else Ok ([], Terminator.trap "unknown Zbs opid").

Definition ZbsExtension (X : Xlen) : InstructionExtension := {|
  name := "Zbs";
  ext_id := EXT_ZBS;
  decode16 := no_decode;
  decode32 := decode32_zbs X;
  lift := fun i => lift_with i (lift_zbs X (args i) (opid i));
  op_info := find_info OP_INFO_ZBS
|}.
