(* ===== verification/ZbkbExt.v ===== *)
(** * Zbkb extension: bit manipulation for cryptography ([crates/rvr-isa/src/extensions/zbkb.rs]) *)

From S2P Require Import Prelude Xlen IR IRBuild Isa Ext.
#[local] Open Scope word_scope.

Definition OP_PACK : OpId := OpId.new EXT_ZBKB 0.
Definition OP_PACKH : OpId := OpId.new EXT_ZBKB 1.
Definition OP_PACKW : OpId := OpId.new EXT_ZBKB 2.
Definition OP_BREV8 : OpId := OpId.new EXT_ZBKB 3.
Definition OP_ZIP : OpId := OpId.new EXT_ZBKB 4.
Definition OP_UNZIP : OpId := OpId.new EXT_ZBKB 5.

Definition OPCODE_OP : Z := 0x33.
Definition OPCODE_OP_IMM : Z := 0x13.
Definition OPCODE_OP_32 : Z := 0x3B.

Definition FUNCT7_PACK : Z := 0x04.
Definition FUNCT3_PACK : Z := 0x4.
Definition FUNCT3_PACKH : Z := 0x7.

Definition IMM_BREV8 : Z := 0x687.
Definition IMM_ZIP : Z := 0x08F.
Definition IMM_UNZIP : Z := 0x08F.

Definition OP_INFO_ZBKB : list OpInfo :=
  [ mkOpInfo OP_PACK "pack" CAlu 4;
    mkOpInfo OP_PACKH "packh" CAlu 4;
    mkOpInfo OP_PACKW "packw" CAlu 4;
    mkOpInfo OP_BREV8 "brev8" CAlu 4;
    mkOpInfo OP_ZIP "zip" CAlu 4;
    mkOpInfo OP_UNZIP "unzip" CAlu 4 ]%string.

Definition zbkb_mnemonic (o : OpId) : option string := oi_name <$> find_info OP_INFO_ZBKB o.

Definition decode32_zbkb (X : Xlen) (raw pc : Z) : option DecodedInstr :=
  let opcode := raw &ᵇ 0x7F in
  let funct3 := decode_funct3 raw in
  let funct7 := decode_funct7 raw in
  let rd := decode_rd raw in
  let rs1 := decode_rs1 raw in
  let rs2 := decode_rs2 raw in
  let imm12 := shr raw 20 &ᵇ 0xFFF in
  if (opcode =? OPCODE_OP) && (funct7 =? FUNCT7_PACK) && (funct3 =? FUNCT3_PACK) then
    Some (DecodedInstr.new OP_PACK pc 4 raw (A_R rd rs1 rs2))
  else if (opcode =? OPCODE_OP) && (funct7 =? FUNCT7_PACK) && (funct3 =? FUNCT3_PACKH) then
    Some (DecodedInstr.new OP_PACKH pc 4 raw (A_R rd rs1 rs2))
  else if (opcode =? OPCODE_OP_IMM) && ((funct3 =? 0x5) && (imm12 =? IMM_BREV8)) then
    Some (DecodedInstr.new OP_BREV8 pc 4 raw (A_I rd rs1 0))
  else if (opcode =? OPCODE_OP_IMM) && (VALUE X =? 32) && ((funct3 =? 0x5) && (imm12 =? IMM_UNZIP)) then
    Some (DecodedInstr.new OP_UNZIP pc 4 raw (A_I rd rs1 0))
  else if (opcode =? OPCODE_OP_IMM) && (VALUE X =? 32) && ((funct3 =? 0x1) && (imm12 =? IMM_ZIP)) then
    Some (DecodedInstr.new OP_ZIP pc 4 raw (A_I rd rs1 0))
  else if (opcode =? OPCODE_OP_32) && (VALUE X =? 64) && (funct7 =? FUNCT7_PACK)
          && (funct3 =? FUNCT3_PACK) then
    Some (DecodedInstr.new OP_PACKW pc 4 raw (A_R rd rs1 rs2))
  else None.

Definition lift_pack (args : InstrArgs) : lifted :=
  match args with
  | A_R rd rs1 rs2 =>
      let result := Expr.pack (Expr.reg rs1) (Expr.reg rs2) in
      Ok ([Stmt.write_reg rd result], Fall None)
  | _ => Ok ([], Terminator.trap "bad args")
  end.

Definition lift_packh (args : InstrArgs) : lifted :=
  match args with
  | A_R rd rs1 rs2 =>
      let result := Expr.pack8 (Expr.reg rs1) (Expr.reg rs2) in
      Ok ([Stmt.write_reg rd result], Fall None)
  | _ => Ok ([], Terminator.trap "bad args")
  end.

Definition lift_packw (args : InstrArgs) : lifted :=
  match args with
  | A_R rd rs1 rs2 =>
      let result := Expr.pack16 (Expr.reg rs1) (Expr.reg rs2) in
      Ok ([Stmt.write_reg rd result], Fall None)
  | _ => Ok ([], Terminator.trap "bad args")
  end.

Definition lift_unary (op : Expr -> Expr) (args : InstrArgs) : lifted :=
  match args with
  | A_I rd rs1 _ => Ok ([Stmt.write_reg rd (op (Expr.reg rs1))], Fall None)
  | _ => Ok ([], Terminator.trap "bad args")
  end.

Definition lift_zbkb (args : InstrArgs) (opid : OpId) : lifted :=
  if opid =ₒ OP_PACK then lift_pack args
  else if opid =ₒ OP_PACKH then lift_packh args
  else if opid =ₒ OP_PACKW then lift_packw args
  else if opid =ₒ OP_BREV8 then lift_unary Expr.brev8 args
  else if opid =ₒ OP_ZIP then lift_unary Expr.zip args
  else if opid =ₒ OP_UNZIP then lift_unary Expr.unzip args
  else Ok ([], Terminator.trap "unknown Zbkb opid").

Definition ZbkbExtension (X : Xlen) : InstructionExtension := {|
  name := "Zbkb";
  ext_id := EXT_ZBKB;
  decode16 := no_decode;
  decode32 := decode32_zbkb X;
  lift := fun i => lift_with i (lift_zbkb (args i) (opid i));
  op_info := find_info OP_INFO_ZBKB
|}.
