(* ===== verification/ZicondExt.v ===== *)
(** * Zicond extension: conditional zeroing ([crates/rvr-isa/src/extensions/zicond.rs]) *)

From S2P Require Import Prelude Xlen IR IRBuild Isa Ext.
#[local] Open Scope word_scope.

Definition OP_CZERO_EQZ : OpId := OpId.new EXT_ZICOND 0.
Definition OP_CZERO_NEZ : OpId := OpId.new EXT_ZICOND 1.

Definition OPCODE_OP : Z := 0x33.

Definition FUNCT7_ZICOND : Z := 0x07.
Definition FUNCT3_CZERO_EQZ : Z := 0x5.
Definition FUNCT3_CZERO_NEZ : Z := 0x7.

Definition OP_INFO_ZICOND : list OpInfo :=
  [ mkOpInfo OP_CZERO_EQZ "czero.eqz" CAlu 4;
    mkOpInfo OP_CZERO_NEZ "czero.nez" CAlu 4 ]%string.

Definition zicond_mnemonic (o : OpId) : option string := oi_name <$> find_info OP_INFO_ZICOND o.

Definition decode32_zicond (raw pc : Z) : option DecodedInstr :=
  let opcode := raw &ᵇ 0x7F in
  let funct3 := decode_funct3 raw in
  let funct7 := decode_funct7 raw in
  let rd := decode_rd raw in
  let rs1 := decode_rs1 raw in
  let rs2 := decode_rs2 raw in
  if (opcode =? OPCODE_OP) && (funct7 =? FUNCT7_ZICOND) && (funct3 =? FUNCT3_CZERO_EQZ) then
    Some (DecodedInstr.new OP_CZERO_EQZ pc 4 raw (A_R rd rs1 rs2))
  else if (opcode =? OPCODE_OP) && (funct7 =? FUNCT7_ZICOND) && (funct3 =? FUNCT3_CZERO_NEZ) then
    Some (DecodedInstr.new OP_CZERO_NEZ pc 4 raw (A_R rd rs1 rs2))
  else None.

Definition lift_czero_eqz (X : Xlen) (args : InstrArgs) : lifted :=
  match args with
  | A_R rd rs1 rs2 =>
      let cond := Expr.eq (Expr.reg rs2) (Expr.imm (from_u64 X 0)) in
      let result := Expr.select cond (Expr.imm (from_u64 X 0)) (Expr.reg rs1) in
      Ok ([Stmt.write_reg rd result], Fall None)
  | _ => Ok ([], Terminator.trap "bad args")
  end.

Definition lift_czero_nez (X : Xlen) (args : InstrArgs) : lifted :=
  match args with
  | A_R rd rs1 rs2 =>
      let cond := Expr.ne (Expr.reg rs2) (Expr.imm (from_u64 X 0)) in
      let result := Expr.select cond (Expr.imm (from_u64 X 0)) (Expr.reg rs1) in
      Ok ([Stmt.write_reg rd result], Fall None)
  | _ => Ok ([], Terminator.trap "bad args")
  end.

Definition lift_zicond (X : Xlen) (args : InstrArgs) (opid : OpId) : lifted :=
  if opid =ₒ OP_CZERO_EQZ then lift_czero_eqz X args
  else if opid =ₒ OP_CZERO_NEZ then lift_czero_nez X args
  else Ok ([], Terminator.trap "unknown Zicond opid").

Definition ZicondExtension (X : Xlen) : InstructionExtension := {|
  name := "Zicond";
  ext_id := EXT_ZICOND;
  decode16 := no_decode;
  decode32 := decode32_zicond;
  lift := fun i => lift_with i (lift_zicond X (args i) (opid i));
  op_info := find_info OP_INFO_ZICOND
|}.
