(* ===== verification/ZifenceiExt.v ===== *)
(** * Zifencei extension: instruction fence ([crates/rvr-isa/src/extensions/zifencei.rs]) *)

From S2P Require Import Prelude Xlen IR IRBuild Isa Ext.
#[local] Open Scope word_scope.

Definition OP_FENCE_I : OpId := OpId.new EXT_ZIFENCEI 0.

Definition OP_INFO_ZIFENCEI : list OpInfo := [ mkOpInfo OP_FENCE_I "fence.i" CFence 4 ]%string.

Definition decode32_zifencei (raw pc : Z) : option DecodedInstr :=
  let opcode := raw &ᵇ 0x7F in
  let funct3 := decode_funct3 raw in
  if (opcode =? 0x0F) && (funct3 =? 1) then
    Some (DecodedInstr.new OP_FENCE_I pc 4 raw A_None)
  else None.

(** A no-op: the generated code never changes. *)
Definition lift_zifencei : lifted := Ok ([], Fall None).

Definition ZifenceiExtension (X : Xlen) : InstructionExtension := {|
  name := "Zifencei";
  ext_id := EXT_ZIFENCEI;
  decode16 := no_decode;
  decode32 := decode32_zifencei;
  lift := fun i => lift_with i lift_zifencei;
  op_info := find_info OP_INFO_ZIFENCEI
|}.
