(* ===== verification/Syscalls.v ===== *)
(** * System calls ([crates/rvr-isa/src/syscalls])

    [table.rs], [linux.rs], [baremetal.rs]: lowering of [ECALL] to IR. *)

From S2P Require Import Prelude Xlen IR IRBuild Isa Ext.
#[local] Open Scope word_scope.

(** ** The handler interface *)

(** The trait [SyscallHandler], whose one method is [handle_ecall]. *)
Record SyscallHandler := { handle_ecall : DecodedInstr -> result InstrIR }.

(** ** The table ([table.rs]) *)

Inductive SyscallAbi := Standard | Embedded.

Definition syscall_reg (a : SyscallAbi) : Z :=
  match a with Standard => REG_A7 | Embedded => REG_T0 end.

Inductive SyscallAction :=
| AExit
| ARuntime (rt_name : string) (rt_args : Z)
| AReturnConst (value : Z).

Record SyscallEntry := mkSyscall { num : Z; action : SyscallAction }.

Module SyscallEntry.
Definition exit (n : Z) : SyscallEntry := mkSyscall n AExit.
Definition runtime (n : Z) (name : string) (args : Z) : SyscallEntry :=
  mkSyscall n (ARuntime name args).
Definition ret (n value : Z) : SyscallEntry := mkSyscall n (AReturnConst value).
End SyscallEntry.

Record SyscallTable := mkTable {
  abi : SyscallAbi; entries : list SyscallEntry; default_error : Z
}.

Module SyscallTable.
Definition new (a : SyscallAbi) : SyscallTable := mkTable a [] (-38).
Definition with_entry (t : SyscallTable) (e : SyscallEntry) : SyscallTable :=
  mkTable (abi t) (entries t ++ [e]) (default_error t).
Definition with_exit (t : SyscallTable) (n : Z) : SyscallTable :=
  with_entry t (SyscallEntry.exit n).
Definition with_runtime (t : SyscallTable) (n : Z) (name : string) (args : Z) : SyscallTable :=
  with_entry t (SyscallEntry.runtime n name args).
Definition with_return (t : SyscallTable) (n value : Z) : SyscallTable :=
  with_entry t (SyscallEntry.ret n value).
Definition default_error (t : SyscallTable) (code : Z) : SyscallTable :=
  mkTable (abi t) (entries t) code.
End SyscallTable.

(** [sort_by_key(|e| e.num)]: a stable sort.  An entry goes in front of the first
    one with a larger or equal key, the entries being inserted from the last. *)
Fixpoint insert_by_num (e : SyscallEntry) (l : list SyscallEntry) : list SyscallEntry :=
  match l with
  | [] => [e]
  | x :: l' => if num e <=? num x then e :: l else x :: insert_by_num e l'
  end.
Definition sort_by_num (l : list SyscallEntry) : list SyscallEntry :=
  foldr insert_by_num [] l.

Definition is_exit_entry (e : SyscallEntry) : bool :=
  match action e with AExit => true | _ => false end.

(** [a0 .. a(n-1)]; the documented range is [a0..a5], so [REG_A0 + i] stays in [u8]. *)
Definition arg_regs (n : Z) : list Expr :=
  map (fun i => Expr.read (REG_A0 + Z.of_nat i)) (seq 0 (Z.to_nat n)).

Section build.
Context (X : Xlen) (t : SyscallTable).

Definition sys_num : Expr := Expr.read (syscall_reg (abi t)).
Definition a7_eq (n : Z) : Expr := Expr.eq sys_num (Expr.imm (from_u64 X n)).

(** One exit system call: set the exit flag and the exit code. *)
Definition exit_stmt (e : SyscallEntry) : Stmt :=
  Stmt.if_then (a7_eq (num e))
    [ Stmt.write_exited (Expr.imm (from_u64 X 1)); Stmt.write_exit_code (Expr.read REG_A0) ].

Definition default_stmt : Stmt :=
  Stmt.write_reg REG_A0 (Expr.imm (from_u64 X (wrap 64 (default_error t)))).

(** One step of the loop over the other entries, from the last to the first. *)
Definition dispatch_stmt (e : SyscallEntry) (dispatch : Stmt) : Stmt :=
  match action e with
  | ARuntime name args =>
      Stmt.if_then_else (a7_eq (num e))
        [ Stmt.write_reg REG_A0
            (Expr.extern_call name (Expr.var "state" :: arg_regs args) (REG_BYTES X * 8)) ]
        [ dispatch ]
  | AReturnConst value =>
      Stmt.if_then_else (a7_eq (num e))
        [ Stmt.write_reg REG_A0 (Expr.imm (from_u64 X (wrap 64 value))) ]
        [ dispatch ]
  | AExit => dispatch
  end.

Definition is_exit_expr (first : SyscallEntry) (rest : list SyscallEntry) : Expr :=
  foldl (fun acc e => Expr.or X acc (a7_eq (num e))) (a7_eq (num first)) rest.

Definition build_stmts : list Stmt :=
  let sorted := sort_by_num (entries t) in
  let exit_entries := List.filter is_exit_entry sorted in
  let non_exit_entries := List.filter (fun e => negb (is_exit_entry e)) sorted in
  let stmts := map exit_stmt exit_entries in
  let dispatch := foldr dispatch_stmt default_stmt non_exit_entries in
  match non_exit_entries with
  | [] => stmts
  | _ :: _ =>
      match exit_entries with
      | [] => stmts ++ [dispatch]
      | e :: rest => stmts ++ [Stmt.if_then (Expr.not (is_exit_expr e rest)) [dispatch]]
      end
  end.

Definition build_ir (i : DecodedInstr) : result InstrIR :=
  next_pc ← add_u (VALUE X) (di_pc i) (di_size i);
  mret (InstrIR.new (di_pc i) (di_size i) (OpId.pack (opid i)) (di_raw i)
          build_stmts (Terminator.fall next_pc)).
End build.

Definition TableHandler (X : Xlen) (t : SyscallTable) : SyscallHandler :=
  {| handle_ecall := build_ir X t |}.

(** ** Bare metal ([baremetal.rs]): exit with [a0] *)

Definition BareMetalHandler : SyscallHandler := {|
  handle_ecall := fun i =>
    Ok (InstrIR.new (di_pc i) (di_size i) (OpId.pack (opid i)) (di_raw i) []
          (Terminator.exit (Expr.read REG_A0)))
|}.

(** ** Linux ([linux.rs]) *)

Module syscall_nr.
Definition SYS_GETCWD : Z := 17.
Definition SYS_FCNTL : Z := 25.
Definition SYS_OPENAT : Z := 56.
Definition SYS_CLOSE : Z := 57.
Definition SYS_GETDENTS64 : Z := 61.
Definition SYS_READ : Z := 63.
Definition SYS_WRITE : Z := 64.
Definition SYS_PREAD64 : Z := 67.
Definition SYS_FSTAT : Z := 80.
Definition SYS_EXIT : Z := 93.
Definition SYS_EXIT_GROUP : Z := 94.
Definition SYS_SET_TID_ADDRESS : Z := 96.
Definition SYS_SETPRIORITY : Z := 99.
Definition SYS_SCHED_SETSCHEDULER : Z := 119.
Definition SYS_SCHED_GETSCHEDULER : Z := 120.
Definition SYS_SCHED_GETPARAM : Z := 121.
Definition SYS_SCHED_GET_PRIORITY_MAX : Z := 125.
Definition SYS_SCHED_GET_PRIORITY_MIN : Z := 126.
Definition SYS_TGKILL : Z := 131.
Definition SYS_GETPID : Z := 172.
Definition SYS_GETTID : Z := 178.
Definition SYS_SYSINFO : Z := 179.
Definition SYS_BRK : Z := 214.
Definition SYS_MUNMAP : Z := 215.
Definition SYS_MREMAP : Z := 216.
Definition SYS_MMAP : Z := 222.
Definition SYS_MPROTECT : Z := 226.
Definition SYS_MADVISE : Z := 233.
Definition SYS_RISCV_HWPROBE : Z := 258.
Definition SYS_PRLIMIT64 : Z := 261.
Definition SYS_GETRANDOM : Z := 278.
Definition SYS_RSEQ : Z := 293.
Definition SYS_CLOCK_GETTIME : Z := 113.
Definition SYS_CLOCK_GETTIME64 : Z := 403.
End syscall_nr.
Import syscall_nr.

Definition linux_table (a : SyscallAbi) : SyscallTable :=
  let t := SyscallTable.new a in
  let t := SyscallTable.with_exit t SYS_EXIT in
  let t := SyscallTable.with_exit t SYS_EXIT_GROUP in
  let t := SyscallTable.with_runtime t SYS_WRITE "rv_sys_write" 3 in
  let t := SyscallTable.with_runtime t SYS_READ "rv_sys_read" 3 in
  let t := SyscallTable.with_runtime t SYS_BRK "rv_sys_brk" 1 in
  let t := SyscallTable.with_runtime t SYS_MMAP "rv_sys_mmap" 6 in
  let t := SyscallTable.with_runtime t SYS_FSTAT "rv_sys_fstat" 2 in
  let t := SyscallTable.with_runtime t SYS_GETRANDOM "rv_sys_getrandom" 3 in
  let t := SyscallTable.with_runtime t SYS_CLOCK_GETTIME "rv_sys_clock_gettime" 2 in
  let t := SyscallTable.with_runtime t SYS_CLOCK_GETTIME64 "rv_sys_clock_gettime" 2 in
  let t := SyscallTable.with_return t SYS_RISCV_HWPROBE (-38) in
  let t := SyscallTable.with_return t SYS_RSEQ (-38) in
  let t := SyscallTable.with_return t SYS_SET_TID_ADDRESS 1 in
  let t := SyscallTable.with_return t SYS_GETPID 1 in
  let t := SyscallTable.with_return t SYS_GETTID 1 in
  let t := SyscallTable.with_return t SYS_SCHED_GET_PRIORITY_MAX 99 in
  let t := SyscallTable.with_return t SYS_SCHED_GET_PRIORITY_MIN 1 in
  let t := SyscallTable.with_return t SYS_GETCWD (-1) in
  let t := SyscallTable.with_return t SYS_OPENAT (-1) in
  let t := SyscallTable.with_return t SYS_SYSINFO (-1) in
  let t := SyscallTable.with_return t SYS_MREMAP (-1) in
  let t := SyscallTable.with_return t SYS_FCNTL (-1) in
  let t := SyscallTable.with_return t SYS_CLOSE 0 in
  let t := SyscallTable.with_return t SYS_GETDENTS64 (-1) in
  let t := SyscallTable.with_return t SYS_PREAD64 (-1) in
  let t := SyscallTable.with_return t SYS_SETPRIORITY (-1) in
  let t := SyscallTable.with_return t SYS_SCHED_SETSCHEDULER (-1) in
  let t := SyscallTable.with_return t SYS_SCHED_GETSCHEDULER (-1) in
  let t := SyscallTable.with_return t SYS_SCHED_GETPARAM (-1) in
  let t := SyscallTable.with_return t SYS_TGKILL (-1) in
  let t := SyscallTable.with_return t SYS_MUNMAP 0 in
  let t := SyscallTable.with_return t SYS_MPROTECT 0 in
  let t := SyscallTable.with_return t SYS_MADVISE 0 in
  let t := SyscallTable.with_return t SYS_PRLIMIT64 (-1) in
  t.

Definition LinuxHandler (X : Xlen) (a : SyscallAbi) : SyscallHandler := TableHandler X (linux_table a).
