(* ===== verification/Registry.v ===== *)
(** * The extension registry ([crates/rvr-isa/src/extensions/mod.rs]) *)

From S2P Require Import Base MExt AExt CExt ZicsrExt ZifenceiExt ZbaExt ZbbExt ZbsExt ZbkbExt.
From S2P Require Import ZicondExt.
From S2P Require Import Prelude Xlen IR IRBuild Isa Ext Syscalls.
#[local] Open Scope word_scope.

(** The trait [InstructionOverride]: its [lift] gets the instruction and the
    default lift. *)
Record InstructionOverride := {
  ov_lift : DecodedInstr -> (DecodedInstr -> result InstrIR) -> result InstrIR
}.

(** The extensions in decode order, the overrides by [OpId], and the handler of
    [ECALL]. *)
Record ExtensionRegistry := mkRegistry {
  extensions : list InstructionExtension;
  overrides : gmap OpId InstructionOverride;
  syscall_handler : SyscallHandler
}.

Module ExtensionRegistry.
Section registry.
Context (X : Xlen).

Definition new (l : list InstructionExtension) : ExtensionRegistry :=
  mkRegistry l ∅ BareMetalHandler.
Definition base : ExtensionRegistry :=
  mkRegistry [Base.BaseExtension X] ∅ BareMetalHandler.
Definition empty : ExtensionRegistry := mkRegistry [] ∅ BareMetalHandler.

(** [push] *)
Definition with_extension (r : ExtensionRegistry) (e : InstructionExtension) : ExtensionRegistry :=
  mkRegistry (extensions r ++ [e]) (overrides r) (syscall_handler r).

Definition with_m (r : ExtensionRegistry) := with_extension r (MExt.MExtension X).
Definition with_a (r : ExtensionRegistry) := with_extension r (AExt.AExtension X).
(** [insert(0, ..)] *)
Definition with_c (r : ExtensionRegistry) : ExtensionRegistry :=
  mkRegistry (CExt.CExtension X :: extensions r) (overrides r) (syscall_handler r).
Definition with_zicsr (r : ExtensionRegistry) := with_extension r (ZicsrExt.ZicsrExtension X).
Definition with_zifencei (r : ExtensionRegistry) :=
  with_extension r (ZifenceiExt.ZifenceiExtension X).
Definition with_zba (r : ExtensionRegistry) := with_extension r (ZbaExt.ZbaExtension X).
Definition with_zbb (r : ExtensionRegistry) := with_extension r (ZbbExt.ZbbExtension X).
Definition with_zbs (r : ExtensionRegistry) := with_extension r (ZbsExt.ZbsExtension X).
Definition with_zbkb (r : ExtensionRegistry) := with_extension r (ZbkbExt.ZbkbExtension X).
Definition with_zicond (r : ExtensionRegistry) := with_extension r (ZicondExt.ZicondExtension X).

Definition standard : ExtensionRegistry :=
  with_zicond (with_zbkb (with_zbs (with_zbb (with_zba (with_zifencei (with_zicsr
    (with_a (with_m (with_c base))))))))).

Definition with_override (r : ExtensionRegistry) (o : OpId) (h : InstructionOverride)
    : ExtensionRegistry :=
  mkRegistry (extensions r) (<[o := h]> (overrides r)) (syscall_handler r).
(** [extend]: the new bindings win. *)
Definition with_overrides (r : ExtensionRegistry) (m : gmap OpId InstructionOverride)
    : ExtensionRegistry :=
  mkRegistry (extensions r) (m ∪ overrides r) (syscall_handler r).
Definition with_syscall_handler (r : ExtensionRegistry) (h : SyscallHandler) : ExtensionRegistry :=
  mkRegistry (extensions r) (overrides r) h.
Definition has_overrides (r : ExtensionRegistry) : bool :=
  negb (bool_decide (map_to_list (overrides r) = [])).
End registry.

(** The first extension that accepts the bytes. *)
Fixpoint decode_from (l : list InstructionExtension) (bytes : list Z) (pc : Z) : option DecodedInstr :=
  match l with
  | [] => None
  | e :: l' =>
      match Ext.decode e bytes pc with
      | Some instr => Some instr
      | None => decode_from l' bytes pc
      end
  end.
Definition decode (r : ExtensionRegistry) := decode_from (extensions r).

(** The first extension with the identifier of the instruction. *)
Definition unhandled (i : DecodedInstr) : result InstrIR :=
  Ok (InstrIR.new (di_pc i) (di_size i) (OpId.pack (opid i)) (di_raw i) []
        (Terminator.trap "unhandled extension")).
Fixpoint lift_from (l : list InstructionExtension) (i : DecodedInstr) : result InstrIR :=
  match l with
  | [] => unhandled i
  | e :: l' => if ext_id e =? ext (opid i) then Ext.lift e i else lift_from l' i
  end.
Definition lift_default (r : ExtensionRegistry) (i : DecodedInstr) : result InstrIR :=
  lift_from (extensions r) i.

Definition lift_without_override (r : ExtensionRegistry) (i : DecodedInstr) : result InstrIR :=
  if opid i =ₒ Base.OP_ECALL then handle_ecall (syscall_handler r) i else lift_default r i.

Definition lift (r : ExtensionRegistry) (i : DecodedInstr) : result InstrIR :=
  match overrides r !! opid i with
  | Some handler => ov_lift handler i (lift_without_override r)
  | None => lift_without_override r i
  end.

Fixpoint op_info_from (l : list InstructionExtension) (o : OpId) : option OpInfo :=
  match l with
  | [] => None
  | e :: l' =>
      match Ext.op_info e o with Some info => Some info | None => op_info_from l' o end
  end.
Definition op_info (r : ExtensionRegistry) := op_info_from (extensions r).
End ExtensionRegistry.

(** Mnemonic of a packed identifier. *)
Definition op_mnemonic (packed : Z) : string :=
  let e := if in_ub 8 (shr packed 8) then shr packed 8 else 0 in
  let o := mkOpId e (if in_ub 8 (packed &ᵇ 0xFF) then packed &ᵇ 0xFF else 0) in
  if e =? EXT_I then Base.base_mnemonic o
  else if e =? EXT_M then MExt.m_mnemonic o
  else if e =? EXT_A then AExt.a_mnemonic o
  else if e =? EXT_C then CExt.c_mnemonic o
  else if e =? EXT_ZICSR then ZicsrExt.zicsr_mnemonic o
  else if e =? EXT_ZIFENCEI then "fence.i"%string
  else if e =? EXT_ZBA then default "???"%string (ZbaExt.zba_mnemonic o)
  else if e =? EXT_ZBB then default "???"%string (ZbbExt.zbb_mnemonic o)
  else if e =? EXT_ZBS then default "???"%string (ZbsExt.zbs_mnemonic o)
  else if e =? EXT_ZBKB then default "???"%string (ZbkbExt.zbkb_mnemonic o)
  else if e =? EXT_ZICOND then default "???"%string (ZicondExt.zicond_mnemonic o)
  else "???"%string.
