(* ===== verification/RiscvSpec.v ===== *)
(** * The RISC-V instruction set, as the manual defines it

    A specification that owes nothing to the decoder or the lifter: an
    instruction is a bit pattern of the 32-bit word together with its effect on
    the architectural state, written with arithmetic on the register contents
    (division and multiplication by powers of two, sign extension), the fields
    of the word being plain bit slices.  Only the labels are those of the
    recompiler ([OpId]), so that the two can be compared. *)

From S2P Require Import Prelude Xlen IR IRSem Isa.

(** [raw[hi:lo]] *)
Definition bits (raw hi lo : Z) : Z := wrap (hi - lo + 1) (raw / 2 ^ lo).

Definition f_rd (raw : Z) : Z := bits raw 11 7.
Definition f_rs1 (raw : Z) : Z := bits raw 19 15.
Definition f_rs2 (raw : Z) : Z := bits raw 24 20.

(** Shift amount of [n] bits. *)
Definition f_shamt (n raw : Z) : Z := bits raw (19 + n) 20.

Definition imm_I (raw : Z) : Z := sext 12 (bits raw 31 20).
Definition imm_S (raw : Z) : Z := sext 12 (bits raw 31 25 * 2 ^ 5 + bits raw 11 7).
Definition imm_B (raw : Z) : Z :=
  sext 13 (bits raw 31 31 * 2 ^ 12 + bits raw 7 7 * 2 ^ 11
           + bits raw 30 25 * 2 ^ 5 + bits raw 11 8 * 2 ^ 1).
Definition imm_U (raw : Z) : Z := sext 32 (bits raw 31 12 * 2 ^ 12).
Definition imm_J (raw : Z) : Z :=
  sext 21 (bits raw 31 31 * 2 ^ 20 + bits raw 19 12 * 2 ^ 12
           + bits raw 20 20 * 2 ^ 11 + bits raw 30 21 * 2 ^ 1).

(** An instruction's effect, given the register width, the word, the address of
    the instruction and its length. *)
Definition sem := Xlen -> Z -> Z -> Z -> state -> state * next.

Definition next_seq (X : Xlen) (pc size : Z) : next := NPc (wrap (VALUE X) (pc + size)).

(** ** Register operations on [w]-bit values *)

Definition sll_v (w x y : Z) : Z := wrap w (x * 2 ^ (y mod w)).
Definition srl_v (w x y : Z) : Z := x / 2 ^ (y mod w).
Definition sra_v (w x y : Z) : Z := wrap w (to_signed w x / 2 ^ (y mod w)).
Definition slt_v (w x y : Z) : Z := b2z (to_signed w x <? to_signed w y).
Definition sltu_v (x y : Z) : Z := b2z (x <? y).
(** Word operations: compute on the low 32 bits and sign-extend. *)
Definition addw_v (w x y : Z) : Z := wrap w (sext 32 (x + y)).
Definition subw_v (w x y : Z) : Z := wrap w (sext 32 (x - y)).
Definition sllw_v (w x y : Z) : Z := wrap w (sext 32 (x * 2 ^ (y mod 32))).
Definition srlw_v (w x y : Z) : Z := wrap w (sext 32 (wrap 32 x / 2 ^ (y mod 32))).
Definition sraw_v (w x y : Z) : Z := wrap w (sext 32 x / 2 ^ (y mod 32)).

(** A word operation acts on the low halves and sign-extends its 32-bit result. *)
Definition word_op (f : Z -> Z -> Z -> Z) (w x y : Z) : Z :=
  wrap w (sext 32 (f 32 (wrap 32 x) (wrap 32 y))).

(** ** Effects, in terms of their operands *)

Definition effect := Xlen -> Z -> Z -> state -> state * next.

(** Two source registers; one source register and an operand value. *)
Definition op_rr (f : Z -> Z -> Z -> Z) (rd rs1 rs2 : Z) : effect := fun X pc size st =>
  (set_reg st rd (f (VALUE X) (get_reg st rs1) (get_reg st rs2)), next_seq X pc size).
Definition op_ri (f : Z -> Z -> Z -> Z) (rd rs1 v : Z) : effect := fun X pc size st =>
  (set_reg st rd (f (VALUE X) (get_reg st rs1) v), next_seq X pc size).

Definition op_load (width : Z) (signed : bool) (rd rs1 imm : Z) : effect := fun X pc size st =>
  (set_reg st rd (load X st (get_reg st rs1 + imm) width signed), next_seq X pc size).

(** A store invalidates the hart's reservation (the manual lets it). *)
Definition op_store (width rs1 rs2 imm : Z) : effect := fun X pc size st =>
  (with_res_valid (store X st (get_reg st rs1 + imm) width (get_reg st rs2)) 0,
   next_seq X pc size).

Definition op_branch (taken : Z -> Z -> Z -> bool) (rs1 rs2 imm : Z) : effect := fun X pc size st =>
  (st, if taken (VALUE X) (get_reg st rs1) (get_reg st rs2)
       then NPc (wrap (VALUE X) (pc + imm)) else next_seq X pc size).

Definition op_lui (rd imm : Z) : effect := fun X pc size st =>
  (set_reg st rd (wrap (VALUE X) imm), next_seq X pc size).
Definition op_jal (rd imm : Z) : effect := fun X pc size st =>
  (set_reg st rd (wrap (VALUE X) (pc + size)), NPc (wrap (VALUE X) (pc + imm))).

(** ** Instruction shapes *)

Definition r_type (f : Z -> Z -> Z -> Z) : sem := fun X raw =>
  op_rr f (f_rd raw) (f_rs1 raw) (f_rs2 raw) X.

(** The immediate operand is the register-width sign extension of [imm_I]. *)
Definition i_type (f : Z -> Z -> Z -> Z) : sem := fun X raw =>
  op_ri f (f_rd raw) (f_rs1 raw) (wrap (VALUE X) (imm_I raw)) X.

(** Shift by an immediate of [n] bits. *)
Definition shift_type (n : Z) (f : Z -> Z -> Z -> Z) : sem := fun X raw =>
  op_ri f (f_rd raw) (f_rs1 raw) (f_shamt n raw) X.

(** One source register. *)
Definition unary_type (f : Z -> Z -> Z) : sem := fun X raw pc size st =>
  (set_reg st (f_rd raw) (f (VALUE X) (get_reg st (f_rs1 raw))), next_seq X pc size).

Definition load_type (width : Z) (signed : bool) : sem := fun X raw =>
  op_load width signed (f_rd raw) (f_rs1 raw) (imm_I raw) X.
Definition store_type (width : Z) : sem := fun X raw =>
  op_store width (f_rs1 raw) (f_rs2 raw) (imm_S raw) X.
Definition branch_type (taken : Z -> Z -> Z -> bool) : sem := fun X raw =>
  op_branch taken (f_rs1 raw) (f_rs2 raw) (imm_B raw) X.

Definition lui : sem := fun X raw => op_lui (f_rd raw) (imm_U raw) X.
Definition auipc : sem := fun X raw pc size st =>
  (set_reg st (f_rd raw) (wrap (VALUE X) (pc + imm_U raw)), next_seq X pc size).
Definition jal : sem := fun X raw => op_jal (f_rd raw) (imm_J raw) X.
(** The target is computed from the old value of [rs1], with bit 0 cleared. *)
Definition jalr : sem := fun X raw pc size st =>
  let t := wrap (VALUE X) (get_reg st (f_rs1 raw) + imm_I raw) in
  (set_reg st (f_rd raw) (wrap (VALUE X) (pc + size)), NPc (t - t mod 2)).

Definition nop_sem : sem := fun X raw pc size st => (st, next_seq X pc size).
(** An environment call raises an exception; the execution environment ends the
    program on a breakpoint. *)
Definition ecall_sem : sem := fun X raw pc size st => (st, NTrap).
Definition ebreak_sem : sem := fun X raw pc size st => (st, NExit 0).

(** [mret] returns to the address in [mepc]. *)
Definition CSR_MEPC : Z := 0x341.
Definition mret_sem : sem := fun X raw pc size st => (st, NPc (s_csrs st CSR_MEPC)).

(** ** Operand formats *)

Definition fmt_R (raw : Z) : InstrArgs := A_R (f_rd raw) (f_rs1 raw) (f_rs2 raw).
Definition fmt_I (raw : Z) : InstrArgs := A_I (f_rd raw) (f_rs1 raw) (imm_I raw).
Definition fmt_S (raw : Z) : InstrArgs := A_S (f_rs1 raw) (f_rs2 raw) (imm_S raw).
Definition fmt_B (raw : Z) : InstrArgs := A_B (f_rs1 raw) (f_rs2 raw) (imm_B raw).
Definition fmt_U (raw : Z) : InstrArgs := A_U (f_rd raw) (imm_U raw).
Definition fmt_J (raw : Z) : InstrArgs := A_J (f_rd raw) (imm_J raw).
Definition fmt_shift (n : Z) (raw : Z) : InstrArgs :=
  A_I (f_rd raw) (f_rs1 raw) (f_shamt n raw).
Definition fmt_unary (raw : Z) : InstrArgs := A_I (f_rd raw) (f_rs1 raw) 0.
Definition fmt_none (raw : Z) : InstrArgs := A_None.

(** ** Encodings *)

(** [p_hi = Some (lo, v)] requires [raw[31:lo] = v]. *)
Record pattern := mkPat { p_opcode : Z; p_funct3 : option Z; p_hi : option (Z * Z) }.

Definition slices_match (p : pattern) (b : Z -> Z -> Z) : bool :=
  (b 6 0 =? p_opcode p)
  && match p_funct3 p with None => true | Some f => b 14 12 =? f end
  && match p_hi p with None => true | Some (lo, v) => b 31 lo =? v end.

Definition matches (p : pattern) (raw : Z) : bool := slices_match p (bits raw).

Record isa_entry := mkEntry {
  i_opid : OpId; i_avail : Xlen -> bool; i_pat : pattern; i_args : Z -> InstrArgs; i_sem : sem
}.

Definition any : Xlen -> bool := fun _ => true.
Definition rv32 (X : Xlen) : bool := match X with Rv32 => true | Rv64 => false end.
Definition rv64 (X : Xlen) : bool := match X with Rv32 => false | Rv64 => true end.

Definition lookup_isa (X : Xlen) (l : list isa_entry) (raw : Z) : option isa_entry :=
  find (fun e => i_avail e X && matches (i_pat e) raw) l.

Definition opc (o f3 : Z) : pattern := mkPat o (Some f3) None.
Definition opf7 (o f3 f7 : Z) : pattern := mkPat o (Some f3) (Some (25, f7)).
Definition opf6 (o f3 f6 : Z) : pattern := mkPat o (Some f3) (Some (26, f6)).
Definition opf5 (o f3 f5 : Z) : pattern := mkPat o (Some f3) (Some (27, f5)).
Definition opf12 (o f3 f12 : Z) : pattern := mkPat o (Some f3) (Some (20, f12)).

(** What decoding a 32-bit word at [pc] yields for an entry of the table. *)
Definition decoded_of (pc raw : Z) (e : isa_entry) : DecodedInstr :=
  mkDecoded (i_opid e) pc 4 raw (i_args e raw).
