(* ===== verification/Fields.v ===== *)
(** * Fields of an instruction word

    The shift-and-mask extraction of [encode.rs] computes the bit slices of the
    specification, and its immediates are the sign-extended slices the manual
    draws. *)

From S2P Require Import Prelude Xlen IR IRSem IRFacts Isa RiscvSpec.
#[local] Open Scope word_scope.

Lemma bits_range raw hi lo : lo <= hi -> 0 <= bits raw hi lo < 2 ^ (hi - lo + 1).
Proof. intros. apply wrap_range. lia. Qed.

Lemma bits_bound raw hi lo m : lo <= hi -> 2 ^ (hi - lo + 1) <= m -> 0 <= bits raw hi lo < m.
Proof. intros. pose proof (bits_range raw hi lo). lia. Qed.

Lemma land_bits raw lo n : 0 <= lo -> 0 < n -> shr raw lo &ᵇ Z.ones n = bits raw (lo + n - 1) lo.
Proof.
  intros. unfold shr, bits. rewrite Z.shiftr_div_pow2, Z.land_ones by lia.
  unfold wrap. do 2 f_equal. lia.
Qed.

Lemma land_bits_8 raw lo n :
  0 <= lo -> 0 < n <= 8 -> wrap 8 (shr raw lo &ᵇ Z.ones n) = bits raw (lo + n - 1) lo.
Proof.
  intros. rewrite land_bits by lia. apply wrap_id. apply (in_u_le n); [lia|].
  replace n with (lo + n - 1 - lo + 1) at 1 by lia. apply wrap_range. lia.
Qed.

Lemma decode_rd_bits raw : decode_rd raw = f_rd raw.
Proof. apply (land_bits_8 raw 7 5); lia. Qed.
Lemma decode_rs1_bits raw : decode_rs1 raw = f_rs1 raw.
Proof. apply (land_bits_8 raw 15 5); lia. Qed.
Lemma decode_rs2_bits raw : decode_rs2 raw = f_rs2 raw.
Proof. apply (land_bits_8 raw 20 5); lia. Qed.
Lemma decode_funct3_bits raw : decode_funct3 raw = bits raw 14 12.
Proof. apply (land_bits_8 raw 12 3); lia. Qed.
Lemma decode_funct7_bits raw : decode_funct7 raw = bits raw 31 25.
Proof. apply (land_bits_8 raw 25 7); lia. Qed.
Lemma decode_opcode_bits raw : decode_opcode raw = bits raw 6 0.
Proof.
  unfold decode_opcode. rewrite <- (Z.shiftr_0_r raw) at 1. apply (land_bits_8 raw 0 7); lia.
Qed.

(** Masks the extensions write out. *)
Lemma mask_opcode raw : raw &ᵇ 0x7F = bits raw 6 0.
Proof. rewrite <- (Z.shiftr_0_r raw) at 1. apply (land_bits raw 0 7); lia. Qed.
Lemma mask_funct6 raw : shr raw 26 &ᵇ 0x3F = bits raw 31 26.
Proof. apply (land_bits raw 26 6); lia. Qed.
Lemma mask_funct5 raw : shr raw 27 &ᵇ 0x1F = bits raw 31 27.
Proof. apply (land_bits raw 27 5); lia. Qed.
Lemma mask_imm12 raw : shr raw 20 &ᵇ 0xFFF = bits raw 31 20.
Proof. apply (land_bits raw 20 12); lia. Qed.
Lemma mask_bit25 raw : shr raw 25 &ᵇ 1 = bits raw 25 25.
Proof. apply (land_bits raw 25 1); lia. Qed.
Lemma mask_bit26 raw : shr raw 26 &ᵇ 1 = bits raw 26 26.
Proof. apply (land_bits raw 26 1); lia. Qed.

#[export] Hint Rewrite mask_opcode mask_funct6 mask_funct5 mask_imm12 mask_bit25 mask_bit26 : fields.
#[export] Hint Rewrite decode_rd_bits decode_rs1_bits decode_rs2_bits
  decode_funct3_bits decode_funct7_bits decode_opcode_bits : fields.

(** ** Disjoint bit fields add up *)

Lemma lor_disjoint n a b : 0 <= n -> a mod 2 ^ n = 0 -> 0 <= b < 2 ^ n -> Z.lor a b = a + b.
Proof.
  intros Hn Ha Hb. assert (Z.land a b = 0) as E.
  { apply Z.bits_inj'. intros i Hi. rewrite Z.land_spec, Z.bits_0.
    destruct (Z.ltb_spec i n).
    - rewrite <- (Z.mod_pow2_bits_low a n) by lia. by rewrite Ha, Z.bits_0.
    - rewrite (testbit_high n b) by done. by rewrite andb_false_r. }
  rewrite <- Z.lxor_lor by done. symmetry. by apply Z.add_nocarry_lxor.
Qed.

Lemma mod_mul_pow2 k n m : 0 <= m <= n -> (k * 2 ^ n) mod 2 ^ m = 0.
Proof.
  intros. apply Z.mod_divide; [pose proof (pow2_pos m); lia|].
  replace n with (m + (n - m)) by lia. rewrite Z.pow_add_r by lia.
  exists (k * 2 ^ (n - m)). ring.
Qed.

Lemma mod_add_0 m a b : a mod 2 ^ m = 0 -> b mod 2 ^ m = 0 -> (a + b) mod 2 ^ m = 0.
Proof. intros Ha Hb. by rewrite Zplus_mod, Ha, Hb. Qed.

Lemma shl_u_mul w x n : 0 <= n -> 0 <= x -> x * 2 ^ n < 2 ^ w -> shl_u w x n = x * 2 ^ n.
Proof.
  intros. unfold shl_u. rewrite Z.shiftl_mul_pow2 by done. apply wrap_id.
  split; [|done]. pose proof (pow2_pos n). nia.
Qed.

(** [(imm << (32 - k)) >> (32 - k)] on [i32] sign-extends the low [k] bits. *)
Lemma sext_mul_pow2 k n x : 0 < k -> 0 <= n -> sext (k + n) (x * 2 ^ n) = sext k x * 2 ^ n.
Proof.
  intros Hk Hn. unfold sext, to_signed, wrap.
  rewrite (Z.add_comm k n), Z.pow_add_r, Z.mul_comm, Zmult_mod_distr_l by lia.
  replace (n + k - 1) with (n + (k - 1)) by lia. rewrite Z.pow_add_r by lia.
  pose proof (pow2_pos n). 
  destruct (Z.ltb_spec (x mod 2 ^ k) (2 ^ (k - 1))); case_match eqn:E;
    rewrite ?Z.ltb_lt, ?Z.ltb_ge in E; nia.
Qed.

Lemma shl_shr_sext w k x :
  0 < k <= w -> shr (shl_i w x (w - k)) (w - k) = sext k x.
Proof.
  intros. unfold shr, shl_i. rewrite Z.shiftl_mul_pow2, Z.shiftr_div_pow2 by lia.
  replace w with (k + (w - k)) at 1 by lia. rewrite sext_mul_pow2 by lia.
  apply Z.div_mul. pose proof (pow2_pos (w - k)). lia.
Qed.

Lemma sext_to_signed k w x : 0 < k <= w -> in_u w x -> sext k (to_signed w x) = sext k x.
Proof.
  intros Hk Hx. unfold sext. f_equal. rewrite <- (wrap_wrap_le k w (to_signed w x)) by lia.
  by rewrite wrap_to_signed.
Qed.

(** ** Immediates *)

Lemma decode_i_imm_spec raw : in_u 32 raw -> decode_i_imm raw = imm_I raw.
Proof.
  intros [H1 H2]. unfold decode_i_imm, imm_I, shr, bits. rewrite Z.shiftr_div_pow2 by lia.
  unfold sext. rewrite wrap_wrap. unfold to_signed, wrap.
  rewrite (Z.mod_small (raw / 2 ^ 20)).
  2: { split; [apply Z.div_pos; lia|]. apply Z.div_lt_upper_bound; lia. }
  change (2 ^ (32 - 1)) with (2 ^ 11 * 2 ^ 20). change (2 ^ 32) with (2 ^ 12 * 2 ^ 20).
  destruct (Z.ltb_spec raw (2 ^ 11 * 2 ^ 20)); destruct (Z.ltb_spec (raw / 2 ^ 20) (2 ^ (12 - 1)));
    try (Z.div_mod_to_equations; lia).
Qed.

Lemma to_signed_small w x : 0 <= x < 2 ^ (w - 1) -> to_signed w x = x.
Proof. intros. unfold to_signed. case_match eqn:E; [done|]. apply Z.ltb_ge in E. lia. Qed.

(** [field raw lo n] rewrites a shift-and-mask of the goal to a slice and records its range. *)
Ltac field raw lo n :=
  let m := eval cbv in (Z.ones n) in
  let h := eval cbv in (lo + n - 1) in
  let b := eval cbv in (2 ^ n) in
  change (shr raw lo &ᵇ m) with (shr raw lo &ᵇ Z.ones n);
  replace (shr raw lo &ᵇ Z.ones n) with (bits raw h lo)
    by (symmetry; apply (land_bits raw lo n); lia);
  assert (0 <= bits raw h lo < b) by (apply (bits_range raw h lo); lia).

(** [join n] turns the disjunction of two disjoint fields split at bit [n] into a sum. *)
Ltac join n :=
  match goal with
  | |- context [Z.lor ?a ?b] =>
      lazymatch a with context [Z.lor _ _] => fail | _ => idtac end;
      rewrite (lor_disjoint n a b);
        [| lia | repeat apply mod_add_0; (apply mod_mul_pow2; lia) | lia]
  end.

Lemma decode_s_imm_spec raw : decode_s_imm raw = imm_S raw.
Proof.
  unfold decode_s_imm, imm_S. field raw 25 7. field raw 7 5.
  rewrite shl_u_mul by lia. join 5.
  rewrite to_signed_small by lia. apply (shl_shr_sext 32 12). lia.
Qed.

Lemma decode_b_imm_spec raw : decode_b_imm raw = imm_B raw.
Proof.
  unfold decode_b_imm, imm_B. field raw 31 1. field raw 7 1. field raw 25 6. field raw 8 4.
  rewrite !shl_u_mul by lia. join 12. join 11. join 5.
  rewrite to_signed_small by lia. apply (shl_shr_sext 32 13). lia.
Qed.

Lemma decode_j_imm_spec raw : decode_j_imm raw = imm_J raw.
Proof.
  unfold decode_j_imm, imm_J. field raw 31 1. field raw 12 8. field raw 20 1. field raw 21 10.
  rewrite !shl_u_mul by lia. join 20. join 12. join 11.
  rewrite to_signed_small by lia. apply (shl_shr_sext 32 21). lia.
Qed.

Lemma decode_u_imm_spec raw : in_u 32 raw -> decode_u_imm raw = imm_U raw.
Proof.
  intros [H1 H2]. unfold decode_u_imm, imm_U, sext. f_equal.
  assert (bits raw 31 12 = raw / 2 ^ 12) as E.
  { apply wrap_id. split; [apply Z.div_pos; lia|]. apply Z.div_lt_upper_bound; lia. }
  rewrite E, wrap_id.
  2: { split; [apply Z.mul_nonneg_nonneg; [apply Z.div_pos; lia | done]|].
       pose proof (Z.mul_div_le raw (2 ^ 12)). lia. }
  change 0xFFFFF000 with (Z.shiftl (Z.ones 20) 12).
  rewrite <- Z.shiftl_mul_pow2, <- Z.shiftr_div_pow2 by lia.
  apply Z.bits_inj'. intros i Hi. rewrite Z.land_spec, !Z.shiftl_spec by lia.
  destruct (Z.ltb_spec i 12).
  - rewrite !(Z.testbit_neg_r _ (i - 12)) by lia. by rewrite andb_false_r.
  - rewrite Z.shiftr_spec by lia. replace (i - 12 + 12) with i by lia.
    destruct (Z.ltb_spec i 32).
    + rewrite Z.ones_spec_low by lia. by rewrite andb_true_r.
    + rewrite (testbit_high 32 raw) by (done || lia). done.
Qed.

(** Immediates fit their widths. *)
Lemma imm_I_range raw : - 2 ^ 11 <= imm_I raw < 2 ^ 11.
Proof. apply (sext_range 12). lia. Qed.
Lemma imm_S_range raw : - 2 ^ 11 <= imm_S raw < 2 ^ 11.
Proof. apply (sext_range 12). lia. Qed.
Lemma imm_B_range raw : - 2 ^ 12 <= imm_B raw < 2 ^ 12.
Proof. apply (sext_range 13). lia. Qed.
Lemma imm_J_range raw : - 2 ^ 20 <= imm_J raw < 2 ^ 20.
Proof. apply (sext_range 21). lia. Qed.
Lemma imm_U_range raw : - 2 ^ 31 <= imm_U raw < 2 ^ 31.
Proof. apply (sext_range 32). lia. Qed.
