(* ===== verification/TableDecode.v ===== *)
(** * Decoding against an encoding table

    Lemmas and tactics that compare a decoder, written as nested tests of the
    fields of the word, with the lookup of the word in a table of encodings. *)

From S2P Require Import Prelude Xlen IR IRSem IRFacts Isa RiscvSpec Fields.
#[local] Open Scope word_scope.

Lemma bits_31_26 raw : bits raw 31 26 = bits raw 31 25 / 2.
Proof.
  unfold bits, wrap. change (2 ^ 26) with (2 ^ 25 * 2). cbn -[Z.pow Z.div Z.modulo].
  rewrite <- Z.div_div by lia. generalize (raw / 2 ^ 25). intros. Z.div_mod_to_equations. lia.
Qed.

Lemma bits_25_25 raw : bits raw 25 25 = bits raw 31 25 mod 2.
Proof.
  unfold bits, wrap. cbn -[Z.pow Z.div Z.modulo].
  generalize (raw / 2 ^ 25). intros. Z.div_mod_to_equations. lia.
Qed.

(** The twelve high bits determine [funct7] and the [rs2] field. *)
Lemma bits_31_25_high raw : bits raw 31 25 = bits raw 31 20 / 32.
Proof.
  unfold bits, wrap. change (2 ^ 25) with (2 ^ 20 * 2 ^ 5). cbn -[Z.pow Z.div Z.modulo].
  rewrite <- (Z.div_div _ (2 ^ 20)) by lia.
  generalize (raw / 2 ^ 20). intros. Z.div_mod_to_equations. lia.
Qed.

Lemma bits_24_20_high raw : bits raw 24 20 = bits raw 31 20 mod 32.
Proof.
  unfold bits, wrap. cbn -[Z.pow Z.div Z.modulo].
  generalize (raw / 2 ^ 20). intros. Z.div_mod_to_equations. lia.
Qed.

Lemma shamt_6_5 raw : bits raw 25 25 = 0 -> f_shamt 6 raw = f_shamt 5 raw.
Proof.
  unfold f_shamt, bits, wrap. change (2 ^ 25) with (2 ^ 20 * 2 ^ 5). cbn -[Z.pow Z.div Z.modulo].
  rewrite <- (Z.div_div _ (2 ^ 20)) by lia.
  generalize (raw / 2 ^ 20). intros. Z.div_mod_to_equations. lia.
Qed.

Lemma decode_shamt n raw :
  0 < n <= 6 -> to_signed 32 (shr raw 20 &ᵇ Z.ones n) = f_shamt n raw.
Proof.
  intros. rewrite land_bits by lia. unfold f_shamt. replace (20 + n - 1) with (19 + n) by lia.
  apply to_signed_small. apply bits_bound; [lia|]. apply Z.pow_le_mono_r; lia.
Qed.

Lemma raw_split raw : in_u 32 raw -> raw = bits raw 31 7 * 2 ^ 7 + bits raw 6 0.
Proof.
  intros [H1 H2]. unfold bits. rewrite wrap_id.
  2: { split; [apply Z.div_pos; lia|]. apply Z.div_lt_upper_bound; lia. }
  change (2 ^ 0) with 1. rewrite Z.div_1_r. unfold wrap. cbn -[Z.pow Z.div Z.modulo].
  Z.div_mod_to_equations. lia.
Qed.

(** A statement about the 128 values of a [funct7] is checked by evaluation. *)
Lemma forall_range (P : Z -> bool) (n : nat) :
  forallb (fun k => P (Z.of_nat k)) (seq 0 n) = true ->
  forall x, 0 <= x < Z.of_nat n -> P x = true.
Proof.
  intros H x Hx. rewrite forallb_forall in H. rewrite <- (Z2Nat.id x) by lia.
  apply H, in_seq. lia.
Qed.

Lemma land_FE f : 0 <= f < 128 -> f &ᵇ 0xFE = 2 * (f / 2).
Proof.
  intros. apply Z.eqb_eq, (forall_range (fun f => f &ᵇ 0xFE =? 2 * (f / 2)) 128); [|done].
  vm_compute. done.
Qed.

(** What the table yields for a word. *)
Definition table_decode (X : Xlen) (l : list isa_entry) (raw pc : Z) : option DecodedInstr :=
  decoded_of pc raw <$> lookup_isa X l raw.

(** ** One opcode at a time *)

Definition at_opcode (X : Xlen) (l : list isa_entry) (o : Z) : list isa_entry :=
  List.filter (fun e => i_avail e X && (p_opcode (i_pat e) =? o)) l.

Lemma lookup_at_opcode X l raw :
  lookup_isa X l raw
  = find (fun e => slices_match (i_pat e) (bits raw)) (at_opcode X l (bits raw 6 0)).
Proof.
  unfold lookup_isa, at_opcode, matches. induction l as [|e l IH]; simpl; [done|].
  rewrite IH. unfold slices_match at 1. rewrite (Z.eqb_sym (bits raw 6 0)).
  destruct (i_avail e X); simpl; [|done].
  destruct (Z.eqb_spec (p_opcode (i_pat e)) (bits raw 6 0)) as [E|E]; simpl; [|done].
  unfold slices_match at 2. by rewrite E, Z.eqb_refl.
Qed.

Lemma at_opcode_nil X l o :
  existsb (fun e => p_opcode (i_pat e) =? o) l = false -> at_opcode X l o = [].
Proof.
  unfold at_opcode. induction l as [|e l IH]; simpl; [done|].
  intros [E ?]%orb_false_iff. rewrite E, andb_false_r. by apply IH.
Qed.

(** [case_slice hi lo] splits on the comparisons of the slice [hi:lo] with constants,
    and evaluates the comparisons this decides. *)
Ltac case_slice hi lo :=
  repeat match goal with
  | |- context [?b hi lo =? ?c] =>
      let E := fresh "E" in
      destruct (Z.eqb_spec (b hi lo) c) as [E|E];
      [rewrite ?E; cbn [Z.eqb Pos.eqb andb orb negb] | cbn [andb orb negb]; rewrite ?andb_false_r]
  end.

(** Evaluate the part of a table that belongs to one opcode. *)
Ltac eval_table :=
  match goal with |- context [at_opcode ?X ?l ?o] =>
    let t := constr:(at_opcode X l o) in
    let v := eval cbn in t in
    change t with v
  end;
  unfold slices_match, opc, opf7, opf6, opf5, opf12;
  try match goal with E : ?b 6 0 = _ |- context [?b 6 0] => rewrite E in * end;
  cbn [find i_pat p_opcode p_funct3 p_hi Z.eqb Pos.eqb andb].


(** No entry has the opcode of the word, and the decoder refuses it. *)
Ltac default_opcode :=
  rewrite at_opcode_nil;
    [rewrite ?andb_false_r; try done; repeat case_match; done
    | lazymatch goal with |- existsb _ ?l = _ => unfold l end;
      cbn [existsb i_pat p_opcode opc opf5 opf6 opf7 opf12];
      repeat (apply orb_false_iff; split; [apply Z.eqb_neq; congruence|]); done].
