(* ===== verification/LiftFacts.v ===== *)
(** * Lifted code refines an instruction's semantics

    [denotes X e f]: the well-formed expression [e] evaluates to [f st] in every
    well-formed state.  [refines X l pc size f]: a lifter that yields [l] does not
    panic, yields well-formed IR, and executing it has the effect [f], up to the
    scratch temporaries.  The factories of the IR get one [denotes] lemma each. *)

From S2P Require Import Prelude Xlen IR IRBuild IRSem IRFacts Isa Ext RiscvSpec.

Definition denotes (X : Xlen) (e : Expr) (f : state -> Z) : Prop :=
  wf_expr X e = true /\
  forall vars st, wf_state X st -> eval vars X st e = Some (f st).

(** The architectural part of a state: everything but the temporaries. *)
Definition arch (st : state) : state := with_temps st (fun _ => 0).

Definition refines (X : Xlen) (l : result (list Stmt * Terminator)) (pc size : Z)
    (f : state -> state * next) : Prop :=
  exists ss t, l = Ok (ss, t) /\ forallb (wf_stmt X) ss = true /\ wf_term X t = true /\
  forall vars extern st op raw, wf_state X st -> s_exited st = 0 ->
    exists st', exec_instr vars extern X st (InstrIR.new pc size op raw ss t) = Some (st', (f st).2)
                /\ arch st' = arch (f st).1.

Create HintDb denotes discriminated.

Lemma denotes_range X e f st : denotes X e f -> wf_state X st -> in_reg X (f st).
Proof.
  intros [Hwf He] Hst. apply (eval_in_reg (fun _ => 0) X st Hst e); [done|]. by apply He.
Qed.

Lemma denotes_ext X e f g :
  denotes X e f -> (forall st, wf_state X st -> f st = g st) -> denotes X e g.
Proof. intros [Hwf He] E. split; [done|]. intros. rewrite <- E by done. by apply He. Qed.

Lemma refines_ext X l pc size f g :
  refines X l pc size f -> (forall st, wf_state X st -> f st = g st) -> refines X l pc size g.
Proof.
  intros (ss & t & -> & Hs & Ht & H) E. exists ss, t. split_and!; [done..|].
  intros vars extern st op raw Hst He. rewrite <- (E st Hst). by apply H.
Qed.

(** ** Leaves *)

Lemma denotes_imm X v : in_reg X v -> denotes X (Expr.imm v) (fun _ => v).
Proof. intros. split; [by apply in_ub_spec | done]. Qed.

Lemma denotes_read X r : in_u 5 r -> denotes X (Expr.read r) (fun st => get_reg st r).
Proof. intros. split; [by apply in_ub_spec | done]. Qed.

Lemma denotes_temp X t : denotes X (Expr.temp t) (fun st => s_temps st t).
Proof. done. Qed.

Lemma denotes_csr X c : in_u 12 c -> denotes X (Expr.csr c) (fun st => s_csrs st c).
Proof. intros. split; [by apply in_ub_spec | done]. Qed.

Lemma denotes_res_addr X : denotes X Expr.res_addr s_res_addr.
Proof. done. Qed.
Lemma denotes_res_valid X : denotes X Expr.res_valid s_res_valid.
Proof. done. Qed.
Lemma denotes_instret X : denotes X Expr.instret s_instret.
Proof. done. Qed.
Lemma denotes_cycle X : denotes X Expr.cycle s_cycle.
Proof. done. Qed.

(** An immediate narrowed from 64 bits. *)
Lemma denotes_from_u64 X v :
  denotes X (Expr.imm (from_u64 X (wrap 64 v))) (fun _ => wrap (VALUE X) v).
Proof. rewrite from_u64_wrap64. apply denotes_imm, in_reg_wrap. Qed.

Lemma denotes_small X v : in_u 32 v -> denotes X (Expr.imm (from_u64 X v)) (fun _ => v).
Proof.
  intros H. assert (in_reg X v) by (by apply (in_reg_small X 32)).
  rewrite from_u64_id by done. by apply denotes_imm.
Qed.

(** ** Operators *)

Lemma denotes_unary X op e f :
  denotes X e f -> denotes X (Unary op e) (fun st => eval_unary X op (f st)).
Proof. intros [Hwf He]. split; [done|]. intros. cbn. by rewrite He. Qed.

Lemma denotes_binary X op l r f g h :
  denotes X l f -> denotes X r g ->
  (forall st, wf_state X st -> in_reg X (f st) -> in_reg X (g st) ->
     eval_binary X op (f st) (g st) = Some (h st)) ->
  denotes X (Binary op l r) h.
Proof.
  intros Hl Hr Hop. split; [cbn; by rewrite (proj1 Hl), (proj1 Hr)|].
  intros vars st Hst. cbn -[eval_binary].
  rewrite (proj2 Hl), (proj2 Hr) by done. apply Hop; [done|..]; by eapply denotes_range.
Qed.

Lemma denotes_select X c t e fc ft fe :
  denotes X c fc -> denotes X t ft -> denotes X e fe ->
  denotes X (Expr.select c t e) (fun st => if fc st =? 0 then fe st else ft st).
Proof.
  intros [Wc Hc] [Wt Ht] [We He]. split; [cbn; by rewrite Wc, Wt, We|].
  intros. cbn. rewrite Hc by done. cbn. case_match; auto.
Qed.

Lemma eval_mem vars X st b o w s :
  eval vars X st (Expr.mem b o w s) = (x ← eval vars X st b; Some (load X st (x + o) w s)).
Proof. done. Qed.
Lemma eval_mem_addr vars X st a w s :
  eval vars X st (Expr.mem_addr a w s) = (x ← eval vars X st a; Some (load X st x w s)).
Proof. done. Qed.

Lemma denotes_mem X b o w s f :
  denotes X b f -> in_i 16 o -> w ∈ [1; 2; 4; 8] ->
  denotes X (Expr.mem b o w s) (fun st => load X st (f st + o) w s).
Proof.
  intros [Wb Hb] Ho Hw. split.
  - cbn. rewrite Wb, (bool_decide_eq_true_2 _ Hw). cbn. rewrite andb_true_r. by apply in_ib_spec.
  - intros. by rewrite eval_mem, Hb.
Qed.

Lemma denotes_mem_addr X a w s f :
  denotes X a f -> w ∈ [1; 2; 4; 8] ->
  denotes X (Expr.mem_addr a w s) (fun st => load X st (f st) w s).
Proof.
  intros [Wa Ha] Hw. split.
  - cbn. by rewrite Wa, (bool_decide_eq_true_2 _ Hw).
  - intros. by rewrite eval_mem_addr, Ha.
Qed.

(** ** Factories that simplify

    Their meaning is that of the plain operator ([IRFacts]); what is left is that
    they yield well-formed expressions. *)

Lemma in_reg_from_u64 X v : in_ub (VALUE X) (from_u64 X (wrap 64 v)) = true.
Proof. rewrite from_u64_wrap64. apply in_ub_spec, in_reg_wrap. Qed.

Lemma denotes_simplified X op e l r f g h :
  (wf_expr X l = true -> wf_expr X r = true -> wf_expr X e = true) ->
  (forall vars st, wf_state X st -> wf_expr X l = true -> wf_expr X r = true ->
     eval vars X st e = eval vars X st (Binary op l r)) ->
  denotes X l f -> denotes X r g ->
  (forall st, wf_state X st -> in_reg X (f st) -> in_reg X (g st) ->
     eval_binary X op (f st) (g st) = Some (h st)) ->
  denotes X e h.
Proof.
  intros Hwf He Hl Hr Hop. pose proof (denotes_binary X op l r f g h Hl Hr Hop) as [_ H].
  split; [apply Hwf; [apply Hl | apply Hr]|].
  intros. rewrite He; [by apply H | done | apply Hl | apply Hr].
Qed.

Ltac wf_cases :=
  repeat case_match; subst; cbn in *; rewrite ?andb_true_iff in *; try done; auto.

Section factories.
Context (X : Xlen) (l r : Expr) (f g : state -> Z).
Hypotheses (Hl : denotes X l f) (Hr : denotes X r g).
Abbreviation w := (VALUE X).

Lemma in_reg_fold_land u v :
  in_ub w u = true -> in_ub w v = true -> in_ub w (from_u64 X (Z.land u v)) = true.
Proof.
  rewrite !in_ub_spec. intros Hu Hv.
  assert (in_reg X (Z.land u v)).
  { apply bound_land; [apply Z.lt_le_incl, VALUE_pos | done | apply Hv]. }
  by rewrite from_u64_id.
Qed.

Lemma in_reg_fold_lor u v :
  in_ub w u = true -> in_ub w v = true -> in_ub w (from_u64 X (Z.lor u v)) = true.
Proof.
  rewrite !in_ub_spec. intros Hu Hv.
  assert (in_reg X (Z.lor u v)) by (apply bound_lor; [apply Z.lt_le_incl, VALUE_pos |..]; done).
  by rewrite from_u64_id.
Qed.

Lemma in_reg_fold_lxor u v :
  in_ub w u = true -> in_ub w v = true -> in_ub w (from_u64 X (Z.lxor u v)) = true.
Proof.
  rewrite !in_ub_spec. intros Hu Hv.
  assert (in_reg X (Z.lxor u v)) by (apply bound_lxor; [apply Z.lt_le_incl, VALUE_pos |..]; done).
  by rewrite from_u64_id.
Qed.
#[local] Hint Resolve in_reg_fold_land in_reg_fold_lor in_reg_fold_lxor in_reg_from_u64 : core.

Lemma denotes_add : denotes X (Expr.add X l r) (fun st => wrap w (f st + g st)).
Proof.
  apply (denotes_simplified X Add _ l r f g); [|by intros; apply eval_add|done..].
  intros. unfold Expr.add. wf_cases.
Qed.

Lemma denotes_sub : denotes X (Expr.sub X l r) (fun st => wrap w (f st - g st)).
Proof.
  apply (denotes_simplified X Sub _ l r f g); [|by intros; apply eval_sub|done..].
  intros. unfold Expr.sub. wf_cases.
Qed.

Lemma denotes_and : denotes X (Expr.and X l r) (fun st => Z.land (f st) (g st)).
Proof.
  apply (denotes_simplified X And _ l r f g); [|by intros; apply eval_and|done..].
  intros. unfold Expr.and. wf_cases.
Qed.

Lemma denotes_or : denotes X (Expr.or X l r) (fun st => Z.lor (f st) (g st)).
Proof.
  apply (denotes_simplified X Or _ l r f g); [|by intros; apply eval_or|done..].
  intros. unfold Expr.or. wf_cases.
Qed.

Lemma denotes_xor : denotes X (Expr.xor X l r) (fun st => Z.lxor (f st) (g st)).
Proof.
  apply (denotes_simplified X Xor _ l r f g); [|by intros; apply eval_xor|done..].
  intros. unfold Expr.xor. wf_cases.
Qed.
Lemma denotes_ltu : denotes X (Expr.ltu X l r) (fun st => sltu_v (f st) (g st)).
Proof.
  apply (denotes_simplified X Ltu _ l r f g); [|by intros; apply eval_ltu|done..].
  intros. unfold Expr.ltu. wf_cases. destruct X; done.
Qed.

Lemma denotes_lt : denotes X (Expr.lt l r) (fun st => slt_v w (f st) (g st)).
Proof. by eapply denotes_binary. Qed.

Lemma wf_sext32 : wf_expr X (Expr.sext32 X l) = true.
Proof. unfold Expr.sext32. destruct Hl. wf_cases. Qed.

Lemma denotes_sext32 : denotes X (Expr.sext32 X l) (fun st => sx32 X (f st)).
Proof.
  split; [apply wf_sext32|]. intros. rewrite eval_sext32. cbn. by rewrite (proj2 Hl).
Qed.

Lemma denotes_addw : denotes X (Expr.addw X l r) (fun st => addw_v w (f st) (g st)).
Proof.
  apply (denotes_simplified X AddW _ l r f g); [|by intros; apply eval_addw|done..].
  intros. unfold Expr.addw, Expr.sext32. wf_cases.
Qed.

Lemma denotes_subw : denotes X (Expr.subw X l r) (fun st => subw_v w (f st) (g st)).
Proof.
  apply (denotes_simplified X SubW _ l r f g); [|by intros; apply eval_subw|done..].
  intros. unfold Expr.subw, Expr.sext32, Expr.neg, Expr.unary. wf_cases.
Qed.

(** Shifts by less than the width. *)
Section shifts.
Variable n : Z.
Hypothesis (Hn : forall st, wf_state X st -> g st < n).

Lemma shift_amount st : wf_state X st -> 0 <= g st < n.
Proof. intros Hst. pose proof (denotes_range _ _ _ _ Hr Hst) as [? _]. auto. Qed.

Lemma denotes_sll : n = w ->
  denotes X (Expr.sll X l r) (fun st => sll_v w (f st) (g st)).
Proof.
  pose proof shift_amount as Hs. intros E. rewrite E in Hs.
  apply (denotes_simplified X Sll _ l r f g); [|by intros; apply eval_sll|done..|].
  - intros. unfold Expr.sll. wf_cases.
  - intros st Hst _ _. pose proof (Hs st Hst). cbn. unfold sll_v.
    rewrite (proj2 (Z.ltb_lt _ _)), Z.shiftl_mul_pow2, Z.mod_small by lia. done.
Qed.

Lemma denotes_srl : n = w ->
  denotes X (Expr.srl X l r) (fun st => srl_v w (f st) (g st)).
Proof.
  pose proof shift_amount as Hs. intros E. rewrite E in Hs.
  apply (denotes_simplified X Srl _ l r f g); [|by intros; apply eval_srl|done..|].
  - intros. unfold Expr.srl. wf_cases.
  - intros st Hst _ _. pose proof (Hs st Hst). cbn. unfold srl_v.
    rewrite (proj2 (Z.ltb_lt _ _)), Z.shiftr_div_pow2, Z.mod_small by lia. done.
Qed.

Lemma denotes_sra : n = w ->
  denotes X (Expr.sra X l r) (fun st => sra_v w (f st) (g st)).
Proof.
  pose proof shift_amount as Hs. intros E. rewrite E in Hs.
  apply (denotes_simplified X Sra _ l r f g); [|by intros; apply eval_sra|done..|].
  - intros. unfold Expr.sra. wf_cases.
  - intros st Hst _ _. pose proof (Hs st Hst). cbn. unfold sra_v.
    rewrite (proj2 (Z.ltb_lt _ _)), Z.shiftr_div_pow2, Z.mod_small by lia. done.
Qed.

Lemma denotes_sllw : n = 32 ->
  denotes X (Expr.sllw X l r) (fun st => sllw_v w (f st) (g st)).
Proof.
  pose proof shift_amount as Hs. intros E. rewrite E in Hs.
  apply (denotes_simplified X SllW _ l r f g); [|by intros; apply eval_sllw|done..|].
  - intros. unfold Expr.sllw. pose proof wf_sext32. wf_cases.
  - intros st Hst _ _. pose proof (Hs st Hst). cbn. unfold sllw_v.
    rewrite (proj2 (Z.ltb_lt _ _)), Z.shiftl_mul_pow2, Z.mod_small by lia. done.
Qed.

Lemma denotes_srlw : n = 32 ->
  denotes X (Expr.srlw X l r) (fun st => srlw_v w (f st) (g st)).
Proof.
  pose proof shift_amount as Hs. intros E. rewrite E in Hs.
  apply (denotes_simplified X SrlW _ l r f g); [|by intros; apply eval_srlw|done..|].
  - intros. unfold Expr.srlw. pose proof wf_sext32. wf_cases.
  - intros st Hst _ _. pose proof (Hs st Hst). cbn. unfold srlw_v.
    rewrite (proj2 (Z.ltb_lt _ _)), Z.shiftr_div_pow2, Z.mod_small by lia. done.
Qed.

Lemma denotes_sraw : n = 32 ->
  denotes X (Expr.sraw X l r) (fun st => sraw_v w (f st) (g st)).
Proof.
  pose proof shift_amount as Hs. intros E. rewrite E in Hs.
  apply (denotes_simplified X SraW _ l r f g); [|by intros; apply eval_sraw|done..|].
  - intros. unfold Expr.sraw. pose proof wf_sext32. wf_cases.
  - intros st Hst _ _. pose proof (Hs st Hst). cbn. unfold sraw_v.
    rewrite (proj2 (Z.ltb_lt _ _)), Z.shiftr_div_pow2, Z.mod_small by lia. done.
Qed.
End shifts.
End factories.

#[export] Hint Resolve denotes_add denotes_sub denotes_and denotes_or denotes_xor denotes_ltu
  denotes_lt denotes_sext32 denotes_addw denotes_subw denotes_from_u64 denotes_read
  denotes_temp denotes_csr denotes_res_addr denotes_res_valid denotes_instret denotes_cycle
  denotes_unary denotes_select : denotes.

(** ** Executing statements *)

Lemma arch_set_reg st st' r v : arch st = arch st' -> arch (set_reg st r v) = arch (set_reg st' r v).
Proof. destruct st, st'. cbn. intros [=]. subst. unfold set_reg. case_match; done. Qed.

Lemma arch_set_temp st t v : arch (set_temp st t v) = arch st.
Proof. done. Qed.

Section exec.
Context (vars : string -> Z) (extern : string -> list Z -> state -> option (Z * state)).
Context (X : Xlen).

Lemma exec_write_value st t e f :
  denotes X e f -> wf_state X st ->
  exec_stmt vars extern X st (Write t e) = exec_write vars X st t (f st).
Proof.
  intros [_ He] Hst. specialize (He vars st Hst). cbn.
  assert (eval_rhs vars extern X st e = Some (f st, st)) as ->; [|done].
  destruct e; cbn -[eval eval_read] in *; rewrite ?He; done.
Qed.

(** A conditional runs one of its branches. *)
Lemma exec_if st c ts es :
  exec_stmt vars extern X st (If c ts es)
  = (b ← eval vars X st c;
     if b =? 0 then exec_stmts vars extern X st es else exec_stmts vars extern X st ts).
Proof.
  cbn. destruct (eval vars X st c) as [b|]; [|done]. cbn.
  assert (forall l s, (fix exec_list (st : state) (l : list Stmt) : option state :=
      match l with
      | [] => Some st
      | s :: l' => st' ← exec_stmt vars extern X st s; exec_list st' l'
      end) s l = exec_stmts vars extern X s l) as E.
  { induction l as [|x l IH]; intros s; [done|]. cbn. destruct (exec_stmt _ _ _ s x); [|done]. apply IH. }
  by rewrite !E.
Qed.

(** Statement lists run in sequence. *)
Lemma exec_stmts_app st l1 l2 :
  exec_stmts vars extern X st (l1 ++ l2)
  = (st' ← exec_stmts vars extern X st l1; exec_stmts vars extern X st' l2).
Proof.
  revert st. induction l1 as [|s l1 IH]; intros st; [done|]. cbn.
  destruct (exec_stmt vars extern X st s); [|done]. cbn. apply IH.
Qed.

Lemma exec_write_reg st r e f :
  denotes X e f -> wf_state X st ->
  exec_stmt vars extern X st (Stmt.write_reg r e) = Some (set_reg st r (f st)).
Proof. intros. unfold Stmt.write_reg. erewrite exec_write_value by done. done. Qed.
End exec.

Lemma wf_state_set_reg X st r v : wf_state X st -> in_reg X v -> wf_state X (set_reg st r v).
Proof.
  intros H Hv. unfold set_reg. case_match; [done|]. destruct H. constructor; cbn; try done.
  intros r'. unfold upd. by case_match.
Qed.

Lemma wf_state_set_temp X st t v : wf_state X st -> in_reg X v -> wf_state X (set_temp st t v).
Proof.
  intros H Hv. destruct H. constructor; cbn; try done. intros r'. unfold upd. by case_match.
Qed.

(** ** Shapes of lifted code *)

(** One register write, omitted when the destination is [x0]. *)
Lemma refines_write X rd e f pc size :
  denotes X e f -> in_u 5 rd ->
  refines X (Ok (if negb (rd =? 0) then [Stmt.write_reg rd e] else [], Fall None)) pc size
    (fun st => (set_reg st rd (f st), next_seq X pc size)).
Proof.
  intros He Hrd. eexists _, _. split; [done|]. split; [|split; [done|]].
  - case_match; [|done]. cbn. rewrite (proj1 He), !andb_true_r. by apply in_ub_spec.
  - intros vars extern st op raw Hst _. exists (set_reg st rd (f st)). split; [|done].
    unfold exec_instr. cbn. unfold set_reg. destruct (Z.eqb_spec rd 0) as [->|Hz]; [done|].
    cbn -[exec_stmt]. erewrite exec_write_reg by done. cbn.
    unfold set_reg. by rewrite (proj2 (Z.eqb_neq _ _) Hz).
Qed.

(** A register write that is emitted whatever the destination: a write to [x0]
    has no effect. *)
Lemma refines_write_any X rd e f pc size :
  denotes X e f -> in_u 5 rd ->
  refines X (Ok ([Stmt.write_reg rd e], Fall None)) pc size
    (fun st => (set_reg st rd (f st), next_seq X pc size)).
Proof.
  intros He Hrd. eexists _, _. split; [done|]. split; [|split; [done|]].
  - cbn. rewrite (proj1 He), !andb_true_r. by apply in_ub_spec.
  - intros vars extern st op raw Hst _. exists (set_reg st rd (f st)). split; [|done].
    unfold exec_instr. cbn -[exec_stmt]. by erewrite exec_write_reg by done.
Qed.

(** What the two-register, register-immediate and one-register lifters have to
    establish. *)
Lemma refines_r_type X raw pc size l e f :
  l = Ok ([Stmt.write_reg (f_rd raw) e], Fall None) ->
  denotes X e (fun st => f (VALUE X) (get_reg st (f_rs1 raw)) (get_reg st (f_rs2 raw))) ->
  in_u 5 (f_rd raw) ->
  refines X l pc size (r_type f X raw pc size).
Proof. intros -> He Hrd. by apply refines_write_any. Qed.

Lemma refines_shift_type n X raw pc size l e f :
  l = Ok ([Stmt.write_reg (f_rd raw) e], Fall None) ->
  denotes X e (fun st => f (VALUE X) (get_reg st (f_rs1 raw)) (f_shamt n raw)) ->
  in_u 5 (f_rd raw) ->
  refines X l pc size (shift_type n f X raw pc size).
Proof. intros -> He Hrd. by apply refines_write_any. Qed.

Lemma refines_unary_type X raw pc size l e f :
  l = Ok ([Stmt.write_reg (f_rd raw) e], Fall None) ->
  denotes X e (fun st => f (VALUE X) (get_reg st (f_rs1 raw))) ->
  in_u 5 (f_rd raw) ->
  refines X l pc size (unary_type f X raw pc size).
Proof. intros -> He Hrd. by apply refines_write_any. Qed.

(** Zero extensions of a non-immediate are plain operators. *)
Lemma denotes_zext32 X e f : denotes X e f -> denotes X (Expr.zext32 X e) (fun st => wrap 32 (f st)).
Proof.
  intros [Hwf He]. split.
  - unfold Expr.zext32. case_match; subst; cbn in *; try done.
    change 0xffffffff with (Z.ones 32). rewrite fold_zext by lia.
    apply in_ub_spec, (in_reg_small X 32); [lia|]. apply wrap_range. lia.
  - intros. rewrite eval_zext32. cbn. by rewrite He.
Qed.
#[export] Hint Resolve denotes_zext32 : denotes.
