(* ===== verification/BaseSpec.v ===== *)
(** * RV32I and RV64I: the base integer instruction set *)

From S2P Require Import Prelude Xlen IR IRSem Isa Base RiscvSpec.

Definition isa_I : list isa_entry :=
  [ mkEntry OP_LUI any (mkPat 0x37 None None) fmt_U lui;
    mkEntry OP_AUIPC any (mkPat 0x17 None None) fmt_U auipc;
    mkEntry OP_JAL any (mkPat 0x6F None None) fmt_J jal;
    mkEntry OP_JALR any (opc 0x67 0) fmt_I jalr;
    mkEntry OP_BEQ any (opc 0x63 0) fmt_B (branch_type (fun _ x y => x =? y));
    mkEntry OP_BNE any (opc 0x63 1) fmt_B (branch_type (fun _ x y => negb (x =? y)));
    mkEntry OP_BLT any (opc 0x63 4) fmt_B (branch_type (fun w x y => to_signed w x <? to_signed w y));
    mkEntry OP_BGE any (opc 0x63 5) fmt_B (branch_type (fun w x y => to_signed w y <=? to_signed w x));
    mkEntry OP_BLTU any (opc 0x63 6) fmt_B (branch_type (fun _ x y => x <? y));
    mkEntry OP_BGEU any (opc 0x63 7) fmt_B (branch_type (fun _ x y => y <=? x));
    mkEntry OP_LB any (opc 0x03 0) fmt_I (load_type 1 true);
    mkEntry OP_LH any (opc 0x03 1) fmt_I (load_type 2 true);
    mkEntry OP_LW any (opc 0x03 2) fmt_I (load_type 4 true);
    mkEntry OP_LD rv64 (opc 0x03 3) fmt_I (load_type 8 true);
    mkEntry OP_LBU any (opc 0x03 4) fmt_I (load_type 1 false);
    mkEntry OP_LHU any (opc 0x03 5) fmt_I (load_type 2 false);
    mkEntry OP_LWU rv64 (opc 0x03 6) fmt_I (load_type 4 false);
    mkEntry OP_SB any (opc 0x23 0) fmt_S (store_type 1);
    mkEntry OP_SH any (opc 0x23 1) fmt_S (store_type 2);
    mkEntry OP_SW any (opc 0x23 2) fmt_S (store_type 4);
    mkEntry OP_SD rv64 (opc 0x23 3) fmt_S (store_type 8);
    mkEntry OP_ADDI any (opc 0x13 0) fmt_I (i_type (fun w x y => wrap w (x + y)));
    mkEntry OP_SLTI any (opc 0x13 2) fmt_I (i_type slt_v);
    mkEntry OP_SLTIU any (opc 0x13 3) fmt_I (i_type (fun _ => sltu_v));
    mkEntry OP_XORI any (opc 0x13 4) fmt_I (i_type (fun _ => Z.lxor));
    mkEntry OP_ORI any (opc 0x13 6) fmt_I (i_type (fun _ => Z.lor));
    mkEntry OP_ANDI any (opc 0x13 7) fmt_I (i_type (fun _ => Z.land));
    mkEntry OP_SLLI rv32 (opf7 0x13 1 0x00) (fmt_shift 5) (shift_type 5 sll_v);
    mkEntry OP_SRLI rv32 (opf7 0x13 5 0x00) (fmt_shift 5) (shift_type 5 srl_v);
    mkEntry OP_SRAI rv32 (opf7 0x13 5 0x20) (fmt_shift 5) (shift_type 5 sra_v);
    mkEntry OP_SLLI rv64 (opf6 0x13 1 0x00) (fmt_shift 6) (shift_type 6 sll_v);
    mkEntry OP_SRLI rv64 (opf6 0x13 5 0x00) (fmt_shift 6) (shift_type 6 srl_v);
    mkEntry OP_SRAI rv64 (opf6 0x13 5 0x10) (fmt_shift 6) (shift_type 6 sra_v);
    mkEntry OP_ADD any (opf7 0x33 0 0x00) fmt_R (r_type (fun w x y => wrap w (x + y)));
    mkEntry OP_SUB any (opf7 0x33 0 0x20) fmt_R (r_type (fun w x y => wrap w (x - y)));
    mkEntry OP_SLL any (opf7 0x33 1 0x00) fmt_R (r_type sll_v);
    mkEntry OP_SLT any (opf7 0x33 2 0x00) fmt_R (r_type slt_v);
    mkEntry OP_SLTU any (opf7 0x33 3 0x00) fmt_R (r_type (fun _ => sltu_v));
    mkEntry OP_XOR any (opf7 0x33 4 0x00) fmt_R (r_type (fun _ => Z.lxor));
    mkEntry OP_SRL any (opf7 0x33 5 0x00) fmt_R (r_type srl_v);
    mkEntry OP_SRA any (opf7 0x33 5 0x20) fmt_R (r_type sra_v);
    mkEntry OP_OR any (opf7 0x33 6 0x00) fmt_R (r_type (fun _ => Z.lor));
    mkEntry OP_AND any (opf7 0x33 7 0x00) fmt_R (r_type (fun _ => Z.land));
    mkEntry OP_ADDIW rv64 (opc 0x1B 0) fmt_I (i_type addw_v);
    mkEntry OP_SLLIW rv64 (opf7 0x1B 1 0x00) (fmt_shift 5) (shift_type 5 sllw_v);
    mkEntry OP_SRLIW rv64 (opf7 0x1B 5 0x00) (fmt_shift 5) (shift_type 5 srlw_v);
    mkEntry OP_SRAIW rv64 (opf7 0x1B 5 0x20) (fmt_shift 5) (shift_type 5 sraw_v);
    mkEntry OP_ADDW rv64 (opf7 0x3B 0 0x00) fmt_R (r_type addw_v);
    mkEntry OP_SUBW rv64 (opf7 0x3B 0 0x20) fmt_R (r_type subw_v);
    mkEntry OP_SLLW rv64 (opf7 0x3B 1 0x00) fmt_R (r_type sllw_v);
    mkEntry OP_SRLW rv64 (opf7 0x3B 5 0x00) fmt_R (r_type srlw_v);
    mkEntry OP_SRAW rv64 (opf7 0x3B 5 0x20) fmt_R (r_type sraw_v);
    mkEntry OP_FENCE any (opc 0x0F 0) fmt_none nop_sem;
    mkEntry OP_ECALL any (mkPat 0x73 (Some 0) (Some (7, 0x0))) fmt_none ecall_sem;
    mkEntry OP_EBREAK any (mkPat 0x73 (Some 0) (Some (7, 0x2000))) fmt_none ebreak_sem;
    mkEntry OP_MRET any (mkPat 0x73 (Some 0) (Some (7, 0x604000))) fmt_none mret_sem ].

(** Shift immediates of 32 and more, which RV32 reserves: [slli], [srli] and
    [srai] with bit 25 of the word set. *)
Definition reserved_shift (X : Xlen) (raw : Z) : bool :=
  rv32 X && (bits raw 6 0 =? 0x13) && ((bits raw 14 12 =? 1) || (bits raw 14 12 =? 5))
  && (bits raw 25 25 =? 1).
