(* ===== verification/BaseDecode.v ===== *)
(** * The base decoder implements the encoding table *)

From S2P Require Import Prelude Xlen IR IRSem IRFacts Isa Base RiscvSpec Fields TableDecode.
From S2P Require Import BaseSpec.
#[local] Open Scope word_scope.

Lemma system_words raw v :
  in_u 32 raw -> bits raw 6 0 = 0x73 -> (raw =? v * 2 ^ 7 + 0x73) = (bits raw 31 7 =? v).
Proof.
  intros H E. rewrite (raw_split raw H) at 1. rewrite E.
  destruct (Z.eqb_spec (bits raw 31 7) v); [subst; apply Z.eqb_refl|]. apply Z.eqb_neq. lia.
Qed.

Lemma decode_system_table X raw pc :
  in_u 32 raw -> bits raw 6 0 = 0x73 -> bits raw 14 12 = 0 ->
  ('(o, a) ← decode_system raw; Some (DecodedInstr.new o pc 4 raw a))
  = table_decode X isa_I raw pc.
Proof.
  intros H E E3. unfold decode_system, table_decode, lookup_isa, matches.
  rewrite (system_words raw 0 H E : (raw =? 0x73) = _),
    (system_words raw 0x2000 H E : (raw =? 0x00100073) = _),
    (system_words raw 0x604000 H E : (raw =? 0x30200073) = _).
  revert E E3. generalize (bits raw). intros b E E3.
  unfold slices_match. rewrite E, E3. destruct X; cbn; repeat case_match; done.
Qed.

Lemma decode_32bit_table X raw pc :
  in_u 32 raw -> reserved_shift X raw = false ->
  decode_32bit X raw pc = table_decode X isa_I raw pc.
Proof.
  intros Hraw Hres.
  pose proof (bits_bound raw 31 25 128 ltac:(lia) ltac:(done)) as H7.
  destruct (decide (bits raw 6 0 = 0x73 /\ bits raw 14 12 = 0)) as [[E0 E3]|Hsys].
  { rewrite <- decode_system_table by done. unfold decode_32bit.
    autorewrite with fields. by rewrite E0, E3. }
  unfold decode_32bit, table_decode, decode_branch, decode_load, decode_store, decode_op_imm,
    decode_op_imm_32, decode_op, decode_op_32, reserved_shift in *.
  rewrite lookup_at_opcode.
  autorewrite with fields in *.
  rewrite decode_i_imm_spec, decode_u_imm_spec, decode_b_imm_spec, decode_s_imm_spec,
    decode_j_imm_spec, land_FE by done.
  generalize (decode_system raw). intros sys.
  rewrite (decode_shamt 6 raw ltac:(lia) : to_signed 32 (shr raw 20 &ᵇ 0x3F) = _),
    (decode_shamt 5 raw ltac:(lia) : to_signed 32 (shr raw 20 &ᵇ 0x1F) = _).
  pose proof (bits_31_26 raw) as H6. pose proof (shamt_6_5 raw) as Hs.
  rewrite bits_25_25 in Hres, Hs.
  unfold decoded_of, DecodedInstr.new.
  revert Hres H7 Hsys H6 Hs. generalize (bits raw). intros b. intros.
  case_slice 6 0.
  all: [> ..|default_opcode].
  all: destruct X; cbn [VALUE Z.eqb Pos.eqb andb]; eval_table; try done.
  all: rewrite ?H6; case_slice 14 12; try done; try (by exfalso; apply Hsys).
  all: case_slice 31 25; try done.
  all: repeat case_match; try done.
  all: cbn [rv32 orb andb] in Hres; try (exfalso; Z.div_mod_to_equations; lia).
  all: match goal with E : _ 31 25 = _ |- _ => rewrite Hs by (by rewrite E) end; done.
Qed.
