(* ===== verification/BaseLift.v ===== *)
(** * The base lifter refines the instruction semantics *)

From S2P Require Import Prelude Xlen IR IRBuild IRSem IRFacts Isa Ext Base RiscvSpec Fields.
From S2P Require Import LiftFacts BaseSpec.
#[local] Open Scope word_scope.

(** Addresses at which the checked address arithmetic of the lifter cannot
    overflow: the next instruction is in range, and so is every target within
    2 GiB on the signed 64-bit line. *)
Definition pc_ok (X : Xlen) (pc : Z) : Prop :=
  0 <= pc /\ pc + 4 < 2 ^ VALUE X /\
  - 2 ^ 63 + 2 ^ 31 <= to_signed 64 pc < 2 ^ 63 - 2 ^ 31.

Lemma f_rd_range raw : in_u 5 (f_rd raw).
Proof. apply (bits_range raw 11 7). lia. Qed.
Lemma f_rs1_range raw : in_u 5 (f_rs1 raw).
Proof. apply (bits_range raw 19 15). lia. Qed.
Lemma f_rs2_range raw : in_u 5 (f_rs2 raw).
Proof. apply (bits_range raw 24 20). lia. Qed.
#[export] Hint Resolve f_rd_range f_rs1_range f_rs2_range : denotes.

Lemma f_shamt_range n raw : 0 < n -> 0 <= f_shamt n raw < 2 ^ n.
Proof. intros. pose proof (bits_range raw (19 + n) 20). unfold f_shamt. by replace n with (19 + n - 20 + 1) at 3 by lia; auto with lia. Qed.

(** The amount of a register shift is masked to the low bits. *)
Lemma masked_amount X n r :
  0 < n <= 6 -> in_u 5 r ->
  denotes X (Expr.and X (Expr.read r) (Expr.imm (from_u64 X (2 ^ n - 1))))
    (fun st => get_reg st r mod 2 ^ n).
Proof.
  intros. assert (2 ^ n <= 2 ^ 6) by (apply Z.pow_le_mono_r; lia).
  pose proof (pow2_pos n).
  eapply denotes_ext;
    [apply denotes_and; [by apply denotes_read | apply denotes_small; split; lia]|].
  intros. cbn. replace (2 ^ n - 1) with (Z.ones n) by (rewrite Z.ones_equiv; lia).
  apply Z.land_ones. lia.
Qed.

Lemma masked_width X r :
  in_u 5 r ->
  denotes X (Expr.and X (Expr.read r) (Expr.imm (from_u64 X (VALUE X - 1))))
    (fun st => get_reg st r mod VALUE X).
Proof.
  intros. destruct X; [apply (masked_amount Rv32 5) | apply (masked_amount Rv64 6)]; done || lia.
Qed.

(** What a lifter's operator argument has to do. *)
Definition op_ok (X : Xlen) (op : Expr -> Expr -> Expr) (f : Z -> Z -> Z -> Z) : Prop :=
  forall l r fl fr, denotes X l fl -> denotes X r fr ->
    denotes X (op l r) (fun st => f (VALUE X) (fl st) (fr st)).

(** The same, for operators whose right operand has to be below [n]. *)
Definition shift_ok (X : Xlen) (n : Z) (op : Expr -> Expr -> Expr) (f : Z -> Z -> Z -> Z) : Prop :=
  forall l r fl fr, denotes X l fl -> denotes X r fr ->
    (forall st, wf_state X st -> fr st < n) ->
    denotes X (op l r) (fun st => f (VALUE X) (fl st) (fr st)).

(** ** Lifting helpers, for arbitrary operands *)

Section operands.
Context (X : Xlen) (rd rs1 rs2 pc size : Z).
Hypotheses (Hrd : in_u 5 rd) (H1 : in_u 5 rs1) (H2 : in_u 5 rs2).
Abbreviation w := (VALUE X).
#[local] Hint Resolve Hrd H1 H2 : denotes.

Lemma lift_r_args op f :
  op_ok X op f -> refines X (lift_r (A_R rd rs1 rs2) op) pc size (op_rr f rd rs1 rs2 X pc size).
Proof. intros Hop. apply refines_write; auto with denotes. Qed.

Lemma lift_i_args op f imm :
  op_ok X op f ->
  refines X (lift_i X (A_I rd rs1 imm) op) pc size (op_ri f rd rs1 (wrap w imm) X pc size).
Proof.
  intros Hop.
  apply (refines_write X rd _ (fun st => f w (get_reg st rs1) (wrap w imm))); auto with denotes.
Qed.

Lemma lift_shamt_args m op f s :
  shift_ok X m op f -> 0 <= s < m -> s < 64 ->
  refines X (lift_shamt X (A_I rd rs1 s) op) pc size (op_ri f rd rs1 s X pc size).
Proof.
  intros Hop Hs Hm. apply refines_write; [|done].
  apply Hop; [by apply denotes_read | | intros; cbn; lia].
  change 0x3F with (Z.ones 6). rewrite Z.land_ones by lia.
  rewrite (wrap_id 32), Z.mod_small by (split; lia).
  apply denotes_small. split; lia.
Qed.

Lemma lift_lui_args imm :
  refines X (lift_lui X (A_U rd imm)) pc size (op_lui rd imm X pc size).
Proof. apply (refines_write X rd _ (fun _ => wrap w imm)); auto with denotes. Qed.

Lemma lift_load_args width sg sg' imm :
  width ∈ [1; 2; 4; 8] -> (forall st a, load X st a width sg = load X st a width sg') ->
  in_i 16 imm ->
  refines X (lift_load (A_I rd rs1 imm) width sg) pc size (op_load width sg' rd rs1 imm X pc size).
Proof.
  intros Hw Hsg Hi. unfold lift_load, expect_i. rewrite (proj2 (in_ib_spec _ _) Hi).
  pose proof (refines_write X rd (Expr.mem (Expr.read rs1) imm width sg)
    (fun st => load X st (get_reg st rs1 + imm) width sg') pc size) as R.
  unfold op_load. destruct (negb _); apply R; auto with denotes;
    (eapply denotes_ext; [apply denotes_mem; auto with denotes | intros; apply Hsg]).
Qed.

Lemma lift_store_args width imm :
  width ∈ [1; 2; 4; 8] -> in_i 16 imm ->
  refines X (lift_store X (A_S rs1 rs2 imm) width) pc size (op_store width rs1 rs2 imm X pc size).
Proof.
  intros Hw Hi. unfold lift_store, expect_i. rewrite (proj2 (in_ib_spec _ _) Hi). cbn.
  eexists _, _. split; [done|]. split; [|split; [done|]].
  - cbn. rewrite (bool_decide_eq_true_2 _ Hw), (proj2 (in_ib_spec _ _) Hi).
    rewrite (proj2 (in_ub_spec 5 _) H1), (proj2 (in_ub_spec 5 _) H2).
    rewrite from_u64_id by apply in_reg_0. by rewrite (proj2 (in_ub_spec _ _) (in_reg_0 X)).
  - intros vars extern st op rw Hst _. eexists. split; [|reflexivity].
    unfold exec_instr. cbn. by rewrite from_u64_id by apply in_reg_0.
Qed.
End operands.

(** ** Lifting helpers, for the operands of a word *)

Section helpers.
Context (X : Xlen) (raw pc size : Z).
Abbreviation w := (VALUE X).

Lemma lift_r_refines op f :
  op_ok X op f -> refines X (lift_r (fmt_R raw) op) pc size (r_type f X raw pc size).
Proof. intros Hop. apply lift_r_args; auto with denotes. Qed.

Lemma lift_i_refines op f :
  op_ok X op f -> refines X (lift_i X (fmt_I raw) op) pc size (i_type f X raw pc size).
Proof. intros Hop. apply lift_i_args; auto with denotes. Qed.

Lemma lift_shift_refines op f :
  shift_ok X w op f -> (forall x y, f w x (y mod w) = f w x y) ->
  refines X (lift_shift X (fmt_R raw) op) pc size (r_type f X raw pc size).
Proof.
  intros Hop Hf. apply refines_write; [|apply f_rd_range].
  eapply denotes_ext; [apply Hop; [apply denotes_read, f_rs1_range | |]|].
  - apply masked_width, f_rs2_range.
  - intros. apply Z.mod_pos_bound, VALUE_pos.
  - intros. apply Hf.
Qed.

Lemma lift_shiftw_refines op f :
  shift_ok X 32 op f -> (forall x y, f w x (y mod 32) = f w x y) ->
  refines X (lift_shiftw X (fmt_R raw) op) pc size (r_type f X raw pc size).
Proof.
  intros Hop Hf. apply refines_write; [|apply f_rd_range].
  eapply denotes_ext; [apply Hop; [apply denotes_read, f_rs1_range | |]|].
  - apply (masked_amount X 5); auto with denotes lia.
  - intros. cbn. by apply Z.mod_pos_bound.
  - intros. cbn. apply Hf.
Qed.

Lemma lift_shamt_refines n m op f :
  shift_ok X m op f -> 0 < n <= 6 -> 2 ^ n <= m ->
  refines X (lift_shamt X (fmt_shift n raw) op) pc size (shift_type n f X raw pc size).
Proof.
  intros Hop Hn Hm. pose proof (f_shamt_range n raw ltac:(lia)) as Hs.
  assert (2 ^ n <= 2 ^ 6) by (apply Z.pow_le_mono_r; lia).
  apply (lift_shamt_args X _ _ _ _ (f_rd_range raw) (f_rs1_range raw) m); [done | lia | lia].
Qed.

Lemma lift_lui_refines : refines X (lift_lui X (fmt_U raw)) pc size (lui X raw pc size).
Proof. apply lift_lui_args; auto with denotes. Qed.

Lemma lift_load_refines width sg sg' :
  width ∈ [1; 2; 4; 8] -> (forall st a, load X st a width sg = load X st a width sg') ->
  refines X (lift_load (fmt_I raw) width sg) pc size (load_type width sg' X raw pc size).
Proof.
  intros Hw Hsg. pose proof (imm_I_range raw).
  apply lift_load_args; auto with denotes. split; lia.
Qed.

Lemma lift_store_refines width :
  width ∈ [1; 2; 4; 8] ->
  refines X (lift_store X (fmt_S raw) width) pc size (store_type width X raw pc size).
Proof.
  intros Hw. pose proof (imm_S_range raw). apply lift_store_args; auto with denotes. split; lia.
Qed.
End helpers.

(** ** Address arithmetic *)

Lemma wrap_to_signed_add w pc i :
  0 < w <= 64 -> in_u 64 pc -> wrap w (wrap 64 (to_signed 64 pc + i)) = wrap w (pc + i).
Proof.
  intros Hw Hpc. rewrite wrap_wrap_le by lia.
  rewrite <- wrap_add_l, <- (wrap_wrap_le w 64 (to_signed 64 pc)) by lia.
  by rewrite wrap_to_signed, wrap_add_l.
Qed.

Section addresses.
Context (X : Xlen) (pc : Z).
Hypothesis (Hpc : pc_ok X pc).
Abbreviation w := (VALUE X).

Lemma pc_in_u64 : in_u 64 pc.
Proof. destruct Hpc as (? & ? & ?). split; [done|]. destruct X; cbn in *; lia. Qed.

Lemma pc_in_reg : in_reg X pc.
Proof. destruct Hpc as (? & ? & ?). split; lia. Qed.

Lemma add_i_pc i :
  - 2 ^ 31 <= i < 2 ^ 31 -> add_i 64 (to_signed 64 pc) i = Ok (to_signed 64 pc + i).
Proof.
  intros. destruct Hpc as (? & ? & ?). unfold add_i.
  by rewrite (proj2 (in_ib_spec 64 (to_signed 64 pc + i))) by (split; lia).
Qed.

Lemma pc_relative_spec imm :
  - 2 ^ 31 <= imm < 2 ^ 31 -> pc_relative X pc imm = Ok (wrap w (pc + imm)).
Proof.
  intros Hi. pose proof pc_in_u64 as H64. unfold pc_relative, to_u64.
  destruct Hpc as (H0 & H1 & H2). pose proof (VALUE_le_64 X).
  assert (exists o, to_signed 64 (sign_extend_32 X (wrap 32 imm)) = o /\
    in_i 64 (to_signed 64 pc + o) /\ wrap w o = wrap w imm) as (o & -> & Ho & Ew).
  { eexists. split; [done|]. destruct X; cbn in *.
    - pose proof (wrap_range 32 imm ltac:(lia)) as [? ?].
      rewrite !to_signed_small by (split; lia). split; [split; lia|]. apply wrap_wrap.
    - change (to_signed 32 (wrap 32 imm)) with (sext 32 imm).
      rewrite sext_id by (done || split; lia).
      change (to_signed 64 (wrap 64 imm)) with (sext 64 imm).
      rewrite sext_id by (done || split; lia). split; [split; lia | done]. }
  unfold add_i. rewrite (proj2 (in_ib_spec _ _) Ho). cbn. unfold mret, result_ret.
  rewrite from_u64_wrap64, <- (wrap_wrap_le w 64), wrap_to_signed_add by (done || lia).
  by rewrite <- wrap_add_r, Ew, wrap_add_r.
Qed.

Lemma link_value_spec size :
  0 <= size <= 4 -> link_value X pc size = Ok (wrap w (pc + size)).
Proof.
  intros. destruct Hpc as (? & ? & ?). unfold link_value, add_u.
  rewrite from_u64_id by (apply small_in_reg; lia).
  assert (in_reg X (pc + size)) as Hr by (split; lia).
  by rewrite (proj2 (in_ub_spec _ _) Hr), wrap_id.
Qed.
End addresses.

(** [x & !1] clears bit 0. *)
Lemma land_clear_bit0 w x : 0 < w -> in_u w x -> x &ᵇ wrap w (-2) = x - x mod 2.
Proof.
  intros Hw Hx. transitivity (Z.shiftl (Z.shiftr x 1) 1).
  2: { rewrite Z.shiftl_mul_pow2, Z.shiftr_div_pow2 by lia. change (2 ^ 1) with 2.
       Z.div_mod_to_equations. lia. }
  rewrite <- Z.ldiff_ones_r, Z.ldiff_land by lia.
  change (Z.lnot (Z.ones 1)) with (-2). rewrite Z.land_comm.
  unfold wrap. rewrite <- Z.land_ones by lia. rewrite <- Z.land_assoc.
  rewrite (Z.land_comm (Z.ones w)), Z.land_ones, Z.mod_small by (lia || apply Hx).
  apply Z.land_comm.
Qed.

(** ** Instructions that use the address *)

Section control.
Context (X : Xlen) (raw pc size : Z).
Hypotheses (Hpc : pc_ok X pc) (Hsize : 0 <= size <= 4).
Abbreviation w := (VALUE X).

Lemma lift_auipc_refines :
  refines X (lift_auipc X (fmt_U raw) pc) pc size (auipc X raw pc size).
Proof.
  pose proof (imm_U_range raw) as Hi. pose proof (VALUE_le_64 X).
  unfold lift_auipc, fmt_U, to_u64. rewrite (add_i_pc X pc Hpc) by done. cbn.
  pose proof (refines_write X (f_rd raw)
    (Expr.imm (from_u64 X (wrap 64 (to_signed 64 pc + imm_U raw))))
    (fun _ => wrap w (pc + imm_U raw)) pc size) as R.
  unfold auipc. destruct (negb _); apply R; auto with denotes;
    (rewrite <- (wrap_to_signed_add w pc) by (lia || apply (pc_in_u64 X pc Hpc));
     rewrite wrap_wrap_le by lia; apply denotes_from_u64).
Qed.

Lemma wf_jump imm : wf_term X (Terminator.jump (wrap w (pc + imm))) = true.
Proof. apply in_ub_spec, in_reg_wrap. Qed.

Lemma lift_jal_args rd imm :
  in_u 5 rd -> - 2 ^ 31 <= imm < 2 ^ 31 ->
  refines X (lift_jal X (A_J rd imm) pc size) pc size (op_jal rd imm X pc size).
Proof.
  intros Hr Hi. unfold lift_jal. rewrite (link_value_spec X pc Hpc) by done.
  rewrite (pc_relative_spec X pc Hpc) by lia.
  pose proof (denotes_imm X _ (in_reg_wrap X (pc + size))) as Hl.
  exists (if negb (rd =? 0) then [Stmt.write_reg rd (Expr.imm (wrap w (pc + size)))] else []),
    (Terminator.jump (wrap w (pc + imm))).
  split; [by destruct (negb _)|].
  split; [|split; [apply wf_jump|]].
  - case_match; [|done]. cbn. rewrite (proj2 (in_ub_spec 5 _) Hr), !andb_true_r. apply Hl.
  - intros vars extern st op rw Hst _. exists (set_reg st rd (wrap w (pc + size))).
    split; [|done]. unfold exec_instr, op_jal. cbn.
    destruct (Z.eqb_spec rd 0) as [->|Hz]; [done|].
    cbn. unfold set_reg. by rewrite (proj2 (Z.eqb_neq _ _) Hz).
Qed.

Lemma lift_jal_refines : refines X (lift_jal X (fmt_J raw) pc size) pc size (jal X raw pc size).
Proof. pose proof (imm_J_range raw). apply lift_jal_args; [apply f_rd_range | lia]. Qed.

(** A branch on a condition over any two values. *)
Lemma branch_code cond c imm :
  denotes X cond (fun st => b2z (c st)) ->
  - 2 ^ 31 <= imm < 2 ^ 31 ->
  refines X (target ← pc_relative X pc imm; mret ([], Terminator.branch cond target)) pc size
    (fun st => (st, if c st then NPc (wrap w (pc + imm)) else next_seq X pc size)).
Proof.
  intros Hc Hi. rewrite (pc_relative_spec X pc Hpc) by lia.
  eexists _, _. split; [done|]. split; [done|]. split.
  - cbn. rewrite (proj1 Hc), andb_true_r. apply wf_jump.
  - intros vars extern st op rw Hst _. exists st. split; [|done].
    unfold exec_instr. cbn -[eval]. rewrite (proj2 Hc) by done. cbn. by destruct (c st).
Qed.

Lemma lift_branch_refines cond taken :
  op_ok X cond (fun w x y => b2z (taken w x y)) ->
  refines X (lift_branch X (fmt_B raw) pc cond) pc size (branch_type taken X raw pc size).
Proof.
  intros Hc. pose proof (imm_B_range raw).
  specialize (Hc _ _ _ _ (denotes_read X _ (f_rs1_range raw)) (denotes_read X _ (f_rs2_range raw))).
  apply (branch_code _ (fun st => taken w (get_reg st (f_rs1 raw)) (get_reg st (f_rs2 raw)))); [done | lia].
Qed.

(** The target expression, over any way to reach the old base. *)
Lemma denotes_jalr_target base b :
  denotes X base b ->
  denotes X (Expr.and X (Expr.add X base (Expr.imm (from_u64 X (wrap 64 (imm_I raw)))))
               (Expr.imm (from_u64 X (wrap 64 (Z.lnot 1)))))
    (fun st => let t := wrap w (b st + imm_I raw) in t - t mod 2).
Proof.
  intros Hb. eapply denotes_ext.
  - apply denotes_and; [apply denotes_add; [done | apply denotes_from_u64] | apply denotes_from_u64].
  - intros st Hst. cbn [Z.lnot Z.pred Z.add Z.opp Pos.add Pos.succ].
    rewrite land_clear_bit0 by (apply VALUE_pos || apply in_reg_wrap). by rewrite wrap_add_r.
Qed.

(** Saving the base in a temporary, when the link register is the base. *)
Definition save_base : list Stmt :=
  if f_rd raw =? f_rs1 raw then [Stmt.write_temp 0 (Expr.read (f_rs1 raw))] else [].
Definition jalr_base : Expr :=
  if f_rd raw =? f_rs1 raw then Expr.temp 0 else Expr.read (f_rs1 raw).
Definition write_link : list Stmt :=
  if negb (f_rd raw =? 0) then [Stmt.write_reg (f_rd raw) (Expr.imm (wrap w (pc + size)))] else [].

Lemma lift_jalr_code :
  lift_jalr X (fmt_I raw) pc size
  = Ok (save_base ++ write_link,
        Terminator.jump_dyn
          (Expr.and X (Expr.add X jalr_base (Expr.imm (from_u64 X (wrap 64 (imm_I raw)))))
             (Expr.imm (from_u64 X (wrap 64 (Z.lnot 1)))))).
Proof.
  unfold lift_jalr, fmt_I, save_base, jalr_base, write_link.
  rewrite (link_value_spec X pc Hpc) by done.
  destruct (f_rd raw =? f_rs1 raw), (negb (f_rd raw =? 0)); done.
Qed.

Lemma jalr_base_value :
  exists b, denotes X jalr_base b /\
    forall vars extern st, wf_state X st -> exists st',
      exec_stmts vars extern X st (save_base ++ write_link) = Some st' /\ wf_state X st' /\
      b st' = get_reg st (f_rs1 raw) /\
      arch st' = arch (set_reg st (f_rd raw) (wrap w (pc + size))).
Proof.
  unfold save_base, jalr_base, write_link.
  destruct (Z.eqb_spec (f_rd raw) (f_rs1 raw)) as [E|E];
    (eexists; split; [by auto using f_rs1_range with denotes|]);
    intros vars extern st Hst.
  - exists (set_reg (set_temp st 0 (get_reg st (f_rs1 raw))) (f_rd raw) (wrap w (pc + size))).
    split; [|split; [|split]].
    + unfold set_reg. by destruct (Z.eqb_spec (f_rd raw) 0) as [Hz|Hz]; [|cbn; unfold set_reg;
        rewrite (proj2 (Z.eqb_neq _ _) Hz)].
    + auto using wf_state_set_reg, wf_state_set_temp, in_reg_wrap, get_reg_range.
    + unfold set_reg. by case_match.
    + unfold set_reg. by case_match.
  - exists (set_reg st (f_rd raw) (wrap w (pc + size))). split; [|split; [|split; [|done]]].
    + unfold set_reg. by destruct (Z.eqb_spec (f_rd raw) 0) as [Hz|Hz]; [|cbn; unfold set_reg;
        rewrite (proj2 (Z.eqb_neq _ _) Hz)].
    + auto using wf_state_set_reg, in_reg_wrap.
    + unfold get_reg, set_reg. repeat case_match; try done. cbn. unfold upd.
      by rewrite (proj2 (Z.eqb_neq _ _)) by done.
Qed.

Lemma lift_jalr_refines :
  refines X (lift_jalr X (fmt_I raw) pc size) pc size (jalr X raw pc size).
Proof.
  destruct jalr_base_value as (b & Hb & Hx). apply denotes_jalr_target in Hb.
  eexists _, _. split; [apply lift_jalr_code|]. split; [|split].
  - rewrite forallb_app. unfold save_base, write_link. apply andb_true_iff.
    split; case_match; try done; cbn; rewrite ?andb_true_r, ?andb_true_iff, !in_ub_spec;
      auto using in_reg_wrap with denotes.
  - cbn. rewrite andb_true_r. apply Hb.
  - intros vars extern st op rw Hst _.
    destruct (Hx vars extern st Hst) as (st' & E & Hst' & Hbase & Harch).
    exists st'. split; [|done]. unfold exec_instr.
    cbn -[eval statements_write_exit]. rewrite E. cbn -[eval statements_write_exit].
    assert (statements_write_exit (save_base ++ write_link) = false) as ->.
    { unfold save_base, write_link. by repeat case_match. }
    rewrite (proj2 Hb) by done. cbn. by rewrite Hbase.
Qed.
End control.

(** ** The whole table *)

Lemma load_le_range X m a n : in_u (8 * Z.of_nat n) (load_le X m a n).
Proof.
  revert a. induction n as [|n IH]; intros a; [done|]. cbn [load_le].
  specialize (IH (a + 1)). pose proof (wrap_range 8 (m (wrap (VALUE X) a)) ltac:(lia)).
  unfold in_u in *. replace (8 * Z.of_nat (S n)) with (8 + 8 * Z.of_nat n) by lia.
  rewrite Z.pow_add_r by lia. change (2 ^ 8) with 256 in *. nia.
Qed.

(** A doubleword load of RV64 need not extend the sign. *)
Lemma load_8_signed st a : load Rv64 st a 8 false = load Rv64 st a 8 true.
Proof.
  unfold load. cbn. rewrite wrap_sext by lia. done.
Qed.

Section op_ok.
Context (X : Xlen).
Abbreviation w := (VALUE X).

Lemma add_ok : op_ok X (Expr.add X) (fun w x y => wrap w (x + y)).
Proof. red. auto with denotes. Qed.
Lemma sub_ok : op_ok X (Expr.sub X) (fun w x y => wrap w (x - y)).
Proof. red. auto with denotes. Qed.
Lemma and_ok : op_ok X (Expr.and X) (fun _ => Z.land).
Proof. red. auto with denotes. Qed.
Lemma or_ok : op_ok X (Expr.or X) (fun _ => Z.lor).
Proof. red. auto with denotes. Qed.
Lemma xor_ok : op_ok X (Expr.xor X) (fun _ => Z.lxor).
Proof. red. auto with denotes. Qed.
Lemma slt_ok : op_ok X Expr.slt slt_v.
Proof. red. unfold Expr.slt. auto with denotes. Qed.
Lemma sltu_ok : op_ok X (Expr.sltu X) (fun _ => sltu_v).
Proof. red. unfold Expr.sltu. auto with denotes. Qed.
Lemma addw_ok : op_ok X (Expr.addw X) addw_v.
Proof. red. auto with denotes. Qed.
Lemma subw_ok : op_ok X (Expr.subw X) subw_v.
Proof. red. auto with denotes. Qed.
Lemma sll_ok : shift_ok X w (Expr.sll X) sll_v.
Proof. red. intros. by eapply denotes_sll. Qed.
Lemma srl_ok : shift_ok X w (Expr.srl X) srl_v.
Proof. red. intros. by eapply denotes_srl. Qed.
Lemma sra_ok : shift_ok X w (Expr.sra X) sra_v.
Proof. red. intros. by eapply denotes_sra. Qed.
Lemma sllw_ok : shift_ok X 32 (Expr.sllw X) sllw_v.
Proof. red. intros. by eapply denotes_sllw. Qed.
Lemma srlw_ok : shift_ok X 32 (Expr.srlw X) srlw_v.
Proof. red. intros. by eapply denotes_srlw. Qed.
Lemma sraw_ok : shift_ok X 32 (Expr.sraw X) sraw_v.
Proof. red. intros. by eapply denotes_sraw. Qed.

Lemma cmp_ok op f :
  (forall x y, eval_binary X op x y = Some (b2z (f w x y))) ->
  op_ok X (Expr.binary op) (fun w x y => b2z (f w x y)).
Proof. intros Hop l r fl fr Hl Hr. by eapply denotes_binary. Qed.
End op_ok.

#[export] Hint Resolve add_ok sub_ok and_ok or_ok xor_ok slt_ok sltu_ok addw_ok subw_ok
  sll_ok srl_ok sra_ok sllw_ok srlw_ok sraw_ok : lifting.
#[export] Hint Resolve lift_r_refines lift_i_refines lift_shift_refines lift_shiftw_refines
  lift_lui_refines lift_auipc_refines lift_store_refines lift_jal_refines
  lift_jalr_refines : lifting.

(** Reduce the dispatch on a known identifier. *)
Ltac eval_lift_base :=
  match goal with |- context [lift_base ?X ?a ?o ?pc ?size] =>
    let l := constr:(lift_base X a o pc size) in
    let v := eval cbn -[lift_r lift_i lift_shift lift_shiftw lift_shamt lift_lui lift_auipc
      lift_load lift_store lift_jal lift_jalr lift_branch fmt_R fmt_I fmt_S fmt_B fmt_U fmt_J
      fmt_shift Expr.eq Expr.ne Expr.lt Expr.ge Expr.geu] in l in
    change l with v
  end.

Lemma refines_nop X raw pc size : refines X (Ok ([], Fall None)) pc size (nop_sem X raw pc size).
Proof. eexists _, _. repeat split. intros. by eexists. Qed.

Lemma refines_ecall X raw pc size msg :
  refines X (Ok ([], Terminator.trap msg)) pc size (ecall_sem X raw pc size).
Proof. eexists _, _. repeat split. intros. by eexists. Qed.

Lemma refines_ebreak X raw pc size :
  refines X (Ok ([], Terminator.exit (Expr.imm (from_u64 X 0)))) pc size (ebreak_sem X raw pc size).
Proof. eexists _, _. destruct X; (repeat split; intros; by eexists). Qed.
#[export] Hint Resolve refines_nop refines_ecall refines_ebreak : lifting.

(** The amount of a register shift is taken modulo the width, by specification. *)
Ltac shift_mod :=
  intros; unfold sll_v, srl_v, sra_v, sllw_v, srlw_v, sraw_v;
  rewrite Z.mod_mod; [done | try apply Z.neq_sym, Z.lt_neq, VALUE_pos; lia].

(** Membership of an access width in the list of widths. *)
Ltac width_ok := rewrite !elem_of_cons; tauto.

Ltac lift_case X :=
  lazymatch goal with
  | |- refines _ (lift_branch _ _ _ ?c) _ _ _ =>
      apply lift_branch_refines; [done|];
      first [exact (sltu_ok X) | by apply (cmp_ok X Eq) | by apply (cmp_ok X Ne)
            | by apply (cmp_ok X Lt) | by apply (cmp_ok X Ge) | by apply (cmp_ok X Geu)]
  | |- refines _ (lift_load _ _ _) _ _ _ =>
      destruct X; try done;
      (apply lift_load_refines; [width_ok | intros; first [done | apply load_8_signed]])
  | |- refines _ (lift_store _ _ _) _ _ _ => apply lift_store_refines; first [done | width_ok]
  | |- refines _ (lift_shamt _ _ _) _ _ _ =>
      destruct X; try done; (eapply lift_shamt_refines; [eauto with lifting | lia | done])
  | |- refines _ (lift_shift _ _ _) _ _ _ =>
      apply lift_shift_refines; [by auto with lifting | shift_mod]
  | |- refines _ (lift_shiftw _ _ _) _ _ _ =>
      apply lift_shiftw_refines; [by auto with lifting | shift_mod]
  | _ => by auto with lifting
  end.

Lemma lift_base_refines X e raw pc size :
  In e isa_I -> i_avail e X = true -> i_opid e <> OP_MRET -> pc_ok X pc -> 0 <= size <= 4 ->
  refines X (lift_base X (i_args e raw) (i_opid e) pc size) pc size (i_sem e X raw pc size).
Proof.
  intros He Hav Hm Hpc Hsize.
  unfold isa_I in He. cbn [In] in He.
  repeat (destruct He as [<-|He]); [..|done].
  all: cbn [i_avail i_opid i_args i_sem rv32 rv64 any] in *; eval_lift_base; try done.
  all: clear Hm; lift_case X.
Qed.
