(* ===== verification/MCorrect.v ===== *)
(** * RV32M and RV64M: specification and correctness *)

From S2P Require Import Prelude Xlen IR IRBuild IRSem IRFacts Isa Ext MExt RiscvSpec Fields.
From S2P Require Import TableDecode LiftFacts BaseLift.
#[local] Open Scope word_scope.

(** ** Specification *)

Definition mul_v (w x y : Z) : Z := wrap w (x * y).
Definition mulh_v (w x y : Z) : Z := wrap w ((to_signed w x * to_signed w y) / 2 ^ w).
Definition mulhsu_v (w x y : Z) : Z := wrap w ((to_signed w x * y) / 2 ^ w).
Definition mulhu_v (w x y : Z) : Z := wrap w ((x * y) / 2 ^ w).

(** Division by zero yields all ones and leaves the dividend as the remainder;
    the overflowing quotient wraps. *)
Definition div_v (w x y : Z) : Z :=
  if y =? 0 then 2 ^ w - 1 else wrap w (Z.quot (to_signed w x) (to_signed w y)).
Definition divu_v (w x y : Z) : Z := if y =? 0 then 2 ^ w - 1 else x / y.
Definition rem_v (w x y : Z) : Z :=
  if y =? 0 then x else wrap w (Z.rem (to_signed w x) (to_signed w y)).
Definition remu_v (w x y : Z) : Z := if y =? 0 then x else x mod y.

Definition isa_M : list isa_entry :=
  [ mkEntry OP_MUL any (opf7 0x33 0 1) fmt_R (r_type mul_v);
    mkEntry OP_MULH any (opf7 0x33 1 1) fmt_R (r_type mulh_v);
    mkEntry OP_MULHSU any (opf7 0x33 2 1) fmt_R (r_type mulhsu_v);
    mkEntry OP_MULHU any (opf7 0x33 3 1) fmt_R (r_type mulhu_v);
    mkEntry OP_DIV any (opf7 0x33 4 1) fmt_R (r_type div_v);
    mkEntry OP_DIVU any (opf7 0x33 5 1) fmt_R (r_type divu_v);
    mkEntry OP_REM any (opf7 0x33 6 1) fmt_R (r_type rem_v);
    mkEntry OP_REMU any (opf7 0x33 7 1) fmt_R (r_type remu_v);
    mkEntry OP_MULW rv64 (opf7 0x3B 0 1) fmt_R (r_type (word_op mul_v));
    mkEntry OP_DIVW rv64 (opf7 0x3B 4 1) fmt_R (r_type (word_op div_v));
    mkEntry OP_DIVUW rv64 (opf7 0x3B 5 1) fmt_R (r_type (word_op divu_v));
    mkEntry OP_REMW rv64 (opf7 0x3B 6 1) fmt_R (r_type (word_op rem_v));
    mkEntry OP_REMUW rv64 (opf7 0x3B 7 1) fmt_R (r_type (word_op remu_v)) ].

(** ** Decoding *)

Lemma decode32_m_table X raw pc :
  decode32_m X raw pc = table_decode X isa_M raw pc.
Proof.
  unfold decode32_m, table_decode. rewrite lookup_at_opcode. autorewrite with fields.
  unfold decoded_of, DecodedInstr.new. generalize (bits raw). intros b.
  case_slice 6 0; [..|default_opcode].
  all: destruct X; cbn [VALUE Z.eqb Pos.eqb andb]; eval_table; case_slice 31 25; case_slice 14 12; done.
Qed.

(** ** Lifting *)

Lemma m_lift_r_refines X raw pc size op f :
  op_ok X op f -> refines X (lift_r (fmt_R raw) op) pc size (r_type f X raw pc size).
Proof. intros Hop. apply refines_write; auto with denotes. Qed.

(** The IR operator computes the specified function. *)
Lemma binary_ok X op f :
  (forall x y, in_reg X x -> in_reg X y -> eval_binary X op x y = Some (f (VALUE X) x y)) ->
  op_ok X (Expr.binary op) f.
Proof. intros H l r fl fr Hl Hr. eapply denotes_binary; [done..|]. intros. by apply H. Qed.

Lemma to_signed_wrap32 x : to_signed 32 (wrap 32 x) = sext 32 x.
Proof. done. Qed.

Lemma sx32_ones X : wrap (VALUE X) (sext 32 (2 ^ 32 - 1)) = 2 ^ VALUE X - 1.
Proof. by destruct X. Qed.

Lemma sx32_of_wrap32 X v : wrap (VALUE X) (sext 32 (wrap 32 v)) = sx32 X v.
Proof. unfold sx32. by rewrite sext_wrap. Qed.

Lemma mulw_ok X : op_ok X Expr.mulw (word_op mul_v).
Proof.
  apply binary_ok. intros. cbn. unfold word_op, mul_v.
  by rewrite wrap_mul_l, wrap_mul_r, sx32_of_wrap32.
Qed.

Lemma divw_ok X : op_ok X Expr.divw (word_op div_v).
Proof.
  apply binary_ok. intros. cbn. unfold word_op, div_v. case_match; [by rewrite sx32_ones|].
  by rewrite sx32_of_wrap32.
Qed.

Lemma divuw_ok X : op_ok X Expr.divuw (word_op divu_v).
Proof.
  apply binary_ok. intros. cbn. unfold word_op, divu_v. case_match; [by rewrite sx32_ones | done].
Qed.

Lemma remw_ok X : op_ok X Expr.remw (word_op rem_v).
Proof.
  apply binary_ok. intros. cbn. unfold word_op, rem_v. case_match; by rewrite sx32_of_wrap32.
Qed.

Lemma remuw_ok X : op_ok X Expr.remuw (word_op remu_v).
Proof.
  apply binary_ok. intros. cbn. unfold word_op, remu_v. case_match; [by rewrite sx32_of_wrap32 | done].
Qed.

(** High halves: the source's shift by the width is the division by [2^w]. *)
Ltac high_half :=
  apply binary_ok; intros; cbn; rewrite Z.shiftr_div_pow2 by (apply Z.lt_le_incl, VALUE_pos); done.

Lemma mulh_ok X : op_ok X Expr.mulh mulh_v.
Proof. high_half. Qed.
Lemma mulhsu_ok X : op_ok X Expr.mulhsu mulhsu_v.
Proof. high_half. Qed.
Lemma mulhu_ok X : op_ok X Expr.mulhu mulhu_v.
Proof. high_half. Qed.

Lemma plain_ok X :
  op_ok X Expr.mul mul_v /\ op_ok X Expr.div div_v /\ op_ok X Expr.divu divu_v /\
  op_ok X Expr.rem rem_v /\ op_ok X Expr.remu remu_v.
Proof. split_and!; by apply binary_ok. Qed.

#[local] Hint Resolve mulw_ok divw_ok divuw_ok remw_ok remuw_ok mulh_ok mulhsu_ok mulhu_ok : lifting.

Lemma lift_m_refines X e raw pc size :
  In e isa_M -> refines X (lift_m (i_args e raw) (i_opid e)) pc size (i_sem e X raw pc size).
Proof.
  pose proof (plain_ok X) as (? & ? & ? & ? & ?).
  intros He. unfold isa_M in He. cbn [In] in He.
  repeat (destruct He as [<-|He]); [..|done].
  all: cbn [i_opid i_args i_sem].
  all: cbn -[lift_r fmt_R r_type]; apply m_lift_r_refines; by auto with lifting.
Qed.
