(* ===== verification/ZbaCorrect.v ===== *)
(** * Zba: specification and correctness *)

From S2P Require Import Prelude Xlen IR IRBuild IRSem IRFacts Isa Ext ZbaExt RiscvSpec Fields.
From S2P Require Import TableDecode LiftFacts BaseLift.
#[local] Open Scope word_scope.

(** ** Specification *)

Definition shadd_v (n w x y : Z) : Z := wrap w (y + x * 2 ^ n).
Definition shadd_uw_v (n w x y : Z) : Z := wrap w (y + wrap 32 x * 2 ^ n).
Definition slli_uw_v (w x y : Z) : Z := wrap w (wrap 32 x * 2 ^ y).

Definition isa_Zba : list isa_entry :=
  [ mkEntry OP_SH1ADD any (opf7 0x33 2 0x10) fmt_R (r_type (shadd_v 1));
    mkEntry OP_SH2ADD any (opf7 0x33 4 0x10) fmt_R (r_type (shadd_v 2));
    mkEntry OP_SH3ADD any (opf7 0x33 6 0x10) fmt_R (r_type (shadd_v 3));
    mkEntry OP_ADD_UW rv64 (opf7 0x3B 0 0x04) fmt_R (r_type (shadd_uw_v 0));
    mkEntry OP_SH1ADD_UW rv64 (opf7 0x3B 2 0x10) fmt_R (r_type (shadd_uw_v 1));
    mkEntry OP_SH2ADD_UW rv64 (opf7 0x3B 4 0x10) fmt_R (r_type (shadd_uw_v 2));
    mkEntry OP_SH3ADD_UW rv64 (opf7 0x3B 6 0x10) fmt_R (r_type (shadd_uw_v 3));
    mkEntry OP_SLLI_UW rv64 (opf6 0x1B 1 0x02) (fmt_shift 6) (shift_type 6 slli_uw_v) ].

(** ** Decoding *)

Lemma decode32_zba_table X raw pc :
  decode32_zba X raw pc = table_decode X isa_Zba raw pc.
Proof.
  unfold decode32_zba, table_decode, OPCODE_OP, OPCODE_OP_32, OPCODE_OP_IMM_32, FUNCT7_SHXADD,
    FUNCT7_ADD_UW, FUNCT6_SLLI_UW.
  rewrite lookup_at_opcode. autorewrite with fields.
  rewrite (decode_shamt 6 raw ltac:(lia) : to_signed 32 (shr raw 20 &ᵇ 0x3F) = _).
  unfold decoded_of, DecodedInstr.new. generalize (bits raw). intros b.
  case_slice 6 0; [..|default_opcode].
  all: destruct X; cbn [VALUE Z.eqb Pos.eqb andb]; eval_table; case_slice 31 25;
    case_slice 31 26; case_slice 14 12; done.
Qed.

(** ** Lifting *)

Section lifting.
Context (X : Xlen) (raw pc size : Z).

(** A shift by a small constant. *)
Lemma denotes_sll_const e f n :
  denotes X e f -> 0 <= n < VALUE X ->
  denotes X (Expr.sll X e (Expr.imm (from_u64 X n))) (fun st => wrap (VALUE X) (f st * 2 ^ n)).
Proof.
  intros He Hn. pose proof (VALUE_le_64 X). eapply denotes_ext.
  - eapply (denotes_sll X e _ f (fun _ => n) He); [apply denotes_small; split; lia | | done].
    intros. cbn. lia.
  - intros. cbn. unfold sll_v. by rewrite Z.mod_small by lia.
Qed.

Lemma small_shift n : 0 <= n <= 3 -> 0 <= n < VALUE X.
Proof. pose proof (VALUE_le_64 X). lia. Qed.

Lemma lift_shxadd_refines n :
  0 <= n <= 3 -> refines X (lift_shxadd X n (fmt_R raw)) pc size (r_type (shadd_v n) X raw pc size).
Proof.
  intros Hn. eapply refines_r_type; [done| |auto with denotes]. eapply denotes_ext.
  - apply denotes_add; [|apply denotes_sll_const; [|by apply small_shift]]; auto with denotes.
  - intros. cbn. unfold shadd_v. by rewrite wrap_add_r.
Qed.

Lemma lift_shxadd_uw_refines n :
  0 <= n <= 3 ->
  refines X (lift_shxadd_uw X n (fmt_R raw)) pc size (r_type (shadd_uw_v n) X raw pc size).
Proof.
  intros Hn. eapply refines_r_type; [done| |auto with denotes]. eapply denotes_ext.
  - apply denotes_add; [|apply denotes_sll_const; [apply denotes_zext32|by apply small_shift]];
      auto with denotes.
  - intros. cbn. unfold shadd_uw_v. by rewrite wrap_add_r.
Qed.

Lemma lift_add_uw_refines :
  refines X (lift_add_uw X (fmt_R raw)) pc size (r_type (shadd_uw_v 0) X raw pc size).
Proof.
  eapply refines_r_type; [done| |auto with denotes]. eapply denotes_ext.
  - apply denotes_add; [|apply denotes_zext32]; auto with denotes.
  - intros. cbn. unfold shadd_uw_v. by rewrite Z.mul_1_r.
Qed.

Lemma lift_slli_uw_refines :
  VALUE X = 64 ->
  refines X (lift_slli_uw X (fmt_shift 6 raw)) pc size (shift_type 6 slli_uw_v X raw pc size).
Proof.
  intros HX. pose proof (f_shamt_range 6 raw ltac:(lia)) as Hs.
  assert (in_u 8 (f_shamt 6 raw)) as H8 by (split; lia).
  eapply refines_shift_type; [| |auto with denotes].
  - unfold lift_slli_uw, fmt_shift, expect_u. by rewrite (proj2 (in_ub_spec _ _) H8).
  - apply denotes_sll_const; [apply denotes_zext32; auto with denotes | lia].
Qed.
End lifting.

Lemma lift_zba_refines X e raw pc size :
  In e isa_Zba -> i_avail e X = true ->
  refines X (lift_zba X (i_args e raw) (i_opid e)) pc size (i_sem e X raw pc size).
Proof.
  intros He Hav. unfold isa_Zba in He. cbn [In] in He.
  repeat (destruct He as [<-|He]); [..|done].
  all: cbn -[lift_shxadd lift_shxadd_uw lift_add_uw lift_slli_uw fmt_R fmt_shift r_type shift_type] in *.
  all: first [ apply lift_shxadd_refines; lia | apply lift_shxadd_uw_refines; lia
             | apply lift_add_uw_refines
             | apply lift_slli_uw_refines; by destruct X ].
Qed.
