(* ===== verification/ZicondCorrect.v ===== *)
(** * Zicond and Zifencei: specification and correctness *)

From S2P Require Import Prelude Xlen IR IRBuild IRSem IRFacts Isa Ext ZicondExt ZifenceiExt.
From S2P Require Import RiscvSpec Fields TableDecode LiftFacts BaseLift.
#[local] Open Scope word_scope.

Definition czero_eqz_v (w x y : Z) : Z := if y =? 0 then 0 else x.
Definition czero_nez_v (w x y : Z) : Z := if y =? 0 then x else 0.

Definition isa_Zicond : list isa_entry :=
  [ mkEntry OP_CZERO_EQZ any (opf7 0x33 5 0x07) fmt_R (r_type czero_eqz_v);
    mkEntry OP_CZERO_NEZ any (opf7 0x33 7 0x07) fmt_R (r_type czero_nez_v) ].

Definition isa_Zifencei : list isa_entry :=
  [ mkEntry OP_FENCE_I any (opc 0x0F 1) fmt_none nop_sem ].

Lemma decode32_zicond_table X raw pc :
  decode32_zicond raw pc = table_decode X isa_Zicond raw pc.
Proof.
  unfold decode32_zicond, table_decode, OPCODE_OP, FUNCT7_ZICOND, FUNCT3_CZERO_EQZ, FUNCT3_CZERO_NEZ.
  rewrite lookup_at_opcode. autorewrite with fields.
  unfold decoded_of, DecodedInstr.new. generalize (bits raw). intros b.
  case_slice 6 0; [..|default_opcode].
  all: eval_table; case_slice 31 25; case_slice 14 12; done.
Qed.

Lemma decode32_zifencei_table X raw pc :
  decode32_zifencei raw pc = table_decode X isa_Zifencei raw pc.
Proof.
  unfold decode32_zifencei, table_decode. rewrite lookup_at_opcode. autorewrite with fields.
  unfold decoded_of, DecodedInstr.new. generalize (bits raw). intros b.
  case_slice 6 0; [..|default_opcode].
  all: eval_table; case_slice 14 12; done.
Qed.

Lemma denotes_zero X : denotes X (Expr.imm (from_u64 X 0)) (fun _ => 0).
Proof. by apply denotes_small. Qed.

Lemma lift_zicond_refines X e raw pc size :
  In e isa_Zicond -> refines X (lift_zicond X (i_args e raw) (i_opid e)) pc size (i_sem e X raw pc size).
Proof.
  intros He. unfold isa_Zicond in He. cbn [In] in He.
  repeat (destruct He as [<-|He]); [..|done]; cbn [i_args i_opid i_sem];
    (eapply refines_r_type; [done| |auto with denotes]; eapply denotes_ext;
     [apply denotes_select; [eapply denotes_binary; [..|done] | |]; auto using denotes_zero with denotes|];
     intros; cbn; unfold czero_eqz_v, czero_nez_v; by destruct (get_reg _ (f_rs2 raw) =? 0)).
Qed.

Lemma lift_zifencei_refines X e raw pc size :
  In e isa_Zifencei -> refines X lift_zifencei pc size (i_sem e X raw pc size).
Proof. intros [<-|[]]. apply refines_nop. Qed.
