(* ===== verification/ZbsCorrect.v ===== *)
(** * Zbs: specification and correctness *)

From S2P Require Import Prelude Xlen IR IRBuild IRSem IRFacts Isa Ext ZbsExt RiscvSpec Fields.
From S2P Require Import TableDecode LiftFacts BaseLift.
#[local] Open Scope word_scope.

(** ** Specification *)

Definition bclr_v (w x y : Z) : Z := Z.clearbit x (y mod w).
Definition bext_v (w x y : Z) : Z := b2z (Z.testbit x (y mod w)).
Definition binv_v (w x y : Z) : Z := Z.lxor x (2 ^ (y mod w)).
Definition bset_v (w x y : Z) : Z := Z.setbit x (y mod w).

Definition isa_Zbs : list isa_entry :=
  [ mkEntry OP_BCLR any (opf7 0x33 1 0x24) fmt_R (r_type bclr_v);
    mkEntry OP_BEXT any (opf7 0x33 5 0x24) fmt_R (r_type bext_v);
    mkEntry OP_BINV any (opf7 0x33 1 0x34) fmt_R (r_type binv_v);
    mkEntry OP_BSET any (opf7 0x33 1 0x14) fmt_R (r_type bset_v);
    mkEntry OP_BCLRI rv32 (opf7 0x13 1 0x24) (fmt_shift 5) (shift_type 5 bclr_v);
    mkEntry OP_BEXTI rv32 (opf7 0x13 5 0x24) (fmt_shift 5) (shift_type 5 bext_v);
    mkEntry OP_BINVI rv32 (opf7 0x13 1 0x34) (fmt_shift 5) (shift_type 5 binv_v);
    mkEntry OP_BSETI rv32 (opf7 0x13 1 0x14) (fmt_shift 5) (shift_type 5 bset_v);
    mkEntry OP_BCLRI rv64 (opf6 0x13 1 0x12) (fmt_shift 6) (shift_type 6 bclr_v);
    mkEntry OP_BEXTI rv64 (opf6 0x13 5 0x12) (fmt_shift 6) (shift_type 6 bext_v);
    mkEntry OP_BINVI rv64 (opf6 0x13 1 0x1A) (fmt_shift 6) (shift_type 6 binv_v);
    mkEntry OP_BSETI rv64 (opf6 0x13 1 0x0A) (fmt_shift 6) (shift_type 6 bset_v) ].

(** ** Decoding *)

Lemma decode32_zbs_table X raw pc :
  decode32_zbs X raw pc = table_decode X isa_Zbs raw pc.
Proof.
  pose proof (bits_bound raw 31 25 128 ltac:(lia) ltac:(done)) as H7.
  unfold decode32_zbs, table_decode, OPCODE_OP, OPCODE_OP_IMM, FUNCT7_BCLR, FUNCT7_BINV, FUNCT7_BSET,
    FUNCT6_BCLRI, FUNCT6_BINVI, FUNCT6_BSETI.
  rewrite lookup_at_opcode. autorewrite with fields. rewrite bits_25_25, bits_31_26.
  pose proof (decode_shamt 6 raw ltac:(lia)) as H6. pose proof (decode_shamt 5 raw ltac:(lia)) as H5.
  change (Z.ones 6) with 0x3F in H6. change (Z.ones 5) with 0x1F in H5.
  pose proof (bits_31_26 raw) as E6.
  unfold decoded_of, DecodedInstr.new. revert H7 E6. generalize (bits raw). intros b H7 E6.
  case_slice 6 0; [..|default_opcode].
  all: destruct X; cbn [VALUE Z.eqb Pos.eqb andb]; eval_table; rewrite ?E6, ?H5, ?H6.
  all: case_slice 14 12; try done; case_slice 31 25; try done.
  all: repeat case_match; try done; exfalso; Z.div_mod_to_equations; lia.
Qed.

(** ** Lifting *)

Lemma clearbit_land w x k :
  0 < w -> in_u w x -> 0 <= k < w -> x &ᵇ wrap w (Z.lnot (wrap w (1 * 2 ^ k))) = Z.clearbit x k.
Proof.
  intros Hw Hx Hk. rewrite Z.mul_1_l, (wrap_id w (2 ^ k)).
  2: { split; [apply Z.lt_le_incl, pow2_pos; lia | apply Z.pow_lt_mono_r; lia]. }
  apply Z.bits_inj'. intros i Hi. rewrite Z.land_spec. unfold wrap.
  destruct (Z.ltb_spec i w).
  - rewrite Z.mod_pow2_bits_low, Z.lnot_spec, Z.pow2_bits_eqb, Z.clearbit_eqb by lia. done.
  - rewrite Z.clearbit_eqb, !(testbit_high w x) by (lia || done). done.
Qed.

Lemma bext_land x k : 0 <= k -> (x / 2 ^ k) &ᵇ 1 = b2z (Z.testbit x k).
Proof.
  intros. change 1 with (Z.ones 1). rewrite Z.land_ones, <- Z.shiftr_div_pow2 by lia.
  change (2 ^ 1) with 2. rewrite <- Z.bit0_mod, Z.shiftr_spec, Z.add_0_l by lia. done.
Qed.

Section lifting.
Context (X : Xlen) (raw pc size : Z).
Abbreviation w := (VALUE X).

(** [1 << index] for an index below the width. *)
Lemma denotes_bit e f :
  denotes X e f -> (forall st, wf_state X st -> f st < w) ->
  denotes X (Expr.sll X (Expr.imm (from_u64 X 1)) e) (fun st => wrap w (1 * 2 ^ f st)).
Proof.
  intros He Hf. eapply denotes_ext.
  - eapply (denotes_sll X _ _ (fun _ => 1) f); [by apply denotes_small | done | done | done].
  - intros. cbn. unfold sll_v. rewrite Z.mod_small; [done|].
    pose proof (denotes_range _ _ _ _ He H) as [? _]. auto.
Qed.

(** The four operations, for any expression of the index. *)
Section index.
Context (e : Expr) (k : state -> Z).
Hypotheses (He : denotes X e k) (Hk : forall st, wf_state X st -> k st < w).
Abbreviation x := (fun st => get_reg st (f_rs1 raw)).
Abbreviation src := (Expr.reg (f_rs1 raw)).

Lemma index_range st : wf_state X st -> 0 <= k st < w.
Proof. intros Hst. pose proof (denotes_range _ _ _ _ He Hst) as [? _]. auto. Qed.

Lemma denotes_src : denotes X src x.
Proof. apply denotes_read, f_rs1_range. Qed.

Lemma pow2_in_reg st : wf_state X st -> wrap w (1 * 2 ^ k st) = 2 ^ k st.
Proof.
  intros Hst. pose proof (index_range st Hst). rewrite Z.mul_1_l. apply wrap_id.
  split; [apply Z.lt_le_incl, pow2_pos; lia | apply Z.pow_lt_mono_r; lia].
Qed.

Lemma denotes_bclr :
  denotes X (Expr.and X src (Expr.not (Expr.sll X (Expr.imm (from_u64 X 1)) e)))
    (fun st => bclr_v w (x st) (k st)).
Proof.
  eapply denotes_ext.
  - apply denotes_and; [apply denotes_src | by apply denotes_unary, denotes_bit].
  - intros st Hst. pose proof (index_range st Hst). cbn. unfold bclr_v.
    rewrite Z.mod_small by done. apply clearbit_land; [apply VALUE_pos | by apply get_reg_range | done].
Qed.

Lemma denotes_bext :
  denotes X (Expr.and X (Expr.srl X src e) (Expr.imm (from_u64 X 1)))
    (fun st => bext_v w (x st) (k st)).
Proof.
  eapply denotes_ext.
  - apply denotes_and; [eapply (denotes_srl X src e x k denotes_src He w Hk eq_refl) | by apply denotes_small].
  - intros st Hst. pose proof (index_range st Hst). cbn. unfold bext_v, srl_v.
    rewrite !Z.mod_small by done. apply bext_land. lia.
Qed.

Lemma denotes_binv :
  denotes X (Expr.xor X src (Expr.sll X (Expr.imm (from_u64 X 1)) e))
    (fun st => binv_v w (x st) (k st)).
Proof.
  eapply denotes_ext.
  - apply denotes_xor; [apply denotes_src | by apply denotes_bit].
  - intros st Hst. pose proof (index_range st Hst). cbn -[Z.mul]. unfold binv_v.
    by rewrite pow2_in_reg, Z.mod_small.
Qed.

Lemma denotes_bset :
  denotes X (Expr.or X src (Expr.sll X (Expr.imm (from_u64 X 1)) e))
    (fun st => bset_v w (x st) (k st)).
Proof.
  eapply denotes_ext.
  - apply denotes_or; [apply denotes_src | by apply denotes_bit].
  - intros st Hst. pose proof (index_range st Hst). cbn -[Z.mul]. unfold bset_v, Z.setbit.
    by rewrite pow2_in_reg, Z.shiftl_1_l, Z.mod_small.
Qed.
End index.

(** Register forms mask the index; immediate forms carry it. *)
Lemma zbs_reg l g f :
  (forall e k, denotes X e k -> (forall st, wf_state X st -> k st < w) ->
     denotes X (g e) (fun st => f w (get_reg st (f_rs1 raw)) (k st))) ->
  (forall x y, f w x (y mod w) = f w x y) ->
  l = Ok ([Stmt.write_reg (f_rd raw)
             (g (Expr.and X (Expr.reg (f_rs2 raw)) (Expr.imm (from_u64 X (w - 1)))))], Fall None) ->
  refines X l pc size (r_type f X raw pc size).
Proof.
  intros Hg Hf Hl. eapply refines_r_type; [exact Hl| |auto with denotes].
  eapply denotes_ext.
  - apply Hg; [apply masked_width, f_rs2_range|]. intros. apply Z.mod_pos_bound, VALUE_pos.
  - intros. apply Hf.
Qed.

Lemma zbs_imm n l g f :
  (forall e k, denotes X e k -> (forall st, wf_state X st -> k st < w) ->
     denotes X (g e) (fun st => f w (get_reg st (f_rs1 raw)) (k st))) ->
  0 < n <= 6 -> 2 ^ n = w ->
  l = (shamt ← expect_u 8 (f_shamt n raw);
       Ok ([Stmt.write_reg (f_rd raw) (g (Expr.imm (from_u64 X shamt)))], Fall None)) ->
  refines X l pc size (shift_type n f X raw pc size).
Proof.
  intros Hg Hn HX Hl. pose proof (f_shamt_range n raw ltac:(lia)) as Hs.
  pose proof (VALUE_le_64 X).
  assert (in_u 8 (f_shamt n raw)) as H8 by (split; lia).
  unfold expect_u in Hl. rewrite (proj2 (in_ub_spec _ _) H8) in Hl.
  eapply refines_shift_type; [exact Hl| |auto with denotes].
  apply (Hg _ (fun _ => f_shamt n raw)); [apply denotes_small; split; lia|]. intros. lia.
Qed.
End lifting.

Ltac zbs_mod :=
  intros; unfold bclr_v, bext_v, binv_v, bset_v; rewrite Z.mod_mod; [done|];
  apply Z.neq_sym, Z.lt_neq, VALUE_pos.

Lemma lift_zbs_refines X e raw pc size :
  In e isa_Zbs -> i_avail e X = true ->
  refines X (lift_zbs X (i_args e raw) (i_opid e)) pc size (i_sem e X raw pc size).
Proof.
  intros He Hav. unfold isa_Zbs in He. cbn [In] in He.
  pose proof (denotes_bclr X raw) as B1. pose proof (denotes_bext X raw) as B2.
  pose proof (denotes_binv X raw) as B3. pose proof (denotes_bset X raw) as B4.
  repeat (destruct He as [<-|He]); [..|done]; cbn [i_avail i_args i_opid i_sem] in *.
  all: first [ eapply (zbs_reg X raw pc size); [first [exact B1|exact B2|exact B3|exact B4] | zbs_mod | done]
             | destruct X; try done;
               (eapply zbs_imm; [first [exact B1|exact B2|exact B3|exact B4] | lia | done | done]) ].
Qed.
