(* ===== verification/ZbkbCorrect.v ===== *)
(** * Zbkb: specification and correctness *)

From S2P Require Import Prelude Xlen IR IRBuild IRSem IRFacts Isa Ext ZbkbExt RiscvSpec Fields.
From S2P Require Import TableDecode LiftFacts BaseLift.
#[local] Open Scope word_scope.

(** ** Specification *)

(** Concatenate the low halves (bytes, 16-bit halves) of the two registers. *)
Definition pack_v (w x y : Z) : Z := wrap (w / 2) x + wrap (w / 2) y * 2 ^ (w / 2).
Definition packh_v (w x y : Z) : Z := wrap 8 x + wrap 8 y * 2 ^ 8.
Definition packw_v (w x y : Z) : Z := wrap w (sext 32 (pack_v 32 x y)).

Definition isa_Zbkb : list isa_entry :=
  [ mkEntry OP_PACK any (opf7 0x33 4 0x04) fmt_R (r_type pack_v);
    mkEntry OP_PACKH any (opf7 0x33 7 0x04) fmt_R (r_type packh_v);
    mkEntry OP_PACKW rv64 (opf7 0x3B 4 0x04) fmt_R (r_type packw_v);
    mkEntry OP_BREV8 any (opf12 0x13 5 0x687) fmt_unary (unary_type brev8);
    mkEntry OP_ZIP rv32 (opf12 0x13 1 0x08F) fmt_unary (unary_type zip);
    mkEntry OP_UNZIP rv32 (opf12 0x13 5 0x08F) fmt_unary (unary_type unzip) ].

(** ** Decoding *)

Lemma decode32_zbkb_table X raw pc :
  decode32_zbkb X raw pc = table_decode X isa_Zbkb raw pc.
Proof.
  unfold decode32_zbkb, table_decode, OPCODE_OP, OPCODE_OP_IMM, OPCODE_OP_32, FUNCT7_PACK, FUNCT3_PACK,
    FUNCT3_PACKH, IMM_BREV8, IMM_ZIP, IMM_UNZIP.
  rewrite lookup_at_opcode. autorewrite with fields.
  unfold decoded_of, DecodedInstr.new. generalize (bits raw). intros b.
  case_slice 6 0; [..|default_opcode].
  all: destruct X; cbn [VALUE Z.eqb Pos.eqb andb]; eval_table.
  all: case_slice 31 25; case_slice 14 12; case_slice 31 20; done.
Qed.

(** ** Lifting *)

(** Concatenation by shift-and-or is addition. *)
Lemma pack_lor h x y :
  0 <= h -> Z.lor (wrap h x) (Z.shiftl (wrap h y) h) = wrap h x + wrap h y * 2 ^ h.
Proof.
  intros Hh. rewrite Z.lor_comm, Z.shiftl_mul_pow2 by done.
  rewrite (lor_disjoint h); [lia | done | | by apply wrap_range].
  apply mod_mul_pow2. lia.
Qed.

Lemma zbkb_pack_ok X :
  op_ok X Expr.pack pack_v /\ op_ok X Expr.pack8 packh_v /\ op_ok X Expr.pack16 packw_v.
Proof.
  split_and!; intros l r fl fr Hl Hr; (eapply denotes_binary; [done..|]; intros; cbn -[Z.div]; f_equal).
  - apply pack_lor. by destruct X.
  - by apply (pack_lor 8).
  - unfold sx32, packw_v. do 2 f_equal. by apply (pack_lor 16).
Qed.

Lemma zbkb_unary_refines X raw pc size op f :
  (forall x, in_reg X x -> eval_unary X op x = f (VALUE X) x) ->
  refines X (lift_unary (Expr.unary op) (fmt_unary raw)) pc size (unary_type f X raw pc size).
Proof.
  intros H. eapply refines_unary_type; [done| |auto with denotes].
  eapply denotes_ext; [apply denotes_unary, denotes_read, f_rs1_range|].
  intros. by apply H, get_reg_range.
Qed.

Lemma lift_zbkb_refines X e raw pc size :
  In e isa_Zbkb -> i_avail e X = true ->
  refines X (lift_zbkb (i_args e raw) (i_opid e)) pc size (i_sem e X raw pc size).
Proof.
  intros He Hav. unfold isa_Zbkb in He. cbn [In] in He.
  destruct (zbkb_pack_ok X) as (H1 & H2 & H3).
  repeat (destruct He as [<-|He]); [..|done]; cbn [i_avail i_args i_opid i_sem] in *.
  1-3: eapply refines_r_type; [done| |auto with denotes];
       first [apply H1 | apply H2 | apply H3]; auto with denotes.
  - by apply (zbkb_unary_refines X raw pc size Brev8).
  - destruct X; [|done]. apply (zbkb_unary_refines Rv32 raw pc size Zip).
    intros x Hx. cbn. by rewrite wrap_id.
  - destruct X; [|done]. apply (zbkb_unary_refines Rv32 raw pc size Unzip).
    intros x Hx. cbn. by rewrite wrap_id.
Qed.
