(* ===== verification/ZbbCorrect.v ===== *)
(** * Zbb: specification and correctness *)

From S2P Require Import Prelude Xlen IR IRBuild IRSem IRFacts Isa Ext ZbbExt RiscvSpec Fields.
From S2P Require Import TableDecode LiftFacts BaseLift.
#[local] Open Scope word_scope.

(** ** Specification *)

Definition orn_v (w x y : Z) : Z := wrap w (Z.lor x (Z.lnot y)).
Definition xnor_v (w x y : Z) : Z := wrap w (Z.lnot (Z.lxor x y)).
Definition max_v (w x y : Z) : Z := if to_signed w x <? to_signed w y then y else x.
Definition min_v (w x y : Z) : Z := if to_signed w x <? to_signed w y then x else y.
Definition maxu_v (w x y : Z) : Z := Z.max x y.
Definition minu_v (w x y : Z) : Z := Z.min x y.

(** Rotation: the part that stays in the word and the part that wraps around. *)
Definition rol_v (w x y : Z) : Z :=
  let k := y mod w in wrap w (x * 2 ^ k) + x / 2 ^ (w - k).
Definition ror_v (w x y : Z) : Z :=
  let k := y mod w in x / 2 ^ k + wrap w (x * 2 ^ (w - k)).

Definition isa_Zbb : list isa_entry :=
  [ mkEntry OP_ANDN any (opf7 0x33 7 0x20) fmt_R (r_type (fun _ => Z.ldiff));
    mkEntry OP_ORN any (opf7 0x33 6 0x20) fmt_R (r_type orn_v);
    mkEntry OP_XNOR any (opf7 0x33 4 0x20) fmt_R (r_type xnor_v);
    mkEntry OP_MIN any (opf7 0x33 4 0x05) fmt_R (r_type min_v);
    mkEntry OP_MINU any (opf7 0x33 5 0x05) fmt_R (r_type minu_v);
    mkEntry OP_MAX any (opf7 0x33 6 0x05) fmt_R (r_type max_v);
    mkEntry OP_MAXU any (opf7 0x33 7 0x05) fmt_R (r_type maxu_v);
    mkEntry OP_ROL any (opf7 0x33 1 0x30) fmt_R (r_type rol_v);
    mkEntry OP_ROR any (opf7 0x33 5 0x30) fmt_R (r_type ror_v);
    mkEntry OP_ZEXT_H rv32 (opf12 0x33 4 0x080) fmt_unary (unary_type (fun _ => wrap 16));
    mkEntry OP_ZEXT_H rv64 (opf12 0x3B 4 0x080) fmt_unary (unary_type (fun _ => wrap 16));
    mkEntry OP_CLZ any (opf12 0x13 1 0x600) fmt_unary (unary_type clz);
    mkEntry OP_CTZ any (opf12 0x13 1 0x601) fmt_unary (unary_type ctz);
    mkEntry OP_CPOP any (opf12 0x13 1 0x602) fmt_unary (unary_type cpop);
    mkEntry OP_SEXT_B any (opf12 0x13 1 0x604) fmt_unary (unary_type (fun w x => wrap w (sext 8 x)));
    mkEntry OP_SEXT_H any (opf12 0x13 1 0x605) fmt_unary (unary_type (fun w x => wrap w (sext 16 x)));
    mkEntry OP_ORC_B any (opf12 0x13 5 0x287) fmt_unary (unary_type orc8);
    mkEntry OP_REV8 rv32 (opf12 0x13 5 0x698) fmt_unary (unary_type rev8);
    mkEntry OP_REV8 rv64 (opf12 0x13 5 0x6B8) fmt_unary (unary_type rev8);
    mkEntry OP_RORI rv32 (opf7 0x13 5 0x30) (fmt_shift 5) (shift_type 5 ror_v);
    mkEntry OP_RORI rv64 (opf6 0x13 5 0x18) (fmt_shift 6) (shift_type 6 ror_v);
    mkEntry OP_CLZW rv64 (opf12 0x1B 1 0x600) fmt_unary (unary_type (fun _ x => clz 32 (wrap 32 x)));
    mkEntry OP_CTZW rv64 (opf12 0x1B 1 0x601) fmt_unary (unary_type (fun _ x => ctz 32 (wrap 32 x)));
    mkEntry OP_CPOPW rv64 (opf12 0x1B 1 0x602) fmt_unary (unary_type (fun _ x => cpop 32 (wrap 32 x)));
    mkEntry OP_ROLW rv64 (opf7 0x3B 1 0x30) fmt_R (r_type (word_op rol_v));
    mkEntry OP_RORW rv64 (opf7 0x3B 5 0x30) fmt_R (r_type (word_op ror_v));
    mkEntry OP_RORIW rv64 (opf7 0x1B 5 0x30) (fmt_shift 5) (shift_type 5 (word_op ror_v)) ].

(** ** Decoding *)

Lemma decode32_zbb_table X raw pc :
  decode32_zbb X raw pc = table_decode X isa_Zbb raw pc.
Proof.
  pose proof (bits_bound raw 31 20 4096 ltac:(lia) ltac:(done)) as H12.
  unfold decode32_zbb, table_decode, decode_op_rtype, decode_op_imm, decode_op_32, decode_op_imm_32,
    OPCODE_OP, OPCODE_OP_IMM, OPCODE_OP_32, OPCODE_OP_IMM_32, FUNCT7_ANDN_ORN_XNOR, FUNCT7_MINMAX,
    FUNCT7_ROL_ROR, FUNCT7_ZEXT_H, IMM_CLZ, IMM_CTZ, IMM_CPOP, IMM_SEXT_B, IMM_SEXT_H, IMM_ORC_B,
    IMM_REV8_32, IMM_REV8_64.
  rewrite lookup_at_opcode. autorewrite with fields.
  rewrite (decode_shamt 6 raw ltac:(lia) : to_signed 32 (shr raw 20 &ᵇ 0x3F) = _),
    (decode_shamt 5 raw ltac:(lia) : to_signed 32 (shr raw 20 &ᵇ 0x1F) = _),
    (land_bits raw 20 5 ltac:(lia) ltac:(lia) : shr raw 20 &ᵇ 0x1F = bits raw 24 20).
  change (f_rs2 raw =? 0) with (bits raw 24 20 =? 0).
  pose proof (bits_31_26 raw) as H6. pose proof (bits_25_25 raw) as H25.
  pose proof (bits_31_25_high raw) as H7. pose proof (bits_24_20_high raw) as Hrs2.
  unfold decoded_of, DecodedInstr.new. revert H12 H6 H25 H7 Hrs2. generalize (bits raw). intros b. intros.
  case_slice 6 0; [..|default_opcode].
  all: destruct X; cbn [VALUE Z.eqb Pos.eqb andb]; eval_table.
  all: case_slice 14 12; try done.
  all: rewrite ?H25, ?H6, ?H7, ?Hrs2; case_slice 31 20; try done.
  all: repeat case_match; try done; exfalso; Z.div_mod_to_equations; lia.
Qed.

(** ** Bit-level facts *)

Lemma ldiff_land w x y : 0 < w -> in_u w x -> x &ᵇ wrap w (Z.lnot y) = Z.ldiff x y.
Proof.
  intros Hw Hx. apply Z.bits_inj'. intros i Hi. rewrite Z.land_spec, Z.ldiff_spec. unfold wrap.
  destruct (Z.ltb_spec i w).
  - by rewrite Z.mod_pow2_bits_low, Z.lnot_spec by lia.
  - by rewrite (testbit_high w x) by (lia || done).
Qed.

Lemma wrap_lor w x y : 0 <= w -> wrap w (Z.lor x y) = Z.lor (wrap w x) (wrap w y).
Proof. intros. unfold wrap. rewrite <- !Z.land_ones by done. apply Z.land_lor_distr_l. Qed.

Lemma orn_wrap w x y : 0 <= w -> in_u w x -> Z.lor x (wrap w (Z.lnot y)) = orn_v w x y.
Proof. intros Hw Hx. unfold orn_v. by rewrite wrap_lor, (wrap_id w x). Qed.

Section rotation.
Context (h x k : Z).
Hypotheses (Hh : 0 < h) (Hx : in_u h x) (Hk : 0 <= k < h).

Lemma div_pow2_bound n : 0 <= n <= h -> 0 <= x / 2 ^ n < 2 ^ (h - n).
Proof.
  intros Hn. destruct Hx as [H0 H1]. pose proof (pow2_pos n).
  split; [apply Z.div_pos; lia|]. apply Z.div_lt_upper_bound; [lia|].
  rewrite <- Z.pow_add_r by lia. by replace (n + (h - n)) with h by lia.
Qed.

Lemma mul_pow2_low n m : 0 <= m <= n -> n <= h -> wrap h (x * 2 ^ n) mod 2 ^ m = 0.
Proof.
  intros. change (_ mod 2 ^ m) with (wrap m (wrap h (x * 2 ^ n))).
  rewrite wrap_wrap_le by lia. apply mod_mul_pow2. lia.
Qed.

Lemma div_pow2_full : x / 2 ^ h = 0.
Proof. apply Z.div_small, Hx. Qed.

Lemma mul_pow2_full : wrap h (x * 2 ^ h) = 0.
Proof. apply (mod_mul_pow2 x h h). lia. Qed.

(** The two halves of a rotation occupy disjoint bits, so their disjunction is
    their sum; the amount [0] is special because its complement is [0] too. *)
Lemma rol_lor :
  Z.lor (wrap h (x * 2 ^ k)) (x / 2 ^ ((h - k) mod h)) = wrap h (x * 2 ^ k) + x / 2 ^ (h - k).
Proof.
  destruct (Z.eq_dec k 0) as [->|Hk0].
  - rewrite Z.sub_0_r, Z_mod_same_full, div_pow2_full, !Z.mul_1_r, Z.div_1_r, wrap_id by done.
    rewrite Z.lor_diag. lia.
  - rewrite (Z.mod_small (h - k)) by lia. apply (lor_disjoint k); [lia | apply mul_pow2_low; lia |].
    pose proof (div_pow2_bound (h - k)). by replace (h - (h - k)) with k in * by lia; auto with lia.
Qed.

Lemma ror_lor :
  Z.lor (x / 2 ^ k) (wrap h (x * 2 ^ ((h - k) mod h))) = x / 2 ^ k + wrap h (x * 2 ^ (h - k)).
Proof.
  destruct (Z.eq_dec k 0) as [->|Hk0].
  - rewrite Z.sub_0_r, Z_mod_same_full, mul_pow2_full, !Z.mul_1_r, Z.div_1_r, wrap_id by done.
    rewrite Z.lor_diag. lia.
  - rewrite (Z.mod_small (h - k)) by lia. rewrite Z.lor_comm, Z.add_comm.
    apply (lor_disjoint (h - k)); [lia | apply mul_pow2_low; lia | apply div_pow2_bound; lia].
Qed.
End rotation.

Lemma complement_mod h y : 0 < h -> (h - y) mod h = (h - y mod h) mod h.
Proof. intros. by rewrite Zminus_mod_idemp_r. Qed.

(** ** Lifting *)

Lemma masked_complement X n r :
  0 < n <= 6 -> in_u 5 r ->
  denotes X (Expr.and X (Expr.sub X (Expr.imm (from_u64 X (2 ^ n))) (Expr.reg r))
               (Expr.imm (from_u64 X (2 ^ n - 1))))
    (fun st => (2 ^ n - get_reg st r) mod 2 ^ n).
Proof.
  intros Hn Hr. assert (2 ^ n <= 2 ^ 6) by (apply Z.pow_le_mono_r; lia).
  pose proof (pow2_pos n). pose proof (VALUE_le_64 X).
  eapply denotes_ext.
  - apply denotes_and; [apply denotes_sub; [|by apply denotes_read]|]; apply denotes_small; split; lia.
  - intros. cbn. replace (2 ^ n - 1) with (Z.ones n) by (rewrite Z.ones_equiv; lia).
    rewrite Z.land_ones by lia. apply (wrap_wrap_le n (VALUE X)). lia.
Qed.

Section lifting.
Context (X : Xlen) (raw pc size : Z).
Abbreviation w := (VALUE X).

(** The two shifted copies of [val], for amounts below the width. *)
Section halves.
Context (val s c : Expr) (x ks kc : state -> Z).
Hypotheses (Hv : denotes X val x) (Hs : denotes X s ks) (Hc : denotes X c kc).
Hypotheses (Bs : forall st, wf_state X st -> ks st < w) (Bc : forall st, wf_state X st -> kc st < w).

Lemma amount_range e k st : denotes X e k -> wf_state X st -> k st < w -> k st mod w = k st.
Proof.
  intros He Hst Hk. pose proof (denotes_range _ _ _ _ He Hst) as [? _]. apply Z.mod_small. lia.
Qed.

Lemma denotes_rol :
  denotes X (Expr.or X (Expr.sll X val s) (Expr.srl X val c))
    (fun st => Z.lor (wrap w (x st * 2 ^ ks st)) (x st / 2 ^ kc st)).
Proof.
  eapply denotes_ext.
  - apply denotes_or; [by eapply denotes_sll | by eapply denotes_srl].
  - intros. cbn. unfold sll_v, srl_v. by rewrite (amount_range s ks), (amount_range c kc) by auto.
Qed.

Lemma denotes_ror :
  denotes X (Expr.or X (Expr.srl X val s) (Expr.sll X val c))
    (fun st => Z.lor (x st / 2 ^ ks st) (wrap w (x st * 2 ^ kc st))).
Proof.
  eapply denotes_ext.
  - apply denotes_or; [by eapply denotes_srl | by eapply denotes_sll].
  - intros. cbn. unfold sll_v, srl_v. by rewrite (amount_range s ks), (amount_range c kc) by auto.
Qed.
End halves.
End lifting.

Lemma masked_complement_width X r :
  in_u 5 r ->
  denotes X (Expr.and X (Expr.sub X (Expr.imm (from_u64 X (VALUE X))) (Expr.reg r))
               (Expr.imm (from_u64 X (VALUE X - 1))))
    (fun st => (VALUE X - get_reg st r) mod VALUE X).
Proof.
  intros. destruct X; [apply (masked_complement Rv32 5) | apply (masked_complement Rv64 6)]; done || lia.
Qed.

(** The low word of a rotation carried out in a wider register. *)
Lemma low_word_lor X a b : sx32 X (Z.lor a b) = sx32 X (Z.lor (wrap 32 a) (wrap 32 b)).
Proof. by rewrite <- wrap_lor, sx32_wrap by lia. Qed.

Lemma wrap32_mod32 y : wrap 32 y mod 32 = y mod 32.
Proof. apply (wrap_wrap_le 5 32). lia. Qed.

Lemma rolw_low X x y k :
  k = y mod 32 ->
  sx32 X (Z.lor (wrap (VALUE X) (wrap 32 x * 2 ^ k)) (wrap 32 x / 2 ^ ((32 - y) mod 32)))
  = word_op rol_v (VALUE X) x y.
Proof.
  intros ->. pose proof (wrap_range 32 x ltac:(lia)) as Hx.
  pose proof (Z.mod_pos_bound y 32 ltac:(lia)) as Hy. pose proof (VALUE_le_64 X).
  unfold word_op, rol_v. rewrite wrap32_mod32, <- rol_lor, low_word_lor by (done || lia).
  rewrite (wrap_wrap_le 32) by lia. rewrite complement_mod by lia.
  pose proof (Z.mod_pos_bound (32 - y mod 32) 32 ltac:(lia)).
  rewrite (wrap_id 32 (_ / _)); [done|].
  pose proof (div_pow2_bound 32 (wrap 32 x) Hx ((32 - y mod 32) mod 32) ltac:(lia)) as [? Hb].
  split; [done|]. eapply Z.lt_le_trans; [exact Hb|]. apply Z.pow_le_mono_r; lia.
Qed.

Lemma rorw_low X x y k c :
  k = y mod 32 -> c = (32 - y) mod 32 ->
  sx32 X (Z.lor (wrap 32 x / 2 ^ k) (wrap (VALUE X) (wrap 32 x * 2 ^ c)))
  = word_op ror_v (VALUE X) x y.
Proof.
  intros -> ->. pose proof (wrap_range 32 x ltac:(lia)) as Hx.
  pose proof (Z.mod_pos_bound y 32 ltac:(lia)) as Hy. pose proof (VALUE_le_64 X).
  unfold word_op, ror_v. rewrite wrap32_mod32, <- ror_lor, low_word_lor by (done || lia).
  rewrite (wrap_wrap_le 32) by lia. rewrite complement_mod by lia.
  rewrite (wrap_id 32 (_ / _)); [done|].
  pose proof (div_pow2_bound 32 (wrap 32 x) Hx (y mod 32) ltac:(lia)) as [? Hb].
  split; [done|]. eapply Z.lt_le_trans; [exact Hb|]. apply Z.pow_le_mono_r; lia.
Qed.

Ltac rotation_side :=
  first [apply VALUE_pos | by apply get_reg_range | apply Z.mod_pos_bound, VALUE_pos | lia].

Section rotations.
Context (X : Xlen) (raw pc size : Z).
Abbreviation w := (VALUE X).
Abbreviation src := (denotes_read X (f_rs1 raw) (f_rs1_range raw)).

Lemma mod_w_bound k : k mod w < w.
Proof. apply Z.mod_pos_bound, VALUE_pos. Qed.

Lemma mod_32_bound k : k mod 32 < w.
Proof.
  pose proof (Z.mod_pos_bound k 32 ltac:(lia)). pose proof (VALUE_le_64 X). lia.
Qed.

Lemma lift_rol_refines : refines X (lift_rol X (fmt_R raw)) pc size (r_type rol_v X raw pc size).
Proof.
  eapply refines_r_type; [done| |auto with denotes]. eapply denotes_ext.
  - apply (denotes_rol X _ _ _ _ _ _ src (masked_width X _ (f_rs2_range raw))
      (masked_complement_width X _ (f_rs2_range raw))); intros; apply mod_w_bound.
  - intros st Hst. cbn. rewrite complement_mod by apply VALUE_pos.
    apply rol_lor; rotation_side.
Qed.

Lemma lift_ror_refines : refines X (lift_ror X (fmt_R raw)) pc size (r_type ror_v X raw pc size).
Proof.
  eapply refines_r_type; [done| |auto with denotes]. eapply denotes_ext.
  - apply (denotes_ror X _ _ _ _ _ _ src (masked_width X _ (f_rs2_range raw))
      (masked_complement_width X _ (f_rs2_range raw))); intros; apply mod_w_bound.
  - intros st Hst. cbn. rewrite complement_mod by apply VALUE_pos.
    apply ror_lor; rotation_side.
Qed.

Lemma lift_rolw_refines :
  refines X (lift_rolw X (fmt_R raw)) pc size (r_type (word_op rol_v) X raw pc size).
Proof.
  eapply refines_r_type; [done| |auto with denotes]. eapply denotes_ext.
  - apply denotes_sext32, (denotes_rol X _ _ _ _ _ _ (denotes_zext32 _ _ _ src)
      (masked_amount X 5 _ ltac:(lia) (f_rs2_range raw))
      (masked_complement X 5 _ ltac:(lia) (f_rs2_range raw))); intros; apply mod_32_bound.
  - intros st Hst. cbn. by apply rolw_low.
Qed.

Lemma lift_rorw_refines :
  refines X (lift_rorw X (fmt_R raw)) pc size (r_type (word_op ror_v) X raw pc size).
Proof.
  eapply refines_r_type; [done| |auto with denotes]. eapply denotes_ext.
  - apply denotes_sext32, (denotes_ror X _ _ _ _ _ _ (denotes_zext32 _ _ _ src)
      (masked_amount X 5 _ ltac:(lia) (f_rs2_range raw))
      (masked_complement X 5 _ ltac:(lia) (f_rs2_range raw))); intros; apply mod_32_bound.
  - intros st Hst. cbn. by apply rorw_low.
Qed.

(** Immediate amounts: the complement is computed by the lifter. *)
Lemma imm_complement n s :
  0 < n <= 6 -> 0 <= s < 2 ^ n ->
  sub_u 64 (2 ^ n) s = Ok (2 ^ n - s) /\ (2 ^ n - s) &ᵇ (2 ^ n - 1) = (2 ^ n - s) mod 2 ^ n.
Proof.
  intros Hn Hs. assert (2 ^ n <= 2 ^ 6) by (apply Z.pow_le_mono_r; lia). split.
  - unfold sub_u. by rewrite (proj2 (in_ub_spec 64 (2 ^ n - s))) by (split; lia).
  - replace (2 ^ n - 1) with (Z.ones n) by (rewrite Z.ones_equiv; lia). apply Z.land_ones. lia.
Qed.

Lemma lift_rori_refines n :
  0 < n <= 6 -> w = 2 ^ n ->
  refines X (lift_rori X (fmt_shift n raw)) pc size (shift_type n ror_v X raw pc size).
Proof.
  intros Hn HX. pose proof (f_shamt_range n raw ltac:(lia)) as Hs. pose proof (VALUE_le_64 X).
  destruct (imm_complement n (f_shamt n raw) Hn Hs) as [E1 E2]. rewrite <- HX in *.
  pose proof (Z.mod_pos_bound (w - f_shamt n raw) w ltac:(lia)).
  assert (in_u 8 (f_shamt n raw)) as H8 by (split; lia).
  eapply refines_shift_type; [| |auto with denotes].
  - unfold lift_rori, fmt_shift, expect_u. rewrite (proj2 (in_ub_spec _ _) H8). cbn.
    rewrite E1. cbn. rewrite E2. done.
  - eapply denotes_ext.
    + apply (denotes_ror X _ _ _ _ (fun _ => f_shamt n raw) (fun _ => (w - f_shamt n raw) mod w) src);
        [apply denotes_small; split; lia | apply denotes_small; split; lia | intros; lia | intros; lia].
    + intros st Hst. cbn. unfold ror_v. rewrite (Z.mod_small (f_shamt n raw)) by lia.
      apply ror_lor; rotation_side.
Qed.

Lemma lift_roriw_refines :
  refines X (lift_roriw X (fmt_shift 5 raw)) pc size (shift_type 5 (word_op ror_v) X raw pc size).
Proof.
  pose proof (f_shamt_range 5 raw ltac:(lia)) as Hs. pose proof (VALUE_le_64 X).
  destruct (imm_complement 5 (f_shamt 5 raw) ltac:(lia) Hs) as [E1 E2]. change (2 ^ 5) with 32 in *.
  pose proof (Z.mod_pos_bound (32 - f_shamt 5 raw) 32 ltac:(lia)).
  assert (in_u 8 (f_shamt 5 raw)) as H8 by (split; lia).
  eapply refines_shift_type; [| |auto with denotes].
  - unfold lift_roriw, fmt_shift, expect_u. rewrite (proj2 (in_ub_spec _ _) H8). cbn.
    rewrite E1. cbn. change 31 with (32 - 1). rewrite E2. done.
  - eapply denotes_ext.
    + apply denotes_sext32, (denotes_ror X _ _ _ _ (fun _ => f_shamt 5 raw)
        (fun _ => (32 - f_shamt 5 raw) mod 32) (denotes_zext32 _ _ _ src));
        [apply denotes_small; split; lia | apply denotes_small; split; lia | intros; lia | intros; lia].
    + intros st Hst. cbn. apply rorw_low; [by rewrite Z.mod_small by lia | done].
Qed.
End rotations.

Lemma b2z_eqb0 b : (b2z b =? 0) = negb b.
Proof. by destruct b. Qed.

Section logic.
Context (X : Xlen) (raw pc size : Z).

Lemma andn_ok : op_ok X (fun l r => Expr.and X l (Expr.not r)) (fun _ => Z.ldiff).
Proof.
  intros l r f g Hl Hr. eapply denotes_ext; [apply denotes_and; [done | by apply denotes_unary]|].
  intros. apply ldiff_land; [apply VALUE_pos | by eapply denotes_range].
Qed.

Lemma orn_ok : op_ok X (fun l r => Expr.or X l (Expr.not r)) orn_v.
Proof.
  intros l r f g Hl Hr. eapply denotes_ext; [apply denotes_or; [done | by apply denotes_unary]|].
  intros. apply orn_wrap; [apply Z.lt_le_incl, VALUE_pos | by eapply denotes_range].
Qed.

Lemma xnor_ok : op_ok X (fun l r => Expr.not (Expr.xor X l r)) xnor_v.
Proof.
  intros l r f g Hl Hr. eapply denotes_ext; [by apply (denotes_unary X Not), denotes_xor | done].
Qed.

Lemma max_ok : op_ok X Expr.max max_v.
Proof.
  intros l r f g Hl Hr. eapply denotes_ext; [apply denotes_select; [by apply denotes_lt|done|done]|].
  intros. cbn. unfold slt_v, max_v. rewrite b2z_eqb0. by destruct (_ <? _).
Qed.

Lemma min_ok : op_ok X Expr.min min_v.
Proof.
  intros l r f g Hl Hr. eapply denotes_ext; [apply denotes_select; [by apply denotes_lt|done|done]|].
  intros. cbn. unfold slt_v, min_v. rewrite b2z_eqb0. by destruct (_ <? _).
Qed.

Lemma maxu_ok : op_ok X (Expr.maxu X) maxu_v.
Proof.
  intros l r f g Hl Hr. eapply denotes_ext; [apply denotes_select; [by apply denotes_ltu|done|done]|].
  intros. cbn. unfold sltu_v, maxu_v. rewrite b2z_eqb0. destruct (Z.ltb_spec (f st) (g st)); cbn; lia.
Qed.

Lemma minu_ok : op_ok X (Expr.minu X) minu_v.
Proof.
  intros l r f g Hl Hr. eapply denotes_ext; [apply denotes_select; [by apply denotes_ltu|done|done]|].
  intros. cbn. unfold sltu_v, minu_v. rewrite b2z_eqb0. destruct (Z.ltb_spec (f st) (g st)); cbn; lia.
Qed.

Lemma op_refines l op f :
  op_ok X op f ->
  l = Ok ([Stmt.write_reg (f_rd raw) (op (Expr.reg (f_rs1 raw)) (Expr.reg (f_rs2 raw)))], Fall None) ->
  refines X l pc size (r_type f X raw pc size).
Proof.
  intros Hop Hl. eapply refines_r_type; [exact Hl| |auto with denotes]. apply Hop; auto with denotes.
Qed.

(** One-register operators; on a register the extensions are plain operators. *)
Lemma unary_refines op f :
  (forall x, eval_unary X op x = f (VALUE X) x) ->
  refines X (lift_unary (Expr.unary op) (fmt_unary raw)) pc size (unary_type f X raw pc size).
Proof.
  intros H. eapply refines_unary_type; [done| |auto with denotes].
  eapply denotes_ext; [apply denotes_unary, denotes_read, f_rs1_range|]. intros. apply H.
Qed.
End logic.

Lemma lift_zbb_refines X e raw pc size :
  In e isa_Zbb -> i_avail e X = true ->
  refines X (lift_zbb X (i_args e raw) (i_opid e)) pc size (i_sem e X raw pc size).
Proof.
  intros He Hav. unfold isa_Zbb in He. cbn [In] in He.
  repeat (destruct He as [<-|He]); [..|done]; cbn [i_avail i_args i_opid i_sem] in *.
  all: try first
    [ by eapply op_refines; [apply andn_ok|] | by eapply op_refines; [apply orn_ok|]
    | by eapply op_refines; [apply xnor_ok|] | by eapply op_refines; [apply max_ok|]
    | by eapply op_refines; [apply min_ok|] | by eapply op_refines; [apply maxu_ok|]
    | by eapply op_refines; [apply minu_ok|]
    | apply lift_rol_refines | apply lift_ror_refines | apply lift_rolw_refines
    | apply lift_rorw_refines | apply lift_roriw_refines
    | destruct X; try done; by apply lift_rori_refines ].
  all: match goal with |- refines _ (lift_zbb _ _ ?o) _ _ _ => unfold o end.
  1-2: by apply (unary_refines X raw pc size Zext16).
  - by apply (unary_refines X raw pc size Clz).
  - by apply (unary_refines X raw pc size Ctz).
  - by apply (unary_refines X raw pc size Cpop).
  - by apply (unary_refines X raw pc size Sext8).
  - by apply (unary_refines X raw pc size Sext16).
  - by apply (unary_refines X raw pc size Orc8).
  - by apply (unary_refines X raw pc size Rev8).
  - by apply (unary_refines X raw pc size Rev8).
  - by apply (unary_refines X raw pc size Clz32).
  - by apply (unary_refines X raw pc size Ctz32).
  - by apply (unary_refines X raw pc size Cpop32).
Qed.
