(* ===== verification/ZicsrCorrect.v ===== *)
(** * Zicsr: specification and correctness *)

From S2P Require Import Prelude Xlen IR IRBuild IRSem IRFacts Isa Ext ZicsrExt RiscvSpec Fields.
From S2P Require Import TableDecode LiftFacts BaseLift.
#[local] Open Scope word_scope.

(** ** Specification

    An atomic exchange: the old value of the register goes to [rd], the value
    written is computed from the old value and the operand as it was before the
    instruction.  The set and clear forms write only for a nonzero operand field. *)

Definition f_csr (raw : Z) : Z := bits raw 31 20.

Definition csr_exchange (c rd : Z) (write : option Z) (X : Xlen) (pc size : Z) (st : state) :
    state * next :=
  let t := s_csrs st c in
  let st1 := match write with Some v => set_csr st c v | None => st end in
  (set_reg st1 rd t, next_seq X pc size).

(** [f w old operand] is the value to write. *)
Definition csr_type (always : bool) (f : Z -> Z -> Z -> Z) : sem := fun X raw pc size st =>
  csr_exchange (f_csr raw) (f_rd raw)
    (if always || negb (f_rs1 raw =? 0)
     then Some (f (VALUE X) (s_csrs st (f_csr raw)) (get_reg st (f_rs1 raw))) else None)
    X pc size st.

(** The immediate forms use the [rs1] field itself as the operand. *)
Definition csri_type (always : bool) (f : Z -> Z -> Z -> Z) : sem := fun X raw pc size st =>
  csr_exchange (f_csr raw) (f_rd raw)
    (if always || negb (f_rs1 raw =? 0)
     then Some (f (VALUE X) (s_csrs st (f_csr raw)) (f_rs1 raw)) else None)
    X pc size st.

Definition csr_write (w old x : Z) : Z := x.
Definition csr_set (w old x : Z) : Z := Z.lor old x.
Definition csr_clear (w old x : Z) : Z := Z.ldiff old x.

Definition fmt_csr (raw : Z) : InstrArgs := A_Csr (f_rd raw) (f_rs1 raw) (f_csr raw).
Definition fmt_csri (raw : Z) : InstrArgs := A_CsrI (f_rd raw) (f_rs1 raw) (f_csr raw).

Definition isa_Zicsr : list isa_entry :=
  [ mkEntry OP_CSRRW any (opc 0x73 1) fmt_csr (csr_type true csr_write);
    mkEntry OP_CSRRS any (opc 0x73 2) fmt_csr (csr_type false csr_set);
    mkEntry OP_CSRRC any (opc 0x73 3) fmt_csr (csr_type false csr_clear);
    mkEntry OP_CSRRWI any (opc 0x73 5) fmt_csri (csri_type true csr_write);
    mkEntry OP_CSRRSI any (opc 0x73 6) fmt_csri (csri_type false csr_set);
    mkEntry OP_CSRRCI any (opc 0x73 7) fmt_csri (csri_type false csr_clear) ].

(** ** Decoding *)

Lemma f_csr_range raw : in_u 12 (f_csr raw).
Proof. apply (bits_range raw 31 20). lia. Qed.

Lemma decode_csr raw : wrap 16 (bits raw 31 20) = f_csr raw.
Proof. apply wrap_id, (in_u_le 12); [lia | apply f_csr_range]. Qed.

Lemma decode32_zicsr_table X raw pc :
  decode32_zicsr raw pc = table_decode X isa_Zicsr raw pc.
Proof.
  unfold decode32_zicsr, table_decode. rewrite lookup_at_opcode. autorewrite with fields.
  rewrite decode_csr. unfold decoded_of, DecodedInstr.new. generalize (bits raw). intros b.
  case_slice 6 0; [..|default_opcode].
  all: eval_table; case_slice 14 12; done.
Qed.

(** ** Lifting *)

Lemma wf_state_set_csr X st c v : wf_state X st -> in_reg X v -> wf_state X (set_csr st c v).
Proof. intros H Hv. destruct H. constructor; cbn; try done. intros r. unfold upd. by case_match. Qed.

Section exchange.
Context (X : Xlen) (rd c pc size : Z) (e : Expr) (f : state -> Z).
Hypotheses (Hrd : in_u 5 rd) (Hc : in_u 12 c) (He : denotes X e f).

Definition csr_code (wr : bool) : list Stmt :=
  (if negb (rd =? 0) then [Stmt.write_reg rd (Expr.csr c)] else [])
  ++ (if wr then [Stmt.write_csr c e] else []).

(** The value written is computed after the destination has been written. *)
Abbreviation written st := (f (set_reg st rd (s_csrs st c))).

Lemma csr_code_refines wr :
  refines X (Ok (csr_code wr, Fall None)) pc size
    (fun st => csr_exchange c rd (if wr then Some (written st) else None) X pc size st).
Proof.
  assert (in_ub 5 rd = true) as Wrd by (by apply in_ub_spec).
  assert (in_ub 12 c = true) as Wc by (by apply in_ub_spec).
  eexists _, _. split; [done|]. split; [|split; [done|]].
  - unfold csr_code. rewrite forallb_app. apply andb_true_iff.
    split; case_match; try done; cbn; by rewrite ?Wrd, ?Wc, ?(proj1 He).
  - intros vars extern st op raw Hst _. eexists. split; [|reflexivity].
    assert (exec_stmts vars extern X st (csr_code wr)
      = Some (csr_exchange c rd (if wr then Some (written st) else None) X pc size st).1) as E.
    { pose proof (wf_state_set_reg X st rd _ Hst (wf_csrs X st Hst c)) as Hst1.
      pose proof (exec_write_value vars extern X _ (WCsr c) e f He Hst) as E0.
      pose proof (exec_write_value vars extern X _ (WCsr c) e f He Hst1) as E1.
      unfold csr_code, csr_exchange.
      destruct (Z.eqb_spec rd 0) as [->|Hz].
      - destruct wr; cbn [negb app exec_stmts]; [|done]. unfold Stmt.write_csr. by rewrite E0.
      - cbn [negb app exec_stmts]. rewrite (exec_write_reg vars extern X st rd _ _ (denotes_csr X c Hc) Hst).
        cbn [mbind option_bind]. destruct wr; cbn [exec_stmts]; [|done].
        unfold Stmt.write_csr. rewrite E1. cbn. unfold set_reg. by case_match. }
    unfold exec_instr. cbn [statements InstrIR.new]. rewrite E. cbn.
    assert (statements_write_exit (csr_code wr) = false) as ->; [|done].
    unfold csr_code. by repeat case_match.
Qed.
End exchange.

(** The register forms with [rd = rs1], both nonzero. *)
Definition csr_overlap (o : OpId) (raw : Z) : bool :=
  ((o =ₒ OP_CSRRW) || (o =ₒ OP_CSRRS) || (o =ₒ OP_CSRRC))
  && negb (f_rd raw =? 0) && (f_rd raw =? f_rs1 raw).

Lemma get_reg_set_reg_ne st r r' v : r = 0 \/ r <> r' -> get_reg (set_reg st r v) r' = get_reg st r'.
Proof.
  intros H. unfold get_reg, set_reg. destruct (Z.eqb_spec r 0) as [|Hz]; [done|].
  case_match; [done|]. cbn. unfold upd. by rewrite (proj2 (Z.eqb_neq _ _)) by (destruct H; congruence).
Qed.

Lemma s_csrs_set_reg st r v : s_csrs (set_reg st r v) = s_csrs st.
Proof. unfold set_reg. by case_match. Qed.

Lemma ldiff_and X l r f g :
  denotes X l f -> denotes X r g ->
  denotes X (Expr.and X l (Expr.not r)) (fun st => csr_clear (VALUE X) (f st) (g st)).
Proof.
  intros Hl Hr. eapply denotes_ext; [apply denotes_and; [done | by apply (denotes_unary X Not)]|].
  intros st Hst. pose proof (denotes_range _ _ _ _ Hl Hst) as Hx. pose proof (VALUE_pos X).
  unfold csr_clear. cbn. apply Z.bits_inj'. intros i Hi. rewrite Z.land_spec, Z.ldiff_spec. unfold wrap.
  destruct (Z.ltb_spec i (VALUE X)).
  - by rewrite Z.mod_pow2_bits_low, Z.lnot_spec by lia.
  - by rewrite (testbit_high (VALUE X)) by (lia || done).
Qed.

Section forms.
Context (X : Xlen) (raw pc size : Z).
Abbreviation old := (denotes_csr X (f_csr raw) (f_csr_range raw)).
Abbreviation code := (csr_code_refines X (f_rd raw) (f_csr raw) pc size).

Lemma denotes_zimm : denotes X (Expr.imm (from_u64 X (f_rs1 raw))) (fun _ => f_rs1 raw).
Proof. apply denotes_small, (in_u_le 5); [lia | apply f_rs1_range]. Qed.

Lemma csr_reg_refines l e f wr :
  denotes X e (fun st => f (VALUE X) (s_csrs st (f_csr raw)) (get_reg st (f_rs1 raw))) ->
  f_rd raw = 0 \/ f_rd raw <> f_rs1 raw ->
  l = Ok (csr_code (f_rd raw) (f_csr raw) e (wr || negb (f_rs1 raw =? 0)), Fall None) ->
  refines X l pc size (csr_type wr f X raw pc size).
Proof.
  intros He Hne ->. eapply refines_ext; [apply (code _ _ (f_rd_range raw) (f_csr_range raw) He)|].
  intros st _. cbn. by rewrite s_csrs_set_reg, get_reg_set_reg_ne.
Qed.

(** With [rd = rs1] the operand has already been overwritten by the old value. *)
Lemma csr_overlap_refines l e f wr :
  denotes X e (fun st => f (VALUE X) (s_csrs st (f_csr raw)) (get_reg st (f_rs1 raw))) ->
  f_rd raw <> 0 -> f_rd raw = f_rs1 raw ->
  l = Ok (csr_code (f_rd raw) (f_csr raw) e (wr || negb (f_rs1 raw =? 0)), Fall None) ->
  refines X l pc size (fun st =>
    let t := s_csrs st (f_csr raw) in
    csr_exchange (f_csr raw) (f_rd raw) (Some (f (VALUE X) t t)) X pc size st).
Proof.
  intros He Hz Heq ->. eapply refines_ext; [apply (code _ _ (f_rd_range raw) (f_csr_range raw) He)|].
  intros st _. cbn. rewrite <- Heq, (proj2 (Z.eqb_neq _ _) Hz), orb_true_r, s_csrs_set_reg.
  unfold get_reg, set_reg. rewrite (proj2 (Z.eqb_neq _ _) Hz). cbn. unfold upd. by rewrite Z.eqb_refl.
Qed.

Lemma csr_imm_refines l e f wr :
  denotes X e (fun st => f (VALUE X) (s_csrs st (f_csr raw)) (f_rs1 raw)) ->
  l = Ok (csr_code (f_rd raw) (f_csr raw) e (wr || negb (f_rs1 raw =? 0)), Fall None) ->
  refines X l pc size (csri_type wr f X raw pc size).
Proof.
  intros He ->. eapply refines_ext; [apply (code _ _ (f_rd_range raw) (f_csr_range raw) He)|].
  intros st _. cbn. by rewrite s_csrs_set_reg.
Qed.

Lemma lift_zicsr_refines e :
  In e isa_Zicsr -> csr_overlap (i_opid e) raw = false ->
  refines X (lift_zicsr X (i_args e raw) (i_opid e)) pc size (i_sem e X raw pc size).
Proof.
  intros He Hov. assert (f_rd raw = 0 \/ f_rd raw <> f_rs1 raw \/
    ~ ((i_opid e =ₒ OP_CSRRW) || (i_opid e =ₒ OP_CSRRS) || (i_opid e =ₒ OP_CSRRC) = true)) as Hne.
  { unfold csr_overlap in Hov. destruct (_ || _); [|by auto].
    destruct (Z.eqb_spec (f_rd raw) 0), (Z.eqb_spec (f_rd raw) (f_rs1 raw)); auto; done. }
  unfold isa_Zicsr in He. cbn [In] in He.
  repeat (destruct He as [<-|He]); [..|done]; cbn [i_args i_opid i_sem] in *.
  1-3: assert (f_rd raw = 0 \/ f_rd raw <> f_rs1 raw) as Hne' by (cbn in Hne; tauto).
  - by eapply csr_reg_refines; [apply denotes_read, f_rs1_range|..].
  - by eapply csr_reg_refines; [apply denotes_or; [apply old | apply denotes_read, f_rs1_range]|..].
  - by eapply csr_reg_refines; [apply ldiff_and; [apply old | apply denotes_read, f_rs1_range]|..].
  - by eapply csr_imm_refines; [apply denotes_zimm|..].
  - by eapply csr_imm_refines; [apply denotes_or; [apply old | apply denotes_zimm]|..].
  - by eapply csr_imm_refines; [apply ldiff_and; [apply old | apply denotes_zimm]|..].
Qed.
End forms.
