(* ===== verification/ACorrect.v ===== *)
(** * RV32A and RV64A: specification and correctness *)

From S2P Require Import Prelude Xlen IR IRBuild IRSem IRFacts Isa Ext AExt RiscvSpec Fields.
From S2P Require Import TableDecode LiftFacts BaseLift.
#[local] Open Scope word_scope.

(** ** Specification

    Accesses of [width] bytes; the loaded value is sign-extended into [rd].  The
    operand of a read-modify-write is the value of [rs2] before the instruction,
    and the operation is carried out on [8 * width] bits. *)

Definition f_funct5 (raw : Z) : Z := bits raw 31 27.

Definition lr_type (width : Z) : sem := fun X raw pc size st =>
  let a := get_reg st (f_rs1 raw) in
  (set_reg (with_res_valid (with_res_addr st a) 1) (f_rd raw) (load X st a width true),
   next_seq X pc size).

(** The store happens when a reservation for the address is held; [rd] tells
    whether it failed; the reservation is given up in any case. *)
Definition sc_type (width : Z) : sem := fun X raw pc size st =>
  let a := get_reg st (f_rs1 raw) in
  let ok := negb (s_res_valid st =? 0) && (s_res_addr st =? a) in
  let st1 := if ok then store X st a width (get_reg st (f_rs2 raw)) else st in
  (with_res_valid (set_reg st1 (f_rd raw) (if ok then 0 else 1)) 0, next_seq X pc size).

Definition amo_type (width : Z) (f : Z -> Z -> Z -> Z) : sem := fun X raw pc size st =>
  let a := get_reg st (f_rs1 raw) in
  let old := load_le X (s_mem st) a (Z.to_nat width) in
  let new := f (8 * width) old (wrap (8 * width) (get_reg st (f_rs2 raw))) in
  (with_res_valid (store X (set_reg st (f_rd raw) (load X st a width true)) a width new) 0,
   next_seq X pc size).

Definition swap_v (n old x : Z) : Z := x.
Definition amoadd_v (n old x : Z) : Z := wrap n (old + x).
Definition amomin_v (n old x : Z) : Z := if to_signed n old <? to_signed n x then old else x.
Definition amomax_v (n old x : Z) : Z := if to_signed n old <? to_signed n x then x else old.

Definition fmt_amo (raw : Z) : InstrArgs :=
  A_Amo (f_rd raw) (f_rs1 raw) (f_rs2 raw)
    (negb (bits raw 26 26 =? 0)) (negb (bits raw 25 25 =? 0)).

Definition isa_A : list isa_entry :=
  [ mkEntry OP_LR_W any (opf5 0x2F 2 0x02) fmt_amo (lr_type 4);
    mkEntry OP_SC_W any (opf5 0x2F 2 0x03) fmt_amo (sc_type 4);
    mkEntry OP_AMOSWAP_W any (opf5 0x2F 2 0x01) fmt_amo (amo_type 4 swap_v);
    mkEntry OP_AMOADD_W any (opf5 0x2F 2 0x00) fmt_amo (amo_type 4 amoadd_v);
    mkEntry OP_AMOXOR_W any (opf5 0x2F 2 0x04) fmt_amo (amo_type 4 (fun _ => Z.lxor));
    mkEntry OP_AMOAND_W any (opf5 0x2F 2 0x0C) fmt_amo (amo_type 4 (fun _ => Z.land));
    mkEntry OP_AMOOR_W any (opf5 0x2F 2 0x08) fmt_amo (amo_type 4 (fun _ => Z.lor));
    mkEntry OP_AMOMIN_W any (opf5 0x2F 2 0x10) fmt_amo (amo_type 4 amomin_v);
    mkEntry OP_AMOMAX_W any (opf5 0x2F 2 0x14) fmt_amo (amo_type 4 amomax_v);
    mkEntry OP_AMOMINU_W any (opf5 0x2F 2 0x18) fmt_amo (amo_type 4 (fun _ => Z.min));
    mkEntry OP_AMOMAXU_W any (opf5 0x2F 2 0x1C) fmt_amo (amo_type 4 (fun _ => Z.max));
    mkEntry OP_LR_D rv64 (opf5 0x2F 3 0x02) fmt_amo (lr_type 8);
    mkEntry OP_SC_D rv64 (opf5 0x2F 3 0x03) fmt_amo (sc_type 8);
    mkEntry OP_AMOSWAP_D rv64 (opf5 0x2F 3 0x01) fmt_amo (amo_type 8 swap_v);
    mkEntry OP_AMOADD_D rv64 (opf5 0x2F 3 0x00) fmt_amo (amo_type 8 amoadd_v);
    mkEntry OP_AMOXOR_D rv64 (opf5 0x2F 3 0x04) fmt_amo (amo_type 8 (fun _ => Z.lxor));
    mkEntry OP_AMOAND_D rv64 (opf5 0x2F 3 0x0C) fmt_amo (amo_type 8 (fun _ => Z.land));
    mkEntry OP_AMOOR_D rv64 (opf5 0x2F 3 0x08) fmt_amo (amo_type 8 (fun _ => Z.lor));
    mkEntry OP_AMOMIN_D rv64 (opf5 0x2F 3 0x10) fmt_amo (amo_type 8 amomin_v);
    mkEntry OP_AMOMAX_D rv64 (opf5 0x2F 3 0x14) fmt_amo (amo_type 8 amomax_v);
    mkEntry OP_AMOMINU_D rv64 (opf5 0x2F 3 0x18) fmt_amo (amo_type 8 (fun _ => Z.min));
    mkEntry OP_AMOMAXU_D rv64 (opf5 0x2F 3 0x1C) fmt_amo (amo_type 8 (fun _ => Z.max)) ].

(** ** Decoding *)

Lemma decode32_a_table X raw pc :
  decode32_a X raw pc = table_decode X isa_A raw pc.
Proof.
  unfold decode32_a, table_decode, decode_a_opid. rewrite lookup_at_opcode. autorewrite with fields.
  fold (fmt_amo raw). unfold decoded_of, DecodedInstr.new. generalize (bits raw). intros b.
  case_slice 6 0; [..|default_opcode].
  all: destruct X; eval_table; case_slice 14 12; case_slice 31 27; done.
Qed.

(** ** Memory *)

(** A store of [n] bytes depends on the low [8 * n] bits of the value only. *)
Lemma store_le_wrap X n : forall m a v,
  store_le X m a n (wrap (8 * Z.of_nat n) v) = store_le X m a n v.
Proof.
  induction n as [|n IH]; intros m a v; [done|]. cbn [store_le].
  rewrite (wrap_wrap_le 8) by lia.
  rewrite <- (IH _ _ (Z.shiftr v 8)), <- (IH _ _ (Z.shiftr (wrap _ v) 8)). f_equal.
  unfold wrap. rewrite <- !Z.land_ones by lia. apply Z.bits_inj'. intros i Hi.
  rewrite !Z.land_spec, !Z.shiftr_spec, Z.land_spec by lia.
  destruct (Z.ltb_spec i (8 * Z.of_nat n)).
  - by rewrite !Z.ones_spec_low, andb_true_r by lia.
  - by rewrite !(Z.ones_spec_high (8 * Z.of_nat n)), !andb_false_r by lia.
Qed.

Lemma store_low X st a width v v' :
  0 <= width -> wrap (8 * width) v = wrap (8 * width) v' -> store X st a width v = store X st a width v'.
Proof.
  intros Hw E. unfold store. f_equal.
  rewrite <- store_le_wrap, <- (store_le_wrap _ _ _ _ v'). by rewrite Z2Nat.id, E.
Qed.

(** The low bits of a sign-extended load are the bytes in memory. *)
Lemma load_low X st a width sg :
  0 <= width -> 8 * width <= VALUE X ->
  wrap (8 * width) (load X st a width sg) = load_le X (s_mem st) a (Z.to_nat width).
Proof.
  intros Hw HX. unfold load. rewrite wrap_wrap_le by lia.
  pose proof (load_le_range X (s_mem st) a (Z.to_nat width)) as Hr. rewrite Z2Nat.id in Hr by done.
  destruct sg; [rewrite wrap_sext by lia|]; by apply wrap_id.
Qed.

(** ** Operators on the accessed width *)

(** The IR operator agrees with [f] on the low [n] bits. *)
Definition low_ok (X : Xlen) (n : Z) (op : Expr -> Expr -> Expr) (f : Z -> Z -> Z -> Z) : Prop :=
  forall l r fl fr, denotes X l fl -> denotes X r fr ->
    exists h, denotes X (op l r) h /\
      forall st, wf_state X st -> wrap n (h st) = wrap n (f n (wrap n (fl st)) (wrap n (fr st))).

Section low.
Context (X : Xlen) (n : Z).
Hypothesis (Hn : 0 < n <= VALUE X).

Lemma swap_low : low_ok X n (fun _ b => b) swap_v.
Proof. intros l r fl fr Hl Hr. eexists. split; [exact Hr|]. intros. unfold swap_v. by rewrite wrap_wrap. Qed.

Lemma add_low : low_ok X n (Expr.add X) amoadd_v.
Proof.
  intros l r fl fr Hl Hr. eexists. split; [by apply denotes_add|]. intros. cbn. unfold amoadd_v.
  by rewrite wrap_wrap_le, wrap_wrap, wrap_add_l, wrap_add_r by lia.
Qed.

Lemma land_wrap x y : wrap n (Z.land x y) = Z.land (wrap n x) (wrap n y).
Proof.
  unfold wrap. rewrite <- !Z.land_ones by lia. apply Z.bits_inj'. intros i Hi.
  rewrite !Z.land_spec. destruct (Z.testbit x i), (Z.testbit y i), (Z.testbit (Z.ones n) i); done.
Qed.
Lemma lor_wrap x y : wrap n (Z.lor x y) = Z.lor (wrap n x) (wrap n y).
Proof. unfold wrap. rewrite <- !Z.land_ones by lia. apply Z.land_lor_distr_l. Qed.
Lemma lxor_wrap x y : wrap n (Z.lxor x y) = Z.lxor (wrap n x) (wrap n y).
Proof.
  unfold wrap. rewrite <- !Z.land_ones by lia. apply Z.bits_inj'. intros i Hi.
  rewrite !Z.lxor_spec, !Z.land_spec, Z.lxor_spec.
  destruct (Z.testbit x i), (Z.testbit y i), (Z.testbit (Z.ones n) i); done.
Qed.

Lemma and_low : low_ok X n (Expr.and X) (fun _ => Z.land).
Proof.
  intros l r fl fr Hl Hr. eexists. split; [by apply denotes_and|]. intros. cbn.
  by rewrite !land_wrap, !wrap_wrap.
Qed.
Lemma or_low : low_ok X n (Expr.or X) (fun _ => Z.lor).
Proof.
  intros l r fl fr Hl Hr. eexists. split; [by apply denotes_or|]. intros. cbn.
  by rewrite !lor_wrap, !wrap_wrap.
Qed.
Lemma xor_low : low_ok X n (Expr.xor X) (fun _ => Z.lxor).
Proof.
  intros l r fl fr Hl Hr. eexists. split; [by apply denotes_xor|]. intros. cbn.
  by rewrite !lxor_wrap, !wrap_wrap.
Qed.

(** A selection by a condition on the low bits. *)
Lemma select_low (c : Expr -> Expr -> Expr) (P : Z -> Z -> bool) (sw : bool) :
  (forall l r fl fr, denotes X l fl -> denotes X r fr -> exists k, denotes X (c l r) k /\
     forall st, wf_state X st -> k st = b2z (P (wrap n (fl st)) (wrap n (fr st)))) ->
  low_ok X n (fun l r => if sw then Expr.select (c l r) l r else Expr.select (c l r) r l)
    (fun _ x y => if P x y then (if sw then x else y) else (if sw then y else x)).
Proof.
  intros Hc l r fl fr Hl Hr. destruct (Hc l r fl fr Hl Hr) as (k & Hk & Ek).
  destruct sw; (eexists; split; [by apply denotes_select|]; intros st Hst; cbn;
    rewrite (Ek st Hst); destruct (P _ _); cbn; by rewrite wrap_wrap).
Qed.
End low.

Lemma sext_to_signed_wide X v : to_signed (VALUE X) (sx32 X v) = sext 32 v.
Proof.
  unfold sx32. change (to_signed (VALUE X) (wrap (VALUE X) (sext 32 v))) with (sext (VALUE X) (sext 32 v)).
  pose proof (sext_range 32 v ltac:(lia)) as [? ?]. pose proof (VALUE_le_64 X).
  assert (2 ^ 31 <= 2 ^ (VALUE X - 1)) by (apply Z.pow_le_mono_r; lia).
  apply sext_id; [lia|]. split; lia.
Qed.

(** ** The comparisons of the minimum and maximum operators *)

Section minmax.
Context (X : Xlen).

Lemma lt32_cond l r fl fr :
  denotes X l fl -> denotes X r fr -> exists k,
    denotes X (Expr.lt (Expr.sext32 X l) (Expr.sext32 X r)) k /\
    forall st, wf_state X st ->
      k st = b2z (to_signed 32 (wrap 32 (fl st)) <? to_signed 32 (wrap 32 (fr st))).
Proof.
  intros Hl Hr. eexists. split; [by apply denotes_lt; apply denotes_sext32|]. intros st Hst. cbn.
  unfold slt_v. by rewrite !sext_to_signed_wide.
Qed.

Lemma ltu32_cond l r fl fr :
  denotes X l fl -> denotes X r fr -> exists k,
    denotes X (Expr.ltu X (Expr.zext32 X l) (Expr.zext32 X r)) k /\
    forall st, wf_state X st -> k st = b2z (wrap 32 (fl st) <? wrap 32 (fr st)).
Proof. intros Hl Hr. eexists. split; [by apply denotes_ltu; apply denotes_zext32 | done]. Qed.

Lemma lt_cond l r fl fr :
  denotes X l fl -> denotes X r fr -> exists k,
    denotes X (Expr.lt l r) k /\
    forall st, wf_state X st ->
      k st = b2z (to_signed (VALUE X) (wrap (VALUE X) (fl st)) <? to_signed (VALUE X) (wrap (VALUE X) (fr st))).
Proof.
  intros Hl Hr. eexists. split; [by apply denotes_lt|]. intros st Hst. cbn. unfold slt_v.
  by rewrite !wrap_id by (by eapply denotes_range).
Qed.

Lemma ltu_cond l r fl fr :
  denotes X l fl -> denotes X r fr -> exists k,
    denotes X (Expr.ltu X l r) k /\
    forall st, wf_state X st -> k st = b2z (wrap (VALUE X) (fl st) <? wrap (VALUE X) (fr st)).
Proof.
  intros Hl Hr. eexists. split; [by apply denotes_ltu|]. intros st Hst. cbn. unfold sltu_v.
  by rewrite !wrap_id by (by eapply denotes_range).
Qed.

Lemma low_ok_ext n op f g :
  low_ok X n op f -> (forall x y, f n x y = g n x y) -> low_ok X n op g.
Proof.
  intros H E l r fl fr Hl Hr. destruct (H l r fl fr Hl Hr) as (h & Hh & Eh).
  exists h. split; [done|]. intros st Hst. by rewrite Eh, E.
Qed.

Lemma zmin_if x y : (if x <? y then x else y) = Z.min x y.
Proof. destruct (Z.ltb_spec x y); lia. Qed.
Lemma zmax_if x y : (if x <? y then y else x) = Z.max x y.
Proof. destruct (Z.ltb_spec x y); lia. Qed.

Abbreviation lts n := (fun x y => to_signed n x <? to_signed n y).

Lemma minmax32_low :
  low_ok X 32 (Expr.min32 X) amomin_v /\ low_ok X 32 (Expr.max32 X) amomax_v /\
  low_ok X 32 (Expr.minu32 X) (fun _ => Z.min) /\ low_ok X 32 (Expr.maxu32 X) (fun _ => Z.max).
Proof.
  split_and!.
  - eapply low_ok_ext; [exact (select_low X 32 _ (lts 32) true lt32_cond) | done].
  - eapply low_ok_ext; [exact (select_low X 32 _ (lts 32) false lt32_cond) | done].
  - eapply low_ok_ext; [exact (select_low X 32 _ Z.ltb true ltu32_cond) | intros; apply zmin_if].
  - eapply low_ok_ext; [exact (select_low X 32 _ Z.ltb false ltu32_cond) | intros; apply zmax_if].
Qed.

Lemma minmax_low n :
  n = VALUE X ->
  low_ok X n Expr.min amomin_v /\ low_ok X n Expr.max amomax_v /\
  low_ok X n (Expr.minu X) (fun _ => Z.min) /\ low_ok X n (Expr.maxu X) (fun _ => Z.max).
Proof.
  intros ->. split_and!.
  - eapply low_ok_ext; [exact (select_low X _ _ (lts (VALUE X)) true lt_cond) | done].
  - eapply low_ok_ext; [exact (select_low X _ _ (lts (VALUE X)) false lt_cond) | done].
  - eapply low_ok_ext; [exact (select_low X _ _ Z.ltb true ltu_cond) | intros; apply zmin_if].
  - eapply low_ok_ext; [exact (select_low X _ _ Z.ltb false ltu_cond) | intros; apply zmax_if].
Qed.
End minmax.

(** ** Read-modify-write *)

Section amo.
Context (X : Xlen) (rd rs1 rs2 width : Z) (sg : bool).
Hypotheses (Hrd : in_u 5 rd) (H1 : in_u 5 rs1) (H2 : in_u 5 rs2).
Hypotheses (Hw : width ∈ [1; 2; 4; 8]).

(** Where the lifted code finds the address and the operand once [rd] is written. *)
Definition amo_addr : Expr := if rd =? rs1 then Expr.temp 1 else Expr.read rs1.
Definition amo_src : Expr := if rd =? rs2 then Expr.temp 3 else Expr.read rs2.
Definition v_addr (st : state) : Z := if rd =? rs1 then s_temps st 1 else get_reg st rs1.
Definition v_src (st : state) : Z := if rd =? rs2 then s_temps st 3 else get_reg st rs2.

Definition save_addr : list Stmt := if rd =? rs1 then [Stmt.write_temp 1 (Expr.read rs1)] else [].
Definition save_src : list Stmt := if rd =? rs2 then [Stmt.write_temp 3 (Expr.read rs2)] else [].
Definition amo_read : Expr :=
  if sg then Expr.mem_s amo_addr width else Expr.mem_u amo_addr width.

Lemma lift_amo_code op :
  lift_amo X rd rs1 rs2 width sg op
  = Ok (save_addr ++ save_src
        ++ [ Stmt.write_temp 2 amo_read; Stmt.write_reg rd (Expr.temp 2);
             Stmt.write_mem amo_addr 0 (op (Expr.temp 2) amo_src) width;
             Stmt.write_res_valid (Expr.imm (from_u64 X 0)) ], Fall None).
Proof.
  unfold lift_amo, save_addr, save_src, amo_read, amo_addr, amo_src.
  destruct (rd =? rs1), (rd =? rs2), sg; done.
Qed.

Lemma denotes_amo_addr : denotes X amo_addr v_addr.
Proof. unfold amo_addr, v_addr. destruct (rd =? rs1); auto with denotes. Qed.
Lemma denotes_amo_src : denotes X amo_src v_src.
Proof. unfold amo_src, v_src. destruct (rd =? rs2); auto with denotes. Qed.
Lemma denotes_amo_read : denotes X amo_read (fun st => load X st (v_addr st) width sg).
Proof. unfold amo_read. destruct sg; (apply denotes_mem_addr; [apply denotes_amo_addr | done]). Qed.

(** The state after the saves. *)
Definition saved (st : state) : state :=
  let st1 := if rd =? rs1 then set_temp st 1 (get_reg st rs1) else st in
  if rd =? rs2 then set_temp st1 3 (get_reg st rs2) else st1.

Lemma exec_saves vars extern st k :
  exec_stmts vars extern X st (save_addr ++ save_src ++ k) = exec_stmts vars extern X (saved st) k.
Proof. unfold save_addr, save_src, saved. by destruct (rd =? rs1), (rd =? rs2). Qed.

Lemma wf_saved st : wf_state X st -> wf_state X (saved st).
Proof.
  intros. unfold saved. destruct (rd =? rs1), (rd =? rs2); auto using wf_state_set_temp, get_reg_range.
Qed.

Lemma arch_saved st : arch (saved st) = arch st.
Proof. unfold saved. by destruct (rd =? rs1), (rd =? rs2). Qed.

(** The old value in the temporary and in the destination. *)
Definition loaded (st : state) (old : Z) : state := set_reg (set_temp (saved st) 2 old) rd old.

Lemma saved_addr st : v_addr (saved st) = get_reg st rs1.
Proof. unfold v_addr, saved. by destruct (rd =? rs1), (rd =? rs2). Qed.

Lemma get_reg_loaded st old r : (rd =? r) = false -> get_reg (loaded st old) r = get_reg st r.
Proof.
  intros E. apply Z.eqb_neq in E. unfold loaded, saved, get_reg, set_reg.
  destruct (r =? 0); [done|].
  destruct (rd =? rs1), (rd =? rs2), (rd =? 0); cbn; unfold upd;
    rewrite ?(proj2 (Z.eqb_neq _ _)) by done; done.
Qed.

Lemma loaded_addr st old : v_addr (loaded st old) = get_reg st rs1.
Proof.
  unfold v_addr. destruct (rd =? rs1) eqn:E; [|by apply get_reg_loaded].
  unfold loaded, saved, set_reg. rewrite E. destruct (rd =? rs2), (rd =? 0); done.
Qed.

Lemma loaded_src st old : v_src (loaded st old) = get_reg st rs2.
Proof.
  unfold v_src. destruct (rd =? rs2) eqn:E; [|by apply get_reg_loaded].
  unfold loaded, saved, set_reg. rewrite E. destruct (rd =? rs1), (rd =? 0); done.
Qed.

Lemma loaded_temp st old : s_temps (loaded st old) 2 = old.
Proof. unfold loaded, set_reg. by case_match. Qed.

Lemma wf_loaded st old : wf_state X st -> in_reg X old -> wf_state X (loaded st old).
Proof. intros. by apply wf_state_set_reg; [apply wf_state_set_temp; [apply wf_saved|]|]. Qed.

Lemma arch_loaded st old : arch (loaded st old) = arch (set_reg st rd old).
Proof. unfold loaded. by apply arch_set_reg, arch_saved. Qed.
End amo.

Lemma arch_store X st st' a width v :
  arch st = arch st' -> arch (store X st a width v) = arch (store X st' a width v).
Proof. destruct st, st'. cbn. intros [=]. by subst. Qed.

Lemma arch_res_valid st st' v : arch st = arch st' -> arch (with_res_valid st v) = arch (with_res_valid st' v).
Proof. destruct st, st'. cbn. intros [=]. by subst. Qed.

Lemma wf_state_store X st a width v : wf_state X st -> wf_state X (store X st a width v).
Proof. intros []. by constructor. Qed.

Lemma denotes_const X v : in_u 32 v -> denotes X (Expr.imm (from_u64 X v)) (fun _ => v).
Proof. apply denotes_small. Qed.

Section amo_refines.
Context (X : Xlen) (raw pc size width : Z) (sg : bool).
Hypotheses (Hw : width ∈ [1; 2; 4; 8]) (Hwx : 8 * width <= VALUE X).
Hypothesis (Hsg : forall st a, load X st a width sg = load X st a width true).
Abbreviation rd := (f_rd raw).
Abbreviation rs1 := (f_rs1 raw).
Abbreviation rs2 := (f_rs2 raw).

Lemma width_nonneg : 0 <= width.
Proof. revert Hw. rewrite !elem_of_cons, elem_of_nil. lia. Qed.

Lemma amo_exec vars extern st op h :
  wf_state X st ->
  denotes X (op (Expr.temp 2) (amo_src rd rs2)) h ->
  let a := get_reg st rs1 in
  let L := loaded rd rs1 rs2 st (load X st a width sg) in
  exec_stmts vars extern X st
    (save_addr rd rs1 ++ save_src rd rs2
     ++ [ Stmt.write_temp 2 (amo_read rd rs1 width sg); Stmt.write_reg rd (Expr.temp 2);
          Stmt.write_mem (amo_addr rd rs1) 0 (op (Expr.temp 2) (amo_src rd rs2)) width;
          Stmt.write_res_valid (Expr.imm (from_u64 X 0)) ])
  = Some (with_res_valid (store X L a width (h L)) 0).
Proof.
  intros Hst Hh a L. rewrite exec_saves. cbn [exec_stmts].
  pose proof (wf_saved X rd rs1 rs2 st Hst) as Hs.
  assert (wf_state X L) as HL by (apply wf_loaded; [done | apply load_range]).
  unfold Stmt.write_temp at 1.
  rewrite (exec_write_value vars extern X _ (WTemp 2) _ _
    (denotes_amo_read X rd rs1 width sg (f_rs1_range raw) Hw) Hs). cbv beta.
  assert (load X (saved rd rs1 rs2 st) (v_addr rd rs1 (saved rd rs1 rs2 st)) width sg
    = load X st a width sg) as ->.
  { rewrite saved_addr. unfold saved. by destruct (rd =? rs1), (rd =? rs2). }
  cbn [mbind option_bind exec_write].
  erewrite exec_write_reg by first [apply denotes_temp | apply wf_state_set_temp; [done | apply load_range]].
  cbn [mbind option_bind]. change (s_temps (set_temp ?s 2 ?v) 2) with v. fold L.
  unfold Stmt.write_mem. erewrite (exec_write_value _ _ _ L) by done. cbn [exec_write].
  rewrite (proj2 (denotes_amo_addr X rd rs1 (f_rs1_range raw))) by done.
  cbn [mbind option_bind].
  replace (v_addr rd rs1 L) with a by (symmetry; apply loaded_addr). rewrite Z.add_0_r.
  unfold Stmt.write_res_valid.
  erewrite exec_write_value by first [by apply denotes_const | by apply wf_state_store]. done.
Qed.

Lemma amo_wf op h :
  denotes X (op (Expr.temp 2) (amo_src rd rs2)) h ->
  forallb (wf_stmt X)
    (save_addr rd rs1 ++ save_src rd rs2
     ++ [ Stmt.write_temp 2 (amo_read rd rs1 width sg); Stmt.write_reg rd (Expr.temp 2);
          Stmt.write_mem (amo_addr rd rs1) 0 (op (Expr.temp 2) (amo_src rd rs2)) width;
          Stmt.write_res_valid (Expr.imm (from_u64 X 0)) ]) = true.
Proof.
  intros Hh. rewrite !forallb_app, !andb_true_iff. split_and!.
  - unfold save_addr. case_match; [|done]. cbn. rewrite (proj2 (in_ub_spec _ _)); [done | apply f_rs1_range].
  - unfold save_src. case_match; [|done]. cbn. rewrite (proj2 (in_ub_spec _ _)); [done | apply f_rs2_range].
  - cbn. rewrite (proj1 (denotes_amo_read X rd rs1 width sg (f_rs1_range raw) Hw)).
    rewrite (proj2 (in_ub_spec 5 _) (f_rd_range raw)), (proj1 (denotes_amo_addr X rd rs1 (f_rs1_range raw))).
    rewrite (bool_decide_eq_true_2 _ Hw), (proj1 Hh). by destruct X.
Qed.

Lemma lift_amo_refines op f :
  low_ok X (8 * width) op f ->
  refines X (lift_amo X rd rs1 rs2 width sg op) pc size (amo_type width f X raw pc size).
Proof.
  intros Hop. pose proof width_nonneg as Hw0.
  destruct (Hop _ _ _ _ (denotes_temp X 2) (denotes_amo_src X rd rs2 (f_rs2_range raw))) as (h & Hh & Eh).
  eexists _, _. split; [apply lift_amo_code|]. split; [by eapply amo_wf|]. split; [done|].
  intros vars extern st o rw Hst _. eexists. split.
  - unfold exec_instr. cbn [statements InstrIR.new].
    rewrite (amo_exec vars extern st op h Hst Hh). cbn [mbind option_bind].
    replace (statements_write_exit _) with false; [done|].
    unfold save_addr, save_src. by destruct (rd =? rs1), (rd =? rs2).
  - cbn. apply arch_res_valid.
    set (L := loaded _ _ _ _ _). assert (wf_state X L) as HL by (apply wf_loaded; [done | apply load_range]).
    rewrite (store_low X L _ width (h L) (f (8 * width) (load_le X (s_mem st) (get_reg st rs1) (Z.to_nat width))
      (wrap (8 * width) (get_reg st rs2)))); [|done|].
    + apply arch_store. unfold L. by rewrite arch_loaded, Hsg.
    + rewrite (Eh L HL). unfold L. by rewrite loaded_temp, loaded_src, load_low.
Qed.
End amo_refines.

(** ** Load-reserved and store-conditional *)

Section lrsc.
Context (X : Xlen) (raw pc size width : Z) (sg : bool).
Hypotheses (Hw : width ∈ [1; 2; 4; 8]).
Hypothesis (Hsg : forall st a, load X st a width sg = load X st a width true).
Abbreviation rd := (f_rd raw).
Abbreviation rs1 := (f_rs1 raw).
Abbreviation rs2 := (f_rs2 raw).

Lemma lr_refines :
  refines X (Ok ([ Stmt.write_res_addr (Expr.read rs1);
                   Stmt.write_res_valid (Expr.imm (from_u64 X 1));
                   Stmt.write_reg rd (Expr.mem_addr (Expr.read rs1) width sg) ], Fall None))
    pc size (lr_type width X raw pc size).
Proof.
  assert (in_ub 5 rd = true) as Wd by (apply in_ub_spec, f_rd_range).
  assert (in_ub 5 rs1 = true) as W1 by (apply in_ub_spec, f_rs1_range).
  eexists _, _. split; [done|]. split; [|split; [done|]].
  - cbn. rewrite Wd, W1, (bool_decide_eq_true_2 _ Hw). by destruct X.
  - intros vars extern st op rw Hst _. eexists. split; [|reflexivity].
    unfold exec_instr, lr_type. cbn. rewrite <- Hsg. by destruct X.
Qed.

(** The condition of the lifted code is the specified one. *)
Lemma sc_cond vars st :
  eval vars X st (Expr.and X (Expr.ne Expr.res_valid (Expr.imm (from_u64 X 0)))
                    (Expr.eq Expr.res_addr (Expr.read rs1)))
  = Some (b2z (negb (s_res_valid st =? 0) && (s_res_addr st =? get_reg st rs1))).
Proof.
  cbn. rewrite from_u64_id by apply in_reg_0.
  by destruct (s_res_valid st =? 0), (s_res_addr st =? get_reg st rs1).
Qed.

Definition sc_then : list Stmt :=
  [ Stmt.write_mem (Expr.read rs1) 0 (Expr.read rs2) width;
    Stmt.write_reg rd (Expr.imm (from_u64 X 0)); Stmt.write_res_valid (Expr.imm (from_u64 X 0)) ].
Definition sc_else : list Stmt :=
  [ Stmt.write_reg rd (Expr.imm (from_u64 X 1)); Stmt.write_res_valid (Expr.imm (from_u64 X 0)) ].

Lemma sc_refines :
  refines X (Ok ([ Stmt.if_then_else
                     (Expr.and X (Expr.ne Expr.res_valid (Expr.imm (from_u64 X 0)))
                        (Expr.eq Expr.res_addr (Expr.read rs1))) sc_then sc_else ], Fall None))
    pc size (sc_type width X raw pc size).
Proof.
  assert (in_ub 5 rd = true) as Wd by (apply in_ub_spec, f_rd_range).
  assert (in_ub 5 rs1 = true) as W1 by (apply in_ub_spec, f_rs1_range).
  assert (in_ub 5 rs2 = true) as W2 by (apply in_ub_spec, f_rs2_range).
  eexists _, _. split; [done|]. split; [|split; [done|]].
  - cbn. rewrite Wd, W1, W2, (bool_decide_eq_true_2 _ Hw). by destruct X.
  - intros vars extern st op rw Hst _. eexists. split; [|reflexivity].
    unfold exec_instr, sc_type, Stmt.if_then_else. cbn [statements InstrIR.new exec_stmts].
    rewrite exec_if, sc_cond. cbn [mbind option_bind].
    destruct (negb _ && _); cbn; rewrite ?Z.add_0_r, ?from_u64_id by (apply in_reg_0 || apply in_reg_1); done.
Qed.
End lrsc.

(** ** The whole table *)

Lemma lift_a_w_refines X e raw pc size :
  In e (take 11 isa_A) ->
  refines X (lift_a X (i_args e raw) (i_opid e)) pc size (i_sem e X raw pc size).
Proof.
  intros He. cbn [take isa_A In] in He.
  assert (4 ∈ [1; 2; 4; 8]) as Hw by width_ok.
  assert (0 < 32 <= VALUE X) as Hn by (by destruct X).
  destruct (minmax32_low X) as (M1 & M2 & M3 & M4).
  repeat (destruct He as [<-|He]); [..|done]; cbn [i_args i_opid i_sem].
  - by apply (lr_refines X raw pc size 4 true).
  - by apply (sc_refines X raw pc size 4 true).
  - apply (lift_amo_refines X raw pc size 4 true); [done | lia | done | apply swap_low].
  - apply (lift_amo_refines X raw pc size 4 true); [done | lia | done | by apply add_low].
  - apply (lift_amo_refines X raw pc size 4 true); [done | lia | done | by apply xor_low].
  - apply (lift_amo_refines X raw pc size 4 true); [done | lia | done | by apply and_low].
  - apply (lift_amo_refines X raw pc size 4 true); [done | lia | done | by apply or_low].
  - by apply (lift_amo_refines X raw pc size 4 true); [done | lia | ..].
  - by apply (lift_amo_refines X raw pc size 4 true); [done | lia | ..].
  - by apply (lift_amo_refines X raw pc size 4 true); [done | lia | ..].
  - by apply (lift_amo_refines X raw pc size 4 true); [done | lia | ..].
Qed.

Lemma lift_a_d_refines e raw pc size :
  In e (drop 11 isa_A) ->
  refines Rv64 (lift_a Rv64 (i_args e raw) (i_opid e)) pc size (i_sem e Rv64 raw pc size).
Proof.
  intros He. cbn [drop isa_A In] in He.
  assert (8 ∈ [1; 2; 4; 8]) as Hw by width_ok.
  assert (0 < 64 <= VALUE Rv64) as Hn by done.
  pose proof load_8_signed as Hsg.
  destruct (minmax_low Rv64 64 eq_refl) as (M1 & M2 & M3 & M4).
  repeat (destruct He as [<-|He]); [..|done]; cbn [i_args i_opid i_sem].
  - by apply (lr_refines Rv64 raw pc size 8 false).
  - by apply (sc_refines Rv64 raw pc size 8 false).
  - apply (lift_amo_refines Rv64 raw pc size 8 false); [done.. | apply swap_low].
  - apply (lift_amo_refines Rv64 raw pc size 8 false); [done.. | by apply add_low].
  - apply (lift_amo_refines Rv64 raw pc size 8 false); [done.. | by apply xor_low].
  - apply (lift_amo_refines Rv64 raw pc size 8 false); [done.. | by apply and_low].
  - apply (lift_amo_refines Rv64 raw pc size 8 false); [done.. | by apply or_low].
  - by apply (lift_amo_refines Rv64 raw pc size 8 false).
  - by apply (lift_amo_refines Rv64 raw pc size 8 false).
  - by apply (lift_amo_refines Rv64 raw pc size 8 false).
  - by apply (lift_amo_refines Rv64 raw pc size 8 false).
Qed.

Lemma lift_a_refines X e raw pc size :
  In e isa_A -> i_avail e X = true ->
  refines X (lift_a X (i_args e raw) (i_opid e)) pc size (i_sem e X raw pc size).
Proof.
  intros He Hav. rewrite <- (take_drop 11 isa_A) in He. apply in_app_iff in He as [He|He].
  - by apply lift_a_w_refines.
  - destruct X; [|by apply lift_a_d_refines].
    exfalso. cbn [drop isa_A In] in He. repeat (destruct He as [<-|He]); done.
Qed.
