(* ===== verification/CSpec.v ===== *)
(** * The compressed instruction set, as the manual defines it

    A compressed instruction is a 16-bit pattern (quadrant, [funct3] and a
    condition on the remaining bits) with the effect of the full-size
    instruction it abbreviates, two bytes long.  Immediates are sums of the
    slices the manual draws. *)

From S2P Require Import Prelude Xlen IR IRSem Isa RiscvSpec CExt.

(** ** Fields *)

Definition cf_rd (raw : Z) : Z := bits raw 11 7.
Definition cf_rs2 (raw : Z) : Z := bits raw 6 2.
(** Three-bit register fields name [x8] to [x15]. *)
Definition cf_rd' (raw : Z) : Z := bits raw 4 2 + 8.
Definition cf_rs1' (raw : Z) : Z := bits raw 9 7 + 8.

Definition imm_addi4spn (raw : Z) : Z :=
  bits raw 6 6 * 2 ^ 2 + bits raw 5 5 * 2 ^ 3 + bits raw 12 11 * 2 ^ 4 + bits raw 10 7 * 2 ^ 6.
Definition imm_cl_w (raw : Z) : Z :=
  bits raw 6 6 * 2 ^ 2 + bits raw 12 10 * 2 ^ 3 + bits raw 5 5 * 2 ^ 6.
Definition imm_cl_d (raw : Z) : Z := bits raw 12 10 * 2 ^ 3 + bits raw 6 5 * 2 ^ 6.
Definition imm_ci (raw : Z) : Z := sext 6 (bits raw 6 2 + bits raw 12 12 * 2 ^ 5).
Definition imm_cj (raw : Z) : Z :=
  sext 12 (bits raw 5 3 * 2 ^ 1 + bits raw 11 11 * 2 ^ 4 + bits raw 2 2 * 2 ^ 5
           + bits raw 7 7 * 2 ^ 6 + bits raw 6 6 * 2 ^ 7 + bits raw 10 9 * 2 ^ 8
           + bits raw 8 8 * 2 ^ 10 + bits raw 12 12 * 2 ^ 11).
Definition imm_addi16sp (raw : Z) : Z :=
  sext 10 (bits raw 6 6 * 2 ^ 4 + bits raw 2 2 * 2 ^ 5 + bits raw 5 5 * 2 ^ 6
           + bits raw 4 3 * 2 ^ 7 + bits raw 12 12 * 2 ^ 9).
Definition imm_clui (raw : Z) : Z := sext 18 ((bits raw 6 2 + bits raw 12 12 * 2 ^ 5) * 2 ^ 12).
Definition imm_shamt (raw : Z) : Z := bits raw 6 2 + bits raw 12 12 * 2 ^ 5.
Definition imm_cb (raw : Z) : Z :=
  sext 9 (bits raw 4 3 * 2 ^ 1 + bits raw 11 10 * 2 ^ 3 + bits raw 2 2 * 2 ^ 5
          + bits raw 6 5 * 2 ^ 6 + bits raw 12 12 * 2 ^ 8).
Definition imm_lwsp (raw : Z) : Z :=
  bits raw 6 4 * 2 ^ 2 + bits raw 12 12 * 2 ^ 5 + bits raw 3 2 * 2 ^ 6.
Definition imm_swsp (raw : Z) : Z := bits raw 12 9 * 2 ^ 2 + bits raw 8 7 * 2 ^ 6.
Definition imm_ldsp (raw : Z) : Z :=
  bits raw 6 5 * 2 ^ 3 + bits raw 12 12 * 2 ^ 5 + bits raw 4 2 * 2 ^ 6.
Definition imm_sdsp (raw : Z) : Z := bits raw 12 10 * 2 ^ 3 + bits raw 9 7 * 2 ^ 6.

(** ** Effects *)

Definition add_v (w x y : Z) : Z := wrap w (x + y).
Definition sub_v (w x y : Z) : Z := wrap w (x - y).

(** Register-immediate operation, the immediate extended to the register width. *)
Definition ci_type (f : Z -> Z -> Z -> Z) (rd rs1 imm : Z -> Z) : sem := fun X raw =>
  op_ri f (rd raw) (rs1 raw) (wrap (VALUE X) (imm raw)) X.
Definition cshift_type (f : Z -> Z -> Z -> Z) (rd : Z -> Z) : sem := fun X raw =>
  op_ri f (rd raw) (rd raw) (imm_shamt raw) X.
(** Two-operand register operation: the destination is the first source. *)
Definition cr_type (f : Z -> Z -> Z -> Z) (rd rs2 : Z -> Z) : sem := fun X raw =>
  op_rr f (rd raw) (rd raw) (rs2 raw) X.
Definition cload_type (width : Z) (rd rs1 imm : Z -> Z) : sem := fun X raw =>
  op_load width true (rd raw) (rs1 raw) (imm raw) X.
Definition cstore_type (width : Z) (rs1 rs2 imm : Z -> Z) : sem := fun X raw =>
  op_store width (rs1 raw) (rs2 raw) (imm raw) X.
Definition cbranch_type (taken : Z -> bool) : sem := fun X raw =>
  op_branch (fun _ x _ => taken x) (cf_rs1' raw) 0 (imm_cb raw) X.
Definition cmv : sem := fun X raw pc size st =>
  (set_reg st (cf_rd raw) (get_reg st (cf_rs2 raw)), next_seq X pc size).
(** [c.jr] and [c.jalr] are [jalr x0, 0(rs1)] and [jalr x1, 0(rs1)]: bit 0 of
    the target is cleared. *)
Definition cjalr_type (link : Z) : sem := fun X raw pc size st =>
  let t := get_reg st (cf_rd raw) in
  (set_reg st link (wrap (VALUE X) (pc + size)), NPc (t - t mod 2)).

(** ** Encodings *)

Record c_entry := mkC {
  c_opid : OpId; c_avail : Xlen -> bool;
  c_quad : Z; c_f3 : Z; c_cond : Z -> bool;
  c_args : Z -> InstrArgs; c_sem : sem
}.

Definition c_matches (e : c_entry) (raw : Z) : bool :=
  (bits raw 1 0 =? c_quad e) && (bits raw 15 13 =? c_f3 e) && c_cond e raw.

Definition always : Z -> bool := fun _ => true.
Definition nz (f : Z -> Z) : Z -> bool := fun raw => negb (f raw =? 0).
(** [c.srli], [c.srai], [c.andi] and the register operations share a [funct3]. *)
Definition alu (f2 : Z) : Z -> bool := fun raw => bits raw 11 10 =? f2.
Definition alu_rr (b12 f2 : Z) : Z -> bool := fun raw =>
  (bits raw 11 10 =? 3) && (bits raw 12 12 =? b12) && (bits raw 6 5 =? f2).
(** RV32 requires a shift amount below 32. *)
Definition short (raw : Z) : bool := bits raw 12 12 =? 0.
(** The jumps, moves and additions of quadrant 2. *)
Definition cr (b12 : Z) (r1 r2 : bool) : Z -> bool := fun raw =>
  (bits raw 12 12 =? b12) && eqb (negb (cf_rd raw =? 0)) r1 && eqb (negb (cf_rs2 raw =? 0)) r2.

Definition sp (raw : Z) : Z := 2.
Definition fmt_ci (rd rs1 imm : Z -> Z) (raw : Z) : InstrArgs := A_I (rd raw) (rs1 raw) (imm raw).
Definition fmt_cs (rs1 rs2 imm : Z -> Z) (raw : Z) : InstrArgs := A_S (rs1 raw) (rs2 raw) (imm raw).
Definition fmt_cr (rd rs1 rs2 : Z -> Z) (raw : Z) : InstrArgs := A_R (rd raw) (rs1 raw) (rs2 raw).
Definition zero (raw : Z) : Z := 0.
Definition ra (raw : Z) : Z := 1.

Definition isa_C : list c_entry :=
  [ mkC OP_C_ADDI4SPN any 0 0 (nz imm_addi4spn) (fmt_ci cf_rd' sp imm_addi4spn)
      (ci_type add_v cf_rd' sp imm_addi4spn);
    mkC OP_C_LW any 0 2 always (fmt_ci cf_rd' cf_rs1' imm_cl_w) (cload_type 4 cf_rd' cf_rs1' imm_cl_w);
    mkC OP_C_LD rv64 0 3 always (fmt_ci cf_rd' cf_rs1' imm_cl_d) (cload_type 8 cf_rd' cf_rs1' imm_cl_d);
    mkC OP_C_SW any 0 6 always (fmt_cs cf_rs1' cf_rd' imm_cl_w) (cstore_type 4 cf_rs1' cf_rd' imm_cl_w);
    mkC OP_C_SD rv64 0 7 always (fmt_cs cf_rs1' cf_rd' imm_cl_d) (cstore_type 8 cf_rs1' cf_rd' imm_cl_d);
    mkC OP_C_NOP any 1 0 (fun raw => (cf_rd raw =? 0) && (imm_ci raw =? 0)) fmt_none nop_sem;
    mkC OP_C_ADDI any 1 0 (fun raw => negb ((cf_rd raw =? 0) && (imm_ci raw =? 0)))
      (fmt_ci cf_rd cf_rd imm_ci) (ci_type add_v cf_rd cf_rd imm_ci);
    mkC OP_C_JAL rv32 1 1 always (fun raw => A_J 1 (imm_cj raw)) (fun X raw => op_jal 1 (imm_cj raw) X);
    mkC OP_C_ADDIW rv64 1 1 (nz cf_rd) (fmt_ci cf_rd cf_rd imm_ci) (ci_type addw_v cf_rd cf_rd imm_ci);
    mkC OP_C_LI any 1 2 always (fmt_ci cf_rd zero imm_ci) (ci_type (fun _ _ v => v) cf_rd zero imm_ci);
    mkC OP_C_ADDI16SP any 1 3 (fun raw => (cf_rd raw =? 2) && nz imm_addi16sp raw)
      (fmt_ci sp sp imm_addi16sp) (ci_type add_v sp sp imm_addi16sp);
    mkC OP_C_LUI any 1 3 (fun raw => negb (cf_rd raw =? 2) && nz imm_clui raw && nz cf_rd raw)
      (fun raw => A_U (cf_rd raw) (imm_clui raw)) (fun X raw => op_lui (cf_rd raw) (imm_clui raw) X);
    mkC OP_C_SRLI rv32 1 4 (fun raw => alu 0 raw && short raw)
      (fmt_ci cf_rs1' cf_rs1' imm_shamt) (cshift_type srl_v cf_rs1');
    mkC OP_C_SRLI rv64 1 4 (alu 0) (fmt_ci cf_rs1' cf_rs1' imm_shamt) (cshift_type srl_v cf_rs1');
    mkC OP_C_SRAI rv32 1 4 (fun raw => alu 1 raw && short raw)
      (fmt_ci cf_rs1' cf_rs1' imm_shamt) (cshift_type sra_v cf_rs1');
    mkC OP_C_SRAI rv64 1 4 (alu 1) (fmt_ci cf_rs1' cf_rs1' imm_shamt) (cshift_type sra_v cf_rs1');
    mkC OP_C_ANDI any 1 4 (alu 2) (fmt_ci cf_rs1' cf_rs1' imm_ci)
      (ci_type (fun _ => Z.land) cf_rs1' cf_rs1' imm_ci);
    mkC OP_C_SUB any 1 4 (alu_rr 0 0) (fmt_cr cf_rs1' cf_rs1' cf_rd') (cr_type sub_v cf_rs1' cf_rd');
    mkC OP_C_XOR any 1 4 (alu_rr 0 1) (fmt_cr cf_rs1' cf_rs1' cf_rd')
      (cr_type (fun _ => Z.lxor) cf_rs1' cf_rd');
    mkC OP_C_OR any 1 4 (alu_rr 0 2) (fmt_cr cf_rs1' cf_rs1' cf_rd')
      (cr_type (fun _ => Z.lor) cf_rs1' cf_rd');
    mkC OP_C_AND any 1 4 (alu_rr 0 3) (fmt_cr cf_rs1' cf_rs1' cf_rd')
      (cr_type (fun _ => Z.land) cf_rs1' cf_rd');
    mkC OP_C_SUBW rv64 1 4 (alu_rr 1 0) (fmt_cr cf_rs1' cf_rs1' cf_rd') (cr_type subw_v cf_rs1' cf_rd');
    mkC OP_C_ADDW rv64 1 4 (alu_rr 1 1) (fmt_cr cf_rs1' cf_rs1' cf_rd') (cr_type addw_v cf_rs1' cf_rd');
    mkC OP_C_J any 1 5 always (fun raw => A_J 0 (imm_cj raw)) (fun X raw => op_jal 0 (imm_cj raw) X);
    mkC OP_C_BEQZ any 1 6 always (fun raw => A_B (cf_rs1' raw) 0 (imm_cb raw))
      (cbranch_type (fun x => x =? 0));
    mkC OP_C_BNEZ any 1 7 always (fun raw => A_B (cf_rs1' raw) 0 (imm_cb raw))
      (cbranch_type (fun x => negb (x =? 0)));
    mkC OP_C_SLLI rv32 2 0 (fun raw => nz cf_rd raw && short raw)
      (fmt_ci cf_rd cf_rd imm_shamt) (cshift_type sll_v cf_rd);
    mkC OP_C_SLLI rv64 2 0 (nz cf_rd) (fmt_ci cf_rd cf_rd imm_shamt) (cshift_type sll_v cf_rd);
    mkC OP_C_LWSP any 2 2 (nz cf_rd) (fmt_ci cf_rd sp imm_lwsp) (cload_type 4 cf_rd sp imm_lwsp);
    mkC OP_C_LDSP rv64 2 3 (nz cf_rd) (fmt_ci cf_rd sp imm_ldsp) (cload_type 8 cf_rd sp imm_ldsp);
    mkC OP_C_JR any 2 4 (cr 0 true false) (fmt_ci zero cf_rd zero) (cjalr_type 0);
    mkC OP_C_MV any 2 4 (fun raw => (bits raw 12 12 =? 0) && nz cf_rs2 raw)
      (fmt_cr cf_rd zero cf_rs2) cmv;
    mkC OP_C_EBREAK any 2 4 (cr 1 false false) fmt_none ebreak_sem;
    mkC OP_C_JALR any 2 4 (cr 1 true false) (fmt_ci ra cf_rd zero) (cjalr_type 1);
    mkC OP_C_ADD any 2 4 (fun raw => (bits raw 12 12 =? 1) && nz cf_rs2 raw)
      (fmt_cr cf_rd cf_rd cf_rs2) (cr_type add_v cf_rd cf_rs2);
    mkC OP_C_SWSP any 2 6 always (fmt_cs sp cf_rs2 imm_swsp) (cstore_type 4 sp cf_rs2 imm_swsp);
    mkC OP_C_SDSP rv64 2 7 always (fmt_cs sp cf_rs2 imm_sdsp) (cstore_type 8 sp cf_rs2 imm_sdsp) ].

Definition lookup_c (X : Xlen) (raw : Z) : option c_entry :=
  find (fun e => c_avail e X && c_matches e raw) isa_C.

(** Shift amounts of 32 and more, which RV32 reserves: bit 12 of [c.slli],
    [c.srli] and [c.srai]. *)
Definition c_reserved_shift (X : Xlen) (raw : Z) : bool :=
  rv32 X && (bits raw 12 12 =? 1)
  && (((bits raw 1 0 =? 2) && (bits raw 15 13 =? 0))
      || ((bits raw 1 0 =? 1) && (bits raw 15 13 =? 4)
          && ((bits raw 11 10 =? 0) || (bits raw 11 10 =? 1)))).

(** What decoding a 16-bit word yields: an encoding outside the table is the
    instruction [c.invalid], which traps. *)
Definition c_decoded (X : Xlen) (raw pc : Z) : DecodedInstr :=
  match lookup_c X raw with
  | Some e => mkDecoded (c_opid e) pc 2 raw (c_args e raw)
  | None => mkDecoded OP_C_INVALID pc 2 raw (A_I 0 0 raw)
  end.
