(* ===== verification/CDecode.v ===== *)
(** * The compressed decoder implements the encoding table *)

From S2P Require Import Prelude Xlen IR IRSem IRFacts Isa Ext CExt RiscvSpec Fields TableDecode.
From S2P Require Import CSpec.
#[local] Open Scope word_scope.

(** ** Fields *)

Lemma creg5_bits raw lo : 0 <= lo -> creg5 raw lo = bits raw (lo + 4) lo.
Proof. intros. unfold creg5. change 0x1F with (Z.ones 5). rewrite (land_bits_8 raw lo 5) by lia. f_equal. lia. Qed.

Lemma creg3_bits raw lo : 0 <= lo -> creg3 raw lo = bits raw (lo + 2) lo + 8.
Proof. intros. unfold creg3. change 0x7 with (Z.ones 3). rewrite (land_bits_8 raw lo 3) by lia. do 2 f_equal. lia. Qed.

(** [join_up n]: as [join], for fields listed from the low end. *)
Ltac join_up n :=
  match goal with
  | |- context [Z.lor ?a ?b] =>
      lazymatch a with context [Z.lor _ _] => fail | _ => idtac end;
      rewrite (Z.lor_comm a b), (lor_disjoint n b a), (Z.add_comm b a);
        [| lia | first [apply mod_mul_pow2; lia] | lia]
  end.

Lemma decode_addi4spn_imm_spec raw : decode_addi4spn_imm raw = imm_addi4spn raw.
Proof.
  unfold decode_addi4spn_imm, imm_addi4spn.
  field raw 6 1. field raw 5 1. field raw 11 2. field raw 7 4.
  rewrite !shl_u_mul by lia. join_up 3. join_up 4. join_up 6. done.
Qed.

Lemma decode_cl_lw_offset_spec raw : decode_cl_lw_offset raw = imm_cl_w raw.
Proof.
  unfold decode_cl_lw_offset, imm_cl_w. field raw 6 1. field raw 10 3. field raw 5 1.
  rewrite !shl_u_mul by lia. join_up 3. join_up 6. done.
Qed.

Lemma decode_cl_ld_offset_spec raw : decode_cl_ld_offset raw = imm_cl_d raw.
Proof.
  unfold decode_cl_ld_offset, imm_cl_d. field raw 10 3. field raw 5 2.
  rewrite !shl_u_mul by lia. join_up 6. done.
Qed.

Lemma decode_ci_shamt_spec raw : decode_ci_shamt raw = imm_shamt raw.
Proof.
  unfold decode_ci_shamt, imm_shamt. field raw 2 5. field raw 12 1.
  rewrite !shl_u_mul by lia. join_up 5. done.
Qed.

Lemma decode_ci_imm_spec raw : decode_ci_imm raw = imm_ci raw.
Proof.
  unfold decode_ci_imm, imm_ci. field raw 2 5. field raw 12 1.
  rewrite !shl_u_mul by lia. join_up 5.
  rewrite to_signed_small by lia. apply (shl_shr_sext 16 6). lia.
Qed.

Lemma decode_ci_lui_imm_spec raw : decode_ci_lui_imm raw = imm_clui raw.
Proof.
  unfold decode_ci_lui_imm, imm_clui. field raw 2 5. field raw 12 1.
  rewrite (shl_u_mul 16) by lia. join_up 5. rewrite shl_u_mul by lia.
  rewrite to_signed_small by lia. apply (shl_shr_sext 32 18). lia.
Qed.

Lemma decode_cj_imm_spec raw : decode_cj_imm raw = imm_cj raw.
Proof.
  unfold decode_cj_imm, imm_cj. field raw 3 3. field raw 11 1. field raw 2 1. field raw 7 1.
  field raw 6 1. field raw 9 2. field raw 8 1. field raw 12 1.
  rewrite !shl_u_mul by lia.
  join_up 4. join_up 5. join_up 6. join_up 7. join_up 8. join_up 10. join_up 11.
  rewrite to_signed_small by lia. apply (shl_shr_sext 16 12). lia.
Qed.

Lemma decode_ci16sp_imm_spec raw : decode_ci16sp_imm raw = imm_addi16sp raw.
Proof.
  unfold decode_ci16sp_imm, imm_addi16sp. field raw 6 1. field raw 2 1. field raw 5 1.
  field raw 3 2. field raw 12 1.
  rewrite !shl_u_mul by lia. join_up 5. join_up 6. join_up 7. join_up 9.
  rewrite to_signed_small by lia. apply (shl_shr_sext 16 10). lia.
Qed.

Lemma decode_cb_imm_spec raw : decode_cb_imm raw = imm_cb raw.
Proof.
  unfold decode_cb_imm, imm_cb. field raw 3 2. field raw 10 2. field raw 2 1. field raw 5 2.
  field raw 12 1.
  rewrite !shl_u_mul by lia. join_up 3. join_up 5. join_up 6. join_up 8.
  rewrite to_signed_small by lia. apply (shl_shr_sext 16 9). lia.
Qed.

Lemma decode_ci_lwsp_offset_spec raw : decode_ci_lwsp_offset raw = imm_lwsp raw.
Proof.
  unfold decode_ci_lwsp_offset, imm_lwsp. field raw 4 3. field raw 12 1. field raw 2 2.
  rewrite !shl_u_mul by lia. join_up 5. join_up 6. done.
Qed.

Lemma decode_css_swsp_offset_spec raw : decode_css_swsp_offset raw = imm_swsp raw.
Proof.
  unfold decode_css_swsp_offset, imm_swsp. field raw 9 4. field raw 7 2.
  rewrite !shl_u_mul by lia. join_up 6. done.
Qed.

Lemma decode_ci_ldsp_offset_spec raw : decode_ci_ldsp_offset raw = imm_ldsp raw.
Proof.
  unfold decode_ci_ldsp_offset, imm_ldsp. field raw 5 2. field raw 12 1. field raw 2 3.
  rewrite !shl_u_mul by lia. join_up 5. join_up 6. done.
Qed.

Lemma decode_css_sdsp_offset_spec raw : decode_css_sdsp_offset raw = imm_sdsp raw.
Proof.
  unfold decode_css_sdsp_offset, imm_sdsp. field raw 10 3. field raw 7 3.
  rewrite !shl_u_mul by lia. join_up 6. done.
Qed.

#[export] Hint Rewrite decode_addi4spn_imm_spec decode_cl_lw_offset_spec decode_cl_ld_offset_spec
  decode_ci_shamt_spec decode_ci_imm_spec decode_ci_lui_imm_spec decode_cj_imm_spec
  decode_ci16sp_imm_spec decode_cb_imm_spec decode_ci_lwsp_offset_spec
  decode_css_swsp_offset_spec decode_ci_ldsp_offset_spec decode_css_sdsp_offset_spec : cfields.

(** ** The table, one quadrant and [funct3] at a time *)

Definition at_group (X : Xlen) (q f3 : Z) : list c_entry :=
  List.filter (fun e => c_avail e X && (c_quad e =? q) && (c_f3 e =? f3)) isa_C.

Lemma lookup_at_group X raw :
  lookup_c X raw = find (fun e => c_cond e raw) (at_group X (bits raw 1 0) (bits raw 15 13)).
Proof.
  unfold lookup_c, at_group, c_matches. induction isa_C as [|e l IH]; simpl; [done|].
  rewrite (Z.eqb_sym (bits raw 1 0)), (Z.eqb_sym (bits raw 15 13)).
  destruct (c_avail e X); simpl; [|done].
  destruct (c_quad e =? _); simpl; [|done].
  destruct (c_f3 e =? _); simpl; [|done]. by rewrite IH.
Qed.

Lemma mask_quadrant raw : raw &ᵇ 0x3 = bits raw 1 0.
Proof. rewrite <- (Z.shiftr_0_r raw) at 1. apply (land_bits raw 0 2); lia. Qed.

(** The register operations of quadrant 1. *)
Lemma decode_misc_alu_table X raw pc :
  c_reserved_shift X raw = false -> bits raw 1 0 = 1 -> bits raw 15 13 = 4 ->
  (let '(o, a) := default (OP_C_INVALID, A_I 0 0 raw) (decode_misc_alu X raw) in
   DecodedInstr.new o pc 2 raw a) = c_decoded X raw pc.
Proof.
  intros Hres Eq E3. unfold c_decoded. rewrite lookup_at_group, Eq, E3.
  unfold decode_misc_alu. rewrite !creg3_bits by lia. autorewrite with cfields.
  rewrite (land_bits_8 raw 10 2 ltac:(lia) ltac:(lia) : wrap 8 (shr raw 10 &ᵇ 0x3) = bits raw 11 10),
    (land_bits_8 raw 12 1 ltac:(lia) ltac:(lia) : wrap 8 (shr raw 12 &ᵇ 0x1) = bits raw 12 12),
    (land_bits_8 raw 5 2 ltac:(lia) ltac:(lia) : wrap 8 (shr raw 5 &ᵇ 0x3) = bits raw 6 5).
  pose proof (bits_bound raw 12 12 2 ltac:(lia) ltac:(done)) as Hb.
  assert (bits raw 12 12 = 0 \/ bits raw 12 12 = 1) as H12 by lia.
  unfold c_reserved_shift in Hres. rewrite Eq, E3 in Hres.
  destruct X; cbn -[bits decode_misc_alu imm_shamt imm_ci] in Hres |- *;
    unfold alu, alu_rr, short, fmt_ci, fmt_cr, cf_rs1', cf_rd'.
  all: case_slice 11 10; try done; destruct H12 as [E12|E12]; rewrite ?E12 in *; cbn -[bits] in *;
    try done; case_slice 6 5; done.
Qed.

(** The table entries of a group, evaluated. *)
Ltac eval_group :=
  match goal with |- context [at_group ?X ?q ?f] =>
    let t := constr:(at_group X q f) in
    let v := eval cbn -[imm_shamt] in t in
    change t with v
  end; cbn [find c_cond c_opid c_args].

Lemma decode_q2_table X raw pc :
  c_reserved_shift X raw = false -> bits raw 1 0 = 2 ->
  (let '(o, a) := default (OP_C_INVALID, A_I 0 0 raw) (decode_q2 X raw (bits raw 15 13)) in
   DecodedInstr.new o pc 2 raw a) = c_decoded X raw pc.
Proof.
  intros Hres Eq. unfold c_decoded. rewrite lookup_at_group, Eq.
  unfold decode_q2. rewrite !creg5_bits by lia. autorewrite with cfields.
  rewrite (land_bits_8 raw 12 1 ltac:(lia) ltac:(lia) : wrap 8 (shr raw 12 &ᵇ 0x1) = bits raw 12 12).
  pose proof (bits_bound raw 12 12 2 ltac:(lia) ltac:(done)) as Hb.
  assert (bits raw 12 12 = 0 \/ bits raw 12 12 = 1) as H12 by lia. clear Hb.
  pose proof (bits_bound raw 15 13 8 ltac:(lia) ltac:(done)) as H13.
  change (7 + 4) with 11. change (2 + 4) with 6.
  unfold c_reserved_shift in Hres. rewrite Eq in Hres.
  assert (exists f, bits raw 15 13 = f /\ (f = 0 \/ f = 1 \/ f = 2 \/ f = 3 \/ f = 4 \/ f = 5
    \/ f = 6 \/ f = 7)) as (f & E & Hf) by (eexists; split; [done|lia]).
  rewrite E in *. clear H13 E.
  destruct Hf as [->|[->|[->|[->|[->|[->|[->| ->]]]]]]]; destruct X;
    cbn [VALUE Z.eqb Pos.eqb andb rv32 orb] in *; eval_group; try done.
  all: unfold cr, nz, short, fmt_ci, fmt_cr, fmt_cs, cf_rd, cf_rs2, sp, zero, ra.
  all: destruct H12 as [E12|E12]; rewrite ?E12 in *; cbn -[bits] in Hres |- *; try done.
  all: destruct (bits raw 11 7 =? 0), (bits raw 6 2 =? 0); done.
Qed.

Lemma decode_q01_table X raw pc :
  c_reserved_shift X raw = false -> bits raw 1 0 <> 2 ->
  (let '(o, a) := default (OP_C_INVALID, A_I 0 0 raw)
      (if bits raw 1 0 =? 0 then decode_q0 X raw (bits raw 15 13)
       else if bits raw 1 0 =? 1 then decode_q1 X raw (bits raw 15 13) else None) in
   DecodedInstr.new o pc 2 raw a) = c_decoded X raw pc.
Proof.
  intros Hres Hq.
  destruct (decide (bits raw 1 0 = 1 /\ bits raw 15 13 = 4)) as [[E0 E3]|Hmisc].
  { rewrite <- decode_misc_alu_table by done. by rewrite E0, E3. }
  unfold c_decoded. rewrite lookup_at_group. unfold decode_q0, decode_q1, decode_q1_addi,
    decode_q1_addiw_or_jal, decode_q1_li, decode_q1_addi16sp_or_lui, decode_q1_j, decode_q1_beqz,
    decode_q1_bnez, decode_cs_sw_offset, decode_cs_sd_offset.
  rewrite !creg5_bits, !creg3_bits by lia. autorewrite with cfields.
  generalize (decode_misc_alu X raw). intros misc.
  pose proof (bits_bound raw 15 13 8 ltac:(lia) ltac:(done)) as H13.
  change (7 + 4) with 11. change (2 + 2) with 4. change (7 + 2) with 9.
  assert (exists f, bits raw 15 13 = f /\ (f = 0 \/ f = 1 \/ f = 2 \/ f = 3 \/ f = 4 \/ f = 5
    \/ f = 6 \/ f = 7)) as (f & E & Hf) by (eexists; split; [done|lia]).
  assert (exists q, bits raw 1 0 = q /\ (q = 0 \/ q = 1 \/ q = 3)) as (q & E0 & Hq').
  { eexists; split; [done|]. pose proof (bits_bound raw 1 0 4 ltac:(lia) ltac:(done)). lia. }
  rewrite E, E0 in *. clear H13 E E0 Hres Hq.
  destruct Hq' as [->|[->| ->]]; destruct Hf as [->|[->|[->|[->|[->|[->|[->| ->]]]]]]]; destruct X;
    cbn [VALUE Z.eqb Pos.eqb andb rv32 orb] in *; try (by destruct Hmisc); eval_group; try done.
  all: unfold nz, fmt_ci, fmt_cs, cf_rd, cf_rd', cf_rs1', sp, zero.
  all: repeat match goal with |- context [?x =? ?y] => destruct (x =? y) end; done.
Qed.

Lemma decode16_c_table X raw pc :
  c_reserved_shift X raw = false -> decode16_c X raw pc = Some (c_decoded X raw pc).
Proof.
  intros Hres. unfold decode16_c. rewrite mask_quadrant.
  rewrite (land_bits_8 raw 13 3 ltac:(lia) ltac:(lia) : wrap 8 (shr raw 13 &ᵇ 0x7) = bits raw 15 13).
  destruct (decide (bits raw 1 0 = 2)) as [E|E].
  - rewrite <- decode_q2_table by done. rewrite E. cbn [Z.eqb Pos.eqb]. by case_match.
  - rewrite <- decode_q01_table by done. rewrite (proj2 (Z.eqb_neq _ 2) E). by case_match.
Qed.
