(* ===== verification/CLift.v ===== *)
(** * The compressed lifter refines the instruction semantics *)

From S2P Require Import Prelude Xlen IR IRBuild IRSem IRFacts Isa Ext CExt RiscvSpec Fields.
From S2P Require Import LiftFacts BaseLift CSpec.
#[local] Open Scope word_scope.

(** ** Ranges of the fields *)

Lemma cf_rd_range raw : in_u 5 (cf_rd raw).
Proof. apply (bits_range raw 11 7). lia. Qed.
Lemma cf_rs2_range raw : in_u 5 (cf_rs2 raw).
Proof. apply (bits_range raw 6 2). lia. Qed.
Lemma cf_rd'_range raw : in_u 5 (cf_rd' raw).
Proof. pose proof (bits_bound raw 4 2 8 ltac:(lia) ltac:(done)). split; unfold cf_rd'; lia. Qed.
Lemma cf_rs1'_range raw : in_u 5 (cf_rs1' raw).
Proof. pose proof (bits_bound raw 9 7 8 ltac:(lia) ltac:(done)). split; unfold cf_rs1'; lia. Qed.
Lemma sp_range raw : in_u 5 (sp raw).
Proof. done. Qed.
Lemma zero_range raw : in_u 5 (zero raw).
Proof. done. Qed.
#[local] Hint Resolve cf_rd_range cf_rs2_range cf_rd'_range cf_rs1'_range sp_range zero_range : denotes.

(** Record the range of every slice of the goal. *)
Ltac slice_ranges :=
  repeat match goal with
  | |- context [bits ?raw ?h ?l] =>
      lazymatch goal with
      | _ : 0 <= bits raw h l < _ |- _ => fail
      | _ => let b := eval cbv in (2 ^ (h - l + 1)) in
             assert (0 <= bits raw h l < b) by (apply (bits_range raw h l); lia);
             let x := fresh "x" in generalize dependent (bits raw h l); intros x ?
      end
  end.

Lemma c_offsets_range raw :
  in_i 16 (imm_cl_w raw) /\ in_i 16 (imm_cl_d raw) /\ in_i 16 (imm_lwsp raw) /\
  in_i 16 (imm_ldsp raw) /\ in_i 16 (imm_swsp raw) /\ in_i 16 (imm_sdsp raw).
Proof.
  unfold in_i, imm_cl_w, imm_cl_d, imm_lwsp, imm_ldsp, imm_swsp, imm_sdsp. slice_ranges. lia.
Qed.

Lemma imm_shamt_range X raw :
  rv64 X || short raw = true -> 0 <= imm_shamt raw < VALUE X.
Proof.
  unfold imm_shamt, short. slice_ranges. destruct X; cbn; rewrite ?Z.eqb_eq; lia.
Qed.

Lemma imm_cj_range raw : - 2 ^ 31 <= imm_cj raw < 2 ^ 31.
Proof. unfold imm_cj. pose proof (sext_range 12). unfold in_i in *. 
  match goal with |- context [sext 12 ?x] => specialize (H x ltac:(lia)) end. lia. Qed.
Lemma imm_cb_range raw : - 2 ^ 31 <= imm_cb raw < 2 ^ 31.
Proof. unfold imm_cb. pose proof (sext_range 9). unfold in_i in *. 
  match goal with |- context [sext 9 ?x] => specialize (H x ltac:(lia)) end. lia. Qed.

(** ** Shapes of the compressed lifters *)

Section shapes.
Context (X : Xlen) (raw pc size : Z).
Abbreviation w := (VALUE X).

Lemma c_lift_i op f rd rs1 imm :
  op_ok X op f -> in_u 5 (rd raw) -> in_u 5 (rs1 raw) ->
  refines X (lift_i X (fmt_ci rd rs1 imm raw) op) pc size (ci_type f rd rs1 imm X raw pc size).
Proof. intros. by apply (lift_i_args X (rd raw) (rs1 raw)). Qed.

Lemma c_lift_r op f rd rs2 :
  op_ok X op f -> in_u 5 (rd raw) -> in_u 5 (rs2 raw) ->
  refines X (lift_r (fmt_cr rd rd rs2 raw) op) pc size (cr_type f rd rs2 X raw pc size).
Proof. intros. by apply (lift_r_args X (rd raw) (rd raw) (rs2 raw)). Qed.

Lemma c_lift_shamt op f rd :
  shift_ok X w op f -> in_u 5 (rd raw) -> rv64 X || short raw = true ->
  refines X (lift_shamt X (fmt_ci rd rd imm_shamt raw) op) pc size (cshift_type f rd X raw pc size).
Proof.
  intros ? ? Hs. pose proof (imm_shamt_range X raw Hs). pose proof (VALUE_le_64 X).
  apply (lift_shamt_args X (rd raw) (rd raw) pc size ltac:(done) ltac:(done) w); [done | lia | lia].
Qed.

Lemma c_lift_load width sg rd rs1 imm :
  width ∈ [1; 2; 4; 8] -> (forall st a, load X st a width sg = load X st a width true) ->
  in_u 5 (rd raw) -> in_u 5 (rs1 raw) -> in_i 16 (imm raw) ->
  refines X (lift_load (fmt_ci rd rs1 imm raw) width sg) pc size
    (cload_type width rd rs1 imm X raw pc size).
Proof. intros. by apply (lift_load_args X (rd raw) (rs1 raw)). Qed.

Lemma c_lift_store width rs1 rs2 imm :
  width ∈ [1; 2; 4; 8] -> in_u 5 (rs1 raw) -> in_u 5 (rs2 raw) -> in_i 16 (imm raw) ->
  refines X (lift_store X (fmt_cs rs1 rs2 imm raw) width) pc size
    (cstore_type width rs1 rs2 imm X raw pc size).
Proof. intros. by apply (lift_store_args X (rs1 raw) (rs2 raw)). Qed.

Lemma c_lift_mv :
  refines X (lift_mv (fmt_cr cf_rd zero cf_rs2 raw)) pc size (cmv X raw pc size).
Proof. apply refines_write; auto with denotes. Qed.

Lemma c_lift_lui :
  refines X (lift_lui X (A_U (cf_rd raw) (imm_clui raw))) pc size
    (op_lui (cf_rd raw) (imm_clui raw) X pc size).
Proof. apply lift_lui_args; auto with denotes. Qed.

(** [c.li] writes its immediate. *)
Lemma li_ok : op_ok X (fun _ b => b) (fun _ _ v => v).
Proof. red. intros. done. Qed.

Hypotheses (Hpc : pc_ok X pc) (Hsize : 0 <= size <= 4).

Lemma c_lift_jal rd imm :
  in_u 5 rd -> - 2 ^ 31 <= imm < 2 ^ 31 ->
  refines X (lift_jal X (A_J rd imm) pc size) pc size (op_jal rd imm X pc size).
Proof. intros. by apply lift_jal_args. Qed.

(** [c.j] is [c.jal] without a link. *)
Lemma c_lift_j :
  refines X (lift_j X (A_J 0 (imm_cj raw)) pc) pc size (op_jal 0 (imm_cj raw) X pc size).
Proof. apply (c_lift_jal 0 (imm_cj raw) ltac:(done) (imm_cj_range raw)). Qed.

(** The condition of a compressed branch compares with zero. *)
Lemma denotes_cond op c :
  (forall x, eval_binary X op x 0 = Some (b2z (c x))) ->
  denotes X (Expr.binary op (Expr.read (cf_rs1' raw)) (Expr.imm (from_u64 X 0)))
    (fun st => b2z (c (get_reg st (cf_rs1' raw)))).
Proof.
  intros Hop. eapply denotes_binary; [by apply denotes_read, cf_rs1'_range | by apply denotes_small |].
  intros. apply Hop.
Qed.

Lemma c_lift_branch op c :
  (forall x, eval_binary X op x 0 = Some (b2z (c x))) ->
  refines X (target ← pc_relative X pc (imm_cb raw);
             mret ([], Terminator.branch
               (Expr.binary op (Expr.read (cf_rs1' raw)) (Expr.imm (from_u64 X 0))) target))
    pc size (cbranch_type c X raw pc size).
Proof.
  intros Hop. apply (branch_code X pc size Hpc _ (fun st => c (get_reg st (cf_rs1' raw))));
    [by apply denotes_cond | apply imm_cb_range].
Qed.
End shapes.

(** ** Indirect jumps

    The lifted [c.jr] and [c.jalr] jump to the value of the register itself, bit
    0 included. *)

Definition cjalr_code (link : Z) : sem := fun X raw pc size st =>
  (set_reg st link (wrap (VALUE X) (pc + size)), NPc (get_reg st (cf_rd raw))).

(** They agree with the manual on even targets. *)
Lemma cjalr_code_even link X raw pc size st :
  get_reg st (cf_rd raw) mod 2 = 0 ->
  cjalr_code link X raw pc size st = cjalr_type link X raw pc size st.
Proof. intros E. unfold cjalr_code, cjalr_type. by rewrite E, Z.sub_0_r. Qed.

Section indirect.
Context (X : Xlen) (raw pc size : Z).
Hypotheses (Hpc : pc_ok X pc) (Hsize : 0 <= size <= 4).
Abbreviation w := (VALUE X).

Lemma c_lift_jr :
  refines X (lift_jr (fmt_ci zero cf_rd zero raw)) pc size (cjalr_code 0 X raw pc size).
Proof.
  eexists _, _. split; [done|]. split; [done|]. split.
  - cbn. rewrite andb_true_r. apply in_ub_spec, cf_rd_range.
  - intros vars extern st op rw Hst _. exists st. done.
Qed.

Lemma c_lift_jalr :
  refines X (lift_jalr X (fmt_ci ra cf_rd zero raw) pc size) pc size (cjalr_code 1 X raw pc size).
Proof.
  pose proof (cf_rd_range raw) as Hr. unfold lift_jalr, fmt_ci, ra.
  rewrite (link_value_spec X pc Hpc) by done.
  destruct (Z.eqb_spec 1 (cf_rd raw)) as [E|E]; (eexists _, _; split; [done|]);
    (split; [|split]).
  1, 4: cbn; rewrite <- ?E; cbn; by rewrite (proj2 (in_ub_spec _ _) (in_reg_wrap X (pc + size))).
  - done.
  - intros vars extern st op rw Hst _. eexists. split; [|]; cbn.
    + unfold exec_instr. cbn. reflexivity.
    + done.
  - cbn. rewrite andb_true_r. by apply in_ub_spec.
  - intros vars extern st op rw Hst _. eexists. split; [|reflexivity].
    unfold exec_instr. cbn. unfold get_reg, set_reg. cbn. unfold upd.
    by rewrite (proj2 (Z.eqb_neq (cf_rd raw) 1)) by done.
Qed.
End indirect.

(** ** The whole table *)

Ltac eval_lift_c :=
  match goal with |- context [lift_c ?X ?a ?o ?pc ?size] =>
    let l := constr:(lift_c X a o pc size) in
    let v := eval cbn -[lift_r lift_i lift_mv lift_shamt lift_lui lift_load lift_store lift_j
      lift_jal lift_jr lift_jalr lift_beqz lift_bnez fmt_ci fmt_cr fmt_cs fmt_none] in l in
    change l with v
  end.

#[local] Hint Resolve li_ok c_lift_mv c_lift_lui c_lift_j c_lift_jr c_lift_jalr : lifting.

Ltac lift_c_case X raw :=
  lazymatch goal with
  | |- refines _ (lift_r _ _) _ _ _ => apply c_lift_r; by auto with lifting denotes
  | |- refines _ (lift_i _ _ _) _ _ _ => apply c_lift_i; by auto with lifting denotes
  | |- refines _ (lift_shamt _ _ _) _ _ _ => apply c_lift_shamt; by auto with lifting denotes
  | |- refines _ (lift_load _ _ _) _ _ _ =>
      pose proof (c_offsets_range raw) as (? & ? & ? & ? & ? & ?);
      apply c_lift_load; [width_ok | destruct X; intros; first [done | apply load_8_signed] | by auto with denotes ..]
  | |- refines _ (lift_store _ _ _) _ _ _ =>
      pose proof (c_offsets_range raw) as (? & ? & ? & ? & ? & ?);
      apply c_lift_store; [width_ok | by auto with denotes ..]
  | |- refines _ (lift_jal _ _ _ _) _ _ _ => apply c_lift_jal; [done.. | apply imm_cj_range]
  | |- refines _ (lift_beqz _ _ _) _ _ _ => by apply (c_lift_branch X raw _ _ ltac:(done) Eq)
  | |- refines _ (lift_bnez _ _ _) _ _ _ => by apply (c_lift_branch X raw _ _ ltac:(done) Ne)
  | _ => by auto with lifting
  end.

(** Every compressed instruction but the indirect jumps. *)
Lemma lift_c_refines X e raw pc size :
  In e isa_C -> c_avail e X = true -> c_cond e raw = true ->
  c_opid e <> OP_C_JR -> c_opid e <> OP_C_JALR -> pc_ok X pc -> 0 <= size <= 4 ->
  refines X (lift_c X (c_args e raw) (c_opid e) pc size) pc size (c_sem e X raw pc size).
Proof.
  intros He Hav Hc H1 H2 Hpc Hsize.
  unfold isa_C in He. cbn [In] in He.
  repeat (destruct He as [<-|He]); [..|done].
  all: cbn [c_avail c_opid c_args c_sem c_cond rv32 rv64 any] in *; eval_lift_c; try done.
  all: clear H1 H2.
  all: try (assert (rv64 X || short raw = true) by
         (destruct X; try done; apply andb_true_iff in Hc as [_ ?]; done)).
  all: lift_c_case X raw.
Qed.

Lemma lift_c_indirect X raw pc size :
  pc_ok X pc -> 0 <= size <= 4 ->
  refines X (lift_c X (fmt_ci zero cf_rd zero raw) OP_C_JR pc size) pc size (cjalr_code 0 X raw pc size)
  /\ refines X (lift_c X (fmt_ci ra cf_rd zero raw) OP_C_JALR pc size) pc size (cjalr_code 1 X raw pc size).
Proof. intros. split; eval_lift_c; auto with lifting. Qed.

(** An encoding outside the table traps. *)
Lemma lift_c_invalid X args pc size :
  lift_c X args OP_C_INVALID pc size = Ok ([], Terminator.trap "invalid").
Proof. done. Qed.
