(* ===== verification/Promise.v ===== *)
(** * What an extension promises to the registry

    The interface between the instruction extensions and the registry: an
    extension implements a table of instructions when its decoder finds exactly
    the words of the table and the code it lifts an instruction to refines the
    effect the table gives.  The theorems on the registry are proved from this
    interface; the instances discharge it, extension by extension. *)

From S2P Require Import Base BaseSpec BaseDecode BaseLift MExt MCorrect AExt ACorrect ZicsrExt.
From S2P Require Import ZicsrCorrect ZifenceiExt ZicondExt ZicondCorrect ZbaExt ZbaCorrect ZbbExt.
From S2P Require Import ZbbCorrect ZbsExt ZbsCorrect ZbkbExt ZbkbCorrect.
From S2P Require Import Prelude Xlen IR IRBuild IRSem IRFacts Isa Ext RiscvSpec TableDecode.
From S2P Require Import LiftFacts.
#[local] Open Scope word_scope.

(** Lifting yields well-formed code with the effect [f], up to temporaries. *)
Definition instr_refines (X : Xlen) (r : result InstrIR) (f : state -> state * next) : Prop :=
  exists ir, r = Ok ir /\
    forallb (wf_stmt X) (statements ir) = true /\ wf_term X (terminator ir) = true /\
    forall vars extern st, wf_state X st -> s_exited st = 0 ->
      exists st', exec_instr vars extern X st ir = Some (st', (f st).2) /\ arch st' = arch (f st).1.

Lemma lift_with_refines X i r f :
  refines X r (di_pc i) (di_size i) f -> instr_refines X (lift_with i r) f.
Proof.
  intros (ss & t & -> & Hs & Ht & H). eexists. split; [done|]. split_and!; [done..|].
  intros. by apply H.
Qed.

(** The two cases in which the lifted code departs from the manual: [mret] does
    not jump, and a CSR exchange whose destination is its source reads the
    destination. *)
Definition departs (raw : Z) (e : isa_entry) : bool :=
  (i_opid e =ₒ OP_MRET) || csr_overlap (i_opid e) raw.

Class Implements (X : Xlen) (x : InstructionExtension) (tbl : list isa_entry) : Prop := {
  imp_decode16 raw pc : decode16 x raw pc = None;
  imp_decode32 raw pc :
    in_u 32 raw -> reserved_shift X raw = false -> decode32 x raw pc = table_decode X tbl raw pc;
  imp_ext e : In e tbl -> ext (i_opid e) = ext_id x;
  imp_lift e raw pc :
    In e tbl -> i_avail e X = true -> departs raw e = false -> pc_ok X pc ->
    instr_refines X (lift x (decoded_of pc raw e)) (i_sem e X raw pc 4)
}.

(** One word: refused when the table does not have it; otherwise decoded as the
    table says, and lifted to code with the effect of the table. *)
Definition word_correct (X : Xlen) (x : InstructionExtension) (tbl : list isa_entry) (raw pc : Z) : Prop :=
  match lookup_isa X tbl raw with
  | None => decode32 x raw pc = None
  | Some e =>
      decode32 x raw pc = Some (decoded_of pc raw e) /\
      (departs raw e = false ->
       instr_refines X (lift x (decoded_of pc raw e)) (i_sem e X raw pc 4))
  end.

Lemma word_correct_intro X x tbl raw pc :
  decode32 x raw pc = table_decode X tbl raw pc ->
  (forall e, In e tbl -> i_avail e X = true -> departs raw e = false ->
     instr_refines X (lift x (decoded_of pc raw e)) (i_sem e X raw pc 4)) ->
  word_correct X x tbl raw pc.
Proof.
  intros Hd Hl. unfold word_correct. rewrite Hd. unfold table_decode.
  destruct (lookup_isa X tbl raw) as [e|] eqn:E; [|done]. split; [done|]. intros Hdep.
  apply find_some in E as [He [Hav _]%andb_true_iff]. by apply Hl.
Qed.

(** All entries of a table carry the identifier of the extension. *)
Lemma table_ext tbl k :
  forallb (fun e => ext (i_opid e) =? k) tbl = true -> forall e, In e tbl -> ext (i_opid e) = k.
Proof. intros H e He. rewrite forallb_forall in H. by apply Z.eqb_eq, H. Qed.

Ltac implements decode_table lift_lemma :=
  split;
  [ done
  | intros; apply decode_table
  | by apply table_ext
  | intros e raw pc He Hav Hd Hpc; apply lift_with_refines, lift_lemma; done ].

#[export] Instance BaseExtension_implements X : Implements X (BaseExtension X) isa_I.
Proof.
  split; [done | intros; by apply decode_32bit_table | by apply table_ext |].
  intros e raw pc He Hav [Hm _]%orb_false_iff Hpc. apply lift_with_refines, lift_base_refines; try done.
  intros E. by rewrite E in Hm.
Qed.

#[export] Instance MExtension_implements X : Implements X (MExtension X) isa_M.
Proof. implements decode32_m_table lift_m_refines. Qed.
#[export] Instance AExtension_implements X : Implements X (AExtension X) isa_A.
Proof. implements decode32_a_table lift_a_refines. Qed.
#[export] Instance ZbaExtension_implements X : Implements X (ZbaExtension X) isa_Zba.
Proof. implements decode32_zba_table lift_zba_refines. Qed.
#[export] Instance ZbbExtension_implements X : Implements X (ZbbExtension X) isa_Zbb.
Proof. implements decode32_zbb_table lift_zbb_refines. Qed.
#[export] Instance ZbsExtension_implements X : Implements X (ZbsExtension X) isa_Zbs.
Proof. implements decode32_zbs_table lift_zbs_refines. Qed.
#[export] Instance ZbkbExtension_implements X : Implements X (ZbkbExtension X) isa_Zbkb.
Proof. implements decode32_zbkb_table lift_zbkb_refines. Qed.
#[export] Instance ZicondExtension_implements X : Implements X (ZicondExtension X) isa_Zicond.
Proof. implements decode32_zicond_table lift_zicond_refines. Qed.
#[export] Instance ZifenceiExtension_implements X : Implements X (ZifenceiExtension X) isa_Zifencei.
Proof. implements decode32_zifencei_table lift_zifencei_refines. Qed.

#[export] Instance ZicsrExtension_implements X : Implements X (ZicsrExtension X) isa_Zicsr.
Proof.
  split; [done | intros; apply decode32_zicsr_table | by apply table_ext |].
  intros e raw pc He Hav [_ Ho]%orb_false_iff Hpc. by apply lift_with_refines, lift_zicsr_refines.
Qed.
