(* ===== verification/RegistryCorrect.v ===== *)
(** * The registry: decoding and lifting with the standard extensions *)

From S2P Require Import Base MExt AExt ZicsrExt ZifenceiExt ZbaExt ZbbExt ZbsExt ZbkbExt ZicondExt.
From S2P Require Import BaseSpec BaseLift MCorrect ACorrect ZicsrCorrect ZicondCorrect ZbaCorrect.
From S2P Require Import ZbbCorrect ZbsCorrect ZbkbCorrect CExt CSpec CDecode CLift.
From S2P Require Import Prelude Xlen IR IRBuild IRSem IRFacts Isa Ext Syscalls Registry RiscvSpec.
From S2P Require Import Fields TableDecode LiftFacts Promise.
#[local] Open Scope word_scope.

(** ** Bytes *)

Lemma from_le_bytes_range l : Forall (in_u 8) l -> in_u (8 * Z.of_nat (length l)) (from_le_bytes l).
Proof.
  induction 1 as [|b l [H1 H2] _ IH]; [done|]. cbn [from_le_bytes length]. unfold in_u in *.
  replace (8 * Z.of_nat (S (length l))) with (8 + 8 * Z.of_nat (length l)) by lia.
  rewrite Z.pow_add_r by lia. change (2 ^ 8) with 256 in *. nia.
Qed.

Lemma word_range l : Forall (in_u 8) l -> (4 <= length l)%nat -> in_u 32 (from_le_bytes (take 4 l)).
Proof.
  intros H Hl. apply (Forall_take _ 4), from_le_bytes_range in H. by rewrite length_take_le in H.
Qed.

(** ** Chains of extensions *)

Lemma lookup_isa_app X l1 l2 raw :
  lookup_isa X (l1 ++ l2) raw
  = match lookup_isa X l1 raw with Some e => Some e | None => lookup_isa X l2 raw end.
Proof.
  unfold lookup_isa. induction l1 as [|e l1 IH]; simpl; [done|]. by destruct (_ && _).
Qed.

Lemma lookup_isa_Some X l raw e :
  lookup_isa X l raw = Some e -> In e l /\ i_avail e X = true /\ matches (i_pat e) raw = true.
Proof. intros [? [? ?]%andb_true_iff]%find_some. done. Qed.

(** Too few bytes. *)
Lemma chain_decode_short es bytes pc :
  (length bytes < 2)%nat \/
    negb (from_le_bytes (take 2 bytes) &ᵇ 0x3 =? 0x3) = false /\ (length bytes < 4)%nat ->
  ExtensionRegistry.decode_from es bytes pc = None.
Proof.
  intros H. induction es as [|x es IH]; [done|]. cbn -[take]. unfold decode. rewrite IH.
  destruct (Nat.ltb_spec (length bytes) 2); [done|].
  destruct H as [?|[-> ?]]; [lia|]. by rewrite (proj2 (Nat.leb_gt _ _)).
Qed.

Section chain.
Context (X : Xlen) (es : list InstructionExtension) (ts : list (list isa_entry)).
Hypothesis (Himp : Forall2 (Implements X) es ts).

(** No extension of the chain takes a compressed instruction. *)
Lemma chain_decode16 bytes pc :
  negb (from_le_bytes (take 2 bytes) &ᵇ 0x3 =? 0x3) = true ->
  ExtensionRegistry.decode_from es bytes pc = None.
Proof.
  intros Hlow. induction Himp as [|x t es' ts' Hx Hrest IH]; [done|]. specialize (IH Hrest). cbn. unfold decode.
  rewrite Hlow, imp_decode16. by destruct (_ <? _)%nat.
Qed.

(** A 32-bit word is looked up in the tables, in the order of the extensions. *)
Lemma chain_decode32 bytes pc :
  Forall (in_u 8) bytes -> (4 <= length bytes)%nat ->
  negb (from_le_bytes (take 2 bytes) &ᵇ 0x3 =? 0x3) = false ->
  reserved_shift X (from_le_bytes (take 4 bytes)) = false ->
  ExtensionRegistry.decode_from es bytes pc
  = table_decode X (concat ts) (from_le_bytes (take 4 bytes)) pc.
Proof.
  intros Hb Hl Hlow Hres. pose proof (word_range bytes Hb Hl) as Hraw.
  induction Himp as [|x t es' ts' Hx Hrest IH]; [done|]. specialize (IH Hrest). cbn. unfold decode.
  rewrite (proj2 (Nat.ltb_ge _ _)), Hlow, (proj2 (Nat.leb_le _ _)), imp_decode32 by (done || lia).
  rewrite IH. unfold table_decode. fold (lookup_isa X (t ++ concat ts') (from_le_bytes (take 4 bytes))).
  rewrite lookup_isa_app.
  by destruct (lookup_isa X t _).
Qed.

(** The first extension with the identifier of an entry is the one whose table
    holds it. *)
Lemma chain_lift e raw pc :
  NoDup (map ext_id es) -> In e (concat ts) -> i_avail e X = true -> departs raw e = false ->
  pc_ok X pc ->
  instr_refines X (ExtensionRegistry.lift_from es (decoded_of pc raw e)) (i_sem e X raw pc 4).
Proof.
  intros Hnd He Hav Hd Hpc. induction Himp as [|x t es' ts' Hx Hrest IH]; [done|]. specialize (IH Hrest).
  cbn in Hnd. apply NoDup_cons in Hnd as [Hni Hnd]. cbn in He. apply in_app_iff in He.
  cbn -[lift]. destruct (Z.eqb_spec (ext_id x) (ext (i_opid e))) as [E|E].
  - destruct He as [He|He]; [by apply imp_lift|]. exfalso. apply Hni. rewrite E. clear -Hrest He.
    induction Hrest as [|y u ys us Hy _ IH]; [done|]. cbn in He. apply in_app_iff in He.
    cbn. rewrite elem_of_cons. destruct He as [He|He]; [left; by apply imp_ext | right; auto].
  - destruct He as [He|He]; [by rewrite (imp_ext e He) in E | by apply IH].
Qed.
End chain.

(** ** The standard registry *)

Definition standard_tables : list (list isa_entry) :=
  [isa_I; isa_M; isa_A; isa_Zicsr; isa_Zifencei; isa_Zba; isa_Zbb; isa_Zbs; isa_Zbkb; isa_Zicond].

(** Every 32-bit instruction of the standard extensions. *)
Definition isa_standard : list isa_entry := concat standard_tables.

Definition standard_chain (X : Xlen) : list InstructionExtension :=
  drop 1 (extensions (ExtensionRegistry.standard X)).

Lemma standard_extensions X :
  extensions (ExtensionRegistry.standard X) = CExtension X :: standard_chain X.
Proof. done. Qed.

Lemma standard_implements X : Forall2 (Implements X) (standard_chain X) standard_tables.
Proof.
  change (standard_chain X) with
    [Base.BaseExtension X; MExtension X; AExtension X; ZicsrExtension X; ZifenceiExtension X;
     ZbaExtension X; ZbbExtension X; ZbsExtension X; ZbkbExtension X; ZicondExtension X].
  repeat apply List.Forall2_cons; [..|apply List.Forall2_nil].
  - apply BaseExtension_implements.
  - apply MExtension_implements.
  - apply AExtension_implements.
  - apply ZicsrExtension_implements.
  - apply ZifenceiExtension_implements.
  - apply ZbaExtension_implements.
  - apply ZbbExtension_implements.
  - apply ZbsExtension_implements.
  - apply ZbkbExtension_implements.
  - apply ZicondExtension_implements.
Qed.

Lemma standard_ids X : NoDup (map ext_id (standard_chain X)).
Proof. change (NoDup [0; 1; 2; 4; 5; 6; 7; 8; 9; 10]). by apply (bool_decide_unpack _). Qed.

(** What the bytes at [pc] are, by the manual. *)
Definition isa_decode (X : Xlen) (bytes : list Z) (pc : Z) : option DecodedInstr :=
  if (length bytes <? 2)%nat then None
  else if negb (from_le_bytes (take 2 bytes) mod 4 =? 3)
       then Some (c_decoded X (from_le_bytes (take 2 bytes)) pc)
  else if (4 <=? length bytes)%nat
       then table_decode X isa_standard (from_le_bytes (take 4 bytes)) pc
  else None.

(** The word is not one of the shifts by 32 and more that RV32 reserves. *)
Definition not_reserved (X : Xlen) (bytes : list Z) : bool :=
  negb (c_reserved_shift X (from_le_bytes (take 2 bytes)))
  && negb (reserved_shift X (from_le_bytes (take 4 bytes))).

Lemma low_bits x : x &ᵇ 0x3 = x mod 4.
Proof. by apply (Z.land_ones x 2). Qed.

Lemma standard_decode_spec X bytes pc :
  Forall (in_u 8) bytes -> not_reserved X bytes = true ->
  ExtensionRegistry.decode (ExtensionRegistry.standard X) bytes pc = isa_decode X bytes pc.
Proof.
  intros Hb [Hc Hr]%andb_true_iff. apply negb_true_iff in Hc, Hr.
  unfold ExtensionRegistry.decode, isa_decode. rewrite standard_extensions.
  cbn [ExtensionRegistry.decode_from]. unfold decode.
  destruct (Nat.ltb_spec (length bytes) 2) as [Hl|Hl].
  { by apply chain_decode_short; left. }
  rewrite <- low_bits. destruct (negb _) eqn:Hlow.
  - cbn [CExtension decode16]. by rewrite decode16_c_table.
  - destruct (Nat.leb_spec 4 (length bytes)) as [H4|H4]; cbn [CExtension decode32]; unfold no_decode.
    + by apply chain_decode32; [apply standard_implements|..].
    + apply chain_decode_short. by right.
Qed.

(** ** Lifting *)

Lemma lift_no_override r i :
  overrides r = ∅ -> OpId.eqb (opid i) OP_ECALL = false ->
  ExtensionRegistry.lift r i = ExtensionRegistry.lift_from (extensions r) i.
Proof.
  intros Ho He. unfold ExtensionRegistry.lift, ExtensionRegistry.lift_without_override.
  by rewrite Ho, lookup_empty, He.
Qed.

(** 32-bit instructions. *)
Lemma standard_lift32 X e raw pc :
  In e isa_standard -> i_avail e X = true -> departs raw e = false -> pc_ok X pc ->
  OpId.eqb (i_opid e) OP_ECALL = false ->
  instr_refines X (ExtensionRegistry.lift (ExtensionRegistry.standard X) (decoded_of pc raw e))
    (i_sem e X raw pc 4).
Proof.
  intros He Hav Hd Hpc Hec. rewrite lift_no_override, standard_extensions by done.
  cbn [ExtensionRegistry.lift_from].
  assert ((ext_id (CExtension X) =? ext (opid (decoded_of pc raw e))) = false) as ->.
  { assert (forallb (fun e => negb (ext_id (CExtension X) =? ext (i_opid e))) isa_standard = true) as H
      by (by destruct X; vm_compute).
    rewrite forallb_forall in H. by apply negb_true_iff, (H e He). }
  by apply (chain_lift X _ _ (standard_implements X)); [apply standard_ids|..].
Qed.

(** Compressed instructions. *)
Lemma standard_lift16 X o args raw pc :
  ext o = EXT_C ->
  ExtensionRegistry.lift (ExtensionRegistry.standard X) (mkDecoded o pc 2 raw args)
  = lift_with (mkDecoded o pc 2 raw args) (lift_c X args o pc 2).
Proof.
  intros E. rewrite lift_no_override, standard_extensions; [|done|].
  - cbn [ExtensionRegistry.lift_from]. cbn [opid]. by rewrite E.
  - cbn [opid]. unfold OpId.eqb. by rewrite E.
Qed.

Lemma isa_C_ext e : In e isa_C -> ext (c_opid e) = EXT_C.
Proof.
  intros He. assert (forallb (fun e => ext (c_opid e) =? EXT_C) isa_C = true) as H by done.
  rewrite forallb_forall in H. by apply Z.eqb_eq, H.
Qed.

Lemma lookup_c_Some X raw e :
  lookup_c X raw = Some e -> In e isa_C /\ c_avail e X = true /\ c_cond e raw = true.
Proof. intros [? [? [? ?]%andb_true_iff]%andb_true_iff]%find_some. done. Qed.

(** ** The effect of the bytes at [pc], by the manual

    In the default environment an [ecall] ends the program with the exit code in
    [a0].  An illegal compressed encoding traps.  [None]: no instruction, or one
    whose lifted code departs from the manual. *)

Definition ecall_exit : sem := fun X raw pc size st => (st, NExit (get_reg st REG_A0)).

Definition effect32 (X : Xlen) (raw pc : Z) (e : isa_entry) : option (state -> state * next) :=
  if departs raw e then None
  else Some (if OpId.eqb (i_opid e) OP_ECALL then ecall_exit X raw pc 4 else i_sem e X raw pc 4).

Definition effect16 (X : Xlen) (raw pc : Z) : option (state -> state * next) :=
  match lookup_c X raw with
  | None => Some (fun st => (st, NTrap))
  | Some e =>
      if (OpId.eqb (c_opid e) OP_C_JR) || (OpId.eqb (c_opid e) OP_C_JALR) then None
      else Some (c_sem e X raw pc 2)
  end.

Definition isa_effect (X : Xlen) (bytes : list Z) (pc : Z) : option (state -> state * next) :=
  if (length bytes <? 2)%nat then None
  else if negb (from_le_bytes (take 2 bytes) mod 4 =? 3) then effect16 X (from_le_bytes (take 2 bytes)) pc
  else if (4 <=? length bytes)%nat
       then lookup_isa X isa_standard (from_le_bytes (take 4 bytes)) ≫= effect32 X (from_le_bytes (take 4 bytes)) pc
  else None.

Lemma opid_eqb_spec a b : OpId.eqb a b = true <-> a = b.
Proof.
  destruct a, b. unfold OpId.eqb. cbn. rewrite andb_true_iff, !Z.eqb_eq.
  split; [by intros [-> ->] | by intros [=]].
Qed.

Lemma effect16_refines X raw pc f :
  pc_ok X pc -> effect16 X raw pc = Some f ->
  instr_refines X (ExtensionRegistry.lift (ExtensionRegistry.standard X) (c_decoded X raw pc)) f.
Proof.
  intros Hpc Hf. unfold c_decoded, effect16 in *. destruct (lookup_c X raw) as [e|] eqn:E.
  - apply lookup_c_Some in E as (He & Hav & Hc). rewrite standard_lift16 by by apply isa_C_ext.
    destruct (_ || _) eqn:Hj; simplify_eq. apply orb_false_iff in Hj as [H1 H2].
    apply lift_with_refines, lift_c_refines; try done;
      intros Eo%opid_eqb_spec; congruence.
  - simplify_eq. rewrite standard_lift16 by done. apply lift_with_refines.
    apply (refines_ecall X raw).
Qed.

Lemma effect32_refines X raw pc e f :
  pc_ok X pc -> lookup_isa X isa_standard raw = Some e -> effect32 X raw pc e = Some f ->
  instr_refines X (ExtensionRegistry.lift (ExtensionRegistry.standard X) (decoded_of pc raw e)) f.
Proof.
  intros Hpc (He & Hav & _)%lookup_isa_Some Hf. unfold effect32 in Hf.
  destruct (departs raw e) eqn:Hd; simplify_eq. destruct (OpId.eqb _ _) eqn:Hec.
  - unfold ExtensionRegistry.lift, ExtensionRegistry.lift_without_override. cbn [decoded_of opid].
    rewrite Hec. eexists. split; [done|]. split; [done|]. split; [done|]. intros. by eexists.
  - by apply standard_lift32.
Qed.

Lemma standard_step_spec X bytes pc f :
  Forall (in_u 8) bytes -> not_reserved X bytes = true -> pc_ok X pc ->
  isa_effect X bytes pc = Some f ->
  exists i, ExtensionRegistry.decode (ExtensionRegistry.standard X) bytes pc = Some i /\ di_pc i = pc /\
    instr_refines X (ExtensionRegistry.lift (ExtensionRegistry.standard X) i) f.
Proof.
  intros Hb Hr Hpc Hf. rewrite standard_decode_spec by done.
  unfold isa_decode, isa_effect in *. destruct (_ <? _)%nat; [done|]. destruct (negb _).
  - eexists. split; [done|]. split; [|by apply effect16_refines]. unfold c_decoded. by case_match.
  - destruct (_ <=? _)%nat; [|done]. unfold table_decode.
    destruct (lookup_isa _ _ _) as [e|] eqn:E; [|done]. cbn in Hf |- *.
    eexists. split; [done|]. split; [done|]. by apply effect32_refines.
Qed.
