(* ===== verification/Order.v ===== *)
(** * Registration order

    The encodings of the standard extensions are disjoint, so that the order in
    which extensions are registered does not change what is decoded; the one
    exception is [zext.h], which is [pack] with [x0]. *)

From S2P Require Import Base MExt AExt ZicsrExt ZifenceiExt ZbaExt ZbbExt ZbsExt ZbkbExt ZicondExt.
From S2P Require Import BaseSpec BaseLift MCorrect ACorrect ZicsrCorrect ZicondCorrect ZbaCorrect.
From S2P Require Import ZbbCorrect ZbsCorrect ZbkbCorrect CExt CSpec CDecode CLift.
From S2P Require Import Prelude Xlen IR IRBuild IRSem IRFacts Isa Ext Syscalls Registry RiscvSpec.
From S2P Require Import Fields TableDecode LiftFacts Promise RegistryCorrect.
#[local] Open Scope word_scope.

(** ** Patterns that can match the same word *)

Definition overlap_hi (p q : option (Z * Z)) : bool :=
  match p, q with
  | Some (lo, v), Some (lo', v') =>
      if lo <=? lo' then v / 2 ^ (lo' - lo) =? v' else v' / 2 ^ (lo - lo') =? v
  | _, _ => true
  end.

Definition overlap (p q : pattern) : bool :=
  (p_opcode p =? p_opcode q)
  && match p_funct3 p, p_funct3 q with Some f, Some g => f =? g | _, _ => true end
  && overlap_hi (p_hi p) (p_hi q).

Lemma bits_31_div raw lo lo' :
  0 <= lo <= lo' -> lo' <= 31 -> bits raw 31 lo / 2 ^ (lo' - lo) = bits raw 31 lo'.
Proof.
  intros. unfold bits, wrap. replace (31 - lo + 1) with ((lo' - lo) + (31 - lo' + 1)) by lia.
  rewrite Z.pow_add_r, Z.rem_mul_r by (try apply Z.pow_nonzero; lia || apply pow2_pos; lia).
  replace (2 ^ lo') with (2 ^ lo * 2 ^ (lo' - lo)) by (rewrite <- Z.pow_add_r by lia; f_equal; lia).
  pose proof (pow2_pos lo ltac:(lia)). pose proof (pow2_pos (lo' - lo) ltac:(lia)).
  rewrite <- Z.div_div by lia.
  rewrite (Z.mul_comm (2 ^ (lo' - lo))), Z.div_add by lia.
  rewrite (Z.div_small (_ mod _)) by (apply Z.mod_pos_bound; lia). lia.
Qed.

Definition hi_ok (p : pattern) : bool :=
  match p_hi p with Some (lo, _) => (0 <=? lo) && (lo <=? 31) | None => true end.

Lemma overlap_hi_sound raw lo v lo' v' :
  0 <= lo <= 31 -> 0 <= lo' <= 31 -> bits raw 31 lo = v -> bits raw 31 lo' = v' ->
  overlap_hi (Some (lo, v)) (Some (lo', v')) = true.
Proof.
  intros ? ? <- <-. cbn. destruct (Z.leb_spec lo lo'); rewrite bits_31_div by lia; apply Z.eqb_refl.
Qed.

Lemma overlap_sound p q raw :
  hi_ok p = true -> hi_ok q = true -> matches p raw = true -> matches q raw = true ->
  overlap p q = true.
Proof.
  unfold hi_ok, matches, slices_match, overlap. intros Hp Hq.
  intros [[Ep Fp]%andb_true_iff Gp]%andb_true_iff [[Eq Fq]%andb_true_iff Gq]%andb_true_iff.
  apply Z.eqb_eq in Ep, Eq. rewrite <- Ep, <- Eq, Z.eqb_refl. cbn.
  apply andb_true_iff. split.
  - destruct (p_funct3 p), (p_funct3 q); try done. apply Z.eqb_eq in Fp, Fq. apply Z.eqb_eq. congruence.
  - destruct (p_hi p) as [[lo v]|], (p_hi q) as [[lo' v']|]; try done.
    apply Z.eqb_eq in Gp, Gq. apply (overlap_hi_sound raw); lia.
Qed.

(** ** The standard table *)

Definition clash (X : Xlen) (a b : isa_entry) : bool :=
  i_avail a X && i_avail b X && overlap (i_pat a) (i_pat b)
  && negb (OpId.eqb (i_opid a) OP_ZEXT_H).

Fixpoint no_clash (X : Xlen) (l : list isa_entry) : bool :=
  match l with
  | [] => true
  | a :: l' => forallb (fun b => negb (clash X a b)) l' && no_clash X l'
  end.

Lemma standard_no_clash X : no_clash X isa_standard = true.
Proof. destruct X; vm_compute; done. Qed.

Lemma standard_hi_ok e : In e isa_standard -> hi_ok (i_pat e) = true.
Proof.
  assert (forallb (fun e => hi_ok (i_pat e)) isa_standard = true) as H by (vm_compute; done).
  rewrite forallb_forall in H. apply H.
Qed.

Definition is_zext_h (X : Xlen) (raw : Z) : bool :=
  existsb (fun e => i_avail e X && OpId.eqb (i_opid e) OP_ZEXT_H && matches (i_pat e) raw) isa_standard.

Lemma no_clash_unique X l raw a b :
  no_clash X l = true -> (forall e, In e l -> hi_ok (i_pat e) = true) ->
  (forall e, In e l -> i_avail e X = true -> matches (i_pat e) raw = true ->
     OpId.eqb (i_opid e) OP_ZEXT_H = false) ->
  In a l -> In b l -> i_avail a X = true -> i_avail b X = true ->
  matches (i_pat a) raw = true -> matches (i_pat b) raw = true -> a = b.
Proof.
  intros Hc Hok Hz. induction l as [|e l IH]; [done|]. cbn [no_clash] in Hc.
  apply andb_true_iff in Hc as [Hc Hc']. rewrite forallb_forall in Hc.
  assert (forall b, In b l -> i_avail e X = true -> i_avail b X = true ->
    matches (i_pat e) raw = true -> matches (i_pat b) raw = true -> False) as Hbad.
  { intros x Hx Ha Hb Me Mx. specialize (Hc x Hx). unfold clash in Hc.
    rewrite Ha, Hb, (Hz e (in_eq _ _) Ha Me) in Hc.
    rewrite (overlap_sound (i_pat e) (i_pat x) raw) in Hc by (done || apply Hok; cbn; auto).
    done. }
  specialize (IH Hc' (fun e' H => Hok e' (in_cons _ _ _ H)) (fun e' H => Hz e' (in_cons _ _ _ H))).
  intros [->|Ha] [->|Hb] Va Vb Ma Mb; [done | exfalso; eauto | exfalso; eauto | by apply IH].
Qed.

Lemma standard_unique X raw a b :
  is_zext_h X raw = false -> In a isa_standard -> In b isa_standard ->
  i_avail a X = true -> i_avail b X = true ->
  matches (i_pat a) raw = true -> matches (i_pat b) raw = true -> a = b.
Proof.
  intros Hz. apply no_clash_unique; [apply standard_no_clash | apply standard_hi_ok|].
  intros e He Hav Hm. destruct (OpId.eqb _ _) eqn:E; [|done].
  unfold is_zext_h in Hz. exfalso. rewrite <- not_true_iff_false in Hz. apply Hz.
  apply existsb_exists. exists e. by rewrite Hav, E, Hm.
Qed.

(** ** Any order of the extensions *)

(** All extensions that accept the bytes agree. *)
Lemma decode_from_agree es bytes pc i :
  (forall x y i j, In x es -> In y es -> Ext.decode x bytes pc = Some i ->
     Ext.decode y bytes pc = Some j -> i = j) ->
  ExtensionRegistry.decode_from es bytes pc = Some i <->
  exists x, In x es /\ Ext.decode x bytes pc = Some i.
Proof.
  intros Hag. split.
  - clear Hag. induction es as [|x es IH]; [done|]. cbn. destruct (Ext.decode x bytes pc) eqn:E.
    + intros [= ->]. eauto.
    + intros (y & ? & ?)%IH. eauto.
  - intros (x & Hx & Hi). induction es as [|y es IH]; [done|]. cbn.
    destruct (Ext.decode y bytes pc) as [j|] eqn:E.
    + f_equal. by apply (Hag y x); [left|..].
    + destruct Hx as [->|Hx]; [congruence|]. apply IH; [|done]. intros. by eapply (Hag x0 y0); try right.
Qed.

Lemma chain_member X es ts x :
  Forall2 (Implements X) es ts -> In x es -> exists t, In t ts /\ Implements X x t.
Proof.
  induction 1 as [|y u es' ts' Hy _ IH]; [done|]. intros [->|Hx].
  - exists u. split; [by left | done].
  - destruct (IH Hx) as (t & ? & ?). exists t. split; [by right | done].
Qed.

Lemma standard_agree X bytes pc x y i j :
  Forall (in_u 8) bytes -> not_reserved X bytes = true ->
  is_zext_h X (from_le_bytes (take 4 bytes)) = false ->
  In x (standard_chain X) -> In y (standard_chain X) ->
  Ext.decode x bytes pc = Some i -> Ext.decode y bytes pc = Some j -> i = j.
Proof.
  intros Hb [_ Hr]%andb_true_iff Hz Hx Hy. apply negb_true_iff in Hr.
  destruct (chain_member X _ _ x (standard_implements X) Hx) as (tx & Htx & Ix).
  destruct (chain_member X _ _ y (standard_implements X) Hy) as (ty & Hty & Iy).
  unfold Ext.decode. rewrite !imp_decode16.
  destruct (_ <? _)%nat; [done|]. destruct (negb _); [done|].
  destruct (Nat.leb_spec 4 (length bytes)) as [H4|]; [|done]. pose proof (word_range bytes Hb H4).
  rewrite (imp_decode32 (tbl:=tx)), (imp_decode32 (tbl:=ty)) by done. unfold table_decode.
  intros (a & (Ha & Va & Ma)%lookup_isa_Some & ->)%fmap_Some
    (b & (Hb' & Vb & Mb)%lookup_isa_Some & ->)%fmap_Some.
  f_equal. apply (standard_unique X (from_le_bytes (take 4 bytes))); try done; apply in_concat; eauto.
Qed.

(** The C extension takes the 16-bit words, the others the 32-bit ones. *)
Lemma decode_c_or_chain X bytes pc x i j :
  In x (standard_chain X) ->
  Ext.decode (CExtension X) bytes pc = Some i -> Ext.decode x bytes pc = Some j -> False.
Proof.
  intros Hx. destruct (chain_member X _ _ x (standard_implements X) Hx) as (t & _ & Ix).
  unfold Ext.decode. rewrite (imp_decode16 (x:=x)). cbn [CExtension decode32]. unfold no_decode.
  destruct (_ <? _)%nat; [done|]. destruct (negb _); [done|]. by destruct (_ <=? _)%nat.
Qed.

Lemma standard_order X es bytes pc :
  Permutation es (extensions (ExtensionRegistry.standard X)) ->
  Forall (in_u 8) bytes -> not_reserved X bytes = true ->
  is_zext_h X (from_le_bytes (take 4 bytes)) = false ->
  ExtensionRegistry.decode (ExtensionRegistry.new es) bytes pc
  = ExtensionRegistry.decode (ExtensionRegistry.standard X) bytes pc.
Proof.
  intros Hp Hb Hr Hz. unfold ExtensionRegistry.decode. cbn [ExtensionRegistry.new extensions].
  assert (forall x y i j, In x (extensions (ExtensionRegistry.standard X)) ->
    In y (extensions (ExtensionRegistry.standard X)) -> Ext.decode x bytes pc = Some i ->
    Ext.decode y bytes pc = Some j -> i = j) as Hag.
  { rewrite standard_extensions. intros x y i j [<-|Hx] [<-|Hy] Hi Hj.
    - congruence.
    - by destruct (decode_c_or_chain X bytes pc y i j).
    - by destruct (decode_c_or_chain X bytes pc x j i).
    - by apply (standard_agree X bytes pc x y). }
  apply option_eq. intros i. rewrite !decode_from_agree.
  - split; intros (x & Hx & ?); exists x; split; try done; by eapply Permutation_in.
  - done.
  - intros x y i' j' Hx Hy. apply Hag; by eapply Permutation_in.
Qed.
