(* ===== verification/SyscallCorrect.v ===== *)
(** * System calls: the lowered code implements the table *)

From S2P Require Import Prelude Xlen IR IRBuild IRSem IRFacts Isa Ext Syscalls RiscvSpec LiftFacts.
#[local] Open Scope word_scope.

(** ** Specification

    The first entry, in the order of registration, that has the number in the
    system call register. *)

Definition exit_match (t : SyscallTable) (n : Z) : bool :=
  existsb (fun e => is_exit_entry e && (num e =? n)) (entries t).
Definition call_match (t : SyscallTable) (n : Z) : option SyscallEntry :=
  find (fun e => negb (is_exit_entry e) && (num e =? n)) (entries t).

Section spec.
Context (vars : string -> Z) (extern : string -> list Z -> state -> option (Z * state)).
Context (X : Xlen) (t : SyscallTable).

(** A call to the runtime gets the state pointer and the argument registers;
    its result goes to [a0]. *)
Definition run_action (e : SyscallEntry) (st : state) : option state :=
  match action e with
  | ARuntime name n =>
      '(v, st') ← extern name
         (wrap (VALUE X) (vars "state"%string)
          :: map (fun i => get_reg st (REG_A0 + Z.of_nat i)) (seq 0 (Z.to_nat n))) st;
      Some (set_reg st' REG_A0 v)
  | AReturnConst v => Some (set_reg st REG_A0 (wrap (VALUE X) v))
  | AExit => Some st
  end.

Definition run_call (n : Z) (st : state) : option state :=
  match call_match t n with
  | Some e => run_action e st
  | None => Some (set_reg st REG_A0 (wrap (VALUE X) (default_error t)))
  end.

Definition set_exit (st : state) : state := with_exit_code (with_exited st 1) (get_reg st REG_A0).
End spec.

(** ** Sorting *)

(** The sort is stable: it does not change the first entry with a given number. *)
Lemma find_insert_by_num (q : SyscallEntry -> bool) n e l :
  find (fun x => q x && (num x =? n)) (insert_by_num e l)
  = find (fun x => q x && (num x =? n)) (e :: l).
Proof.
  induction l as [|x l IH]; [done|]. cbn [insert_by_num].
  destruct (Z.leb_spec (num e) (num x)); [done|].
  cbn [find] in *. rewrite IH. destruct (q e), (Z.eqb_spec (num e) n); cbn; try done.
  destruct (q x), (Z.eqb_spec (num x) n); cbn; try done. lia.
Qed.

Lemma find_sort_by_num (q : SyscallEntry -> bool) n l :
  find (fun x => q x && (num x =? n)) (sort_by_num l) = find (fun x => q x && (num x =? n)) l.
Proof.
  induction l as [|e l IH]; [done|]. cbn [sort_by_num foldr]. fold (sort_by_num l).
  rewrite find_insert_by_num. cbn [find]. by rewrite IH.
Qed.

Lemma insert_by_num_perm e l : Permutation (insert_by_num e l) (e :: l).
Proof.
  induction l as [|x l IH]; cbn; [done|]. case_match; [done|]. rewrite IH. constructor.
Qed.

Lemma sort_by_num_perm l : Permutation (sort_by_num l) l.
Proof.
  induction l as [|e l IH]; [done|]. cbn [sort_by_num foldr]. fold (sort_by_num l).
  by rewrite insert_by_num_perm, IH.
Qed.

Lemma existsb_perm {A} (p : A -> bool) l l' : Permutation l l' -> existsb p l = existsb p l'.
Proof.
  intros H. apply eq_true_iff_eq. rewrite !existsb_exists.
  split; intros (x & Hx & ?); exists x; (split; [|done]); by eapply Permutation_in.
Qed.

Lemma find_filter {A} (p q : A -> bool) l :
  find p (List.filter q l) = find (fun x => q x && p x) l.
Proof. induction l as [|x l IH]; [done|]. cbn. destruct (q x); cbn; [destruct (p x)|]; done. Qed.

Lemma existsb_filter {A} (p q : A -> bool) l :
  existsb p (List.filter q l) = existsb (fun x => q x && p x) l.
Proof. induction l as [|x l IH]; [done|]. cbn. destruct (q x); cbn; by rewrite IH. Qed.

(** ** The lowered code *)

Section code.
Context (vars : string -> Z) (extern : string -> list Z -> state -> option (Z * state)).
Context (X : Xlen) (t : SyscallTable).
Hypothesis (Hnums : Forall (fun e => in_reg X (num e)) (entries t)).
Abbreviation w := (VALUE X).
Abbreviation reg := (syscall_reg (abi t)).
Abbreviation exec := (exec_stmt vars extern X).

Lemma reg_range : in_u 5 reg.
Proof. by destruct (abi t). Qed.

Lemma denotes_a7_eq n : in_reg X n -> denotes X (a7_eq X t n) (fun st => b2z (get_reg st reg =? n)).
Proof.
  intros Hn. unfold a7_eq, sys_num, Expr.eq. eapply denotes_binary.
  - apply denotes_read, reg_range.
  - rewrite from_u64_id by done. by apply denotes_imm.
  - done.
Qed.

(** A test of the number selects a branch. *)
Lemma exec_if_a7 st n ts es :
  in_reg X n -> wf_state X st ->
  exec st (If (a7_eq X t n) ts es)
  = (if get_reg st reg =? n then exec_stmts vars extern X st ts else exec_stmts vars extern X st es).
Proof.
  intros Hn Hst. rewrite exec_if. rewrite (proj2 (denotes_a7_eq n Hn)) by done. cbn.
  by destruct (_ =? n).
Qed.

Lemma exec_one st s : exec_stmts vars extern X st [s] = exec st s.
Proof. cbn. by destruct (exec st s). Qed.

Lemma eval_arg_regs st n :
  mapM (eval vars X st) (arg_regs n)
  = Some (map (fun i => get_reg st (REG_A0 + Z.of_nat i)) (seq 0 (Z.to_nat n))).
Proof.
  unfold arg_regs. induction (seq 0 (Z.to_nat n)) as [|i l IH]; [done|]. cbn -[REG_A0].
  by rewrite IH.
Qed.

(** The body of an entry. *)
Lemma exec_const st v :
  exec st (Stmt.write_reg REG_A0 (Expr.imm (from_u64 X (wrap 64 v)))) = Some (set_reg st REG_A0 (wrap w v)).
Proof. cbn. by rewrite from_u64_wrap64. Qed.

Lemma exec_runtime st name n width :
  exec st (Stmt.write_reg REG_A0 (Expr.extern_call name (Expr.var "state" :: arg_regs n) width))
  = ('(v, st') ← extern name
       (wrap w (vars "state"%string)
        :: map (fun i => get_reg st (REG_A0 + Z.of_nat i)) (seq 0 (Z.to_nat n))) st;
     Some (set_reg st' REG_A0 v)).
Proof.
  cbn -[REG_A0]. rewrite eval_arg_regs. cbn -[REG_A0]. by destruct (extern _ _ _) as [[]|].
Qed.

(** The chain of tests runs the first matching entry. *)
Lemma exec_dispatch st l :
  wf_state X st -> Forall (fun e => in_reg X (num e)) l -> forallb (fun e => negb (is_exit_entry e)) l = true ->
  exec st (foldr (dispatch_stmt X t) (default_stmt X t) l)
  = match find (fun e => num e =? get_reg st reg) l with
    | Some e => run_action vars extern X e st
    | None => Some (set_reg st REG_A0 (wrap w (default_error t)))
    end.
Proof.
  intros Hst Hl Hne. induction Hl as [|e l He Hl IH]; [apply exec_const|].
  cbn [forallb] in Hne. apply andb_true_iff in Hne as [Hn Hne]. cbn [foldr find].
  unfold dispatch_stmt at 1. rewrite (Z.eqb_sym (num e)). unfold run_action.
  destruct e as [n a]. cbn [num action is_exit_entry] in *.
  destruct a as [|name args|v]; [done|..];
    (unfold Stmt.if_then_else; rewrite exec_if_a7 by done;
     destruct (get_reg st reg =? n); rewrite exec_one).
  - apply exec_runtime.
  - by apply IH.
  - apply exec_const.
  - by apply IH.
Qed.

Lemma set_exit_twice st : set_exit (set_exit st) = set_exit st.
Proof. done. Qed.
Lemma get_reg_set_exit st r : get_reg (set_exit st) r = get_reg st r.
Proof. done. Qed.
Lemma wf_set_exit st : wf_state X st -> wf_state X (set_exit st).
Proof.
  intros H. pose proof (get_reg_range X st REG_A0 H). destruct H.
  constructor; cbn; try done; apply in_reg_1.
Qed.

Lemma exec_exit_stmt st e :
  in_reg X (num e) -> wf_state X st ->
  exec st (exit_stmt X t e) = Some (if get_reg st reg =? num e then set_exit st else st).
Proof.
  intros He Hst. unfold exit_stmt, Stmt.if_then. rewrite exec_if_a7 by done.
  destruct (_ =? _); [|done]. cbn. by rewrite from_u64_id by apply in_reg_1.
Qed.

Lemma exec_exit_stmts st l :
  wf_state X st -> Forall (fun e => in_reg X (num e)) l ->
  exec_stmts vars extern X st (map (exit_stmt X t) l)
  = Some (if existsb (fun e => num e =? get_reg st reg) l then set_exit st else st).
Proof.
  intros Hst Hl. revert st Hst. induction Hl as [|e l He Hl IH]; intros st Hst; [done|].
  cbn [map exec_stmts existsb]. rewrite exec_exit_stmt by done. cbn.
  rewrite (Z.eqb_sym (num e)). destruct (get_reg st reg =? num e); cbn.
  - rewrite IH by by apply wf_set_exit. rewrite get_reg_set_exit. by destruct (existsb _ _).
  - by apply IH.
Qed.

Lemma lor_b2z a b : Z.lor (b2z a) (b2z b) = b2z (a || b).
Proof. by destruct a, b. Qed.

Lemma denotes_is_exit first rest :
  in_reg X (num first) -> Forall (fun e => in_reg X (num e)) rest ->
  exists f, denotes X (is_exit_expr X t first rest) (fun st => b2z (f st)).
Proof.
  intros Hf Hrest. unfold is_exit_expr.
  assert (exists f, denotes X (a7_eq X t (num first)) (fun st => b2z (f st))) as Hacc
    by (eexists; by apply denotes_a7_eq).
  revert Hacc. generalize (a7_eq X t (num first)). induction Hrest as [|e l He Hl IH]; intros acc [f Ha].
  - by exists f.
  - cbn [foldl]. apply IH. exists (fun st => f st || (get_reg st reg =? num e)).
    eapply denotes_ext; [by apply denotes_or; [|apply denotes_a7_eq]|]. intros. apply lor_b2z.
Qed.

(** The bitwise complement of a truth value is never zero, so that the guard
    around the dispatch always lets it run. *)
Lemma not_bool_nonzero b : eval_unary X Not (b2z b) =? 0 = false.
Proof. by destruct X, b. Qed.

Lemma exec_guard st first rest s :
  wf_state X st -> in_reg X (num first) -> Forall (fun e => in_reg X (num e)) rest ->
  exec st (Stmt.if_then (Expr.not (is_exit_expr X t first rest)) [s]) = exec st s.
Proof.
  intros Hst Hf Hr. destruct (denotes_is_exit first rest Hf Hr) as [f Hd].
  unfold Stmt.if_then. rewrite exec_if.
  assert (eval vars X st (Expr.not (is_exit_expr X t first rest)) = Some (eval_unary X Not (b2z (f st)))) as ->
    by by apply (denotes_unary X Not) in Hd; apply Hd.
  cbn [mbind option_bind]. rewrite not_bool_nonzero. apply exec_one.
Qed.
End code.

(** ** The whole lowering *)

(** The state after the system call. *)
Definition syscall_effect (vars : string -> Z) (extern : string -> list Z -> state -> option (Z * state))
    (X : Xlen) (t : SyscallTable) (st : state) : option state :=
  let n := get_reg st (syscall_reg (abi t)) in
  let st1 := if exit_match t n then set_exit st else st in
  if existsb (fun e => negb (is_exit_entry e)) (entries t)
  then run_call vars extern X t n st1 else Some st1.

Lemma exit_match_sorted t n :
  existsb (fun e => num e =? n) (List.filter is_exit_entry (sort_by_num (entries t))) = exit_match t n.
Proof. rewrite existsb_filter. by apply existsb_perm, sort_by_num_perm. Qed.

Lemma call_match_sorted t n :
  find (fun e => num e =? n) (List.filter (fun e => negb (is_exit_entry e)) (sort_by_num (entries t)))
  = call_match t n.
Proof. rewrite find_filter. apply find_sort_by_num. Qed.

Lemma Forall_filter_sort t (P : SyscallEntry -> Prop) q :
  Forall P (entries t) -> Forall P (List.filter q (sort_by_num (entries t))).
Proof.
  rewrite !List.Forall_forall. intros H e [He _]%filter_In. apply H.
  by eapply Permutation_in; [apply sort_by_num_perm|].
Qed.

Lemma filter_nil_existsb {A} (q : A -> bool) l : existsb q l = false <-> List.filter q l = [].
Proof.
  induction l as [|x l IH]; [done|]. cbn. destruct (q x); cbn; [split; discriminate | done].
Qed.

Lemma forallb_filter {A} (q : A -> bool) l : forallb q (List.filter q l) = true.
Proof. apply forallb_forall. by intros x [_ ?]%filter_In. Qed.

Lemma exec_build_stmts vars extern X t st :
  Forall (fun e => in_reg X (num e)) (entries t) -> wf_state X st ->
  exec_stmts vars extern X st (build_stmts X t) = syscall_effect vars extern X t st.
Proof.
  intros Hn Hst. unfold build_stmts, syscall_effect, run_call. cbv zeta.
  rewrite <- exit_match_sorted.
  rewrite <- (existsb_perm _ _ _ (sort_by_num_perm (entries t))).
  pose proof (Forall_filter_sort t _ is_exit_entry Hn) as Hex.
  pose proof (Forall_filter_sort t _ (fun e => negb (is_exit_entry e)) Hn) as Hne.
  pose proof (forallb_filter (fun e => negb (is_exit_entry e)) (sort_by_num (entries t))) as Hq.
  pose proof (exec_exit_stmts vars extern X t st _ Hst Hex) as Hexits.
  set (n := get_reg st (syscall_reg (abi t))) in *.
  set (exits := List.filter is_exit_entry _) in *.
  rewrite <- call_match_sorted.
  destruct (existsb (fun e => negb (is_exit_entry e)) (sort_by_num (entries t))) eqn:Eb.
  - set (calls := List.filter (fun e => negb (is_exit_entry e)) _) in *.
    set (st1 := if existsb _ exits then set_exit st else st) in *.
    assert (wf_state X st1) as Hst1 by (unfold st1; case_match; [by apply wf_set_exit | done]).
    assert (get_reg st1 (syscall_reg (abi t)) = n) as En by (unfold st1; by case_match).
    pose proof (exec_dispatch vars extern X t st1 calls Hst1 Hne Hq) as Hd. rewrite En in Hd.
    destruct calls as [|c calls'] eqn:Ec.
    { apply filter_nil_existsb in Ec. congruence. }
    destruct exits as [|e rest]; rewrite exec_stmts_app, Hexits; cbn [mbind option_bind];
      rewrite exec_one; [done|].
    inversion_clear Hex. by rewrite exec_guard.
  - apply filter_nil_existsb in Eb. by rewrite Eb.
Qed.

(** The generated code looks at the exit flag when the table has an exit entry. *)
Lemma dispatch_no_exit X t l : stmt_writes_exit (foldr (dispatch_stmt X t) (default_stmt X t) l) = false.
Proof.
  induction l as [|e l IH]; [done|]. cbn [foldr]. unfold dispatch_stmt at 1.
  destruct (action e); cbn; by rewrite ?IH.
Qed.

Lemma build_stmts_exit X t :
  statements_write_exit (build_stmts X t) = existsb is_exit_entry (entries t).
Proof.
  unfold build_stmts, statements_write_exit. cbv zeta.
  rewrite <- (existsb_perm _ _ _ (sort_by_num_perm (entries t))).
  pose proof (dispatch_no_exit X t (List.filter (fun e => negb (is_exit_entry e)) (sort_by_num (entries t)))) as Hd.
  set (calls := List.filter (fun e => negb (is_exit_entry e)) _) in *.
  destruct (List.filter is_exit_entry _) as [|e rest] eqn:Ex.
  - rewrite (proj2 (filter_nil_existsb _ _) Ex). destruct calls as [|c calls]; [done|].
    cbn [map app existsb]. by rewrite Hd.
  - assert (existsb is_exit_entry (sort_by_num (entries t)) = true) as ->.
    { destruct (existsb _ _) eqn:E; [done|]. apply filter_nil_existsb in E. congruence. }
    by destruct calls.
Qed.

Definition after_syscall (X : Xlen) (t : SyscallTable) (pc size : Z) (st : state) : state * next :=
  (st, if existsb is_exit_entry (entries t) && negb (s_exited st =? 0)
       then NExit (s_exit_code st) else NPc (pc + size)).

Lemma build_ir_exec vars extern X t i st :
  Forall (fun e => in_reg X (num e)) (entries t) -> wf_state X st -> in_reg X (di_pc i + di_size i) ->
  exists ir, build_ir X t i = Ok ir /\
    exec_instr vars extern X st ir
    = (st' ← syscall_effect vars extern X t st; Some (after_syscall X t (di_pc i) (di_size i) st')).
Proof.
  intros Hn Hst Hpc. unfold build_ir, add_u. rewrite (proj2 (in_ub_spec _ _) Hpc).
  eexists. split; [done|]. unfold exec_instr. cbn [statements InstrIR.new].
  rewrite exec_build_stmts, build_stmts_exit by done.
  destruct (syscall_effect _ _ _ _ _) as [st'|]; [|done]. cbn. unfold after_syscall.
  by destruct (_ && _).
Qed.

(** The number of a system call whose only entries are exits. *)
Lemma syscall_exit_effect vars extern X t st :
  let n := get_reg st (syscall_reg (abi t)) in
  exit_match t n = true -> call_match t n = None ->
  syscall_effect vars extern X t st
  = Some (if existsb (fun e => negb (is_exit_entry e)) (entries t)
          then set_reg (set_exit st) REG_A0 (wrap (VALUE X) (default_error t)) else set_exit st).
Proof.
  cbv zeta. intros He Hc. unfold syscall_effect, run_call. cbv zeta. rewrite He, Hc. by case_match.
Qed.

Lemma exit_match_exists t n : exit_match t n = true -> existsb is_exit_entry (entries t) = true.
Proof.
  intros (e & ? & [? _]%andb_true_iff)%existsb_exists. apply existsb_exists. eauto.
Qed.

(** An exit system call ends the program with the exit code in [a0]. *)
Lemma syscall_exits vars extern X t i st :
  let n := get_reg st (syscall_reg (abi t)) in
  Forall (fun e => in_reg X (num e)) (entries t) -> wf_state X st -> in_reg X (di_pc i + di_size i) ->
  exit_match t n = true -> call_match t n = None ->
  exists ir st', build_ir X t i = Ok ir /\
    exec_instr vars extern X st ir = Some (st', NExit (get_reg st REG_A0)).
Proof.
  cbv zeta. intros Hn Hst Hpc He Hc.
  destruct (build_ir_exec vars extern X t i st Hn Hst Hpc) as (ir & Hir & Hx).
  rewrite (syscall_exit_effect vars extern X t st He Hc) in Hx. cbn [mbind option_bind] in Hx.
  unfold after_syscall in Hx. rewrite (exit_match_exists _ _ He) in Hx.
  destruct (existsb (fun e => negb _) _); (eexists ir, _; split; [done|]; by rewrite Hx).
Qed.
