(* ===== verification/ExecFacts.v ===== *)
(** * Executing IR: typing, control flow and straight-line composition

    Well-formed code keeps every component of the state within the register
    width; the static targets of a terminator are the addresses control can go
    to; blocks and the fluent builder put code together in order. *)

From S2P Require Import Prelude Xlen IR IRBuild IRSem IRFacts RiscvSpec LiftFacts.
#[local] Open Scope word_scope.

(** ** Induction over statements, through the branches of conditionals *)

Section stmt_ind.
Variable (P : Stmt -> Prop).
Hypotheses (HWrite : forall t e, P (Write t e))
  (HIf : forall c ts es, Forall P ts -> Forall P es -> P (If c ts es))
  (HCall : forall n args, P (SExternCall n args)).

Fixpoint Stmt_rect_nested (s : Stmt) : P s :=
  let fix go (l : list Stmt) : Forall P l :=
    match l with
    | [] => Forall_nil_2 P
    | x :: l' => Forall_cons_2 P x l' (Stmt_rect_nested x) (go l')
    end in
  match s with
  | Write t e => HWrite t e
  | If c ts es => HIf c ts es (go ts) (go es)
  | SExternCall n args => HCall n args
  end.
End stmt_ind.

(** A state of all zeros, for witnesses. *)
Definition zero_state : state :=
  mkState (fun _ => 0) (fun _ => 0) (fun _ => 0) (fun _ => 0) 0 0 0 0 0 0 0 0 0.
Definition no_extern (_ : string) (_ : list Z) (_ : state) : option (Z * state) := None.

Lemma zero_state_wf X : wf_state X zero_state.
Proof. constructor; intros; apply in_reg_0. Defined.

(** ** Preservation *)

Section preservation.
Context (vars : string -> Z) (extern : string -> list Z -> state -> option (Z * state)) (X : Xlen).
(** The runtime functions return register-width values and well-formed states. *)
Definition extern_ok : Prop := forall name args st v st',
  wf_state X st -> extern name args st = Some (v, st') -> in_reg X v /\ wf_state X st'.
Hypothesis (Hext : extern_ok).

Lemma exec_write_wf st t v st' :
  wf_state X st -> in_reg X v -> exec_write vars X st t v = Some st' -> wf_state X st'.
Proof.
  intros Hst Hv. destruct t; cbn; intros H; try (injection H as <-).
  - by apply wf_state_set_reg.
  - destruct Hst; constructor; cbn; try done. intros c'. unfold upd. by case_match.
  - destruct (eval vars X st base); [|done]. injection H as <-. by destruct Hst.
  - by destruct Hst.
  - by apply wf_state_set_temp.
  - by destruct Hst.
  - by destruct Hst.
  - by destruct Hst.
  - by destruct Hst.
Qed.

Lemma eval_rhs_wf st e v st' :
  wf_state X st -> wf_expr X e = true -> eval_rhs vars extern X st e = Some (v, st') ->
  in_reg X v /\ wf_state X st'.
Proof.
  intros Hst He. assert (forall v, eval vars X st e = Some v -> in_reg X v) as Hv.
  { intros u. by apply eval_in_reg. }
  destruct e; cbn -[eval eval_read] in *; intros H.
  all: try (destruct (eval vars X st _) as [u|] eqn:E; [|done]; injection H as <- <-;
            split; [by apply Hv | done]).
  destruct (mapM _ _); [|done]. cbn in H. by eapply Hext.
Qed.

Lemma exec_stmts_wf_of l :
  Forall (fun s => forall st st', wf_state X st -> wf_stmt X s = true ->
            exec_stmt vars extern X st s = Some st' -> wf_state X st') l ->
  forall st st', wf_state X st -> forallb (wf_stmt X) l = true ->
    exec_stmts vars extern X st l = Some st' -> wf_state X st'.
Proof.
  induction 1 as [|s l Hs _ IH]; intros st st' Hst Hw; cbn in *; [by intros [= <-]|].
  apply andb_true_iff in Hw as [H1 H2]. destruct (exec_stmt vars extern X st s) eqn:E; [|done].
  cbn. by apply IH; [eapply Hs|].
Qed.

Lemma exec_stmt_wf s st st' :
  wf_state X st -> wf_stmt X s = true -> exec_stmt vars extern X st s = Some st' -> wf_state X st'.
Proof.
  revert st st'. induction s as [t e|c ts es Hts Hes|n args] using Stmt_rect_nested;
    intros st st' Hst Hw.
  - cbn in Hw. apply andb_true_iff in Hw as [_ He]. cbn.
    destruct (eval_rhs _ _ _ _ _) as [[v st1]|] eqn:E; [|done].
    apply eval_rhs_wf in E as [Hv Hst1]; try done. by apply exec_write_wf.
  - cbn in Hw. rewrite !andb_true_iff in Hw. destruct Hw as [[_ H1] H2]. rewrite exec_if.
    destruct (eval vars X st c) as [b|]; [|done]. cbn. destruct (b =? 0).
    + by apply exec_stmts_wf_of.
    + by apply exec_stmts_wf_of.
  - cbn. destruct (mapM _ _); [|done]. cbn.
    destruct (extern n _ st) as [[v st1]|] eqn:E; [|done]. intros [= <-]. by eapply Hext.
Qed.

Lemma exec_stmts_wf l st st' :
  wf_state X st -> forallb (wf_stmt X) l = true -> exec_stmts vars extern X st l = Some st' ->
  wf_state X st'.
Proof. apply exec_stmts_wf_of. apply List.Forall_forall. intros s _ *. apply exec_stmt_wf. Qed.

Definition next_ok (n : next) : Prop :=
  match n with NPc a | NExit a => in_reg X a | NTrap => True end.

Lemma exec_term_wf st pc size t n :
  wf_state X st -> wf_term X t = true -> exec_term vars X st pc size t = Some n -> next_ok n.
Proof.
  intros Hst Hw. destruct t as [[p|]|p|a rs|c p f h|c|m]; cbn in *.
  - intros [= <-]. by apply in_ub_spec.
  - intros [= <-]. apply in_reg_wrap.
  - intros [= <-]. by apply in_ub_spec.
  - apply andb_true_iff in Hw as [Ha _]. destruct (eval vars X st a) eqn:E; [|done].
    intros [= <-]. by eapply eval_in_reg.
  - rewrite !andb_true_iff in Hw. destruct Hw as [[Hc Hp] Hf].
    destruct (eval vars X st c); [|done]. intros [= <-]. cbn. destruct (_ =? 0); [|by apply in_ub_spec].
    destruct f; [by apply in_ub_spec | apply in_reg_wrap].
  - destruct (eval vars X st c) eqn:E; [|done]. intros [= <-]. by eapply eval_in_reg.
  - by intros [= <-].
Qed.

Lemma exec_instr_wf i st st' n :
  wf_state X st -> forallb (wf_stmt X) (statements i) = true -> wf_term X (terminator i) = true ->
  exec_instr vars extern X st i = Some (st', n) -> wf_state X st' /\ next_ok n.
Proof.
  intros Hst Hs Ht. unfold exec_instr. destruct (exec_stmts _ _ _ _ _) as [st1|] eqn:E; [|done].
  apply exec_stmts_wf in E; [|done..]. cbn. destruct (_ && _).
  - intros [= <- <-]. split; [done|]. by destruct E.
  - destruct (exec_term _ _ _ _ _ _) as [m|] eqn:Em; [|done]. intros [= <- <-].
    split; [done|]. by eapply exec_term_wf.
Qed.
End preservation.
