(* ===== verification/IRProps.v ===== *)
(** * Properties of the IR *)

From S2P Require Import Prelude Xlen IR IRBuild IRSem IRFacts Isa Ext Base RiscvSpec Fields.
From S2P Require Import LiftFacts BaseLift ExecFacts.
#[local] Open Scope word_scope.

(** C14. The simplifying factories of the IR (constant folding, dropped zero
    operands, strength reduction of comparisons) build expressions with the
    meaning of the plain operator. *)
Theorem factories_sound vars X st l r :
  wf_state X st -> wf_expr X l = true -> wf_expr X r = true ->
  let ev := eval vars X st in
  (ev (Expr.add X l r) = ev (Binary Add l r) /\ ev (Expr.sub X l r) = ev (Binary Sub l r) /\
   ev (Expr.and X l r) = ev (Binary And l r) /\ ev (Expr.or X l r) = ev (Binary Or l r) /\
   ev (Expr.xor X l r) = ev (Binary Xor l r) /\ ev (Expr.ltu X l r) = ev (Binary Ltu l r)) /\
  (ev (Expr.sll X l r) = ev (Binary Sll l r) /\ ev (Expr.srl X l r) = ev (Binary Srl l r) /\
   ev (Expr.sra X l r) = ev (Binary Sra l r) /\ ev (Expr.addw X l r) = ev (Binary AddW l r) /\
   ev (Expr.subw X l r) = ev (Binary SubW l r) /\ ev (Expr.sllw X l r) = ev (Binary SllW l r) /\
   ev (Expr.srlw X l r) = ev (Binary SrlW l r) /\ ev (Expr.sraw X l r) = ev (Binary SraW l r)) /\
  (ev (Expr.sext8 X l) = ev (Unary Sext8 l) /\ ev (Expr.sext16 X l) = ev (Unary Sext16 l) /\
   ev (Expr.sext32 X l) = ev (Unary Sext32 l) /\ ev (Expr.zext8 X l) = ev (Unary Zext8 l) /\
   ev (Expr.zext16 X l) = ev (Unary Zext16 l) /\ ev (Expr.zext32 X l) = ev (Unary Zext32 l)).
Proof.
  intros Hst Hl Hr ev. subst ev.
  split_and!; auto using eval_add, eval_sub, eval_and, eval_or, eval_xor, eval_ltu, eval_sll,
    eval_srl, eval_sra, eval_addw, eval_subw, eval_sllw, eval_srlw, eval_sraw, eval_sext8,
    eval_sext16, eval_sext32, eval_zext8, eval_zext16, eval_zext32.
Qed.

Lemma factories_sound_witness :
  eval (fun _ => 0) Rv32 zero_state (Expr.add Rv32 (Imm 0xFFFFFFFF) (Imm 2)) = Some 1.
Proof.
  rewrite (proj1 (proj1 (factories_sound (fun _ => 0) Rv32 zero_state (Imm 0xFFFFFFFF) (Imm 2)
    (zero_state_wf Rv32) eq_refl eq_refl))). reflexivity.
Defined.




(** [addi x1, x0, 5] at 16. *)
Definition sample_instr : InstrIR :=
  InstrIR.new 16 4 0 0 [Stmt.write_reg 1 (Expr.imm 5)] (Fall None).


(** Control flow is what the terminator declares: unless it jumps through
    an expression, control goes to one of its static targets or falls through,
    and a terminator that is not control flow falls through. *)
Theorem static_targets_complete vars X st pc size t a :
  exec_term vars X st pc size t = Some (NPc a) -> Terminator.is_dyn_jump t = false ->
  let fall := default (wrap (VALUE X) (pc + size)) (Terminator.fall_target t) in
  (In a (Terminator.static_targets t) \/ a = fall)
  /\ (Terminator.is_control_flow t = false -> a = fall).
Proof.
  destruct t as [o|p|e rs|c p f h|c|m]; cbn; try done.
  - intros [= <-] _. split; [by right | done].
  - intros [= <-] _. split; [by left; left | done].
  - destruct (eval vars X st c) as [b|]; [|done]. cbn. intros [= <-] _.
    split; [|done]. destruct (b =? 0); auto.
  - by destruct (eval vars X st c).
Qed.

Lemma static_targets_complete_witness :
  In 0x80 (Terminator.static_targets (Terminator.branch (Imm 1) 0x80)) \/ 0x80 = 0x44.
Proof.
  apply (static_targets_complete (fun _ => 0) Rv32 zero_state 0x40 4 (Terminator.branch (Imm 1) 0x80) 0x80);
    reflexivity.
Defined.

(** ** Blocks *)

(** Instructions one after the other from [pc], without leaving the address space. *)
Fixpoint contiguous (X : Xlen) (pc : Z) (l : list InstrIR) : Prop :=
  match l with
  | [] => True
  | i :: l' =>
      ir_pc i = pc /\ 0 <= ir_size i /\ in_reg X (pc + ir_size i) /\ contiguous X (pc + ir_size i) l'
  end.

Definition total_size (l : list InstrIR) : Z := foldr (fun i s => ir_size i + s) 0 l.

Fixpoint push_all (X : Xlen) (b : BlockIR) (l : list InstrIR) : result BlockIR :=
  match l with
  | [] => Ok b
  | i :: l' => b' ← BlockIR.push X b i; push_all X b' l'
  end.

Lemma next_pc_spec X i :
  in_reg X (ir_pc i + ir_size i) -> InstrIR.next_pc X i = Ok (ir_pc i + ir_size i).
Proof.
  intros H. unfold InstrIR.next_pc, add_u, to_u64.
  rewrite (proj2 (in_ub_spec _ _) (in_reg_64 X _ H)). cbn. unfold mret, result_ret.
  by rewrite from_u64_id.
Qed.

Lemma push_all_spec X b l :
  contiguous X (end_pc b) l ->
  push_all X b l = Ok (mkBlockIR (start_pc b) (end_pc b + total_size l) (instructions b ++ l)).
Proof.
  revert b. induction l as [|i l IH]; intros b; cbn.
  - intros _. rewrite Z.add_0_r, app_nil_r. by destruct b.
  - intros (E & H0 & Hr & Hc). unfold BlockIR.push. rewrite <- E in *. rewrite next_pc_spec by done.
    cbn. rewrite IH by done. cbn. by rewrite <- app_assoc, Z.add_assoc.
Qed.

Lemma contiguous_end X pc l : in_reg X pc -> contiguous X pc l -> in_reg X (pc + total_size l) /\ 0 <= total_size l.
Proof.
  revert pc. induction l as [|i l IH]; intros pc Hpc; cbn; [by rewrite Z.add_0_r|].
  intros (E & H0 & Hr & Hc). destruct (IH _ Hr Hc) as [? ?]. fold (total_size l).
  rewrite Z.add_assoc. split; [done | lia].
Qed.

(** A block built by pushing contiguous instructions records them in order,
    spans exactly their bytes, and ends with the terminator of the last. *)
Theorem block_extent X pc l :
  in_reg X pc -> contiguous X pc l ->
  exists b, push_all X (BlockIR.new pc) l = Ok b /\
    start_pc b = pc /\ end_pc b = pc + total_size l /\ instructions b = l /\
    BlockIR.size X b = Ok (total_size l) /\ BlockIR.len b = length l /\
    BlockIR.terminator b = terminator <$> last l.
Proof.
  intros Hpc Hc. eexists. split; [by apply push_all_spec|]. cbn [start_pc end_pc instructions app BlockIR.new].
  destruct (contiguous_end X pc l Hpc Hc) as [Hr Hp]. split_and!; try done.
  unfold BlockIR.size, sub_u, to_u64. cbn. replace (pc + total_size l - pc) with (total_size l) by lia.
  destruct Hpc. rewrite (proj2 (in_ub_spec 64 (total_size l))); [done|].
  apply (in_reg_64 X). split; [done|]. destruct Hr. lia.
Qed.

Lemma block_extent_witness :
  exists b, push_all Rv32 (BlockIR.new 16) [sample_instr] = Ok b /\ end_pc b = 20.
Proof.
  destruct (block_extent Rv32 16 [sample_instr]) as (b & H & _ & He & _).
  - split; [discriminate | reflexivity].
  - cbn. repeat split; discriminate.
  - exists b. split; [exact H | exact He].
Defined.

(** ** The fluent builder *)

(** The builder composes in order: adding a register write runs what was
    there before, then the write, also for [x0], where no statement is added. *)
Theorem builder_write_reg_sound vars extern X b rd e f st st' :
  denotes X e f -> wf_state X st' ->
  exec_stmts vars extern X st (IRBuilder.b_statements b) = Some st' ->
  exec_stmts vars extern X st (IRBuilder.b_statements (IRBuilder.write_reg b rd e))
  = Some (set_reg st' rd (f st')).
Proof.
  intros Hd Hst' Hb. unfold IRBuilder.write_reg, set_reg at 1.
  destruct (Z.eqb_spec rd 0) as [->|Hz]; cbn [negb]; [done|].
  cbn [IRBuilder.stmt IRBuilder.b_statements].
  rewrite exec_stmts_app, Hb. cbn -[exec_stmt]. erewrite exec_write_reg by done. cbn. unfold set_reg.
  by rewrite (proj2 (Z.eqb_neq _ _) Hz).
Qed.

Lemma builder_write_reg_sound_witness :
  exec_stmts (fun _ => 0) no_extern Rv64 zero_state
    (IRBuilder.b_statements (IRBuilder.write_reg (IRBuilder.new 0 4) 0 (Expr.imm 7)))
  = Some zero_state.
Proof.
  apply (builder_write_reg_sound (fun _ => 0) no_extern Rv64 (IRBuilder.new 0 4) 0 (Expr.imm 7)
    (fun _ => 7) zero_state zero_state);
    [apply denotes_imm; split; [discriminate | reflexivity] | apply zero_state_wf | reflexivity].
Defined.

(** ** Register width *)

(** [truncate_to_32] is a truncation only on RV32: on RV64 it panics on
    every value that does not fit in 32 bits. *)
Theorem truncate_to_32_panics v :
  in_reg Rv64 v ->
  truncate_to_32 Rv64 v = (if v <? 2 ^ 32 then Ok (wrap 32 v) else Panic).
Proof.
  intros [H1 H2]. cbn. unfold expect_u, in_ub. rewrite (proj2 (Z.leb_le _ _) H1). cbn [andb].
  destruct (Z.ltb_spec v (2 ^ 32)); [|done]. by rewrite wrap_id.
Qed.

Lemma truncate_to_32_panics_witness : truncate_to_32 Rv64 (2 ^ 32) = Panic.
Proof. rewrite (truncate_to_32_panics (2 ^ 32)); [reflexivity | split; [discriminate | reflexivity]]. Defined.

(** C18. Branch and jump targets: on RV32 the target of every offset is computed
    modulo the address space; on RV64 the addition is checked on [i64], and the
    lifter panics exactly when the target leaves the signed range. *)
Theorem branch_target_bounds X pc imm :
  in_reg X pc -> in_i 32 imm ->
  pc_relative X pc imm
  = match X with
    | Rv32 => Ok (wrap 32 (pc + imm))
    | Rv64 => if in_ib 64 (to_signed 64 pc + imm) then Ok (wrap 64 (pc + imm)) else Panic
    end.
Proof.
  intros Hpc [Hi1 Hi2]. pose proof (in_reg_64 X pc Hpc) as H64. unfold pc_relative, to_u64, add_i.
  destruct X; cbn [sign_extend_32 VALUE] in *.
  - destruct Hpc as [Hp1 Hp2]. pose proof (wrap_range 32 imm ltac:(lia)) as [Hw1 Hw2].
    rewrite !to_signed_small by (cbn in *; lia).
    rewrite (proj2 (in_ib_spec 64 (pc + wrap 32 imm))) by (split; cbn in *; lia).
    cbn [mbind result_bind]. unfold mret, result_ret.
    by rewrite from_u64_wrap64, wrap_add_r.
  - change (to_signed 32 (wrap 32 imm)) with (sext 32 imm).
    rewrite sext_id by (done || split; cbn in *; lia).
    change (to_signed 64 (wrap 64 imm)) with (sext 64 imm).
    rewrite sext_id by (done || split; cbn in *; lia).
    destruct (in_ib _ _); [|done]. cbn [mbind result_bind]. unfold mret, result_ret.
    rewrite from_u64_wrap64. f_equal. cbn [VALUE].
    by rewrite <- wrap_add_l, wrap_to_signed.
Qed.

Lemma branch_target_bounds_witness :
  pc_relative Rv64 (2 ^ 63 - 4) 8 = Panic /\ pc_relative Rv32 (2 ^ 32 - 4) 8 = Ok 4.
Proof.
  split.
  - rewrite (branch_target_bounds Rv64 (2 ^ 63 - 4) 8);
      [reflexivity | split; [discriminate | reflexivity] | split; [discriminate | reflexivity]].
  - rewrite (branch_target_bounds Rv32 (2 ^ 32 - 4) 8);
      [reflexivity | split; [discriminate | reflexivity] | split; [discriminate | reflexivity]].
Defined.
