(* ===== verification/InstrTable.v ===== *)
(** * The instruction table ([crates/rvr-cfg/src/instruction_table.rs])

    The table holds the decoded instructions of the code segments, one slot per
    two bytes, and the read-only segments.  Addresses are [u64]; the host is a
    64-bit machine, so that [usize] has 64 bits too and the conversions between
    the two succeed.  Indices into a vector are [nat]: a vector has at most
    [isize::MAX] bytes, so sums of two of its indices do not overflow. *)

From S2P Require Import Prelude Xlen IR IRBuild Isa Ext Syscalls Registry.
#[local] Open Scope word_scope.

(** ** Read-only segments *)

Record RoSegment := mkRoSegment { ro_start : Z; ro_end : Z; ro_data : list Z }.

Module RoSegment.
Definition new (start end_ : Z) (data : list Z) : RoSegment := mkRoSegment start end_ data.

Definition contains (s : RoSegment) (addr : Z) : bool :=
  (ro_start s <=? addr) && (addr <? ro_end s).

(** [data.get(lo..hi)] *)
Definition get_range (data : list Z) (lo hi : Z) : option (list Z) :=
  if (lo <=? hi) && (hi <=? Z.of_nat (length data))
  then Some (take (Z.to_nat (hi - lo)) (drop (Z.to_nat lo) data)) else None.

(** The fold of [read]; a shift by 64 and more panics. *)
Fixpoint fold_bytes (i value : Z) (bytes : list Z) : result Z :=
  match bytes with
  | [] => Ok value
  | byte :: bytes' =>
      if i * 8 <? 64 then fold_bytes (i + 1) (value |ᵇ shl_u 64 byte (i * 8)) bytes' else Panic
  end.

Definition read (s : RoSegment) (addr size : Z) : result (option Z) :=
  if negb (contains s addr) then Ok None
  else
    e ← add_u 64 addr size;
    if ro_end s <? e then Ok None
    else
      let offset := addr - ro_start s in
      hi ← add_u 64 offset size;
      match get_range (ro_data s) offset hi with
      | None => Ok None
      | Some bytes => v ← fold_bytes 0 0 bytes; mret (Some v)
      end.
End RoSegment.

(** ** Slots and the table *)

Record Slot := mkSlot { s_instr : option DecodedInstr; s_size : Z; s_raw : Z }.

Definition slot_default : Slot := mkSlot None 0 0.

Record InstructionTable := mkTable {
  slots : list Slot;
  base_address : Z;
  end_address : Z;
  entry_points : list Z;
  ro_segments : list RoSegment
}.

Module InstructionTable.
Definition SLOT_SIZE : nat := 2.

(** [len.div_ceil(SLOT_SIZE)] *)
Definition total_slots (len : nat) : nat := ((len + 1) / SLOT_SIZE)%nat.

Definition with_slots (t : InstructionTable) (l : list Slot) : InstructionTable :=
  mkTable l (base_address t) (end_address t) (entry_points t) (ro_segments t).

(** [end_address - base_address] is checked. *)
Definition new (base end_ entry_point : Z) : result InstructionTable :=
  size ← sub_u 64 end_ base;
  mret (mkTable (replicate (total_slots (Z.to_nat size)) slot_default) base end_ [entry_point] []).

Section decode.
Context (X : Xlen) (registry : ExtensionRegistry).

(** The bytes of the decoded instruction, as they are kept for tracing. *)
Definition raw_of (code : list Z) (offset : nat) (size : Z) : Z :=
  if size =? 2 then from_le_bytes (take 2 (drop offset code))
  else if (size =? 4) && (offset + 4 <=? length code)%nat then from_le_bytes (take 4 (drop offset code))
  else 0.

(** The slots after an instruction was found at [slot]: a four-byte instruction
    also clears the slot of its second half. *)
Definition write_slot (l : list Slot) (slot : nat) (instr : DecodedInstr) (raw : Z) : list Slot :=
  let size := di_size instr in
  let l := <[slot := mkSlot (Some instr) (if in_ub 8 size then size else 0) raw]> l in
  if (size =? 4) && (slot + 1 <? length l)%nat then <[(slot + 1)%nat := slot_default]> l else l.

(** The loop of [decode_segment].  [None]: the fuel is exhausted. *)
Fixpoint decode_loop (fuel : nat) (code : list Z) (start_slot : nat) (segment_start : Z)
    (offset : nat) (l : list Slot) : option (result (list Slot)) :=
  match fuel with
  | O => None
  | S fuel =>
      if (offset + SLOT_SIZE <=? length code)%nat then
        match add_u 64 segment_start (Z.of_nat offset) with
        | Panic => Some Panic
        | Ok pc =>
            let slot := (start_slot + offset / SLOT_SIZE)%nat in
            if (length l <=? slot)%nat then Some (Ok l)
            else
              match ExtensionRegistry.decode registry (drop offset code) (from_u64 X pc) with
              | Some instr =>
                  decode_loop fuel code start_slot segment_start
                    (offset + Z.to_nat (di_size instr))
                    (write_slot l slot instr (raw_of code offset (di_size instr)))
              | None => decode_loop fuel code start_slot segment_start (offset + 2) l
              end
        end
      else Some (Ok l)
  end.

Definition decode_segment (t : InstructionTable) (code : list Z) (start_slot : nat) (segment_start : Z)
    : option (result InstructionTable) :=
  match decode_loop (S (length code)) code start_slot segment_start 0 (slots t) with
  | Some (Ok l) => Some (Ok (with_slots t l))
  | Some Panic => Some Panic
  | None => None
  end.

Definition decode_all (t : InstructionTable) (code : list Z) (start_slot : nat)
    : option (result InstructionTable) :=
  match add_u 64 (base_address t) (Z.of_nat (start_slot * SLOT_SIZE)) with
  | Ok start_pc => decode_segment t code start_slot start_pc
  | Panic => Some Panic
  end.

Definition from_bytes (code : list Z) (base : Z) : option (result InstructionTable) :=
  match add_u 64 base (Z.of_nat (length code)) with
  | Ok end_ =>
      decode_all
        (mkTable (replicate (total_slots (length code)) slot_default) base end_ [base]
           [RoSegment.new base end_ code]) code 0
  | Panic => Some Panic
  end.

Definition populate_segment (t : InstructionTable) (code : list Z) (segment_start : Z)
    : option (result InstructionTable) :=
  if (segment_start <? base_address t) || (end_address t <=? segment_start) then Some (Ok t)
  else decode_segment t code (Z.to_nat (segment_start - base_address t) / SLOT_SIZE) segment_start.
End decode.

(** ** Entry points and read-only segments *)

Definition add_ro_segment (t : InstructionTable) (start end_ : Z) (data : list Z) : InstructionTable :=
  mkTable (slots t) (base_address t) (end_address t) (entry_points t)
    (ro_segments t ++ [RoSegment.new start end_ data]).

Definition add_entry_point (t : InstructionTable) (addr : Z) : InstructionTable :=
  if bool_decide (addr ∈ entry_points t) then t
  else mkTable (slots t) (base_address t) (end_address t) (entry_points t ++ [addr]) (ro_segments t).

Definition add_entry_points (t : InstructionTable) (addrs : list Z) : InstructionTable :=
  foldl add_entry_point t addrs.

(** The value in the first segment that has it. *)
Fixpoint read_from (l : list RoSegment) (addr size : Z) : result (option Z) :=
  match l with
  | [] => Ok None
  | s :: l' =>
      v ← RoSegment.read s addr size;
      match v with Some value => mret (Some value) | None => read_from l' addr size end
  end.
Definition read_readonly (t : InstructionTable) := read_from (ro_segments t).

(** ** Accessors *)

Definition len (t : InstructionTable) : nat := length (slots t).
Definition is_empty (t : InstructionTable) : bool := (length (slots t) =? 0)%nat.

Definition pc_to_index (t : InstructionTable) (pc : Z) : option nat :=
  if (pc <? base_address t) || (end_address t <=? pc) then None
  else
    let offset := Z.to_nat (pc - base_address t) in
    if negb (offset mod SLOT_SIZE =? 0)%nat then None else Some (offset / SLOT_SIZE)%nat.

Definition index_to_pc (t : InstructionTable) (index : nat) : result Z :=
  add_u 64 (base_address t) (Z.of_nat (index * SLOT_SIZE)).

Definition get (t : InstructionTable) (index : nat) : option DecodedInstr :=
  slots t !! index ≫= s_instr.
Definition is_valid_index (t : InstructionTable) (index : nat) : bool :=
  match slots t !! index with Some slot => bool_decide (is_Some (s_instr slot)) | None => false end.
Definition instruction_size (t : InstructionTable) (index : nat) : Z :=
  match slots t !! index with Some slot => s_size slot | None => 0 end.
Definition raw_opcode (t : InstructionTable) (index : nat) : Z :=
  match slots t !! index with Some slot => s_raw slot | None => 0 end.

Definition get_at_pc (t : InstructionTable) (pc : Z) : option DecodedInstr :=
  pc_to_index t pc ≫= get t.
Definition is_valid_pc (t : InstructionTable) (pc : Z) : bool :=
  match pc_to_index t pc with Some index => is_valid_index t index | None => false end.
Definition instruction_size_at_pc (t : InstructionTable) (pc : Z) : Z :=
  match pc_to_index t pc with Some index => instruction_size t index | None => 0 end.
Definition raw_opcode_at_pc (t : InstructionTable) (pc : Z) : Z :=
  match pc_to_index t pc with Some index => raw_opcode t index | None => 0 end.

Definition next_pc (t : InstructionTable) (index : nat) : result Z :=
  pc ← index_to_pc t index; add_u 64 pc (instruction_size t index).

Definition valid_indices (t : InstructionTable) : list nat :=
  filter (fun i => is_valid_index t i = true) (seq 0 (len t)).

Definition valid_instructions (t : InstructionTable) : list (result Z * DecodedInstr) :=
  omap (fun i => (fun instr => (index_to_pc t i, instr)) <$> get t i) (valid_indices t).
End InstructionTable.
