(* ===== verification/TableFacts.v ===== *)
(** * Facts on the instruction table: the sweep over a segment *)

From S2P Require Import Base MExt AExt ZicsrExt ZifenceiExt ZbaExt ZbbExt ZbsExt ZbkbExt ZicondExt.
From S2P Require Import CExt BaseDecode MCorrect ACorrect ZicsrCorrect ZicondCorrect ZbaCorrect.
From S2P Require Import ZbbCorrect ZbsCorrect ZbkbCorrect.
From S2P Require Import Prelude Xlen IR IRBuild Isa Ext Syscalls Registry InstrTable RiscvSpec.
From S2P Require Import Fields TableDecode RegistryCorrect.
#[local] Open Scope word_scope.

(** ** What the table relies on

    A decoder returns instructions of two or four bytes that are there, with the
    address and the word it was given. *)

Definition decoded_at (i : DecodedInstr) (size raw pc : Z) : Prop :=
  di_size i = size /\ di_raw i = raw /\ di_pc i = pc.

Class SizedExtension (x : InstructionExtension) : Prop := {
  sized16 raw pc i : decode16 x raw pc = Some i -> decoded_at i 2 raw pc;
  sized32 raw pc i : decode32 x raw pc = Some i -> decoded_at i 4 raw pc
}.

Class SizedRegistry (r : ExtensionRegistry) : Prop :=
  sized_extensions : Forall SizedExtension (extensions r).

Definition sized_at (bytes : list Z) (pc : Z) (i : DecodedInstr) (n : nat) : Prop :=
  (n <= length bytes)%nat /\ decoded_at i (Z.of_nat n) (from_le_bytes (take n bytes)) pc.

Lemma registry_sized r bytes pc i :
  SizedRegistry r -> ExtensionRegistry.decode r bytes pc = Some i ->
  exists n, (n = 2 \/ n = 4)%nat /\ sized_at bytes pc i n.
Proof.
  unfold SizedRegistry, ExtensionRegistry.decode. induction 1 as [|x es Hx _ IH]; [done|].
  cbn -[take]. destruct (decode x bytes pc) as [j|] eqn:E; [|done]. intros [= <-]. clear IH.
  unfold decode in E. destruct (Nat.ltb_spec (length bytes) 2); [done|]. case_match.
  - exists 2%nat. split; [lia|]. split; [lia|]. by apply (sized16 (x := x)).
  - destruct (Nat.leb_spec 4 (length bytes)); [|done].
    exists 4%nat. split; [lia|]. split; [lia|]. by apply (sized32 (x := x)).
Qed.

Lemma table_decode_sized X tbl raw pc i : table_decode X tbl raw pc = Some i -> decoded_at i 4 raw pc.
Proof. unfold table_decode. destruct (lookup_isa X tbl raw); [|done]. by intros [= <-]. Qed.

Lemma base_sized X : SizedExtension (BaseExtension X).
Proof.
  split; [done|]. cbn [BaseExtension decode32]. intros raw pc i.
  unfold decode_32bit. cbv zeta. intros ([o a] & _ & [= <-])%bind_Some. done.
Qed.

Lemma c_sized X : SizedExtension (CExtension X).
Proof.
  split; [|done]. cbn [CExtension decode16]. intros raw pc i. unfold decode16_c. cbv zeta.
  case_match. by intros [= <-].
Qed.

Lemma table_sized X x tbl :
  (forall raw pc, decode16 x raw pc = None) ->
  (forall raw pc, decode32 x raw pc = table_decode X tbl raw pc) -> SizedExtension x.
Proof.
  intros H16 H32. split; intros raw pc i; [by rewrite H16|].
  rewrite H32. apply table_decode_sized.
Qed.

#[export] Instance standard_sized X : SizedRegistry (ExtensionRegistry.standard X).
Proof.
  unfold SizedRegistry. rewrite standard_extensions. apply List.Forall_cons; [apply c_sized|].
  change (standard_chain X) with
    [Base.BaseExtension X; MExtension X; AExtension X; ZicsrExtension X; ZifenceiExtension X;
     ZbaExtension X; ZbbExtension X; ZbsExtension X; ZbkbExtension X; ZicondExtension X].
  repeat apply List.Forall_cons; [..|apply List.Forall_nil].
  - apply base_sized.
  - apply (table_sized X (MExtension X) _ (fun _ _ => eq_refl) (decode32_m_table X)).
  - apply (table_sized X (AExtension X) _ (fun _ _ => eq_refl) (decode32_a_table X)).
  - apply (table_sized X (ZicsrExtension X) _ (fun _ _ => eq_refl) (decode32_zicsr_table X)).
  - apply (table_sized X (ZifenceiExtension X) _ (fun _ _ => eq_refl) (decode32_zifencei_table X)).
  - apply (table_sized X (ZbaExtension X) _ (fun _ _ => eq_refl) (decode32_zba_table X)).
  - apply (table_sized X (ZbbExtension X) _ (fun _ _ => eq_refl) (decode32_zbb_table X)).
  - apply (table_sized X (ZbsExtension X) _ (fun _ _ => eq_refl) (decode32_zbs_table X)).
  - apply (table_sized X (ZbkbExtension X) _ (fun _ _ => eq_refl) (decode32_zbkb_table X)).
  - apply (table_sized X (ZicondExtension X) _ (fun _ _ => eq_refl) (decode32_zicond_table X)).
Qed.

(** ** The sweep

    What decoding a segment means, slot by slot: an instruction starts there, it
    is the second half of one, or the bytes are not an instruction. *)

Inductive mark :=
| Starts (i : DecodedInstr)
| Inside
| Gap.

Section sweep.
Context (X : Xlen) (r : ExtensionRegistry).

(** [inside]: the two bytes are the second half of an instruction. *)
Fixpoint sweep (inside : bool) (bytes : list Z) (pc : Z) : list mark :=
  match bytes with
  | _ :: (_ :: rest) as bytes' =>
      if inside then Inside :: sweep false rest (pc + 2)
      else
        match ExtensionRegistry.decode r bytes (from_u64 X pc) with
        | Some i => Starts i :: sweep (di_size i =? 4) rest (pc + 2)
        | None => Gap :: sweep false rest (pc + 2)
        end
  | _ => []
  end.

Definition mark_slot (m : mark) (old : Slot) : Slot :=
  match m with
  | Starts i => mkSlot (Some i) (di_size i) (di_raw i)
  | Inside => slot_default
  | Gap => old
  end.

(** Marks are written over the slots from [k] on; those past the end are lost. *)
Fixpoint overlay (k : nat) (ms : list mark) (l : list Slot) : list Slot :=
  match ms with
  | [] => l
  | m :: ms' => overlay (S k) ms' (alter (mark_slot m) k l)
  end.

Lemma length_overlay k ms l : length (overlay k ms l) = length l.
Proof. revert k l. induction ms as [|m ms IH]; intros k l; [done|]. cbn. by rewrite IH, length_alter. Qed.

Lemma alter_past {A} (f : A -> A) k (l : list A) : (length l <= k)%nat -> alter f k l = l.
Proof.
  intros H. apply list_eq. intros j. destruct (decide (j = k)) as [->|].
  - by rewrite list_lookup_alter_eq, lookup_ge_None_2.
  - by rewrite list_lookup_alter_ne.
Qed.

Lemma overlay_past k ms l : (length l <= k)%nat -> overlay k ms l = l.
Proof.
  revert k. induction ms as [|m ms IH]; intros k H; [done|]. cbn.
  rewrite alter_past by done. apply IH. lia.
Qed.

Lemma lookup_overlay k ms l j :
  overlay k ms l !! j
  = (if decide (k <= j)%nat then
       match ms !! (j - k)%nat with Some m => mark_slot m <$> l !! j | None => l !! j end
     else l !! j).
Proof.
  revert k l. induction ms as [|m ms IH]; intros k l; [by case_decide|]. cbn. rewrite IH.
  destruct (decide (j = k)) as [->|Hne].
  - rewrite decide_False, decide_True, Nat.sub_diag by lia. apply list_lookup_alter_eq.
  - rewrite list_lookup_alter_ne by done. destruct (decide (k <= j)%nat).
    + rewrite decide_True by lia. by replace (j - k)%nat with (S (j - S k)) by lia.
    + by rewrite decide_False by lia.
Qed.

(** ** The loop computes the sweep *)

Lemma drop_two (code : list Z) o :
  (o + 2 <= length code)%nat -> exists b0 b1, drop o code = b0 :: b1 :: drop (o + 2) code.
Proof.
  intros H. destruct (lookup_lt_is_Some_2 code o) as [b0 H0]; [lia|].
  destruct (lookup_lt_is_Some_2 code (S o)) as [b1 H1]; [lia|].
  exists b0, b1. rewrite (drop_S _ _ _ H0), (drop_S _ _ _ H1). do 2 f_equal. f_equal. lia.
Qed.

Lemma raw_of_sized code o pc i n :
  (n = 2 \/ n = 4)%nat -> sized_at (drop o code) pc i n ->
  InstructionTable.raw_of code o (di_size i) = di_raw i.
Proof.
  intros Hn [Hl (Hs & Hr & _)]. rewrite length_drop in Hl. unfold InstructionTable.raw_of.
  rewrite Hs, Hr. destruct Hn as [-> | ->]; [done|]. cbn -[take]. by rewrite (proj2 (Nat.leb_le _ _)) by lia.
Qed.

Lemma insert_alter_const {A} (k : nat) (x : A) (l : list A) : <[k := x]> l = alter (fun _ => x) k l.
Proof.
  apply list_eq. intros j. destruct (decide (j = k)) as [->|].
  - rewrite list_lookup_alter_eq. destruct (decide (k < length l)%nat) as [H|H].
    + rewrite list_lookup_insert_eq by done. by destruct (lookup_lt_is_Some_2 _ _ H) as [? ->].
    + rewrite list_insert_ge by lia. by rewrite lookup_ge_None_2 by lia.
  - by rewrite list_lookup_insert_ne, list_lookup_alter_ne.
Qed.

Lemma write_slot_overlay l k i n ms :
  (n = 2 \/ n = 4)%nat -> di_size i = Z.of_nat n ->
  overlay (S k) (if (n =? 4)%nat then Inside :: ms else ms) (alter (mark_slot (Starts i)) k l)
  = overlay (k + n / 2) ms (InstructionTable.write_slot l k i (di_raw i)).
Proof.
  intros Hn Hs. unfold InstructionTable.write_slot. rewrite length_insert.
  assert (alter (mark_slot (Starts i)) k l
          = <[k := mkSlot (Some i) (if in_ub 8 (di_size i) then di_size i else 0) (di_raw i)]> l) as ->.
  { rewrite insert_alter_const, Hs. unfold mark_slot. rewrite Hs. by destruct Hn as [-> | ->]. }
  rewrite Hs. destruct Hn as [-> | ->].
  - cbn -[insert]. by rewrite Nat.add_1_r.
  - change (4 / 2)%nat with 2%nat. replace (k + 2)%nat with (S (S k)) by lia. rewrite Nat.add_1_r.
    cbn [Nat.eqb overlay]. change (Z.of_nat 4 =? 4) with true. cbn [andb]. f_equal.
    destruct (Nat.ltb_spec (S k) (length l)).
    + by rewrite (insert_alter_const (S k)).
    + apply alter_past. by rewrite length_insert.
Qed.

Context {Hr : SizedRegistry r}.

(** One iteration that finds an instruction. *)
Lemma sweep_starts code o pc i n :
  (n = 2 \/ n = 4)%nat -> sized_at (drop o code) (from_u64 X pc) i n ->
  ExtensionRegistry.decode r (drop o code) (from_u64 X pc) = Some i ->
  sweep false (drop o code) pc
  = Starts i :: (if (n =? 4)%nat then Inside :: sweep false (drop (o + n) code) (pc + Z.of_nat n)
                 else sweep false (drop (o + n) code) (pc + Z.of_nat n)).
Proof.
  intros Hn [Hl (Hs & _)] Hd. rewrite length_drop in Hl.
  destruct (drop_two code o) as (b0 & b1 & E); [lia|]. rewrite E in Hd |- *. cbn [sweep]. rewrite Hd, Hs.
  destruct Hn as [-> | ->]; [done|].
  destruct (drop_two code (o + 2)) as (b2 & b3 & E'); [lia|]. rewrite E'. cbn [sweep].
  cbn. replace (o + 2 + 2)%nat with (o + 4)%nat by lia. by replace (pc + 2 + 2) with (pc + 4) by lia.
Qed.

Lemma sweep_gap code o pc :
  (o + 2 <= length code)%nat -> ExtensionRegistry.decode r (drop o code) (from_u64 X pc) = None ->
  sweep false (drop o code) pc = Gap :: sweep false (drop (o + 2) code) (pc + 2).
Proof.
  intros Hl Hd. destruct (drop_two code o Hl) as (b0 & b1 & E). rewrite E in Hd |- *. cbn [sweep].
  by rewrite Hd.
Qed.

Lemma sweep_short code o pc : (length code < o + 2)%nat -> sweep false (drop o code) pc = [].
Proof.
  intros H. assert (length (drop o code) < 2)%nat by (rewrite length_drop; lia).
  by destruct (drop o code) as [|? [|? ?]]; [..|cbn in *; lia].
Qed.

Lemma alter_gap (k : nat) (l : list Slot) : alter (mark_slot Gap) k l = l.
Proof.
  apply list_eq. intros j. destruct (decide (j = k)) as [->|].
  - rewrite list_lookup_alter_eq. by destruct (l !! k).
  - by rewrite list_lookup_alter_ne.
Qed.

(** The loop terminates, does not panic, and writes the sweep. *)
Lemma decode_loop_sweep fuel code start seg k l :
  in_u 64 seg -> in_u 64 (seg + Z.of_nat (length code)) ->
  (0 < fuel)%nat -> (length code < fuel + 2 * k)%nat ->
  InstructionTable.decode_loop X r fuel code start seg (2 * k) l
  = Some (Ok (overlay (start + k) (sweep false (drop (2 * k) code) (seg + Z.of_nat (2 * k))) l)).
Proof.
  intros Hs He. revert k l. induction fuel as [|fuel IH]; intros k l H0 Hf; [lia|].
  cbn [InstructionTable.decode_loop]. unfold InstructionTable.SLOT_SIZE in *.
  destruct (Nat.leb_spec (2 * k + 2) (length code)) as [Hk|Hk]; [|by rewrite sweep_short].
  assert (in_u 64 (seg + Z.of_nat (2 * k))) as Hpc by (unfold in_u in *; lia).
  unfold add_u. rewrite (proj2 (in_ub_spec _ _) Hpc).
  replace (2 * k / 2)%nat with k by (rewrite Nat.mul_comm, Nat.div_mul; lia).
  destruct (Nat.leb_spec (length l) (start + k)); [by rewrite overlay_past|].
  destruct (ExtensionRegistry.decode _ _ _) as [i|] eqn:Hd.
  - destruct (registry_sized _ _ _ _ Hr Hd) as (n & Hn & Hi).
    rewrite (raw_of_sized _ _ _ _ _ Hn Hi), (sweep_starts _ _ _ _ _ Hn Hi Hd).
    destruct Hi as [Hl (Hsz & _)]. cbn [overlay]. rewrite (write_slot_overlay _ _ _ _ _ Hn Hsz).
    rewrite Hsz, Nat2Z.id.
    replace (2 * k + n)%nat with (2 * (k + n / 2))%nat by (destruct Hn as [-> | ->]; cbn; lia).
    rewrite IH by (destruct Hn as [-> | ->]; cbn; lia).
    replace (seg + Z.of_nat (2 * k) + Z.of_nat n) with (seg + Z.of_nat (2 * (k + n / 2)))
      by (destruct Hn as [-> | ->]; cbn -[Z.of_nat Nat.mul]; lia).
    by replace (start + k + n / 2)%nat with (start + (k + n / 2))%nat by lia.
  - rewrite (sweep_gap _ _ _ Hk Hd). cbn [overlay]. rewrite alter_gap.
    replace (2 * k + 2)%nat with (2 * S k)%nat by lia. rewrite IH by lia.
    replace (seg + Z.of_nat (2 * k) + 2) with (seg + Z.of_nat (2 * S k)) by lia.
    by replace (S (start + k)) with (start + S k)%nat by lia.
Qed.

(** ** Instruction boundaries

    The offsets at which a linear sweep over the code looks for an instruction. *)

Definition next_offset (code : list Z) (base : Z) (o : nat) : nat :=
  match ExtensionRegistry.decode r (drop o code) (from_u64 X (base + Z.of_nat o)) with
  | Some i => (o + Z.to_nat (di_size i))%nat
  | None => (o + 2)%nat
  end.

Inductive reach (code : list Z) (base : Z) : nat -> nat -> Prop :=
| reach_refl o : reach code base o o
| reach_step o o' :
    (o + 2 <= length code)%nat -> reach code base (next_offset code base o) o' -> reach code base o o'.

Lemma next_offset_gt code base o : (o + 2 <= next_offset code base o)%nat.
Proof.
  unfold next_offset. destruct (ExtensionRegistry.decode _ _ _) as [i|] eqn:E; [|lia].
  destruct (registry_sized _ _ _ _ Hr E) as (n & Hn & _ & (Hs & _)). lia.
Qed.

Lemma reach_le code base o o' : reach code base o o' -> (o <= o')%nat.
Proof. induction 1; [lia|]. pose proof (next_offset_gt code base o). lia. Qed.

(** From one boundary, the others are those from the next. *)
Lemma reach_next code base o o' :
  (o + 2 <= length code)%nat -> o <> o' ->
  reach code base o o' <-> reach code base (next_offset code base o) o'.
Proof.
  intros Ho Hne. split; [|by apply reach_step]. by inversion 1.
Qed.

Lemma decode_needs_two bytes pc i : ExtensionRegistry.decode r bytes pc = Some i -> (2 <= length bytes)%nat.
Proof. intros (n & Hn & Hl & _)%(registry_sized _ _ _ _ Hr). lia. Qed.

(** Even offsets only. *)
Lemma next_offset_even code base o : Nat.Even o -> Nat.Even (next_offset code base o).
Proof.
  intros [k ->]. unfold next_offset. destruct (ExtensionRegistry.decode _ _ _) as [i|] eqn:E.
  - destruct (registry_sized _ _ _ _ Hr E) as (n & Hn & _ & (-> & _)). rewrite Nat2Z.id.
    destruct Hn as [-> | ->]; [exists (k + 1)%nat | exists (k + 2)%nat]; lia.
  - exists (k + 1)%nat. lia.
Qed.

Lemma reach_even code base o o' : reach code base o o' -> Nat.Even o -> Nat.Even o'.
Proof. induction 1; auto using next_offset_even. Qed.

(** What the sweep finds at a boundary. *)
Definition boundary_mark (code : list Z) (base : Z) (o : nat) : mark :=
  match ExtensionRegistry.decode r (drop o code) (from_u64 X (base + Z.of_nat o)) with
  | Some i => Starts i
  | None => Gap
  end.

(** The sweep from [o] finds [m] in its slot [j]. *)
Definition marks_at (code : list Z) (base : Z) (o j : nat) (m : mark) : Prop :=
  reach code base o (o + 2 * j) /\ (o + 2 * j + 2 <= length code)%nat /\
  boundary_mark code base (o + 2 * j) = m.

Lemma marks_at_next code base o d j m :
  (o + 2 <= length code)%nat -> next_offset code base o = (o + 2 * d)%nat ->
  marks_at code base o (d + j) m <-> marks_at code base (o + 2 * d) j m.
Proof.
  intros Ho Hd. pose proof (next_offset_gt code base o). unfold marks_at.
  rewrite (reach_next code base o) by lia. rewrite Hd.
  by replace (o + 2 * d + 2 * j)%nat with (o + 2 * (d + j))%nat by lia.
Qed.

Lemma marks_at_inside code base o j m :
  (o + 2 <= length code)%nat -> (0 < j)%nat -> (o + 2 * j < next_offset code base o)%nat ->
  ~ marks_at code base o j m.
Proof.
  intros Ho Hj Hlt [Hreach _]. apply (reach_next code base o) in Hreach; [|lia..].
  apply reach_le in Hreach. lia.
Qed.

Lemma marks_at_0 code base o m :
  (o + 2 <= length code)%nat -> marks_at code base o 0 m <-> boundary_mark code base o = m.
Proof.
  intros Ho. unfold marks_at. rewrite Nat.mul_0_r, Nat.add_0_r. split; [by intros (_ & _ & ?)|].
  intros. split_and!; [apply reach_refl | done..].
Qed.

(** The marks of the sweep are the boundaries. *)
Lemma sweep_lookup code base o j m :
  m <> Inside ->
  sweep false (drop o code) (base + Z.of_nat o) !! j = Some m <-> marks_at code base o j m.
Proof.
  intros Hm. remember (length code - o)%nat as k eqn:Hk. revert o j Hk.
  induction k as [k IH] using (well_founded_induction lt_wf). intros o j Hk.
  destruct (decide (o + 2 <= length code)%nat) as [Ho|Ho].
  2:{ rewrite sweep_short by lia. split; [done|]. intros (_ & ? & _). lia. }
  assert (forall d j, next_offset code base o = (o + 2 * d)%nat -> (0 < d)%nat ->
            sweep false (drop (o + 2 * d) code) (base + Z.of_nat (o + 2 * d)) !! j = Some m
            <-> marks_at code base o (d + j) m) as Htail.
  { intros d j' Hd ?. rewrite marks_at_next by done. by eapply IH; [|done]; lia. }
  pose proof (marks_at_0 code base o m Ho) as H0. pose proof (marks_at_inside code base o 1 m Ho) as Hin.
  unfold next_offset, boundary_mark in *.
  destruct (ExtensionRegistry.decode r (drop o code) _) as [i|] eqn:Hd.
  - destruct (registry_sized _ _ _ _ Hr Hd) as (n & Hn & Hi).
    rewrite (sweep_starts _ _ _ _ _ Hn Hi Hd). destruct Hi as [_ (Hs & _)]. rewrite Hs, Nat2Z.id in *.
    destruct j as [|j]; [rewrite H0; cbn; split; congruence|].
    destruct Hn as [-> | ->].
    + rewrite <- (Htail 1%nat j) by lia. cbn. by rewrite Nat2Z.inj_add, Z.add_assoc.
    + destruct j as [|j].
      { cbn. split; [congruence|]. intros H. exfalso. apply Hin; [lia..|done]. }
      rewrite <- (Htail 2%nat j) by lia. cbn. by rewrite Nat2Z.inj_add, Z.add_assoc.
  - rewrite (sweep_gap _ _ _ Ho Hd). destruct j as [|j]; [rewrite H0; cbn; split; congruence|].
    rewrite <- (Htail 1%nat j) by lia. cbn. by rewrite Nat2Z.inj_add, Z.add_assoc.
Qed.

Lemma sweep_length inside bytes pc : (length (sweep inside bytes pc) = length bytes / 2)%nat.
Proof.
  remember (length bytes) as m eqn:Hm. revert inside bytes pc Hm.
  induction m as [m IH] using (well_founded_induction lt_wf). intros inside bytes pc Hm.
  destruct bytes as [|b0 [|b1 bytes]]; subst m; [done..|].
  assert (length (b0 :: b1 :: bytes) / 2 = S (length bytes / 2))%nat as ->.
  { cbn [length]. replace (S (S (length bytes))) with (length bytes + 1 * 2)%nat by lia.
    rewrite Nat.div_add by lia. lia. }
  cbn [sweep]. repeat case_match; cbn [length]; f_equal; (eapply IH; [|done]; cbn; lia).
Qed.
End sweep.

(** ** Building a table *)

(** The range and the number of slots agree. *)
Definition table_wf (t : InstructionTable) : Prop :=
  in_u 64 (base_address t) /\ in_u 64 (end_address t) /\ base_address t <= end_address t /\
  length (slots t) = InstructionTable.total_slots (Z.to_nat (end_address t - base_address t)).

Lemma total_slots_lt n k : (k < InstructionTable.total_slots n)%nat <-> (2 * k < n)%nat.
Proof.
  unfold InstructionTable.total_slots, InstructionTable.SLOT_SIZE.
  pose proof (Nat.div_mod_eq (n + 1) 2). pose proof (Nat.mod_upper_bound (n + 1) 2). lia.
Qed.

Lemma add_u_ok w x y : in_u w (x + y) -> add_u w x y = Ok (x + y).
Proof. intros H. unfold add_u. by rewrite (proj2 (in_ub_spec _ _) H). Qed.

Lemma add_u_inv w x y z : add_u w x y = Ok z <-> z = x + y /\ in_u w (x + y).
Proof.
  unfold add_u. destruct (in_ub w (x + y)) eqn:E.
  - apply in_ub_spec in E. split; [by intros [= <-] | by intros [-> _]].
  - split; [done|]. intros [_ H%in_ub_spec]. congruence.
Qed.

Section build.
Context (X : Xlen) (r : ExtensionRegistry) {Hr : SizedRegistry r}.

Lemma decode_segment_sweep t code start seg :
  in_u 64 seg -> in_u 64 (seg + Z.of_nat (length code)) ->
  InstructionTable.decode_segment X r t code start seg
  = Some (Ok (InstructionTable.with_slots t (overlay start (sweep X r false code seg) (slots t)))).
Proof.
  intros Hs He. unfold InstructionTable.decode_segment.
  pose proof (decode_loop_sweep X r (S (length code)) code start seg 0 (slots t) Hs He) as H.
  rewrite Nat.mul_0_r, !Nat.add_0_r, Z.add_0_r, drop_0 in H. rewrite H by lia. done.
Qed.

Definition swept (code : list Z) (base : Z) : InstructionTable :=
  mkTable
    (overlay 0 (sweep X r false code base)
       (replicate (InstructionTable.total_slots (length code)) slot_default))
    base (base + Z.of_nat (length code)) [base]
    [RoSegment.new base (base + Z.of_nat (length code)) code].

Lemma from_bytes_sweep code base :
  in_u 64 base -> in_u 64 (base + Z.of_nat (length code)) ->
  InstructionTable.from_bytes X r code base = Some (Ok (swept code base)).
Proof.
  intros Hb He. unfold InstructionTable.from_bytes. rewrite add_u_ok by done.
  unfold InstructionTable.decode_all. cbn [base_address].
  change (Z.of_nat (0 * _)) with 0. rewrite (add_u_ok 64 base 0), Z.add_0_r by (by rewrite Z.add_0_r).
  by rewrite decode_segment_sweep.
Qed.

Lemma swept_wf code base :
  in_u 64 base -> in_u 64 (base + Z.of_nat (length code)) -> table_wf (swept code base).
Proof.
  intros Hb He. split_and!; [done..| cbn; lia |]. cbn [slots swept base_address end_address].
  rewrite length_overlay, length_replicate. f_equal. lia.
Qed.

Lemma overlay_with_slots_wf t k ms :
  table_wf t -> table_wf (InstructionTable.with_slots t (overlay k ms (slots t))).
Proof. intros (? & ? & ? & H). split_and!; [done..|]. cbn. by rewrite length_overlay. Qed.

End build.

(** ** Addresses and indices *)

Lemma pc_to_index_spec t pc k :
  table_wf t ->
  InstructionTable.pc_to_index t pc = Some k <->
  pc = base_address t + 2 * Z.of_nat k /\ pc < end_address t.
Proof.
  intros (Hb & He & Hle & _). unfold InstructionTable.pc_to_index, InstructionTable.SLOT_SIZE, in_u in *.
  destruct (_ || _) eqn:E.
  { split; [done|]. apply orb_true_iff in E as [E%Z.ltb_lt|E%Z.leb_le]; lia. }
  apply orb_false_iff in E as [E1%Z.ltb_ge E2%Z.leb_gt].
  assert (exists o, pc = base_address t + Z.of_nat o) as [o ->] by (exists (Z.to_nat (pc - base_address t)); lia).
  replace (Z.to_nat _) with o by lia.
  pose proof (Nat.div_mod_eq o 2). destruct (Nat.eqb_spec (o mod 2) 0) as [Ho|Ho]; cbn [negb].
  - split; [intros Hk%(inj Some); lia|]. intros [? _]. f_equal. lia.
  - split; [done|]. intros [? _]. pose proof (Nat.mod_upper_bound o 2). lia.
Qed.

Lemma index_to_pc_spec t k pc :
  InstructionTable.index_to_pc t k = Ok pc <->
  pc = base_address t + 2 * Z.of_nat k /\ in_u 64 pc.
Proof.
  unfold InstructionTable.index_to_pc, InstructionTable.SLOT_SIZE. rewrite add_u_inv.
  replace (Z.of_nat (k * 2)) with (2 * Z.of_nat k) by lia. split; intros [-> ?]; done.
Qed.

Lemma is_valid_index_get t k : InstructionTable.is_valid_index t k = true <-> is_Some (InstructionTable.get t k).
Proof.
  unfold InstructionTable.is_valid_index, InstructionTable.get.
  destruct (slots t !! k) as [s|]; cbn; [apply bool_decide_eq_true|]. split; [done | by intros []].
Qed.

Lemma get_lt t k i : InstructionTable.get t k = Some i -> (k < InstructionTable.len t)%nat.
Proof. unfold InstructionTable.get. intros (s & Hs & _)%bind_Some. by eapply lookup_lt_Some. Qed.

Lemma get_at_pc_spec t pc i :
  table_wf t ->
  InstructionTable.get_at_pc t pc = Some i <->
  exists k, pc = base_address t + 2 * Z.of_nat k /\ InstructionTable.get t k = Some i.
Proof.
  intros Hwf. unfold InstructionTable.get_at_pc. rewrite bind_Some. split; intros (k & H1 & H2); exists k.
  - by apply pc_to_index_spec in H1 as [? _].
  - split; [|done]. apply pc_to_index_spec; [done|]. split; [done|].
    apply get_lt in H2. destruct Hwf as (? & ? & ? & Hl). unfold InstructionTable.len in H2.
    rewrite Hl, total_slots_lt in H2. lia.
Qed.

(** The iterator yields exactly the entries of the table. *)
Lemma valid_instructions_spec t pc i :
  table_wf t ->
  (Ok pc, i) ∈ InstructionTable.valid_instructions t <-> InstructionTable.get_at_pc t pc = Some i.
Proof.
  intros Hwf. rewrite get_at_pc_spec by done.
  unfold InstructionTable.valid_instructions, InstructionTable.valid_indices.
  rewrite list_elem_of_omap. split.
  - intros (k & _ & (j & Hj & [= E <-])%fmap_Some). symmetry in E; apply index_to_pc_spec in E as [-> _]. eauto.
  - intros (k & -> & Hk). exists k. split.
    + apply list_elem_of_filter. rewrite is_valid_index_get. split; [by eexists|].
      apply elem_of_seq. apply get_lt in Hk. lia.
    + rewrite Hk. cbn. do 2 f_equal. apply index_to_pc_spec. split; [done|].
      apply get_lt in Hk. destruct Hwf as (? & ? & ? & Hl). unfold InstructionTable.len in Hk.
      rewrite Hl, total_slots_lt in Hk. unfold in_u in *. lia.
Qed.

(** ** Entries of a swept table *)

Section entries.
Context (X : Xlen) (r : ExtensionRegistry) {Hr : SizedRegistry r}.

Lemma swept_slot code base k i :
  InstructionTable.get (swept X r code base) k = Some i <->
  slots (swept X r code base) !! k = Some (mark_slot (Starts i) slot_default) /\
  sweep X r false code base !! k = Some (Starts i).
Proof.
  unfold InstructionTable.get. cbn [slots swept]. rewrite bind_Some, lookup_overlay.
  rewrite decide_True, Nat.sub_0_r by lia. split.
  - intros (s & Hs & Hi). destruct (sweep X r false code base !! k) as [m|] eqn:Em.
    + apply fmap_Some in Hs as (o & Ho & ->). apply lookup_replicate in Ho as [-> ?].
      rewrite lookup_replicate_2 by done. destruct m; cbn in Hi; simplify_eq. done.
    + by apply lookup_replicate in Hs as [-> _].
  - intros [H1 H2]. rewrite H2 in H1 |- *. by eexists.
Qed.

Lemma swept_get code base k i :
  InstructionTable.get (swept X r code base) k = Some i <-> marks_at X r code base 0 k (Starts i).
Proof.
  rewrite swept_slot, <- (sweep_lookup X r code base 0), drop_0, Z.add_0_r by done. split; [by intros []|].
  intros H. split; [|done]. cbn [slots swept]. rewrite lookup_overlay.
  rewrite decide_True, Nat.sub_0_r, H by lia. apply lookup_lt_Some in H. rewrite sweep_length in H.
  rewrite lookup_replicate_2; [done|]. apply total_slots_lt.
  pose proof (Nat.div_mod_eq (length code) 2). lia.
Qed.

(** The slot of an entry has its size and its word. *)
Lemma swept_size_raw code base k i :
  InstructionTable.get (swept X r code base) k = Some i ->
  InstructionTable.instruction_size (swept X r code base) k = di_size i /\
  InstructionTable.raw_opcode (swept X r code base) k = di_raw i.
Proof.
  intros [H _]%swept_slot. unfold InstructionTable.instruction_size, InstructionTable.raw_opcode.
  by rewrite H.
Qed.

(** The entries are the boundaries that decode. *)
Lemma swept_get_pc code base pc i :
  in_u 64 base -> in_u 64 (base + Z.of_nat (length code)) ->
  InstructionTable.get_at_pc (swept X r code base) pc = Some i <->
  exists o, pc = base + Z.of_nat o /\ reach X r code base 0 o /\
    ExtensionRegistry.decode r (drop o code) (from_u64 X pc) = Some i.
Proof.
  intros Hb He. rewrite get_at_pc_spec by by apply swept_wf. cbn [base_address swept]. split.
  - intros (k & -> & (Hk & _ & Hd)%swept_get). cbn [Nat.add] in *. exists (2 * k)%nat.
    unfold boundary_mark in Hd. rewrite Nat2Z.inj_mul in *. split_and!; [done..|].
    destruct (ExtensionRegistry.decode _ _ _); congruence.
  - intros (o & -> & Ho & Hd). destruct (reach_even _ _ _ _ _ _ Ho) as [k ->]; [by exists 0%nat|].
    exists k. split; [lia|]. apply swept_get. split; [done|]. unfold boundary_mark. cbn [Nat.add]. rewrite Hd.
    split; [|done]. apply decode_needs_two in Hd; [|done]. rewrite length_drop in Hd. lia.
Qed.

(** A table that was built is the sweep of the code, which fits the addresses. *)
Lemma from_bytes_inv code base t :
  in_u 64 base -> InstructionTable.from_bytes X r code base = Some (Ok t) ->
  in_u 64 (base + Z.of_nat (length code)) /\ t = swept X r code base.
Proof.
  intros Hb Ht.
  assert (in_u 64 (base + Z.of_nat (length code))) as He.
  { unfold InstructionTable.from_bytes in Ht. destruct (add_u _ _ _) eqn:E; [|done].
    by apply add_u_inv in E as [_ ?]. }
  split; [done|]. rewrite from_bytes_sweep in Ht by done. by injection Ht.
Qed.
End entries.

(** ** Reading *)

Lemma fold_bytes_le i v bytes :
  0 <= i -> i + Z.of_nat (length bytes) <= 8 -> 0 <= v < 2 ^ (8 * i) -> Forall (in_u 8) bytes ->
  RoSegment.fold_bytes i v bytes = Ok (v + 2 ^ (8 * i) * from_le_bytes bytes).
Proof.
  intros Hi Hl Hv Hb. revert i v Hi Hl Hv. induction Hb as [|b bytes Hb Hbs IH]; intros i v Hi Hl Hv.
  { cbn. f_equal. lia. }
  cbn [RoSegment.fold_bytes from_le_bytes length] in *. destruct (Z.ltb_spec (i * 8) 64); [|lia].
  unfold in_u in Hb.
  assert (2 ^ (8 * i) * 2 ^ 8 = 2 ^ (8 * (i + 1))) as Hp by (rewrite <- Z.pow_add_r; f_equal; lia).
  assert (2 ^ (8 * (i + 1)) <= 2 ^ 64) by (apply Z.pow_le_mono_r; lia).
  assert (0 < 2 ^ (8 * i)) by (apply pow2_pos; lia).
  rewrite shl_u_mul; [|lia..|rewrite (Z.mul_comm i 8); nia]. rewrite (Z.mul_comm i 8), Z.lor_comm.
  rewrite (lor_disjoint (8 * i)) by (lia || apply Z.mod_mul; lia).
  rewrite IH by (lia || nia). f_equal. nia.
Qed.

(** What a segment holds at an address: the little-endian number of the bytes,
    when all of them are in the segment and have data. *)
Definition segment_value (s : RoSegment) (addr size : Z) : option Z :=
  let o := addr - ro_start s in
  if RoSegment.contains s addr && (addr + size <=? ro_end s) && (o + size <=? Z.of_nat (length (ro_data s)))
  then Some (from_le_bytes (take (Z.to_nat size) (drop (Z.to_nat o) (ro_data s)))) else None.

Definition segment_ok (s : RoSegment) : Prop := 0 <= ro_start s /\ Forall (in_u 8) (ro_data s).

Lemma segment_read_spec s addr size :
  segment_ok s -> 0 <= size <= 8 ->
  RoSegment.read s addr size
  = if RoSegment.contains s addr && (2 ^ 64 <=? addr + size) then Panic
    else Ok (segment_value s addr size).
Proof.
  intros [Hs Hd] Hsz. unfold RoSegment.read, segment_value.
  destruct (RoSegment.contains s addr) eqn:Hc; [|done]. apply andb_true_iff in Hc as [H1%Z.leb_le H2%Z.ltb_lt].
  cbn [negb andb]. unfold add_u, in_ub.
  rewrite (proj2 (Z.leb_le 0 (addr + size))) by lia. cbn [andb].
  destruct (Z.ltb_spec (addr + size) (2 ^ 64)) as [Hlt|Hge];
    [|by rewrite (proj2 (Z.leb_le _ _) Hge)].
  rewrite (proj2 (Z.leb_gt (2 ^ 64) (addr + size))) by lia. cbn [mbind result_bind].
  destruct (Z.ltb_spec (ro_end s) (addr + size)).
  { by rewrite (proj2 (Z.leb_gt (addr + size) (ro_end s))) by lia. }
  rewrite (proj2 (Z.leb_le (addr + size) (ro_end s))) by lia.
  rewrite (proj2 (Z.leb_le 0 (addr - ro_start s + size))), (proj2 (Z.ltb_lt (addr - ro_start s + size) _)) by lia.
  cbn [andb mbind result_bind]. unfold RoSegment.get_range.
  rewrite (proj2 (Z.leb_le (addr - ro_start s) _)) by lia. cbn [andb].
  destruct (Z.leb_spec (addr - ro_start s + size) (Z.of_nat (length (ro_data s)))); [|done].
  replace (addr - ro_start s + size - (addr - ro_start s)) with size by lia.
  rewrite fold_bytes_le; [|done|rewrite length_take; lia|done|by apply Forall_take, Forall_drop].
  rewrite Z.add_0_l, Z.mul_1_l. done.
Qed.

(** The value of the first segment that has one. *)
Lemma read_readonly_spec t addr size :
  Forall segment_ok (ro_segments t) -> 0 <= size <= 8 -> addr + size < 2 ^ 64 ->
  InstructionTable.read_readonly t addr size
  = Ok (head (omap (fun s => segment_value s addr size) (ro_segments t))).
Proof.
  intros Hok Hs Ha. unfold InstructionTable.read_readonly.
  induction Hok as [|s l Hs' _ IH]; [done|]. cbn [InstructionTable.read_from omap list_omap].
  rewrite segment_read_spec by done. rewrite (proj2 (Z.leb_gt _ _) Ha), andb_false_r.
  cbn [mbind result_bind]. by destruct (segment_value s addr size).
Qed.

(** ** Populating a segment *)

Section populate.
Context (X : Xlen) (r : ExtensionRegistry) {Hr : SizedRegistry r}.
Context (t : InstructionTable) (code : list Z) (k : nat).

Definition populated : InstructionTable :=
  InstructionTable.with_slots t
    (overlay k (sweep X r false code (base_address t + 2 * Z.of_nat k)) (slots t)).

Lemma populate_segment_sweep :
  table_wf t -> base_address t + 2 * Z.of_nat k < end_address t ->
  in_u 64 (base_address t + 2 * Z.of_nat k + Z.of_nat (length code)) ->
  InstructionTable.populate_segment X r t code (base_address t + 2 * Z.of_nat k) = Some (Ok populated).
Proof.
  intros (Hb & He & _) Hlt Hs. unfold InstructionTable.populate_segment, InstructionTable.SLOT_SIZE, in_u in *.
  rewrite (proj2 (Z.ltb_ge _ _)), (proj2 (Z.leb_gt _ _)) by lia. cbn [orb].
  replace (Z.to_nat (base_address t + 2 * Z.of_nat k - base_address t)) with (k * 2)%nat by lia.
  rewrite Nat.div_mul by lia. by rewrite decode_segment_sweep by (done || unfold in_u; lia).
Qed.

Lemma populated_get j :
  InstructionTable.get populated j
  = match (if decide (k <= j)%nat
           then sweep X r false code (base_address t + 2 * Z.of_nat k) !! (j - k)%nat else None) with
    | Some (Starts i) => if decide (j < length (slots t))%nat then Some i else None
    | Some Inside => None
    | Some Gap | None => InstructionTable.get t j
    end.
Proof.
  unfold InstructionTable.get. cbn [populated InstructionTable.with_slots slots]. rewrite lookup_overlay.
  case_decide; [|done]. destruct (sweep _ _ _ _ _ !! _) as [[i| |]|]; [..|done].
  - case_decide as Hlt.
    + by destruct (lookup_lt_is_Some_2 _ _ Hlt) as [s ->].
    + by rewrite lookup_ge_None_2 by lia.
  - by destruct (slots t !! j).
  - by destruct (slots t !! j).
Qed.

(** Outside the segment. *)
Lemma populated_outside j :
  (j < k)%nat \/ (k + length code / 2 <= j)%nat ->
  InstructionTable.get populated j = InstructionTable.get t j.
Proof.
  intros Hj. rewrite populated_get. case_decide; [|done].
  rewrite lookup_ge_None_2; [done|]. rewrite sweep_length. lia.
Qed.

(** At a boundary of the segment. *)
Lemma populated_boundary j (seg := base_address t + 2 * Z.of_nat k) :
  (k + j < length (slots t))%nat -> (2 * j + 2 <= length code)%nat -> reach X r code seg 0 (2 * j) ->
  InstructionTable.get populated (k + j)
  = match ExtensionRegistry.decode r (drop (2 * j) code) (from_u64 X (seg + 2 * Z.of_nat j)) with
    | Some i => Some i
    | None => InstructionTable.get t (k + j)
    end.
Proof.
  intros Hlen Hj Hreach. rewrite populated_get, decide_True by lia. replace (k + j - k)%nat with j by lia.
  assert (sweep X r false code seg !! j = Some (boundary_mark X r code seg (2 * j))) as E.
  { pose proof (sweep_lookup X r code seg 0 j) as H. rewrite drop_0, Z.add_0_r in H.
    apply H; [unfold boundary_mark; by case_match | done]. }
  unfold seg in *. rewrite E. unfold boundary_mark. rewrite Nat2Z.inj_mul.
  change (Z.of_nat 2) with 2. destruct (ExtensionRegistry.decode _ _ _); [by rewrite decide_True|done].
Qed.

(** Inside an instruction of the segment. *)
Lemma populated_inside j :
  (2 * j + 2 <= length code)%nat -> ~ reach X r code (base_address t + 2 * Z.of_nat k) 0 (2 * j) ->
  InstructionTable.get populated (k + j) = None.
Proof.
  intros Hj Hno. rewrite populated_get, decide_True by lia. replace (k + j - k)%nat with j by lia.
  pose proof (sweep_lookup X r code (base_address t + 2 * Z.of_nat k) 0 j) as H. rewrite drop_0, Z.add_0_r in H.
  destruct (sweep _ _ _ _ _ !! j) as [m|] eqn:E.
  - destruct m as [i| |]; [|done|]; exfalso; apply Hno.
    + by destruct (proj1 (H (Starts i) ltac:(done)) eq_refl).
    + by destruct (proj1 (H Gap ltac:(done)) eq_refl).
  - apply lookup_ge_None in E. rewrite sweep_length in E.
    pose proof (Nat.div_mod_eq (length code) 2). pose proof (Nat.mod_upper_bound (length code) 2). lia.
Qed.
End populate.
