(* ===== verification/TableProps.v ===== *)
(** * Properties of the instruction table *)

From S2P Require Import CExt Prelude Xlen IR IRBuild IRSem Isa Ext Syscalls Registry InstrTable.
From S2P Require Import BaseLift RiscvSpec LiftFacts BaseSpec Promise RegistryCorrect TableFacts.
#[local] Open Scope word_scope.

(** C23. Building a table from the bytes of a program terminates and does not
    panic, and the table holds at each address exactly the instruction that a
    linear sweep over the code decodes there: there is an entry for [pc] if and
    only if the sweep reaches its offset and the registry decodes the bytes. *)
Theorem from_bytes_correct X r code base :
  SizedRegistry r -> in_u 64 base -> in_u 64 (base + Z.of_nat (length code)) ->
  exists t, InstructionTable.from_bytes X r code base = Some (Ok t) /\ table_wf t /\
    forall pc i, InstructionTable.get_at_pc t pc = Some i <->
      exists o, pc = base + Z.of_nat o /\ reach X r code base 0 o /\
        ExtensionRegistry.decode r (drop o code) (from_u64 X pc) = Some i.
Proof.
  intros Hr Hb He. exists (swept X r code base). split_and!.
  - by apply from_bytes_sweep.
  - by apply swept_wf.
  - intros. by apply swept_get_pc.
Qed.

(** [c.nop; addi x1, x0, 42] and two more bytes. *)
Definition sample_code : list Z := [0x01; 0x00; 0x93; 0x00; 0xA0; 0x02; 0xFF; 0xFF].

Lemma from_bytes_correct_witness :
  exists t, InstructionTable.from_bytes Rv64 (ExtensionRegistry.standard Rv64) sample_code 0x80000000
            = Some (Ok t) /\ table_wf t /\
    forall pc i, InstructionTable.get_at_pc t pc = Some i <->
      exists o, pc = 0x80000000 + Z.of_nat o /\
        reach Rv64 (ExtensionRegistry.standard Rv64) sample_code 0x80000000 0 o /\
        ExtensionRegistry.decode (ExtensionRegistry.standard Rv64) (drop o sample_code) (from_u64 Rv64 pc)
        = Some i.
Proof.
  apply (from_bytes_correct Rv64 (ExtensionRegistry.standard Rv64) sample_code 0x80000000);
    [apply standard_sized | split; [discriminate | reflexivity] | split; [discriminate | reflexivity]].
Defined.

(** The entries of a table built from bytes agree with the memory they came
    from: the recorded size and word are those of the instruction, and reading
    that many bytes at its address from the read-only memory gives the word. *)
Theorem entry_matches_memory X r code base t pc i :
  SizedRegistry r -> Forall (in_u 8) code ->
  InstructionTable.from_bytes X r code base = Some (Ok t) -> in_u 64 base ->
  InstructionTable.get_at_pc t pc = Some i ->
  InstructionTable.instruction_size_at_pc t pc = di_size i /\
  InstructionTable.raw_opcode_at_pc t pc = di_raw i /\
  InstructionTable.read_readonly t pc (di_size i) = Ok (Some (di_raw i)).
Proof.
  intros Hr Hcode Ht Hb Hi. apply from_bytes_inv in Ht as [He ->]; [|done..].
  pose proof Hi as (k & Hk & Hg)%bind_Some.
  unfold InstructionTable.instruction_size_at_pc, InstructionTable.raw_opcode_at_pc. rewrite Hk.
  destruct (swept_size_raw X r code base k i Hg) as [-> ->]. do 2 (split; [done|]).
  apply swept_get_pc in Hi as (o & -> & _ & Hd); [|done..].
  destruct (registry_sized _ _ _ _ Hr Hd) as (n & Hn & Hl & (-> & -> & _)). rewrite length_drop in Hl.
  unfold in_u in *. rewrite read_readonly_spec; [|repeat constructor; [apply Hb | done] | lia | lia].
  cbn [ro_segments swept omap list_omap]. unfold segment_value, RoSegment.contains.
  cbn [RoSegment.new ro_start ro_end ro_data].
  replace (base + Z.of_nat o - base) with (Z.of_nat o) by lia.
  rewrite !(proj2 (Z.leb_le _ _)), (proj2 (Z.ltb_lt _ _)) by lia. cbn [andb head].
  by rewrite !Nat2Z.id.
Qed.

Lemma entry_matches_memory_witness :
  exists t i, InstructionTable.get_at_pc t 0x80000002 = Some i /\
    InstructionTable.read_readonly t 0x80000002 4 = Ok (Some 0x02A00093) /\
    InstructionTable.instruction_size_at_pc t 0x80000002 = di_size i /\
    InstructionTable.raw_opcode_at_pc t 0x80000002 = di_raw i /\
    InstructionTable.read_readonly t 0x80000002 (di_size i) = Ok (Some (di_raw i)).
Proof.
  eexists (swept Rv64 (ExtensionRegistry.standard Rv64) sample_code 0x80000000), _.
  split; [vm_compute; reflexivity|]. split; [vm_compute; reflexivity|].
  apply (entry_matches_memory Rv64 (ExtensionRegistry.standard Rv64) sample_code 0x80000000);
    [apply standard_sized | repeat constructor; discriminate
    | vm_compute; reflexivity | split; [discriminate | reflexivity] | vm_compute; reflexivity].
Defined.



(** C25. Adding a segment to a table terminates, does not panic, keeps the entries
    outside the segment, and inside it: where the sweep over the segment decodes an
    instruction the table has it, the second half of a four-byte instruction has no
    entry, and bytes that do not decode keep what was there. *)
Theorem populate_segment_correct X r t code k seg :
  SizedRegistry r -> table_wf t ->
  seg = base_address t + 2 * Z.of_nat k -> seg < end_address t ->
  in_u 64 (seg + Z.of_nat (length code)) ->
  exists t', InstructionTable.populate_segment X r t code seg = Some (Ok t') /\ table_wf t' /\
    (forall pc, pc < seg \/ seg + Z.of_nat (length code) < pc + 2 ->
       InstructionTable.get_at_pc t' pc = InstructionTable.get_at_pc t pc) /\
    (forall j pc, pc = seg + 2 * Z.of_nat j -> (2 * j + 2 <= length code)%nat -> pc < end_address t ->
       (reach X r code seg 0 (2 * j) ->
          InstructionTable.get_at_pc t' pc
          = match ExtensionRegistry.decode r (drop (2 * j) code) (from_u64 X pc) with
            | Some i => Some i
            | None => InstructionTable.get_at_pc t pc
            end) /\
       (~ reach X r code seg 0 (2 * j) -> InstructionTable.get_at_pc t' pc = None)).
Proof.
  intros Hr Hwf -> Hlt Hs. exists (populated X r t code k).
  split; [by apply populate_segment_sweep|]. split; [by apply overlay_with_slots_wf|].
  set (t' := populated X r t code k).
  assert (forall pc, InstructionTable.pc_to_index t' pc = InstructionTable.pc_to_index t pc) as Hidx by done.
  unfold InstructionTable.get_at_pc. split.
  - intros pc Hpc. rewrite Hidx. destruct (InstructionTable.pc_to_index t pc) as [n|] eqn:En; [|done].
    apply pc_to_index_spec in En as [-> _]; [|done]. cbn [mbind option_bind]. apply populated_outside.
    pose proof (Nat.div_mod_eq (length code) 2). pose proof (Nat.mod_upper_bound (length code) 2). lia.
  - intros j pc -> Hj Hend.
    assert (k + j < length (slots t))%nat as Hlen.
    { destruct Hwf as (? & ? & ? & ->). apply total_slots_lt. lia. }
    rewrite Hidx, (proj2 (pc_to_index_spec t _ (k + j) Hwf)) by lia. cbn [mbind option_bind]. split; intros.
    + by apply populated_boundary.
    + by apply populated_inside.
Qed.

(** An empty table over sixteen bytes. *)
Definition blank_table : InstructionTable :=
  mkTable (replicate 8 slot_default) 0x80000000 0x80000010 [0x80000000] [].

Lemma blank_table_wf : table_wf blank_table.
Proof.
  split; [split; [discriminate | reflexivity]|]. split; [split; [discriminate | reflexivity]|].
  split; [discriminate | vm_compute; reflexivity].
Defined.

Lemma populate_segment_correct_witness :
  InstructionTable.new 0x80000000 0x80000010 0x80000000 = Ok blank_table /\
  exists t', InstructionTable.populate_segment Rv64 (ExtensionRegistry.standard Rv64) blank_table
               sample_code 0x80000004 = Some (Ok t') /\
    InstructionTable.get_at_pc t' 0x80000004
      = Some (mkDecoded OP_C_NOP 0x80000004 2 0x0001 A_None) /\
    InstructionTable.get_at_pc t' 0x80000000 = None.
Proof.
  split; [vm_compute; reflexivity|].
  destruct (populate_segment_correct Rv64 (ExtensionRegistry.standard Rv64) blank_table sample_code 2 0x80000004)
    as (t' & Ht & _ & Hout & Hin);
    [apply standard_sized | apply blank_table_wf | reflexivity | reflexivity
    | split; [discriminate | reflexivity]|].
  exists t'. split; [exact Ht|]. split.
  - destruct (Hin 0%nat 0x80000004) as [H _]; [reflexivity | vm_compute; lia | reflexivity|].
    rewrite H; [vm_compute; reflexivity | apply reach_refl].
  - rewrite (Hout 0x80000000); [vm_compute; reflexivity | left; reflexivity].
Defined.

(** C26. Addresses and indices correspond: an address maps to an index exactly
    when the index maps back to it and it is below the end of the table, and the
    iteration over the valid instructions yields exactly the entries of the
    table, each with its address. *)
Theorem index_pc_bijection t :
  table_wf t ->
  (forall pc k, InstructionTable.pc_to_index t pc = Some k <->
     InstructionTable.index_to_pc t k = Ok pc /\ pc < end_address t) /\
  (forall pc i, (Ok pc, i) ∈ InstructionTable.valid_instructions t <->
     InstructionTable.get_at_pc t pc = Some i) /\
  (forall pc, InstructionTable.is_valid_pc t pc = true <-> is_Some (InstructionTable.get_at_pc t pc)).
Proof.
  intros Hwf. split_and!.
  - intros pc k. rewrite pc_to_index_spec, index_to_pc_spec by done.
    destruct Hwf as (Hb & He & _). unfold in_u in *. split; [intros [-> ?]|intros [[-> ?] ?]]; lia.
  - intros. by apply valid_instructions_spec.
  - intros pc. unfold InstructionTable.is_valid_pc, InstructionTable.get_at_pc.
    destruct (InstructionTable.pc_to_index t pc); cbn [mbind option_bind]; [apply is_valid_index_get|].
    split; [done | by intros []].
Qed.

Lemma index_pc_bijection_witness :
  InstructionTable.pc_to_index blank_table 0x80000006 = Some 3%nat <->
  InstructionTable.index_to_pc blank_table 3 = Ok 0x80000006 /\ 0x80000006 < end_address blank_table.
Proof. apply (index_pc_bijection blank_table). apply blank_table_wf. Defined.

(** Reading read-only memory: a read of at most eight bytes returns the
    little-endian value in the first segment, in the order in which they were
    added, that covers all of its bytes, and nothing when there is none; the only
    panic is an address so close to the end of the address space that adding the
    size overflows. *)
Theorem read_readonly_correct t addr size :
  Forall segment_ok (ro_segments t) -> 0 <= size <= 8 ->
  (addr + size < 2 ^ 64 ->
     InstructionTable.read_readonly t addr size
     = Ok (head (omap (fun s => segment_value s addr size) (ro_segments t)))) /\
  (2 ^ 64 <= addr + size ->
     InstructionTable.read_readonly t addr size
     = (if existsb (fun s => RoSegment.contains s addr) (ro_segments t) then Panic else Ok None)).
Proof.
  intros Hok Hs. split; [by apply read_readonly_spec|]. intros Ha.
  unfold InstructionTable.read_readonly. induction Hok as [|s l Hs' _ IH]; [done|].
  cbn [InstructionTable.read_from existsb]. rewrite segment_read_spec by done.
  rewrite (proj2 (Z.leb_le _ _) Ha), andb_true_r. destruct (RoSegment.contains s addr) eqn:E; [done|].
  unfold segment_value. rewrite E. exact IH.
Qed.

Lemma read_readonly_correct_witness :
  InstructionTable.read_readonly
    (InstructionTable.add_ro_segment blank_table 0x1000 0x1004 [0x78; 0x56; 0x34; 0x12]) 0x1001 2
  = Ok (Some 0x3456).
Proof.
  rewrite (proj1 (read_readonly_correct
    (InstructionTable.add_ro_segment blank_table 0x1000 0x1004 [0x78; 0x56; 0x34; 0x12]) 0x1001 2
    ltac:(repeat constructor; discriminate) ltac:(split; discriminate)));
    [vm_compute; reflexivity | reflexivity].
Defined.
