(* ===== verification/CfgData.v ===== *)
(** * Data of the control-flow analysis ([crates/rvr-cfg/src/analysis/data.rs])

    Abstract register values (a bounded set of constants, or unknown), register
    states, and the view of an instruction the analysis works on.  The helper
    functions at the end of [analysis/mod.rs] that both use are here too. *)

From S2P Require Import Prelude Xlen IR IRBuild Isa Base CExt.
#[local] Open Scope word_scope.

Definition NUM_REGS : nat := 32.
Definition MAX_VALUES : nat := 16.
Definition MAX_ITERATIONS_MULTIPLIER : Z := 20.
Definition MAX_JUMP_TABLE_SCAN : nat := 256.

(** ** Helpers of [analysis/mod.rs] *)

(** The immediate is an [i32], the result a [u64]. *)
Definition sign_extend_i32 (value : Z) : Z := wrap 64 value.
Definition add_signed (base imm : Z) : Z := wrap 64 (base + sign_extend_i32 imm).

Definition extend_loaded_value (value width : Z) (is_unsigned : bool) : Z :=
  if width =? 1 then
    let masked := value &ᵇ 0xFF in
    if is_unsigned then masked
    else if negb (masked &ᵇ 0x80 =? 0) then masked |ᵇ 0xFFFFFFFFFFFFFF00 else masked
  else if width =? 2 then
    let masked := value &ᵇ 0xFFFF in
    if is_unsigned then masked
    else if negb (masked &ᵇ 0x8000 =? 0) then masked |ᵇ 0xFFFFFFFFFFFF0000 else masked
  else if width =? 4 then
    let masked := value &ᵇ 0xFFFFFFFF in
    if is_unsigned then masked
    else if negb (masked &ᵇ 0x80000000 =? 0) then masked |ᵇ 0xFFFFFFFF00000000 else masked
  else value.

Definition extract_written_reg (a : InstrArgs) : option Z :=
  match a with
  | A_R rd _ _ | A_R4 rd _ _ _ | A_I rd _ _ | A_U rd _ | A_J rd _ | A_Csr rd _ _ | A_CsrI rd _ _
  | A_Amo rd _ _ _ _ => if rd =? 0 then None else Some rd
  | A_S _ _ _ | A_B _ _ _ | A_None | A_Custom _ => None
  end.

(** The loop of [binary_search_le] on [lo..hi]; [fuel] bounds [hi - lo]. *)
Fixpoint search_loop (fuel : nat) (sorted : list Z) (target : Z) (lo hi : nat) : result nat :=
  match fuel with
  | O => Ok lo
  | S fuel =>
      if (lo <? hi)%nat then
        let mid := ((lo + hi) / 2)%nat in
        match sorted !! mid with
        | None => Panic
        | Some v =>
            if v <=? target then search_loop fuel sorted target (mid + 1) hi
            else search_loop fuel sorted target lo mid
        end
      else Ok lo
  end.

Definition binary_search_le (sorted : list Z) (target : Z) : result (option Z) :=
  match sorted with
  | [] => Ok None
  | _ =>
      lo ← search_loop (length sorted) sorted target 0 (length sorted);
      if (lo =? 0)%nat then mret None
      else match sorted !! (lo - 1)%nat with None => Panic | Some v => mret (Some v) end
  end.

(** ** Register values *)

Inductive ValueKind := VUnknown | VConstant.

#[export] Instance ValueKind_eq_dec : EqDecision ValueKind.
Proof. solve_decision. Defined.

Record RegisterValue := mkValue { v_kind : ValueKind; values : list Z }.

#[export] Instance RegisterValue_eq_dec : EqDecision RegisterValue.
Proof. solve_decision. Defined.

Module RegisterValue.
Definition unknown : RegisterValue := mkValue VUnknown [].
Definition constant (value : Z) : RegisterValue := mkValue VConstant [value].
Definition is_constant (v : RegisterValue) : bool := bool_decide (v_kind v = VConstant).

(** [slice::binary_search] on a strictly sorted slice: the value is there, or
    the index at which it has to be inserted. *)
Fixpoint binary_search (l : list Z) (value : Z) : nat + nat :=
  match l with
  | [] => inr 0%nat
  | x :: l' =>
      if x =? value then inl 0%nat
      else if value <? x then inr 0%nat
      else match binary_search l' value with inl i => inl (S i) | inr i => inr (S i) end
  end.

(** [Vec::insert] *)
Definition insert_at (l : list Z) (idx : nat) (value : Z) : list Z :=
  take idx l ++ value :: drop idx l.

Definition add_value (v : RegisterValue) (value : Z) : RegisterValue :=
  if negb (is_constant v) then v
  else
    match binary_search (values v) value with
    | inl _ => v
    | inr idx =>
        if (MAX_VALUES <=? length (values v))%nat then mkValue VUnknown []
        else mkValue (v_kind v) (insert_at (values v) idx value)
    end.

(** [push], then give up when there are too many values ([None]). *)
Definition push (merged : list Z) (x : Z) (k : list Z -> option (list Z)) : option (list Z) :=
  let merged := merged ++ [x] in
  if (MAX_VALUES <? length merged)%nat then None else k merged.

(** The loops over the values that are left on one side. *)
Fixpoint push_all (l merged : list Z) : option (list Z) :=
  match l with [] => Some merged | x :: l' => push merged x (push_all l') end.

(** The loop over both sides. *)
Fixpoint merge_loop (a : list Z) : list Z -> list Z -> option (list Z) :=
  fix go (b merged : list Z) : option (list Z) :=
    match a, b with
    | x :: a', y :: b' =>
        match x ?= y with
        | Datatypes.Eq => push merged x (merge_loop a' b')
        | Datatypes.Lt => push merged x (merge_loop a' b)
        | Datatypes.Gt => push merged y (go b')
        end
    | [], _ => push_all b merged
    | _, [] => push_all a merged
    end.

Definition merge (v other : RegisterValue) : RegisterValue :=
  if bool_decide (v_kind v = VUnknown) || bool_decide (v_kind other = VUnknown) then unknown
  else
    match merge_loop (values v) (values other) [] with
    | None => unknown
    | Some merged => mkValue VConstant merged
    end.
End RegisterValue.

(** ** Register states *)

Record RegisterState := mkRegs { regs : list RegisterValue }.

#[export] Instance RegisterState_eq_dec : EqDecision RegisterState.
Proof. solve_decision. Defined.

Module RegisterState.
Definition new : RegisterState :=
  mkRegs (<[0%nat := RegisterValue.constant 0]> (replicate NUM_REGS RegisterValue.unknown)).

(** [self.regs[idx]]: the array has [NUM_REGS] elements and the index is tested
    before. *)
Definition at_index (s : RegisterState) (idx : nat) : RegisterValue :=
  default RegisterValue.unknown (regs s !! idx).

Definition get (s : RegisterState) (reg : Z) : RegisterValue :=
  let idx := Z.to_nat reg in
  if (NUM_REGS <=? idx)%nat then RegisterValue.unknown
  else if (idx =? 0)%nat then RegisterValue.constant 0
  else at_index s idx.

Definition get_ref (s : RegisterState) (reg : Z) : RegisterValue :=
  let idx := Z.to_nat reg in
  if (NUM_REGS <=? idx)%nat then at_index s 0 else at_index s idx.

Definition set (s : RegisterState) (reg : Z) (value : RegisterValue) : RegisterState :=
  let idx := Z.to_nat reg in
  if (idx =? 0)%nat || (NUM_REGS <=? idx)%nat then s else mkRegs (<[idx := value]> (regs s)).

Definition set_constant (s : RegisterState) (reg value : Z) : RegisterState :=
  set s reg (RegisterValue.constant value).
Definition set_unknown (s : RegisterState) (reg : Z) : RegisterState :=
  set s reg RegisterValue.unknown.

(** One iteration of [merge]: the state so far and whether it changed. *)
Definition merge_reg (other : RegisterState) (acc : RegisterState * bool) (idx : nat)
    : RegisterState * bool :=
  let '(s, changed) := acc in
  let merged := RegisterValue.merge (at_index s idx) (at_index other idx) in
  if decide (merged = at_index s idx) then (s, changed)
  else (mkRegs (<[idx := merged]> (regs s)), true).

Definition merge (s other : RegisterState) : RegisterState * bool :=
  foldl (merge_reg other) (s, false) (seq 1 (NUM_REGS - 1)).
End RegisterState.

(** ** Instructions as the analysis sees them *)

Inductive InstrKind :=
| KUnknown | KLui | KAuipc | KAddi | KAdd | KMove | KJal | KJalr | KLoad | KBranch.

#[export] Instance InstrKind_eq_dec : EqDecision InstrKind.
Proof. solve_decision. Defined.

Record DecodedInstruction := mkView {
  d_kind : InstrKind;
  d_rd : option Z;
  d_rs1 : option Z;
  d_rs2 : option Z;
  d_imm : Z;
  load_width_bytes : Z;
  is_unsigned : bool
}.

Module DecodedInstruction.
Definition unknown : DecodedInstruction := mkView KUnknown None None None 0 0 false.

Definition decode_u (instr : DecodedInstr) (kind : InstrKind) : DecodedInstruction :=
  match args instr with
  | A_U rd imm => mkView kind (Some rd) None None imm 0 false
  | _ => unknown
  end.
Definition decode_i (instr : DecodedInstr) (kind : InstrKind) : DecodedInstruction :=
  match args instr with
  | A_I rd rs1 imm => mkView kind (Some rd) (Some rs1) None imm 0 false
  | _ => unknown
  end.
Definition decode_r (instr : DecodedInstr) (kind : InstrKind) : DecodedInstruction :=
  match args instr with
  | A_R rd rs1 rs2 => mkView kind (Some rd) (Some rs1) (Some rs2) 0 0 false
  | _ => unknown
  end.
Definition decode_mv (instr : DecodedInstr) : DecodedInstruction :=
  match args instr with
  | A_R rd _ rs2 => mkView KMove (Some rd) (Some rs2) None 0 0 false
  | _ => unknown
  end.
Definition decode_j (instr : DecodedInstr) (kind : InstrKind) : DecodedInstruction :=
  match args instr with
  | A_J rd imm => mkView kind (Some rd) None None imm 0 false
  | _ => unknown
  end.

Definition load_width (o : OpId) : Z * bool :=
  if o =ₒ OP_LB then (1, false)
  else if o =ₒ OP_LBU then (1, true)
  else if o =ₒ OP_LH then (2, false)
  else if o =ₒ OP_LHU then (2, true)
  else if (o =ₒ OP_LW) || (o =ₒ OP_C_LW) || (o =ₒ OP_C_LWSP) then (4, false)
  else if o =ₒ OP_LWU then (4, true)
  else if (o =ₒ OP_LD) || (o =ₒ OP_C_LD) || (o =ₒ OP_C_LDSP) then (8, false)
  else (0, false).
Definition decode_load (o : OpId) (instr : DecodedInstr) : DecodedInstruction :=
  match args instr with
  | A_I rd rs1 imm =>
      let '(w, u) := load_width o in mkView KLoad (Some rd) (Some rs1) None imm w u
  | _ => unknown
  end.
Definition decode_branch (instr : DecodedInstr) : DecodedInstruction :=
  match args instr with
  | A_B rs1 rs2 imm => mkView KBranch None (Some rs1) (Some rs2) imm 0 false
  | _ => unknown
  end.

(** [matches!(opid, A | B | ..)] *)
Definition one_of (o : OpId) (l : list OpId) : bool := existsb (OpId.eqb o) l.

Definition from_instr (instr : DecodedInstr) : DecodedInstruction :=
  let o := opid instr in
  if one_of o [OP_LUI; OP_C_LUI] then decode_u instr KLui
  else if one_of o [OP_AUIPC] then decode_u instr KAuipc
  else if one_of o [OP_ADDI; OP_C_ADDI; OP_C_ADDI16SP; OP_C_ADDI4SPN; OP_C_LI] then decode_i instr KAddi
  else if one_of o [OP_ADD; OP_C_ADD] then decode_r instr KAdd
  else if one_of o [OP_C_MV] then decode_mv instr
  else if one_of o [OP_JAL; OP_C_J; OP_C_JAL] then decode_j instr KJal
  else if one_of o [OP_JALR; OP_C_JR; OP_C_JALR] then decode_i instr KJalr
  else if one_of o [OP_LB; OP_LBU; OP_LH; OP_LHU; OP_LW; OP_LWU; OP_LD; OP_C_LW; OP_C_LWSP; OP_C_LD;
                    OP_C_LDSP] then decode_load o instr
  else if one_of o [OP_BEQ; OP_BNE; OP_BLT; OP_BGE; OP_BLTU; OP_BGEU; OP_C_BEQZ; OP_C_BNEZ]
       then decode_branch instr
  else mkView KUnknown (extract_written_reg (args instr)) None None 0 0 false.

Definition is_control_flow (d : DecodedInstruction) : bool :=
  match d_kind d with KJal | KJalr | KBranch => true | _ => false end.
Definition is_static_call (d : DecodedInstruction) : bool :=
  bool_decide (d_kind d = KJal) && negb (bool_decide (d_rd d = Some 0)).
Definition is_call (d : DecodedInstruction) : bool :=
  match d_kind d with KJal | KJalr => negb (bool_decide (d_rd d = Some 0)) | _ => false end.
Definition is_return (d : DecodedInstruction) : bool :=
  bool_decide (d_kind d = KJalr) && bool_decide (d_rd d = Some 0) && bool_decide (d_rs1 d = Some 1).
Definition is_indirect_jump (d : DecodedInstruction) : bool :=
  bool_decide (d_kind d = KJalr) && bool_decide (d_rd d = Some 0)
  && negb (bool_decide (d_rs1 d = Some 1)).
End DecodedInstruction.
