(* ===== verification/CfgScan.v ===== *)
(** * Control-flow analysis: collecting targets ([crates/rvr-cfg/src/analysis/mod.rs])

    The linear passes over the instruction table and the read-only segments that
    collect function entries, jump targets and return sites.  Sets of addresses
    ([FxHashSet<u64>]) are [gset Z], maps [gmap Z]. *)

From S2P Require Import Prelude Xlen IR IRBuild Isa Ext InstrTable CfgData.
#[local] Open Scope word_scope.

(** A loop that can run out of fuel ([None]) or panic. *)
Definition run (A : Type) : Type := option (result A).

(** ** The linear pass

    [scan_instruction_targets], [build_call_return_map] and
    [BlockTable::build_linear_blocks] walk over the table in the same way:
    slots without an instruction are skipped two bytes at a time, [body] is run
    on each instruction. *)
Fixpoint scan_loop {A} (t : InstructionTable) (body : Z -> Z -> DecodedInstr -> A -> result A)
    (fuel : nat) (pc : Z) (acc : A) : run A :=
  match fuel with
  | O => None
  | S fuel =>
      if pc <? end_address t then
        let size := InstructionTable.instruction_size_at_pc t pc in
        let step (n : Z) (acc : A) : run A :=
          match add_u 64 pc n with
          | Ok pc' => scan_loop t body fuel pc' acc
          | Panic => Some Panic
          end in
        if negb (InstructionTable.is_valid_pc t pc) then step 2 acc
        else if size =? 0 then step 2 acc
        else
          match InstructionTable.get_at_pc t pc with
          | None => step size acc
          | Some instr =>
              match body pc size instr acc with
              | Ok acc' => step size acc'
              | Panic => Some Panic
              end
          end
      else Some (Ok acc)
  end.

(** Every step advances by at least one byte. *)
Definition scan_fuel (t : InstructionTable) : nat :=
  S (Z.to_nat (end_address t - base_address t)).

Definition scan {A} (t : InstructionTable) (body : Z -> Z -> DecodedInstr -> A -> result A) (acc : A)
    : run A :=
  scan_loop t body (scan_fuel t) (base_address t) acc.

(** ** Register facts and targets *)

(** The state of [TargetScanContext] with the known register values. *)
Record TargetScan := mkScan {
  sc_regs : list (option Z);
  function_entries : gset Z;
  internal_targets : gset Z;
  return_sites : gset Z
}.

Definition with_sc_regs (c : TargetScan) (l : list (option Z)) : TargetScan :=
  mkScan l (function_entries c) (internal_targets c) (return_sites c).
Definition add_function_entry (c : TargetScan) (pc : Z) : TargetScan :=
  mkScan (sc_regs c) ({[pc]} ∪ function_entries c) (internal_targets c) (return_sites c).
Definition add_internal_target (c : TargetScan) (pc : Z) : TargetScan :=
  mkScan (sc_regs c) (function_entries c) ({[pc]} ∪ internal_targets c) (return_sites c).
Definition add_return_site (c : TargetScan) (pc : Z) : TargetScan :=
  mkScan (sc_regs c) (function_entries c) (internal_targets c) ({[pc]} ∪ return_sites c).

(** [regs[r as usize]], read and written; an index past the array panics. *)
Definition read_fact (c : TargetScan) (r : Z) : result (option Z) :=
  match sc_regs c !! Z.to_nat r with Some v => Ok v | None => Panic end.
Definition write_fact (c : TargetScan) (r : Z) (v : option Z) : result TargetScan :=
  if (Z.to_nat r <? length (sc_regs c))%nat
  then Ok (with_sc_regs c (<[Z.to_nat r := v]> (sc_regs c))) else Panic.

Section handlers.
Context (t : InstructionTable).

Definition entry_if_valid (c : TargetScan) (pc : Z) : TargetScan :=
  if InstructionTable.is_valid_pc t pc then add_function_entry c pc else c.
Definition target_if_valid (c : TargetScan) (pc : Z) : TargetScan :=
  if InstructionTable.is_valid_pc t pc then add_internal_target c pc else c.

Definition handle_lui (c : TargetScan) (d : DecodedInstruction) : result TargetScan :=
  match d_rd d with
  | Some rd => write_fact c rd (Some (sign_extend_i32 (d_imm d)))
  | None => Ok c
  end.

Definition handle_auipc (c : TargetScan) (d : DecodedInstruction) (pc : Z) : result TargetScan :=
  match d_rd d with
  | Some rd => write_fact c rd (Some (add_signed pc (d_imm d)))
  | None => Ok c
  end.

Definition handle_addi (c : TargetScan) (d : DecodedInstruction) : result TargetScan :=
  match d_rd d, d_rs1 d with
  | Some rd, Some rs1 =>
      base ← read_fact c rs1;
      match base with
      | Some base =>
          let computed := add_signed base (d_imm d) in
          c ← write_fact c rd (Some computed);
          mret (entry_if_valid c computed)
      | None => write_fact c rd None
      end
  | _, _ => Ok c
  end.

Definition handle_add (c : TargetScan) (d : DecodedInstruction) : result TargetScan :=
  match d_rd d, d_rs1 d, d_rs2 d with
  | Some rd, Some rs1, Some rs2 =>
      l ← read_fact c rs1;
      r ← read_fact c rs2;
      match l, r with
      | Some lhs, Some rhs =>
          let computed := wrap 64 (lhs + rhs) in
          c ← write_fact c rd (Some computed);
          mret (entry_if_valid c computed)
      | _, _ => write_fact c rd None
      end
  | _, _, _ => Ok c
  end.

Definition handle_move (c : TargetScan) (d : DecodedInstruction) : result TargetScan :=
  match d_rd d, d_rs1 d with
  | Some rd, Some rs1 => v ← read_fact c rs1; write_fact c rd v
  | _, _ => Ok c
  end.

Definition handle_load (c : TargetScan) (d : DecodedInstruction) : result TargetScan :=
  match d_rd d, d_rs1 d with
  | Some rd, Some rs1 =>
      base ← read_fact c rs1;
      match base with
      | Some base =>
          let addr := add_signed base (d_imm d) in
          maybe_val ← InstructionTable.read_readonly t addr (load_width_bytes d);
          match maybe_val with
          | Some raw =>
              let extended := extend_loaded_value raw (load_width_bytes d) (is_unsigned d) in
              c ← write_fact c rd (Some extended);
              mret (target_if_valid c extended)
          | None => write_fact c rd None
          end
      | None => write_fact c rd None
      end
  | _, _ => Ok c
  end.

Definition handle_jal (c : TargetScan) (d : DecodedInstruction) (pc size : Z) : result TargetScan :=
  let target := add_signed pc (d_imm d) in
  c ← (if DecodedInstruction.is_call d then
         if InstructionTable.is_valid_pc t target then
           ret ← add_u 64 pc size;
           mret (add_return_site (add_function_entry c target) ret)
         else mret c
       else mret (target_if_valid c target));
  match d_rd d with
  | Some rd => ret ← add_u 64 pc size; write_fact c rd (Some ret)
  | None => mret c
  end.

Definition handle_jalr (c : TargetScan) (d : DecodedInstruction) (pc size : Z) : result TargetScan :=
  c ← (match d_rs1 d with
       | Some rs1 =>
           base ← read_fact c rs1;
           match base with
           | Some base =>
               let target := Z.ldiff (add_signed base (d_imm d)) 1 in
               mret (entry_if_valid c target)
           | None => mret c
           end
       | None => mret c
       end);
  c ← (if DecodedInstruction.is_call d then ret ← add_u 64 pc size; mret (add_return_site c ret)
       else mret c);
  match d_rd d with
  | Some rd => ret ← add_u 64 pc size; write_fact c rd (Some ret)
  | None => mret c
  end.

Definition handle_branch (c : TargetScan) (d : DecodedInstruction) (pc size : Z) : result TargetScan :=
  let target := add_signed pc (d_imm d) in
  let c := target_if_valid c target in
  next ← add_u 64 pc size;
  mret (add_internal_target c next).

Definition handle_unknown (c : TargetScan) (instr : DecodedInstr) : result TargetScan :=
  match extract_written_reg (args instr) with
  | Some rd => write_fact c rd None
  | None => Ok c
  end.

Definition update_targets_for_decoded (c : TargetScan) (pc size : Z) (instr : DecodedInstr)
    (d : DecodedInstruction) : result TargetScan :=
  match d_kind d with
  | KLui => handle_lui c d
  | KAuipc => handle_auipc c d pc
  | KAddi => handle_addi c d
  | KAdd => handle_add c d
  | KMove => handle_move c d
  | KLoad => handle_load c d
  | KJal => handle_jal c d pc size
  | KJalr => handle_jalr c d pc size
  | KBranch => handle_branch c d pc size
  | KUnknown => handle_unknown c instr
  end.

Definition scan_instruction_targets (c : TargetScan) : run TargetScan :=
  scan t (fun pc size instr c =>
            update_targets_for_decoded c pc size instr (DecodedInstruction.from_instr instr)) c.

(** ** Code pointers in read-only data *)

Fixpoint scan_words (data : list Z) (s : gset Z) : gset Z :=
  match data with
  | b0 :: b1 :: b2 :: b3 :: rest =>
      let val := from_le_bytes [b0; b1; b2; b3] in
      scan_words rest (if InstructionTable.is_valid_pc t val then {[val]} ∪ s else s)
  | _ => s
  end.

Fixpoint scan_dwords (data : list Z) (s : gset Z) : gset Z :=
  match data with
  | b0 :: b1 :: b2 :: b3 :: b4 :: b5 :: b6 :: b7 :: rest =>
      let val := from_le_bytes [b0; b1; b2; b3; b4; b5; b6; b7] in
      scan_dwords rest
        (if (0xFFFFFFFF <? val) && InstructionTable.is_valid_pc t val then {[val]} ∪ s else s)
  | _ => s
  end.

Definition scan_ro_segments_for_code_pointers (X : Xlen) (s : gset Z) : gset Z :=
  foldl (fun s seg =>
           let s := scan_words (ro_data seg) s in
           if VALUE X =? 64 then scan_dwords (ro_data seg) s else s)
    s (ro_segments t).

Definition collect_potential_targets (X : Xlen) : run TargetScan :=
  let facts := <[0%nat := Some 0]> (replicate NUM_REGS None) in
  scan_instruction_targets
    (mkScan facts (list_to_set (entry_points t)) (scan_ro_segments_for_code_pointers X ∅) ∅).

(** ** Calls and their return sites *)

Definition add_edge (m : gmap Z (gset Z)) (k v : Z) : gmap Z (gset Z) :=
  <[k := {[v]} ∪ default ∅ (m !! k)]> m.

Definition build_call_return_map : run (gmap Z (gset Z)) :=
  scan t (fun pc size instr m =>
            let d := DecodedInstruction.from_instr instr in
            if DecodedInstruction.is_static_call d then
              let callee := add_signed pc (d_imm d) in
              if InstructionTable.is_valid_pc t callee then
                ret ← add_u 64 pc size; mret (add_edge m callee ret)
              else mret m
            else mret m) ∅.
End handlers.
