(* ===== verification/CfgFlow.v ===== *)
(** * Control-flow analysis: value propagation and edges
    ([crates/rvr-cfg/src/analysis/mod.rs])

    Successors of an instruction, the transfer function, the worklist, leaders and
    predecessors.  The worklist iterates over hash sets, whose order the standard
    library leaves open: it is a parameter [iter]. *)

From stdpp Require Import sorting.
From S2P Require Import Prelude Xlen IR IRBuild Isa Ext InstrTable CfgData CfgScan.
#[local] Open Scope word_scope.

(** What [analyze] passes to the worklist. *)
Record FlowContext := mkFlow {
  fc_entries : gset Z;
  fc_internal : gset Z;
  fc_return_sites : gset Z;
  fc_sorted_entries : list Z;
  fc_func_targets : gmap Z (gset Z);
  fc_call_return : gmap Z (gset Z)
}.

Section flow.
Context (t : InstructionTable).

(** [set.insert(target)] when the target is valid. *)
Definition insert_if_valid (s : gset Z) (target : Z) : gset Z :=
  if InstructionTable.is_valid_pc t target then {[target]} ∪ s else s.

(** The loop of [scan_jump_table_targets]; [fuel] is [MAX_JUMP_TABLE_SCAN - count]. *)
Fixpoint jump_table_loop (fuel : nat) (pc : Z) (targets : gset Z) : result (gset Z) :=
  match fuel with
  | O => Ok targets
  | S fuel =>
      if negb (pc <? end_address t) then Ok targets
      else if negb (InstructionTable.is_valid_pc t pc) then Ok targets
      else
        let size := InstructionTable.instruction_size_at_pc t pc in
        if size =? 0 then Ok targets
        else
          match InstructionTable.get_at_pc t pc with
          | None => Ok targets
          | Some instr =>
              let targets := {[pc]} ∪ targets in
              let d := DecodedInstruction.from_instr instr in
              if DecodedInstruction.is_return d then Ok targets
              else if bool_decide (d_kind d = KJal) && bool_decide (d_rd d = Some 0) then
                Ok (insert_if_valid targets (add_signed pc (d_imm d)))
              else if DecodedInstruction.is_indirect_jump d then Ok targets
              else pc' ← add_u 64 pc size; jump_table_loop fuel pc' targets
          end
  end.

Definition scan_jump_table_targets (start_pc : Z) : result (gset Z) :=
  jump_table_loop MAX_JUMP_TABLE_SCAN start_pc ∅.

(** ** Successors *)

(** [v.is_constant() && !v.values.is_empty()] *)
Definition known (v : RegisterValue) : bool :=
  RegisterValue.is_constant v && negb (bool_decide (values v = [])).

(** The targets of an indirect jump with known base values. *)
Definition resolved_targets (base : RegisterValue) (imm : Z) : gset Z :=
  foldl (fun s v => insert_if_valid s (Z.ldiff (add_signed v imm) 1)) ∅ (values base).

(** An indirect jump whose base is not known: a return goes to the return sites
    of its function, a call to every function entry, any other jump to targets
    found by scanning.  The second component is the updated set
    [unresolved_dynamic_jumps]. *)
Definition unresolved_targets (fc : FlowContext) (pc size : Z) (d : DecodedInstruction) (unresolved : gset Z)
    : result (gset Z * gset Z) :=
  if DecodedInstruction.is_return d then
    f ← binary_search_le (fc_sorted_entries fc) pc;
    mret (match f with
          | Some func_start =>
              match fc_call_return fc !! func_start with
              | Some returns => returns
              | None => fc_return_sites fc
              end
          | None => fc_return_sites fc
          end, unresolved)
  else if DecodedInstruction.is_call d then
    ret ← add_u 64 pc size; mret ({[ret]} ∪ fc_entries fc, unresolved)
  else if DecodedInstruction.is_indirect_jump d then
    start ← add_u 64 pc size;
    duff_targets ← scan_jump_table_targets start;
    f ← binary_search_le (fc_sorted_entries fc) pc;
    let result :=
      duff_targets ∪ default ∅ (func_start ← f; fc_func_targets fc !! func_start) in
    mret (if decide (result = ∅) then (fc_entries fc, {[pc]} ∪ unresolved) else (result, unresolved))
  else mret (∅, unresolved).

Definition get_successors (fc : FlowContext) (pc size : Z) (d : DecodedInstruction) (st : RegisterState)
    (unresolved : gset Z) : result (gset Z * gset Z) :=
  match d_kind d with
  | KJal =>
      let result := insert_if_valid ∅ (add_signed pc (d_imm d)) in
      if DecodedInstruction.is_call d
      then ret ← add_u 64 pc size; mret ({[ret]} ∪ result, unresolved)
      else mret (result, unresolved)
  | KJalr =>
      match d_rs1 d with
      | Some rs1 =>
          let base := RegisterState.get_ref st rs1 in
          if known base then
            let result := resolved_targets base (d_imm d) in
            if DecodedInstruction.is_call d
            then ret ← add_u 64 pc size; mret ({[ret]} ∪ result, unresolved)
            else mret (result, unresolved)
          else unresolved_targets fc pc size d unresolved
      | None => unresolved_targets fc pc size d unresolved
      end
  | KBranch =>
      next ← add_u 64 pc size;
      mret (insert_if_valid {[next]} (add_signed pc (d_imm d)), unresolved)
  | _ => next ← add_u 64 pc size; mret ({[next]}, unresolved)
  end.

(** ** Transfer function *)

(** [for value in .. { result.add_value(value); if !result.is_constant() { break } }] *)
Fixpoint add_values (result : RegisterValue) (l : list Z) : RegisterValue :=
  match l with
  | [] => result
  | v :: l' =>
      let result := RegisterValue.add_value result v in
      if negb (RegisterValue.is_constant result) then result else add_values result l'
  end.

(** The nested loops of [Add], whose pair of first elements is skipped. *)
Definition sums (l0 r0 : Z) (lhs rhs : list Z) : list Z :=
  flat_map (fun l => flat_map (fun r => if (l =? l0) && (r =? r0) then [] else [wrap 64 (l + r)]) rhs) lhs.

Definition transfer (pc size : Z) (d : DecodedInstruction) (st : RegisterState) : result RegisterState :=
  match d_kind d with
  | KLui =>
      mret (match d_rd d with
            | Some rd => RegisterState.set_constant st rd (sign_extend_i32 (d_imm d))
            | None => st
            end)
  | KAuipc =>
      mret (match d_rd d with
            | Some rd => RegisterState.set_constant st rd (add_signed pc (d_imm d))
            | None => st
            end)
  | KAddi =>
      mret (match d_rd d, d_rs1 d with
            | Some rd, Some rs1 =>
                let base := RegisterState.get st rs1 in
                match RegisterValue.is_constant base, values base with
                | true, v0 :: vs =>
                    RegisterState.set st rd
                      (add_values (RegisterValue.constant (add_signed v0 (d_imm d)))
                         (map (fun v => add_signed v (d_imm d)) vs))
                | _, _ => RegisterState.set_unknown st rd
                end
            | _, _ => st
            end)
  | KAdd =>
      mret (match d_rd d, d_rs1 d, d_rs2 d with
            | Some rd, Some rs1, Some rs2 =>
                let lhs := RegisterState.get st rs1 in
                let rhs := RegisterState.get st rs2 in
                match RegisterValue.is_constant lhs, RegisterValue.is_constant rhs, values lhs, values rhs with
                | true, true, l0 :: _, r0 :: _ =>
                    RegisterState.set st rd
                      (add_values (RegisterValue.constant (wrap 64 (l0 + r0)))
                         (sums l0 r0 (values lhs) (values rhs)))
                | _, _, _, _ => RegisterState.set_unknown st rd
                end
            | _, _, _ => st
            end)
  | KMove =>
      mret (match d_rd d, d_rs1 d with
            | Some rd, Some rs1 => RegisterState.set st rd (RegisterState.get st rs1)
            | _, _ => st
            end)
  | KLoad =>
      match d_rd d, d_rs1 d with
      | Some rd, Some rs1 =>
          let base := RegisterState.get st rs1 in
          match negb (rs1 =? 2) && RegisterValue.is_constant base, values base with
          | true, v0 :: _ =>
              let addr := add_signed v0 (d_imm d) in
              v ← InstructionTable.read_readonly t addr (load_width_bytes d);
              mret (match v with
                    | Some raw =>
                        RegisterState.set_constant st rd
                          (extend_loaded_value raw (load_width_bytes d) (is_unsigned d))
                    | None => RegisterState.set_unknown st rd
                    end)
          | _, _ => mret (RegisterState.set_unknown st rd)
          end
      | _, _ => mret st
      end
  | KJal | KJalr =>
      match d_rd d with
      | Some rd => next ← add_u 64 pc size; mret (RegisterState.set_constant st rd next)
      | None => mret st
      end
  | _ =>
      mret (match d_rd d with Some rd => RegisterState.set_unknown st rd | None => st end)
  end.

(** ** The worklist *)

Record WorkState := mkWork {
  states : gmap Z RegisterState;
  pending : list Z;
  in_worklist : gset Z;
  successors : gmap Z (gset Z);
  unresolved_dynamic_jumps : gset Z
}.

Context (iter : gset Z -> list Z).

(** [if in_worklist.insert(addr) { states.insert(addr, new()); worklist.push(addr) }] *)
Definition seed (w : WorkState) (addr : Z) : WorkState :=
  if decide (addr ∈ in_worklist w) then w
  else mkWork (<[addr := RegisterState.new]> (states w)) (pending w ++ [addr])
         ({[addr]} ∪ in_worklist w) (successors w) (unresolved_dynamic_jumps w).

Definition enqueue (w : WorkState) (target : Z) : WorkState :=
  if decide (target ∈ in_worklist w) then w
  else mkWork (states w) (pending w ++ [target]) ({[target]} ∪ in_worklist w) (successors w)
         (unresolved_dynamic_jumps w).

(** The body of [for target in &succs]. *)
Definition propagate (state_out : RegisterState) (w : WorkState) (target : Z) : WorkState :=
  let put s := mkWork (<[target := s]> (states w)) (pending w) (in_worklist w) (successors w)
                 (unresolved_dynamic_jumps w) in
  match states w !! target with
  | Some existing =>
      let '(merged, changed) := RegisterState.merge existing state_out in
      if changed then enqueue (put merged) target else put merged
  | None => enqueue (put state_out) target
  end.

Definition add_edges (w : WorkState) (pc : Z) (succs : gset Z) : WorkState :=
  mkWork (states w) (pending w) (in_worklist w)
    (<[pc := default ∅ (successors w !! pc) ∪ succs]> (successors w)) (unresolved_dynamic_jumps w).

(** One iteration, for [pc] taken from the front of the pending entries. *)
Definition visit (fc : FlowContext) (w : WorkState) (pc : Z) : result WorkState :=
  match states w !! pc with
  | None => Ok w
  | Some st =>
      let size := InstructionTable.instruction_size_at_pc t pc in
      if size =? 0 then Ok w
      else
        match InstructionTable.get_at_pc t pc with
        | None => Ok w
        | Some instr =>
            let d := DecodedInstruction.from_instr instr in
            '(succs, unresolved) ← get_successors fc pc size d st (unresolved_dynamic_jumps w);
            state_out ← transfer pc size d st;
            let w := mkWork (states w) (pending w) (in_worklist w) (successors w) unresolved in
            mret (add_edges (foldl (propagate state_out) w (iter succs)) pc succs)
        end
  end.

Definition pop (w : WorkState) (pc : Z) (rest : list Z) : WorkState :=
  mkWork (states w) rest (in_worklist w ∖ {[pc]}) (successors w) (unresolved_dynamic_jumps w).

(** [worklist[idx..]] is [pending]; [budget] is [max_iterations + 1 - idx]. *)
Fixpoint worklist_loop (fc : FlowContext) (budget : nat) (w : WorkState) : result WorkState :=
  match pending w with
  | [] => Ok w
  | pc :: rest =>
      match budget with
      | O => Ok w
      | S budget => w ← visit fc (pop w pc rest) pc; worklist_loop fc budget w
      end
  end.

Definition max_iterations (span : Z) : Z := Z.min (2 ^ 64 - 1) (span * MAX_ITERATIONS_MULTIPLIER).

Definition worklist (fc : FlowContext) : result WorkState :=
  let w := foldl seed (mkWork ∅ [] ∅ ∅ ∅) (iter (fc_entries fc) ++ iter (fc_internal fc)) in
  span ← sub_u 64 (end_address t) (base_address t);
  worklist_loop fc (Z.to_nat (max_iterations span + 1)) w.

(** ** Leaders, predecessors *)

Definition leaders_of (pc : Z) (succs leaders : gset Z) : result (gset Z) :=
  let size := InstructionTable.instruction_size_at_pc t pc in
  if size =? 0 then Ok leaders
  else
    match InstructionTable.get_at_pc t pc with
    | None => Ok leaders
    | Some instr =>
        if DecodedInstruction.is_control_flow (DecodedInstruction.from_instr instr) then
          next_pc ← add_u 64 pc size;
          mret (insert_if_valid (succs ∪ leaders) next_pc)
        else Ok leaders
    end.

Definition compute_leaders (succs : gmap Z (gset Z)) (entries internal returns : gset Z) : result (gset Z) :=
  map_fold (fun pc s acc => l ← acc; leaders_of pc s l) (Ok (entries ∪ internal ∪ returns)) succs.

Definition build_predecessors (succs : gmap Z (gset Z)) : gmap Z (gset Z) :=
  map_fold (fun pc s m => set_fold (fun succ m => add_edge m succ pc) m s) ∅ succs.

(** ** The analysis *)

Record ControlFlowResult := mkFlowResult {
  cf_successors : gmap Z (gset Z);
  cf_predecessors : gmap Z (gset Z);
  cf_unresolved : gset Z;
  cf_leaders : gset Z;
  cf_call_return_map : gmap Z (gset Z);
  cf_block_to_function : gmap Z Z
}.

(** [sort_unstable] *)
Definition sort (l : list Z) : list Z := merge_sort Z.le l.

Definition group_by_function (sorted : list Z) (targets : gset Z) : result (gmap Z (gset Z)) :=
  set_fold (fun target acc =>
              m ← acc;
              f ← binary_search_le sorted target;
              mret (match f with Some func_start => add_edge m func_start target | None => m end))
    (Ok ∅) targets.

Definition assign_functions (sorted : list Z) (leaders : gset Z) : result (gmap Z Z) :=
  set_fold (fun leader acc =>
              m ← acc;
              f ← binary_search_le sorted leader;
              mret (match f with Some func => <[leader := func]> m | None => m end))
    (Ok ∅) leaders.

Definition flow_context (c : TargetScan) (call_return : gmap Z (gset Z)) : result FlowContext :=
  let sorted := sort (elements (function_entries c)) in
  func_targets ← group_by_function sorted (internal_targets c);
  mret (mkFlow (function_entries c) (internal_targets c) (return_sites c) sorted func_targets call_return).

Definition analyze (X : Xlen) : run ControlFlowResult :=
  match collect_potential_targets t X, build_call_return_map t with
  | Some (Ok c), Some (Ok call_return) =>
      Some (
        fc ← flow_context c call_return;
        w ← worklist fc;
        leaders ← compute_leaders (successors w) (function_entries c) (internal_targets c) (return_sites c);
        block_to_function ← assign_functions (fc_sorted_entries fc) leaders;
        mret (mkFlowResult (successors w) (build_predecessors (successors w))
                (unresolved_dynamic_jumps w) leaders call_return block_to_function))
  | None, _ | _, None => None
  | _, _ => Some Panic
  end.
End flow.
