(* ===== verification/CfgDomain.v ===== *)
(** * The abstract domain of the control-flow analysis

    Register values are finite sets of at most sixteen constants, or unknown; the
    merge of two is their union when it is small enough. *)

From stdpp Require Import sorting.
From S2P Require Import Prelude Xlen IR IRBuild Isa CfgData.

(** ** Strictly sorted lists *)

Abbreviation sorted := (StronglySorted Z.lt).

Lemma sorted_NoDup l : sorted l -> NoDup l.
Proof.
  induction 1 as [|x l Hs IH Hx]; constructor; [|done].
  intros Hin. rewrite Forall_forall in Hx. specialize (Hx x Hin). lia.
Qed.

Lemma sorted_le l : sorted l -> StronglySorted Z.le l.
Proof.
  induction 1 as [|x l Hs IH Hx]; constructor; [done|]. eapply Forall_impl; [done|]. cbn. intros. lia.
Qed.

Lemma sorted_lt l : StronglySorted Z.le l -> NoDup l -> sorted l.
Proof.
  induction 1 as [|x l Hs IH Hx]; intros Hn; constructor; apply NoDup_cons in Hn as [Hn1 Hn2]; [auto|].
  apply Forall_forall. intros y Hy. rewrite Forall_forall in Hx. specialize (Hx y Hy).
  assert (x <> y) by by intros ->. lia.
Qed.

(** A strictly sorted list is determined by its elements. *)
Lemma sorted_ext a b : sorted a -> sorted b -> (forall x, x ∈ a <-> x ∈ b) -> a = b.
Proof.
  intros Ha Hb Hx. apply (StronglySorted_unique Z.le).
  - by apply sorted_le.
  - by apply sorted_le.
  - apply NoDup_Permutation; auto using sorted_NoDup.
Qed.

Lemma sorted_cons x l : sorted (x :: l) <-> sorted l /\ forall y, y ∈ l -> x < y.
Proof.
  split; [inversion 1; subst; split; [done|]; by apply Forall_forall|].
  intros [? H]. constructor; [done|]. by apply Forall_forall.
Qed.

(** The union of two sorted lists. *)
Fixpoint union_sorted (a : list Z) : list Z -> list Z :=
  fix go (b : list Z) : list Z :=
    match a, b with
    | x :: a', y :: b' =>
        match x ?= y with
        | Datatypes.Eq => x :: union_sorted a' b'
        | Datatypes.Lt => x :: union_sorted a' b
        | Datatypes.Gt => y :: go b'
        end
    | [], _ => b
    | _, [] => a
    end.

Lemma union_sorted_nil_r a : union_sorted a [] = a.
Proof. by destruct a. Qed.

Lemma elem_of_union_sorted a b x : x ∈ union_sorted a b <-> x ∈ a \/ x ∈ b.
Proof.
  revert b. induction a as [|y a IH]; intros b.
  { destruct b; cbn; rewrite elem_of_nil; tauto. }
  induction b as [|z b IHb]; cbn; [rewrite elem_of_nil; tauto|].
  destruct (Z.compare_spec y z) as [->|H|H]; rewrite !elem_of_cons.
  - rewrite IH. tauto.
  - rewrite IH, elem_of_cons. tauto.
  - cbn in IHb. rewrite IHb, elem_of_cons. tauto.
Qed.

Lemma union_sorted_sorted a b : sorted a -> sorted b -> sorted (union_sorted a b).
Proof.
  intros Ha. revert b. induction a as [|y a IH]; intros b Hb; [by destruct b|].
  apply sorted_cons in Ha as [Ha Hy]. specialize (IH Ha).
  induction b as [|z b IHb]; [by apply sorted_cons|].
  pose proof Hb as [Hb' Hz]%sorted_cons. cbn.
  destruct (Z.compare_spec y z) as [->|H|H]; apply sorted_cons.
  - split; [auto|]. intros x [?|?]%elem_of_union_sorted; auto.
  - split; [auto|]. intros x [?|[->|?]%elem_of_cons]%elem_of_union_sorted; auto. pose proof (Hz x ltac:(done)). lia.
  - split; [auto|]. intros x Hx.
    pose proof (proj1 (elem_of_union_sorted (y :: a) b x) Hx) as [[->|?]%elem_of_cons|?]; auto.
    pose proof (Hy x ltac:(done)). lia.
Qed.

(** ** The loops of [merge] *)

Lemma push_values_spec l merged :
  (length merged <= MAX_VALUES)%nat ->
  RegisterValue.push_all l merged
  = if decide (length (merged ++ l) <= MAX_VALUES)%nat then Some (merged ++ l) else None.
Proof.
  revert merged. induction l as [|x l IH]; intros merged H; cbn [RegisterValue.push_all].
  { by rewrite app_nil_r, decide_True. }
  unfold RegisterValue.push. destruct (Nat.ltb_spec MAX_VALUES (length (merged ++ [x]))) as [Hl|Hl].
  - rewrite decide_False; [done|]. rewrite !length_app in *. cbn in *. lia.
  - rewrite IH by done. by rewrite <- app_assoc.
Qed.

Lemma merge_values_spec a b merged :
  (length merged <= MAX_VALUES)%nat ->
  RegisterValue.merge_loop a b merged
  = if decide (length (merged ++ union_sorted a b) <= MAX_VALUES)%nat
    then Some (merged ++ union_sorted a b) else None.
Proof.
  assert (forall x merged (rest : list Z) k,
    (length (merged ++ [x]) <= MAX_VALUES ->
       k (merged ++ [x]) = if decide (length ((merged ++ [x]) ++ rest) <= MAX_VALUES)%nat
                           then Some ((merged ++ [x]) ++ rest) else None)%nat ->
    RegisterValue.push merged x k
    = if decide (length (merged ++ x :: rest) <= MAX_VALUES)%nat then Some (merged ++ x :: rest) else None) as Hpush.
  { intros x m rest k Hk. unfold RegisterValue.push.
    destruct (Nat.ltb_spec MAX_VALUES (length (m ++ [x]))) as [Hl|Hl].
    - rewrite decide_False; [done|]. rewrite !length_app in *. cbn in *. lia.
    - rewrite Hk by done. by rewrite <- app_assoc. }
  revert b merged. induction a as [|x a IH]; intros b merged Hm.
  { destruct b; by apply push_values_spec. }
  revert merged Hm. induction b as [|y b IHb]; intros merged Hm; [by apply push_values_spec|].
  cbn. destruct (x ?= y); apply Hpush; intros; [by apply IH | by apply IH | by apply IHb].
Qed.

(** ** Well-formed values *)

Definition wf_value (v : RegisterValue) : Prop :=
  match v_kind v with
  | VUnknown => values v = []
  | VConstant =>
      values v <> [] /\ sorted (values v) /\ (length (values v) <= MAX_VALUES)%nat /\
      Forall (in_u 64) (values v)
  end.

(** The set a value stands for; [None] is every value. *)
Definition value_set (v : RegisterValue) : option (gset Z) :=
  match v_kind v with VUnknown => None | VConstant => Some (list_to_set (values v)) end.

(** Union, as long as it has at most [MAX_VALUES] elements. *)
Definition bounded_union (a b : option (gset Z)) : option (gset Z) :=
  match a, b with
  | Some A, Some B => if decide (size (A ∪ B) <= MAX_VALUES)%nat then Some (A ∪ B) else None
  | _, _ => None
  end.

Lemma wf_unknown : wf_value RegisterValue.unknown.
Proof. done. Qed.

Lemma wf_constant x : in_u 64 x -> wf_value (RegisterValue.constant x).
Proof.
  intros. split_and!; [done | apply sorted_cons; split; [constructor | set_solver] | cbn; unfold MAX_VALUES; lia |].
  by constructor.
Qed.

Lemma value_set_inj a b : wf_value a -> wf_value b -> value_set a = value_set b -> a = b.
Proof.
  destruct a as [[] la], b as [[] lb]; unfold wf_value, value_set; cbn; try done.
  - by intros -> ->.
  - intros (_ & Ha & _) (_ & Hb & _) [= E]. f_equal. apply sorted_ext; [done..|]. intros x. set_solver.
Qed.

Lemma size_sorted l : sorted l -> size (list_to_set l : gset Z) = length l.
Proof. intros. apply size_list_to_set. by apply sorted_NoDup. Qed.

Lemma list_to_set_union_sorted a b :
  (list_to_set (union_sorted a b) : gset Z) = list_to_set a ∪ list_to_set b.
Proof. apply set_eq. intros x. rewrite elem_of_union, !elem_of_list_to_set. apply elem_of_union_sorted. Qed.

Lemma merge_spec a b :
  wf_value a -> wf_value b ->
  wf_value (RegisterValue.merge a b) /\
  value_set (RegisterValue.merge a b) = bounded_union (value_set a) (value_set b).
Proof.
  unfold RegisterValue.merge. destruct a as [[] la], b as [[] lb]; cbn; try done.
  intros (Hna & Hsa & Hla & Hra) (Hnb & Hsb & Hlb & Hrb).
  rewrite !bool_decide_false by done. cbn [orb].
  rewrite merge_values_spec by (cbn; lia). cbn [app bounded_union value_set v_kind values].
  pose proof (union_sorted_sorted _ _ Hsa Hsb) as Hs.
  rewrite <- list_to_set_union_sorted, size_sorted by done.
  destruct (decide _) as [Hl|Hl]; [|done]. split; [|done]. split_and!; [|done..|].
  - destruct la as [|x la]; [done|]. intros E. cbn [values] in E.
    assert (x ∈ union_sorted (x :: la) lb) as Hin by (apply elem_of_union_sorted; set_solver). rewrite E in Hin.
    by apply elem_of_nil in Hin.
  - rewrite !Forall_forall in *. intros x [?|?]%elem_of_union_sorted; auto.
Qed.

(** [merge] is a semilattice operation. *)
Lemma bounded_union_comm a b : bounded_union a b = bounded_union b a.
Proof. destruct a as [A|], b as [B|]; cbn; try done. by rewrite (comm_L (∪) A B). Qed.

Lemma bounded_union_idemp (a : RegisterValue) :
  wf_value a -> bounded_union (value_set a) (value_set a) = value_set a.
Proof.
  unfold value_set, wf_value. destruct a as [[] l]; cbn; [done|]. intros (_ & Hs & Hl & _).
  rewrite (idemp_L (∪)), size_sorted, decide_True by done. done.
Qed.

Lemma bounded_union_assoc a b c :
  bounded_union a (bounded_union b c) = bounded_union (bounded_union a b) c.
Proof.
  assert (forall A B : gset Z, size A <= size (A ∪ B))%nat as Hsub
    by (intros; apply subseteq_size; set_solver).
  destruct a as [A|], b as [B|], c as [C|]; cbn; try done; [|by case_decide].
  pose proof (Hsub (B ∪ C) A) as H1. pose proof (Hsub (A ∪ B) C) as H2.
  rewrite (comm_L (∪) (B ∪ C) A), (assoc_L (∪)) in H1.
  destruct (decide (size (B ∪ C) <= MAX_VALUES)%nat), (decide (size (A ∪ B) <= MAX_VALUES)%nat); cbn;
    rewrite ?(assoc_L (∪)); repeat case_decide; (done || lia).
Qed.

Lemma merge_comm a b :
  wf_value a -> wf_value b -> RegisterValue.merge a b = RegisterValue.merge b a.
Proof.
  intros Ha Hb. destruct (merge_spec a b Ha Hb) as [Hw E], (merge_spec b a Hb Ha) as [Hw' E'].
  apply value_set_inj; [done..|]. rewrite E, E'. apply bounded_union_comm.
Qed.

Lemma merge_idemp a : wf_value a -> RegisterValue.merge a a = a.
Proof.
  intros Ha. destruct (merge_spec a a Ha Ha) as [Hw E]. apply value_set_inj; [done..|].
  rewrite E. by apply bounded_union_idemp.
Qed.

Lemma merge_assoc a b c :
  wf_value a -> wf_value b -> wf_value c ->
  RegisterValue.merge a (RegisterValue.merge b c) = RegisterValue.merge (RegisterValue.merge a b) c.
Proof.
  intros Ha Hb Hc. destruct (merge_spec a b Ha Hb) as [Hab Eab], (merge_spec b c Hb Hc) as [Hbc Ebc].
  destruct (merge_spec _ _ Ha Hbc) as [H1 E1], (merge_spec _ _ Hab Hc) as [H2 E2].
  apply value_set_inj; [done..|]. rewrite E1, E2, Eab, Ebc. apply bounded_union_assoc.
Qed.

(** ** Concretization *)

(** The register content [x] is one the value stands for; a 32-bit register holds
    the low half of a 64-bit value. *)
Definition conc (X : Xlen) (v : RegisterValue) (x : Z) : Prop :=
  v_kind v = VUnknown \/ exists w, w ∈ values v /\ x = wrap (VALUE X) w.

Lemma conc_unknown X x : conc X RegisterValue.unknown x.
Proof. by left. Qed.

Lemma conc_constant X w : conc X (RegisterValue.constant w) (wrap (VALUE X) w).
Proof. right. exists w. split; [cbn; by apply list_elem_of_singleton|done]. Qed.

(** [v] stands for at most what [v'] does. *)
Definition value_le (v v' : RegisterValue) : Prop :=
  v_kind v' = VUnknown \/ (v_kind v = VConstant /\ forall w, w ∈ values v -> w ∈ values v').

Lemma conc_le X v v' x : value_le v v' -> conc X v x -> conc X v' x.
Proof. intros [H|[H Hin]] Hx; [by left|]. destruct Hx as [?|(w & ? & ->)]; [congruence|]. right. eauto. Qed.

Lemma value_le_set v v' :
  value_le v v' <->
  match value_set v' with
  | None => True
  | Some B => match value_set v with Some A => A ⊆ B | None => False end
  end.
Proof.
  unfold value_le, value_set. destruct v as [[] l], v' as [[] l']; cbn.
  - naive_solver.
  - naive_solver.
  - naive_solver.
  - split.
    + intros [?|[_ H]]; [done|]. intros x. rewrite !elem_of_list_to_set. auto.
    + intros H. right. split; [done|]. intros w Hw. specialize (H w). rewrite !elem_of_list_to_set in H. auto.
Qed.

Lemma value_le_refl v : value_le v v.
Proof. apply value_le_set. destruct (value_set v); [done|]. done. Qed.

Lemma value_le_trans a b c : value_le a b -> value_le b c -> value_le a c.
Proof.
  rewrite !value_le_set. destruct (value_set a), (value_set b), (value_set c); try done. apply transitivity.
Qed.

Lemma merge_upper_bound a b :
  wf_value a -> wf_value b ->
  value_le a (RegisterValue.merge a b) /\ value_le b (RegisterValue.merge a b).
Proof.
  intros Ha Hb. destruct (merge_spec a b Ha Hb) as [_ E]. rewrite !value_le_set, E.
  destruct (value_set a), (value_set b); cbn; try done. case_decide; [|done]. split; set_solver.
Qed.

Lemma merge_least a b c :
  wf_value a -> wf_value b -> wf_value c -> value_le a c -> value_le b c ->
  value_le (RegisterValue.merge a b) c.
Proof.
  intros Ha Hb Hc. destruct (merge_spec a b Ha Hb) as [_ E]. rewrite !value_le_set, E.
  unfold wf_value, value_set in *. destruct a as [[] la], b as [[] lb], c as [[] lc]; cbn; try done.
  destruct Hc as (_ & Hs & Hl & _). cbn in Hs, Hl. intros H1 H2.
  assert (size (list_to_set la ∪ list_to_set lb : gset Z) <= MAX_VALUES)%nat.
  { rewrite <- (size_sorted lc Hs) in Hl. etrans; [|exact Hl]. apply subseteq_size. set_solver. }
  rewrite decide_True by done. set_solver.
Qed.

(** ** Adding values *)

Lemma binary_search_spec l x :
  sorted l ->
  match RegisterValue.binary_search l x with
  | inl i => l !! i = Some x
  | inr i =>
      (forall y, y ∈ take i l -> y < x) /\ (forall y, y ∈ drop i l -> x < y)
  end.
Proof.
  induction l as [|y l IH]; intros Hs; cbn [RegisterValue.binary_search].
  { split; intros y; rewrite ?take_nil, ?drop_nil; by intros ?%elem_of_nil. }
  apply sorted_cons in Hs as [Hs Hy]. specialize (IH Hs).
  destruct (Z.eqb_spec y x) as [->|Hne]; [done|]. destruct (Z.ltb_spec x y) as [Hlt|Hge].
  { cbn. split; [by intros ? ?%elem_of_nil|]. intros z [->|Hz]%elem_of_cons; [done|]. specialize (Hy z Hz). lia. }
  destruct (RegisterValue.binary_search l x) as [i|i]; [done|]. destruct IH as [H1 H2]. cbn. split; [|done].
  intros z [->|Hz]%elem_of_cons; [lia|auto].
Qed.

Lemma insert_at_sorted l i x :
  sorted l -> (forall y, y ∈ take i l -> y < x) -> (forall y, y ∈ drop i l -> x < y) ->
  sorted (RegisterValue.insert_at l i x).
Proof.
  unfold RegisterValue.insert_at. revert i. induction l as [|y l IH]; intros i Hs H1 H2.
  { rewrite take_nil, drop_nil. apply sorted_cons. split; [constructor|]. by intros ? ?%elem_of_nil. }
  apply sorted_cons in Hs as Hs'. destruct Hs' as [Hs' Hy]. destruct i as [|i]; cbn in *.
  { apply sorted_cons. auto. }
  apply sorted_cons. split.
  - apply IH; [done| |done]. intros z Hz. apply H1, elem_of_cons. auto.
  - intros z [Hz|[->|Hz]%elem_of_cons]%elem_of_app.
    + apply Hy. rewrite <- (take_drop i l). apply elem_of_app. auto.
    + apply H1, elem_of_cons. auto.
    + apply Hy. rewrite <- (take_drop i l). apply elem_of_app. auto.
Qed.

Lemma elem_of_insert_at l i x y : y ∈ RegisterValue.insert_at l i x <-> y = x \/ y ∈ l.
Proof.
  unfold RegisterValue.insert_at. rewrite elem_of_app, elem_of_cons.
  rewrite <- (take_drop i l) at 3. rewrite elem_of_app. tauto.
Qed.

Lemma add_value_wf v x : wf_value v -> in_u 64 x -> wf_value (RegisterValue.add_value v x).
Proof.
  unfold RegisterValue.add_value, RegisterValue.is_constant. destruct v as [[] l]; cbn -[MAX_VALUES Nat.leb]; [done|].
  intros (Hn & Hs & Hl & Hr) Hx. rewrite bool_decide_true by done. cbn [negb].
  pose proof (binary_search_spec l x Hs) as Hb.
  cbn [values v_kind]. destruct (RegisterValue.binary_search l x) as [i|i]; [done|]. destruct Hb as [H1 H2].
  destruct (Nat.leb_spec MAX_VALUES (length l)); [done|]. split_and!; cbn [values].
  - unfold RegisterValue.insert_at. destruct (take i l); discriminate.
  - by apply insert_at_sorted.
  - unfold RegisterValue.insert_at. rewrite length_app. cbn. rewrite length_take, length_drop. lia.
  - apply Forall_forall. intros y [->|Hy]%elem_of_insert_at; [done|]. rewrite Forall_forall in Hr. auto.
Qed.

Lemma add_value_le v x : wf_value v -> value_le v (RegisterValue.add_value v x).
Proof.
  unfold RegisterValue.add_value, RegisterValue.is_constant. destruct v as [[] l]; cbn -[MAX_VALUES Nat.leb].
  { intros. apply value_le_refl. }
  intros. rewrite bool_decide_true by done. cbn [negb].
  destruct (RegisterValue.binary_search l x); [apply value_le_refl|].
  destruct (_ <=? _)%nat; [by left|]. right. split; [done|]. intros w Hw. apply elem_of_insert_at. auto.
Qed.

Lemma add_value_in v x : wf_value v -> value_le (RegisterValue.constant x) (RegisterValue.add_value v x).
Proof.
  unfold RegisterValue.add_value, RegisterValue.is_constant. destruct v as [[] l]; cbn -[MAX_VALUES Nat.leb]; [by left|].
  intros (_ & Hs & _). rewrite bool_decide_true by done. cbn [negb]. pose proof (binary_search_spec l x Hs) as Hb.
  destruct (RegisterValue.binary_search l x) as [i|i].
  - right. split; [done|]. intros w ->%list_elem_of_singleton. by eapply list_elem_of_lookup_2.
  - destruct (_ <=? _)%nat; [by left|]. right. split; [done|]. intros w ->%list_elem_of_singleton.
    apply elem_of_insert_at. auto.
Qed.

(** ** Register states *)

Record wf_regs (s : RegisterState) : Prop := {
  wf_length : length (regs s) = NUM_REGS;
  wf_values : Forall wf_value (regs s);
  wf_zero : regs s !! 0%nat = Some (RegisterValue.constant 0)
}.

Definition regs_le (s s' : RegisterState) : Prop :=
  forall idx, (1 <= idx < NUM_REGS)%nat ->
    value_le (RegisterState.at_index s idx) (RegisterState.at_index s' idx).

Lemma regs_le_refl s : regs_le s s.
Proof. intros idx _. apply value_le_refl. Qed.

Lemma regs_le_trans a b c : regs_le a b -> regs_le b c -> regs_le a c.
Proof. intros H1 H2 idx Hi. eapply value_le_trans; eauto. Qed.

Lemma at_index_wf s idx : wf_regs s -> wf_value (RegisterState.at_index s idx).
Proof.
  intros [_ Hv _]. unfold RegisterState.at_index. destruct (regs s !! idx) as [v|] eqn:E; [|done].
  cbn. rewrite Forall_forall in Hv. eapply Hv, list_elem_of_lookup_2, E.
Qed.

Lemma new_wf : wf_regs RegisterState.new.
Proof.
  split; [done | | done]. apply Forall_insert; [by apply Forall_replicate | by apply wf_constant].
Qed.

Lemma update_wf s idx v :
  wf_regs s -> idx <> 0%nat -> wf_value v -> wf_regs (mkRegs (<[idx := v]> (regs s))).
Proof.
  intros [Hl Hv Hz] Hi Hw. split; cbn [regs].
  - by rewrite length_insert.
  - by apply Forall_insert.
  - by rewrite list_lookup_insert_ne.
Qed.

Lemma set_wf s r v : wf_regs s -> wf_value v -> wf_regs (RegisterState.set s r v).
Proof.
  intros Hs Hv. unfold RegisterState.set. destruct (_ || _) eqn:E; [done|].
  apply orb_false_iff in E as [E%Nat.eqb_neq _]. by apply update_wf.
Qed.

Lemma at_index_update s idx v j :
  (idx < length (regs s))%nat ->
  RegisterState.at_index (mkRegs (<[idx := v]> (regs s))) j
  = if decide (j = idx) then v else RegisterState.at_index s j.
Proof.
  intros Hi. unfold RegisterState.at_index. cbn [regs]. case_decide as E.
  - subst. by rewrite list_lookup_insert_eq.
  - by rewrite list_lookup_insert_ne.
Qed.

(** [merge], register by register. *)
Lemma merge_regs_from other s c0 k n :
  wf_regs s -> wf_regs other -> (1 <= k)%nat -> (k + n <= NUM_REGS)%nat ->
  let '(s', c) := foldl (RegisterState.merge_reg other) (s, c0) (seq k n) in
  wf_regs s' /\ c = c0 || negb (bool_decide (s' = s)) /\
  forall j, RegisterState.at_index s' j
    = if decide (k <= j < k + n)%nat
      then RegisterValue.merge (RegisterState.at_index s j) (RegisterState.at_index other j)
      else RegisterState.at_index s j.
Proof.
  intros Hs Ho. revert s c0 k Hs. induction n as [|n IH]; intros s c0 k Hs Hk Hn; cbn [seq foldl].
  { split; [done|]. split; [by rewrite bool_decide_true, orb_false_r by done|].
    intros j. by rewrite decide_False by lia. }
  set (m := RegisterValue.merge (RegisterState.at_index s k) (RegisterState.at_index other k)).
  assert (Hm : wf_value m) by (apply merge_spec; by apply at_index_wf).
  unfold RegisterState.merge_reg at 2. fold m. destruct (decide (m = RegisterState.at_index s k)) as [E|E].
  - specialize (IH s c0 (S k) Hs ltac:(lia) ltac:(lia)). destruct (foldl _ _ _) as [s' c].
    destruct IH as (Hw & Hc & Hat). split_and!; [done..|]. intros j. rewrite Hat.
    destruct (decide (j = k)) as [->|Hj].
    + rewrite decide_False, decide_True by lia. symmetry. exact E.
    + by destruct (decide (S k <= j < S k + n)%nat), (decide (k <= j < k + S n)%nat); (done || lia).
  - pose proof (wf_length _ Hs) as Hl.
    assert (Hs1 : wf_regs (mkRegs (<[k := m]> (regs s)))) by (apply update_wf; [done|lia|done]).
    specialize (IH _ true (S k) Hs1 ltac:(lia) ltac:(lia)). destruct (foldl _ _ _) as [s' c].
    destruct IH as (Hw & Hc & Hat). split; [done|].
    assert (Hk' : (k < length (regs s))%nat) by lia. split.
    + rewrite Hc. cbn. rewrite bool_decide_false; [by rewrite orb_true_r|]. intros ->.
      specialize (Hat k). rewrite decide_False, at_index_update, decide_True in Hat by lia. congruence.
    + intros j. rewrite Hat, !at_index_update by done. destruct (decide (j = k)) as [->|Hj].
      * by rewrite decide_False, decide_True by lia.
      * by destruct (decide (S k <= j < S k + n)%nat), (decide (k <= j < k + S n)%nat); (done || lia).
Qed.

(** The merge of two states is the merge of each register, and the flag says
    whether the first state changed. *)
Lemma merge_regs_spec s other :
  wf_regs s -> wf_regs other ->
  let '(s', changed) := RegisterState.merge s other in
  wf_regs s' /\ changed = negb (bool_decide (s' = s)) /\
  forall j, RegisterState.at_index s' j
    = if decide (1 <= j < NUM_REGS)%nat
      then RegisterValue.merge (RegisterState.at_index s j) (RegisterState.at_index other j)
      else RegisterState.at_index s j.
Proof.
  intros Hs Ho. pose proof (merge_regs_from other s false 1 (NUM_REGS - 1) Hs Ho ltac:(lia)) as H.
  unfold RegisterState.merge. destruct (foldl _ _ _) as [s' c]. apply H. unfold NUM_REGS. lia.
Qed.

Lemma merge_regs_le s other s' changed :
  wf_regs s -> wf_regs other -> RegisterState.merge s other = (s', changed) ->
  wf_regs s' /\ regs_le s s' /\ regs_le other s' /\ (changed = false -> s' = s).
Proof.
  intros Hs Ho E. pose proof (merge_regs_spec s other Hs Ho) as H. rewrite E in H.
  destruct H as (Hw & Hc & Hat). split; [done|].
  assert (forall idx, (1 <= idx < NUM_REGS)%nat ->
    value_le (RegisterState.at_index s idx) (RegisterState.at_index s' idx) /\
    value_le (RegisterState.at_index other idx) (RegisterState.at_index s' idx)) as Hle.
  { intros idx Hi. rewrite Hat, decide_True by done. apply merge_upper_bound; by apply at_index_wf. }
  split_and!; [by intros ? []%Hle | by intros ? []%Hle |].
  intros ->. symmetry in Hc. apply negb_false_iff, bool_decide_eq_true in Hc. done.
Qed.

(** ** Registers of a machine state *)

Definition gamma (X : Xlen) (s : RegisterState) (rho : Z -> Z) : Prop :=
  forall r, 0 <= r < 32 -> conc X (RegisterState.get s r) (rho r).

Lemma get_at_index s r :
  1 <= r < 32 -> RegisterState.get s r = RegisterState.at_index s (Z.to_nat r).
Proof.
  intros Hr. unfold RegisterState.get, NUM_REGS.
  destruct (Nat.leb_spec 32 (Z.to_nat r)); [lia|]. destruct (Nat.eqb_spec (Z.to_nat r) 0); [lia|done].
Qed.

Lemma get_0 s : RegisterState.get s 0 = RegisterValue.constant 0.
Proof. done. Qed.

Lemma get_ref_get s r : wf_regs s -> 0 <= r < 32 -> RegisterState.get_ref s r = RegisterState.get s r.
Proof.
  intros Hs Hr. destruct (decide (r = 0)) as [->|].
  - unfold RegisterState.get_ref, RegisterState.at_index. change (Z.to_nat 0) with 0%nat.
    by rewrite (wf_zero _ Hs).
  - rewrite get_at_index by lia. unfold RegisterState.get_ref, NUM_REGS.
    destruct (Nat.leb_spec 32 (Z.to_nat r)); [lia|done].
Qed.

Lemma get_wf s r : wf_regs s -> 0 <= r < 32 -> wf_value (RegisterState.get s r).
Proof.
  intros Hs Hr. destruct (decide (r = 0)) as [->|]; [by apply wf_constant|].
  rewrite get_at_index by lia. by apply at_index_wf.
Qed.

Lemma gamma_le X s s' rho : regs_le s s' -> gamma X s rho -> gamma X s' rho.
Proof.
  intros Hle Hg r Hr. specialize (Hg r Hr). destruct (decide (r = 0)) as [->|]; [done|].
  rewrite get_at_index in * by lia. eapply conc_le; [|done]. apply Hle. unfold NUM_REGS. lia.
Qed.

Lemma gamma_new X rho : rho 0 = 0 -> gamma X RegisterState.new rho.
Proof.
  intros H0 r Hr. destruct (decide (r = 0)) as [->|].
  - rewrite H0, get_0. rewrite <- (wrap_id (VALUE X) 0); [apply conc_constant|].
    split; [done|]. apply pow2_pos. pose proof (VALUE_pos X). lia.
  - rewrite get_at_index by lia. unfold RegisterState.at_index. cbn [regs RegisterState.new].
    rewrite list_lookup_insert_ne, lookup_replicate_2 by (unfold NUM_REGS; lia). apply conc_unknown.
Qed.

(** After a write of [rd], the abstract state with the new value is sound. *)
Lemma gamma_set X s rho rho' rd v :
  wf_regs s -> gamma X s rho -> 0 <= rd < 32 -> rho' 0 = 0 ->
  (forall r, 0 <= r < 32 -> r <> rd -> rho' r = rho r) -> (rd <> 0 -> conc X v (rho' rd)) ->
  gamma X (RegisterState.set s rd v) rho'.
Proof.
  intros Hs Hg Hrd H0 Hfr Hv r Hr. destruct (decide (r = 0)) as [->|Hr0].
  { rewrite get_0. pose proof (gamma_new X rho' H0 0 ltac:(lia)) as H. by rewrite get_0 in H. }
  rewrite get_at_index by lia. unfold RegisterState.set, NUM_REGS.
  destruct (decide (rd = 0)) as [->|Hrd0].
  - cbn. rewrite Hfr by lia. rewrite <- get_at_index by lia. by apply Hg.
  - destruct (Nat.eqb_spec (Z.to_nat rd) 0); [lia|]. destruct (Nat.leb_spec 32 (Z.to_nat rd)); [lia|].
    cbn [orb]. rewrite at_index_update by (rewrite (wf_length _ Hs); unfold NUM_REGS; lia).
    case_decide.
    + assert (r = rd) as -> by lia. auto.
    + rewrite Hfr by (lia || congruence). rewrite <- get_at_index by lia. by apply Hg.
Qed.
