(* ===== verification/CfgSound.v ===== *)
(** * Soundness of the transfer function and of the successors

    The effect of every instruction of the tables is compared with what the
    analysis does with it, kind by kind. *)

From S2P Require Import Prelude Xlen IR IRBuild IRSem IRFacts Isa Ext InstrTable RiscvSpec Fields.
From S2P Require Import Base MExt AExt ZicsrExt ZifenceiExt ZbaExt ZbbExt ZbsExt ZbkbExt ZicondExt CExt.
From S2P Require Import BaseSpec MCorrect ACorrect ZicsrCorrect ZicondCorrect ZbaCorrect ZbbCorrect.
From S2P Require Import ZbsCorrect ZbkbCorrect CSpec CLift BaseLift RegistryCorrect TableFacts.
From S2P Require Import CfgData CfgScan CfgFlow CfgDomain.
#[local] Open Scope word_scope.

(** ** Integers *)

Lemma wrap_sub_64 X x : wrap (VALUE X) (wrap 64 x) = wrap (VALUE X) x.
Proof. apply wrap_wrap_le. pose proof (VALUE_le_64 X). lia. Qed.

Lemma wrap_add_signed X v imm : wrap (VALUE X) (add_signed v imm) = wrap (VALUE X) (v + imm).
Proof.
  unfold add_signed, sign_extend_i32. rewrite wrap_sub_64.
  rewrite <- wrap_add_r, wrap_sub_64, wrap_add_r. done.
Qed.

Lemma add_signed_range v imm : in_u 64 (add_signed v imm).
Proof. by apply wrap_range. Qed.

(** The bit below the top of an [n]-bit number. *)
Lemma land_top n x : 0 < n -> in_u n x -> (x &ᵇ 2 ^ (n - 1) =? 0) = (x <? 2 ^ (n - 1)).
Proof.
  intros Hn Hx. unfold in_u in Hx. pose proof (pow2_half n Hn).
  assert (x &ᵇ 2 ^ (n - 1) = b2z (Z.testbit x (n - 1)) * 2 ^ (n - 1)) as ->.
  { apply Z.bits_inj'. intros i Hi. rewrite Z.land_spec, Z.pow2_bits_eqb by lia.
    destruct (Z.eqb_spec (n - 1) i) as [<-|Hne].
    - rewrite andb_true_r. destruct (Z.testbit x (n - 1)); cbn [b2z]; [|by rewrite Z.bits_0].
      by rewrite Z.mul_1_l, Z.pow2_bits_true by lia.
    - rewrite andb_false_r. destruct (Z.testbit x (n - 1)); cbn [b2z]; [|by rewrite Z.bits_0].
      rewrite Z.mul_1_l, Z.pow2_bits_false by lia. done. }
  assert (0 < 2 ^ (n - 1)) by (apply pow2_pos; lia).
  destruct (Z.ltb_spec x (2 ^ (n - 1))) as [Hlt|Hge].
  - destruct (decide (x = 0)) as [->|]; [by rewrite Z.bits_0|].
    rewrite (Z.bits_above_log2 x); [done | lia | apply Z.log2_lt_pow2; lia].
  - assert (Z.testbit x (n - 1) = true) as ->.
    { replace (n - 1) with (Z.log2 x); [apply Z.bit_log2; lia|]. apply Z.log2_unique; [lia|].
      replace (Z.succ (n - 1)) with n by lia. lia. }
    cbn [b2z]. apply Z.eqb_neq. lia.
Qed.

Lemma extend_one n x (u : bool) :
  0 < n < 64 -> in_u n x ->
  (if u then x &ᵇ (2 ^ n - 1)
   else if negb (x &ᵇ (2 ^ n - 1) &ᵇ 2 ^ (n - 1) =? 0) then (x &ᵇ (2 ^ n - 1)) |ᵇ (2 ^ 64 - 2 ^ n)
        else x &ᵇ (2 ^ n - 1))
  = wrap 64 (if u then x else sext n x).
Proof.
  intros Hn Hx. replace (2 ^ n - 1) with (Z.ones n) by (rewrite Z.ones_equiv; lia).
  rewrite land_ones_wrap, wrap_id by (lia || done).
  assert (2 ^ n < 2 ^ 64) by (apply Z.pow_lt_mono_r; lia).
  assert (0 < 2 ^ (n - 1)) by (apply pow2_pos; lia). pose proof (pow2_half n ltac:(lia)).
  destruct u; [rewrite wrap_id; [done|]; unfold in_u in *; lia|].
  rewrite land_top by (lia || done). unfold sext. rewrite (wrap_id n) by done. unfold to_signed.
  unfold in_u in Hx. destruct (Z.ltb_spec x (2 ^ (n - 1))); cbn [negb].
  - symmetry. apply wrap_id. unfold in_u. lia.
  - rewrite Z.lor_comm, (lor_disjoint n).
    + unfold wrap. rewrite <- (Z.mod_unique (x - 2 ^ n) (2 ^ 64) (-1) (2 ^ 64 - 2 ^ n + x)) by lia. lia.
    + lia.
    + rewrite <- (Z.mul_1_l (2 ^ n)), <- (Z.sub_add n 64) at 1.
      rewrite Z.pow_add_r, <- Z.mul_sub_distr_r by lia. apply Z.mod_mul. lia.
    + lia.
Qed.

Lemma extend_loaded_value_spec raw w u :
  w ∈ [1; 2; 4; 8] -> in_u (8 * w) raw ->
  extend_loaded_value raw w u = wrap 64 (if u then raw else sext (8 * w) raw).
Proof.
  rewrite !elem_of_cons, elem_of_nil. intros [->|[->|[->|[->|[]]]]] Hr.
  - apply (extend_one 8); [lia|done].
  - apply (extend_one 16); [lia|done].
  - apply (extend_one 32); [lia|done].
  - unfold extend_loaded_value. cbn. destruct u; [by rewrite wrap_id|].
    rewrite wrap_sext by lia. by rewrite wrap_id.
Qed.

Lemma load_le_cong X m a b n : wrap (VALUE X) a = wrap (VALUE X) b -> load_le X m a n = load_le X m b n.
Proof.
  revert a b. induction n as [|n IH]; intros a b H; [done|]. cbn [load_le]. rewrite H. do 2 f_equal.
  apply IH. by rewrite <- wrap_add_l, H, wrap_add_l.
Qed.

(** ** What the theorems assume of the state *)

(** The machine has the contents of the read-only segments, which lie in the
    address space. *)
Definition ro_agrees (X : Xlen) (t : InstructionTable) (st : state) : Prop :=
  forall addr size v, 0 <= size <= 8 -> InstructionTable.read_readonly t addr size = Ok (Some v) ->
    in_reg X addr /\ load_le X (s_mem st) addr (Z.to_nat size) = v.

(** A load has at most one known base address. *)
Definition single_base (d : DecodedInstruction) (s : RegisterState) : Prop :=
  d_kind d = KLoad -> forall rs1, d_rs1 d = Some rs1 ->
    (length (values (RegisterState.get s rs1)) <= 1)%nat.

(** The transfer function covers the effect [f]. *)
Definition transfer_ok (X : Xlen) (t : InstructionTable) (d : DecodedInstruction) (f : effect) : Prop :=
  forall pc size s s' st,
    wf_regs s -> in_u 64 pc -> gamma X s (get_reg st) -> ro_agrees X t st -> single_base d s ->
    transfer t pc size d s = Ok s' ->
    wf_regs s' /\ gamma X s' (get_reg (f X pc size st).1).

(** ** Registers *)

Lemma get_reg_set_reg_eq st r v : r <> 0 -> get_reg (set_reg st r v) r = v.
Proof.
  intros H. unfold get_reg, set_reg. rewrite (proj2 (Z.eqb_neq _ _) H). cbn. unfold upd. by rewrite Z.eqb_refl.
Qed.

Lemma gamma_set_reg X s st rd v x :
  wf_regs s -> wf_value v -> in_u 5 rd -> gamma X s (get_reg st) -> conc X v x ->
  wf_regs (RegisterState.set s rd v) /\ gamma X (RegisterState.set s rd v) (get_reg (set_reg st rd x)).
Proof.
  intros Hs Hv Hrd Hg Hc. split; [by apply set_wf|].
  apply (gamma_set X s (get_reg st)); [done..| exact Hrd | done | |].
  - intros r _ Hr. apply get_reg_set_reg_ne. auto.
  - intros. by rewrite get_reg_set_reg_eq.
Qed.

Lemma gamma_conc X s st r : in_u 5 r -> gamma X s (get_reg st) -> conc X (RegisterState.get s r) (get_reg st r).
Proof. intros Hr Hg. by apply Hg. Qed.

Lemma known_value X v x v0 vs :
  RegisterValue.is_constant v = true -> values v = v0 :: vs -> conc X v x ->
  exists w, w ∈ v0 :: vs /\ x = wrap (VALUE X) w.
Proof.
  intros Hk%bool_decide_eq_true E [?|(w & Hw & ->)]; [congruence|]. rewrite E in Hw. eauto.
Qed.

Lemma wf_value_range v w : wf_value v -> w ∈ values v -> in_u 64 w.
Proof.
  unfold wf_value. destruct v as [[] l]; cbn; [by intros -> ?%elem_of_nil|].
  intros (_ & _ & _ & Hr) Hw. rewrite Forall_forall in Hr. auto.
Qed.

(** Adding values one by one. *)
Lemma add_values_spec v l :
  wf_value v -> Forall (in_u 64) l ->
  wf_value (add_values v l) /\ value_le v (add_values v l) /\
  forall x, x ∈ l -> value_le (RegisterValue.constant x) (add_values v l).
Proof.
  intros Hv Hl. revert v Hv. induction Hl as [|x l Hx Hl IH]; intros v Hv; cbn [add_values].
  { split_and!; [done | apply value_le_refl | by intros ? ?%elem_of_nil]. }
  pose proof (add_value_wf v x Hv Hx) as Hw.
  pose proof (add_value_le v x Hv) as Hle. pose proof (add_value_in v x Hv) as Hin.
  destruct (RegisterValue.is_constant _) eqn:E; cbn [negb].
  - destruct (IH _ Hw) as (H1 & H2 & H3). split_and!; [done | by eapply value_le_trans |].
    intros y [->|Hy]%elem_of_cons; [by eapply value_le_trans | auto].
  - split_and!; [done..|]. intros y _. left. apply bool_decide_eq_false in E. by destruct (v_kind _).
Qed.

Lemma add_values_conc X v0 l w :
  in_u 64 v0 -> Forall (in_u 64) l -> w ∈ v0 :: l ->
  wf_value (add_values (RegisterValue.constant v0) l) /\
  conc X (add_values (RegisterValue.constant v0) l) (wrap (VALUE X) w).
Proof.
  intros H0 Hl Hw. destruct (add_values_spec (RegisterValue.constant v0) l) as (H1 & H2 & H3);
    [by apply wf_constant | done |]. split; [done|].
  apply (conc_le X (RegisterValue.constant w)); [|apply conc_constant].
  apply elem_of_cons in Hw as [->|Hw]; auto.
Qed.

(** ** Kind by kind *)

Section kinds.
Context (X : Xlen) (t : InstructionTable).

Lemma lui_ok rd imm :
  in_u 5 rd -> transfer_ok X t (mkView KLui (Some rd) None None imm 0 false) (op_lui rd imm).
Proof.
  intros Hrd pc size s s' st Hs Hpc Hg _ _ [= <-]. apply gamma_set_reg; try done.
  - apply wf_constant. by apply wrap_range.
  - rewrite <- (wrap_sub_64 X imm). apply conc_constant.
Qed.

Lemma auipc_ok rd imm (f : effect) :
  in_u 5 rd ->
  (forall X pc size st, (f X pc size st).1 = set_reg st rd (wrap (VALUE X) (pc + imm))) ->
  transfer_ok X t (mkView KAuipc (Some rd) None None imm 0 false) f.
Proof.
  intros Hrd Hf pc size s s' st Hs Hpc Hg _ _ [= <-]. rewrite Hf. apply gamma_set_reg; try done.
  - apply wf_constant, add_signed_range.
  - rewrite <- wrap_add_signed. apply conc_constant.
Qed.

Lemma addi_ok rd rs1 imm v (f : effect) :
  in_u 5 rd -> in_u 5 rs1 ->
  (forall X pc size st, (f X pc size st).1 = set_reg st rd (v X st)) ->
  (forall st, v X st = wrap (VALUE X) (get_reg st rs1 + imm)) ->
  transfer_ok X t (mkView KAddi (Some rd) (Some rs1) None imm 0 false) f.
Proof.
  intros Hrd Hrs Hf Hv pc size s s' st Hs Hpc Hg _ _ [= <-]. rewrite Hf, Hv.
  pose proof (gamma_conc X s st rs1 Hrs Hg) as Hc. pose proof (get_wf s rs1 Hs Hrs) as Hw.
  destruct (RegisterValue.is_constant (RegisterState.get s rs1)) eqn:Hk;
    [|apply gamma_set_reg; try done; apply conc_unknown].
  destruct (values (RegisterState.get s rs1)) as [|v0 vs] eqn:Hvs;
    [apply gamma_set_reg; try done; apply conc_unknown|].
  destruct (known_value X _ _ _ _ Hk Hvs Hc) as (w & Hin & ->).
  destruct (add_values_conc X (add_signed v0 imm) (map (fun v => add_signed v imm) vs) (add_signed w imm))
    as [H1 H2].
  - apply add_signed_range.
  - apply Forall_forall. intros x (y & -> & _)%list_elem_of_fmap. apply add_signed_range.
  - rewrite <- (map_cons (fun v => add_signed v imm)). by apply (list_elem_of_fmap_2 (fun v => add_signed v imm)).
  - apply gamma_set_reg; try done. by rewrite wrap_add_l, <- wrap_add_signed.
Qed.

Lemma add_transfer_ok rd rs1 rs2 :
  in_u 5 rd -> in_u 5 rs1 -> in_u 5 rs2 ->
  transfer_ok X t (mkView KAdd (Some rd) (Some rs1) (Some rs2) 0 0 false)
    (op_rr (fun w x y => wrap w (x + y)) rd rs1 rs2).
Proof.
  intros Hrd H1 H2 pc size s s' st Hs Hpc Hg _ _ [= <-]. cbn [op_rr fst].
  pose proof (gamma_conc X s st rs1 H1 Hg) as Hc1. pose proof (gamma_conc X s st rs2 H2 Hg) as Hc2.
  assert (forall x, wf_regs (RegisterState.set_unknown s rd) /\
            gamma X (RegisterState.set_unknown s rd) (get_reg (set_reg st rd x))) as Hunk
    by (intros; apply gamma_set_reg; try done; apply conc_unknown).
  destruct (RegisterValue.is_constant (RegisterState.get s rs1)) eqn:K1; [|apply Hunk].
  destruct (RegisterValue.is_constant (RegisterState.get s rs2)) eqn:K2; [|apply Hunk].
  destruct (values (RegisterState.get s rs1)) as [|l0 ls] eqn:V1; [apply Hunk|].
  destruct (values (RegisterState.get s rs2)) as [|r0 rs] eqn:V2; [apply Hunk|].
  destruct (known_value X _ _ _ _ K1 V1 Hc1) as (l & Hl & ->).
  destruct (known_value X _ _ _ _ K2 V2 Hc2) as (r & Hr & ->).
  rewrite wrap_add_l, wrap_add_r, <- wrap_sub_64.
  assert (Forall (in_u 64) (sums l0 r0 (l0 :: ls) (r0 :: rs)) /\
          wrap 64 (l + r) ∈ wrap 64 (l0 + r0) :: sums l0 r0 (l0 :: ls) (r0 :: rs)) as [Hsr Hsum].
  { unfold sums. split.
    - apply Forall_forall. intros x. rewrite list_elem_of_In, in_flat_map.
      intros (l1 & _ & (r1 & _ & Hx)%in_flat_map). destruct (_ && _); [done|].
      destruct Hx as [<-|[]]. by apply wrap_range.
    - destruct (decide (l = l0 /\ r = r0)) as [[-> ->]|Hne]; [left|right].
      rewrite list_elem_of_In, in_flat_map. exists l. split; [by apply list_elem_of_In|].
      rewrite in_flat_map. exists r. split; [by apply list_elem_of_In|].
      destruct (Z.eqb_spec l l0), (Z.eqb_spec r r0); cbn [andb]; try (left; reflexivity). naive_solver. }
  destruct (add_values_conc X (wrap 64 (l0 + r0)) (sums l0 r0 (l0 :: ls) (r0 :: rs)) (wrap 64 (l + r)))
    as [HA HB]; [by apply wrap_range | done..|].
  by apply gamma_set_reg.
Qed.

Lemma move_ok rd rs2 (f : effect) :
  in_u 5 rd -> in_u 5 rs2 ->
  (forall X pc size st, (f X pc size st).1 = set_reg st rd (get_reg st rs2)) ->
  transfer_ok X t (mkView KMove (Some rd) (Some rs2) None 0 0 false) f.
Proof.
  intros Hrd Hrs Hf pc size s s' st Hs Hpc Hg _ _ [= <-]. rewrite Hf.
  apply gamma_set_reg; try done; [by apply get_wf | by apply gamma_conc].
Qed.

Lemma load_ok rd rs1 imm w u :
  in_u 5 rd -> in_u 5 rs1 -> w ∈ [1; 2; 4; 8] ->
  transfer_ok X t (mkView KLoad (Some rd) (Some rs1) None imm w u) (op_load w (negb u) rd rs1 imm).
Proof.
  intros Hrd Hrs Hw pc size s s' st Hs Hpc Hg Hro Hone. cbn [transfer d_kind d_rd d_rs1 d_imm load_width_bytes is_unsigned].
  assert (forall x, wf_regs (RegisterState.set_unknown s rd) /\
            gamma X (RegisterState.set_unknown s rd) (get_reg (set_reg st rd x))) as Hunk
    by (intros; apply gamma_set_reg; try done; apply conc_unknown).
  pose proof (gamma_conc X s st rs1 Hrs Hg) as Hc. specialize (Hone eq_refl rs1 eq_refl).
  destruct (_ && _) eqn:Hk; [|intros [= <-]; apply Hunk]. apply andb_true_iff in Hk as [_ Hk].
  destruct (values (RegisterState.get s rs1)) as [|v0 vs] eqn:Hvs; [intros [= <-]; apply Hunk|].
  destruct (InstructionTable.read_readonly _ _ _) as [[raw|]|] eqn:Hread; cbn; [| |done];
    intros [= <-]; [|apply Hunk].
  assert (vs = []) as -> by (destruct vs; [done|]; cbn in Hone; lia).
  destruct (known_value X _ _ _ _ Hk Hvs Hc) as (v & ->%list_elem_of_singleton & E).
  apply Hro in Hread as [_ Hraw]; [|rewrite !elem_of_cons, elem_of_nil in Hw; lia].
  assert (load_le X (s_mem st) (get_reg st rs1 + imm) (Z.to_nat w) = raw) as Hl.
  { rewrite <- Hraw. apply load_le_cong. by rewrite wrap_add_signed, E, wrap_add_l. }
  assert (in_u (8 * w) raw) as Hr.
  { rewrite <- Hl. pose proof (load_le_range X (s_mem st) (get_reg st rs1 + imm) (Z.to_nat w)) as H.
    rewrite Z2Nat.id in H; [done|]. rewrite !elem_of_cons, elem_of_nil in Hw. lia. }
  rewrite extend_loaded_value_spec by done. apply gamma_set_reg; try done.
  - apply wf_constant. by apply wrap_range.
  - unfold load. rewrite Hl. destruct u; cbn [negb]; rewrite <- wrap_sub_64; apply conc_constant.
Qed.

(** [jal] and [jalr] write the address of the next instruction. *)
Lemma link_ok kind rd rs1 imm (f : effect) :
  kind = KJal \/ kind = KJalr -> in_u 5 rd ->
  (forall X pc size st, (f X pc size st).1 = set_reg st rd (wrap (VALUE X) (pc + size))) ->
  transfer_ok X t (mkView kind (Some rd) rs1 None imm 0 false) f.
Proof.
  intros Hk Hrd Hf pc size s s' st Hs Hpc Hg _ _ Ht. rewrite Hf.
  assert ((next ← add_u 64 pc size; mret (RegisterState.set_constant s rd next)) = Ok s') as E
    by (by destruct Hk as [-> | ->]). clear Ht.
  destruct (add_u 64 pc size) as [next|] eqn:Ea; [|done]. apply add_u_inv in Ea as [-> Hr].
  injection E as <-. apply gamma_set_reg; try done; [by apply wf_constant | apply conc_constant].
Qed.

(** Any other instruction changes the register it names at most. *)
Definition frames (f : effect) (rd : option Z) : Prop :=
  forall X pc size st r, rd <> Some r -> get_reg (f X pc size st).1 r = get_reg st r.

Lemma other_ok kind rd rs1 rs2 imm w u (f : effect) :
  kind = KUnknown \/ kind = KBranch -> (forall r, rd = Some r -> in_u 5 r) -> frames f rd ->
  transfer_ok X t (mkView kind rd rs1 rs2 imm w u) f.
Proof.
  intros Hk Hrd Hf pc size s s' st Hs Hpc Hg _ _ Ht.
  assert (s' = match rd with Some rd => RegisterState.set_unknown s rd | None => s end) as ->
    by (destruct Hk as [-> | ->]; by injection Ht). clear Ht.
  destruct rd as [rd|].
  - split; [by apply set_wf|]. apply (gamma_set X s (get_reg st)); [done..| by apply Hrd | done | |].
    + intros r _ Hr. apply Hf. congruence.
    + intros. apply conc_unknown.
  - split; [done|]. intros r Hr. rewrite Hf by done. by apply Hg.
Qed.
End kinds.

(** ** The instruction tables *)

Lemma written_ne rd r : (if rd =? 0 then None else Some rd) <> Some r -> rd = 0 \/ rd <> r.
Proof. destruct (Z.eqb_spec rd 0); [auto|]. intros. right. congruence. Qed.

Lemma frames_none (f : effect) : (forall X pc size st r, get_reg (f X pc size st).1 r = get_reg st r) -> frames f None.
Proof. by intros H X pc size st r _. Qed.

(** The effect is a register write on a state with the same registers. *)
Lemma frames_write (f : effect) rd :
  (forall X pc size st, exists st0 v,
     s_regs (f X pc size st).1 = s_regs (set_reg st0 rd v) /\ s_regs st0 = s_regs st) ->
  frames f (if rd =? 0 then None else Some rd).
Proof.
  intros H X pc size st r Hr. destruct (H X pc size st) as (st0 & v & E & E0).
  transitivity (get_reg (set_reg st0 rd v) r); [unfold get_reg; by rewrite E|].
  rewrite get_reg_set_reg_ne by by apply written_ne. unfold get_reg. by rewrite E0.
Qed.

Ltac frames :=
  first
    [ apply frames_none; intros; reflexivity
    | apply frames_write; intros; do 2 eexists; split; [reflexivity|]; reflexivity
    | apply frames_write; intros; do 2 eexists; split; [reflexivity|]; by case_match ].

Definition entry_frames (e : isa_entry) : Prop :=
  forall raw, frames (fun X => i_sem e X raw) (extract_written_reg (i_args e raw)).

Lemma amo_frames width f raw :
  frames (fun X => amo_type width f X raw) (extract_written_reg (fmt_amo raw)).
Proof.
  apply frames_write. intros X pc size st. exists st, (load X st (get_reg st (f_rs1 raw)) width true).
  split; [|done]. done.
Qed.

Lemma csr_exchange_frames raw (f : effect) :
  (forall X pc size st, exists w, f X pc size st = csr_exchange (f_csr raw) (f_rd raw) w X pc size st) ->
  frames f (if f_rd raw =? 0 then None else Some (f_rd raw)).
Proof.
  intros H. apply frames_write. intros X pc size st. destruct (H X pc size st) as [w ->].
  unfold csr_exchange. cbn [fst]. do 2 eexists. split; [reflexivity|]. by case_match.
Qed.

Lemma standard_frames : Forall entry_frames isa_standard.
Proof.
  unfold isa_standard, standard_tables. cbn [concat app isa_I isa_M isa_A isa_Zicsr isa_Zifencei isa_Zba
    isa_Zbb isa_Zbs isa_Zbkb isa_Zicond].
  repeat apply List.Forall_cons; [..|apply List.Forall_nil]; intros raw;
    first [ apply amo_frames | apply csr_exchange_frames; intros; eexists; reflexivity | frames ].
Qed.

Definition entry_rd (e : isa_entry) : Prop :=
  forall raw r, extract_written_reg (i_args e raw) = Some r -> in_u 5 r.

Lemma written_range rd r : in_u 5 rd -> (if rd =? 0 then None else Some rd) = Some r -> in_u 5 r.
Proof. intros H. destruct (rd =? 0); [done|]. by intros [= <-]. Qed.

Lemma standard_rd : Forall entry_rd isa_standard.
Proof.
  unfold isa_standard, standard_tables. cbn [concat app isa_I isa_M isa_A isa_Zicsr isa_Zifencei isa_Zba
    isa_Zbb isa_Zbs isa_Zbkb isa_Zicond].
  repeat apply List.Forall_cons; [..|apply List.Forall_nil]; intros raw r;
    first [ discriminate | exact (written_range (f_rd raw) r (f_rd_range raw)) ].
Qed.

(** The instructions the analysis treats in a way of its own. *)
Definition known_ops : list OpId :=
  [OP_LUI; OP_C_LUI] ++ [OP_AUIPC] ++ [OP_ADDI; OP_C_ADDI; OP_C_ADDI16SP; OP_C_ADDI4SPN; OP_C_LI]
  ++ [OP_ADD; OP_C_ADD] ++ [OP_C_MV] ++ [OP_JAL; OP_C_J; OP_C_JAL] ++ [OP_JALR; OP_C_JR; OP_C_JALR]
  ++ [OP_LB; OP_LBU; OP_LH; OP_LHU; OP_LW; OP_LWU; OP_LD; OP_C_LW; OP_C_LWSP; OP_C_LD; OP_C_LDSP]
  ++ [OP_BEQ; OP_BNE; OP_BLT; OP_BGE; OP_BLTU; OP_BGEU; OP_C_BEQZ; OP_C_BNEZ].

Lemma from_instr_other i :
  DecodedInstruction.one_of (opid i) known_ops = false ->
  DecodedInstruction.from_instr i
  = mkView KUnknown (extract_written_reg (args i)) None None 0 0 false.
Proof.
  unfold DecodedInstruction.one_of, known_ops, DecodedInstruction.from_instr, DecodedInstruction.one_of.
  rewrite !existsb_app, !orb_false_iff. by intros (-> & -> & -> & -> & -> & -> & -> & -> & ->).
Qed.

(** The base instructions with a kind of their own come first in the table. *)
Definition known_base : list isa_entry := take 17 isa_I ++ [mkEntry OP_ADDI any (opc 0x13 0) fmt_I
  (i_type (fun w x y => wrap w (x + y))); mkEntry OP_ADD any (opf7 0x33 0 0x00) fmt_R
  (r_type (fun w x y => wrap w (x + y)))].

Lemma standard_known e :
  In e isa_standard -> DecodedInstruction.one_of (i_opid e) known_ops = false \/ In e known_base.
Proof.
  unfold isa_standard, standard_tables. cbn [concat]. rewrite in_app_iff. intros [H|H].
  - unfold isa_I in H. repeat (destruct H as [<-|H]; [first [left; reflexivity | right; cbn; tauto]|]). done.
  - left. assert (forallb (fun e => negb (DecodedInstruction.one_of (i_opid e) known_ops))
      (concat (tail standard_tables)) = true) as Hall by (vm_compute; reflexivity).
    rewrite forallb_forall in Hall. by apply negb_true_iff, Hall.
Qed.

Section entries.
Context (X : Xlen) (t : InstructionTable).

Lemma known_base_ok e pc raw :
  In e known_base ->
  transfer_ok X t (DecodedInstruction.from_instr (decoded_of pc raw e)) (fun X => i_sem e X raw).
Proof.
  pose proof (f_rd_range raw) as Hd. pose proof (f_rs1_range raw) as H1. pose proof (f_rs2_range raw) as H2.
  assert (forall w, w ∈ [1; 2; 4; 8] -> forall u,
    transfer_ok X t (mkView KLoad (Some (f_rd raw)) (Some (f_rs1 raw)) None (imm_I raw) w u)
      (fun X => load_type w (negb u) X raw)) as Hload by (intros; by apply load_ok).
  assert (forall taken, transfer_ok X t
    (mkView KBranch None (Some (f_rs1 raw)) (Some (f_rs2 raw)) (imm_B raw) 0 false)
    (fun X => branch_type taken X raw)) as Hbr by (intros; apply other_ok; [auto | done | by apply frames_none]).
  unfold known_base. cbn [take isa_I app]. intros H.
  repeat (destruct H as [<-|H]; [first
    [ exact (lui_ok X t _ (imm_U raw) Hd)
    | exact (auipc_ok X t _ (imm_U raw) (fun X => auipc X raw) Hd (fun _ _ _ _ => eq_refl))
    | exact (link_ok X t KJal _ None (imm_J raw) (fun X => jal X raw) (or_introl eq_refl) Hd (fun _ _ _ _ => eq_refl))
    | exact (link_ok X t KJalr _ (Some (f_rs1 raw)) (imm_I raw) (fun X => jalr X raw) (or_intror eq_refl) Hd (fun _ _ _ _ => eq_refl))
    | exact (Hbr _)
    | exact (Hload 1 ltac:(set_solver) false) | exact (Hload 1 ltac:(set_solver) true)
    | exact (Hload 2 ltac:(set_solver) false) | exact (Hload 2 ltac:(set_solver) true)
    | exact (Hload 4 ltac:(set_solver) false) | exact (Hload 4 ltac:(set_solver) true)
    | exact (Hload 8 ltac:(set_solver) false)
    | exact (add_transfer_ok X t _ _ _ Hd H1 H2)
    | apply (addi_ok X t _ (f_rs1 raw) (imm_I raw)
        (fun X st => wrap (VALUE X) (get_reg st (f_rs1 raw) + wrap (VALUE X) (imm_I raw))) _ Hd H1);
      [done | intros; apply wrap_add_r] ]|]).
  done.
Qed.

Lemma standard_transfer_ok e pc raw :
  In e isa_standard ->
  transfer_ok X t (DecodedInstruction.from_instr (decoded_of pc raw e)) (fun X => i_sem e X raw).
Proof.
  intros He. destruct (standard_known e He) as [Hk|Hk]; [|by apply known_base_ok].
  rewrite from_instr_other by done. cbn [decoded_of args].
  pose proof standard_frames as Hf. pose proof standard_rd as Hd.
  rewrite List.Forall_forall in Hf, Hd. apply other_ok; [auto | by apply Hd | by apply Hf].
Qed.
End entries.

(** ** Compressed instructions *)

Definition c_frames (e : c_entry) : Prop :=
  forall raw, frames (fun X => c_sem e X raw) (extract_written_reg (c_args e raw)) /\
    forall r, extract_written_reg (c_args e raw) = Some r -> in_u 5 r.

Lemma compressed_frames : Forall c_frames isa_C.
Proof.
  unfold isa_C. repeat apply List.Forall_cons; [..|apply List.Forall_nil]; intros raw; (split;
    [first [ frames
           | apply (frames_write _ 1); intros; do 2 eexists; split; reflexivity
           | apply (frames_write _ 2); intros; do 2 eexists; split; reflexivity ]
    | intros r; first
        [ discriminate
        | exact (written_range 1 r ltac:(done)) | exact (written_range 2 r ltac:(done))
        | apply written_range; first [ apply cf_rd_range | apply cf_rd'_range | apply cf_rs1'_range ] ] ]).
Qed.

(** The entries of a table one by one: [tac] deals with the first of [He]. *)
Ltac entry He tac := destruct He as [<-|He]; [tac|].

Section compressed.
Context (X : Xlen) (t : InstructionTable).

Lemma ci_add_ok rd rs1 imm raw :
  in_u 5 (rd raw) -> in_u 5 (rs1 raw) ->
  transfer_ok X t (mkView KAddi (Some (rd raw)) (Some (rs1 raw)) None (imm raw) 0 false)
    (fun X => ci_type add_v rd rs1 imm X raw).
Proof.
  intros Hd H1. apply (addi_ok X t _ (rs1 raw) (imm raw)
    (fun X st => wrap (VALUE X) (get_reg st (rs1 raw) + wrap (VALUE X) (imm raw))) _ Hd H1);
    [done | intros; apply wrap_add_r].
Qed.

Lemma compressed_transfer_ok e pc raw :
  In e isa_C ->
  transfer_ok X t (DecodedInstruction.from_instr (mkDecoded (c_opid e) pc 2 raw (c_args e raw)))
    (fun X => c_sem e X raw).
Proof.
  pose proof (cf_rd_range raw) as Hd. pose proof (cf_rd'_range raw) as Hd'.
  pose proof (cf_rs1'_range raw) as H1'. pose proof (cf_rs2_range raw) as H2.
  assert (in_u 5 0) as R0 by done. assert (in_u 5 1) as R1 by done. assert (in_u 5 2) as R2 by done.
  assert (forall taken, transfer_ok X t
    (mkView KBranch None (Some (cf_rs1' raw)) (Some 0) (imm_cb raw) 0 false)
    (fun X => cbranch_type taken X raw)) as Hbr by (intros; apply other_ok; [auto | done | by apply frames_none]).
  assert (forall rd rs1 imm w, w ∈ [1; 2; 4; 8] -> in_u 5 (rd raw) -> in_u 5 (rs1 raw) ->
    transfer_ok X t (mkView KLoad (Some (rd raw)) (Some (rs1 raw)) None (imm raw) w false)
      (fun X => cload_type w rd rs1 imm X raw)) as Hload by (intros; by apply (load_ok X t _ _ _ _ false)).
  assert (forall rd, in_u 5 rd -> transfer_ok X t (mkView KJal (Some rd) None None (imm_cj raw) 0 false)
    (op_jal rd (imm_cj raw))) as Hjal by (intros; by apply link_ok; [left|..]).
  assert (forall rd, in_u 5 rd -> transfer_ok X t (mkView KJalr (Some rd) (Some (cf_rd raw)) None 0 0 false)
    (fun X => cjalr_type rd X raw)) as Hjalr by (intros; by apply link_ok; [right|..]).
  pose proof (addi_ok X t _ 0 (imm_ci raw) (fun X st => wrap (VALUE X) (imm_ci raw))
    (fun X => ci_type (fun _ _ v => v) cf_rd CSpec.zero imm_ci X raw) Hd R0 (fun _ _ _ _ => eq_refl)
    (fun _ => eq_refl)) as Hli.
  assert (4 ∈ [1; 2; 4; 8]) as W4 by set_solver. assert (8 ∈ [1; 2; 4; 8]) as W8 by set_solver.
  intros He.
  destruct (DecodedInstruction.one_of (c_opid e) known_ops) eqn:Hk.
  2:{ rewrite from_instr_other by done. pose proof compressed_frames as Hf.
      rewrite List.Forall_forall in Hf. destruct (Hf e He raw). by apply other_ok; [left|..]. }
  unfold isa_C in He.
  entry He ltac:(exact (ci_add_ok _ _ _ _ Hd' R2)).
  entry He ltac:(exact (Hload _ _ _ 4 W4 Hd' H1')).
  entry He ltac:(exact (Hload _ _ _ 8 W8 Hd' H1')).
  entry He ltac:(discriminate Hk).
  entry He ltac:(discriminate Hk).
  entry He ltac:(discriminate Hk).
  entry He ltac:(exact (ci_add_ok _ _ _ _ Hd Hd)).
  entry He ltac:(exact (Hjal 1 R1)).
  entry He ltac:(discriminate Hk).
  entry He ltac:(exact (Hli)).
  entry He ltac:(exact (ci_add_ok _ _ _ _ R2 R2)).
  entry He ltac:(exact (lui_ok X t _ (imm_clui raw) Hd)).
  entry He ltac:(discriminate Hk).
  entry He ltac:(discriminate Hk).
  entry He ltac:(discriminate Hk).
  entry He ltac:(discriminate Hk).
  entry He ltac:(discriminate Hk).
  entry He ltac:(discriminate Hk).
  entry He ltac:(discriminate Hk).
  entry He ltac:(discriminate Hk).
  entry He ltac:(discriminate Hk).
  entry He ltac:(discriminate Hk).
  entry He ltac:(discriminate Hk).
  entry He ltac:(exact (Hjal 0 R0)).
  entry He ltac:(exact (Hbr _)).
  entry He ltac:(exact (Hbr _)).
  entry He ltac:(discriminate Hk).
  entry He ltac:(discriminate Hk).
  entry He ltac:(exact (Hload _ _ _ 4 W4 Hd R2)).
  entry He ltac:(exact (Hload _ _ _ 8 W8 Hd R2)).
  entry He ltac:(exact (Hjalr 0 R0)).
  entry He ltac:(exact (move_ok X t _ _ (fun X => cmv X raw) Hd H2 (fun _ _ _ _ => eq_refl))).
  entry He ltac:(discriminate Hk).
  entry He ltac:(exact (Hjalr 1 R1)).
  entry He ltac:(exact (add_transfer_ok X t _ _ _ Hd Hd H2)).
  entry He ltac:(discriminate Hk).
  entry He ltac:(discriminate Hk).
  done.
Qed.

(** Illegal compressed words trap. *)
Lemma invalid_transfer_ok pc raw :
  transfer_ok X t (DecodedInstruction.from_instr (mkDecoded OP_C_INVALID pc 2 raw (A_I 0 0 raw)))
    (fun X pc size st => (st, NTrap)).
Proof. apply other_ok; [auto | done | by apply frames_none]. Qed.
End compressed.
