(* ===== verification/CfgEdges.v ===== *)
(** * Soundness of the successors

    On a 64-bit machine, control goes from an instruction to one of the successors
    the analysis computes for it. *)

From S2P Require Import Prelude Xlen IR IRBuild IRSem IRFacts Isa Ext InstrTable RiscvSpec Fields.
From S2P Require Import Base MExt AExt ZicsrExt ZifenceiExt ZbaExt ZbbExt ZbsExt ZbkbExt ZicondExt CExt.
From S2P Require Import BaseSpec MCorrect ACorrect ZicsrCorrect ZicondCorrect ZbaCorrect ZbbCorrect.
From S2P Require Import ZbsCorrect ZbkbCorrect CSpec CLift BaseLift RegistryCorrect TableFacts.
From S2P Require Import CfgData CfgScan CfgFlow CfgDomain CfgSound.
#[local] Open Scope word_scope.

(** The base of an indirect jump is known. *)
Definition resolved (d : DecodedInstruction) (s : RegisterState) : bool :=
  match d_kind d with
  | KJalr => match d_rs1 d with Some rs1 => known (RegisterState.get_ref s rs1) | None => false end
  | _ => true
  end.

Definition edge_ok (t : InstructionTable) (d : DecodedInstruction) (f : effect) : Prop :=
  forall fc pc size s st u succs u' pc',
    wf_regs s -> in_u 64 pc -> gamma Rv64 s (get_reg st) -> resolved d s = true ->
    get_successors t fc pc size d s u = Ok (succs, u') ->
    (f Rv64 pc size st).2 = NPc pc' -> InstructionTable.is_valid_pc t pc' = true -> pc' ∈ succs.

(** The effect goes on with the next instruction, if it goes on. *)
Definition falls (f : effect) : Prop :=
  forall X pc size st pc', (f X pc size st).2 = NPc pc' -> pc' = wrap (VALUE X) (pc + size).

Section kinds.
Context (t : InstructionTable).

Lemma insert_if_valid_in s target x :
  InstructionTable.is_valid_pc t x = true -> x = target \/ x ∈ s -> x ∈ insert_if_valid t s target.
Proof.
  unfold insert_if_valid. intros Hv [->|H]; [rewrite Hv; set_solver|]. destruct (InstructionTable.is_valid_pc t target); set_solver.
Qed.

Lemma fall_edge d f :
  d_kind d <> KJal -> d_kind d <> KJalr -> d_kind d <> KBranch -> falls f -> edge_ok t d f.
Proof.
  intros H1 H2 H3 Hf fc pc size s st u succs u' pc' Hs Hpc Hg _ Hsucc Hn Hv. apply Hf in Hn as ->.
  assert ((next ← add_u 64 pc size; mret ({[next]} : gset Z, u)) = Ok (succs, u')) as E
    by (unfold get_successors in Hsucc; by destruct (d_kind d)). clear Hsucc.
  destruct (add_u 64 pc size) as [n|] eqn:Ea; [|done]. apply add_u_inv in Ea as [-> Hr].
  injection E as <- <-. cbn [VALUE]. rewrite wrap_id by done. by apply elem_of_singleton.
Qed.

Lemma jal_edge rd imm (f : effect) :
  (forall X pc size st, (f X pc size st).2 = NPc (wrap (VALUE X) (pc + imm))) ->
  edge_ok t (mkView KJal (Some rd) None None imm 0 false) f.
Proof.
  intros Hf fc pc size s st u succs u' pc' Hs Hpc Hg _ Hsucc Hn Hv. rewrite Hf in Hn. injection Hn as <-.
  change (VALUE Rv64) with 64 in *. rewrite <- (wrap_add_signed Rv64) in *. change (VALUE Rv64) with 64 in *.
  rewrite (wrap_id 64 (add_signed pc imm)) in * by apply add_signed_range.
  unfold get_successors in Hsucc. cbn [d_kind d_imm] in Hsucc.
  pose proof (insert_if_valid_in ∅ (add_signed pc imm) _ Hv (or_introl eq_refl)) as Hin.
  destruct (DecodedInstruction.is_call _); [|by injection Hsucc as <- <-].
  destruct (add_u 64 pc size); [|done]. injection Hsucc as <- <-. set_solver.
Qed.

Lemma branch_edge rs1 rs2 imm (f : effect) :
  (forall X pc size st pc', (f X pc size st).2 = NPc pc' ->
     pc' = wrap (VALUE X) (pc + imm) \/ pc' = wrap (VALUE X) (pc + size)) ->
  edge_ok t (mkView KBranch None (Some rs1) (Some rs2) imm 0 false) f.
Proof.
  intros Hf fc pc size s st u succs u' pc' Hs Hpc Hg _ Hsucc Hn Hv.
  unfold get_successors in Hsucc. cbn [d_kind d_imm] in Hsucc.
  destruct (add_u 64 pc size) as [n|] eqn:Ea; [|done]. apply add_u_inv in Ea as [-> Hr].
  injection Hsucc as <- <-. apply insert_if_valid_in; [done|].
  apply Hf in Hn as [-> | ->]; change (VALUE Rv64) with 64; [left|right].
  - rewrite <- (wrap_add_signed Rv64). apply wrap_id, add_signed_range.
  - rewrite wrap_id by done. by apply elem_of_singleton.
Qed.

Lemma ldiff_1 x : Z.ldiff x 1 = x - x mod 2.
Proof.
  pose proof (Z.add_lor_land (Z.ldiff x 1) (Z.land x 1)) as E.
  assert (Z.lor (Z.ldiff x 1) (Z.land x 1) = x) as E1.
  { apply Z.bits_inj'. intros i Hi. rewrite Z.lor_spec, Z.ldiff_spec, Z.land_spec.
    by destruct (Z.testbit x i), (Z.testbit 1 i). }
  assert (Z.land (Z.ldiff x 1) (Z.land x 1) = 0) as E2.
  { apply Z.bits_inj'. intros i Hi. rewrite !Z.land_spec, Z.ldiff_spec, Z.bits_0.
    by destruct (Z.testbit x i), (Z.testbit 1 i). }
  pose proof (Z.land_ones x 1 ltac:(lia)) as E3. change (Z.ones 1) with 1 in E3. change (2 ^ 1) with 2 in E3.
  lia.
Qed.

Lemma resolved_targets_in base imm v :
  InstructionTable.is_valid_pc t (Z.ldiff (add_signed v imm) 1) = true -> v ∈ values base ->
  Z.ldiff (add_signed v imm) 1 ∈ resolved_targets t base imm.
Proof.
  intros Hv. unfold resolved_targets.
  assert (forall l (s : gset Z), v ∈ l \/ Z.ldiff (add_signed v imm) 1 ∈ s ->
    Z.ldiff (add_signed v imm) 1
    ∈ foldl (fun s v => insert_if_valid t s (Z.ldiff (add_signed v imm) 1)) s l) as H.
  { induction l as [|w l IH]; intros s [H|H]; cbn; [by apply elem_of_nil in H|done| |].
    - apply elem_of_cons in H as [->|H]; apply IH; [right|by left]. apply insert_if_valid_in; auto.
    - apply IH. right. apply insert_if_valid_in; auto. }
  intros Hin. apply H. by left.
Qed.

Lemma jalr_edge rd rs1 imm (f : effect) :
  in_u 5 rs1 ->
  (forall pc size st, in_u 64 (get_reg st rs1) ->
     (f Rv64 pc size st).2
     = NPc (wrap 64 (get_reg st rs1 + imm) - wrap 64 (get_reg st rs1 + imm) mod 2)) ->
  edge_ok t (mkView KJalr (Some rd) (Some rs1) None imm 0 false) f.
Proof.
  intros Hrs Hf fc pc size s st u succs u' pc' Hs Hpc Hg Hres Hsucc Hn Hv.
  unfold get_successors in Hsucc. cbn [d_kind d_rs1 d_imm resolved] in Hsucc, Hres. rewrite Hres in Hsucc.
  rewrite get_ref_get in * by done. apply andb_true_iff in Hres as [Hk _].
  pose proof (gamma_conc Rv64 s st rs1 Hrs Hg) as [Hc|(v & Hv' & Ev)].
  { apply bool_decide_eq_true in Hk. congruence. }
  pose proof (wf_value_range _ _ (get_wf s rs1 Hs Hrs) Hv') as Hr.
  change (VALUE Rv64) with 64 in Ev. rewrite wrap_id in Ev by done.
  rewrite Hf in Hn by by rewrite Ev. rewrite Ev, <- ldiff_1 in Hn. injection Hn as <-.
  assert (wrap 64 (v + imm) = add_signed v imm) as E.
  { rewrite <- (wrap_add_signed Rv64). apply wrap_id, add_signed_range. }
  rewrite E in *. pose proof (resolved_targets_in _ imm v Hv Hv') as Hin.
  destruct (DecodedInstruction.is_call _); [|by injection Hsucc as <- <-].
  destruct (add_u 64 pc size); [|done]. injection Hsucc as <- <-. set_solver.
Qed.
End kinds.

(** ** The instruction tables *)

Definition jump_ops : list OpId := [OP_JAL; OP_JALR; OP_BEQ; OP_BNE; OP_BLT; OP_BGE; OP_BLTU; OP_BGEU].

Lemma standard_falls :
  Forall (fun e => DecodedInstruction.one_of (i_opid e) (OP_MRET :: jump_ops) = true \/
                   forall raw, falls (fun X => i_sem e X raw)) isa_standard.
Proof.
  unfold isa_standard, standard_tables. cbn [concat app isa_I isa_M isa_A isa_Zicsr isa_Zifencei isa_Zba
    isa_Zbb isa_Zbs isa_Zbkb isa_Zicond].
  repeat apply List.Forall_cons; [..|apply List.Forall_nil];
    first [ left; reflexivity | right; intros raw X pc size st pc' [= <-]; reflexivity
          | right; intros raw X pc size st pc'; discriminate ].
Qed.

Section entries.
Context (t : InstructionTable).

Lemma jump_entries_ok e pc raw :
  In e known_base -> DecodedInstruction.one_of (i_opid e) jump_ops = true ->
  edge_ok t (DecodedInstruction.from_instr (decoded_of pc raw e)) (fun X => i_sem e X raw).
Proof.
  assert (forall taken, edge_ok t
    (mkView KBranch None (Some (f_rs1 raw)) (Some (f_rs2 raw)) (imm_B raw) 0 false)
    (fun X => branch_type taken X raw)) as Hbr.
  { intros. apply branch_edge. intros X pc0 size st pc'. cbn. case_match; intros [= <-]; auto. }
  pose proof (jal_edge t (f_rd raw) (imm_J raw) (fun X => jal X raw) (fun _ _ _ _ => eq_refl)) as Hjal.
  pose proof (jalr_edge t (f_rd raw) (f_rs1 raw) (imm_I raw) (fun X => jalr X raw) (f_rs1_range raw)
    (fun _ _ _ _ => eq_refl)) as Hjalr.
  unfold known_base. cbn [take isa_I app]. intros H Hj.
  entry H ltac:(discriminate Hj). entry H ltac:(discriminate Hj).
  entry H ltac:(exact Hjal). entry H ltac:(exact Hjalr).
  do 6 (entry H ltac:(exact (Hbr _))).
  repeat (entry H ltac:(discriminate Hj)). done.
Qed.

Lemma no_jump_kind i :
  DecodedInstruction.one_of (opid i) jump_ops = false ->
  DecodedInstruction.one_of (opid i) [OP_C_J; OP_C_JAL; OP_C_JR; OP_C_JALR; OP_C_BEQZ; OP_C_BNEZ] = false ->
  DecodedInstruction.is_control_flow (DecodedInstruction.from_instr i) = false.
Proof.
  unfold jump_ops, DecodedInstruction.from_instr, DecodedInstruction.one_of. cbn [existsb].
  rewrite !orb_false_iff. intros (-> & -> & -> & -> & -> & -> & -> & -> & _) (-> & -> & -> & -> & -> & -> & _).
  cbn [orb]. unfold DecodedInstruction.decode_u, DecodedInstruction.decode_i, DecodedInstruction.decode_r,
    DecodedInstruction.decode_mv, DecodedInstruction.decode_load.
  repeat (case_match; try done).
Qed.

Lemma fall_edge' d f : DecodedInstruction.is_control_flow d = false -> falls f -> edge_ok t d f.
Proof.
  unfold DecodedInstruction.is_control_flow. intros H. apply fall_edge; intros E; by rewrite E in H.
Qed.

Lemma standard_edge_ok e pc raw :
  In e isa_standard -> OpId.eqb (i_opid e) OP_MRET = false ->
  edge_ok t (DecodedInstruction.from_instr (decoded_of pc raw e)) (fun X => i_sem e X raw).
Proof.
  intros He Hm. destruct (DecodedInstruction.one_of (i_opid e) jump_ops) eqn:Hj.
  - apply jump_entries_ok; [|done]. destruct (standard_known e He) as [Hk|Hk]; [|done]. exfalso.
    assert (forall o, DecodedInstruction.one_of o jump_ops = true -> DecodedInstruction.one_of o known_ops = true) as H.
    { intros o (o' & Ho & E)%existsb_exists. apply existsb_exists. exists o'. split; [|done].
      cbn in Ho |- *. tauto. }
    by rewrite (H _ Hj) in Hk.
  - apply fall_edge'.
    + apply no_jump_kind; [done|]. cbn [decoded_of opid].
      assert (forallb (fun e => negb (DecodedInstruction.one_of (i_opid e)
        [OP_C_J; OP_C_JAL; OP_C_JR; OP_C_JALR; OP_C_BEQZ; OP_C_BNEZ])) isa_standard = true) as Hall
        by (vm_compute; reflexivity).
      rewrite forallb_forall in Hall. by apply negb_true_iff, Hall.
    + pose proof standard_falls as Hf. rewrite List.Forall_forall in Hf.
      destruct (Hf e He) as [H|H]; [|done]. unfold DecodedInstruction.one_of in *. cbn [existsb] in H.
      by rewrite Hm, Hj in H.
Qed.

(** Compressed instructions. *)
Lemma compressed_edge_ok e pc raw :
  In e isa_C ->
  edge_ok t (DecodedInstruction.from_instr (mkDecoded (c_opid e) pc 2 raw (c_args e raw)))
    (fun X => c_sem e X raw).
Proof.
  assert (forall taken, edge_ok t
    (mkView KBranch None (Some (cf_rs1' raw)) (Some 0) (imm_cb raw) 0 false)
    (fun X => cbranch_type taken X raw)) as Hbr.
  { intros. apply branch_edge. intros X pc0 size st pc'. cbn. case_match; intros [= <-]; auto. }
  assert (forall rd, edge_ok t (mkView KJal (Some rd) None None (imm_cj raw) 0 false)
    (op_jal rd (imm_cj raw))) as Hjal by (intros; by apply jal_edge).
  assert (forall rd, edge_ok t (mkView KJalr (Some rd) (Some (cf_rd raw)) None 0 0 false)
    (fun X => cjalr_type rd X raw)) as Hjalr.
  { intros. apply jalr_edge; [apply cf_rd_range|]. intros pc0 size st Hr. cbn. rewrite Z.add_0_r.
    by rewrite wrap_id. }
  assert (forall (o : OpId) args (f : effect), falls f ->
    DecodedInstruction.one_of o jump_ops = false ->
    DecodedInstruction.one_of o [OP_C_J; OP_C_JAL; OP_C_JR; OP_C_JALR; OP_C_BEQZ; OP_C_BNEZ] = false ->
    edge_ok t (DecodedInstruction.from_instr (mkDecoded o pc 2 raw args)) f) as Hfall
    by (intros; by apply fall_edge'; [apply no_jump_kind|]).
  unfold isa_C. intros He.
  repeat (entry He ltac:(first
    [ apply Hfall; [intros X pc0 size st pc' [= <-]; reflexivity | reflexivity | reflexivity]
    | apply Hfall; [intros X pc0 size st pc'; discriminate | reflexivity | reflexivity]
    | exact (Hjal 0) | exact (Hjal 1) | exact (Hjalr 0) | exact (Hjalr 1) | exact (Hbr _) ])).
  done.
Qed.
End entries.
