(* ===== verification/CfgWork.v ===== *)
(** * The worklist reaches a post-fixpoint

    When the worklist ends with nothing pending, the register states satisfy the
    data-flow inequations: the state after an instruction is below the state of
    each of its successors. *)

From S2P Require Import Prelude Xlen IR IRBuild IRSem IRFacts Isa Ext InstrTable RegistryCorrect TableFacts.
From S2P Require Import CfgData CfgScan CfgFlow CfgDomain CfgSound.
#[local] Open Scope word_scope.

(** ** The transfer function preserves well-formedness *)

Lemma read_readonly_range t addr size v :
  Forall segment_ok (ro_segments t) -> 0 <= size <= 8 ->
  InstructionTable.read_readonly t addr size = Ok (Some v) -> in_u 64 v.
Proof.
  intros Hok Hs. unfold InstructionTable.read_readonly.
  induction Hok as [|s l Hseg _ IH]; cbn [InstructionTable.read_from]; [done|].
  rewrite segment_read_spec by done. destruct (_ && _); [done|]. cbn [mbind result_bind].
  destruct (segment_value s addr size) as [v'|] eqn:E; [|apply IH]. intros [= <-].
  unfold segment_value in E. destruct (_ && _); [|done]. injection E as <-.
  destruct Hseg as [_ Hb].
  pose proof (from_le_bytes_range
    (take (Z.to_nat size) (drop (Z.to_nat (addr - ro_start s)) (ro_data s)))) as H.
  specialize (H ltac:(by apply Forall_take, Forall_drop)). rewrite length_take in H.
  destruct H as [H1 H2]. split; [done|]. eapply Z.lt_le_trans; [exact H2|].
  apply Z.pow_le_mono_r; lia.
Qed.

Lemma extend_loaded_range v w u : in_u 64 v -> in_u 64 (extend_loaded_value v w u).
Proof.
  intros Hv. unfold extend_loaded_value.
  assert (forall m k, 0 <= m < 2 ^ 64 -> 0 <= k < 2 ^ 64 -> in_u 64 (v &ᵇ m) /\ in_u 64 ((v &ᵇ m) |ᵇ k)) as H.
  { intros m k Hm Hk. assert (in_u 64 (v &ᵇ m)).
    { apply bound_land; [done..|lia]. }
    split; [done|]. by apply bound_lor. }
  repeat case_match; try done; by apply (H _ 0xFFFFFFFFFFFFFF00) || by apply (H _ 0xFFFFFFFFFFFF0000)
    || by apply (H _ 0xFFFFFFFF00000000).
Qed.

Lemma from_instr_width i : 0 <= load_width_bytes (DecodedInstruction.from_instr i) <= 8.
Proof.
  unfold DecodedInstruction.from_instr, DecodedInstruction.decode_u, DecodedInstruction.decode_i,
    DecodedInstruction.decode_r, DecodedInstruction.decode_mv, DecodedInstruction.decode_j,
    DecodedInstruction.decode_branch, DecodedInstruction.decode_load, DecodedInstruction.load_width.
  repeat (case_match; simplify_eq/=; try lia).
Qed.

Lemma transfer_wf t pc size d s s' :
  Forall segment_ok (ro_segments t) -> in_u 64 pc -> 0 <= load_width_bytes d <= 8 ->
  wf_regs s -> transfer t pc size d s = Ok s' -> wf_regs s'.
Proof.
  intros Hseg Hpc Hw Hs.
  assert (forall r v, in_u 64 v -> wf_regs (RegisterState.set_constant s r v)) as Hc
    by (intros; apply set_wf; [done | by apply wf_constant]).
  assert (forall r, wf_regs (RegisterState.set_unknown s r)) as Hu by (intros; by apply set_wf).
  assert (forall r, wf_value (RegisterState.get s r)) as Hg.
  { intros r. unfold RegisterState.get. repeat case_match; [done | by apply wf_constant | by apply at_index_wf]. }
  unfold transfer. destruct (d_kind d).
  - destruct (d_rd d); intros [= <-]; auto.
  - destruct (d_rd d); intros [= <-]; auto. apply Hc. by apply wrap_range.
  - destruct (d_rd d); intros [= <-]; auto. apply Hc, add_signed_range.
  - intros [= <-]. destruct (d_rd d) as [rd|], (d_rs1 d) as [rs1|]; try done. repeat case_match; auto.
    apply set_wf; [done|]. apply add_values_spec; [apply wf_constant, add_signed_range|].
    apply Forall_forall. intros x (y & -> & _)%list_elem_of_fmap. apply add_signed_range.
  - intros [= <-]. destruct (d_rd d) as [rd|], (d_rs1 d) as [rs1|], (d_rs2 d) as [rs2|]; try done.
    repeat case_match; auto.
    apply set_wf; [done|]. apply add_values_spec; [apply wf_constant; by apply wrap_range|].
    apply Forall_forall. intros x. unfold sums. rewrite list_elem_of_In, in_flat_map.
    intros (l1 & _ & (r1 & _ & Hx)%in_flat_map). destruct (_ && _); [done|].
    destruct Hx as [<-|[]]. by apply wrap_range.
  - intros [= <-]. destruct (d_rd d) as [rd|], (d_rs1 d) as [rs1|]; try done. by apply set_wf.
  - destruct (d_rd d); [|by intros [= <-]]. destruct (add_u 64 pc size) eqn:E; [|done]. intros [= <-].
    apply Hc. by apply add_u_inv in E as [-> ?].
  - destruct (d_rd d); [|by intros [= <-]]. destruct (add_u 64 pc size) eqn:E; [|done]. intros [= <-].
    apply Hc. by apply add_u_inv in E as [-> ?].
  - destruct (d_rd d) as [rd|], (d_rs1 d) as [rs1|]; try by intros [= <-].
    destruct (_ && _); [|by intros [= <-]]. destruct (values _); [by intros [= <-]|].
    destruct (InstructionTable.read_readonly _ _ _) as [[raw|]|] eqn:E; [| |done]; intros [= <-]; [|done].
    by eapply Hc, extend_loaded_range, read_readonly_range.
  - destruct (d_rd d); intros [= <-]; auto.
Qed.

(** ** The invariant *)

Section work.
Context (t : InstructionTable) (iter : gset Z -> list Z) (fc : FlowContext).
Hypothesis (Hiter : forall s x, x ∈ iter s <-> x ∈ s).
Hypothesis (Hseg : Forall segment_ok (ro_segments t)).
Hypothesis (Hwf : table_wf t).

(** The state [s] of [pc] has been propagated along the edges of [pc]. *)
Definition flowed (w : WorkState) (pc : Z) (s : RegisterState) : Prop :=
  forall instr, InstructionTable.get_at_pc t pc = Some instr ->
    InstructionTable.instruction_size_at_pc t pc <> 0 ->
    let d := DecodedInstruction.from_instr instr in
    let size := InstructionTable.instruction_size_at_pc t pc in
    exists succs u u' out,
      get_successors t fc pc size d s u = Ok (succs, u') /\ transfer t pc size d s = Ok out /\
      succs ⊆ default ∅ (successors w !! pc) /\
      forall target, target ∈ succs -> exists s', states w !! target = Some s' /\ regs_le out s'.

(** Later states are above earlier ones, and edges are kept. *)
Definition grows (w w' : WorkState) : Prop :=
  (forall pc s, states w !! pc = Some s -> exists s', states w' !! pc = Some s' /\ regs_le s s') /\
  (forall pc, default ∅ (successors w !! pc) ⊆ default ∅ (successors w' !! pc)).

Lemma grows_refl w : grows w w.
Proof. split; [|done]. intros pc s Hs. exists s. split; [done | apply regs_le_refl]. Qed.

Lemma grows_trans a b c : grows a b -> grows b c -> grows a c.
Proof.
  intros [H1 H2] [H3 H4]. split.
  - intros pc s (s' & Hs' & Hle)%H1. apply H3 in Hs' as (s'' & Hs'' & Hle'). exists s''.
    split; [done | by eapply regs_le_trans].
  - intros pc. etrans; [apply H2 | apply H4].
Qed.

Lemma flowed_grows w w' pc s : grows w w' -> flowed w pc s -> flowed w' pc s.
Proof.
  intros [H1 H2] Hf instr Hi Hz. destruct (Hf instr Hi Hz) as (succs & u & u' & out & Hg & Ht & Hsub & Hs).
  exists succs, u, u', out. split_and!; [done..| |].
  - etrans; [exact Hsub | apply H2].
  - intros target (s' & Hs' & Hle)%Hs. apply H1 in Hs' as (s'' & Hs'' & Hle'). exists s''.
    split; [done | by eapply regs_le_trans].
Qed.

(** [skip] excuses one address with a given state: the one being visited. *)
Record work_inv (skip : option (Z * RegisterState)) (w : WorkState) : Prop := {
  inv_wf pc s : states w !! pc = Some s -> wf_regs s;
  inv_queue pc : pc ∈ in_worklist w -> pc ∈ pending w;
  inv_flow pc s : states w !! pc = Some s ->
    pc ∈ pending w \/ flowed w pc s \/ skip = Some (pc, s)
}.

(** An update of the states that leaves the edges alone. *)
Lemma put_grows w target s pend inw unres :
  (forall s0, states w !! target = Some s0 -> regs_le s0 s) ->
  grows w (mkWork (<[target := s]> (states w)) pend inw (successors w) unres).
Proof.
  intros H. split; [|done]. intros pc s0 Hs0. cbn [states]. destruct (decide (pc = target)) as [->|Hne].
  - rewrite lookup_insert_eq. eauto.
  - rewrite lookup_insert_ne by done. exists s0. split; [done | apply regs_le_refl].
Qed.

Lemma enqueue_states w x : states (enqueue w x) = states w /\ successors (enqueue w x) = successors w.
Proof. unfold enqueue. by case_decide. Qed.

Lemma enqueue_pending w x :
  (forall pc, pc ∈ in_worklist w -> pc ∈ pending w) ->
  (forall pc, pc ∈ pending (enqueue w x) <-> pc = x \/ pc ∈ pending w) /\
  (forall pc, pc ∈ in_worklist (enqueue w x) -> pc ∈ pending (enqueue w x)).
Proof.
  intros Hq. unfold enqueue. case_decide as Hx.
  - split; [|done]. intros pc. split; [auto|]. intros [->|?]; auto.
  - cbn [pending in_worklist]. split; intros pc; rewrite elem_of_app, list_elem_of_singleton; [tauto|].
    rewrite elem_of_union, elem_of_singleton. naive_solver.
Qed.

Lemma propagate_inv skip out w target :
  wf_regs out -> work_inv skip w ->
  work_inv skip (propagate out w target) /\ grows w (propagate out w target) /\
  exists s', states (propagate out w target) !! target = Some s' /\ regs_le out s'.
Proof.
  intros Hout Hinv. unfold propagate.
  assert (forall s, wf_regs s -> (forall s0, states w !! target = Some s0 -> regs_le s0 s) -> regs_le out s ->
    let w' := enqueue (mkWork (<[target := s]> (states w)) (pending w) (in_worklist w) (successors w)
                         (unresolved_dynamic_jumps w)) target in
    work_inv skip w' /\ grows w w' /\ exists s', states w' !! target = Some s' /\ regs_le out s') as Hput.
  { intros s Hs Hle Ho w'. set (w0 := mkWork _ _ _ _ _) in w'.
    destruct (enqueue_states w0 target) as [Es Ee].
    destruct (enqueue_pending w0 target (inv_queue _ _ Hinv)) as [Hp Hq].
    assert (grows w w') as Hg.
    { pose proof (put_grows w target s (pending w) (in_worklist w) (unresolved_dynamic_jumps w) Hle) as [G1 G2].
      split; unfold w'; [rewrite Es; exact G1 | rewrite Ee; exact G2]. }
    split; [|split; [done|]].
    - split.
      + intros pc s'. unfold w'. rewrite Es. cbn [states w0]. destruct (decide (pc = target)) as [->|Hne].
        * rewrite lookup_insert_eq. congruence.
        * rewrite lookup_insert_ne by done. apply (inv_wf _ _ Hinv).
      + exact Hq.
      + intros pc s'. unfold w'. rewrite Es, Hp. cbn [states pending w0].
        destruct (decide (pc = target)) as [->|Hne]; [auto|]. rewrite lookup_insert_ne by done.
        intros [H|[H|H]]%(inv_flow _ _ Hinv); [auto | | auto]. right. left. by eapply flowed_grows.
    - exists s. unfold w'. rewrite Es. cbn [states w0]. by rewrite lookup_insert_eq. }
  destruct (states w !! target) as [existing|] eqn:Ht.
  - pose proof (inv_wf _ _ Hinv _ _ Ht) as Hex.
    destruct (RegisterState.merge existing out) as [merged changed] eqn:Em.
    destruct (merge_regs_le _ _ _ _ Hex Hout Em) as (Hm & Hle1 & Hle2 & Hsame). destruct changed.
    + apply Hput; [done| |done]. by intros s0 [= ->].
    + rewrite (Hsame eq_refl) in *. rewrite insert_id by done. destruct w; cbn in *.
      split_and!; [done | apply grows_refl | eauto].
  - apply Hput; [done.. | apply regs_le_refl].
Qed.

Lemma propagate_all skip out l : forall w,
  wf_regs out -> work_inv skip w ->
  let w' := foldl (propagate out) w l in
  work_inv skip w' /\ grows w w' /\
  forall target, target ∈ l -> exists s', states w' !! target = Some s' /\ regs_le out s'.
Proof.
  induction l as [|x l IH]; intros w Hout Hinv; cbn [foldl].
  { split_and!; [done | apply grows_refl | by intros ? ?%elem_of_nil]. }
  destruct (propagate_inv skip out w x Hout Hinv) as (H1 & H2 & s1 & Hs1 & Hle1).
  destruct (IH _ Hout H1) as (H3 & H4 & H5). split_and!; [done | by eapply grows_trans |].
  intros target [->|Hin]%elem_of_cons; [|auto].
  destruct (proj1 H4 _ _ Hs1) as (s2 & Hs2 & Hle2). exists s2. split; [done | by eapply regs_le_trans].
Qed.

Lemma pop_inv w pc rest s :
  pending w = pc :: rest -> work_inv None w -> states w !! pc = Some s ->
  work_inv (Some (pc, s)) (pop w pc rest) /\ grows w (pop w pc rest).
Proof.
  intros Hp Hinv Hs. split; [|split; [|done]; intros p s0 H0; exists s0; split; [done | apply regs_le_refl]].
  split; cbn [states pop pending in_worklist].
  - apply (inv_wf _ _ Hinv).
  - intros p [Hp1 Hp2]%elem_of_difference. apply (inv_queue _ _ Hinv) in Hp1. rewrite Hp in Hp1.
    apply elem_of_cons in Hp1 as [->|?]; [|done]. exfalso. apply Hp2. by apply elem_of_singleton.
  - intros p s0 H0. destruct (inv_flow _ _ Hinv p s0 H0) as [H|[H|H]]; [|auto|done].
    rewrite Hp in H. apply elem_of_cons in H as [->|?]; [|auto]. right. right. congruence.
Qed.

Lemma pc_range pc instr : InstructionTable.get_at_pc t pc = Some instr -> in_u 64 pc.
Proof.
  intros (k & -> & Hk)%get_at_pc_spec; [|done]. apply get_lt in Hk.
  destruct Hwf as (Hb & He & Hle & Hl). unfold InstructionTable.len in Hk. rewrite Hl, total_slots_lt in Hk.
  unfold in_u in *. lia.
Qed.

Lemma drop_skip pc s w : work_inv (Some (pc, s)) w -> flowed w pc s -> work_inv None w.
Proof.
  intros Hinv Hf. split; [apply (inv_wf _ _ Hinv) | apply (inv_queue _ _ Hinv)|].
  intros p s0 H0. destruct (inv_flow _ _ Hinv p s0 H0) as [H|[H|H]]; [auto..|]. simplify_eq. auto.
Qed.

(** A visit establishes the inequations of its address. *)
Lemma visit_inv w pc rest w' :
  pending w = pc :: rest -> work_inv None w -> visit t iter fc (pop w pc rest) pc = Ok w' ->
  work_inv None w' /\ grows w w'.
Proof.
  intros Hp Hinv. unfold visit. cbn [states pop]. destruct (states w !! pc) as [s|] eqn:Hs.
  2:{ intros [= <-]. split; [|split; [|done]; intros p s0 H0; exists s0; split; [done | apply regs_le_refl]].
      split; cbn [states pop pending in_worklist]; [apply (inv_wf _ _ Hinv)| |].
      - intros p [Hp1 Hp2]%elem_of_difference. apply (inv_queue _ _ Hinv) in Hp1. rewrite Hp in Hp1.
        apply elem_of_cons in Hp1 as [->|?]; [|done]. exfalso. apply Hp2. by apply elem_of_singleton.
      - intros p s0 H0. destruct (inv_flow _ _ Hinv p s0 H0) as [H|[H|H]]; [|auto|done].
        rewrite Hp in H. apply elem_of_cons in H as [->|?]; [congruence|auto]. }
  destruct (pop_inv w pc rest s Hp Hinv Hs) as [Hinv1 Hg1].
  assert (forall w', (forall instr, InstructionTable.get_at_pc t pc = Some instr ->
            InstructionTable.instruction_size_at_pc t pc <> 0 -> False) ->
          Ok (pop w pc rest) = Ok w' -> work_inv None w' /\ grows w w') as Hnone.
  { intros w1 Hno [= <-]. split; [|done]. eapply drop_skip; [done|].
    intros instr Hi Hz. destruct (Hno instr Hi Hz). }
  destruct (Z.eqb_spec (InstructionTable.instruction_size_at_pc t pc) 0) as [Hz|Hz]; [by apply Hnone|].
  destruct (InstructionTable.get_at_pc t pc) as [instr|] eqn:Hi; [|by apply Hnone]. clear Hnone.
  set (d := DecodedInstruction.from_instr instr). cbn [unresolved_dynamic_jumps pop].
  destruct (get_successors _ _ _ _ _ _ _) as [[succs u']|] eqn:Hsucc; [|done].
  destruct (transfer _ _ _ _ _) as [out|] eqn:Ht; [|done]. cbn [mbind result_bind]. intros [= <-].
  assert (wf_regs out) as Hout.
  { eapply transfer_wf; [done | by eapply pc_range | apply from_instr_width | | exact Ht].
    by eapply (inv_wf _ _ Hinv). }
  set (w0 := mkWork _ _ _ _ _).
  assert (work_inv (Some (pc, s)) w0) as Hinv0
    by (split; [apply (inv_wf _ _ Hinv1) | apply (inv_queue _ _ Hinv1) | apply (inv_flow _ _ Hinv1)]).
  destruct (propagate_all (Some (pc, s)) out (iter succs) w0 Hout Hinv0) as (H1 & H2 & H3).
  set (w1 := foldl _ _ _) in *.
  assert (grows w1 (add_edges w1 pc succs)) as Hg.
  { split; [intros p s0 H0; exists s0; split; [done | apply regs_le_refl]|]. intros p. cbn [successors add_edges].
    destruct (decide (p = pc)) as [->|]; [rewrite lookup_insert_eq; set_solver | by rewrite lookup_insert_ne]. }
  split; [|do 2 (eapply grows_trans; [|done]); exact Hg1].
  apply (drop_skip pc s).
  - split; [apply (inv_wf _ _ H1) | apply (inv_queue _ _ H1)|].
    intros p s0 [H|[H|H]]%(inv_flow _ _ H1); [by left | | by right; right].
    right. left. by eapply flowed_grows.
  - intros instr' Hi' _. rewrite Hi in Hi'. injection Hi' as <-.
    exists succs, (unresolved_dynamic_jumps w), u', out. split_and!; [done..| |].
    + cbn [successors add_edges]. rewrite lookup_insert_eq. set_solver.
    + intros target Htg. apply H3. by apply Hiter.
Qed.

Lemma worklist_loop_inv budget : forall w w',
  work_inv None w -> worklist_loop t iter fc budget w = Ok w' -> work_inv None w' /\ grows w w'.
Proof.
  induction budget as [|n IH]; intros w w' Hinv; cbn [worklist_loop];
    (destruct (pending w) as [|pc rest] eqn:Hp; [intros [= <-]; split; [done | apply grows_refl]|]).
  { intros [= <-]. split; [done | apply grows_refl]. }
  destruct (visit _ _ _ _ _) as [w1|] eqn:Hv; [|done]. cbn [mbind result_bind]. intros Hl.
  destruct (visit_inv _ _ _ _ Hp Hinv Hv) as [H1 H2]. destruct (IH _ _ H1 Hl) as [H3 H4].
  split; [done | by eapply grows_trans].
Qed.

(** The seeds. *)
Lemma seed_inv l : forall w,
  (forall pc s, states w !! pc = Some s -> s = RegisterState.new /\ pc ∈ pending w) ->
  (forall pc, pc ∈ in_worklist w -> pc ∈ pending w /\ states w !! pc = Some RegisterState.new) ->
  let w' := foldl seed w l in
  (forall pc s, states w' !! pc = Some s -> s = RegisterState.new /\ pc ∈ pending w') /\
  (forall pc, pc ∈ in_worklist w' -> pc ∈ pending w' /\ states w' !! pc = Some RegisterState.new) /\
  (forall pc, pc ∈ l \/ pc ∈ in_worklist w -> pc ∈ in_worklist w').
Proof.
  induction l as [|x l IH]; intros w Hs Hq; cbn [foldl].
  { split_and!; [done..|]. by intros pc [?%elem_of_nil|?]. }
  assert (forall pc, pc = x \/ pc ∈ in_worklist w -> pc ∈ in_worklist (seed w x)) as Hin.
  { intros pc H. unfold seed. case_decide; [by destruct H as [->|?]|]. cbn [in_worklist]. set_solver. }
  destruct (IH (seed w x)) as (H1 & H2 & H3).
  - unfold seed. case_decide as Hx; [done|]. cbn [states pending]. intros pc s.
    rewrite elem_of_app, list_elem_of_singleton. destruct (decide (pc = x)) as [->|Hne].
    + rewrite lookup_insert_eq. intros [= <-]. auto.
    + rewrite lookup_insert_ne by done. intros [? ?]%Hs. auto.
  - unfold seed. case_decide as Hx; [done|]. cbn [states pending in_worklist]. intros pc.
    rewrite elem_of_app, list_elem_of_singleton, elem_of_union, elem_of_singleton.
    destruct (decide (pc = x)) as [->|Hne].
    + rewrite lookup_insert_eq. auto.
    + rewrite lookup_insert_ne by done. intros [?|[? ?]%Hq]; [done|auto].
  - split_and!; [done..|]. intros pc H. apply H3. rewrite elem_of_cons in H. destruct H as [[->|?]|?]; auto.
Qed.

(** The result of the worklist, if nothing is pending: a state above the initial
    one for every entry and internal target, closed under the edges. *)
Lemma worklist_fixpoint w :
  worklist t iter fc = Ok w ->
  pending w = [] ->
  (forall pc, pc ∈ fc_entries fc ∪ fc_internal fc ->
     exists s, states w !! pc = Some s /\ regs_le RegisterState.new s) /\
  (forall pc s, states w !! pc = Some s -> wf_regs s /\ flowed w pc s).
Proof.
  unfold worklist. destruct (sub_u _ _ _); [|done]. cbn [mbind result_bind]. intros Hl Hp.
  set (w0 := foldl seed _ _) in Hl.
  destruct (seed_inv (iter (fc_entries fc) ++ iter (fc_internal fc)) (mkWork ∅ [] ∅ ∅ ∅)) as (H1 & H2 & H3);
    [by intros ? ?; cbn; rewrite lookup_empty | by intros ?; cbn; set_solver |]. fold w0 in H1, H2, H3.
  assert (work_inv None w0) as Hinv0.
  { split.
    - intros pc s [-> _]%H1. apply new_wf.
    - by intros pc [? _]%H2.
    - intros pc s [_ ?]%H1. auto. }
  destruct (worklist_loop_inv _ _ _ Hinv0 Hl) as [Hinv [Hg _]]. split.
  - intros pc Hpc. apply Hg. apply H2, H3. left. rewrite elem_of_app, !Hiter. by apply elem_of_union.
  - intros pc s Hs. split; [by eapply (inv_wf _ _ Hinv)|].
    destruct (inv_flow _ _ Hinv pc s Hs) as [H|[H|H]]; [|done..]. rewrite Hp in H. by apply elem_of_nil in H.
Qed.
End work.
