(* ===== verification/CfgPath.v ===== *)
(** * Executions follow the edges of the analysis *)

From S2P Require Import Prelude Xlen IR IRBuild IRSem IRFacts Isa Ext Registry InstrTable RiscvSpec.
From S2P Require Import Base CExt CSpec BaseSpec RegistryCorrect TableFacts.
From S2P Require Import CfgData CfgScan CfgFlow CfgDomain CfgSound CfgEdges CfgWork.
#[local] Open Scope word_scope.

(** ** Programs, by the manual

    The effect of the instruction in the bytes at [pc].  [mret], whose target is
    the content of a CSR, is left out. *)
Definition manual_effect (X : Xlen) (bytes : list Z) (pc : Z) : option (state -> state * next) :=
  if (length bytes <? 2)%nat then None
  else if negb (from_le_bytes (take 2 bytes) mod 4 =? 3) then
    (fun e => c_sem e X (from_le_bytes (take 2 bytes)) pc 2) <$> lookup_c X (from_le_bytes (take 2 bytes))
  else if (4 <=? length bytes)%nat then
    e ← lookup_isa X isa_standard (from_le_bytes (take 4 bytes));
    if OpId.eqb (i_opid e) OP_MRET then None else Some (i_sem e X (from_le_bytes (take 4 bytes)) pc 4)
  else None.

(** What the analysis knows of an instruction covers its effect. *)
Lemma decoded_flow_ok X t bytes pc i f :
  Forall (in_u 8) bytes -> not_reserved X bytes = true -> in_u 64 pc ->
  ExtensionRegistry.decode (ExtensionRegistry.standard X) bytes pc = Some i ->
  manual_effect X bytes pc = Some f ->
  exists g : effect, f = g X pc (di_size i) /\
    transfer_ok X t (DecodedInstruction.from_instr i) g /\
    edge_ok t (DecodedInstruction.from_instr i) g.
Proof.
  intros Hb Hr Hpc. rewrite standard_decode_spec by done. unfold isa_decode, manual_effect.
  destruct (_ <? _)%nat; [done|]. destruct (negb _).
  - intros [= <-]. unfold c_decoded. destruct (lookup_c X _) as [e|] eqn:E; [|done]. intros [= <-].
    apply lookup_c_Some in E as (He & _). eexists (fun X => c_sem e X _). split_and!; [reflexivity| |].
    + by apply compressed_transfer_ok.
    + by apply compressed_edge_ok.
  - destruct (_ <=? _)%nat; [|done]. unfold TableDecode.table_decode.
    destruct (lookup_isa _ _ _) as [e|] eqn:E; [|done]. intros [= <-]. cbn [mbind option_bind].
    destruct (OpId.eqb _ _) eqn:Hm; [done|]. intros [= <-].
    apply lookup_isa_Some in E as (He & _). eexists (fun X => i_sem e X _). split_and!; [reflexivity| |].
    + by apply standard_transfer_ok.
    + by apply standard_edge_ok.
Qed.

(** ** Leaders *)

Lemma insert_if_valid_sub t s x : s ⊆ insert_if_valid t s x.
Proof. unfold insert_if_valid. case_match; set_solver. Qed.

Lemma leaders_of_spec t pc s l l' :
  leaders_of t pc s l = Ok l' ->
  l ⊆ l' /\
  forall i, InstructionTable.get_at_pc t pc = Some i -> InstructionTable.instruction_size_at_pc t pc <> 0 ->
    DecodedInstruction.is_control_flow (DecodedInstruction.from_instr i) = true -> s ⊆ l'.
Proof.
  unfold leaders_of. destruct (Z.eqb_spec (InstructionTable.instruction_size_at_pc t pc) 0).
  { intros [= <-]. done. }
  destruct (InstructionTable.get_at_pc t pc) as [i|]; [|by intros [= <-]].
  destruct (DecodedInstruction.is_control_flow _) eqn:Hc.
  - destruct (add_u _ _ _); [|done]. intros [= <-].
    pose proof (insert_if_valid_sub t (s ∪ l) a). split; [set_solver|]. intros. set_solver.
  - intros [= <-]. split; [done|]. intros i' [= <-] _. congruence.
Qed.

Lemma compute_leaders_spec t succs entries internal returns l :
  compute_leaders t succs entries internal returns = Ok l ->
  entries ∪ internal ∪ returns ⊆ l /\
  forall pc s i, succs !! pc = Some s -> InstructionTable.get_at_pc t pc = Some i ->
    InstructionTable.instruction_size_at_pc t pc <> 0 ->
    DecodedInstruction.is_control_flow (DecodedInstruction.from_instr i) = true -> s ⊆ l.
Proof.
  unfold compute_leaders. revert l.
  apply (map_fold_weak_ind (fun acc m => forall l, acc = Ok l -> entries ∪ internal ∪ returns ⊆ l /\
    forall pc s i, m !! pc = Some s -> InstructionTable.get_at_pc t pc = Some i ->
      InstructionTable.instruction_size_at_pc t pc <> 0 ->
      DecodedInstruction.is_control_flow (DecodedInstruction.from_instr i) = true -> s ⊆ l)).
  - intros l [= <-]. split; [done|]. intros pc s i. by rewrite lookup_empty.
  - intros pc s m acc Hm IH l. destruct acc as [l0|]; [|done]. cbn [mbind result_bind]. intros Hl.
    destruct (IH l0 eq_refl) as [H1 H2]. destruct (leaders_of_spec _ _ _ _ _ Hl) as [H3 H4].
    split; [etrans; [exact H1 | exact H3]|]. intros pc' s' i. destruct (decide (pc' = pc)) as [->|Hne].
    + rewrite lookup_insert_eq. intros [= <-]. apply H4.
    + rewrite lookup_insert_ne by done. intros. etrans; [by eapply H2 | exact H3].
Qed.

(** ** Executions *)

Section path.
Context (t : InstructionTable) (iter : gset Z -> list Z) (fc : FlowContext) (w : WorkState).
Context (code : list Z) (base : Z).

(** What is assumed of a step: the machine has the constants of the read-only
    segments, a load has one base address at most, and a jump that the analysis
    could not resolve goes to one of the addresses it guesses. *)
Definition predicted (pc : Z) (st : state) (pc' : Z) : Prop :=
  ro_agrees Rv64 t st /\
  forall i s, InstructionTable.get_at_pc t pc = Some i -> states w !! pc = Some s ->
    let d := DecodedInstruction.from_instr i in
    single_base d s /\
    (resolved d s = false -> forall u succs u',
      get_successors t fc pc (InstructionTable.instruction_size_at_pc t pc) d s u = Ok (succs, u') -> pc' ∈ succs).

(** One instruction of the program, from an address of the table to another. *)
Definition step (pc : Z) (st : state) (pc' : Z) (st' : state) : Prop :=
  exists f, manual_effect Rv64 (drop (Z.to_nat (pc - base)) code) pc = Some f /\
    f st = (st', NPc pc') /\
    InstructionTable.is_valid_pc t pc = true /\ InstructionTable.is_valid_pc t pc' = true.

(** States reachable from an entry point or an internal target. *)
Inductive reachable : Z -> state -> Prop :=
| reachable_start pc st : pc ∈ fc_entries fc ∪ fc_internal fc -> reachable pc st
| reachable_step pc st pc' st' :
    reachable pc st -> step pc st pc' st' -> predicted pc st pc' -> reachable pc' st'.

Hypothesis (Hcode : Forall (in_u 8) code) (Hbase : in_u 64 base).
Hypothesis (Ht : InstructionTable.from_bytes Rv64 (ExtensionRegistry.standard Rv64) code base = Some (Ok t)).
Hypothesis (Hiter : forall s x, x ∈ iter s <-> x ∈ s).
Hypothesis (Hw : worklist t iter fc = Ok w) (Hdone : pending w = []).

Lemma valid_entry pc :
  InstructionTable.is_valid_pc t pc = true ->
  exists i, InstructionTable.get_at_pc t pc = Some i /\ in_u 64 pc /\
    InstructionTable.instruction_size_at_pc t pc = di_size i /\ di_size i <> 0 /\
    ExtensionRegistry.decode (ExtensionRegistry.standard Rv64) (drop (Z.to_nat (pc - base)) code) pc = Some i.
Proof.
  pose proof (standard_sized Rv64) as Hr. destruct (from_bytes_inv _ _ _ _ _ Hbase Ht) as [He ->].
  intros Hv. assert (is_Some (InstructionTable.get_at_pc (swept Rv64 (ExtensionRegistry.standard Rv64) code base) pc))
    as [i Hi].
  { unfold InstructionTable.is_valid_pc, InstructionTable.get_at_pc in *.
    destruct (InstructionTable.pc_to_index _ pc); [|done]. cbn. by apply is_valid_index_get. }
  exists i. split; [done|]. pose proof (swept_wf Rv64 (ExtensionRegistry.standard Rv64) code base Hbase He) as Hwf.
  assert (in_u 64 pc) as Hpc by (by eapply pc_range). split; [done|].
  assert (InstructionTable.instruction_size_at_pc (swept Rv64 (ExtensionRegistry.standard Rv64) code base) pc
          = di_size i) as Hsz.
  { pose proof Hi as (k & Hk & Hg)%bind_Some. unfold InstructionTable.instruction_size_at_pc. rewrite Hk.
    by apply (swept_size_raw Rv64 (ExtensionRegistry.standard Rv64) code base k i Hg). }
  split; [done|]. apply swept_get_pc in Hi as (o & -> & _ & Hd); [|done..].
  destruct (registry_sized _ _ _ _ Hr Hd) as (n & Hn & _ & (Hsz' & _)).
  split; [lia|]. by replace (Z.to_nat (base + Z.of_nat o - base)) with o by lia.
Qed.

Lemma fixpoint :
  (forall pc, pc ∈ fc_entries fc ∪ fc_internal fc ->
     exists s, states w !! pc = Some s /\ regs_le RegisterState.new s) /\
  (forall pc s, states w !! pc = Some s -> wf_regs s /\ flowed t fc w pc s).
Proof.
  pose proof (standard_sized Rv64) as Hr. destruct (from_bytes_inv _ _ _ _ _ Hbase Ht) as [He Et].
  apply (worklist_fixpoint t iter fc Hiter); [| |done..].
  - rewrite Et. constructor; [|constructor]. split; [apply Hbase | done].
  - rewrite Et. by apply swept_wf.
Qed.

(** A step from a state the analysis covers: the edge is there and the next state
    is covered. *)
Lemma step_covered pc st pc' st' s :
  states w !! pc = Some s -> gamma Rv64 s (get_reg st) -> step pc st pc' st' -> predicted pc st pc' ->
  pc' ∈ default ∅ (successors w !! pc) /\
  exists s', states w !! pc' = Some s' /\ gamma Rv64 s' (get_reg st').
Proof.
  intros Hs Hg (f & Hf & Hst & Hv & Hv') [Hro Hpred].
  destruct (valid_entry pc Hv) as (i & Hi & Hpc & Hsz & Hnz & Hd).
  destruct fixpoint as [_ Hfix]. destruct (Hfix pc s Hs) as [Hws Hfl]. rewrite <- Hsz in Hnz.
  destruct (Hfl i Hi Hnz) as (succs & u & u' & out & Hsucc & Htr & Hsub & Hnext).
  destruct (Hpred i s Hi Hs) as [Hone Hres].
  destruct (decoded_flow_ok Rv64 t _ pc i f ltac:(by apply Forall_drop) eq_refl Hpc Hd Hf) as (g & -> & Htok & Heok).
  rewrite Hsz in Hsucc, Htr, Hres.
  destruct (Htok pc (di_size i) s out st Hws Hpc Hg Hro Hone Htr) as [Hwo Hgo]. rewrite Hst in Hgo.
  assert (pc' ∈ succs) as Hin.
  { destruct (resolved (DecodedInstruction.from_instr i) s) eqn:Er; [|by eapply Hres].
    eapply (Heok fc pc (di_size i) s st u succs u' pc'); try done. by rewrite Hst. }
  split; [by apply Hsub|]. destruct (Hnext _ Hin) as (s' & Hs' & Hle). exists s'. split; [done|].
  by eapply gamma_le.
Qed.

(** Reachable states are covered. *)
Lemma reachable_covered pc st :
  reachable pc st -> exists s, states w !! pc = Some s /\ gamma Rv64 s (get_reg st).
Proof.
  induction 1 as [pc st Hin|pc st pc' st' _ (s & Hs & Hg) Hstep Hp].
  - destruct (proj1 fixpoint pc Hin) as (s & Hs & Hle). exists s. split; [done|].
    eapply gamma_le; [exact Hle|]. by apply gamma_new.
  - by destruct (step_covered pc st pc' st' s) as [_ ?].
Qed.

(** So is every step from a reachable state an edge; the target of a jump or a
    branch starts a basic block. *)
Lemma steps_on_edges pc st pc' st' leaders :
  reachable pc st -> step pc st pc' st' -> predicted pc st pc' ->
  compute_leaders t (successors w) (fc_entries fc) (fc_internal fc) (fc_return_sites fc) = Ok leaders ->
  pc' ∈ default ∅ (successors w !! pc) /\
  ((exists i, InstructionTable.get_at_pc t pc = Some i /\
     DecodedInstruction.is_control_flow (DecodedInstruction.from_instr i) = true) -> pc' ∈ leaders).
Proof.
  intros (s & Hs & Hg)%reachable_covered Hstep Hp Hl.
  destruct (step_covered pc st pc' st' s Hs Hg Hstep Hp) as [Hin _]. split; [done|].
  intros (i & Hi & Hc). apply compute_leaders_spec in Hl as [_ Hl].
  destruct (valid_entry pc) as (i' & Hi' & _ & Hsz & Hnz & _); [by destruct Hstep as (? & ? & ? & ? & ?)|]. rewrite <- Hsz in Hnz.
  destruct (successors w !! pc) as [ss|] eqn:E; [|by apply elem_of_empty in Hin].
  by eapply (Hl pc ss i).
Qed.
End path.
