(* ===== verification/ScanFacts.v ===== *)
(** * Walking over the table

    The linear pass ends on every table; on a table whose instructions do not
    overlap it runs its body on each instruction once, in order. *)

From S2P Require Import Prelude Xlen IR IRBuild Isa Ext Registry InstrTable RegistryCorrect TableFacts.
From S2P Require Import CfgData CfgScan.
#[local] Open Scope word_scope.

(** Sizes are bytes. *)
Definition sizes_ok (t : InstructionTable) : Prop := Forall (fun s => 0 <= s_size s) (slots t).

(** The slots of a well-formed table: each instruction has its size, ends in the
    table and does not reach into another one. *)
Record table_ok (t : InstructionTable) : Prop := {
  ok_wf : table_wf t;
  ok_entry k i : InstructionTable.get t k = Some i ->
    InstructionTable.instruction_size t k = di_size i /\
    (di_size i = 2 \/ di_size i = 4 /\ InstructionTable.get t (S k) = None) /\
    base_address t + 2 * Z.of_nat k + di_size i <= end_address t
}.

Lemma size_nonneg t pc : sizes_ok t -> 0 <= InstructionTable.instruction_size_at_pc t pc.
Proof.
  intros H. unfold InstructionTable.instruction_size_at_pc, InstructionTable.instruction_size.
  destruct (InstructionTable.pc_to_index t pc) as [k|]; [|done].
  destruct (slots t !! k) as [s|] eqn:E; [|done]. exact (Forall_lookup_1 _ _ _ _ H E).
Qed.

(** ** Termination *)

Lemma scan_loop_total {A} t (body : Z -> Z -> DecodedInstr -> A -> result A) fuel : forall pc acc,
  sizes_ok t -> (Z.to_nat (end_address t - pc) < fuel)%nat -> is_Some (scan_loop t body fuel pc acc).
Proof.
  induction fuel as [|fuel IH]; intros pc acc Hs Hf; [lia|]. cbn [scan_loop].
  destruct (Z.ltb_spec pc (end_address t)) as [Hlt|]; [|by eexists].
  assert (forall n acc, 0 < n -> is_Some (match add_u 64 pc n with
            | Ok pc' => scan_loop t body fuel pc' acc | Panic => Some Panic end)) as Hstep.
  { intros n acc' Hn. destruct (add_u 64 pc n) as [pc'|] eqn:E; [|by eexists].
    apply add_u_inv in E as [-> _]. apply IH; [done|]. lia. }
  pose proof (size_nonneg t pc Hs) as Hn.
  destruct (negb _); [by apply Hstep|]. destruct (Z.eqb_spec (InstructionTable.instruction_size_at_pc t pc) 0);
    [by apply Hstep|].
  destruct (InstructionTable.get_at_pc t pc); [|apply Hstep; lia].
  destruct (body _ _ _ _); [|by eexists]. apply Hstep. lia.
Qed.

Lemma scan_total {A} t (body : Z -> Z -> DecodedInstr -> A -> result A) acc :
  sizes_ok t -> is_Some (scan t body acc).
Proof. intros Hs. apply scan_loop_total; [done|]. unfold scan_fuel. lia. Qed.

(** ** What is visited *)

(** The instructions from slot [k] on, with their addresses. *)
Definition entries_from (t : InstructionTable) (k n : nat) : list (Z * DecodedInstr) :=
  omap (fun k => (fun i => (base_address t + 2 * Z.of_nat k, i)) <$> InstructionTable.get t k) (seq k n).

(** The instructions of the table. *)
Definition entries (t : InstructionTable) : list (Z * DecodedInstr) := entries_from t 0 (InstructionTable.len t).

Fixpoint run_all {A} (body : Z -> Z -> DecodedInstr -> A -> result A) (l : list (Z * DecodedInstr)) (acc : A)
    : result A :=
  match l with
  | [] => Ok acc
  | (pc, i) :: l' => acc' ← body pc (di_size i) i acc; run_all body l' acc'
  end.

Lemma entries_from_cons t k n :
  entries_from t k (S n) =
  match InstructionTable.get t k with
  | Some i => (base_address t + 2 * Z.of_nat k, i) :: entries_from t (S k) n
  | None => entries_from t (S k) n
  end.
Proof. unfold entries_from. cbn [seq omap list_omap]. by destruct (InstructionTable.get t k). Qed.

Section visited.
Context (t : InstructionTable) (Hok : table_ok t) (Hroom : in_u 64 (end_address t + 1)).

Lemma slot_lt k : (k < InstructionTable.len t)%nat <-> base_address t + 2 * Z.of_nat k < end_address t.
Proof.
  destruct (ok_wf _ Hok) as (_ & _ & Hle & Hl). unfold InstructionTable.len. rewrite Hl, total_slots_lt. lia.
Qed.

Lemma index_at k : (k < InstructionTable.len t)%nat ->
  InstructionTable.pc_to_index t (base_address t + 2 * Z.of_nat k) = Some k.
Proof. intros Hk. apply pc_to_index_spec; [apply (ok_wf _ Hok)|]. split; [done|]. by apply slot_lt. Qed.

Lemma valid_at k : (k < InstructionTable.len t)%nat ->
  InstructionTable.is_valid_pc t (base_address t + 2 * Z.of_nat k) =
  bool_decide (is_Some (InstructionTable.get t k)).
Proof.
  intros Hk. unfold InstructionTable.is_valid_pc. rewrite index_at by done.
  apply Bool.eq_iff_eq_true. by rewrite is_valid_index_get, bool_decide_eq_true.
Qed.

Lemma scan_loop_entries {A} (body : Z -> Z -> DecodedInstr -> A -> result A) fuel : forall k acc,
  (Z.to_nat (end_address t - (base_address t + 2 * Z.of_nat k)) < fuel)%nat ->
  scan_loop t body fuel (base_address t + 2 * Z.of_nat k) acc =
  Some (run_all body (entries_from t k (InstructionTable.len t - k)) acc).
Proof.
  destruct (ok_wf _ Hok) as (Hb & He & _ & _).
  induction fuel as [|fuel IH]; intros k acc Hf; [lia|]. cbn [scan_loop].
  destruct (Z.ltb_spec (base_address t + 2 * Z.of_nat k) (end_address t)) as [Hlt|Hge].
  2:{ destruct (Nat.sub_0_le (InstructionTable.len t) k) as [_ Hz].
      rewrite Hz; [done|]. apply Nat.nlt_ge. rewrite slot_lt. lia. }
  pose proof (proj2 (slot_lt k) Hlt) as Hk. rewrite valid_at by done.
  replace (InstructionTable.len t - k)%nat with (S (InstructionTable.len t - S k)) by lia.
  rewrite entries_from_cons. destruct (InstructionTable.get t k) as [i|] eqn:Hi.
  - rewrite bool_decide_eq_true_2 by done. cbn [negb run_all].
    destruct (ok_entry _ Hok k i Hi) as (Hs & Hsz & Hend).
    assert (InstructionTable.instruction_size_at_pc t (base_address t + 2 * Z.of_nat k) = di_size i) as ->.
    { unfold InstructionTable.instruction_size_at_pc. by rewrite index_at. }
    unfold InstructionTable.get_at_pc. rewrite index_at by done. cbn [mbind option_bind]. rewrite Hi.
    destruct (Z.eqb_spec (di_size i) 0); [lia|]. destruct (body _ _ _ _) as [acc'|]; [|done].
    rewrite add_u_ok by (unfold in_u in *; lia). cbn [mbind result_bind].
    destruct Hsz as [->|[-> Hnone]].
    + replace (_ + 2) with (base_address t + 2 * Z.of_nat (S k)) by lia. apply IH. lia.
    + replace (_ + 4) with (base_address t + 2 * Z.of_nat (S (S k))) by lia. rewrite IH by lia.
      destruct (decide (S k < InstructionTable.len t)%nat) as [Hk2|Hk2].
      * replace (InstructionTable.len t - S k)%nat with (S (InstructionTable.len t - S (S k))) by lia.
        by rewrite entries_from_cons, Hnone.
      * by replace (InstructionTable.len t - S k)%nat with 0%nat by lia;
          replace (InstructionTable.len t - S (S k))%nat with 0%nat by lia.
  - rewrite bool_decide_eq_false_2 by by intros []. cbn [negb].
    rewrite add_u_ok by (unfold in_u in *; lia).
    replace (_ + 2) with (base_address t + 2 * Z.of_nat (S k)) by lia. apply IH. lia.
Qed.

Lemma scan_entries {A} (body : Z -> Z -> DecodedInstr -> A -> result A) acc :
  scan t body acc = Some (run_all body (entries t) acc).
Proof.
  unfold scan, entries. rewrite <- (Nat.sub_0_r (InstructionTable.len t)).
  replace (base_address t) with (base_address t + 2 * Z.of_nat 0) at 1 by lia.
  apply scan_loop_entries. unfold scan_fuel. lia.
Qed.

Lemma elem_of_entries pc i : (pc, i) ∈ entries t <-> InstructionTable.get_at_pc t pc = Some i.
Proof.
  rewrite get_at_pc_spec by apply (ok_wf _ Hok). unfold entries, entries_from. rewrite list_elem_of_omap. split.
  - intros (k & _ & (j & Hj & [= -> ->])%fmap_Some). eauto.
  - intros (k & -> & Hk). exists k. split; [|by rewrite Hk]. apply elem_of_seq. apply get_lt in Hk. lia.
Qed.
End visited.

(** ** Tables built from code *)

Section built.
Context (X : Xlen) (r : ExtensionRegistry) {Hr : SizedRegistry r}.

(** After a boundary, boundaries are past its instruction. *)
Lemma reach_past code base a o o' :
  reach X r code base a o -> reach X r code base a o' -> (o < o')%nat ->
  (next_offset X r code base o <= o')%nat.
Proof.
  induction 1 as [a|a o Ha Hre IH]; intros Hre' Hlt.
  - inversion Hre'; subst; [lia|]. by eapply reach_le.
  - inversion Hre'; subst; [|by apply IH]. apply reach_le in Hre; [|done].
    pose proof (next_offset_gt X r code base o'). lia.
Qed.

Lemma swept_ok code base :
  in_u 64 base -> in_u 64 (base + Z.of_nat (length code)) -> table_ok (swept X r code base).
Proof.
  intros Hb He. split; [by apply swept_wf|]. intros k i Hi. pose proof Hi as (Hre & Hlen & Hd)%(swept_get X r).
  split; [by eapply swept_size_raw|]. cbn [Nat.add base_address end_address swept] in *.
  unfold boundary_mark in Hd. destruct (ExtensionRegistry.decode _ _ _) as [j|] eqn:E; [|done].
  injection Hd as <-. destruct (registry_sized _ _ _ _ Hr E) as (n & Hn & Hl & (Hs & _)).
  rewrite length_drop in Hl. split; [|lia]. destruct Hn as [-> | ->]; [lia|]. right. split; [lia|].
  destruct (InstructionTable.get _ (S k)) as [i'|] eqn:Hk; [|done]. apply (swept_get X r) in Hk as (Hre' & _).
  apply (reach_past _ _ _ _ _ Hre) in Hre'; [|lia]. unfold next_offset in Hre'. rewrite E in Hre'. lia.
Qed.

Lemma from_bytes_ok code base t :
  in_u 64 base -> InstructionTable.from_bytes X r code base = Some (Ok t) -> table_ok t.
Proof. intros Hb Ht. destruct (from_bytes_inv X r _ _ _ Hb Ht) as [He ->]. by apply swept_ok. Qed.
End built.

Lemma table_ok_sizes t : table_ok t -> forall k i, InstructionTable.get t k = Some i ->
  InstructionTable.instruction_size t k = di_size i.
Proof. intros Hok k i Hi. by destruct (ok_entry _ Hok k i Hi). Qed.
