(* ===== verification/CfgProps.v ===== *)
(** * Properties of the control-flow analysis *)

From S2P Require Import Prelude Xlen IR IRBuild IRSem IRFacts Isa Ext Registry InstrTable RiscvSpec.
From S2P Require Import Base CExt CSpec BaseSpec RegistryCorrect TableFacts.
From S2P Require Import CfgData CfgScan CfgFlow CfgDomain CfgSound CfgEdges CfgWork CfgPath ScanFacts.
#[local] Open Scope word_scope.

(** C35. The merge of two register values is the union of the sets of constants they
    stand for, or unknown when it has more than sixteen elements; so it is
    commutative, associative and idempotent, and the least value above both. *)
Theorem register_value_merge a b c :
  wf_value a -> wf_value b -> wf_value c ->
  wf_value (RegisterValue.merge a b) /\
  value_set (RegisterValue.merge a b) = bounded_union (value_set a) (value_set b) /\
  RegisterValue.merge a b = RegisterValue.merge b a /\
  RegisterValue.merge a (RegisterValue.merge b c) = RegisterValue.merge (RegisterValue.merge a b) c /\
  RegisterValue.merge a a = a /\
  value_le a (RegisterValue.merge a b) /\ value_le b (RegisterValue.merge a b) /\
  (value_le a c -> value_le b c -> value_le (RegisterValue.merge a b) c).
Proof.
  intros Ha Hb Hc. destruct (merge_spec a b Ha Hb) as [H1 H2]. destruct (merge_upper_bound a b Ha Hb) as [H3 H4].
  split_and!; [exact H1 | exact H2 | by apply merge_comm | by apply merge_assoc | by apply merge_idemp
    | exact H3 | exact H4 | by apply merge_least].
Qed.

Lemma register_value_merge_witness :
  RegisterValue.merge (RegisterValue.constant 5) (RegisterValue.constant 3) =
  RegisterValue.merge (RegisterValue.constant 3) (RegisterValue.constant 5).
Proof.
  apply (register_value_merge (RegisterValue.constant 5) (RegisterValue.constant 3) RegisterValue.unknown).
  - apply wf_constant. split; vm_compute; congruence.
  - apply wf_constant. split; vm_compute; congruence.
  - apply wf_unknown.
Defined.

(** ** A loaded program

    Memory with a program in it has what the analysis reads from the segments of
    its table. *)
Definition code_mem (code : list Z) (base addr : Z) : Z := default 0 (code !! Z.to_nat (addr - base)).

Lemma load_le_bytes X m l : forall addr,
  (forall k b, l !! k = Some b -> m (wrap (VALUE X) (addr + Z.of_nat k)) = b /\ in_u 8 b) ->
  load_le X m addr (length l) = from_le_bytes l.
Proof.
  induction l as [|b l IH]; intros addr H; [done|]. cbn [length load_le from_le_bytes].
  destruct (H 0%nat b eq_refl) as [Hb Hr]. rewrite Z.add_0_r in Hb. rewrite Hb, wrap_id by done.
  rewrite IH; [cbn; lia|]. intros k c Hk. replace (addr + 1 + Z.of_nat k) with (addr + Z.of_nat (S k)) by lia.
  by apply H.
Qed.

Lemma loaded_agrees code base t st :
  Forall (in_u 8) code -> in_u 64 base ->
  InstructionTable.from_bytes Rv64 (ExtensionRegistry.standard Rv64) code base = Some (Ok t) ->
  s_mem st = code_mem code base -> ro_agrees Rv64 t st.
Proof.
  intros Hc Hb Ht Hm. pose proof (standard_sized Rv64) as Hr.
  destruct (from_bytes_inv _ _ _ _ _ Hb Ht) as [He ->]. intros addr size v Hsz.
  unfold InstructionTable.read_readonly. cbn [ro_segments swept InstructionTable.read_from].
  rewrite segment_read_spec by (done || (split; [apply Hb | done])). destruct (_ && _); [done|].
  cbn [mbind result_bind]. unfold segment_value, RoSegment.contains. cbn [RoSegment.new ro_start ro_end ro_data].
  destruct (_ && _) eqn:E; [|done]. intros [= <-].
  apply andb_true_iff in E as [[[H1%Z.leb_le H2%Z.ltb_lt]%andb_true_iff H3%Z.leb_le]%andb_true_iff H4%Z.leb_le].
  unfold in_u, in_reg in *. change (VALUE Rv64) with 64. split; [lia|].
  set (l := take _ _). assert (length l = Z.to_nat size) as Hl by (unfold l; rewrite length_take, length_drop; lia).
  rewrite <- Hl. apply load_le_bytes. intros k b Hk. change (VALUE Rv64) with 64.
  pose proof (lookup_lt_Some _ _ _ Hk) as Hlt. unfold l in Hk. rewrite lookup_take_Some, lookup_drop in Hk.
  destruct Hk as [Hk _]. rewrite wrap_id by (unfold in_u; lia). rewrite Hm. unfold code_mem.
  replace (Z.to_nat (addr + Z.of_nat k - base)) with (Z.to_nat (addr - base) + k)%nat by lia. rewrite Hk.
  split; [done|]. exact (Forall_lookup_1 _ _ _ _ Hc Hk).
Qed.

(** A program that jumps through a register, loaded into memory. *)
Definition jump_code : list Z :=
  [0x97; 0x02; 0x00; 0x00;   (* 00  auipc x5, 0      *)
   0x67; 0x80; 0xC2; 0x00;   (* 04  jalr  x0, 12(x5) *)
   0x6F; 0x00; 0x00; 0x00;   (* 08  jal   x0, 08     *)
   0x6F; 0x00; 0x00; 0x00].  (* 0c  jal   x0, 0c     *)

Definition jump_table : InstructionTable := swept Rv64 (ExtensionRegistry.standard Rv64) jump_code 0x80000000.

Definition jump_flow : FlowContext :=
  match collect_potential_targets jump_table Rv64, build_call_return_map jump_table with
  | Some (Ok c), Some (Ok m) =>
      match flow_context c m with Ok fc => fc | Panic => mkFlow ∅ ∅ ∅ [] ∅ ∅ end
  | _, _ => mkFlow ∅ ∅ ∅ [] ∅ ∅
  end.

Definition jump_work : WorkState :=
  match worklist jump_table elements jump_flow with Ok w => w | Panic => mkWork ∅ [] ∅ ∅ ∅ end.

Definition jump_leaders : gset Z :=
  match compute_leaders jump_table (successors jump_work) (fc_entries jump_flow) (fc_internal jump_flow)
          (fc_return_sites jump_flow) with Ok l => l | Panic => ∅ end.

Definition jump_state (regs : Z -> Z) : state :=
  mkState regs (fun _ => 0) (code_mem jump_code 0x80000000) (fun _ => 0) 0 0 0 0 0x80000000 0 0 0 0.

Lemma jump_code_ok : Forall (in_u 8) jump_code.
Proof. repeat (constructor; [split; vm_compute; congruence|]). constructor. Qed.

Lemma jump_built :
  InstructionTable.from_bytes Rv64 (ExtensionRegistry.standard Rv64) jump_code 0x80000000 = Some (Ok jump_table).
Proof. vm_compute. reflexivity. Qed.

Lemma jump_agrees regs : ro_agrees Rv64 jump_table (jump_state regs).
Proof.
  apply (loaded_agrees jump_code 0x80000000); [exact jump_code_ok | split; vm_compute; congruence
    | exact jump_built | reflexivity].
Qed.






(** C36. The linear passes over a table terminate on every table; on a table whose
    instructions do not overlap, as the one built from code, they run their body on
    each instruction once, in the order of addresses. *)
Theorem scan_correct {A} t (body : Z -> Z -> DecodedInstr -> A -> result A) acc :
  (sizes_ok t -> is_Some (scan t body acc)) /\
  (table_ok t -> in_u 64 (end_address t + 1) ->
   scan t body acc = Some (run_all body (entries t) acc) /\
   forall pc i, (pc, i) ∈ entries t <-> InstructionTable.get_at_pc t pc = Some i).
Proof.
  split; [apply scan_total|]. intros Hok Hr. split; [by apply scan_entries|]. intros. by apply elem_of_entries.
Qed.

Lemma scan_correct_witness :
  scan jump_table (fun pc _ _ n => Ok (n + pc)) 0 = Some (run_all (fun pc _ _ n => Ok (n + pc)) (entries jump_table) 0).
Proof.
  apply (scan_correct jump_table (fun pc _ _ n => Ok (n + pc)) 0).
  - apply swept_ok; [apply standard_sized | split; vm_compute; congruence | split; vm_compute; congruence].
  - split; vm_compute; congruence.
Defined.


(** ** 32-bit addresses

    The values of the analysis have 64 bits and [lui] sign-extends to all of them,
    so that on a 32-bit machine an address in the upper half never matches. *)

Definition high_code : list Z :=
  [0xB7; 0x02; 0x00; 0x80;   (* 00  lui  x5, 0x80000 *)
   0x67; 0x80; 0xC2; 0x00;   (* 04  jalr x0, 12(x5)  *)
   0x13; 0x00; 0x00; 0x00;   (* 08  addi x0, x0, 0   *)
   0x93; 0x80; 0x10; 0x00;   (* 0c  addi x1, x1, 1   *)
   0x6F; 0x00; 0x00; 0x00].  (* 10  jal  x0, 10      *)

Definition high_table : InstructionTable := swept Rv32 (ExtensionRegistry.standard Rv32) high_code 0x80000000.

Definition high_result : ControlFlowResult :=
  match analyze high_table elements Rv32 with
  | Some (Ok r) => r
  | _ => mkFlowResult ∅ ∅ ∅ ∅ ∅ ∅
  end.

(** On RV32 the jump of this program goes to [0x8000000C]; the analysis takes its
    base for known and finds no successor, and no block starts at the target. *)
Theorem rv32_high_jump_lost :
  analyze high_table elements Rv32 = Some (Ok high_result) /\
  manual_effect Rv32 (drop 4 high_code) 0x80000004 = Some (jalr Rv32 0xC28067 0x80000004 4) /\
  (forall st, get_reg st 5 = 0x80000000 -> (jalr Rv32 0xC28067 0x80000004 4 st).2 = NPc 0x8000000C) /\
  cf_successors high_result !! 0x80000004 = Some ∅ /\ 0x8000000C ∉ cf_leaders high_result.
Proof.
  split_and!; [vm_compute; reflexivity | reflexivity | | vm_compute; reflexivity |].
  - intros st H. unfold jalr. cbn [snd]. change (f_rs1 0xC28067) with 5. by rewrite H.
  - apply (bool_decide_unpack _). vm_compute. exact I.
Qed.
