(* ===== verification/BlockTable.v ===== *)
(** * The block table ([crates/rvr-cfg/src/block_table.rs])

    Basic blocks cut at the leaders of the analysis, and the transforms that
    merge, duplicate and chain them.  The hash maps of the table are [gmap]s; the
    order in which the code iterates over them is left open by the standard
    library and is the parameter [order]. *)

From stdpp Require Import sorting.
From S2P Require Import Prelude Xlen IR IRBuild Isa Ext Registry InstrTable CfgData CfgScan CfgFlow.
#[local] Open Scope word_scope.

Record BasicBlock := mkBlock {
  b_start : Z;
  b_end : Z;
  instruction_count : nat;
  last_pc : Z
}.

#[export] Instance BasicBlock_eq_dec : EqDecision BasicBlock.
Proof. solve_decision. Defined.

Module BasicBlock.
Definition new (start end_ : Z) (count : nat) (last : Z) : BasicBlock := mkBlock start end_ count last.
Definition size (b : BasicBlock) : result Z := sub_u 64 (b_end b) (b_start b).
End BasicBlock.

(** Ranges [(start, end)] of code. *)
Notation range := (Z * Z)%type.

Record BlockTable := mkBlocks {
  blocks : list BasicBlock;
  absorbed_to_merged : gmap Z Z;
  block_continuations : gmap Z (list range);
  taken_inlines : gmap Z range;
  bt_predecessors : gmap Z (gset Z);
  bt_successors : gmap Z (gset Z);
  unresolved_jumps : gset Z;
  call_return_map : gmap Z (gset Z);
  block_to_function : gmap Z Z;
  instruction_table : InstructionTable
}.

Definition DEFAULT_SUPERBLOCK_DEPTH : nat := 100.
Definition DEFAULT_TAIL_DUP_SIZE : nat := 100.
Definition DEFAULT_TAKEN_INLINE_SIZE : nat := 50.

(** The orders of iteration over the hash collections of the table. *)
Record Order := mkOrder {
  iter_set : gset Z -> list Z;
  iter_absorbed : gmap Z Z -> list (Z * Z);
  iter_chains : gmap Z (list Z) -> list (Z * list Z);
  iter_keys : gmap Z (list range) -> list Z
}.

(** An order visits each element once. *)
Record order_ok (o : Order) : Prop := {
  order_set s : iter_set o s ≡ₚ elements s;
  order_absorbed m : iter_absorbed o m ≡ₚ map_to_list m;
  order_chains m : iter_chains o m ≡ₚ map_to_list m;
  order_keys m : iter_keys o m ≡ₚ (map_to_list m).*1
}.

(** The order in which [gmap] lists its elements. *)
Definition list_order : Order :=
  mkOrder elements map_to_list map_to_list (fun m => (map_to_list m).*1).

Module BlockTable.

Definition empty (t : InstructionTable) : BlockTable := mkBlocks [] ∅ ∅ ∅ ∅ ∅ ∅ ∅ ∅ t.

Definition with_blocks (bt : BlockTable) (l : list BasicBlock) : BlockTable :=
  mkBlocks l (absorbed_to_merged bt) (block_continuations bt) (taken_inlines bt) (bt_predecessors bt)
    (bt_successors bt) (unresolved_jumps bt) (call_return_map bt) (block_to_function bt) (instruction_table bt).

Definition with_mappings (bt : BlockTable) (absorbed : gmap Z Z) (conts : gmap Z (list range)) : BlockTable :=
  mkBlocks (blocks bt) absorbed conts (taken_inlines bt) (bt_predecessors bt) (bt_successors bt)
    (unresolved_jumps bt) (call_return_map bt) (block_to_function bt) (instruction_table bt).

Definition with_inlines (bt : BlockTable) (m : gmap Z range) : BlockTable :=
  mkBlocks (blocks bt) (absorbed_to_merged bt) (block_continuations bt) m (bt_predecessors bt)
    (bt_successors bt) (unresolved_jumps bt) (call_return_map bt) (block_to_function bt) (instruction_table bt).

(** ** One block per instruction

    [is_valid_pc] implies that the slot has an instruction, so that the pass is
    that of [scan]. *)

Definition push_linear (pc size : Z) (_ : DecodedInstr) (l : list BasicBlock) : result (list BasicBlock) :=
  e ← add_u 64 pc size; mret (l ++ [BasicBlock.new pc e 1 pc]).

Definition linear (t : InstructionTable) : run BlockTable :=
  match scan t push_linear [] with
  | Some (Ok l) => Some (Ok (with_blocks (empty t) l))
  | Some Panic => Some Panic
  | None => None
  end.

(** ** Blocks from leaders *)

Section create.
Context (t : InstructionTable) (registry : ExtensionRegistry) (leaders : gset Z).

(** The inner loop: [(pc, instruction_count, last_pc)] when it stops. *)
Fixpoint block_loop (fuel : nat) (block_start max_end pc : Z) (count : nat) (last : Z)
    : run (Z * nat * Z) :=
  match fuel with
  | O => None
  | S fuel =>
      if (pc <? max_end) && (pc <? end_address t) then
        if negb (InstructionTable.is_valid_pc t pc) then Some (Ok (pc, count, last))
        else
          let size := InstructionTable.instruction_size_at_pc t pc in
          if size =? 0 then Some (Ok (pc, count, last))
          else
            let continue_ : run (Z * nat * Z) :=
              match add_u 64 pc size with
              | Panic => Some Panic
              | Ok next_pc =>
                  if bool_decide (next_pc ∈ leaders) && negb (next_pc =? block_start)
                  then Some (Ok (next_pc, S count, pc))
                  else block_loop fuel block_start max_end next_pc (S count) pc
              end in
            match InstructionTable.get_at_pc t pc with
            | Some instr =>
                match ExtensionRegistry.lift registry instr with
                | Panic => Some Panic
                | Ok ir =>
                    if Terminator.is_control_flow (terminator ir)
                    then Some (e ← add_u 64 pc size; mret (e, S count, pc))
                    else continue_
                end
            | None => continue_
            end
      else Some (Ok (pc, count, last))
  end.

(** The body of the outer loop, for a leader and the next one. *)
Definition create_block (block_start : Z) (next : option Z) : run (option BasicBlock) :=
  if negb (InstructionTable.is_valid_pc t block_start) then Some (Ok None)
  else
    let max_end := Z.min (default (end_address t) next) (end_address t) in
    match block_loop (S (Z.to_nat (max_end - block_start))) block_start max_end block_start 0 block_start with
    | Some (Ok (pc, count, last)) =>
        Some (Ok (if (0 <? count)%nat && (block_start <? pc)
                  then Some (BasicBlock.new block_start pc count last) else None))
    | Some Panic => Some Panic
    | None => None
    end.

Fixpoint create_blocks (sorted : list Z) : run (list BasicBlock) :=
  match sorted with
  | [] => Some (Ok [])
  | block_start :: rest =>
      match create_block block_start (head rest), create_blocks rest with
      | Some (Ok b), Some (Ok l) => Some (Ok (option_list b ++ l))
      | None, _ => None
      | Some Panic, _ => Some Panic
      | _, r => r
      end
  end.

Definition create_blocks_from_leaders : run (list BasicBlock) :=
  create_blocks (sort (elements leaders)).
End create.

(** [from_instruction_table] with [build_blocks]. *)
Definition from_instruction_table (o : Order) (X : Xlen) (t : InstructionTable) (registry : ExtensionRegistry)
    : run BlockTable :=
  match analyze t (iter_set o) X with
  | Some (Ok a) =>
      match create_blocks_from_leaders t registry (cf_leaders a) with
      | Some (Ok l) =>
          Some (Ok (mkBlocks l ∅ ∅ ∅ (cf_predecessors a) (cf_successors a) (cf_unresolved a)
                      (cf_call_return_map a) (cf_block_to_function a) t))
      | Some Panic => Some Panic
      | None => None
      end
  | Some Panic => Some Panic
  | None => None
  end.

(** ** Accessors *)

Definition len (bt : BlockTable) : nat := length (blocks bt).
Definition is_empty (bt : BlockTable) : bool := (length (blocks bt) =? 0)%nat.
Definition get (bt : BlockTable) (index : nat) : option BasicBlock := blocks bt !! index.

(** [blocks.iter().enumerate().map(|(i, b)| (b.start, i)).collect()] *)
Definition start_to_idx (l : list BasicBlock) : gmap Z nat :=
  foldl (fun m p => <[b_start p.2 := p.1]> m) ∅ (imap pair l).

(** [blocks.iter().map(|b| (b.last_pc, b.start)).collect()] *)
Definition last_pc_to_block_start (l : list BasicBlock) : gmap Z Z :=
  foldl (fun m b => <[last_pc b := b_start b]> m) ∅ l.

Section transforms.
Context (registry : ExtensionRegistry).

(** [registry.lift(instruction_table.get_at_pc(pc)).terminator] *)
Definition terminator_at (bt : BlockTable) (pc : Z) : result (option Terminator) :=
  match InstructionTable.get_at_pc (instruction_table bt) pc with
  | Some instr => ir ← ExtensionRegistry.lift registry instr; mret (Some (terminator ir))
  | None => Ok None
  end.

(** ** Merging blocks with their only successor *)

Definition get_merge_target (bt : BlockTable) (b : BasicBlock) : result (option Z) :=
  term ← terminator_at bt (last_pc b);
  mret (
    target_pc ← (match term with
                 | Some (Fall target) => target
                 | Some (Jump target) => Some target
                 | _ => None
                 end : option Z);
    if bool_decide (target_pc ∈ entry_points (instruction_table bt)) then None
    else
      preds ← (bt_predecessors bt !! target_pc : option (gset Z));
      if negb (size preds =? 1)%nat || negb (bool_decide (last_pc b ∈ preds)) then None
      else Some target_pc).

Fixpoint find_absorbed (bt : BlockTable) (l : list BasicBlock) (absorbed : gset Z) : result (gset Z) :=
  match l with
  | [] => Ok absorbed
  | b :: l' =>
      if bool_decide (b_start b ∈ absorbed) then find_absorbed bt l' absorbed
      else
        target ← get_merge_target bt b;
        find_absorbed bt l' (match target with Some x => {[x]} ∪ absorbed | None => absorbed end)
  end.

(** The continuation chain of a block: the blocks absorbed into it, in order. *)
Fixpoint merge_chain (bt : BlockTable) (absorbed : gset Z) (idx : gmap Z nat) (fuel : nat)
    (current : BasicBlock) : run (list BasicBlock) :=
  match fuel with
  | O => None
  | S fuel =>
      match get_merge_target bt current with
      | Panic => Some Panic
      | Ok (Some target_pc) =>
          if bool_decide (target_pc ∈ absorbed) then
            match idx !! target_pc with
            | Some target_idx =>
                match blocks bt !! target_idx with
                | Some target_block =>
                    match merge_chain bt absorbed idx fuel target_block with
                    | Some (Ok l) => Some (Ok (target_block :: l))
                    | r => r
                    end
                | None => Some Panic
                end
            | None => Some (Ok [])
            end
          else Some (Ok [])
      | Ok None => Some (Ok [])
      end
  end.

(** What the loop accumulates: the merged blocks and the two maps. *)
Definition MergeAcc : Type := list BasicBlock * gmap Z Z * gmap Z (list range).

Definition block_range (b : BasicBlock) : range := (b_start b, b_end b).

(** One block with its chain. *)
Definition merge_one (b : BasicBlock) (chain : list BasicBlock) (acc : MergeAcc) : MergeAcc :=
  let '(merged, absorbed_to, conts) := acc in
  (merged ++ [BasicBlock.new (b_start b) (b_end b)
                (foldl (fun n c => n + instruction_count c)%nat (instruction_count b) chain)
                (foldl (fun _ c => last_pc c) (last_pc b) chain)],
   foldl (fun m c => <[b_start c := b_start b]> m) absorbed_to chain,
   match chain with [] => conts | _ => <[b_start b := map block_range chain]> conts end).

Fixpoint merge_loop (bt : BlockTable) (absorbed : gset Z) (idx : gmap Z nat) (l : list BasicBlock)
    (acc : MergeAcc) : run MergeAcc :=
  match l with
  | [] => Some (Ok acc)
  | b :: l' =>
      if bool_decide (b_start b ∈ absorbed) then merge_loop bt absorbed idx l' acc
      else
        match merge_chain bt absorbed idx (S (length (blocks bt))) b with
        | Some (Ok chain) => merge_loop bt absorbed idx l' (merge_one b chain acc)
        | Some Panic => Some Panic
        | None => None
        end
  end.

Definition merge_blocks (bt : BlockTable) : run (nat * BlockTable) :=
  match blocks bt with
  | [] => Some (Ok (0%nat, bt))
  | _ =>
      match find_absorbed bt (blocks bt) ∅ with
      | Panic => Some Panic
      | Ok absorbed =>
          if decide (absorbed = ∅) then Some (Ok (0%nat, bt))
          else
            match merge_loop bt absorbed (start_to_idx (blocks bt)) (blocks bt) ([], ∅, ∅) with
            | Some (Ok (merged, absorbed_to, conts)) =>
                Some (Ok ((length (blocks bt) - length merged)%nat,
                          with_blocks (with_mappings bt absorbed_to conts) merged))
            | Some Panic => Some Panic
            | None => None
            end
      end
  end.

(** ** Duplicating tails *)

Definition block_ends_with_fall (bt : BlockTable) (b : BasicBlock) : result bool :=
  term ← terminator_at bt (last_pc b);
  mret (match term with Some (Fall _) => true | _ => false end).

Definition pred_is_unconditional_jump (bt : BlockTable) (pred_pc : Z) : result bool :=
  term ← terminator_at bt pred_pc;
  mret (match term with Some (Jump _) => true | _ => false end).

(** [iter().all(..)] stops at the first failure. *)
Fixpoint all_jumps (bt : BlockTable) (l : list Z) : result bool :=
  match l with
  | [] => Ok true
  | x :: l' => j ← pred_is_unconditional_jump bt x; if (j : bool) then all_jumps bt l' else Ok false
  end.

Section ordered.
Context (o : Order).

Definition is_tail_candidate (bt : BlockTable) (max_dup_size : nat) (b : BasicBlock) : result bool :=
  if bool_decide (b_start b ∈ entry_points (instruction_table bt)) then Ok false
  else if (max_dup_size <? instruction_count b)%nat then Ok false
  else
    match bt_predecessors bt !! b_start b with
    | None => Ok false
    | Some preds =>
        if (size preds <? 2)%nat then Ok false
        else
          falls ← block_ends_with_fall bt b;
          if (falls : bool) then all_jumps bt (iter_set o preds) else Ok false
    end.

Fixpoint collect_candidates (bt : BlockTable) (max_dup_size : nat) (l : list BasicBlock) (acc : gset Z)
    : result (gset Z) :=
  match l with
  | [] => Ok acc
  | b :: l' =>
      c ← is_tail_candidate bt max_dup_size b;
      collect_candidates bt max_dup_size l' (if (c : bool) then {[b_start b]} ∪ acc else acc)
  end.

Definition collect_tail_duplicate_candidates (bt : BlockTable) (max_dup_size : nat) : result (gset Z) :=
  collect_candidates bt max_dup_size (blocks bt) ∅.

(** [b.1.cmp(&a.1).then(a.0.cmp(&b.0))]: explicit predecessors first, then by address. *)
Definition pred_le (a b : Z * bool) : Prop :=
  if Bool.eqb a.2 b.2 then a.1 <= b.1 else a.2 = true.
#[global] Instance pred_le_dec a b : Decision (pred_le a b).
Proof. unfold pred_le. destruct (Bool.eqb _ _); apply _. Defined.

Fixpoint filter_preds (bt : BlockTable) (starts : gmap Z Z) (l : list Z) : result (list (Z * bool)) :=
  match l with
  | [] => Ok []
  | pred_pc :: l' =>
      p ← (match starts !! pred_pc with
           | None => Ok None
           | Some pred_start =>
               term ← terminator_at bt pred_pc;
               mret (match term with
                     | Some (Jump _) | Some (Branch _ _ _ _) => Some (pred_start, true)
                     | Some (Fall _) => Some (pred_start, false)
                     | _ => None
                     end)
           end : result (option (Z * bool)));
      r ← filter_preds bt starts l';
      mret (option_list p ++ r)
  end.

Definition collect_tail_duplicate_predecessors (bt : BlockTable) (preds : gset Z) (starts : gmap Z Z)
    : result (list Z) :=
  l ← filter_preds bt starts (iter_set o preds);
  mret (map fst (merge_sort pred_le l)).

(** [self.block_continuations.entry(start).or_default().push(r)] *)
Definition push_continuation (m : gmap Z (list range)) (start : Z) (r : range) : gmap Z (list range) :=
  <[start := default [] (m !! start) ++ [r]]> m.

Definition apply_tail_duplication (bt : BlockTable) (dup_start : Z) (dup_range : range) (valid_preds : list Z)
    : BlockTable :=
  with_mappings bt
    (match valid_preds with
     | [] => absorbed_to_merged bt
     | p :: _ => <[dup_start := p]> (absorbed_to_merged bt)
     end)
    (foldl (fun m p => push_continuation m p dup_range) (block_continuations bt) valid_preds).

Fixpoint duplicate_loop (idx : gmap Z nat) (starts : gmap Z Z) (l : list Z) (bt : BlockTable)
    : result BlockTable :=
  match l with
  | [] => Ok bt
  | dup_start :: l' =>
      bt ← (match idx !! dup_start, bt_predecessors bt !! dup_start with
            | Some dup_idx, Some preds =>
                match blocks bt !! dup_idx with
                | None => Panic
                | Some dup_block =>
                    valid_preds ← collect_tail_duplicate_predecessors bt preds starts;
                    mret (if decide (valid_preds = []) then bt
                          else apply_tail_duplication bt dup_start (block_range dup_block) valid_preds)
                end
            | _, _ => Ok bt
            end : result BlockTable);
      duplicate_loop idx starts l' bt
  end.

Definition drop_blocks (l : list BasicBlock) (gone : gset Z) : list BasicBlock :=
  filter (fun b => b_start b ∉ gone) l.

Definition tail_duplicate (bt : BlockTable) (max_dup_size : nat) : result (nat * BlockTable) :=
  match blocks bt with
  | [] => Ok (0%nat, bt)
  | _ =>
      to_duplicate ← collect_tail_duplicate_candidates bt max_dup_size;
      if decide (to_duplicate = ∅) then mret (0%nat, bt)
      else
        bt' ← duplicate_loop (start_to_idx (blocks bt)) (last_pc_to_block_start (blocks bt))
                (iter_set o to_duplicate) bt;
        let new_blocks := drop_blocks (blocks bt') to_duplicate in
        mret ((length (blocks bt') - length new_blocks)%nat, with_blocks bt' new_blocks)
  end.

(** ** Superblocks *)

Record SuperblockContext := mkContext {
  x_entry_points : list Z;
  x_start_to_idx : gmap Z nat;
  x_merge_targets : gset Z
}.

Definition maybe_inline_taken_path (bt : BlockTable) (b : BasicBlock) (taken_pc : Z) (absorbed : gset Z)
    (c : SuperblockContext) : result (option (Z * range)) :=
  if bool_decide (taken_pc ∈ x_entry_points c) || negb (bool_decide (is_Some (x_start_to_idx c !! taken_pc)))
     || bool_decide (taken_pc ∈ absorbed) || bool_decide (taken_pc ∈ x_merge_targets c)
  then Ok None
  else
    match bt_predecessors bt !! taken_pc with
    | None => Ok None
    | Some preds =>
        if negb (size preds =? 1)%nat then Ok None
        else
          match x_start_to_idx c !! taken_pc ≫= (blocks bt !!.) with
          | None => Panic
          | Some taken_block =>
              if (DEFAULT_TAKEN_INLINE_SIZE <? instruction_count taken_block)%nat then Ok None
              else
                term ← terminator_at bt (last_pc taken_block);
                mret (match term with
                      | None | Some (Branch _ _ _ _) => None
                      | Some _ => Some (last_pc b, block_range taken_block)
                      end)
          end
    end.

(** The chain of blocks absorbed from [current_pc] on, with the new [absorbed];
    [depth] is [max_depth - depth]. *)
Fixpoint build_superblock_chain (bt : BlockTable) (heads : gset Z) (c : SuperblockContext) (depth : nat)
    (current_pc : Z) (absorbed : gset Z) : result (list Z * gset Z) :=
  match depth with
  | O => Ok ([], absorbed)
  | S depth =>
      if bool_decide (current_pc ∈ absorbed) || bool_decide (current_pc ∈ x_entry_points c) then Ok ([], absorbed)
      else
        match x_start_to_idx c !! current_pc with
        | None => Ok ([], absorbed)
        | Some current_idx =>
            if bool_decide (current_pc ∈ x_merge_targets c) || bool_decide (current_pc ∈ heads)
            then Ok ([], absorbed)
            else if match bt_predecessors bt !! current_pc with
                    | Some preds => (1 <? size preds)%nat
                    | None => false
                    end
            then Ok ([], absorbed)
            else
              match blocks bt !! current_idx with
              | None => Panic
              | Some current_block =>
                  term ← terminator_at bt (last_pc current_block);
                  match term with
                  | None => Ok ([], absorbed)
                  | Some term =>
                      let absorbed := {[current_pc]} ∪ absorbed in
                      match (match term with
                             | Fall target => Some (default (b_end current_block) target)
                             | Jump target => Some target
                             | _ => None
                             end) with
                      | Some next =>
                          '(chain, absorbed) ← build_superblock_chain bt heads c depth next absorbed;
                          mret (current_pc :: chain, absorbed)
                      | None => mret ([current_pc], absorbed)
                      end
                  end
              end
        end
  end.

(** What [collect_superblock_chains] accumulates. *)
Record SuperblockPlan := mkPlan {
  p_absorbed : gset Z;
  p_heads : gset Z;
  p_chains : gmap Z (list Z);
  p_inlines : list (Z * range)
}.

Definition plan_block (bt : BlockTable) (c : SuperblockContext) (max_depth : nat) (b : BasicBlock)
    (p : SuperblockPlan) : result SuperblockPlan :=
  if bool_decide (b_start b ∈ p_absorbed p) || bool_decide (b_start b ∈ x_merge_targets c) then Ok p
  else
    term ← terminator_at bt (last_pc b);
    match term with
    | Some (Branch _ taken_pc _ _) =>
        inline ← maybe_inline_taken_path bt b taken_pc (p_absorbed p) c;
        let p := mkPlan (p_absorbed p) (p_heads p) (p_chains p) (p_inlines p ++ option_list inline) in
        let fall_pc := b_end b in
        if bool_decide (fall_pc ∈ x_entry_points c) || negb (bool_decide (is_Some (x_start_to_idx c !! fall_pc)))
        then mret p
        else
          let heads := {[b_start b]} ∪ p_heads p in
          '(chain, absorbed) ← build_superblock_chain bt heads c max_depth fall_pc (p_absorbed p);
          mret (mkPlan absorbed heads
                  (match chain with [] => p_chains p | _ => <[b_start b := chain]> (p_chains p) end)
                  (p_inlines p))
    | _ => Ok p
    end.

Fixpoint collect_superblock_chains (bt : BlockTable) (c : SuperblockContext) (max_depth : nat)
    (l : list BasicBlock) (p : SuperblockPlan) : result SuperblockPlan :=
  match l with
  | [] => Ok p
  | b :: l' => p ← plan_block bt c max_depth b p; collect_superblock_chains bt c max_depth l' p
  end.

(** The body of [apply_superblock_chains] for one absorbed block. *)
Definition absorb_into (idx : gmap Z nat) (head_start : Z) (bt : BlockTable) (absorbed_start : Z)
    : result BlockTable :=
  match idx !! absorbed_start ≫= (blocks bt !!.) with
  | None => Panic
  | Some b =>
      Ok (with_mappings bt (<[absorbed_start := head_start]> (absorbed_to_merged bt))
            (push_continuation (block_continuations bt) head_start (block_range b)))
  end.

Fixpoint apply_chain (idx : gmap Z nat) (head_start : Z) (chain : list Z) (bt : BlockTable)
    : result BlockTable :=
  match chain with
  | [] => Ok bt
  | x :: l => bt ← absorb_into idx head_start bt x; apply_chain idx head_start l bt
  end.

Fixpoint apply_superblock_chains (idx : gmap Z nat) (chains : list (Z * list Z)) (bt : BlockTable)
    : result BlockTable :=
  match chains with
  | [] => Ok bt
  | (head_start, chain) :: l =>
      bt ← apply_chain idx head_start chain bt; apply_superblock_chains idx l bt
  end.

Definition form_superblocks (bt : BlockTable) (max_depth : nat) : result (nat * BlockTable) :=
  match blocks bt with
  | [] => Ok (0%nat, bt)
  | _ =>
      let idx := start_to_idx (blocks bt) in
      let c := mkContext (entry_points (instruction_table bt)) idx
                 (list_to_set (map snd (map_to_list (absorbed_to_merged bt)))) in
      p ← collect_superblock_chains bt c max_depth (blocks bt) (mkPlan ∅ ∅ ∅ []);
      let bt := with_inlines bt (foldl (fun m i => <[i.1 := i.2]> m) (taken_inlines bt) (p_inlines p)) in
      if decide (p_absorbed p = ∅) then mret (0%nat, bt)
      else
        bt' ← apply_superblock_chains idx (iter_chains o (p_chains p)) bt;
        let new_blocks := drop_blocks (blocks bt') (p_absorbed p) in
        mret ((length (blocks bt') - length new_blocks)%nat, with_blocks bt' new_blocks)
  end.

(** ** Stale mappings *)

(** The chain from [current]: [Some (Some target)] when it ends in a remaining
    block, [Some None] when it is broken or cyclic. *)
Fixpoint follow (m : gmap Z Z) (remaining : gset Z) (fuel : nat) (current : Z) (visited : gset Z)
    : option (option Z) :=
  match fuel with
  | O => None
  | S fuel =>
      if decide (current ∈ visited) then Some None
      else if decide (current ∈ remaining) then Some (Some current)
      else
        match m !! current with
        | Some next => follow m remaining fuel next ({[current]} ∪ visited)
        | None => Some None
        end
  end.

(** The lists [to_update] and [to_remove]. *)
Fixpoint stale (m : gmap Z Z) (remaining : gset Z) (l : list (Z * Z)) : option (list (Z * Z) * list Z) :=
  match l with
  | [] => Some ([], [])
  | (absorbed_pc, target_pc) :: l' =>
      if decide (target_pc ∈ remaining) then stale m remaining l'
      else
        r ← follow m remaining (S (S (size m))) target_pc {[absorbed_pc]};
        '(up, rm) ← stale m remaining l';
        mret (match r with
              | Some current => ((absorbed_pc, current) :: up, rm)
              | None => (up, absorbed_pc :: rm)
              end)
  end.

(** [ranges.iter().position(|(start, _)| *start == pc)] with [ranges.remove(pos)] *)
Fixpoint take_range (pc : Z) (l : list range) : option (range * list range) :=
  match l with
  | [] => None
  | r :: l' =>
      if r.1 =? pc then Some (r, l')
      else '(x, l'') ← take_range pc l'; mret (x, r :: l'')
  end.

(** The loop over [values_mut]: the first list with such a range loses it. *)
Fixpoint move_range (pc : Z) (keys : list Z) (m : gmap Z (list range))
    : option (range * gmap Z (list range)) :=
  match keys with
  | [] => None
  | k :: keys' =>
      match m !! k ≫= take_range pc with
      | Some (r, l) => Some (r, <[k := l]> m)
      | None => move_range pc keys' m
      end
  end.

Definition update_mapping (bt : BlockTable) (u : Z * Z) : BlockTable :=
  let '(pc, target) := u in
  let conts := block_continuations bt in
  with_mappings bt (<[pc := target]> (absorbed_to_merged bt))
    (match move_range pc (iter_keys o conts) conts with
     | Some (r, conts) => push_continuation conts target r
     | None => conts
     end).

Definition remove_mapping (bt : BlockTable) (pc : Z) : BlockTable :=
  with_mappings bt (delete pc (absorbed_to_merged bt)) (block_continuations bt).

Definition fix_stale_mappings (bt : BlockTable) : option BlockTable :=
  let remaining : gset Z := list_to_set (map b_start (blocks bt)) in
  '(to_update, to_remove) ← stale (absorbed_to_merged bt) remaining (iter_absorbed o (absorbed_to_merged bt));
  mret (foldl remove_mapping (foldl update_mapping bt to_update) to_remove).

(** ** All transforms *)

Definition optimize (bt : BlockTable) : run (nat * nat * nat * BlockTable) :=
  match merge_blocks bt with
  | Some (Ok (merged, bt)) =>
      match (
        '(tail_duped, bt) ← tail_duplicate bt DEFAULT_TAIL_DUP_SIZE;
        '(superblocked, bt) ← form_superblocks bt DEFAULT_SUPERBLOCK_DEPTH;
        mret (tail_duped, superblocked, bt)) with
      | Ok (tail_duped, superblocked, bt) =>
          (fun bt => Ok (merged, tail_duped, superblocked, bt)) <$> fix_stale_mappings bt
      | Panic => Some Panic
      end
  | Some Panic => Some Panic
  | None => None
  end.
End ordered.
End transforms.
End BlockTable.
