(* ===== verification/BlockFacts.v ===== *)
(** * Blocks cut at the leaders

    The shape of the blocks that [create_blocks_from_leaders] makes: straight-line
    code from a leader up to a jump, the next leader or a gap. *)

From stdpp Require Import sorting.
From S2P Require Import Prelude Xlen IR IRBuild Isa Ext Registry InstrTable RegistryCorrect TableFacts.
From S2P Require Import CfgData CfgScan CfgFlow CfgDomain ScanFacts BlockTable.
#[local] Open Scope word_scope.

Section create.
Context (t : InstructionTable) (registry : ExtensionRegistry) (leaders : gset Z).

(** The instruction at [pc] is lifted to a jump, a branch or an exit. *)
Definition ends_block (pc : Z) : Prop :=
  exists i ir, InstructionTable.get_at_pc t pc = Some i /\
    ExtensionRegistry.lift registry i = Ok ir /\ Terminator.is_control_flow (terminator ir) = true.

(** [straight pc n last e]: [n] instructions in a row from [pc] to [last], the
    last one ending at [e]; only the last one can end a block, and no leader is
    between two of them. *)
Inductive straight : Z -> nat -> Z -> Z -> Prop :=
| straight_one pc i :
    InstructionTable.get_at_pc t pc = Some i -> straight pc 1 pc (pc + di_size i)
| straight_cons pc i n last e :
    InstructionTable.get_at_pc t pc = Some i -> ~ ends_block pc -> pc + di_size i ∉ leaders ->
    straight (pc + di_size i) n last e -> straight pc (S n) last e.

(** Why a block ends at [e]: after a jump, before a leader, before a gap, or as
    the next leader is not at the start of an instruction. *)
Definition block_stops (last e : Z) : Prop :=
  ends_block last \/ e ∈ leaders \/ InstructionTable.get_at_pc t e = None \/
  exists l, l ∈ leaders /\ last < l < e.

Definition block_ok (b : BasicBlock) : Prop :=
  b_start b ∈ leaders /\
  straight (b_start b) (instruction_count b) (last_pc b) (b_end b) /\
  block_stops (last_pc b) (b_end b).

(** ** Facts on the table *)

Hypothesis (Hok : table_ok t).

Lemma valid_pc_get pc :
  InstructionTable.is_valid_pc t pc = bool_decide (is_Some (InstructionTable.get_at_pc t pc)).
Proof.
  unfold InstructionTable.is_valid_pc, InstructionTable.get_at_pc.
  destruct (InstructionTable.pc_to_index t pc) as [k|]; cbn; [|done].
  apply Bool.eq_iff_eq_true. by rewrite is_valid_index_get, bool_decide_eq_true.
Qed.

Lemma entry_facts pc i : InstructionTable.get_at_pc t pc = Some i ->
  InstructionTable.instruction_size_at_pc t pc = di_size i /\ 2 <= di_size i <= 4 /\
  base_address t <= pc /\ pc + di_size i <= end_address t.
Proof.
  intros H. pose proof H as (k & Hk & Hg)%bind_Some. unfold InstructionTable.instruction_size_at_pc. rewrite Hk.
  apply pc_to_index_spec in Hk as [-> _]; [|apply (ok_wf _ Hok)].
  destruct (ok_entry _ Hok k i Hg) as (-> & Hs & He). lia.
Qed.

Lemma no_overlap pc i pc' i' :
  InstructionTable.get_at_pc t pc = Some i -> InstructionTable.get_at_pc t pc' = Some i' -> pc < pc' ->
  pc + di_size i <= pc'.
Proof.
  intros (k & -> & Hk)%get_at_pc_spec (k' & -> & Hk')%get_at_pc_spec Hlt; [|apply (ok_wf _ Hok)..].
  destruct (ok_entry _ Hok k i Hk) as (_ & [->|[-> Hn]] & _); [lia|].
  destruct (decide (k' = S k)) as [->|]; [congruence | lia].
Qed.

Lemma next_pc_ok pc i : InstructionTable.get_at_pc t pc = Some i -> add_u 64 pc (di_size i) = Ok (pc + di_size i).
Proof.
  intros H%entry_facts. apply add_u_ok. destruct (ok_wf _ Hok) as (? & ? & _). unfold in_u in *. lia.
Qed.

Lemma straight_entry pc n last e : straight pc n last e ->
  (0 < n)%nat /\ pc <= last < e /\ is_Some (InstructionTable.get_at_pc t pc) /\
  exists i, InstructionTable.get_at_pc t last = Some i /\ e = last + di_size i.
Proof.
  induction 1 as [pc i Hi|pc i n last e Hi _ _ _ (_ & Hle & _ & Hlast)]; pose proof (entry_facts _ _ Hi).
  - split_and!; [lia.. | by eexists | eauto].
  - split_and!; [lia.. | by eexists | done].
Qed.

(** ** The loop *)

Hypothesis (Hlift : forall pc i, InstructionTable.get_at_pc t pc = Some i ->
  exists ir, ExtensionRegistry.lift registry i = Ok ir).

Lemma block_loop_spec fuel bs max_end : forall pc i count last,
  InstructionTable.get_at_pc t pc = Some i -> bs <= pc < max_end -> max_end <= end_address t ->
  (Z.to_nat (max_end - pc) < fuel)%nat ->
  exists n last' e,
    BlockTable.block_loop t registry leaders fuel bs max_end pc count last = Some (Ok (e, (count + n)%nat, last')) /\
    straight pc n last' e /\ last' < max_end /\
    (ends_block last' \/ e ∈ leaders \/ InstructionTable.get_at_pc t e = None \/ max_end <= e).
Proof.
  induction fuel as [|fuel IH]; intros pc i count last Hi Hpc Hmax Hf; [lia|]. cbn [BlockTable.block_loop].
  destruct (entry_facts _ _ Hi) as (Hsz & Hs & _ & Hend).
  rewrite (proj2 (Z.ltb_lt pc max_end)), (proj2 (Z.ltb_lt pc (end_address t))) by lia. cbn [andb].
  rewrite valid_pc_get, Hi, bool_decide_eq_true_2 by done. cbn [negb].
  rewrite Hsz. destruct (Z.eqb_spec (di_size i) 0) as [|_]; [lia|].
  destruct (Hlift _ _ Hi) as [ir Hir]. rewrite Hir, (next_pc_ok _ _ Hi).
  destruct (Terminator.is_control_flow (terminator ir)) eqn:Hc.
  { exists 1%nat, pc, (pc + di_size i). rewrite Nat.add_1_r.
    split_and!; [done | by apply straight_one | lia | left; by exists i, ir]. }
  assert (~ ends_block pc) as Hnot.
  { intros (j & jr & Hj & Hjr & Hcj). simplify_eq. congruence. }
  destruct (_ && _) eqn:Hl.
  { apply andb_true_iff in Hl as [Hl%bool_decide_eq_true _]. exists 1%nat, pc, (pc + di_size i).
    rewrite Nat.add_1_r. split_and!; [done | by apply straight_one | lia | by right; left]. }
  assert (pc + di_size i ∉ leaders) as Hnl.
  { apply andb_false_iff in Hl as [Hl%bool_decide_eq_false|Hl]; [done|]. apply negb_false_iff, Z.eqb_eq in Hl. lia. }
  destruct (InstructionTable.get_at_pc t (pc + di_size i)) as [j|] eqn:Hj.
  - destruct (decide (pc + di_size i < max_end)) as [Hlt|Hge].
    + destruct (IH (pc + di_size i) j (S count) pc) as (n & last' & e & -> & Hstr & H1 & H2); [done | lia.. |].
      exists (S n), last', e. rewrite Nat.add_succ_r. split_and!; [done | by eapply straight_cons | done..].
    + exists 1%nat, pc, (pc + di_size i). destruct fuel; [lia|]. cbn [BlockTable.block_loop].
      rewrite (proj2 (Z.ltb_ge _ max_end)) by lia. rewrite Nat.add_1_r.
      split_and!; [done | by apply straight_one | lia | right; right; right; lia].
  - exists 1%nat, pc, (pc + di_size i). destruct fuel; [lia|]. cbn [BlockTable.block_loop].
    rewrite valid_pc_get, Hj, bool_decide_eq_false_2 by by intros []. cbn [negb]. rewrite Nat.add_1_r.
    assert (forall (b : bool) (x : run (Z * nat * Z)), (if b then x else x) = x) as -> by by intros [].
    split_and!; [done | by apply straight_one | lia | by right; right; left].
Qed.

(** ** One block, all blocks *)

Lemma create_block_spec start next :
  start ∈ leaders -> (forall l, next = Some l -> start < l /\ l ∈ leaders) ->
  exists ob, BlockTable.create_block t registry leaders start next = Some (Ok ob) /\
    match ob with
    | Some b => b_start b = start /\ block_ok b /\ (forall l, next = Some l -> last_pc b < l)
    | None => InstructionTable.get_at_pc t start = None
    end.
Proof.
  intros Hin Hnext. unfold BlockTable.create_block. rewrite valid_pc_get.
  destruct (InstructionTable.get_at_pc t start) as [i|] eqn:Hi.
  2:{ rewrite bool_decide_eq_false_2 by by intros []. by exists None. }
  rewrite bool_decide_eq_true_2 by done. cbn [negb].
  destruct (entry_facts _ _ Hi) as (_ & Hs & _ & Hend). set (max_end := Z.min _ _).
  assert (start < max_end <= end_address t) as Hm.
  { unfold max_end. destruct next as [l|]; cbn [default]; [destruct (Hnext l eq_refl)|]; unfold from_option, id; lia. }
  destruct (block_loop_spec (S (Z.to_nat (max_end - start))) start max_end start i 0 start) as
    (n & last & e & -> & Hstr & Hlast & Hstop); [done | lia.. |].
  destruct (straight_entry _ _ _ _ Hstr) as (Hn & Hle & _ & j & Hj & He).
  rewrite (proj2 (Nat.ltb_lt _ _)), (proj2 (Z.ltb_lt start e)) by lia. cbn [andb].
  eexists. split; [done|]. cbn. split_and!; [done| |].
  - split_and!; [done..|]. cbn. unfold block_stops.
    destruct Hstop as [H|[H|[H|H]]]; [by left | by right; left | by right; right; left|].
    unfold max_end in *. destruct next as [l|]; unfold default, from_option, id in *.
    + destruct (Hnext l eq_refl) as [Hl1 Hl2]. destruct (entry_facts _ _ Hj) as (_ & _ & _ & He').
      destruct (decide (e = l)) as [->|]; [by right; left|].
      destruct (decide (end_address t <= e)).
      * right; right; left. destruct (InstructionTable.get_at_pc t e) eqn:Hg; [|done].
        apply entry_facts in Hg. lia.
      * do 3 right. exists l. split; [done|]. lia.
    + right; right; left. destruct (InstructionTable.get_at_pc t e) eqn:Hg; [|done]. apply entry_facts in Hg. lia.
  - intros l ->. unfold max_end in Hlast. unfold default, from_option, id in Hlast. lia.
Qed.

Lemma create_blocks_spec l :
  sorted l -> (forall x, x ∈ l -> x ∈ leaders) ->
  exists bs, BlockTable.create_blocks t registry leaders l = Some (Ok bs) /\
    map b_start bs = filter (fun x => is_Some (InstructionTable.get_at_pc t x)) l /\
    Forall block_ok bs /\ StronglySorted (fun a b => b_end a <= b_start b) bs.
Proof.
  induction l as [|x l IH]; intros Hs Hl; [exists []; by repeat split; constructor|].
  cbn [BlockTable.create_blocks]. apply sorted_cons in Hs as [Hs Hx].
  destruct (IH Hs) as (bs & Hbs & Hmap & Hall & Hsort); [intros; apply Hl; set_solver|].
  destruct (create_block_spec x (head l)) as (ob & -> & Hob); [apply Hl; set_solver | |].
  { intros y Hy. destruct l as [|z l]; [done|]. injection Hy as ->. split; [apply Hx | apply Hl]; set_solver. }
  rewrite Hbs. destruct ob as [b|]; [|exists bs; rewrite filter_cons_False by (rewrite Hob; by intros []); done].
  destruct Hob as (<- & Hb & Hlast). exists (b :: bs). destruct Hb as (Hb1 & Hb2 & Hb3).
  destruct (straight_entry _ _ _ _ Hb2) as (_ & Hle & Hsome & i & Hi & He).
  split_and!; [done | | by constructor | ].
  - rewrite filter_cons_True by done. cbn. by rewrite Hmap.
  - constructor; [done|]. apply Forall_forall. intros b' Hb'.
    assert (b_start b' ∈ l /\ is_Some (InstructionTable.get_at_pc t (b_start b'))) as [Hin [j Hj]].
    { assert (b_start b' ∈ map b_start bs) as H by by apply list_elem_of_fmap_2.
      rewrite Hmap in H. by apply list_elem_of_filter in H as [? ?]. }
    rewrite He. eapply no_overlap; [done..|]. destruct l as [|z l]; [set_solver|].
    specialize (Hlast z eq_refl). apply sorted_cons in Hs as [_ Hz].
    apply elem_of_cons in Hin as [->|Hin]; [done|]. specialize (Hz _ Hin). lia.
Qed.

Lemma sort_spec (s : gset Z) : sorted (sort (elements s)) /\ forall x, x ∈ sort (elements s) <-> x ∈ s.
Proof.
  assert (sort (elements s) ≡ₚ elements s) as Hp by apply merge_sort_Permutation. split.
  - apply sorted_lt; [apply (StronglySorted_merge_sort Z.le) | rewrite Hp; apply NoDup_elements].
  - intros x. by rewrite Hp, elem_of_elements.
Qed.
End create.

(** The blocks differ in their first and in their last instruction. *)
Lemma blocks_distinct t registry leaders bs :
  table_ok t -> Forall (block_ok t registry leaders) bs -> StronglySorted (fun a b => b_end a <= b_start b) bs ->
  NoDup (map b_start bs) /\ NoDup (map last_pc bs).
Proof.
  intros Hok Hall Hs. induction Hs as [|b bs _ IH Hb]; [split; constructor|].
  apply Forall_cons in Hall as [(_ & Hst & _) Hall]. destruct (IH Hall) as [H1 H2].
  destruct (straight_entry t registry leaders Hok _ _ _ _ Hst) as (_ & Hlt & _).
  rewrite Forall_forall in Hall, Hb.
  assert (forall c, c ∈ bs -> b_end b <= b_start c <= last_pc c) as Hc.
  { intros c Hc. split; [by apply Hb|]. destruct (Hall c Hc) as (_ & Hst' & _).
    destruct (straight_entry t registry leaders Hok _ _ _ _ Hst') as (_ & ? & _). lia. }
  split; constructor; try done; intros (c & E & Hin%Hc)%list_elem_of_fmap; lia.
Qed.

(** ** Checking a table

    A decision procedure for what the lemmas above assume of lifting. *)

Definition lifts_ok (registry : ExtensionRegistry) (t : InstructionTable) : bool :=
  forallb (fun s => match s_instr s with
                    | Some i => match ExtensionRegistry.lift registry i with Ok _ => true | Panic => false end
                    | None => true
                    end) (slots t).

Lemma lifts_ok_spec registry t pc i :
  lifts_ok registry t = true -> InstructionTable.get_at_pc t pc = Some i ->
  exists ir, ExtensionRegistry.lift registry i = Ok ir.
Proof.
  unfold lifts_ok. rewrite forallb_forall. intros H (k & _ & (s & Hs & Hi)%bind_Some)%bind_Some.
  specialize (H s). rewrite Hi in H. destruct (ExtensionRegistry.lift registry i); [by eexists|].
  discriminate H. by eapply list_elem_of_In, list_elem_of_lookup_2.
Qed.

Lemma lifts_terminators registry bt pc :
  lifts_ok registry (instruction_table bt) = true -> exists term, BlockTable.terminator_at registry bt pc = Ok term.
Proof.
  intros H. unfold BlockTable.terminator_at.
  destruct (InstructionTable.get_at_pc (instruction_table bt) pc) as [i|] eqn:E; [|by eexists].
  destruct (lifts_ok_spec _ _ _ _ H E) as [ir ->]. by eexists.
Qed.
