(* ===== verification/MergeFacts.v ===== *)
(** * Merging blocks

    The chains of [merge_blocks] end, are disjoint, and follow the only edge into
    each block they absorb. *)

From S2P Require Import Prelude Xlen IR IRBuild Isa Ext Registry InstrTable.
From S2P Require Import CfgData CfgScan CfgFlow BlockTable.
#[local] Open Scope word_scope.

(** ** Paths *)

(** Consecutive elements are related. *)
Fixpoint linked {A} (R : A -> A -> Prop) (l : list A) : Prop :=
  match l with
  | x :: (y :: _) as l' => R x y /\ linked R l'
  | _ => True
  end.

Section paths.
Context {A : Type} (R : A -> A -> Prop).

Lemma linked_cons x l : linked R (x :: l) <-> (forall y, head l = Some y -> R x y) /\ linked R l.
Proof.
  destruct l as [|y l]; cbn; [naive_solver|]. split; [intros [? ?]; split; [by intros ? [= <-]|done]|].
  intros [H ?]. auto.
Qed.

Lemma linked_snoc l x y : linked R (l ++ [x]) -> R x y -> linked R ((l ++ [x]) ++ [y]).
Proof.
  intros Hl Hxy. induction l as [|z l IH]; [done|]. cbn [app] in *. apply linked_cons in Hl as [H1 H2].
  apply linked_cons. split; [|auto]. intros y' Hy'. apply H1. by destruct l.
Qed.

Lemma linked_lookup l i x y : linked R l -> l !! i = Some x -> l !! S i = Some y -> R x y.
Proof.
  revert i. induction l as [|z l IH]; intros i Hl Hx Hy; [done|]. apply linked_cons in Hl as [H1 H2].
  destruct i as [|i]; [|by eapply IH]. cbn in Hx, Hy. injection Hx as ->. apply H1. by destruct l.
Qed.

Lemma linked_mono (S : A -> A -> Prop) l : (forall x y, R x y -> S x y) -> linked R l -> linked S l.
Proof.
  intros H. induction l as [|x [|y l] IH]; [done..|]. intros [? ?]. split; auto.
Qed.

Lemma tc_mono (S : A -> A -> Prop) x y : (forall x y, R x y -> S x y) -> tc R x y -> tc S x y.
Proof. intros H. induction 1; [apply tc_once | eapply tc_l]; eauto. Qed.

(** On a path without repetition whose steps have unique sources, a step from the
    end does not lead back into the path, except to its start. *)
Lemma path_fresh l x c :
  (forall a, a ∈ l ++ [x] -> R a c -> a = x) -> linked R (l ++ [x]) -> NoDup (l ++ [x]) ->
  head (l ++ [x]) <> Some c -> c ∉ l ++ [x].
Proof.
  intros Hinj Hl Hn Hh (i & Hi)%list_elem_of_lookup. destruct i as [|j]; [by destruct l|].
  destruct (lookup_lt_is_Some_2 (l ++ [x]) j) as [p Hp]; [apply lookup_lt_Some in Hi; lia|].
  assert (p = x) as -> by (eapply Hinj; [by eapply list_elem_of_lookup_2 | by eapply linked_lookup]).
  assert ((l ++ [x]) !! length l = Some x) as Hx by (by apply list_lookup_middle).
  pose proof (NoDup_lookup _ _ _ _ Hn Hp Hx). apply lookup_lt_Some in Hi. rewrite length_app in Hi. cbn in Hi. lia.
Qed.
End paths.

#[export] Instance Ok_inj {A} : Inj (=) (=) (@Ok A).
Proof. by intros ? ? [= ->]. Qed.

(** ** Looking up blocks *)

Lemma start_to_idx_spec l x k :
  NoDup (map b_start l) ->
  BlockTable.start_to_idx l !! x = Some k <-> exists b, l !! k = Some b /\ b_start b = x.
Proof.
  intros Hn. unfold BlockTable.start_to_idx.
  assert (forall l n (m : gmap Z nat), NoDup (map b_start l) ->
    foldl (fun m (p : nat * BasicBlock) => <[b_start p.2 := p.1]> m) m (imap (fun i b => ((n + i)%nat, b)) l) !! x
    = Some k <-> (exists j b, k = (n + j)%nat /\ l !! j = Some b /\ b_start b = x) \/
                 (x ∉ map b_start l /\ m !! x = Some k)) as H.
  { clear l Hn. induction l as [|b l IH]; intros n m Hn.
    { cbn. split; [intros H; right; split; [set_solver|done]|]. by intros [(j & b & _ & H & _)|[_ H]]. }
    cbn [map] in Hn. apply NoDup_cons in Hn as [Hb Hn]. cbn [imap foldl]. rewrite Nat.add_0_r.
    erewrite imap_ext; [rewrite (IH (S n)) by done|by intros i ? _; cbn; rewrite Nat.add_succ_r].
    cbn [fst snd map]. split.
    - intros [(j & b' & -> & Hj & Hx)|[Hx Hm]].
      + left. exists (S j), b'. split; [lia|done].
      + destruct (decide (b_start b = x)) as [<-|Hne].
        * rewrite lookup_insert_eq in Hm. injection Hm as <-. left. exists 0%nat, b. split; [lia|done].
        * rewrite lookup_insert_ne in Hm by done. right. split; [set_solver|done].
    - intros [(j & b' & -> & Hj & Hx)|[Hx Hm]].
      + destruct j as [|j].
        * right. cbn in Hj. injection Hj as ->. subst x. split; [done|].
          by rewrite lookup_insert_eq, Nat.add_0_r.
        * left. exists j, b'. split; [lia|done].
      + right. split; [set_solver|]. rewrite lookup_insert_ne by set_solver. done. }
  specialize (H l 0%nat ∅ Hn). cbn [Nat.add] in H. rewrite H. rewrite lookup_empty. split.
  - intros [(j & b & -> & ? & ?)|[_ ?]]; [eauto | done].
  - intros (b & ? & ?). left. eauto.
Qed.

(** ** The target of a merge *)

Section merge.
Context (registry : ExtensionRegistry) (bt : BlockTable).

(** The instruction at [pc] only goes to [x]. *)
Definition goes_to (pc x : Z) : Prop :=
  BlockTable.terminator_at registry bt pc = Ok (Some (Fall (Some x))) \/
  BlockTable.terminator_at registry bt pc = Ok (Some (Jump x)).

Lemma get_merge_target_spec b x :
  BlockTable.get_merge_target registry bt b = Ok (Some x) <->
  goes_to (last_pc b) x /\ x ∉ entry_points (instruction_table bt) /\
  bt_predecessors bt !! x = Some {[last_pc b]}.
Proof.
  unfold BlockTable.get_merge_target, goes_to.
  assert (forall y, (if bool_decide (y ∈ entry_points (instruction_table bt)) then None
     else preds ← (bt_predecessors bt !! y : option (gset Z));
          if negb (size preds =? 1)%nat || negb (bool_decide (last_pc b ∈ preds)) then None else Some y)
     = Some x <-> y = x /\ x ∉ entry_points (instruction_table bt) /\
       bt_predecessors bt !! x = Some ({[last_pc b]} : gset Z)) as H.
  { intros y. case_bool_decide as He; [naive_solver|].
    destruct (bt_predecessors bt !! y) as [ps|] eqn:Hp; cbn [mbind option_bind]; [|split; [done|]; intros (-> & _ & ?); congruence].
    destruct (Nat.eqb_spec (size ps) 1) as [Hs|Hs]; cbn [negb orb].
    2:{ split; [done|]. intros (-> & _ & Hx). rewrite Hp in Hx. injection Hx as ->. by rewrite size_singleton in Hs. }
    apply size_1_elem_of in Hs as [z Hz]. apply leibniz_equiv in Hz as ->.
    case_bool_decide as Hl; cbn [negb]; rewrite elem_of_singleton in Hl.
    - subst z. split; [by intros [= <-]|]. by intros (-> & _).
    - split; [done|]. intros (-> & _ & Hx). rewrite Hp in Hx. apply (inj Some), (inj singleton) in Hx. congruence. }
  destruct (BlockTable.terminator_at registry bt (last_pc b)) as [term|]; cbn [mbind result_bind mret result_ret];
    [|naive_solver].
  destruct term as [[target|target| | | |]|]; try (split; [done|]; intros ([?|?] & _); congruence).
  - destruct target as [y|]; [|naive_solver]. cbn [mbind option_bind]. split.
    + intros E%(inj Ok). apply H in E as (-> & ? & ?). auto.
    + intros ([E|E] & Hr); [|done]. simplify_eq. f_equal. by apply H.
  - cbn [mbind option_bind]. split.
    + intros E%(inj Ok). apply H in E as (-> & ? & ?). auto.
    + intros ([E|E] & Hr); [done|]. simplify_eq. f_equal. by apply H.
Qed.

(** ** Chains *)

Context (absorbed : gset Z).

(** [c] is merged into the block that ends with [b]. *)
Definition absorbs (b c : BasicBlock) : Prop :=
  BlockTable.get_merge_target registry bt b = Ok (Some (b_start c)) /\ b_start c ∈ absorbed /\ c ∈ blocks bt.

Hypothesis (Hstarts : NoDup (map b_start (blocks bt))) (Hlasts : NoDup (map last_pc (blocks bt))).

(** Blocks are determined by their first and by their last instruction. *)
Lemma same_start b c : b ∈ blocks bt -> c ∈ blocks bt -> b_start b = b_start c -> b = c.
Proof.
  intros (i & Hi)%list_elem_of_lookup (j & Hj)%list_elem_of_lookup E.
  assert (i = j) as ->; [|congruence]. eapply (NoDup_lookup _ _ _ (b_start c) Hstarts).
  - change (map b_start (blocks bt)) with (b_start <$> blocks bt). rewrite list_lookup_fmap, Hi. cbn. congruence.
  - change (map b_start (blocks bt)) with (b_start <$> blocks bt). by rewrite list_lookup_fmap, Hj.
Qed.

Lemma same_last b c : b ∈ blocks bt -> c ∈ blocks bt -> last_pc b = last_pc c -> b = c.
Proof.
  intros (i & Hi)%list_elem_of_lookup (j & Hj)%list_elem_of_lookup E.
  assert (i = j) as ->; [|congruence]. eapply (NoDup_lookup _ _ _ (last_pc c) Hlasts).
  - change (map last_pc (blocks bt)) with (last_pc <$> blocks bt). rewrite list_lookup_fmap, Hi. cbn. congruence.
  - change (map last_pc (blocks bt)) with (last_pc <$> blocks bt). by rewrite list_lookup_fmap, Hj.
Qed.

(** A block is absorbed by one block only, and absorbs one only. *)
Lemma absorbs_source b b' c : b ∈ blocks bt -> b' ∈ blocks bt -> absorbs b c -> absorbs b' c -> b = b'.
Proof.
  intros Hb Hb' [(_ & _ & H1)%get_merge_target_spec _] [(_ & _ & H2)%get_merge_target_spec _].
  apply same_last; [done..|]. rewrite H1 in H2. by apply (inj Some), (inj singleton) in H2.
Qed.

Lemma absorbs_target b c c' : absorbs b c -> absorbs b c' -> c = c'.
Proof. intros (H1 & _ & Hc) (H2 & _ & Hc'). apply same_start; [done..|]. congruence. Qed.

Lemma idx_block x k :
  BlockTable.start_to_idx (blocks bt) !! x = Some k ->
  exists c, blocks bt !! k = Some c /\ b_start c = x /\ c ∈ blocks bt.
Proof.
  intros (c & Hc & <-)%start_to_idx_spec; [|done]. exists c. split_and!; [done..|]. by eapply list_elem_of_lookup_2.
Qed.

(** The last block of a chain. *)
Definition chain_end (b : BasicBlock) (chain : list BasicBlock) : BasicBlock := foldl (fun _ c => c) b chain.

(** What a chain is: it follows [absorbs] as far as possible. *)
Lemma merge_chain_path fuel : forall b chain,
  BlockTable.merge_chain registry bt absorbed (BlockTable.start_to_idx (blocks bt)) fuel b = Some (Ok chain) ->
  linked absorbs (b :: chain) /\ forall c, ~ absorbs (chain_end b chain) c.
Proof.
  induction fuel as [|fuel IH]; intros b chain; [done|]. cbn [BlockTable.merge_chain].
  assert (forall x, BlockTable.get_merge_target registry bt b = Ok x ->
    (forall y, x = Some y -> y ∈ absorbed -> BlockTable.start_to_idx (blocks bt) !! y = None) ->
    forall c, ~ absorbs b c) as Hend.
  { intros x Hx Hno c (H1 & H2 & (k & Hk)%list_elem_of_lookup). rewrite Hx in H1. injection H1 as ->.
    specialize (Hno _ eq_refl H2).
    assert (BlockTable.start_to_idx (blocks bt) !! b_start c = Some k) by (apply start_to_idx_spec; eauto). congruence. }
  destruct (BlockTable.get_merge_target registry bt b) as [[x|]|] eqn:Ht; [| |done].
  2:{ intros [= <-]. split; [done|]. by eapply Hend. }
  case_bool_decide as Hx; [|intros [= <-]; split; [done|]; eapply Hend; [done|]; by intros ? [= <-]].
  destruct (BlockTable.start_to_idx (blocks bt) !! x) as [k|] eqn:Hk.
  2:{ intros [= <-]. split; [done|]. eapply Hend; [done|]. by intros ? [= <-]. }
  destruct (idx_block _ _ Hk) as (c & -> & <- & Hc).
  destruct (BlockTable.merge_chain _ _ _ _ fuel c) as [[l|]|] eqn:El; [|done..]. intros [= <-].
  destruct (IH _ _ El) as [H1 H2]. split; [|exact H2].
  apply linked_cons. split; [|done]. by intros y [= <-].
Qed.

(** A chain from a block that is not absorbed ends within the number of blocks. *)
Hypothesis (Hlift : forall b, b ∈ blocks bt -> exists x, BlockTable.get_merge_target registry bt b = Ok x).

Lemma merge_chain_total fuel : forall seen b,
  linked absorbs (seen ++ [b]) -> NoDup (seen ++ [b]) -> (forall c, c ∈ seen ++ [b] -> c ∈ blocks bt) ->
  (forall h, head (seen ++ [b]) = Some h -> b_start h ∉ absorbed) ->
  (length (blocks bt) < length seen + S fuel)%nat ->
  exists chain,
    BlockTable.merge_chain registry bt absorbed (BlockTable.start_to_idx (blocks bt)) (S fuel) b = Some (Ok chain).
Proof.
  induction fuel as [|fuel IH]; intros seen b Hl Hn Hin Hh Hf.
  - assert (length (seen ++ [b]) <= length (blocks bt))%nat as Hlen.
    { apply submseteq_length. by apply NoDup_submseteq. }
    rewrite length_app in Hlen. cbn in Hlen. lia.
  - remember (S fuel) as f. cbn [BlockTable.merge_chain]. subst f.
    assert (b ∈ blocks bt) as Hb by (apply Hin; set_solver).
    destruct (Hlift b Hb) as [x Hx]. rewrite Hx. destruct x as [x|]; [|by eexists].
    case_bool_decide as Ha; [|by eexists].
    destruct (BlockTable.start_to_idx (blocks bt) !! x) as [k|] eqn:Hk; [|by eexists].
    destruct (idx_block _ _ Hk) as (c & -> & <- & Hc).
    assert (absorbs b c) as Hbc by done.
    assert (c ∉ seen ++ [b]) as Hfresh.
    { apply (path_fresh absorbs); [|done..|].
      - intros a Ha1 Ha2. eapply absorbs_source; [by apply Hin | done..].
      - intros E. by apply (Hh c E). }
    destruct (IH (seen ++ [b]) c) as [chain Hchain].
    + by apply linked_snoc.
    + apply NoDup_app. split_and!; [done| |apply NoDup_singleton]. intros y Hy ->%list_elem_of_singleton. done.
    + intros y [Hy| ->%list_elem_of_singleton]%elem_of_app; auto.
    + intros h Hh'. apply Hh. by destruct seen.
    + rewrite length_app. cbn [length]. lia.
    + rewrite Hchain. by eexists.
Qed.

(** ** The loop over the blocks *)

Definition is_head (b : BasicBlock) : Prop := b ∈ blocks bt /\ b_start b ∉ absorbed.

(** The chain of a block that is not absorbed. *)
Definition chain_of (b : BasicBlock) : list BasicBlock :=
  match BlockTable.merge_chain registry bt absorbed (BlockTable.start_to_idx (blocks bt))
          (S (length (blocks bt))) b with
  | Some (Ok l) => l
  | _ => []
  end.

Lemma chain_of_spec b : is_head b ->
  BlockTable.merge_chain registry bt absorbed (BlockTable.start_to_idx (blocks bt)) (S (length (blocks bt))) b
  = Some (Ok (chain_of b)) /\
  linked absorbs (b :: chain_of b) /\ forall c, ~ absorbs (chain_end b (chain_of b)) c.
Proof.
  intros [Hb Ha]. destruct (merge_chain_total (length (blocks bt)) [] b) as [chain Hc].
  - done.
  - apply NoDup_singleton.
  - by intros c ->%list_elem_of_singleton.
  - by intros h [= <-].
  - cbn. lia.
  - unfold chain_of. rewrite Hc. split; [done|]. by eapply merge_chain_path.
Qed.

Lemma merge_blocks_loop_spec l : forall acc,
  (forall b, b ∈ l -> b ∈ blocks bt) ->
  BlockTable.merge_loop registry bt absorbed (BlockTable.start_to_idx (blocks bt)) l acc =
  Some (Ok (foldl (fun a b => BlockTable.merge_one b (chain_of b) a) acc (filter (fun b => b_start b ∉ absorbed) l))).
Proof.
  induction l as [|b l IH]; intros acc Hl; [done|]. cbn [BlockTable.merge_loop].
  case_bool_decide as Hb.
  - rewrite filter_cons_False by tauto. apply IH. intros; apply Hl; set_solver.
  - rewrite filter_cons_True by done. cbn [foldl].
    destruct (chain_of_spec b) as [-> _]; [split; [apply Hl; set_solver | done]|].
    apply IH. intros; apply Hl; set_solver.
Qed.

(** The result of the loop, component by component. *)
Definition merged_block (b : BasicBlock) : BasicBlock :=
  BasicBlock.new (b_start b) (b_end b)
    (foldl (fun n c => n + instruction_count c)%nat (instruction_count b) (chain_of b))
    (foldl (fun _ c => last_pc c) (last_pc b) (chain_of b)).

Lemma fold_insert_lookup {V} (l : list BasicBlock) (v : V) : forall (m : gmap Z V) x,
  foldl (fun m c => <[b_start c := v]> m) m l !! x = if decide (x ∈ map b_start l) then Some v else m !! x.
Proof.
  induction l as [|c l IH]; intros m x; cbn [foldl map]; [by rewrite decide_False by set_solver|].
  rewrite IH. destruct (decide (x ∈ map b_start l)) as [Hx|Hx].
  - by rewrite decide_True by set_solver.
  - destruct (decide (x = b_start c)) as [->|].
    + by rewrite lookup_insert_eq, decide_True by set_solver.
    + rewrite lookup_insert_ne by done. by rewrite decide_False by set_solver.
Qed.

(** Members of a chain come from its head. *)
Lemma linked_reaches b l c : linked absorbs (b :: l) -> c ∈ l -> exists a, a ∈ b :: l /\ absorbs a c.
Proof.
  intros Hl (i & Hi)%list_elem_of_lookup. destruct (lookup_lt_is_Some_2 (b :: l) i) as [a Ha].
  { apply lookup_lt_Some in Hi. cbn. lia. }
  exists a. split; [by eapply list_elem_of_lookup_2|]. by eapply (linked_lookup absorbs (b :: l) i).
Qed.

Lemma chain_blocks b c : is_head b -> c ∈ b :: chain_of b -> c ∈ blocks bt.
Proof.
  intros Hb [->|Hc]%elem_of_cons; [apply Hb|]. destruct (chain_of_spec b Hb) as (_ & Hl & _).
  destruct (linked_reaches _ _ _ Hl Hc) as (a & _ & _ & _ & ?). done.
Qed.

Lemma chain_absorbed b c : is_head b -> c ∈ chain_of b -> b_start c ∈ absorbed.
Proof.
  intros Hb Hc. destruct (chain_of_spec b Hb) as (_ & Hl & _).
  destruct (linked_reaches _ _ _ Hl Hc) as (a & _ & _ & ? & _). done.
Qed.

(** Two chains do not share a block. *)
Lemma chain_index b b' i : forall j c,
  is_head b -> is_head b' -> (b :: chain_of b) !! i = Some c -> (b' :: chain_of b') !! j = Some c -> b = b'.
Proof.
  induction i as [|i IH]; intros [|j] c Hb Hb' Hi Hj; cbn in Hi, Hj; simplify_eq; [done| | |].
  - exfalso. apply list_elem_of_lookup_2 in Hj. apply (chain_absorbed b') in Hj; [|done]. by apply Hb.
  - exfalso. apply list_elem_of_lookup_2 in Hi. apply (chain_absorbed b) in Hi; [|done]. by apply Hb'.
  - destruct (chain_of_spec b Hb) as (_ & Hl & _), (chain_of_spec b' Hb') as (_ & Hl' & _).
    destruct (lookup_lt_is_Some_2 (b :: chain_of b) i) as [a Ha]; [apply lookup_lt_Some in Hi; cbn; lia|].
    destruct (lookup_lt_is_Some_2 (b' :: chain_of b') j) as [a' Ha']; [apply lookup_lt_Some in Hj; cbn; lia|].
    apply (IH j a Hb Hb' Ha). assert (a = a') as ->; [|done].
    apply (absorbs_source a a' c).
    + by eapply (chain_blocks b), list_elem_of_lookup_2.
    + by eapply (chain_blocks b'), list_elem_of_lookup_2.
    + by eapply (linked_lookup absorbs (b :: chain_of b) i).
    + by eapply (linked_lookup absorbs (b' :: chain_of b') j).
Qed.

Lemma chains_disjoint b b' c c' :
  is_head b -> is_head b' -> c ∈ chain_of b -> c' ∈ chain_of b' -> b_start c = b_start c' -> b = b'.
Proof.
  intros Hb Hb' Hc Hc' E.
  assert (c = c') as <- 
    by (apply same_start; [apply (chain_blocks b) | apply (chain_blocks b') |]; try done; by apply elem_of_cons; right).
  apply list_elem_of_lookup in Hc as [i Hi], Hc' as [j Hj]. by apply (chain_index b b' (S i) (S j) c).
Qed.

Definition merge_result (l : list BasicBlock) : BlockTable.MergeAcc :=
  foldl (fun a b => BlockTable.merge_one b (chain_of b) a) ([], ∅, ∅) l.

Lemma merge_result_snoc l b : merge_result (l ++ [b]) = BlockTable.merge_one b (chain_of b) (merge_result l).
Proof. unfold merge_result. by rewrite foldl_snoc. Qed.

Lemma merge_result_blocks l : (merge_result l).1.1 = map merged_block l.
Proof.
  induction l as [|b l IH] using rev_ind; [done|]. rewrite merge_result_snoc, map_app, <- IH.
  by destruct (merge_result l) as [[? ?] ?].
Qed.

Lemma merge_result_absorbed l x h :
  Forall is_head l ->
  (merge_result l).1.2 !! x = Some h <->
  exists b c, b ∈ l /\ c ∈ chain_of b /\ x = b_start c /\ h = b_start b.
Proof.
  induction l as [|b l IH] using rev_ind; intros Hl.
  { cbn. rewrite lookup_empty. split; [done|]. intros (? & ? & ? & _). set_solver. }
  apply Forall_app in Hl as [Hl Hb]. rewrite Forall_singleton in Hb. specialize (IH Hl). rewrite Forall_forall in Hl.
  rewrite merge_result_snoc. destruct (merge_result l) as [[m to] conts]. cbn [BlockTable.merge_one fst snd] in *.
  rewrite fold_insert_lookup. destruct (decide (x ∈ map b_start (chain_of b))) as [Hx|Hx].
  - apply list_elem_of_fmap in Hx as (c & -> & Hc). split.
    + intros [= <-]. exists b, c. split_and!; [set_solver | done..].
    + intros (b' & c' & Hb' & Hc' & E & ->).
      assert (is_head b') as Hh by (apply elem_of_app in Hb' as [?| ->%list_elem_of_singleton]; auto).
      by rewrite (chains_disjoint b b' c c').
  - rewrite IH. split; intros (b' & c & Hb' & Hc & -> & ->).
    + exists b', c. split_and!; [set_solver | done..].
    + exists b', c. split_and!; [|done..]. apply elem_of_app in Hb' as [?| ->%list_elem_of_singleton]; [done|].
      exfalso. apply Hx. by apply list_elem_of_fmap_2.
Qed.

Lemma merge_result_conts l h rs :
  NoDup (map b_start l) ->
  (merge_result l).2 !! h = Some rs <->
  exists b, b ∈ l /\ h = b_start b /\ chain_of b <> [] /\ rs = map BlockTable.block_range (chain_of b).
Proof.
  induction l as [|b l IH] using rev_ind; intros Hn.
  { cbn. rewrite lookup_empty. split; [done|]. intros (? & ? & _). set_solver. }
  rewrite map_app in Hn. apply NoDup_app in Hn as (Hn & Hb & _). specialize (IH Hn).
  assert (forall b', b' ∈ l -> b_start b' <> b_start b) as Hd.
  { intros b' Hb' E. apply (Hb (b_start b')); [by apply list_elem_of_fmap_2|]. rewrite E. set_solver. }
  rewrite merge_result_snoc. destruct (merge_result l) as [[m to] conts]. cbn [BlockTable.merge_one fst snd] in *.
  assert (forall b', b' ∈ l ++ [b] <-> b' ∈ l \/ b' = b) as Hel by (intros; set_solver).
  setoid_rewrite Hel. destruct (chain_of b) as [|c ch] eqn:Hch.
  { rewrite IH. split; intros (b' & H & H'); exists b'; [tauto|]. split; [|done]. destruct H as [?| ->]; [done|].
    by destruct H' as (_ & ? & _). }
  destruct (decide (h = b_start b)) as [->|Hne].
  - rewrite lookup_insert_eq. split.
    + intros [= <-]. exists b. rewrite Hch. split_and!; [by right | done..].
    + intros (b' & [H| ->] & E & _ & ->); [by destruct (Hd _ H)|]. by rewrite Hch.
  - rewrite lookup_insert_ne by done. rewrite IH. split; intros (b' & H & H'); exists b'; [tauto|].
    split; [|done]. destruct H as [?| ->]; [done|]. by destruct H' as (? & _).
Qed.

(** ** Which blocks are absorbed *)

Hypothesis (Hsource : forall x, x ∈ absorbed ->
  exists b, b ∈ blocks bt /\ BlockTable.get_merge_target registry bt b = Ok (Some x)).

Lemma chain_maximal l : forall b c,
  linked absorbs (b :: l) -> (forall d, ~ absorbs (chain_end b l) d) -> rtc absorbs b c -> c ∈ b :: l.
Proof.
  induction l as [|x l IH]; intros b c Hl Hend Hr; 
    (apply rtc_inv in Hr as [->|(y & Hy & Hr)]; [by left|]).
  - by destruct (Hend y Hy).
  - apply linked_cons in Hl as [H1 H2]. rewrite (absorbs_target b y x Hy (H1 x eq_refl)) in Hr.
    right. by apply IH.
Qed.

Lemma cycle_forward c d : rtc absorbs c d -> tc absorbs c c -> tc absorbs d d.
Proof.
  induction 1 as [|c x d Hcx _ IH]; [done|]. intros Ht. apply IH. inversion Ht as [? ? Hy|? y ? Hy Hr]; subst.
  - rewrite <- (absorbs_target c c x Hy Hcx). by apply tc_once.
  - rewrite (absorbs_target c y x Hy Hcx) in Hr. eapply tc_rtc_l; [by apply tc_rtc | by apply tc_once].
Qed.

Lemma linked_rtc l : forall c d, linked absorbs (c :: l) -> d ∈ c :: l -> rtc absorbs c d.
Proof.
  induction l as [|x l IH]; intros c d Hl [->|Hd]%elem_of_cons; [done | set_solver | done|].
  apply linked_cons in Hl as [H1 H2]. eapply rtc_l; [by apply H1 | by apply IH].
Qed.

Lemma backward n : forall c l d,
  linked absorbs (c :: l) -> NoDup (c :: l) -> (forall x, x ∈ c :: l -> x ∈ blocks bt) ->
  (length (blocks bt) < length (c :: l) + n)%nat -> rtc absorbs c d -> b_start c ∈ absorbed ->
  (exists h, is_head h /\ rtc absorbs h d) \/ tc absorbs d d.
Proof.
  induction n as [|n IH]; intros c l d Hl Hn Hin Hlen Hr Hc.
  { assert (length (c :: l) <= length (blocks bt))%nat by (apply submseteq_length; by apply NoDup_submseteq). lia. }
  destruct (Hsource _ Hc) as (p & Hp & Ht).
  assert (absorbs p c) as Hpc by (split_and!; [done.. | apply Hin; set_solver]).
  destruct (decide (b_start p ∈ absorbed)) as [Ha|Ha].
  2:{ left. exists p. split; [done | by eapply rtc_l]. }
  destruct (decide (p ∈ c :: l)) as [Hpl|Hpl].
  - right. apply (cycle_forward c d Hr). eapply tc_rtc_l; [by eapply linked_rtc | by apply tc_once].
  - eapply (IH p (c :: l)); [|by constructor| |cbn in *; lia|by eapply rtc_l|done].
    + apply linked_cons. split; [by intros y [= <-] | done].
    + intros x [->|Hx]%elem_of_cons; auto.
Qed.

(** A block is kept, part of the chain of a kept block, or on a cycle of blocks
    each of which is the only predecessor of the next. *)
Lemma block_fate c : c ∈ blocks bt ->
  is_head c \/ (exists b, is_head b /\ c ∈ chain_of b) \/ tc absorbs c c.
Proof.
  intros Hc. destruct (decide (b_start c ∈ absorbed)) as [Ha|]; [|by left]. right.
  destruct (backward (length (blocks bt)) c [] c) as [(h & Hh & Hr)|?]; [done | apply NoDup_singleton | | | done.. | | by right].
  - by intros x ->%list_elem_of_singleton.
  - cbn. lia.
  - left. exists h. split; [done|]. destruct (chain_of_spec h Hh) as (_ & Hl & Hend).
    apply (chain_maximal _ _ _ Hl Hend) in Hr. apply elem_of_cons in Hr as [->|?]; [|done]. by destruct Hh.
Qed.
End merge.

(** The set of absorbed addresses. *)
Lemma find_absorbed_spec registry bt l : forall acc,
  (forall b, b ∈ l -> exists x, BlockTable.get_merge_target registry bt b = Ok x) ->
  exists a, BlockTable.find_absorbed registry bt l acc = Ok a /\
    forall x, x ∈ a -> x ∈ acc \/ exists b, b ∈ l /\ BlockTable.get_merge_target registry bt b = Ok (Some x).
Proof.
  induction l as [|b l IH]; intros acc Hl; cbn [BlockTable.find_absorbed]; [by exists acc; auto|].
  assert (forall acc', exists a, BlockTable.find_absorbed registry bt l acc' = Ok a /\
    forall x, x ∈ a -> x ∈ acc' \/ exists b, b ∈ l /\ BlockTable.get_merge_target registry bt b = Ok (Some x)) as IH'
    by (intros acc'; apply IH; intros; apply Hl; set_solver).
  case_bool_decide.
  - destruct (IH' acc) as (a & -> & Ha). exists a. split; [done|]. intros x [?|(b' & ? & ?)]%Ha; [auto|].
    right. exists b'. set_solver.
  - destruct (Hl b) as [target Ht]; [set_solver|]. rewrite Ht. cbn [mbind result_bind].
    destruct (IH' (match target with Some x => {[x]} ∪ acc | None => acc end)) as (a & -> & Ha).
    exists a. split; [done|]. intros x [Hx|(b' & ? & ?)]%Ha; [|right; exists b'; set_solver].
    destruct target as [y|]; [|auto]. apply elem_of_union in Hx as [->%elem_of_singleton|]; [|auto].
    right. exists b. set_solver.
Qed.

(** ** The whole pass *)

Section pass.
Context (registry : ExtensionRegistry) (bt : BlockTable).
Hypothesis (Hstarts : NoDup (map b_start (blocks bt))) (Hlasts : NoDup (map last_pc (blocks bt))).
Hypothesis (Hterm : forall pc, exists term, BlockTable.terminator_at registry bt pc = Ok term).

Lemma merge_target_total b : exists x, BlockTable.get_merge_target registry bt b = Ok x.
Proof. unfold BlockTable.get_merge_target. destruct (Hterm (last_pc b)) as [term ->]. by eexists. Qed.

Definition heads (absorbed : gset Z) : list BasicBlock := filter (fun b => b_start b ∉ absorbed) (blocks bt).

Lemma elem_of_heads absorbed b : b ∈ heads absorbed <-> is_head bt absorbed b.
Proof. unfold heads, is_head. rewrite list_elem_of_filter. tauto. Qed.

Lemma heads_starts absorbed : NoDup (map b_start (heads absorbed)).
Proof.
  eapply sublist_NoDup; [exact Hstarts|]. apply (fmap_sublist b_start), sublist_filter.
Qed.

(** Without absorbed addresses nothing changes. *)
Lemma chain_of_none b : chain_of registry bt ∅ b = [].
Proof.
  unfold chain_of. cbn [BlockTable.merge_chain].
  destruct (merge_target_total b) as [[x|] ->]; [|done]. by rewrite bool_decide_eq_false_2 by apply not_elem_of_empty.
Qed.

Lemma merge_result_none l : merge_result registry bt ∅ l = (l, ∅, ∅).
Proof.
  induction l as [|b l IH] using rev_ind; [done|].
  rewrite merge_result_snoc, IH, chain_of_none. by destruct b.
Qed.

Lemma heads_none : heads ∅ = blocks bt.
Proof.
  unfold heads. generalize (blocks bt). intros l. induction l as [|b l IH]; [done|].
  rewrite filter_cons_True by apply not_elem_of_empty. by f_equal.
Qed.

Lemma merge_blocks_result :
  absorbed_to_merged bt = ∅ -> block_continuations bt = ∅ ->
  exists absorbed bt',
    BlockTable.merge_blocks registry bt = Some (Ok ((length (blocks bt) - length (blocks bt'))%nat, bt')) /\
    (blocks bt', absorbed_to_merged bt', block_continuations bt') = merge_result registry bt absorbed (heads absorbed) /\
    (forall x, x ∈ absorbed ->
       exists b, b ∈ blocks bt /\ BlockTable.get_merge_target registry bt b = Ok (Some x)).
Proof.
  intros Ha Hc. unfold BlockTable.merge_blocks.
  assert (forall n, n = 0%nat -> exists absorbed bt',
    Some (Ok (n, bt)) = Some (Ok ((length (blocks bt) - length (blocks bt'))%nat, bt')) /\
    (blocks bt', absorbed_to_merged bt', block_continuations bt') = merge_result registry bt absorbed (heads absorbed) /\
    (forall x, x ∈ absorbed ->
       exists b, b ∈ blocks bt /\ BlockTable.get_merge_target registry bt b = Ok (Some x))) as Hsame.
  { intros n ->. exists ∅, bt. rewrite Nat.sub_diag, merge_result_none, Ha, Hc. split_and!; [done| |set_solver].
    by rewrite heads_none. }
  destruct (find_absorbed_spec registry bt (blocks bt) ∅) as (absorbed & Ea & Hsrc); [intros; apply merge_target_total|].
  destruct (blocks bt) as [|b0 bs] eqn:Eb; [by apply Hsame|]. rewrite <- Eb in *. rewrite Ea.
  case_decide as He; [by apply Hsame|]. clear Hsame He.
  rewrite (merge_blocks_loop_spec registry bt absorbed Hstarts Hlasts (fun b _ => merge_target_total b)) by done.
  fold (heads absorbed). fold (merge_result registry bt absorbed (heads absorbed)).
  destruct (merge_result registry bt absorbed (heads absorbed)) as [[merged to] conts] eqn:Er.
  exists absorbed, (BlockTable.with_blocks (BlockTable.with_mappings bt to conts) merged).
  split_and!; [done | by rewrite Er|]. intros x [Hx|Hx]%Hsrc; [set_solver | done].
Qed.
End pass.

Lemma chain_count b l :
  foldl (fun n c => n + instruction_count c)%nat (instruction_count b) l =
  sum_list (map instruction_count (b :: l)).
Proof.
  cbn. generalize (instruction_count b). induction l as [|c l IH]; intros n; cbn; [lia|]. rewrite IH. lia.
Qed.

Lemma chain_last b l : foldl (fun _ c => last_pc c) (last_pc b) l = last_pc (chain_end b l).
Proof. revert b. induction l as [|c l IH]; intros b; cbn; [done|]. apply IH. Qed.

(** An edge that is the only way out of [b] and the only way into [c]. *)
Definition only_edge (registry : ExtensionRegistry) (bt : BlockTable) (b c : BasicBlock) : Prop :=
  goes_to registry bt (last_pc b) (b_start c) /\
  b_start c ∉ entry_points (instruction_table bt) /\
  bt_predecessors bt !! b_start c = Some {[last_pc b]}.

(** What becomes of a block that is not absorbed. *)
Lemma merged_block_chain registry bt
    (Hs : NoDup (map b_start (blocks bt))) (Hl : NoDup (map last_pc (blocks bt)))
    (Hterm : forall pc, exists term, BlockTable.terminator_at registry bt pc = Ok term) absorbed bt' b' :
  (blocks bt', absorbed_to_merged bt', block_continuations bt') = merge_result registry bt absorbed (heads bt absorbed) ->
  b' ∈ blocks bt' ->
  exists b, is_head bt absorbed b /\ b_start b' = b_start b /\ b_end b' = b_end b /\
    linked (only_edge registry bt) (b :: chain_of registry bt absorbed b) /\
    instruction_count b' = sum_list (map instruction_count (b :: chain_of registry bt absorbed b)) /\
    last_pc b' = last_pc (chain_end b (chain_of registry bt absorbed b)) /\
    default [] (block_continuations bt' !! b_start b) = map BlockTable.block_range (chain_of registry bt absorbed b).
Proof.
  intros Hres Hb'. pose proof (fun b (_ : b ∈ blocks bt) => merge_target_total registry bt Hterm b) as Hlift.
  pose proof (merge_result_blocks registry bt absorbed (heads bt absorbed)) as R1. rewrite <- Hres in R1.
  pose proof (fun h rs => merge_result_conts registry bt absorbed Hs Hl Hlift (heads bt absorbed) h rs
    (heads_starts bt Hs absorbed)) as R3. rewrite <- Hres in R3. cbn [fst snd] in R1, R3.
  rewrite R1 in Hb'. apply list_elem_of_fmap in Hb' as (b & -> & Hb). exists b.
  pose proof Hb as Hh%elem_of_heads. destruct (chain_of_spec registry bt absorbed Hs Hl Hlift b Hh) as (_ & Hlk & _).
  split_and!; [done.. | | apply chain_count | apply chain_last |].
  - revert Hlk. apply linked_mono. intros x y (?%get_merge_target_spec & _). done.
  - destruct (block_continuations bt' !! b_start b) as [rs|] eqn:Ers.
    + apply R3 in Ers as (b2 & Hb2%elem_of_heads & E2 & _ & ->). cbn.
      by rewrite (same_start bt Hs b b2) by (apply Hh || apply Hb2 || done).
    + destruct (chain_of registry bt absorbed b) eqn:Ech; [done|].
      assert (is_Some (block_continuations bt' !! b_start b)) as [? ?]; [|congruence].
      eexists. apply R3. exists b. rewrite Ech. eauto.
Qed.
