(* ===== verification/StaleFacts.v ===== *)
(** * Stale mappings

    [fix_stale_mappings] ends; afterwards every mapping leads to a block that is
    left, the one its chain of mappings reaches, and no range of code is lost. *)

From S2P Require Import Prelude Xlen IR IRBuild Isa Ext Registry InstrTable.
From S2P Require Import CfgData CfgScan CfgFlow BlockTable.
#[local] Open Scope word_scope.

Section follow.
Context (m : gmap Z Z) (remaining : gset Z).

(** One step along the mappings, from a block that is gone. *)
Definition maps (x y : Z) : Prop := x ∉ remaining /\ m !! x = Some y.

Lemma follow_total fuel : forall cur visited,
  (size (dom m ∖ visited) < fuel)%nat -> is_Some (BlockTable.follow m remaining (S fuel) cur visited).
Proof.
  induction fuel as [|fuel IH]; intros cur visited Hf; [lia|]. remember (S fuel) as f eqn:Ef.
  cbn [BlockTable.follow]. case_decide as Hv; [by eexists|]. case_decide; [by eexists|].
  destruct (m !! cur) as [next|] eqn:Hm; [|by eexists]. subst f. apply IH.
  assert (cur ∈ dom m ∖ visited) as Hc by (apply elem_of_difference; split; [by eapply elem_of_dom_2 | done]).
  assert (dom m ∖ ({[cur]} ∪ visited) ⊂ dom m ∖ visited) as Hss by set_solver.
  apply subset_size in Hss. lia.
Qed.

Lemma follow_found fuel : forall cur visited x,
  BlockTable.follow m remaining fuel cur visited = Some (Some x) -> x ∈ remaining /\ rtc maps cur x.
Proof.
  induction fuel as [|fuel IH]; intros cur visited x; [done|]. cbn [BlockTable.follow].
  case_decide; [done|]. case_decide as Hr; [by intros [= <-]|].
  destruct (m !! cur) as [next|] eqn:Hm; [|done]. intros (? & ?)%IH. split; [done|].
  eapply rtc_l; [|done]. done.
Qed.

(** Nothing is found only if the mappings do not lead to a block that is left.
    [visited] is what the path to [cur] has passed. *)
Lemma follow_lost fuel : forall cur visited x,
  BlockTable.follow m remaining fuel cur visited = Some None ->
  (forall v, v ∈ visited -> tc maps v cur) ->
  rtc maps cur x -> x ∉ remaining.
Proof.
  assert (forall v x, tc maps v v -> rtc maps v x -> tc maps x x) as Hcyc.
  { intros v x Hv Hr. induction Hr as [|v y x [Hv1 Hv2] _ IH]; [done|]. apply IH.
    inversion Hv as [? ? [? H]|? z ? [? H] Hz]; subst.
    - rewrite Hv2 in H. injection H as ->. done.
    - rewrite Hv2 in H. injection H as ->. eapply tc_r; [done|]. done. }
  induction fuel as [|fuel IH]; intros cur visited x; [done|]. cbn [BlockTable.follow].
  case_decide as Hv.
  - intros _ Hvis Hr. pose proof (Hcyc _ _ (Hvis _ Hv) Hr) as Hx. by inversion Hx as [? ? []|? ? ? []].
  - case_decide as Hrem; [done|]. destruct (m !! cur) as [next|] eqn:Hm.
    + intros Hf Hvis Hr. assert (maps cur next) as Hstep by done.
      inversion Hr as [|? y ? [_ Hy] Hr']; subst; [done|]. rewrite Hm in Hy. injection Hy as <-.
      eapply (IH next _ x Hf); [|done]. intros v [->%elem_of_singleton|Hv']%elem_of_union.
      * by apply tc_once.
      * eapply tc_r; [by apply Hvis | done].
    + intros _ _ Hr. inversion Hr as [|? y ? [_ Hy] Hr']; subst; [done|]. congruence.
Qed.

(** ** The lists of updates *)

(** What the code looks up for a mapping from [pc]. *)
Definition resolve (pc target : Z) : option Z :=
  if decide (target ∈ remaining) then Some target
  else
    match BlockTable.follow m remaining (S (S (size m))) target {[pc]} with
    | Some r => r
    | None => None
    end.

Lemma resolve_found pc target x :
  resolve pc target = Some x -> x ∈ remaining /\ rtc maps target x.
Proof.
  unfold resolve. case_decide; [by intros [= <-]|].
  destruct (BlockTable.follow _ _ _ _ _) as [[y|]|] eqn:E; [|done..]. intros [= <-]. by eapply follow_found.
Qed.

Lemma resolve_complete pc target x :
  m !! pc = Some target -> pc ∉ remaining -> x ∈ remaining -> rtc maps target x -> is_Some (resolve pc target).
Proof.
  intros Hm Hpc Hx Hr. unfold resolve. case_decide as Ht; [by eexists|].
  destruct (follow_total (S (size m)) target {[pc]}) as [r Er].
  { rewrite <- size_dom. assert (dom m ∖ {[pc]} ⊆ dom m) as H%subseteq_size by set_solver. lia. }
  rewrite Er. destruct r as [y|]; [by eexists|]. exfalso.
  eapply (follow_lost _ _ _ x Er); [|done..]. intros v ->%elem_of_singleton. by apply tc_once.
Qed.

Lemma stale_spec l : exists up rm,
  BlockTable.stale m remaining l = Some (up, rm) /\
  (forall pc x, (pc, x) ∈ up <-> exists t, (pc, t) ∈ l /\ t ∉ remaining /\ resolve pc t = Some x) /\
  (forall pc, pc ∈ rm <-> exists t, (pc, t) ∈ l /\ resolve pc t = None).
Proof.
  induction l as [|[pc t] l (up & rm & E & Hup & Hrm)].
  { exists [], []. split; [done|]. split; intros; split; try by intros ?%elem_of_nil.
    - by intros (? & ?%elem_of_nil & _).
    - by intros (? & ?%elem_of_nil & _). }
  assert (forall p (P : Z -> Prop), (exists t', (p, t') ∈ (pc, t) :: l /\ P t') <->
    (p = pc /\ P t) \/ exists t', (p, t') ∈ l /\ P t') as Hc.
  { intros p P. setoid_rewrite elem_of_cons. naive_solver. }
  cbn [BlockTable.stale]. rewrite E. setoid_rewrite Hc. setoid_rewrite <- Hup. setoid_rewrite <- Hrm.
  clear Hc Hup Hrm E. destruct (decide (t ∈ remaining)) as [Ht|Ht].
  - exists up, rm. split; [done|]. assert (resolve pc t = Some t) as Hr by (unfold resolve; by rewrite decide_True).
    split; intros; (split; [tauto|]); [by intros [(_ & ? & _)|?] | by intros [[-> H]|?]; [rewrite Hr in H|]].
  - destruct (follow_total (S (size m)) t {[pc]}) as [r Er].
    { rewrite <- size_dom. assert (dom m ∖ {[pc]} ⊆ dom m) as H%subseteq_size by set_solver. lia. }
    assert (resolve pc t = r) as Hr by (unfold resolve; by rewrite decide_False, Er).
    rewrite Er. cbn [mbind option_bind]. destruct r as [y|].
    + exists ((pc, y) :: up), rm. split; [done|]. split; intros; [rewrite elem_of_cons|]; split.
      * intros [[= -> ->]|?]; auto.
      * intros [(-> & _ & H)|?]; [rewrite Hr in H; injection H as <-|]; auto.
      * auto.
      * by intros [[-> H]|?]; [rewrite Hr in H|].
    + exists up, (pc :: rm). split; [done|]. split; intros; [|rewrite elem_of_cons]; split.
      * auto.
      * by intros [(-> & _ & H)|?]; [rewrite Hr in H|].
      * intros [->|?]; auto.
      * intros [[-> _]|?]; auto.
Qed.
End follow.

(** ** Applying them *)

Section fix_stale.
Context (o : Order).

Lemma updates_keep up : forall bt,
  blocks (foldl (BlockTable.update_mapping o) bt up) = blocks bt /\
  (forall pc, (forall x, (pc, x) ∉ up) ->
     absorbed_to_merged (foldl (BlockTable.update_mapping o) bt up) !! pc = absorbed_to_merged bt !! pc) /\
  (forall pc x, (pc, x) ∈ up -> (forall y, (pc, y) ∈ up -> y = x) ->
     absorbed_to_merged (foldl (BlockTable.update_mapping o) bt up) !! pc = Some x).
Proof.
  induction up as [|[p y] up IH]; intros bt; cbn [foldl].
  { split_and!; [done..|]. by intros pc x ?%elem_of_nil. }
  destruct (IH (BlockTable.update_mapping o bt (p, y))) as (H1 & H2 & H3).
  cbn [BlockTable.update_mapping BlockTable.with_mappings blocks absorbed_to_merged] in *.
  setoid_rewrite elem_of_cons. split_and!; [done| |].
  - intros pc Hno. rewrite H2 by (intros x Hx; apply (Hno x); auto).
    destruct (decide (pc = p)) as [->|]; [|by rewrite lookup_insert_ne]. destruct (Hno y); auto.
  - intros pc x Hin Huniq. destruct (decide (Exists (fun u => u.1 = pc) up)) as [He|He].
    + apply Exists_exists in He as ([pc' z] & Hz & E). cbn in E. subst pc'.
      rewrite <- (Huniq z (or_intror Hz)). apply H3; [done|]. intros w Hw.
      rewrite (Huniq w (or_intror Hw)). symmetry. apply Huniq. auto.
    + assert (forall z, (pc, z) ∉ up) as Hno by (intros z Hz; apply He, Exists_exists; eauto).
      rewrite H2 by done. destruct Hin as [[= -> ->]|Hin]; [apply lookup_insert_eq | by destruct (Hno x)].
Qed.

Lemma removes_keep rm : forall bt,
  blocks (foldl BlockTable.remove_mapping bt rm) = blocks bt /\
  block_continuations (foldl BlockTable.remove_mapping bt rm) = block_continuations bt /\
  (forall pc, absorbed_to_merged (foldl BlockTable.remove_mapping bt rm) !! pc =
     if decide (pc ∈ rm) then None else absorbed_to_merged bt !! pc).
Proof.
  induction rm as [|p rm IH]; intros bt; cbn [foldl].
  { split_and!; [done..|]. intros pc. by rewrite decide_False by by intros ?%elem_of_nil. }
  destruct (IH (BlockTable.remove_mapping bt p)) as (H1 & H2 & H3).
  cbn [BlockTable.remove_mapping BlockTable.with_mappings blocks absorbed_to_merged block_continuations] in *.
  split_and!; [done..|]. intros pc. rewrite H3. destruct (decide (pc ∈ rm)) as [Hr|Hr].
  - by rewrite decide_True by (apply elem_of_cons; auto).
  - destruct (decide (pc = p)) as [->|Hne].
    + by rewrite lookup_delete_eq, decide_True by (apply elem_of_cons; auto).
    + rewrite lookup_delete_ne by done. by rewrite decide_False by (rewrite elem_of_cons; tauto).
Qed.

(** The mappings after the fix. *)
Lemma fix_stale_spec bt :
  (forall m, iter_absorbed o m ≡ₚ map_to_list m) ->
  let remaining : gset Z := list_to_set (map b_start (blocks bt)) in
  exists bt', BlockTable.fix_stale_mappings o bt = Some bt' /\ blocks bt' = blocks bt /\
    forall pc, absorbed_to_merged bt' !! pc =
      target ← absorbed_to_merged bt !! pc; resolve (absorbed_to_merged bt) remaining pc target.
Proof.
  intros Ho remaining. unfold BlockTable.fix_stale_mappings.
  change (list_to_set (map b_start (blocks bt))) with remaining.
  set (m := absorbed_to_merged bt).
  destruct (stale_spec m remaining (iter_absorbed o m)) as (up & rm & -> & Hup & Hrm).
  cbn [mbind option_bind mret option_ret]. eexists. split; [done|].
  destruct (updates_keep up bt) as (U1 & U2 & U3). destruct (removes_keep rm (foldl (BlockTable.update_mapping o) bt up)) as (R1 & R2 & R3).
  split; [by rewrite R1|]. intros pc. rewrite R3.
  assert (forall t, (pc, t) ∈ iter_absorbed o m <-> m !! pc = Some t) as Hin
    by (intros t; rewrite Ho; by rewrite elem_of_map_to_list).
  destruct (decide (pc ∈ rm)) as [Hr|Hr].
  - apply Hrm in Hr as (t & Ht%Hin & Hres). rewrite Ht. cbn. congruence.
  - destruct (m !! pc) as [t|] eqn:Ht; cbn.
    + destruct (resolve m remaining pc t) as [x|] eqn:Hres.
      2:{ destruct Hr. apply Hrm. exists t. split; [by apply Hin | done]. }
      destruct (decide (t ∈ remaining)) as [Hrem|Hrem].
      * unfold resolve in Hres. rewrite decide_True in Hres by done. injection Hres as <-.
        rewrite U2; [done|]. intros x (t' & Ht'%Hin & Hn & _)%Hup. congruence.
      * apply U3.
        -- apply Hup. exists t. split; [by apply Hin | done].
        -- intros y (t' & Ht'%Hin & _ & Hy)%Hup. congruence.
    + rewrite U2; [done|]. intros x (t' & Ht'%Hin & _)%Hup. congruence.
Qed.

(** ** Ranges of code *)

(** The ranges of all continuations. *)
Definition all_ranges (m : gmap Z (list range)) : list range := map_to_list m ≫= snd.

Lemma all_ranges_insert m k l :
  all_ranges (<[k := l]> m) ++ default [] (m !! k) ≡ₚ all_ranges m ++ l.
Proof.
  unfold all_ranges. destruct (m !! k) as [l0|] eqn:E; cbn [default].
  - rewrite <- (insert_delete_id m k l0 E) at 2. rewrite <- insert_delete_eq.
    rewrite !map_to_list_insert by apply lookup_delete_eq. rewrite !bind_cons. cbn [snd].
    rewrite Permutation_app_comm, <- (app_assoc l0). apply Permutation_app_head, Permutation_app_comm.
  - rewrite map_to_list_insert by done. rewrite bind_cons. cbn [snd from_option].
    by rewrite app_nil_r, Permutation_app_comm.
Qed.

Lemma push_ranges m k r : all_ranges (BlockTable.push_continuation m k r) ≡ₚ r :: all_ranges m.
Proof.
  unfold BlockTable.push_continuation. pose proof (all_ranges_insert m k (default [] (m !! k) ++ [r])) as H.
  rewrite app_assoc in H. rewrite (Permutation_app_comm (all_ranges m)) in H.
  rewrite (Permutation_app_comm _ (default [] _)), <- app_assoc in H. apply Permutation_app_inv_l in H.
  rewrite H. by rewrite Permutation_app_comm.
Qed.

Lemma take_range_perm pc l r l' : BlockTable.take_range pc l = Some (r, l') -> l ≡ₚ r :: l'.
Proof.
  revert l'. induction l as [|x l IH]; intros l'; [done|]. cbn [BlockTable.take_range].
  destruct (_ =? _); [by intros [= <- <-]|].
  destruct (BlockTable.take_range pc l) as [[y l'']|]; [|done]. intros [= <- <-].
  rewrite (IH l'' eq_refl). apply Permutation_swap.
Qed.

Lemma move_range_perm pc keys : forall m r m',
  BlockTable.move_range pc keys m = Some (r, m') -> all_ranges m ≡ₚ r :: all_ranges m'.
Proof.
  induction keys as [|k keys IH]; intros m r m'; [done|]. cbn [BlockTable.move_range].
  destruct (m !! k ≫= BlockTable.take_range pc) as [[x l]|] eqn:E; [|apply IH]. intros [= <- <-].
  apply bind_Some in E as (l0 & Hk & Ht%take_range_perm).
  pose proof (all_ranges_insert m k l) as H. rewrite Hk in H. cbn [default from_option id] in H. rewrite Ht in H.
  apply (Permutation_app_inv_r l). rewrite <- H. by rewrite <- Permutation_middle.
Qed.

Lemma updates_ranges up : forall bt,
  all_ranges (block_continuations (foldl (BlockTable.update_mapping o) bt up)) ≡ₚ
  all_ranges (block_continuations bt).
Proof.
  induction up as [|[p y] up IH]; intros bt; cbn [foldl]; [done|]. rewrite IH.
  cbn [BlockTable.update_mapping BlockTable.with_mappings block_continuations].
  destruct (BlockTable.move_range _ _ _) as [[r m']|] eqn:E; [|done].
  by rewrite push_ranges, (move_range_perm _ _ _ _ _ E).
Qed.

Lemma fix_stale_ranges bt bt' :
  BlockTable.fix_stale_mappings o bt = Some bt' ->
  all_ranges (block_continuations bt') ≡ₚ all_ranges (block_continuations bt).
Proof.
  unfold BlockTable.fix_stale_mappings. destruct (BlockTable.stale _ _ _) as [[up rm]|]; [|done].
  intros [= <-]. destruct (removes_keep rm (foldl (BlockTable.update_mapping o) bt up)) as (_ & -> & _).
  apply updates_ranges.
Qed.
End fix_stale.
