(* ===== verification/SuperFacts.v ===== *)
(** * Superblocks

    The chains of [form_superblocks] are disjoint paths of blocks with one
    predecessor at most, appended to blocks that stay. *)

From S2P Require Import Prelude Xlen IR IRBuild Isa Ext Registry InstrTable.
From S2P Require Import CfgData CfgScan CfgFlow BlockTable MergeFacts.
Import BlockTable.
#[local] Open Scope word_scope.

Lemma absorb_cons (x : Z) l (a : gset Z) : list_to_set l ∪ ({[x]} ∪ a) = list_to_set (x :: l) ∪ a.
Proof. set_solver. Qed.

Lemma absorb_one (x : Z) (a : gset Z) : {[x]} ∪ a = list_to_set [x] ∪ a.
Proof. set_solver. Qed.

Lemma absorb_nil (a : gset Z) : list_to_set [] ∪ a = a.
Proof. set_solver. Qed.

Section super.
Context (registry : ExtensionRegistry) (bt : BlockTable) (targets : gset Z) (max_depth : nat).

Definition ctx : SuperblockContext :=
  mkContext (entry_points (instruction_table bt)) (start_to_idx (blocks bt)) targets.

Hypothesis (Hstarts : NoDup (map b_start (blocks bt))).
Hypothesis (Hterm : forall pc, exists term, terminator_at registry bt pc = Ok term).

(** The block at [x] continues at [y] only. *)
Definition flows (x y : Z) : Prop :=
  exists b, b ∈ blocks bt /\ b_start b = x /\
    ((exists target, terminator_at registry bt (last_pc b) = Ok (Some (Fall target)) /\ y = default (b_end b) target) \/
     terminator_at registry bt (last_pc b) = Ok (Some (Jump y))).

(** A block that a chain may absorb. *)
Definition absorbable (x : Z) : Prop :=
  x ∉ entry_points (instruction_table bt) /\ x ∉ targets /\
  (forall ps, bt_predecessors bt !! x = Some ps -> (size ps <= 1)%nat) /\
  exists b, b ∈ blocks bt /\ b_start b = x.

Lemma idx_lookup x k : start_to_idx (blocks bt) !! x = Some k ->
  exists b, blocks bt !! k = Some b /\ b ∈ blocks bt /\ b_start b = x.
Proof.
  intros (b & Hb & <-)%start_to_idx_spec; [|done]. exists b. split_and!; [done| |done]. by eapply list_elem_of_lookup_2.
Qed.

Lemma idx_some b : b ∈ blocks bt -> exists k, start_to_idx (blocks bt) !! b_start b = Some k /\ blocks bt !! k = Some b.
Proof. intros (k & Hk)%list_elem_of_lookup. exists k. split; [|done]. apply start_to_idx_spec; eauto. Qed.

Record chain_ok (heads absorbed : gset Z) (pc : Z) (chain : list Z) : Prop := {
  chain_nodup : NoDup chain;
  chain_new x : x ∈ chain -> x ∉ absorbed /\ x ∉ heads /\ absorbable x;
  chain_head x : head chain = Some x -> x = pc;
  chain_linked : linked flows chain
}.

Lemma chain_ok_nil heads absorbed pc : chain_ok heads absorbed pc [].
Proof. split; [constructor | by intros ? ?%elem_of_nil | done..]. Qed.

Lemma build_chain_spec heads depth : forall pc absorbed,
  exists chain, build_superblock_chain registry bt heads ctx depth pc absorbed = Ok (chain, list_to_set chain ∪ absorbed) /\
    chain_ok heads absorbed pc chain /\ (length chain <= depth)%nat.
Proof.
  induction depth as [|depth IH]; intros pc absorbed; cbn [build_superblock_chain].
  { exists []. rewrite absorb_nil. split_and!; [done | apply chain_ok_nil | done]. }
  assert (exists chain, Ok ([], absorbed) = Ok (chain, list_to_set chain ∪ absorbed) /\
    chain_ok heads absorbed pc chain /\ (length chain <= S depth)%nat) as Hstop.
  { exists []. rewrite absorb_nil. split_and!; [done | apply chain_ok_nil | cbn; lia]. }
  destruct (_ || _) eqn:E1; [done|]. apply orb_false_iff in E1 as [Ha%bool_decide_eq_false He%bool_decide_eq_false].
  destruct (x_start_to_idx ctx !! pc) as [k|] eqn:Hk; [|done].
  destruct (_ || _) eqn:E2; [done|]. apply orb_false_iff in E2 as [Hm%bool_decide_eq_false Hh%bool_decide_eq_false].
  destruct (match bt_predecessors bt !! pc with Some preds => _ | None => _ end) eqn:Hp; [done|].
  destruct (idx_lookup _ _ Hk) as (b & -> & Hb & Hs).
  destruct (Hterm (last_pc b)) as [[term|] Ht]; rewrite Ht; cbn [mbind result_bind]; [|done].
  assert (absorbable pc) as Hab.
  { split_and!; [done..| |by exists b]. intros ps Hps. rewrite Hps in Hp. by apply Nat.ltb_ge in Hp. }
  set (next := match term with Fall target => _ | Jump target => _ | _ => None end).
  assert (forall y, next = Some y -> flows pc y) as Hflow.
  { intros y Hy. exists b. split_and!; [done..|]. unfold next in Hy. destruct term; try done; injection Hy as <-; eauto. }
  destruct next as [y|].
  - destruct (IH y ({[pc]} ∪ absorbed)) as (chain & -> & Hc & Hl). exists (pc :: chain).
    split; [by rewrite <- absorb_cons|]. split; [|cbn; lia]. split.
    + constructor; [|apply (chain_nodup _ _ _ _ Hc)]. intros (Hin & _)%(chain_new _ _ _ _ Hc).
      by apply Hin, elem_of_union_l, elem_of_singleton.
    + intros x [->|(Hn & ? & ?)%(chain_new _ _ _ _ Hc)]%elem_of_cons; [done|].
      split; [|done]. intros Hx. by apply Hn, elem_of_union_r.
    + by intros x [= <-].
    + apply linked_cons. split; [|apply (chain_linked _ _ _ _ Hc)]. intros x Hx.
      rewrite (chain_head _ _ _ _ Hc x Hx). by apply Hflow.
  - exists [pc]. split; [by rewrite <- absorb_one|]. split; [|cbn; lia]. split.
    + apply NoDup_singleton.
    + by intros x ->%list_elem_of_singleton.
    + by intros x [= <-].
    + done.
Qed.

(** ** The plan *)

(** [done_] are the blocks that were looked at. *)
Record plan_ok (done_ : list BasicBlock) (p : SuperblockPlan) : Prop := {
  plan_heads h : h ∈ p_heads p -> h ∉ p_absorbed p /\ h ∉ targets /\ h ∈ map b_start done_;
  plan_absorbed x : x ∈ p_absorbed p <-> exists h chain, p_chains p !! h = Some chain /\ x ∈ chain;
  plan_absorbable x : x ∈ p_absorbed p -> absorbable x;
  plan_chains h chain : p_chains p !! h = Some chain ->
    h ∈ p_heads p /\ NoDup chain /\ linked flows chain /\ (length chain <= max_depth)%nat /\
    exists b, b ∈ blocks bt /\ b_start b = h /\ head chain = Some (b_end b) /\
      exists cond target fall hint,
        terminator_at registry bt (last_pc b) = Ok (Some (Branch cond target fall hint));
  plan_disjoint h chain h' chain' x :
    p_chains p !! h = Some chain -> p_chains p !! h' = Some chain' -> x ∈ chain -> x ∈ chain' -> h = h'
}.

Lemma plan_ok_more done_ b p : plan_ok done_ p -> plan_ok (done_ ++ [b]) p.
Proof.
  intros Hp. split; [|apply Hp..]. intros h (? & ? & ?)%(plan_heads _ _ Hp). split_and!; [done..|].
  rewrite map_app. apply elem_of_app. by left.
Qed.

Lemma plan_ok_inlines done_ p l : plan_ok done_ p ->
  plan_ok done_ (mkPlan (p_absorbed p) (p_heads p) (p_chains p) l).
Proof. intros Hp. split; apply Hp. Qed.

Lemma maybe_inline_total b taken absorbed :
  exists r, maybe_inline_taken_path registry bt b taken absorbed ctx = Ok r.
Proof.
  unfold maybe_inline_taken_path.
  destruct (bool_decide (taken ∈ x_entry_points ctx)); cbn [orb]; [by eexists|].
  case_bool_decide as Hi; cbn [negb orb]; [|by eexists]. destruct (_ || _); [by eexists|].
  destruct (bt_predecessors bt !! taken); [|by eexists]. destruct (negb _); [by eexists|].
  destruct Hi as [k Hk]. rewrite Hk. cbn [mbind option_bind]. destruct (idx_lookup _ _ Hk) as (c & -> & _).
  destruct (_ <? _)%nat; [by eexists|]. destruct (Hterm (last_pc c)) as [term ->]. by eexists.
Qed.

Lemma plan_block_ok done_ b p :
  b ∈ blocks bt -> b_start b ∉ map b_start done_ -> plan_ok done_ p ->
  exists p', plan_block registry bt ctx max_depth b p = Ok p' /\ plan_ok (done_ ++ [b]) p'.
Proof.
  intros Hb Hnew Hp. unfold plan_block. apply (plan_ok_more _ b) in Hp as Hp'.
  destruct (_ || _) eqn:E; [by eexists|].
  apply orb_false_iff in E as [Ha%bool_decide_eq_false Hm%bool_decide_eq_false].
  destruct (Hterm (last_pc b)) as [term Ht]. rewrite Ht. cbn [mbind result_bind].
  destruct term as [[| | |cond target fall hint| |]|]; try by eexists.
  destruct (maybe_inline_total b target (p_absorbed p)) as [inl ->].
  destruct (_ || _); [eexists; split; [done | by apply plan_ok_inlines]|].
  cbn [p_absorbed p_heads p_chains p_inlines].
  set (heads := {[b_start b]} ∪ p_heads p).
  destruct (build_chain_spec heads max_depth (b_end b) (p_absorbed p)) as (chain & -> & Hc & Hlen).
  cbn [mbind result_bind]. eexists. split; [done|].
  assert (p_chains p !! b_start b = None) as Hfresh.
  { destruct (p_chains p !! b_start b) as [ch|] eqn:Ech; [|done]. exfalso.
    destruct (plan_chains _ _ Hp _ _ Ech) as (Hh & _). apply (plan_heads _ _ Hp) in Hh as (_ & _ & Hh). done. }
  set (chains := match chain with [] => p_chains p | _ => <[b_start b := chain]> (p_chains p) end).
  assert (forall h ch, chains !! h = Some ch <-> (h = b_start b /\ ch = chain /\ chain <> []) \/ p_chains p !! h = Some ch)
    as Hch.
  { intros h ch. unfold chains. destruct chain as [|z zs].
    { split; [by right|]. by intros [(_ & _ & ?)|?]. }
    destruct (decide (h = b_start b)) as [->|Hne].
    - rewrite lookup_insert_eq, Hfresh. split; [intros [= <-]; by left|]. by intros [(_ & -> & _)|?].
    - rewrite lookup_insert_ne by done. split; [by right|]. by intros [(? & _)|?]. }
  clearbody chains. split; cbn [p_absorbed p_heads p_chains].
  - intros h [->%elem_of_singleton|Hh]%elem_of_union.
    + split_and!; [|done|].
      * intros [Hin%elem_of_list_to_set|Hin]%elem_of_union; [|done].
        destruct (chain_new _ _ _ _ Hc _ Hin) as (_ & Hh & _). by apply Hh, elem_of_union_l, elem_of_singleton.
      * rewrite map_app. apply elem_of_app. right. by apply list_elem_of_singleton.
    + destruct (plan_heads _ _ Hp' _ Hh) as (Hh1 & Hh2 & Hh3). split_and!; [|done..].
      intros [Hin%elem_of_list_to_set|Hin]%elem_of_union; [|done].
      destruct (chain_new _ _ _ _ Hc _ Hin) as (_ & Hh' & _). by apply Hh', elem_of_union_r.
  - intros x. rewrite elem_of_union, elem_of_list_to_set, (plan_absorbed _ _ Hp). setoid_rewrite Hch. split.
    + intros [Hx|(h & ch & H1 & H2)]; [|exists h, ch; auto]. exists (b_start b), chain.
      split; [left; split_and!; [done..|] | done]. by intros ->; apply elem_of_nil in Hx.
    + intros (h & ch & [(-> & -> & _)|H1] & H2); [by left|]. right. eauto.
  - intros x [Hin%elem_of_list_to_set|Hin]%elem_of_union.
    + by apply (chain_new _ _ _ _ Hc) in Hin as (_ & _ & ?).
    + by apply (plan_absorbable _ _ Hp).
  - intros h ch [(-> & -> & Hne)|Hold]%Hch.
    + split_and!; [by apply elem_of_union_l, elem_of_singleton | apply (chain_nodup _ _ _ _ Hc)
        | apply (chain_linked _ _ _ _ Hc) | done |].
      exists b. split_and!; [done..| |by eauto].
      destruct (head chain) as [x|] eqn:Eh; [|by destruct chain]. by rewrite (chain_head _ _ _ _ Hc x Eh).
    + destruct (plan_chains _ _ Hp _ _ Hold) as (? & ?). split; [by apply elem_of_union_r | done].
  - assert (forall h ch x, p_chains p !! h = Some ch -> x ∈ ch -> x ∈ chain -> False) as Hd.
    { intros h ch x H1 H2 H3. apply (chain_new _ _ _ _ Hc) in H3 as [H3 _]. apply H3, (plan_absorbed _ _ Hp). eauto. }
    intros h ch h' ch' x [(-> & -> & _)|H1]%Hch [(-> & -> & _)|H2]%Hch Hx Hx'.
    + done.
    + by destruct (Hd h' ch' x).
    + by destruct (Hd h ch x).
    + by eapply (plan_disjoint _ _ Hp).
Qed.

Lemma collect_ok l : forall done_ p,
  blocks bt = done_ ++ l -> plan_ok done_ p ->
  exists p', collect_superblock_chains registry bt ctx max_depth l p = Ok p' /\ plan_ok (blocks bt) p'.
Proof.
  induction l as [|b l IH]; intros done_ p E Hp; cbn [collect_superblock_chains].
  { rewrite app_nil_r in E. rewrite E. by eexists. }
  destruct (plan_block_ok done_ b p) as (p' & -> & Hp'); [| |done|].
  - rewrite E. apply elem_of_app. right. by left.
  - rewrite E, map_app in Hstarts. cbn [map] in Hstarts. apply NoDup_app in Hstarts as (_ & Hd & _).
    intros Hin. apply (Hd _ Hin). by left.
  - cbn [mbind result_bind]. apply (IH (done_ ++ [b])); [by rewrite <- app_assoc | done].
Qed.
End super.

(** ** Applying the plan *)

Section apply.
Context (idx : gmap Z nat).

(** The ranges of the blocks at the given addresses. *)
Definition ranges_at (l : list BasicBlock) (xs : list Z) : list range :=
  omap (fun x => block_range <$> (idx !! x ≫= (l !!.))) xs.

Lemma apply_chain_spec h chain : forall bt,
  (forall x, x ∈ chain -> is_Some (idx !! x ≫= (blocks bt !!.))) ->
  exists bt', apply_chain idx h chain bt = Ok bt' /\
    blocks bt' = blocks bt /\ instruction_table bt' = instruction_table bt /\
    bt_predecessors bt' = bt_predecessors bt /\ taken_inlines bt' = taken_inlines bt /\
    (forall x, absorbed_to_merged bt' !! x = if decide (x ∈ chain) then Some h else absorbed_to_merged bt !! x) /\
    (forall k, default [] (block_continuations bt' !! k) =
       default [] (block_continuations bt !! k) ++ if decide (k = h) then ranges_at (blocks bt) chain else []).
Proof.
  induction chain as [|x chain IH]; intros bt Hx; cbn [apply_chain].
  { exists bt. split_and!; [done..| |].
    - intros x. by rewrite decide_False by by intros ?%elem_of_nil.
    - intros k. case_decide; by rewrite app_nil_r. }
  destruct (Hx x) as [b Hb]; [by left|]. unfold absorb_into. rewrite Hb. cbn [mbind result_bind].
  set (bt1 := with_mappings _ _ _).
  destruct (IH bt1) as (bt' & -> & H1 & H2 & H3 & H4 & H5 & H6); [intros; apply Hx; by right|].
  exists bt'. split_and!; [done..| |].
  - intros y. rewrite H5. cbn [bt1 with_mappings absorbed_to_merged].
    destruct (decide (y ∈ chain)) as [Hy|Hy]; [by rewrite decide_True by by right|].
    destruct (decide (y = x)) as [->|Hne].
    + by rewrite lookup_insert_eq, decide_True by by left.
    + rewrite lookup_insert_ne by done. by rewrite decide_False by (rewrite elem_of_cons; tauto).
  - intros k. rewrite H6. cbn [bt1 with_mappings block_continuations blocks].
    unfold push_continuation. destruct (decide (k = h)) as [->|Hne].
    + rewrite lookup_insert_eq. cbn [default from_option id]. rewrite <- app_assoc. f_equal.
      unfold ranges_at. cbn [omap list_omap app]. rewrite Hb. done.
    + by rewrite lookup_insert_ne.
Qed.

Lemma apply_chains_spec l : forall bt,
  NoDup l.*1 ->
  (forall h chain x, (h, chain) ∈ l -> x ∈ chain -> is_Some (idx !! x ≫= (blocks bt !!.))) ->
  (forall h chain h' chain' x, (h, chain) ∈ l -> (h', chain') ∈ l -> x ∈ chain -> x ∈ chain' -> h = h') ->
  exists bt', apply_superblock_chains idx l bt = Ok bt' /\
    blocks bt' = blocks bt /\ instruction_table bt' = instruction_table bt /\
    bt_predecessors bt' = bt_predecessors bt /\ taken_inlines bt' = taken_inlines bt /\
    (forall h chain, (h, chain) ∈ l ->
       (forall x, x ∈ chain -> absorbed_to_merged bt' !! x = Some h) /\
       default [] (block_continuations bt' !! h) =
         default [] (block_continuations bt !! h) ++ ranges_at (blocks bt) chain) /\
    (forall x, (forall h chain, (h, chain) ∈ l -> x ∉ chain) ->
       absorbed_to_merged bt' !! x = absorbed_to_merged bt !! x) /\
    (forall k, k ∉ l.*1 -> default [] (block_continuations bt' !! k) = default [] (block_continuations bt !! k)).
Proof.
  induction l as [|[h chain] l IH]; intros bt Hn Hidx Hdis; cbn [apply_superblock_chains].
  { exists bt. split_and!; [done..| |done|done]. by intros ? ? ?%elem_of_nil. }
  cbn in Hn. apply NoDup_cons in Hn as [Hh Hn].
  destruct (apply_chain_spec h chain bt) as (bt1 & -> & B1 & B2 & B3 & B4 & B5 & B6).
  { intros x Hx. eapply Hidx; [by left | done]. }
  cbn [mbind result_bind]. destruct (IH bt1 Hn) as (bt' & -> & C1 & C2 & C3 & C4 & C5 & C6 & C7).
  - intros h' ch x Hin Hx. rewrite B1. eapply Hidx; [by right | done].
  - intros. eapply Hdis; [right..| |]; done.
  - exists bt'. rewrite C1, C2, C3, C4. split_and!; [done..| | |].
    + intros h' ch [[= -> ->]|Hin]%elem_of_cons.
      * split.
        -- intros x Hx. rewrite C6, B5, decide_True by done || (intros h' ch' Hin Hx'; apply Hh;
             rewrite (Hdis h chain h' ch' x) by (done || by left || by right); apply list_elem_of_fmap; by exists (h', ch')).
           done.
        -- rewrite C7, B6, decide_True by done. done.
      * destruct (C5 h' ch Hin) as [D1 D2]. split; [done|]. rewrite D2, B1, B6.
        assert (h' <> h). { intros ->. apply Hh, list_elem_of_fmap. by exists (h, ch). }
        rewrite decide_False by done. by rewrite app_nil_r.
    + intros x Hno. rewrite C6 by (intros h' ch Hin; apply (Hno h' ch); by right).
      rewrite B5, decide_False; [done|]. apply (Hno h chain). by left.
    + intros k Hk. cbn in Hk. apply not_elem_of_cons in Hk as [Hk1 Hk2].
      rewrite C7 by done. rewrite B6, decide_False by done. by rewrite app_nil_r.
Qed.
End apply.

(** ** The whole pass *)

(** What forming superblocks makes of [bt]: [gone] are the absorbed blocks,
    [chains] says into which block they went. *)
Record superblocks_ok (registry : ExtensionRegistry) (bt : BlockTable) (max_depth n : nat) (bt' : BlockTable)
    (gone : gset Z) (chains : gmap Z (list Z)) : Prop := {
  super_blocks : blocks bt' = filter (fun b => b_start b ∉ gone) (blocks bt);
  super_count : (n + length (blocks bt') = length (blocks bt))%nat;
  super_targets x h : absorbed_to_merged bt !! x = Some h -> h ∉ gone;
  super_gone x : x ∈ gone -> exists h chain, chains !! h = Some chain /\ x ∈ chain /\
    absorbed_to_merged bt' !! x = Some h /\ h ∈ map b_start (blocks bt') /\
    x ∉ entry_points (instruction_table bt) /\
    (forall ps, bt_predecessors bt !! x = Some ps -> (size ps <= 1)%nat);
  super_chains h chain : chains !! h = Some chain ->
    exists b, b ∈ blocks bt' /\ b_start b = h /\ (length chain <= max_depth)%nat /\
    head chain = Some (b_end b) /\ linked (flows registry bt) chain /\
    default [] (block_continuations bt' !! h) =
      default [] (block_continuations bt !! h) ++ ranges_at (start_to_idx (blocks bt)) (blocks bt) chain;
  super_others k : chains !! k = None ->
    default [] (block_continuations bt' !! k) = default [] (block_continuations bt !! k);
  super_mapped x : x ∉ gone -> absorbed_to_merged bt' !! x = absorbed_to_merged bt !! x
}.

Lemma superblocks_ok_none registry bt max_depth inl :
  superblocks_ok registry bt max_depth 0 (with_inlines bt inl) ∅ ∅.
Proof.
  split; cbn [blocks with_inlines absorbed_to_merged block_continuations]; try done.
  symmetry. apply (heads_none bt).
Qed.

Lemma plan_ok_empty registry bt targets max_depth : plan_ok registry bt targets max_depth [] (mkPlan ∅ ∅ ∅ []).
Proof.
  split; cbn [p_absorbed p_heads p_chains].
  - intros h Hh. by apply not_elem_of_empty in Hh.
  - intros x. split; [intros H; by apply not_elem_of_empty in H|]. intros (? & ? & H & _). by rewrite lookup_empty in H.
  - intros x H. by apply not_elem_of_empty in H.
  - intros h chain. by rewrite lookup_empty.
  - intros h chain h' chain' x. by rewrite lookup_empty.
Qed.

Section whole.
Context (registry : ExtensionRegistry) (o : Order) (bt : BlockTable) (max_depth : nat).
Hypothesis (Ho : order_ok o) (Hstarts : NoDup (map b_start (blocks bt))).

(** Applying a plan. *)
Lemma apply_plan (targets : gset Z) p inl :
  (forall x h, absorbed_to_merged bt !! x = Some h -> h ∈ targets) ->
  plan_ok registry bt targets max_depth (blocks bt) p ->
  exists bt1, apply_superblock_chains (start_to_idx (blocks bt)) (iter_chains o (p_chains p)) (with_inlines bt inl) = Ok bt1 /\
    let left := drop_blocks (blocks bt1) (p_absorbed p) in
    superblocks_ok registry bt max_depth (length (blocks bt1) - length left) (with_blocks bt1 left)
      (p_absorbed p) (p_chains p).
Proof.
  intros Htg Hp. set (idx := start_to_idx (blocks bt)).
  assert (forall h ch, (h, ch) ∈ iter_chains o (p_chains p) <-> p_chains p !! h = Some ch) as Hin
    by (intros h ch; rewrite (order_chains _ Ho); apply elem_of_map_to_list).
  assert (forall x, x ∈ p_absorbed p -> is_Some (idx !! x ≫= (blocks bt !!.))) as Hidx.
  { intros x (_ & _ & _ & b & Hb & <-)%(plan_absorbable _ _ _ _ _ _ Hp).
    destruct (idx_some bt Hstarts b Hb) as (k & Hk & Hbk). unfold idx. rewrite Hk. cbn. by rewrite Hbk. }
  destruct (apply_chains_spec idx (iter_chains o (p_chains p)) (with_inlines bt inl))
    as (bt1 & -> & A1 & A2 & A3 & A4 & A5 & A6 & A7).
  - rewrite (order_chains _ Ho). apply NoDup_fst_map_to_list.
  - intros h ch x H%Hin Hx. apply Hidx, (plan_absorbed _ _ _ _ _ _ Hp). eauto.
  - intros h ch h' ch' x H%Hin H'%Hin. by apply (plan_disjoint _ _ _ _ _ _ Hp).
  - exists bt1. split; [done|]. cbn zeta. unfold drop_blocks. rewrite A1. cbn [blocks with_inlines].
    assert (forall h ch, p_chains p !! h = Some ch ->
      exists b, b ∈ filter (fun b => b_start b ∉ p_absorbed p) (blocks bt) /\ b_start b = h /\ head ch = Some (b_end b)) as Hhead.
    { intros h ch (Hh & _ & _ & _ & b & Hb & <- & Hd & _)%(plan_chains _ _ _ _ _ _ Hp). exists b.
      split; [|done]. apply list_elem_of_filter. split; [|done]. by apply (plan_heads _ _ _ _ _ _ Hp) in Hh as [? _]. }
    split; cbn [blocks with_blocks absorbed_to_merged block_continuations].
    + done.
    + pose proof (length_filter (fun b => b_start b ∉ p_absorbed p) (blocks bt)). lia.
    + intros x h Hx%Htg Hg. by apply (plan_absorbable _ _ _ _ _ _ Hp) in Hg as (_ & ? & _).
    + intros x Hx. pose proof Hx as (h & ch & Hh & Hxc)%(plan_absorbed _ _ _ _ _ _ Hp). exists h, ch.
      apply (plan_absorbable _ _ _ _ _ _ Hp) in Hx as (He & _ & Hps & _).
      destruct (A5 h ch (proj2 (Hin h ch) Hh)) as [B1 _]. destruct (Hhead h ch Hh) as (b & Hb & Hbh & _).
      split_and!; [done | done | by apply B1 | | done | done]. apply list_elem_of_fmap. by exists b.
    + intros h ch Hh. destruct (Hhead h ch Hh) as (b & Hb & Hbh & Hd). exists b.
      destruct (plan_chains _ _ _ _ _ _ Hp h ch Hh) as (_ & _ & Hlk & Hlen & _).
      destruct (A5 h ch (proj2 (Hin h ch) Hh)) as [_ B2]. done.
    + intros k Hk. rewrite A7; [done|]. intros ((h & ch) & -> & H%Hin)%list_elem_of_fmap. cbn in Hk. congruence.
    + intros x Hx. rewrite A6; [done|]. intros h ch H%Hin Hxc. apply Hx, (plan_absorbed _ _ _ _ _ _ Hp). eauto.
Qed.

Hypothesis (Hterm : forall pc, exists term, terminator_at registry bt pc = Ok term).

Lemma form_superblocks_ok : exists n bt' gone chains,
  form_superblocks registry o bt max_depth = Ok (n, bt') /\ superblocks_ok registry bt max_depth n bt' gone chains.
Proof.
  set (targets := list_to_set (map snd (map_to_list (absorbed_to_merged bt))) : gset Z).
  destruct (collect_ok registry bt targets max_depth Hstarts Hterm (blocks bt) [] (mkPlan ∅ ∅ ∅ []))
    as (p & Hp & Hok); [done | apply plan_ok_empty |].
  pose proof apply_plan as Hplan. unfold form_superblocks. destruct (blocks bt) as [|b0 bs] eqn:Eb.
  { eexists 0%nat, (with_inlines bt (taken_inlines bt)), ∅, ∅. split; [by destruct bt | apply superblocks_ok_none]. }
  rewrite <- Eb in *. fold targets. fold (ctx bt targets). rewrite Hp. cbn [mbind result_bind]. case_decide as He.
  { eexists 0%nat, _, ∅, ∅. split; [done | apply superblocks_ok_none]. }
  destruct (Hplan targets p (foldl (fun m i => <[i.1 := i.2]> m) (taken_inlines bt) (p_inlines p)))
    as (bt1 & E & H); [|done|].
  - intros x h Hx. apply elem_of_list_to_set, list_elem_of_fmap. exists (x, h). split; [done|].
    by apply elem_of_map_to_list.
  - rewrite E. eexists _, _, (p_absorbed p), (p_chains p). split; [done|]. exact H.
Qed.
End whole.
