(* ===== verification/TailFacts.v ===== *)
(** * Duplicating tails, and all transforms together

    Tail duplication and the composition of the transforms end without a panic. *)

From stdpp Require Import sorting.
From S2P Require Import Prelude Xlen IR IRBuild Isa Ext Registry InstrTable.
From S2P Require Import CfgData CfgScan CfgFlow BlockTable MergeFacts StaleFacts SuperFacts.
Import BlockTable.
#[local] Open Scope word_scope.

(** [bt'] has the instructions and edges of [bt], and some of its block starts. *)
Record derived (bt bt' : BlockTable) : Prop := {
  derived_table : instruction_table bt' = instruction_table bt;
  derived_preds : bt_predecessors bt' = bt_predecessors bt;
  derived_starts : sublist (map b_start (blocks bt')) (map b_start (blocks bt))
}.

#[export] Instance derived_preorder : PreOrder derived.
Proof.
  split; [by split|]. intros a b c [? ? ?] [? ? ?]. split; [congruence..|]. by etrans.
Qed.

Section tail.
Context (registry : ExtensionRegistry) (o : Order).

Definition lifts (bt : BlockTable) : Prop := forall pc, exists term, terminator_at registry bt pc = Ok term.

Lemma derived_lifts bt bt' : derived bt bt' -> lifts bt -> lifts bt'.
Proof. intros [Et _ _] H pc. unfold terminator_at. rewrite Et. apply H. Qed.

Lemma derived_filter bt bt' (P : BasicBlock -> Prop) `{!forall b, Decision (P b)} :
  instruction_table bt' = instruction_table bt -> bt_predecessors bt' = bt_predecessors bt ->
  blocks bt' = filter P (blocks bt) -> derived bt bt'.
Proof. intros ? ? E. split; [done..|]. rewrite E. apply (fmap_sublist b_start), sublist_filter. Qed.

Lemma all_jumps_total bt l : lifts bt -> exists b, all_jumps registry bt l = Ok b.
Proof.
  intros Hl. induction l as [|x l [b IH]]; cbn [all_jumps]; [by eexists|]. unfold pred_is_unconditional_jump.
  destruct (Hl x) as [term ->]. cbn [mbind result_bind mret result_ret]. case_match; [|by eexists]. rewrite IH. by eexists.
Qed.

Lemma candidate_total bt n b : lifts bt -> exists c, is_tail_candidate registry o bt n b = Ok c.
Proof.
  intros Hl. unfold is_tail_candidate. case_bool_decide; [by eexists|]. destruct (_ <? _)%nat; [by eexists|].
  destruct (bt_predecessors bt !! b_start b); [|by eexists]. destruct (_ <? _)%nat; [by eexists|].
  unfold block_ends_with_fall. destruct (Hl (last_pc b)) as [term ->]. cbn [mbind result_bind mret result_ret].
  case_match; [|by eexists]. by apply all_jumps_total.
Qed.

Lemma candidates_total bt n l : forall acc, lifts bt -> exists a, collect_candidates registry o bt n l acc = Ok a.
Proof.
  induction l as [|b l IH]; intros acc Hl; cbn [collect_candidates]; [by eexists|].
  destruct (candidate_total bt n b Hl) as [c ->]. by apply IH.
Qed.

Lemma filter_preds_total bt starts l : lifts bt -> exists r, filter_preds registry bt starts l = Ok r.
Proof.
  intros Hl. induction l as [|x l [r IH]]; cbn [filter_preds]; [by eexists|]. rewrite IH.
  destruct (starts !! x); [|by eexists]. destruct (Hl x) as [term ->]. by eexists.
Qed.

(** Tail duplication changes mappings only. *)
Lemma duplicate_loop_total idx starts l : forall bt,
  lifts bt -> (forall x k, idx !! x = Some k -> is_Some (blocks bt !! k)) ->
  exists bt', duplicate_loop registry o idx starts l bt = Ok bt' /\ blocks bt' = blocks bt /\
    instruction_table bt' = instruction_table bt /\ bt_predecessors bt' = bt_predecessors bt.
Proof.
  induction l as [|x l IH]; intros bt Hl Hidx; cbn [duplicate_loop]; [by exists bt|].
  destruct (idx !! x) as [k|] eqn:Ek; [|by apply IH].
  destruct (bt_predecessors bt !! x) as [ps|]; [|by apply IH].
  destruct (Hidx _ _ Ek) as [b ->]. unfold collect_tail_duplicate_predecessors.
  destruct (filter_preds_total bt starts (iter_set o ps) Hl) as [r ->]. cbn [mbind result_bind mret result_ret].
  case_decide; [by apply IH|].
  destruct (IH (apply_tail_duplication bt x (block_range b) (map fst (merge_sort pred_le r)))) as (bt' & H1 & H2);
    [exact Hl | exact Hidx | by exists bt'].
Qed.

Lemma tail_duplicate_ok bt n :
  lifts bt -> NoDup (map b_start (blocks bt)) ->
  exists k bt', tail_duplicate registry o bt n = Ok (k, bt') /\ derived bt bt'.
Proof.
  intros Hl Hs. destruct (candidates_total bt n (blocks bt) ∅ Hl) as [a Ha].
  destruct (duplicate_loop_total (start_to_idx (blocks bt)) (last_pc_to_block_start (blocks bt))
    (iter_set o a) bt Hl) as (bt' & Hb & E1 & E2 & E3).
  { intros x k (b & -> & _)%idx_block; [|done]. by eexists. }
  unfold tail_duplicate, collect_tail_duplicate_candidates. destruct (blocks bt) as [|b0 bs] eqn:Eb; [by exists 0%nat, bt|].
  rewrite <- Eb in *. rewrite Ha. cbn [mbind result_bind]. case_decide; [by exists 0%nat, bt|].
  rewrite Hb. cbn [mbind result_bind]. eexists _, _. split; [done|].
  eapply derived_filter; [done..|]. cbn [blocks with_blocks]. unfold drop_blocks. rewrite E1. done.
Qed.

(** ** The composition *)

(** A transform leaves the instructions and the edges alone. *)
Definition same_program (bt bt' : BlockTable) : Prop :=
  instruction_table bt' = instruction_table bt /\ bt_predecessors bt' = bt_predecessors bt.

Lemma merge_blocks_frame bt n bt' : merge_blocks registry bt = Some (Ok (n, bt')) -> same_program bt bt'.
Proof.
  unfold merge_blocks. destruct (blocks bt); [by intros [= _ <-]|]. destruct (find_absorbed _ _ _ _); [|done].
  case_decide; [by intros [= _ <-]|]. destruct (merge_loop _ _ _ _ _ _) as [[[[? ?] ?]|]|]; [|done..].
  by intros [= _ <-].
Qed.

Lemma apply_chain_frame idx h chain : forall bt bt', apply_chain idx h chain bt = Ok bt' -> same_program bt bt'.
Proof.
  induction chain as [|x chain IH]; intros bt bt'; cbn [apply_chain]; [by intros [= <-]|]. unfold absorb_into.
  destruct (idx !! x ≫= _); [|done]. cbn [mbind result_bind]. apply IH.
Qed.

Lemma apply_chains_frame idx l : forall bt bt', apply_superblock_chains idx l bt = Ok bt' -> same_program bt bt'.
Proof.
  induction l as [|[h ch] l IH]; intros bt bt'; cbn [apply_superblock_chains]; [by intros [= <-]|].
  destruct (apply_chain idx h ch bt) as [bt1|] eqn:E; [|done]. cbn [mbind result_bind].
  intros [H1 H2]%IH. apply apply_chain_frame in E as [H3 H4]. split; congruence.
Qed.

Lemma form_superblocks_frame bt d n bt' :
  form_superblocks registry o bt d = Ok (n, bt') -> same_program bt bt'.
Proof.
  unfold form_superblocks. destruct (blocks bt); [by intros [= _ <-]|].
  destruct (collect_superblock_chains _ _ _ _ _ _); [|done]. cbn [mbind result_bind].
  case_decide; [by intros [= _ <-]|]. destruct (apply_superblock_chains _ _ _) as [bt1|] eqn:E; [|done].
  intros [= _ <-]. by apply apply_chains_frame in E.
Qed.

Hypothesis (Ho : order_ok o).

Lemma merge_derived bt :
  NoDup (map b_start (blocks bt)) -> NoDup (map last_pc (blocks bt)) -> lifts bt ->
  absorbed_to_merged bt = ∅ -> block_continuations bt = ∅ ->
  exists n bt', merge_blocks registry bt = Some (Ok (n, bt')) /\ derived bt bt'.
Proof.
  intros Hs Hl Ht Ha Hc. destruct (merge_blocks_result registry bt Hs Hl Ht Ha Hc) as (absorbed & bt' & E & Hres & _).
  eexists _, _. split; [exact E|]. pose proof (merge_result_blocks registry bt absorbed (heads bt absorbed)) as R.
  rewrite <- Hres in R. cbn [fst] in R. destruct (merge_blocks_frame bt _ _ E) as [F1 F2].
  split; [done..|]. rewrite R, map_map. cbn. apply (fmap_sublist b_start), sublist_filter.
Qed.

Lemma super_derived bt d n bt' gone chains :
  form_superblocks registry o bt d = Ok (n, bt') -> superblocks_ok registry bt d n bt' gone chains -> derived bt bt'.
Proof.
  intros E H. destruct (form_superblocks_frame _ _ _ _ E) as [F1 F2].
  eapply derived_filter; [done..|]. apply (super_blocks _ _ _ _ _ _ _ H).
Qed.

(** All transforms end without a panic; the mappings of the result lead to blocks
    that are left. *)
Lemma optimize_ok bt :
  NoDup (map b_start (blocks bt)) -> NoDup (map last_pc (blocks bt)) -> lifts bt ->
  absorbed_to_merged bt = ∅ -> block_continuations bt = ∅ ->
  exists counts bt', optimize registry o bt = Some (Ok (counts, bt')) /\
    sublist (map b_start (blocks bt')) (map b_start (blocks bt)) /\
    forall pc h, absorbed_to_merged bt' !! pc = Some h -> h ∈ map b_start (blocks bt').
Proof.
  intros Hs Hl Ht Ha Hc. destruct (merge_derived bt Hs Hl Ht Ha Hc) as (n1 & bt1 & E1 & D1).
  assert (NoDup (map b_start (blocks bt1))) as Hs1 by (eapply sublist_NoDup; [exact Hs | apply D1]).
  pose proof (derived_lifts _ _ D1 Ht) as Ht1.
  destruct (tail_duplicate_ok bt1 DEFAULT_TAIL_DUP_SIZE Ht1 Hs1) as (n2 & bt2 & E2 & D2).
  assert (NoDup (map b_start (blocks bt2))) as Hs2 by (eapply sublist_NoDup; [exact Hs1 | apply D2]).
  pose proof (derived_lifts _ _ D2 Ht1) as Ht2.
  destruct (form_superblocks_ok registry o bt2 DEFAULT_SUPERBLOCK_DEPTH Ho Hs2 Ht2) as (n3 & bt3 & gone & chains & E3 & H3).
  pose proof (super_derived _ _ _ _ _ _ E3 H3) as D3.
  destruct (fix_stale_spec o bt3 (order_absorbed _ Ho)) as (bt4 & E4 & B4 & M4).
  exists (n1, n2, n3), bt4. unfold optimize. rewrite E1, E2. cbn [mbind result_bind]. rewrite E3.
  cbn [mbind result_bind mret result_ret]. rewrite E4. split; [done|]. rewrite B4. split.
  - by apply (derived_starts _ _ (transitivity D1 (transitivity D2 D3))).
  - intros pc h. rewrite M4. intros (target & _ & (H & _)%resolve_found)%bind_Some.
    by apply elem_of_list_to_set in H.
Qed.
End tail.
