(* ===== verification/BlockProps.v ===== *)
(** * Properties of the block table *)

From stdpp Require Import sorting.
From S2P Require Import Prelude Xlen IR IRBuild Isa Ext Registry InstrTable RegistryCorrect TableFacts.
From S2P Require Import CfgData CfgScan CfgFlow CfgDomain ScanFacts BlockTable BlockFacts MergeFacts StaleFacts SuperFacts TailFacts.
#[local] Open Scope word_scope.

(** ** A program

    A branch to one of two jumps to the same code, which jumps on to code of its
    own. *)
Definition tails_code : list Z :=
  [0x63; 0x04; 0x05; 0x00;   (* 00  beq  x10, x0, 08 *)
   0x6F; 0x00; 0x80; 0x00;   (* 04  jal  x0, 0c      *)
   0x6F; 0x00; 0x40; 0x00;   (* 08  jal  x0, 0c      *)
   0x93; 0x82; 0x12; 0x00;   (* 0c  addi x5, x5, 1   *)
   0x6F; 0x00; 0x80; 0x00;   (* 10  jal  x0, 18      *)
   0x6F; 0x00; 0xC0; 0x00;   (* 14  jal  x0, 20      *)
   0x13; 0x03; 0x13; 0x00;   (* 18  addi x6, x6, 1   *)
   0x63; 0x90; 0x72; 0x00;   (* 1c  bne  x5, x7, 1c  *)
   0x6F; 0x00; 0x00; 0x00].  (* 20  jal  x0, 20      *)

Definition rv64_registry : ExtensionRegistry := ExtensionRegistry.standard Rv64.
Definition tails_table : InstructionTable := swept Rv64 rv64_registry tails_code 0x80000000.

(** The block table of the analysis. *)
Definition tails_blocks : BlockTable :=
  match BlockTable.from_instruction_table list_order Rv64 tails_table rv64_registry with
  | Some (Ok bt) => bt
  | _ => BlockTable.empty tails_table
  end.

Lemma tails_table_ok : table_ok tails_table.
Proof.
  apply swept_ok; [apply standard_sized | split; vm_compute; congruence..].
Qed.

Lemma tails_lifts pc : exists term, BlockTable.terminator_at rv64_registry tails_blocks pc = Ok term.
Proof. apply lifts_terminators. vm_compute. reflexivity. Qed.

Lemma list_order_ok : order_ok list_order.
Proof. by split. Qed.

(** C29. The blocks cut at a set of leaders: there is one for each leader that has an
    instruction, in order and without overlap; a block is straight-line code in
    which only the last instruction can be a jump and no instruction but the first
    is a leader, and it stops at a jump, at a leader or at a gap (or, when the next
    leader is no instruction boundary, after the instruction it is in). *)
Theorem blocks_from_leaders t registry leaders :
  table_ok t ->
  (forall pc i, InstructionTable.get_at_pc t pc = Some i -> exists ir, ExtensionRegistry.lift registry i = Ok ir) ->
  exists bs, BlockTable.create_blocks_from_leaders t registry leaders = Some (Ok bs) /\
    (forall x, x ∈ map b_start bs <-> x ∈ leaders /\ is_Some (InstructionTable.get_at_pc t x)) /\
    Forall (block_ok t registry leaders) bs /\
    StronglySorted (fun a b => b_end a <= b_start b) bs.
Proof.
  intros Hok Hlift. destruct (sort_spec leaders) as [Hs Hin].
  destruct (create_blocks_spec t registry leaders Hok Hlift (sort (elements leaders)) Hs) as (bs & E & Hmap & Hall & Hsort);
    [by intros x ?%Hin|].
  exists bs. split_and!; [done| |done..]. intros x. rewrite Hmap, list_elem_of_filter, Hin. tauto.
Qed.

Lemma blocks_from_leaders_witness :
  exists bs, BlockTable.create_blocks_from_leaders tails_table rv64_registry {[0x80000000; 0x8000000C]} = Some (Ok bs) /\
    Forall (block_ok tails_table rv64_registry {[0x80000000; 0x8000000C]}) bs.
Proof.
  destruct (blocks_from_leaders tails_table rv64_registry {[0x80000000; 0x8000000C]} tails_table_ok) as (bs & H1 & _ & H2 & _).
  - intros pc i. apply lifts_ok_spec. vm_compute. reflexivity.
  - exists bs. split; [exact H1 | exact H2].
Defined.

(** C30. Merging blocks terminates and keeps the program: each block of the result is a
    block of the input followed by the blocks that were merged into it, along edges
    that are the only way out of one and the only way into the next; its
    instructions are those of the whole chain; the address of a merged block leads
    to the block that has it; and each block of the input is still there, in one of
    these ways, unless it is on a cycle that no other block jumps into. *)
Theorem merge_blocks_correct registry bt :
  NoDup (map b_start (blocks bt)) -> NoDup (map last_pc (blocks bt)) ->
  absorbed_to_merged bt = ∅ -> block_continuations bt = ∅ ->
  (forall pc, exists term, BlockTable.terminator_at registry bt pc = Ok term) ->
  exists n bt' (chain : BasicBlock -> list BasicBlock),
    BlockTable.merge_blocks registry bt = Some (Ok (n, bt')) /\
    (length (blocks bt) = n + length (blocks bt'))%nat /\
    (forall b', b' ∈ blocks bt' -> exists b, b ∈ blocks bt /\
       b_start b' = b_start b /\ b_end b' = b_end b /\
       linked (only_edge registry bt) (b :: chain b) /\
       instruction_count b' = sum_list (map instruction_count (b :: chain b)) /\
       last_pc b' = last_pc (chain_end b (chain b)) /\
       default [] (block_continuations bt' !! b_start b) = map BlockTable.block_range (chain b)) /\
    (forall x h, absorbed_to_merged bt' !! x = Some h <->
       exists b c, b ∈ blocks bt /\ b_start b = h /\ h ∈ map b_start (blocks bt') /\ c ∈ chain b /\ b_start c = x) /\
    (forall c, c ∈ blocks bt ->
       b_start c ∈ map b_start (blocks bt') \/ is_Some (absorbed_to_merged bt' !! b_start c) \/
       tc (only_edge registry bt) c c).
Proof.
  intros Hs Hl Ha Hc Hterm.
  destruct (merge_blocks_result registry bt Hs Hl Hterm Ha Hc) as (absorbed & bt' & E & Hres & Hsrc).
  pose proof (fun b (_ : b ∈ blocks bt) => merge_target_total registry bt Hterm b) as Hlift.
  assert (Forall (is_head bt absorbed) (heads bt absorbed)) as Hheads.
  { apply Forall_forall. by intros b ?%elem_of_heads. }
  pose proof (merge_result_blocks registry bt absorbed (heads bt absorbed)) as R1. rewrite <- Hres in R1.
  pose proof (fun x h => merge_result_absorbed registry bt absorbed Hs Hl Hlift (heads bt absorbed) x h Hheads) as R2.
  rewrite <- Hres in R2.
  cbn [fst snd] in R1, R2.
  assert (forall x, x ∈ map b_start (blocks bt') <-> exists b, is_head bt absorbed b /\ b_start b = x) as Hst.
  { intros x. rewrite R1, map_map. setoid_rewrite <- elem_of_heads. rewrite list_elem_of_fmap. naive_solver. }
  exists (length (blocks bt) - length (blocks bt'))%nat, bt', (chain_of registry bt absorbed). split_and!.
  - done.
  - rewrite R1, length_map. unfold heads. pose proof (length_filter (fun b => b_start b ∉ absorbed) (blocks bt)). lia.
  - intros b' Hb'. destruct (merged_block_chain registry bt Hs Hl Hterm absorbed bt' b' Hres Hb') as (b & Hb & ?).
    exists b. split; [apply Hb | tauto].
  - intros x h. rewrite R2. split.
    + intros (b & c & Hb%elem_of_heads & Hcc & -> & ->). exists b, c. split_and!; [apply Hb | done | | done..].
      apply Hst. eauto.
    + intros (b & c & Hb & <- & (b2 & Hb2 & E2)%Hst & Hcc & <-). exists b, c.
      rewrite (same_start bt Hs b b2) by (done || apply Hb2). split_and!; [by apply elem_of_heads| |done..].
      by rewrite <- (same_start bt Hs b b2) by (done || apply Hb2).
  - intros c Hcb. destruct (block_fate registry bt absorbed Hs Hl Hlift Hsrc c Hcb) as [H|[(b & Hb & Hcc)|H]].
    + left. apply Hst. eauto.
    + right; left. eexists. apply R2. exists b, c. split_and!; [by apply elem_of_heads | done..].
    + right; right. revert H. apply tc_mono. intros x y (?%get_merge_target_spec & _). done.
Qed.


Lemma merge_blocks_correct_witness :
  exists n bt' (chain : BasicBlock -> list BasicBlock),
    BlockTable.merge_blocks rv64_registry tails_blocks = Some (Ok (n, bt')) /\
    (length (blocks tails_blocks) = n + length (blocks bt'))%nat.
Proof.
  destruct (merge_blocks_correct rv64_registry tails_blocks) as (n & bt' & chain & E & H & _);
    [by apply (bool_decide_unpack _); vm_compute | by apply (bool_decide_unpack _); vm_compute
    | vm_compute; reflexivity | vm_compute; reflexivity | exact tails_lifts |].
  exists n, bt', chain. split; [exact E | exact H].
Defined.

(** C31. Forming superblocks keeps the program: the result has the blocks that were not
    absorbed; an absorbed block has one predecessor at most, is no entry point and
    no target of an earlier mapping, and its address leads to a block that stays and
    has it among its continuations; these follow the fall-through edge of that block
    in order, up to the given depth; nothing else changes. *)
Theorem form_superblocks_correct registry o bt max_depth :
  order_ok o -> NoDup (map b_start (blocks bt)) ->
  (forall pc, exists term, BlockTable.terminator_at registry bt pc = Ok term) ->
  exists n bt' gone chains,
    BlockTable.form_superblocks registry o bt max_depth = Ok (n, bt') /\
    superblocks_ok registry bt max_depth n bt' gone chains.
Proof. intros Ho Hs Ht. by apply form_superblocks_ok. Qed.

Lemma form_superblocks_correct_witness :
  exists n bt' gone chains,
    BlockTable.form_superblocks rv64_registry list_order tails_blocks 100 = Ok (n, bt') /\
    superblocks_ok rv64_registry tails_blocks 100 n bt' gone chains.
Proof.
  apply (form_superblocks_correct rv64_registry list_order tails_blocks 100);
    [exact list_order_ok | by apply (bool_decide_unpack _); vm_compute | exact tails_lifts].
Defined.

(** C32. Fixing stale mappings terminates; afterwards every mapping leads to a block
    that is left, the first one on its chain of mappings; a mapping is dropped only
    if its chain reaches no such block; and the ranges of code of all continuations
    are the same as before. *)
Theorem fix_stale_mappings_correct o bt :
  order_ok o ->
  let remaining : gset Z := list_to_set (map b_start (blocks bt)) in
  exists bt', BlockTable.fix_stale_mappings o bt = Some bt' /\ blocks bt' = blocks bt /\
    (forall pc h, absorbed_to_merged bt' !! pc = Some h ->
       h ∈ remaining /\ exists target, absorbed_to_merged bt !! pc = Some target /\
         rtc (maps (absorbed_to_merged bt) remaining) target h) /\
    (forall pc target h, absorbed_to_merged bt !! pc = Some target -> pc ∉ remaining ->
       rtc (maps (absorbed_to_merged bt) remaining) target h -> h ∈ remaining ->
       is_Some (absorbed_to_merged bt' !! pc)) /\
    all_ranges (block_continuations bt') ≡ₚ all_ranges (block_continuations bt).
Proof.
  intros Ho remaining. destruct (fix_stale_spec o bt (order_absorbed _ Ho)) as (bt' & E & Hb & Hm).
  exists bt'. split_and!; [done..| | |by eapply fix_stale_ranges].
  - intros pc h. rewrite Hm. intros (target & Ht & [H1 H2]%resolve_found)%bind_Some. eauto.
  - intros pc target h Ht Hpc Hr Hh. rewrite Hm, Ht. cbn. by eapply resolve_complete.
Qed.

Lemma fix_stale_mappings_correct_witness :
  exists bt', BlockTable.fix_stale_mappings list_order tails_blocks = Some bt' /\ blocks bt' = blocks tails_blocks.
Proof.
  destruct (fix_stale_mappings_correct list_order tails_blocks list_order_ok) as (bt' & H1 & H2 & _).
  exists bt'. split; [exact H1 | exact H2].
Defined.


