(* ===== verification/Elf.v ===== *)
(** * ELF files ([crates/rvr-elf/src])

    Parsing of ELF files and the image of loadable segments.  Offsets are [usize]
    of 64 bits; a string is the list of its characters, each the value of a byte. *)

From S2P Require Import Prelude Xlen Isa Ext.
#[local] Open Scope word_scope.

(** ** Errors ([lib.rs]) *)

Inductive ElfError :=
| TooSmall
| InvalidMagic
| GitLfsPointer
| NotLittleEndian
| XlenMismatch (expected actual : Z)
| UnsupportedClass (class : Z)
| SectionOutOfBounds
| ProgramOutOfBounds
| SegmentBeyondFile
| VirtualAddressOverflow
| NoLoadableSegments
| TooManySegments
| OverlappingSegments.

(** [Result<T, E>] of a computation that can also panic. *)
Inductive outcome (E A : Type) : Type :=
| Value (a : A)
| Error (e : E)
| Crash.
Arguments Value {E A} a.
Arguments Error {E A} e.
Arguments Crash {E A}.

#[export] Instance outcome_ret {E} : MRet (outcome E) := fun A a => Value a.
#[export] Instance outcome_bind {E} : MBind (outcome E) := fun A B f m =>
  match m with Value a => f a | Error e => Error e | Crash => Crash end.

(** A computation without errors of its own. *)
Definition lift {E A} (r : result A) : outcome E A :=
  match r with Ok a => Value a | Panic => Crash end.

(** [iter().map(..).collect::<Result<Vec<_>, _>>()], and a loop that pushes. *)
Fixpoint collect {E A B} (f : A -> outcome E B) (l : list A) : outcome E (list B) :=
  match l with
  | [] => Value []
  | x :: l' => y ← f x; r ← collect f l'; mret (y :: r)
  end.

(** ** Constants ([constants.rs]) *)

Definition ELF_MAGIC : Z := 0x464C457F.
Definition ELF_CLASS_32 : Z := 1.
Definition ELF_CLASS_64 : Z := 2.
Definition ELF_DATA_LSB : Z := 1.
Definition PT_LOAD : Z := 1.
Definition PF_X : Z := 0x1.
Definition PF_W : Z := 0x2.
Definition PF_R : Z := 0x4.
Definition SHT_PROGBITS : Z := 1.
Definition SHT_SYMTAB : Z := 2.
Definition SHT_NOBITS : Z := 8.
Definition SHF_ALLOC : Z := 0x2.
Definition SHF_EXECINSTR : Z := 0x4.
Definition STT_FUNC : Z := 2.
Definition EF_RISCV_RVC : Z := 0x1.
Definition EF_RISCV_RVE : Z := 0x8.
Definition MAX_SEGMENTS : nat := 8.

(** [isize::MAX], the largest capacity of a vector of bytes. *)
Definition ISIZE_MAX : Z := 2 ^ 63 - 1.

(** ** Structures ([header.rs]) *)

Record ElfHeader := mkHeader {
  eh_magic : Z;
  eh_class : Z;
  eh_data : Z;
  eh_version : Z;
  eh_abi : Z;
  eh_abi_version : Z;
  eh_entry : Z;
  eh_phoff : Z;
  eh_shoff : Z;
  eh_flags : Z;
  eh_ehsize : Z;
  eh_phentsize : Z;
  eh_phnum : Z;
  eh_shentsize : Z;
  eh_shnum : Z;
  eh_shstrndx : Z
}.

Record ProgramHeader := mkProgram {
  p_type : Z;
  p_offset : Z;
  p_vaddr : Z;
  p_paddr : Z;
  p_filesz : Z;
  p_memsz : Z;
  p_flags : Z;
  p_align : Z
}.

Record SectionHeader := mkSection {
  sh_name : Z;
  sh_type : Z;
  sh_flags : Z;
  sh_addr : Z;
  sh_offset : Z;
  sh_size : Z;
  sh_link : Z;
  sh_info : Z;
  sh_addralign : Z;
  sh_entsize : Z
}.

Record LoadedSection := mkLoaded {
  ls_name : list Z;
  ls_addr : Z;
  ls_size : Z;
  ls_flags : Z;
  ls_data : list Z
}.

Record Symbol := mkSymbol {
  sym_name : list Z;
  sym_value : Z;
  sym_size : Z;
  sym_type : Z;
  sym_binding : Z;
  sym_shndx : Z
}.

Record ElfFile := mkElf {
  f_entry_point : Z;
  f_e_flags : Z;
  f_sections : list LoadedSection;
  f_program_headers : list ProgramHeader;
  f_symbols : list Symbol
}.

(** ** Reading numbers ([file.rs]) *)

(** [n] bytes at [offset], each indexed: out of bounds is a panic. *)
Definition read_le (n : nat) (data : list Z) (offset : Z) : result Z :=
  if offset + Z.of_nat n <=? Z.of_nat (length data)
  then Ok (from_le_bytes (take n (drop (Z.to_nat offset) data))) else Panic.
Definition read_le16 := read_le 2.
Definition read_le32 := read_le 4.
Definition read_le64 := read_le 8.

(** [data[offset]] *)
Definition byte_at (data : list Z) (offset : Z) : result Z :=
  if offset <? Z.of_nat (length data)
  then match data !! Z.to_nat offset with Some b => Ok b | None => Panic end else Panic.

(** [X::from_u64(read_le64(..))] or [X::from_u64(u64::from(read_le32(..)))] *)
Definition read_reg (X : Xlen) (data : list Z) (offset : Z) : result Z :=
  v ← (if VALUE X =? 64 then read_le64 data offset else read_le32 data offset); mret (from_u64 X v).

(** [offset + size > data.len()], with checked addition. *)
Definition beyond (data : list Z) (offset size : Z) : result bool :=
  e ← add_u 64 offset size; mret (Z.of_nat (length data) <? e).

Module ElfFile.

(** [b"version https://git-lfs.github.com/spec/v1"] *)
Definition GIT_LFS_PREFIX : list Z :=
  [118; 101; 114; 115; 105; 111; 110; 32; 104; 116; 116; 112; 115; 58; 47; 47; 103; 105; 116; 45; 108; 102;
   115; 46; 103; 105; 116; 104; 117; 98; 46; 99; 111; 109; 47; 115; 112; 101; 99; 47; 118; 49].

Definition is_git_lfs_pointer (data : list Z) : bool :=
  (length GIT_LFS_PREFIX <=? length data)%nat
  && bool_decide (take (length GIT_LFS_PREFIX) data = GIT_LFS_PREFIX).

Section parse.
Context (X : Xlen) (data : list Z).

Definition parse_header_32 (magic class encoding version abi abi_version : Z) : result ElfHeader :=
  entry ← read_le32 data 24;
  phoff ← read_le32 data 28;
  shoff ← read_le32 data 32;
  flags ← read_le32 data 36;
  ehsize ← read_le16 data 40;
  phentsize ← read_le16 data 42;
  phnum ← read_le16 data 44;
  shentsize ← read_le16 data 46;
  shnum ← read_le16 data 48;
  shstrndx ← read_le16 data 50;
  mret (mkHeader magic class encoding version abi abi_version (from_u64 X entry) (from_u64 X phoff)
          (from_u64 X shoff) flags ehsize phentsize phnum shentsize shnum shstrndx).

Definition parse_header_64 (magic class encoding version abi abi_version : Z) : result ElfHeader :=
  entry ← read_le64 data 24;
  phoff ← read_le64 data 32;
  shoff ← read_le64 data 40;
  flags ← read_le32 data 48;
  ehsize ← read_le16 data 52;
  phentsize ← read_le16 data 54;
  phnum ← read_le16 data 56;
  shentsize ← read_le16 data 58;
  shnum ← read_le16 data 60;
  shstrndx ← read_le16 data 62;
  mret (mkHeader magic class encoding version abi abi_version (from_u64 X entry) (from_u64 X phoff)
          (from_u64 X shoff) flags ehsize phentsize phnum shentsize shnum shstrndx).

Definition parse_header : outcome ElfError ElfHeader :=
  let min_size := if VALUE X =? 64 then 64%nat else 52%nat in
  if (length data <? min_size)%nat then Error TooSmall
  else if is_git_lfs_pointer data then Error GitLfsPointer
  else
    magic ← lift (read_le32 data 0);
    if negb (magic =? ELF_MAGIC) then Error InvalidMagic
    else
      class ← lift (byte_at data 4);
      encoding ← lift (byte_at data 5);
      version ← lift (byte_at data 6);
      abi ← lift (byte_at data 7);
      abi_version ← lift (byte_at data 8);
      if negb (encoding =? ELF_DATA_LSB) then Error NotLittleEndian
      else
        lift (if VALUE X =? 64
              then parse_header_64 magic class encoding version abi abi_version
              else parse_header_32 magic class encoding version abi abi_version).

Definition parse_program_header (offset : Z) : outcome ElfError ProgramHeader :=
  if VALUE X =? 64 then
    out ← lift (beyond data offset 56);
    if (out : bool) then Error ProgramOutOfBounds
    else
      lift (
        p_type ← read_le32 data offset;
        flags ← read_le32 data (offset + 4);
        off ← read_reg X data (offset + 8);
        vaddr ← read_reg X data (offset + 16);
        paddr ← read_reg X data (offset + 24);
        filesz ← read_reg X data (offset + 32);
        memsz ← read_reg X data (offset + 40);
        align ← read_reg X data (offset + 48);
        mret (mkProgram p_type off vaddr paddr filesz memsz flags align))
  else
    out ← lift (beyond data offset 32);
    if (out : bool) then Error ProgramOutOfBounds
    else
      lift (
        p_type ← read_le32 data offset;
        off ← read_reg X data (offset + 4);
        vaddr ← read_reg X data (offset + 8);
        paddr ← read_reg X data (offset + 12);
        filesz ← read_reg X data (offset + 16);
        memsz ← read_reg X data (offset + 20);
        flags ← read_le32 data (offset + 24);
        align ← read_reg X data (offset + 28);
        mret (mkProgram p_type off vaddr paddr filesz memsz flags align)).

(** [0..n] for a [u16] or [usize] *)
Definition range_to (n : Z) : list Z := Z.of_nat <$> seq 0 (Z.to_nat n).

Definition parse_program_headers (h : ElfHeader) : outcome ElfError (list ProgramHeader) :=
  collect (fun i =>
    offset ← lift (add_u 64 (eh_phoff h) (i * eh_phentsize h));
    parse_program_header offset) (range_to (eh_phnum h)).

Definition parse_section_header (offset : Z) : outcome ElfError SectionHeader :=
  if VALUE X =? 64 then
    out ← lift (beyond data offset 64);
    if (out : bool) then Error SectionOutOfBounds
    else
      lift (
        name ← read_le32 data offset;
        sh_type ← read_le32 data (offset + 4);
        flags ← read_reg X data (offset + 8);
        addr ← read_reg X data (offset + 16);
        off ← read_reg X data (offset + 24);
        size ← read_reg X data (offset + 32);
        link ← read_le32 data (offset + 40);
        info ← read_le32 data (offset + 44);
        addralign ← read_reg X data (offset + 48);
        entsize ← read_reg X data (offset + 56);
        mret (mkSection name sh_type flags addr off size link info addralign entsize))
  else
    out ← lift (beyond data offset 40);
    if (out : bool) then Error SectionOutOfBounds
    else
      lift (
        name ← read_le32 data offset;
        sh_type ← read_le32 data (offset + 4);
        flags ← read_reg X data (offset + 8);
        addr ← read_reg X data (offset + 12);
        off ← read_reg X data (offset + 16);
        size ← read_reg X data (offset + 20);
        link ← read_le32 data (offset + 24);
        info ← read_le32 data (offset + 28);
        addralign ← read_reg X data (offset + 32);
        entsize ← read_reg X data (offset + 36);
        mret (mkSection name sh_type flags addr off size link info addralign entsize)).

Definition parse_all_sections (h : ElfHeader) : outcome ElfError (list SectionHeader) :=
  collect (fun i =>
    offset ← lift (add_u 64 (eh_shoff h) (i * eh_shentsize h));
    parse_section_header offset) (range_to (eh_shnum h)).

Definition find_string_table (sections : list SectionHeader) (h : ElfHeader) : option SectionHeader :=
  sections !! Z.to_nat (eh_shstrndx h).

(** ** Sections *)

(** The bytes up to a zero. *)
Fixpoint until_zero (l : list Z) : list Z :=
  match l with
  | [] => []
  | b :: l' => if b =? 0 then [] else b :: until_zero l'
  end.

Definition extract_string (strtab_offset string_offset : Z) : result (list Z) :=
  start ← add_u 64 strtab_offset string_offset;
  mret (if Z.of_nat (length data) <=? start then [] else until_zero (drop (Z.to_nat start) data)).

(** Bytes past the end of the file read as zero; a vector of more than
    [ISIZE_MAX] bytes is a panic. *)
Definition load_section_data (s : SectionHeader) : result (list Z) :=
  let size := sh_size s in
  let offset := sh_offset s in
  if sh_type s =? SHT_PROGBITS then
    if ISIZE_MAX <? size then Panic
    else if (0 <? size) && negb (in_ub 64 (offset + (size - 1))) then Panic
    else
      Ok (map (fun i => if offset + i <? Z.of_nat (length data)
                        then default 0 (data !! Z.to_nat (offset + i)) else 0) (range_to size))
  else if sh_type s =? SHT_NOBITS then
    if ISIZE_MAX <? size then Panic else Ok (replicate (Z.to_nat size) 0)
  else Ok [].

(** ["unknown"] *)
Definition unknown_name : list Z := [117; 110; 107; 110; 111; 119; 110].

Fixpoint load_allocatable_sections (strtab : option SectionHeader) (sections : list SectionHeader)
    : result (list LoadedSection) :=
  match sections with
  | [] => Ok []
  | s :: rest =>
      if negb (sh_flags s &ᵇ SHF_ALLOC =? 0) then
        section_data ← load_section_data s;
        name ← (match strtab with
                | Some strtab => extract_string (sh_offset strtab) (sh_name s)
                | None => Ok unknown_name
                end);
        loaded ← load_allocatable_sections strtab rest;
        mret (mkLoaded name (sh_addr s) (sh_size s) (sh_flags s) section_data :: loaded)
      else load_allocatable_sections strtab rest
  end.

(** ** Symbols *)

Definition parse_symbol (offset strtab_offset : Z) : result (option Symbol) :=
  if VALUE X =? 64 then
    out ← beyond data offset 24;
    if (out : bool) then Ok None
    else
      name_idx ← read_le32 data offset;
      info ← byte_at data (offset + 4);
      shndx ← read_le16 data (offset + 6);
      value ← read_reg X data (offset + 8);
      size ← read_reg X data (offset + 16);
      name ← extract_string strtab_offset name_idx;
      mret (Some (mkSymbol name value size (info &ᵇ 0xf) (shr info 4) shndx))
  else
    out ← beyond data offset 16;
    if (out : bool) then Ok None
    else
      name_idx ← read_le32 data offset;
      value ← read_reg X data (offset + 4);
      size ← read_reg X data (offset + 8);
      info ← byte_at data (offset + 12);
      shndx ← read_le16 data (offset + 14);
      name ← extract_string strtab_offset name_idx;
      mret (Some (mkSymbol name value size (info &ᵇ 0xf) (shr info 4) shndx)).

Fixpoint parse_symbol_entries (symtab_offset entsize strtab_offset : Z) (l : list Z) : result (list Symbol) :=
  match l with
  | [] => Ok []
  | i :: l' =>
      offset ← add_u 64 symtab_offset (i * entsize);
      s ← parse_symbol offset strtab_offset;
      r ← parse_symbol_entries symtab_offset entsize strtab_offset l';
      mret (option_list s ++ r)
  end.

Definition parse_symbols (sections : list SectionHeader) : result (list Symbol) :=
  match List.find (fun s => sh_type s =? SHT_SYMTAB) sections with
  | None => Ok []
  | Some symtab =>
      match sections !! Z.to_nat (sh_link symtab) with
      | None => Ok []
      | Some strtab =>
          if sh_entsize symtab =? 0 then Ok []
          else
            parse_symbol_entries (sh_offset symtab) (sh_entsize symtab) (sh_offset strtab)
              (range_to (sh_size symtab / sh_entsize symtab))
      end
  end.

(** ** The file *)

Definition parse : outcome ElfError ElfFile :=
  header ← parse_header;
  let elf_xlen := if eh_class header =? ELF_CLASS_64 then 64 else 32 in
  if negb (elf_xlen =? VALUE X) then Error (XlenMismatch (VALUE X) elf_xlen)
  else
    program_headers ← parse_program_headers header;
    all_sections ← parse_all_sections header;
    let strtab := find_string_table all_sections header in
    sections ← lift (load_allocatable_sections strtab all_sections);
    symbols ← lift (parse_symbols all_sections);
    mret (mkElf (eh_entry header) (eh_flags header) sections program_headers symbols).
End parse.

Definition lookup_symbol (f : ElfFile) (name : list Z) : option Z :=
  sym_value <$> List.find (fun s => bool_decide (sym_name s = name)) (f_symbols f).
Definition lookup_function (f : ElfFile) (name : list Z) : option Z :=
  sym_value <$> List.find (fun s => bool_decide (sym_name s = name) && (sym_type s =? STT_FUNC)) (f_symbols f).
Definition is_rve (f : ElfFile) : bool := negb (f_e_flags f &ᵇ EF_RISCV_RVE =? 0).
Definition is_rvc (f : ElfFile) : bool := negb (f_e_flags f &ᵇ EF_RISCV_RVC =? 0).
End ElfFile.

Definition get_elf_xlen (data : list Z) : outcome ElfError Z :=
  if (length data <? 5)%nat then Error TooSmall
  else if ElfFile.is_git_lfs_pointer data then Error GitLfsPointer
  else if negb (bool_decide (take 4 data = [0x7F; 0x45; 0x4C; 0x46])) then Error InvalidMagic
  else
    class ← lift (byte_at data 4);
    if class =? ELF_CLASS_32 then Value 32
    else if class =? ELF_CLASS_64 then Value 64
    else Error (UnsupportedClass class).

(** ** The image ([image.rs]) *)

Record MemorySegment := mkSegment {
  virtual_start : Z;
  virtual_end : Z;
  seg_data : list Z;
  seg_flags : Z
}.

Module MemorySegment.
Definition filesz (s : MemorySegment) : Z := Z.of_nat (length (seg_data s)).
Definition memsz (s : MemorySegment) : result Z := sub_u 64 (virtual_end s) (virtual_start s).
Definition bss_size (s : MemorySegment) : result Z := m ← memsz s; sub_u 64 m (filesz s).
Definition is_readonly (s : MemorySegment) : bool := seg_flags s &ᵇ PF_W =? 0.
Definition is_executable (s : MemorySegment) : bool := negb (seg_flags s &ᵇ PF_X =? 0).

Fixpoint has_executable_sections (s : MemorySegment) (sections : list LoadedSection) : result bool :=
  match sections with
  | [] => Ok false
  | x :: rest =>
      section_end ← add_u 64 (ls_addr x) (ls_size x);
      if (ls_addr x <? virtual_end s) && (virtual_start s <? section_end) && negb (ls_flags x &ᵇ SHF_EXECINSTR =? 0)
      then Ok true else has_executable_sections s rest
  end.
End MemorySegment.

Record ElfImage := mkImage {
  entry_point : Z;
  e_flags : Z;
  memory_segments : list MemorySegment;
  sections : list LoadedSection;
  symbols : list Symbol
}.

Module ElfImage.

(** The loadable headers, with the checks on each. *)
Fixpoint loadable_headers (data : list Z) (l : list ProgramHeader) : outcome ElfError (list ProgramHeader) :=
  match l with
  | [] => Value []
  | ph :: rest =>
      if (p_type ph =? PT_LOAD) && (0 <? p_memsz ph) then
        out ← lift (beyond data (p_offset ph) (p_filesz ph));
        if (out : bool) then Error SegmentBeyondFile
        else if negb (in_ub 64 (p_vaddr ph + p_memsz ph)) then Error VirtualAddressOverflow
        else r ← loadable_headers data rest; mret (ph :: r)
      else loadable_headers data rest
  end.

Definition ranges_overlap (a b : ProgramHeader) : bool :=
  negb ((p_vaddr a + p_memsz a <=? p_vaddr b) || (p_vaddr b + p_memsz b <=? p_vaddr a)).

Fixpoint any_overlap (l : list ProgramHeader) : bool :=
  match l with
  | [] => false
  | a :: rest => existsb (ranges_overlap a) rest || any_overlap rest
  end.

Definition validate_segments (headers : list ProgramHeader) (data : list Z) : outcome ElfError (list ProgramHeader) :=
  loadable ← loadable_headers data headers;
  if bool_decide (loadable = []) then Error NoLoadableSegments
  else if (MAX_SEGMENTS <? length loadable)%nat then Error TooManySegments
  else if any_overlap loadable then Error OverlappingSegments
  else Value loadable.

Definition load_segment (X : Xlen) (data : list Z) (ph : ProgramHeader) : result MemorySegment :=
  e ← add_u 64 (p_offset ph) (p_filesz ph);
  if Z.of_nat (length data) <? e then Panic
  else
    end_ ← add_u 64 (p_vaddr ph) (p_memsz ph);
    mret (mkSegment (p_vaddr ph) (from_u64 X end_)
            (take (Z.to_nat (p_filesz ph)) (drop (Z.to_nat (p_offset ph)) data)) (p_flags ph)).

Definition load_segments (X : Xlen) (headers : list ProgramHeader) (data : list Z)
    : outcome ElfError (list MemorySegment) :=
  collect (fun ph => lift (load_segment X data ph)) headers.

Definition parse (X : Xlen) (data : list Z) : outcome ElfError ElfImage :=
  elf ← ElfFile.parse X data;
  loadable ← validate_segments (f_program_headers elf) data;
  segments ← load_segments X loadable data;
  mret (mkImage (f_entry_point elf) (f_e_flags elf) segments (f_sections elf) (f_symbols elf)).

Definition lookup_symbol (img : ElfImage) (name : list Z) : option Z :=
  sym_value <$> List.find (fun s => bool_decide (sym_name s = name)) (symbols img).
Definition lookup_function (img : ElfImage) (name : list Z) : option Z :=
  sym_value <$> List.find (fun s => bool_decide (sym_name s = name) && (sym_type s =? STT_FUNC)) (symbols img).

Definition from_bytecode (X : Xlen) (bytecode : list Z) (entry : Z) : result ElfImage :=
  e ← add_u 64 entry (Z.of_nat (length bytecode));
  mret (mkImage entry 0 [mkSegment entry (from_u64 X e) bytecode (Z.lor PF_X PF_R)] [] []).

Definition is_rve (img : ElfImage) : bool := negb (e_flags img &ᵇ EF_RISCV_RVE =? 0).
Definition is_rvc (img : ElfImage) : bool := negb (e_flags img &ᵇ EF_RISCV_RVC =? 0).

(** The end of the highest segment. *)
Definition get_initial_program_break (img : ElfImage) : Z :=
  foldl (fun max_end s => if max_end <? virtual_end s then virtual_end s else max_end) 0 (memory_segments img).

Fixpoint sum_sizes (l : list MemorySegment) (acc : Z) : result Z :=
  match l with
  | [] => Ok acc
  | s :: l' => m ← MemorySegment.memsz s; acc ← add_u 64 acc m; sum_sizes l' acc
  end.
Definition total_size (img : ElfImage) : result Z := sum_sizes (memory_segments img) 0.
End ElfImage.
