(* ===== verification/ElfFacts.v ===== *)
(** * Facts on ELF files

    The layout of the structures of an ELF file, and that the parser reads them
    back. *)

From S2P Require Import Prelude Xlen Isa Ext RegistryCorrect TableFacts Elf.
#[local] Open Scope word_scope.

(** ** Numbers as bytes *)

Fixpoint to_le (n : nat) (v : Z) : list Z :=
  match n with
  | O => []
  | S n => v mod 256 :: to_le n (v / 256)
  end.

Lemma length_to_le n v : length (to_le n v) = n.
Proof. revert v. induction n as [|n IH]; intros v; cbn; [done|]. by rewrite IH. Qed.

Lemma from_to_le n v : in_u (8 * Z.of_nat n) v -> from_le_bytes (to_le n v) = v.
Proof.
  revert v. induction n as [|n IH]; intros v Hv; cbn [to_le from_le_bytes].
  { unfold in_u in Hv. cbn in Hv. lia. }
  rewrite IH; [change (2 ^ 8) with 256; pose proof (Z.div_mod v 256); lia|].
  unfold in_u in *. replace (8 * Z.of_nat (S n)) with (8 + 8 * Z.of_nat n) in Hv by lia.
  rewrite Z.pow_add_r in Hv by lia. change (2 ^ 8) with 256 in Hv. split; [apply Z.div_pos; lia|].
  apply Z.div_lt_upper_bound; lia.
Qed.

Lemma to_le_bytes n v : Forall (in_u 8) (to_le n v).
Proof.
  revert v. induction n as [|n IH]; intros v; cbn [to_le]; constructor; [|done]. apply Z.mod_pos_bound. lia.
Qed.

(** ** Structures as fields

    A structure is the list of the widths and values of its fields. *)

Abbreviation fields := (list (nat * Z)).

Definition encode (fs : fields) : list Z := concat (map (fun f => to_le f.1 f.2) fs).

Definition field_offset (fs : fields) (k : nat) : nat := sum_list (map fst (take k fs)).

(** Each value fits its width. *)
Definition fields_ok (fs : fields) : Prop := Forall (fun f => in_u (8 * Z.of_nat f.1) f.2) fs.

Lemma length_encode fs : length (encode fs) = sum_list (map fst fs).
Proof.
  unfold encode. induction fs as [|[n v] fs IH]; cbn; [done|]. by rewrite length_app, length_to_le, IH.
Qed.

Lemma encode_app a b : encode (a ++ b) = encode a ++ encode b.
Proof. unfold encode. by rewrite map_app, concat_app. Qed.

Lemma read_le_at n v pre post :
  in_u (8 * Z.of_nat n) v -> read_le n (pre ++ to_le n v ++ post) (Z.of_nat (length pre)) = Ok v.
Proof.
  intros Hv. unfold read_le. rewrite (proj2 (Z.leb_le _ _)) by (rewrite !length_app, length_to_le; lia).
  rewrite Nat2Z.id, drop_app_length, take_app_le by (rewrite length_to_le; lia).
  rewrite take_ge by (rewrite length_to_le; lia). by rewrite from_to_le.
Qed.

(** The [k]-th field of a structure in a file. *)
Lemma read_field fs k n v pre post offset :
  fields_ok fs -> fs !! k = Some (n, v) -> offset = Z.of_nat (length pre) + Z.of_nat (field_offset fs k) ->
  read_le n (pre ++ encode fs ++ post) offset = Ok v.
Proof.
  intros Hok Hk ->. rewrite <- (take_drop_middle fs k _ Hk) at 1. rewrite encode_app.
  change ((n, v) :: drop (S k) fs) with ([(n, v)] ++ drop (S k) fs). rewrite encode_app.
  change (encode [(n, v)]) with (to_le n v ++ []). rewrite app_nil_r, <- !app_assoc, (app_assoc pre).
  replace (Z.of_nat (length pre) + _) with (Z.of_nat (length (pre ++ encode (take k fs))))
    by (rewrite length_app, length_encode; unfold field_offset; lia).
  apply read_le_at. exact (Forall_lookup_1 _ _ _ _ Hok Hk).
Qed.

(** A field of the width of a register. *)
Definition reg_width (X : Xlen) : nat := if VALUE X =? 64 then 8 else 4.

Lemma read_reg_field X fs k v pre post offset :
  fields_ok fs -> fs !! k = Some (reg_width X, v) ->
  offset = Z.of_nat (length pre) + Z.of_nat (field_offset fs k) ->
  read_reg X (pre ++ encode fs ++ post) offset = Ok v.
Proof.
  intros Hok Hk Ho. unfold read_reg.
  pose proof (Forall_lookup_1 _ _ _ _ Hok Hk) as Hv. cbn in Hv.
  assert ((if VALUE X =? 64 then read_le64 else read_le32) (pre ++ encode fs ++ post) offset = Ok v) as H.
  { unfold reg_width in Hk. by destruct (VALUE X =? 64); eapply read_field. }
  destruct (VALUE X =? 64) eqn:E; rewrite H; cbn; f_equal;
    (apply from_u64_id; unfold reg_width in Hv; rewrite E in Hv; by destruct X).
Qed.

(** ** The structures of the file *)

Definition program_fields (X : Xlen) (ph : ProgramHeader) : fields :=
  let r := reg_width X in
  if VALUE X =? 64 then
    [(4%nat, p_type ph); (4%nat, p_flags ph); (r, p_offset ph); (r, p_vaddr ph); (r, p_paddr ph); (r, p_filesz ph);
     (r, p_memsz ph); (r, p_align ph)]
  else
    [(4%nat, p_type ph); (r, p_offset ph); (r, p_vaddr ph); (r, p_paddr ph); (r, p_filesz ph); (r, p_memsz ph);
     (4%nat, p_flags ph); (r, p_align ph)].

Definition section_fields (X : Xlen) (s : SectionHeader) : fields :=
  let r := reg_width X in
  [(4%nat, sh_name s); (4%nat, sh_type s); (r, sh_flags s); (r, sh_addr s); (r, sh_offset s); (r, sh_size s);
   (4%nat, sh_link s); (4%nat, sh_info s); (r, sh_addralign s); (r, sh_entsize s)].

Definition header_fields (X : Xlen) (h : ElfHeader) : fields :=
  let r := reg_width X in
  [(4%nat, eh_magic h); (1%nat, eh_class h); (1%nat, eh_data h); (1%nat, eh_version h); (1%nat, eh_abi h);
   (1%nat, eh_abi_version h); (7%nat, 0); (2%nat, 2); (2%nat, 243); (4%nat, 1);
   (r, eh_entry h); (r, eh_phoff h); (r, eh_shoff h); (4%nat, eh_flags h); (2%nat, eh_ehsize h);
   (2%nat, eh_phentsize h); (2%nat, eh_phnum h); (2%nat, eh_shentsize h); (2%nat, eh_shnum h); (2%nat, eh_shstrndx h)].

Lemma beyond_within data offset size : 
  Z.of_nat (length data) < 2 ^ 64 -> 0 <= offset -> 0 <= size -> offset + size <= Z.of_nat (length data) -> beyond data offset size = Ok false.
Proof.
  intros. unfold beyond. rewrite add_u_ok by (unfold in_u; lia). cbn. f_equal. apply Z.ltb_ge. lia.
Qed.

(** Rewriting the read of field [k] at offset [o]. *)
Ltac offsets := cbv [field_offset program_fields section_fields header_fields reg_width VALUE Z.eqb Pos.eqb take map fst sum_list]; lia.
Ltac field0 n v := match goal with |- context [?p ++ encode ?f ++ ?q] =>
  rewrite (read_field f 0 n v p q (Z.of_nat (length p))) by (done || offsets) end.
Ltac field o k n v := match goal with |- context [?p ++ encode ?f ++ ?q] =>
  rewrite (read_field f k n v p q (Z.of_nat (length p) + o)) by (done || offsets) end.
Ltac reg_field X o k v := match goal with |- context [?p ++ encode ?f ++ ?q] =>
  rewrite (read_reg_field X f k v p q (Z.of_nat (length p) + o)) by (done || offsets) end.
Ltac in_bounds := rewrite beyond_within; [|done|lia|lia|rewrite !length_app, length_encode; cbn; lia];
  cbn [lift mbind outcome_bind].

Lemma parse_program_header_encode X ph pre post :
  fields_ok (program_fields X ph) ->
  Z.of_nat (length (pre ++ encode (program_fields X ph) ++ post)) < 2 ^ 64 ->
  ElfFile.parse_program_header X (pre ++ encode (program_fields X ph) ++ post) (Z.of_nat (length pre)) = Value ph.
Proof.
  intros Hok Hlen. unfold ElfFile.parse_program_header, read_le32. destruct X; cbn [VALUE Z.eqb Pos.eqb]; in_bounds.
  - field0 4%nat (p_type ph). reg_field Rv32 4 1%nat (p_offset ph). reg_field Rv32 8 2%nat (p_vaddr ph).
    reg_field Rv32 12 3%nat (p_paddr ph). reg_field Rv32 16 4%nat (p_filesz ph). reg_field Rv32 20 5%nat (p_memsz ph).
    field 24 6%nat 4%nat (p_flags ph). reg_field Rv32 28 7%nat (p_align ph). by destruct ph.
  - field0 4%nat (p_type ph). field 4 1%nat 4%nat (p_flags ph). reg_field Rv64 8 2%nat (p_offset ph).
    reg_field Rv64 16 3%nat (p_vaddr ph). reg_field Rv64 24 4%nat (p_paddr ph). reg_field Rv64 32 5%nat (p_filesz ph).
    reg_field Rv64 40 6%nat (p_memsz ph). reg_field Rv64 48 7%nat (p_align ph). by destruct ph.
Qed.

(** ** Section headers *)

Lemma parse_section_header_encode X s pre post :
  fields_ok (section_fields X s) ->
  Z.of_nat (length (pre ++ encode (section_fields X s) ++ post)) < 2 ^ 64 ->
  ElfFile.parse_section_header X (pre ++ encode (section_fields X s) ++ post) (Z.of_nat (length pre)) = Value s.
Proof.
  intros Hok Hlen. unfold ElfFile.parse_section_header, read_le32. destruct X; cbn [VALUE Z.eqb Pos.eqb]; in_bounds.
  - field0 4%nat (sh_name s). field 4 1%nat 4%nat (sh_type s). reg_field Rv32 8 2%nat (sh_flags s).
    reg_field Rv32 12 3%nat (sh_addr s). reg_field Rv32 16 4%nat (sh_offset s). reg_field Rv32 20 5%nat (sh_size s).
    field 24 6%nat 4%nat (sh_link s). field 28 7%nat 4%nat (sh_info s). reg_field Rv32 32 8%nat (sh_addralign s).
    reg_field Rv32 36 9%nat (sh_entsize s). by destruct s.
  - field0 4%nat (sh_name s). field 4 1%nat 4%nat (sh_type s). reg_field Rv64 8 2%nat (sh_flags s).
    reg_field Rv64 16 3%nat (sh_addr s). reg_field Rv64 24 4%nat (sh_offset s). reg_field Rv64 32 5%nat (sh_size s).
    field 40 6%nat 4%nat (sh_link s). field 44 7%nat 4%nat (sh_info s). reg_field Rv64 48 8%nat (sh_addralign s).
    reg_field Rv64 56 9%nat (sh_entsize s). by destruct s.
Qed.

(** ** The header *)

Lemma byte_at_read data offset : 0 <= offset -> byte_at data offset = read_le 1 data offset.
Proof.
  intros Ho. unfold byte_at, read_le. destruct (Z.ltb_spec offset (Z.of_nat (length data))) as [H|H].
  - rewrite (proj2 (Z.leb_le _ _)) by lia. destruct (lookup_lt_is_Some_2 data (Z.to_nat offset)) as [b Hb]; [lia|].
    rewrite Hb, (drop_S _ _ _ Hb). cbn [take from_le_bytes]. f_equal. rewrite Z.mul_0_r, Z.add_0_r. done.
  - by rewrite (proj2 (Z.leb_gt _ _)) by lia.
Qed.

(** The header is at the start of the file. *)
Ltac head_field o k n v := match goal with |- context [[] ++ encode ?f ++ ?q] =>
  rewrite (read_field f k n v [] q o) by (done || offsets) end.
Ltac head_reg X o k v := match goal with |- context [[] ++ encode ?f ++ ?q] =>
  rewrite (read_reg_field X f k v [] q o) by (done || offsets) end.

Lemma header_regs X h m d :
  fields_ok (header_fields X h) -> eh_magic h = m -> eh_data h = d ->
  @Value ElfError _ (mkHeader m (eh_class h) d (eh_version h) (eh_abi h) (eh_abi_version h) (from_u64 X (eh_entry h))
    (from_u64 X (eh_phoff h)) (from_u64 X (eh_shoff h)) (eh_flags h) (eh_ehsize h) (eh_phentsize h) (eh_phnum h)
    (eh_shentsize h) (eh_shnum h) (eh_shstrndx h)) = Value h.
Proof.
  intros Hok <- <-.
  assert (forall k v, header_fields X h !! k = Some (reg_width X, v) -> from_u64 X v = v) as Hr.
  { intros k v Hk. apply from_u64_id. pose proof (Forall_lookup_1 _ _ _ _ Hok Hk) as H. by destruct X. }
  rewrite (Hr 10%nat (eh_entry h) eq_refl), (Hr 11%nat (eh_phoff h) eq_refl), (Hr 12%nat (eh_shoff h) eq_refl).
  by destruct h.
Qed.

Lemma parse_header_encode X h post :
  fields_ok (header_fields X h) -> eh_magic h = ELF_MAGIC -> eh_data h = ELF_DATA_LSB ->
  ElfFile.parse_header X (encode (header_fields X h) ++ post) = Value h.
Proof.
  intros Hok Hm Hd. unfold ElfFile.parse_header.
  change (encode (header_fields X h) ++ post) with ([] ++ encode (header_fields X h) ++ post).
  rewrite (proj2 (Nat.ltb_ge _ _)) by (rewrite !length_app, length_encode; destruct X; cbn; lia).
  assert (ElfFile.is_git_lfs_pointer ([] ++ encode (header_fields X h) ++ post) = false) as ->.
  { unfold ElfFile.is_git_lfs_pointer. apply andb_false_iff. right. apply bool_decide_eq_false. intros E.
    apply (f_equal (fun l => l !! 0%nat)) in E. cbn in E. rewrite Hm in E. discriminate E. }
  rewrite !byte_at_read by lia. unfold read_le32.
  head_field 0 0%nat 4%nat (eh_magic h). cbn [lift mbind outcome_bind]. rewrite Hm, Z.eqb_refl. cbn [negb].
  head_field 4 1%nat 1%nat (eh_class h). head_field 5 2%nat 1%nat (eh_data h). head_field 6 3%nat 1%nat (eh_version h).
  head_field 7 4%nat 1%nat (eh_abi h). head_field 8 5%nat 1%nat (eh_abi_version h).
  cbn [lift mbind outcome_bind]. rewrite Hd, Z.eqb_refl. cbn [negb].
  destruct X; cbn [VALUE Z.eqb Pos.eqb]; unfold ElfFile.parse_header_32, ElfFile.parse_header_64, read_le16, read_le32, read_le64.
  - head_field 24 10%nat 4%nat (eh_entry h). head_field 28 11%nat 4%nat (eh_phoff h). head_field 32 12%nat 4%nat (eh_shoff h).
    head_field 36 13%nat 4%nat (eh_flags h). head_field 40 14%nat 2%nat (eh_ehsize h).
    head_field 42 15%nat 2%nat (eh_phentsize h). head_field 44 16%nat 2%nat (eh_phnum h).
    head_field 46 17%nat 2%nat (eh_shentsize h). head_field 48 18%nat 2%nat (eh_shnum h). head_field 50 19%nat 2%nat (eh_shstrndx h).
    cbn [mbind result_bind mret result_ret lift]. by apply header_regs.
  - head_field 24 10%nat 8%nat (eh_entry h). head_field 32 11%nat 8%nat (eh_phoff h). head_field 40 12%nat 8%nat (eh_shoff h).
    head_field 48 13%nat 4%nat (eh_flags h). head_field 52 14%nat 2%nat (eh_ehsize h).
    head_field 54 15%nat 2%nat (eh_phentsize h). head_field 56 16%nat 2%nat (eh_phnum h).
    head_field 58 17%nat 2%nat (eh_shentsize h). head_field 60 18%nat 2%nat (eh_shnum h). head_field 62 19%nat 2%nat (eh_shstrndx h).
    cbn [mbind result_bind mret result_ret lift]. by apply header_regs.
Qed.

(** ** Tables of structures *)

Lemma range_to_nat n : ElfFile.range_to (Z.of_nat n) = Z.of_nat <$> seq 0 n.
Proof. unfold ElfFile.range_to. by rewrite Nat2Z.id. Qed.

(** A table of structures of the same size is read entry by entry. *)
Lemma collect_table {A} (enc : A -> fields) (size : nat) (f : Z -> outcome ElfError A) (l : list A) : forall pre post,
  (forall x, x ∈ l -> length (encode (enc x)) = size) ->
  (forall x a b, x ∈ l -> pre ++ concat (map (fun x => encode (enc x)) l) ++ post = a ++ encode (enc x) ++ b ->
     f (Z.of_nat (length a)) = Value x) ->
  collect (fun i => f (Z.of_nat (length pre) + i * Z.of_nat size)) (Z.of_nat <$> seq 0 (length l)) = Value l.
Proof.
  assert (forall l' done_ pre post, l = done_ ++ l' ->
    (forall x, x ∈ l -> length (encode (enc x)) = size) ->
    (forall x a b, x ∈ l -> pre ++ concat (map (fun x => encode (enc x)) l) ++ post = a ++ encode (enc x) ++ b ->
       f (Z.of_nat (length a)) = Value x) ->
    collect (fun i => f (Z.of_nat (length pre) + i * Z.of_nat size)) (Z.of_nat <$> seq (length done_) (length l')) = Value l')
    as H.
  { induction l' as [|x l' IH]; intros done_ pre post E Hs Hf; [done|]. cbn [length seq fmap list_fmap collect].
    assert (length (concat (map (fun x => encode (enc x)) done_)) = (length done_ * size)%nat) as Hd.
    { assert (forall x, x ∈ done_ -> length (encode (enc x)) = size) as Hs' by (intros; apply Hs; rewrite E; set_solver).
      clear -Hs'. induction done_ as [|y d IHd]; [done|]. cbn. rewrite length_app, Hs' by by left.
      rewrite IHd; [done|]. intros; apply Hs'; by right. }
    replace (Z.of_nat (length pre) + Z.of_nat (length done_) * Z.of_nat size)
      with (Z.of_nat (length (pre ++ concat (map (fun x => encode (enc x)) done_)))) by (rewrite length_app, Hd; lia).
    rewrite (Hf x _ (concat (map (fun x => encode (enc x)) l') ++ post)).
    - cbn [mbind outcome_bind]. specialize (IH (done_ ++ [x]) pre post). rewrite length_app, Nat.add_1_r in IH.
      rewrite IH; [done| |done|done]. by rewrite <- app_assoc.
    - rewrite E. apply elem_of_app. right. by left.
    - rewrite E, map_app, concat_app. cbn [map concat]. by rewrite <- !app_assoc. }
  intros pre post. apply (H l [] pre post eq_refl).
Qed.

Lemma collect_ext {E A B} (f g : A -> outcome E B) l : (forall x, x ∈ l -> f x = g x) -> collect f l = collect g l.
Proof.
  induction l as [|x l IH]; intros H; [done|]. cbn [collect]. rewrite (H x) by by left.
  rewrite IH; [done|]. intros; apply H; by right.
Qed.

(** Table offsets do not overflow in a file that fits the address space. *)
Lemma table_offsets {A} (f : Z -> outcome ElfError A) base size n :
  0 <= base -> base + Z.of_nat n * Z.of_nat size < 2 ^ 64 ->
  collect (fun i => offset ← lift (add_u 64 base (i * Z.of_nat size)); f offset) (Z.of_nat <$> seq 0 n) =
  collect (fun i => f (base + i * Z.of_nat size)) (Z.of_nat <$> seq 0 n).
Proof.
  intros Hb Hn. apply collect_ext. intros x (k & -> & Hk%elem_of_seq)%list_elem_of_fmap.
  rewrite add_u_ok by (unfold in_u; nia). done.
Qed.

Section file.
Context (X : Xlen) (h : ElfHeader) (phs : list ProgramHeader) (shs : list SectionHeader).

Definition program_size : nat := if VALUE X =? 64 then 56 else 32.
Definition section_size : nat := if VALUE X =? 64 then 64 else 40.

Definition program_table : list Z := concat (map (fun p => encode (program_fields X p)) phs).
Definition section_table : list Z := concat (map (fun s => encode (section_fields X s)) shs).

Lemma length_programs : length program_table = (length phs * program_size)%nat.
Proof.
  unfold program_table, program_size. induction phs as [|p l IH]; [done|]. cbn [map concat length].
  rewrite length_app, length_encode, IH. destruct X; cbn; lia.
Qed.

Lemma length_sections : length section_table = (length shs * section_size)%nat.
Proof.
  unfold section_table, section_size. induction shs as [|p l IH]; [done|]. cbn [map concat length].
  rewrite length_app, length_encode, IH. destruct X; cbn; lia.
Qed.

Lemma parse_programs_encode pre post :
  Forall (fun p => fields_ok (program_fields X p)) phs ->
  eh_phoff h = Z.of_nat (length pre) -> eh_phentsize h = Z.of_nat program_size -> eh_phnum h = Z.of_nat (length phs) ->
  Z.of_nat (length (pre ++ program_table ++ post)) < 2 ^ 64 ->
  ElfFile.parse_program_headers X (pre ++ program_table ++ post) h = Value phs.
Proof.
  intros Hok Ho Hs Hn Hl. unfold ElfFile.parse_program_headers. rewrite Ho, Hs, Hn, range_to_nat.
  rewrite table_offsets; [|lia|rewrite !length_app, length_programs in Hl; lia].
  apply (collect_table (program_fields X) program_size _ phs pre post).
  - intros p _. rewrite length_encode. unfold program_size. by destruct X.
  - intros p a b Hp E. unfold program_table. rewrite E. rewrite Forall_forall in Hok.
    apply parse_program_header_encode; [by apply Hok|]. unfold program_table in Hl. by rewrite E in Hl.
Qed.

Lemma parse_sections_encode pre post :
  Forall (fun s => fields_ok (section_fields X s)) shs ->
  eh_shoff h = Z.of_nat (length pre) -> eh_shentsize h = Z.of_nat section_size -> eh_shnum h = Z.of_nat (length shs) ->
  Z.of_nat (length (pre ++ section_table ++ post)) < 2 ^ 64 ->
  ElfFile.parse_all_sections X (pre ++ section_table ++ post) h = Value shs.
Proof.
  intros Hok Ho Hs Hn Hl. unfold ElfFile.parse_all_sections. rewrite Ho, Hs, Hn, range_to_nat.
  rewrite table_offsets; [|lia|rewrite !length_app, length_sections in Hl; lia].
  apply (collect_table (section_fields X) section_size _ shs pre post).
  - intros s _. rewrite length_encode. unfold section_size. by destruct X.
  - intros s a b Hp E. unfold section_table. rewrite E. rewrite Forall_forall in Hok.
    apply parse_section_header_encode; [by apply Hok|]. unfold section_table in Hl. by rewrite E in Hl.
Qed.
End file.

(** ** Segments *)

(** The range of a header in memory. *)
Definition in_range (ph : ProgramHeader) (a : Z) : Prop := p_vaddr ph <= a < p_vaddr ph + p_memsz ph.

(** What was checked of a loadable header. *)
Definition loadable_ok (data : list Z) (ph : ProgramHeader) : Prop :=
  p_type ph = PT_LOAD /\ 0 < p_memsz ph /\
  p_offset ph + p_filesz ph <= Z.of_nat (length data) /\ in_u 64 (p_offset ph + p_filesz ph) /\
  in_u 64 (p_vaddr ph + p_memsz ph).

Lemma loadable_headers_spec data l : forall r,
  ElfImage.loadable_headers data l = Value r ->
  r = filter (fun ph => p_type ph = PT_LOAD /\ 0 < p_memsz ph) l /\ Forall (loadable_ok data) r.
Proof.
  induction l as [|ph l IH]; intros r; cbn [ElfImage.loadable_headers].
  { intros [= <-]. by split. }
  destruct ((p_type ph =? PT_LOAD) && (0 <? p_memsz ph)) eqn:E.
  - apply andb_true_iff in E as [E1%Z.eqb_eq E2%Z.ltb_lt]. unfold beyond.
    destruct (add_u 64 (p_offset ph) (p_filesz ph)) as [e|] eqn:Ea; [|done]. cbn [mbind result_bind lift outcome_bind].
    apply add_u_inv in Ea as [-> Ha]. destruct (Z.ltb_spec (Z.of_nat (length data)) (p_offset ph + p_filesz ph)); [done|].
    destruct (in_ub 64 (p_vaddr ph + p_memsz ph)) eqn:Ev; cbn [negb]; [|done].
    destruct (ElfImage.loadable_headers data l) as [r'|e|] eqn:Er; [|done..]. intros [= <-].
    destruct (IH r' eq_refl) as [-> Hr]. rewrite filter_cons_True by done. split; [done|].
    constructor; [|done]. apply in_ub_spec in Ev. done.
  - intros H. rewrite filter_cons_False; [by apply IH|]. intros [E1 E2].
    rewrite (proj2 (Z.eqb_eq _ _) E1), (proj2 (Z.ltb_lt _ _) E2) in E. done.
Qed.

Lemma ranges_overlap_spec a b :
  0 < p_memsz a -> 0 < p_memsz b ->
  ElfImage.ranges_overlap a b = false <-> forall x, ~ (in_range a x /\ in_range b x).
Proof.
  intros Ha Hb. unfold ElfImage.ranges_overlap, in_range. rewrite negb_false_iff, orb_true_iff, !Z.leb_le. split.
  - intros H x [? ?]. lia.
  - intros H. destruct (Z.le_gt_cases (p_vaddr a + p_memsz a) (p_vaddr b)); [by left|].
    destruct (Z.le_gt_cases (p_vaddr b + p_memsz b) (p_vaddr a)); [by right|].
    destruct (H (Z.max (p_vaddr a) (p_vaddr b))). lia.
Qed.

Lemma any_overlap_spec l :
  Forall (fun ph => 0 < p_memsz ph) l -> ElfImage.any_overlap l = false ->
  forall i j a b, l !! i = Some a -> l !! j = Some b -> i <> j -> forall x, ~ (in_range a x /\ in_range b x).
Proof.
  induction 1 as [|ph l Hp Hl IH]; [done|]. cbn [ElfImage.any_overlap]. intros [H1 H2]%orb_false_iff.
  assert (forall k b, l !! k = Some b -> forall x, ~ (in_range ph x /\ in_range b x)) as Hhead.
  { intros k b Hk. apply ranges_overlap_spec; [done | by eapply (Forall_lookup_1 _ _ _ _ Hl) |].
    destruct (ElfImage.ranges_overlap ph b) eqn:E; [|done].
    assert (existsb (ElfImage.ranges_overlap ph) l = true); [|congruence].
    apply existsb_exists. exists b. split; [by eapply list_elem_of_In, list_elem_of_lookup_2 | done]. }
  intros [|i] [|j] a b Ha Hb Hij x; cbn in Ha, Hb; simplify_eq; [by eapply Hhead | | by apply (IH H2 i j a b Ha Hb); lia].
  intros [? ?]. by eapply (Hhead i a Ha x).
Qed.
