(* ===== verification/ElfSafe.v ===== *)
(** * Parsing without panics

    On 32-bit files no sum of offsets and sizes overflows and no index is out of
    bounds: parsing ends in a value or in an error. *)

From S2P Require Import Prelude Xlen Isa Ext RegistryCorrect TableFacts Elf ElfFacts.
#[local] Open Scope word_scope.

(** ** Postconditions *)

(** A computation without a panic, whose value satisfies [P]. *)
Definition returns {A} (P : A -> Prop) (r : result A) : Prop :=
  match r with Ok a => P a | Panic => False end.

Definition safe {E A} (P : A -> Prop) (r : outcome E A) : Prop :=
  match r with Value a => P a | Error _ => True | Crash => False end.

Lemma returns_bind {A B} (P : A -> Prop) (Q : B -> Prop) (r : result A) f :
  returns P r -> (forall a, P a -> returns Q (f a)) -> returns Q (r ≫= f).
Proof. destruct r; [|done]. intros H Hf. by apply Hf. Qed.

Lemma safe_bind {E A B} (P : A -> Prop) (Q : B -> Prop) (r : outcome E A) f :
  safe P r -> (forall a, P a -> safe Q (f a)) -> safe Q (r ≫= f).
Proof. destruct r; [|done..]. intros H Hf. by apply Hf. Qed.

Lemma safe_lift {E A} (P : A -> Prop) (r : result A) : returns P r -> safe P (lift r : outcome E A).
Proof. by destruct r. Qed.

Lemma safe_collect {E A B} (P : B -> Prop) (f : A -> outcome E B) l :
  (forall x, x ∈ l -> safe P (f x)) -> safe (Forall P) (collect f l).
Proof.
  induction l as [|x l IH]; intros H; cbn [collect]; [constructor|].
  apply (safe_bind P); [apply H; by left|]. intros y Hy. apply (safe_bind (Forall P)).
  - apply IH. intros; apply H; by right.
  - intros r Hr. by constructor.
Qed.

Lemma returns_mono {A} (P Q : A -> Prop) r : (forall a, P a -> Q a) -> returns P r -> returns Q r.
Proof. destruct r; cbn; auto. Qed.

(** ** Reads *)

Section data.
Context (data : list Z) (Hdata : Forall (in_u 8) data).

Lemma read_le_returns n offset :
  0 <= offset -> offset + Z.of_nat n <= Z.of_nat (length data) -> returns (in_u (8 * Z.of_nat n)) (read_le n data offset).
Proof.
  intros Ho Hn. unfold read_le. rewrite (proj2 (Z.leb_le _ _) Hn). cbn [returns].
  pose proof (from_le_bytes_range (take n (drop (Z.to_nat offset) data))) as H.
  rewrite length_take, length_drop in H. replace (n `min` (length data - Z.to_nat offset))%nat with n in H by lia.
  apply H. by apply Forall_take, Forall_drop.
Qed.

Lemma byte_at_returns offset :
  0 <= offset < Z.of_nat (length data) -> returns (in_u 8) (byte_at data offset).
Proof. intros H. rewrite byte_at_read by lia. apply (read_le_returns 1); lia. Qed.

Lemma add_returns x y : 0 <= x < 2 ^ 40 -> 0 <= y < 2 ^ 40 -> returns (eq (x + y)) (add_u 64 x y).
Proof. intros. rewrite add_u_ok by (unfold in_u; lia). done. Qed.

Lemma beyond_returns offset size :
  0 <= offset < 2 ^ 40 -> 0 <= size < 2 ^ 40 ->
  returns (fun b : bool => b = false -> offset + size <= Z.of_nat (length data)) (beyond data offset size).
Proof.
  intros Ho Hs. unfold beyond. rewrite add_u_ok by (unfold in_u; lia). cbn. by intros H%Z.ltb_ge.
Qed.

Lemma read_reg_returns offset :
  0 <= offset -> offset + 4 <= Z.of_nat (length data) -> returns (in_u 32) (read_reg Rv32 data offset).
Proof.
  intros Ho Hn. unfold read_reg. cbn [VALUE Z.eqb Pos.eqb]. apply (returns_bind (in_u 32)); [by apply (read_le_returns 4)|].
  intros v Hv. cbn [returns mret result_ret]. by rewrite from_u64_id.
Qed.

(** Reads of a structure one after the other. *)
Ltac reads := repeat (
  eapply returns_bind;
  [first [apply read_reg_returns | apply (read_le_returns 4) | apply (read_le_returns 2) | apply byte_at_returns]; lia
  |intros ? ?]).

(** ** Structures *)

Record header_ok (h : ElfHeader) : Prop := {
  header_phoff : in_u 32 (eh_phoff h);
  header_shoff : in_u 32 (eh_shoff h);
  header_phentsize : in_u 16 (eh_phentsize h);
  header_phnum : in_u 16 (eh_phnum h);
  header_shentsize : in_u 16 (eh_shentsize h);
  header_shnum : in_u 16 (eh_shnum h)
}.

Record program_ok (ph : ProgramHeader) : Prop := {
  program_offset : in_u 32 (p_offset ph);
  program_filesz : in_u 32 (p_filesz ph);
  program_vaddr : in_u 32 (p_vaddr ph);
  program_memsz : in_u 32 (p_memsz ph)
}.

Record section_ok (s : SectionHeader) : Prop := {
  section_name : in_u 32 (sh_name s);
  section_offset : in_u 32 (sh_offset s);
  section_bytes : in_u 32 (sh_size s);
  section_entsize : in_u 32 (sh_entsize s)
}.

Lemma parse_header_safe : safe header_ok (ElfFile.parse_header Rv32 data).
Proof.
  unfold ElfFile.parse_header. cbn [VALUE Z.eqb Pos.eqb].
  destruct (Nat.ltb_spec (length data) 52) as [|Hl]; [done|]. destruct (ElfFile.is_git_lfs_pointer data); [done|].
  assert (forall k, 0 <= k < 52 -> exists b, byte_at data k = Ok b) as Hb.
  { intros k Hk. pose proof (byte_at_returns k ltac:(lia)) as H. destruct (byte_at data k); [by eexists | done]. }
  apply (safe_bind (fun _ => True)).
  { apply safe_lift. eapply returns_mono; [done | apply (read_le_returns 4); lia]. }
  intros magic _. destruct (negb _); [done|].
  destruct (Hb 4 ltac:(lia)) as [? ->], (Hb 5 ltac:(lia)) as [? ->], (Hb 6 ltac:(lia)) as [? ->],
    (Hb 7 ltac:(lia)) as [? ->], (Hb 8 ltac:(lia)) as [? ->]. cbn [lift mbind outcome_bind].
  destruct (negb _); [done|]. apply safe_lift. unfold ElfFile.parse_header_32, read_le32, read_le16. reads.
  split; cbn [eh_phoff eh_shoff eh_phentsize eh_phnum eh_shentsize eh_shnum]; try done;
    by rewrite from_u64_id.
Qed.

Lemma parse_program_header_safe offset :
  0 <= offset < 2 ^ 40 -> safe program_ok (ElfFile.parse_program_header Rv32 data offset).
Proof.
  intros Ho. unfold ElfFile.parse_program_header. cbn [VALUE Z.eqb Pos.eqb].
  eapply safe_bind; [apply safe_lift, beyond_returns; [done | lia]|]. intros [] Hb; [done|].
  specialize (Hb eq_refl). apply safe_lift. unfold read_le32. reads. by split.
Qed.

Lemma parse_section_header_safe offset :
  0 <= offset < 2 ^ 40 -> safe section_ok (ElfFile.parse_section_header Rv32 data offset).
Proof.
  intros Ho. unfold ElfFile.parse_section_header. cbn [VALUE Z.eqb Pos.eqb].
  eapply safe_bind; [apply safe_lift, beyond_returns; [done | lia]|]. intros [] Hb; [done|].
  specialize (Hb eq_refl). apply safe_lift. unfold read_le32. reads. by split.
Qed.

(** A table read entry by entry. *)
Lemma table_safe {A} (P : A -> Prop) (f : Z -> outcome ElfError A) base size n :
  in_u 32 base -> in_u 16 size -> in_u 16 n -> (forall o, 0 <= o < 2 ^ 40 -> safe P (f o)) ->
  safe (Forall P) (collect (fun i => offset ← lift (add_u 64 base (i * size)); f offset) (ElfFile.range_to n)).
Proof.
  unfold in_u. intros Hb Hs Hn Hf. apply safe_collect. intros x (k & -> & Hk%elem_of_seq)%list_elem_of_fmap.
  assert (0 <= Z.of_nat k * size < 2 ^ 32) by nia.
  eapply safe_bind; [apply safe_lift, add_returns; lia|]. intros o <-. apply Hf. lia.
Qed.

Lemma extract_string_safe a b :
  in_u 32 a -> in_u 32 b -> returns (fun _ => True) (ElfFile.extract_string data a b).
Proof.
  unfold in_u. intros Ha Hb. unfold ElfFile.extract_string. eapply returns_bind; [apply add_returns; lia|]. done.
Qed.

Lemma load_section_data_safe s : section_ok s -> returns (fun _ => True) (ElfFile.load_section_data data s).
Proof.
  intros [_ Ho Hs _]. unfold in_u in *. unfold ElfFile.load_section_data, ISIZE_MAX.
  rewrite (proj2 (Z.ltb_ge _ _)) by lia. destruct (_ =? _).
  - destruct (in_ub 64 (sh_offset s + (sh_size s - 1))) eqn:E; [by rewrite andb_false_r|].
    destruct (Z.ltb_spec 0 (sh_size s)); [|done]. exfalso.
    assert (in_ub 64 (sh_offset s + (sh_size s - 1)) = true); [|congruence]. apply in_ub_spec. unfold in_u. lia.
  - by destruct (_ =? _).
Qed.

Lemma load_sections_safe strtab l :
  (forall s, strtab = Some s -> section_ok s) -> Forall section_ok l ->
  returns (fun _ => True) (ElfFile.load_allocatable_sections data strtab l).
Proof.
  intros Ht. induction 1 as [|s l Hs _ IH]; [done|]. cbn [ElfFile.load_allocatable_sections].
  destruct (negb _); [|done]. eapply returns_bind; [by apply load_section_data_safe|]. intros d _.
  apply (returns_bind (fun _ => True)).
  - destruct strtab as [t|]; [|done]. apply extract_string_safe; [apply (Ht t eq_refl) | apply Hs].
  - intros name _. eapply returns_bind; [done|]. done.
Qed.

Lemma parse_symbol_safe offset strtab :
  0 <= offset < 2 ^ 40 -> in_u 32 strtab -> returns (fun _ => True) (ElfFile.parse_symbol Rv32 data offset strtab).
Proof.
  intros Ho Hs. unfold ElfFile.parse_symbol. cbn [VALUE Z.eqb Pos.eqb].
  eapply returns_bind; [apply beyond_returns; [done | lia]|]. intros [] Hb; [done|]. specialize (Hb eq_refl).
  unfold read_le32, read_le16. reads. eapply returns_bind; [by apply extract_string_safe|]. done.
Qed.

Lemma parse_symbols_safe l : Forall section_ok l -> returns (fun _ => True) (ElfFile.parse_symbols Rv32 data l).
Proof.
  intros Hl. unfold ElfFile.parse_symbols. destruct (List.find _ l) as [symtab|] eqn:Ef; [|done].
  apply List.find_some in Ef as [Hin _]. apply list_elem_of_In in Hin. rewrite Forall_forall in Hl.
  destruct (l !! _) as [strtab|] eqn:Es; [|done]. apply list_elem_of_lookup_2 in Es.
  destruct (Hl _ Hin) as [_ Ho Hsz He], (Hl _ Es) as [_ Ho' _ _].
  destruct (Z.eqb_spec (sh_entsize symtab) 0); [done|]. unfold in_u in *.
  assert (forall ks, (forall i, i ∈ ks -> 0 <= i /\ i * sh_entsize symtab <= sh_size symtab) ->
    returns (fun _ => True) (ElfFile.parse_symbol_entries Rv32 data (sh_offset symtab) (sh_entsize symtab) (sh_offset strtab) ks)) as H.
  { induction ks as [|i ks IH]; intros Hi; [done|]. cbn [ElfFile.parse_symbol_entries].
    destruct (Hi i) as [Hi1 Hi2]; [by left|].
    eapply returns_bind; [apply add_returns; nia|]. intros o <-.
    eapply returns_bind; [apply parse_symbol_safe; [lia | done]|]. intros sy _.
    eapply returns_bind; [apply IH; intros; apply Hi; by right|]. done. }
  apply H. intros i (k & -> & Hk%elem_of_seq)%list_elem_of_fmap. split; [lia|].
  pose proof (Z.mul_div_le (sh_size symtab) (sh_entsize symtab) ltac:(lia)).
  assert (0 <= sh_size symtab / sh_entsize symtab) by (apply Z.div_pos; lia). nia.
Qed.

(** ** The file and the image *)

Lemma parse_file_safe : safe (fun f => Forall program_ok (f_program_headers f)) (ElfFile.parse Rv32 data).
Proof.
  unfold ElfFile.parse. eapply safe_bind; [apply parse_header_safe|]. intros h Hh. destruct (negb _); [done|].
  eapply safe_bind; [apply table_safe; [apply Hh..|]; apply parse_program_header_safe|]. intros phs Hp.
  eapply safe_bind; [apply table_safe; [apply Hh..|]; apply parse_section_header_safe|]. intros shs Hs.
  eapply safe_bind; [apply safe_lift, load_sections_safe; [|done]|].
  { intros s E. unfold ElfFile.find_string_table in E. exact (Forall_lookup_1 _ _ _ _ Hs E). }
  intros ls _. eapply safe_bind; [by apply safe_lift, parse_symbols_safe|]. done.
Qed.

Lemma parse_image_safe : safe (fun _ => True) (ElfImage.parse Rv32 data).
Proof.
  unfold ElfImage.parse. eapply safe_bind; [apply parse_file_safe|]. intros f Hf.
  apply (safe_bind (Forall (loadable_ok data))).
  - unfold ElfImage.validate_segments.
    assert (safe (Forall (loadable_ok data)) (ElfImage.loadable_headers data (f_program_headers f))) as H.
    { destruct (ElfImage.loadable_headers data (f_program_headers f)) as [r|e|] eqn:E; [|done|].
      - by apply loadable_headers_spec in E as [_ ?].
      - exfalso. revert E. induction Hf as [|ph l Hp _ IH]; [done|]. cbn [ElfImage.loadable_headers].
        destruct (_ && _); [|done]. destruct Hp as [Ho Hz _ _]. unfold in_u in *. unfold beyond.
        rewrite add_u_ok by (unfold in_u; lia). cbn [mbind result_bind mret result_ret lift outcome_bind].
        destruct (_ <? _); [done|]. destruct (negb _); [done|].
        by destruct (ElfImage.loadable_headers data l). }
    eapply safe_bind; [exact H|]. intros l Hl. case_bool_decide; [done|]. destruct (_ <? _)%nat; [done|].
    by destruct (ElfImage.any_overlap l).
  - intros l Hl. apply (safe_bind (fun _ => True)); [|done].
    assert (safe (Forall (fun _ => True)) (ElfImage.load_segments Rv32 l data)) as H; [|by destruct (ElfImage.load_segments Rv32 l data)].
    apply safe_collect. intros ph Hph. rewrite Forall_forall in Hl. destruct (Hl ph Hph) as (_ & _ & H1 & H2 & H3).
    apply safe_lift. unfold ElfImage.load_segment. eapply (returns_bind (eq (p_offset ph + p_filesz ph))); [by rewrite add_u_ok|].
    intros e <-. rewrite (proj2 (Z.ltb_ge _ _)) by lia.
    eapply (returns_bind (fun _ => True)); [by rewrite add_u_ok | done].
Qed.
End data.
