(* ===== verification/ElfProps.v ===== *)
(** * Properties of ELF loading *)

From S2P Require Import Prelude Xlen Isa Ext RegistryCorrect TableFacts Elf ElfFacts ElfSafe.
#[local] Open Scope word_scope.

(** ** A file *)

Definition sample_header (X : Xlen) (phoff phnum : Z) : ElfHeader :=
  mkHeader ELF_MAGIC (if VALUE X =? 64 then 2 else 1) ELF_DATA_LSB 1 0 0 0x80000000 phoff 0 EF_RISCV_RVC
    (if VALUE X =? 64 then 64 else 52) (Z.of_nat (program_size X)) phnum (Z.of_nat (section_size X)) 0 0.

(** One segment of four bytes after the headers. *)
Definition sample_program (X : Xlen) (vaddr memsz : Z) : ProgramHeader :=
  mkProgram PT_LOAD (if VALUE X =? 64 then 120 else 84) vaddr vaddr 4 memsz (Z.lor PF_X PF_R) 4.

Definition sample_file (X : Xlen) (phoff vaddr memsz : Z) : list Z :=
  encode (header_fields X (sample_header X phoff 1)) ++ encode (program_fields X (sample_program X vaddr memsz)) ++
  [0x13; 0x00; 0x00; 0x00].

(** C37. The parser reads back what a file holds: for a file with an ELF header, program
    headers and section headers at the offsets the ELF header gives, 32 or 64 bits
    wide, it returns that header and these program and section headers. *)
Theorem elf_roundtrip X h phs shs gap1 gap2 rest :
  let head := encode (header_fields X h) ++ gap1 in
  let file := head ++ program_table X phs ++ gap2 ++ section_table X shs ++ rest in
  eh_magic h = ELF_MAGIC -> eh_data h = ELF_DATA_LSB -> fields_ok (header_fields X h) ->
  Forall (fun p => fields_ok (program_fields X p)) phs -> Forall (fun s => fields_ok (section_fields X s)) shs ->
  eh_phoff h = Z.of_nat (length head) -> eh_phentsize h = Z.of_nat (program_size X) ->
  eh_phnum h = Z.of_nat (length phs) ->
  eh_shoff h = Z.of_nat (length (head ++ program_table X phs ++ gap2)) ->
  eh_shentsize h = Z.of_nat (section_size X) -> eh_shnum h = Z.of_nat (length shs) ->
  Z.of_nat (length file) < 2 ^ 64 ->
  ElfFile.parse_header X file = Value h /\
  ElfFile.parse_program_headers X file h = Value phs /\
  ElfFile.parse_all_sections X file h = Value shs.
Proof.
  intros head file Hm Hd Hh Hp Hs Hpo Hps Hpn Hso Hss Hsn Hl. split_and!.
  - unfold file, head. rewrite <- app_assoc. by apply parse_header_encode.
  - unfold file. by apply parse_programs_encode.
  - assert (file = (head ++ program_table X phs ++ gap2) ++ section_table X shs ++ rest) as E
      by (unfold file; by rewrite <- !app_assoc).
    rewrite E in *. by apply parse_sections_encode.
Qed.

Lemma fields_ok_dec fs : forallb (fun f => in_ub (8 * Z.of_nat f.1) f.2) fs = true -> fields_ok fs.
Proof.
  intros H. apply Forall_forall. intros f Hf. apply in_ub_spec. rewrite forallb_forall in H.
  apply H. by apply list_elem_of_In.
Qed.

Lemma elf_roundtrip_witness :
  let h := mkHeader ELF_MAGIC 2 ELF_DATA_LSB 1 0 0 0x80000000 64 120 EF_RISCV_RVC 64 56 1 64 0 0 in
  let file := (encode (header_fields Rv64 h) ++ []) ++ program_table Rv64 [sample_program Rv64 0x80000000 8] ++
    [] ++ section_table Rv64 [] ++ [0x13; 0x00; 0x00; 0x00] in
  ElfFile.parse_header Rv64 file = Value h /\
  ElfFile.parse_program_headers Rv64 file h = Value [sample_program Rv64 0x80000000 8] /\
  ElfFile.parse_all_sections Rv64 file h = Value [].
Proof.
  intros h file.
  apply (elf_roundtrip Rv64 h [sample_program Rv64 0x80000000 8] [] [] [] [0x13; 0x00; 0x00; 0x00]);
    try (vm_compute; reflexivity).
  - apply fields_ok_dec. vm_compute. reflexivity.
  - constructor; [apply fields_ok_dec; vm_compute; reflexivity | constructor].
  - constructor.
Defined.

(** The segment a loadable header gives. *)
Definition segment_of (X : Xlen) (data : list Z) (ph : ProgramHeader) : MemorySegment :=
  mkSegment (p_vaddr ph) (from_u64 X (p_vaddr ph + p_memsz ph))
    (take (Z.to_nat (p_filesz ph)) (drop (Z.to_nat (p_offset ph)) data)) (p_flags ph).

(** C38. The segments of an image: they are those of the loadable program headers, at
    least one and at most eight, each with the bytes of the file its header names,
    all of which are there; their address ranges do not wrap around 2^64, are not
    empty and do not overlap. *)
Theorem image_segments X data img :
  ElfImage.parse X data = Value img ->
  exists f phs, ElfFile.parse X data = Value f /\
    phs = filter (fun ph => p_type ph = PT_LOAD /\ 0 < p_memsz ph) (f_program_headers f) /\
    (1 <= length phs <= MAX_SEGMENTS)%nat /\
    Forall (loadable_ok data) phs /\
    memory_segments img = map (segment_of X data) phs /\
    (forall i j a b, phs !! i = Some a -> phs !! j = Some b -> i <> j -> forall x, ~ (in_range a x /\ in_range b x)) /\
    entry_point img = f_entry_point f /\ symbols img = f_symbols f.
Proof.
  unfold ElfImage.parse, ElfImage.validate_segments. destruct (ElfFile.parse X data) as [f|e|]; [|done..].
  cbn [mbind outcome_bind]. destruct (ElfImage.loadable_headers data (f_program_headers f)) as [phs|e|] eqn:El; [|done..].
  cbn [mbind outcome_bind]. apply loadable_headers_spec in El as [E Hok].
  case_bool_decide as Hne; [done|]. destruct (Nat.ltb_spec MAX_SEGMENTS (length phs)) as [|Hmax]; [done|].
  destruct (ElfImage.any_overlap phs) eqn:Ho; [done|]. cbn [mbind outcome_bind].
  assert (ElfImage.load_segments X phs data = Value (map (segment_of X data) phs)) as ->.
  { clear -Hok. unfold ElfImage.load_segments. induction Hok as [|ph l (_ & _ & H1 & H2 & H3) _ IH]; [done|].
    cbn [collect map]. rewrite IH. unfold ElfImage.load_segment, segment_of.
    rewrite (add_u_ok 64 (p_offset ph)), (add_u_ok 64 (p_vaddr ph)) by done. cbn [mbind result_bind].
    by rewrite (proj2 (Z.ltb_ge _ _)) by lia. }
  cbn [mbind outcome_bind]. intros [= <-]. exists f, phs. split_and!; try done.
  - destruct phs; [done|]. cbn. lia.
  - apply any_overlap_spec; [|done]. eapply Forall_impl; [exact Hok|]. by intros ph (_ & ? & _).
Qed.

Lemma image_segments_witness :
  exists img f phs, ElfImage.parse Rv64 (sample_file Rv64 64 0x80000000 8) = Value img /\
    ElfFile.parse Rv64 (sample_file Rv64 64 0x80000000 8) = Value f /\
    memory_segments img = map (segment_of Rv64 (sample_file Rv64 64 0x80000000 8)) phs.
Proof.
  eexists.
  destruct (image_segments Rv64 (sample_file Rv64 64 0x80000000 8) _ ltac:(vm_compute; reflexivity))
    as (f & phs & H1 & _ & _ & _ & H2 & _).
  exists f, phs. split; [vm_compute; reflexivity|]. split; [exact H1 | exact H2].
Defined.

(** C39. Parsing a 32-bit file never panics: whatever the bytes, the result is an image
    or an error. *)
Theorem elf32_never_panics data :
  Forall (in_u 8) data -> ElfImage.parse Rv32 data <> Crash.
Proof.
  intros Hd E. pose proof (parse_image_safe data Hd) as H. by rewrite E in H.
Qed.

Lemma elf32_never_panics_witness : ElfImage.parse Rv32 [0x7F; 0x45; 0x4C; 0x46] <> Crash.
Proof.
  apply (elf32_never_panics [0x7F; 0x45; 0x4C; 0x46]). repeat (constructor; [split; vm_compute; congruence|]). constructor.
Defined.

(** ** Where the checks fall short *)

(** A 64-bit file whose program headers are said to be at the end of the address
    space: the sum of the offset and the size of a header overflows. *)
Theorem elf64_offset_panics : ElfImage.parse Rv64 (sample_file Rv64 (2 ^ 64 - 1) 0x80000000 8) = Crash.
Proof. vm_compute. reflexivity. Qed.

Definition image_of (X : Xlen) (data : list Z) : ElfImage :=
  match ElfImage.parse X data with Value img => img | _ => mkImage 0 0 [] [] [] end.

(** A segment with more bytes in the file than in memory is accepted; the size of
    its zero part is then negative. *)
Theorem filesz_beyond_memsz :
  let data := sample_file Rv64 64 0x80000000 2 in
  ElfImage.parse Rv64 data = Value (image_of Rv64 data) /\
  map (fun s => (MemorySegment.memsz s, MemorySegment.filesz s, MemorySegment.bss_size s))
    (memory_segments (image_of Rv64 data)) = [(Ok 2, 4, Panic)].
Proof. split; vm_compute; reflexivity. Qed.

(** On RV32 a segment up to the end of the address space is accepted with the end
    address zero: the check for overflow is made on 64 bits. *)
Theorem rv32_segment_end_wraps :
  let data := sample_file Rv32 52 0xFFFFF000 0x1000 in
  ElfImage.parse Rv32 data = Value (image_of Rv32 data) /\
  map (fun s => (virtual_start s, virtual_end s, MemorySegment.memsz s)) (memory_segments (image_of Rv32 data))
  = [(0xFFFFF000, 0, Panic)].
Proof. split; vm_compute; reflexivity. Qed.
