(* ===== verification/Pipeline.v ===== *)
(** * The recompilation pipeline ([crates/rvr/src/pipeline.rs], [crates/rvr-emit/src/inputs.rs])

    From the ELF image to lifted blocks and the inputs of the emitters.  Of the
    configuration only what these steps read is kept.  Writing files, debug
    information and logging are left out. *)

From S2P Require Import Prelude Xlen IR IRBuild Isa Ext Registry InstrTable Elf.
From S2P Require Import CfgData CfgScan CfgFlow BlockTable.
#[local] Open Scope word_scope.

(** ** Inputs of the emitters *)

Record EmitInputs := mkInputs {
  in_entry_point : Z;
  text_start : Z;
  pc_end : Z;
  valid_addresses : gset Z;
  in_absorbed_to_merged : gmap Z Z;
  initial_brk : Z
}.

Module EmitInputs.
Definition new (entry pc_end : Z) : EmitInputs := mkInputs entry entry pc_end ∅ ∅ 0.
Definition with_text_start (i : EmitInputs) (x : Z) : EmitInputs :=
  mkInputs (in_entry_point i) x (pc_end i) (valid_addresses i) (in_absorbed_to_merged i) (initial_brk i).
Definition with_initial_brk (i : EmitInputs) (x : Z) : EmitInputs :=
  mkInputs (in_entry_point i) (text_start i) (pc_end i) (valid_addresses i) (in_absorbed_to_merged i) x.
Definition is_valid_address (i : EmitInputs) (pc : Z) : bool :=
  bool_decide (pc ∈ valid_addresses i) || bool_decide (is_Some (in_absorbed_to_merged i !! pc)).
Definition resolve_address (i : EmitInputs) (pc : Z) : Z := default pc (in_absorbed_to_merged i !! pc).
End EmitInputs.

(** ** The pipeline *)

Inductive AnalysisMode := FullCfg | Basic.
Inductive Backend := BC | X86Asm | ARM64Asm.

Record EmitConfig := mkConfig {
  backend : Backend;
  analysis_mode : AnalysisMode;
  enable_superblock : bool;
  num_regs : Z;
  hot_regs : list Z
}.

Definition NUM_REGS_I : Z := 32.
Definition NUM_REGS_E : Z := 16.

Inductive PipelineError := NoCodeSegment (entry : Z) | CfgNotBuilt (step : string).

Record Pipeline := mkPipeline {
  image : ElfImage;
  config : EmitConfig;
  block_table : option BlockTable;
  pl_instruction_table : option InstructionTable;
  ir_blocks : gmap Z BlockIR;
  ir_instructions : list InstrIR;
  registry : ExtensionRegistry;
  extra_entry_points : list Z
}.

(** A step that can run out of fuel, panic or fail. *)
Definition stage (A : Type) : Type := option (outcome PipelineError A).

Definition of_run {A} (r : run A) : stage A :=
  match r with Some (Ok a) => Some (Value a) | Some Panic => Some Crash | None => None end.

Definition then_ {A B} (m : stage A) (f : A -> stage B) : stage B :=
  match m with
  | Some (Value a) => f a
  | Some (Error e) => Some (Error e)
  | Some Crash => Some Crash
  | None => None
  end.

Module Pipeline.
Section xlen.
Context (X : Xlen).

Definition adjust_config_for_image (img : ElfImage) (c : EmitConfig) : EmitConfig :=
  if ElfImage.is_rve img
  then mkConfig (backend c) (analysis_mode c) (enable_superblock c) NUM_REGS_E
         (filter (fun r => r < NUM_REGS_E) (hot_regs c))
  else mkConfig (backend c) (analysis_mode c) (enable_superblock c) NUM_REGS_I (hot_regs c).

Definition with_registry (img : ElfImage) (c : EmitConfig) (r : ExtensionRegistry) : Pipeline :=
  mkPipeline img (adjust_config_for_image img c) None None ∅ [] r [].
Definition new (img : ElfImage) (c : EmitConfig) : Pipeline :=
  with_registry img c (ExtensionRegistry.standard X).

Definition add_extra_entry_points (p : Pipeline) (l : list Z) : Pipeline :=
  mkPipeline (image p) (config p) (block_table p) (pl_instruction_table p) (ir_blocks p) (ir_instructions p)
    (registry p) (extra_entry_points p ++ l).

Definition add_function_symbols_as_entry_points (p : Pipeline) : Pipeline :=
  add_extra_entry_points p
    (map sym_value (filter (fun s => sym_type s = STT_FUNC /\ sym_name s <> []) (symbols (image p)))).

(** ** Building the tables *)

(** [iter().filter(..)] with a test that can panic. *)
Fixpoint filter_sections (img : ElfImage) (l : list MemorySegment) : result (list MemorySegment) :=
  match l with
  | [] => Ok []
  | s :: l' =>
      b ← MemorySegment.has_executable_sections s (sections img);
      r ← filter_sections img l';
      mret (if (b : bool) then s :: r else r)
  end.

Definition collect_exec_segments (p : Pipeline) (entry_pc : Z) : outcome PipelineError (list MemorySegment) :=
  let segments := memory_segments (image p) in
  let exec := filter (fun s => MemorySegment.is_executable s = true) segments in
  exec ← (if decide (exec = []) then lift (filter_sections (image p) segments) else Value exec);
  if decide (exec = []) then Error (NoCodeSegment entry_pc)
  else if negb (existsb (fun s => (virtual_start s <=? entry_pc) && (entry_pc <? virtual_end s)) exec)
  then Error (NoCodeSegment entry_pc)
  else Value exec.

(** [min()] and [max()] of a list that is not empty. *)
Definition min_of (l : list Z) : option Z :=
  match l with [] => None | x :: l' => Some (foldl Z.min x l') end.
Definition max_of (l : list Z) : option Z :=
  match l with [] => None | x :: l' => Some (foldl Z.max x l') end.

Definition exec_segments_range (exec : list MemorySegment) (entry_pc : Z) : outcome PipelineError (Z * Z) :=
  match min_of (map virtual_start exec), max_of (map virtual_end exec) with
  | Some base, Some end_ => Value (base, end_)
  | _, _ => Error (NoCodeSegment entry_pc)
  end.

Fixpoint decode_exec_segments (r : ExtensionRegistry) (exec : list MemorySegment) (t : InstructionTable)
    : run InstructionTable :=
  match exec with
  | [] => Some (Ok t)
  | s :: rest =>
      match InstructionTable.populate_segment X r t (seg_data s) (virtual_start s) with
      | Some (Ok t) => decode_exec_segments r rest t
      | x => x
      end
  end.

Definition add_extra_entry_points_to_table (p : Pipeline) (t : InstructionTable) : InstructionTable :=
  InstructionTable.add_entry_points t (extra_entry_points p).

Definition add_ro_segments_to_table (p : Pipeline) (t : InstructionTable) : InstructionTable :=
  foldl (fun t s => if MemorySegment.is_readonly s
                    then InstructionTable.add_ro_segment t (virtual_start s) (virtual_end s) (seg_data s) else t)
    t (memory_segments (image p)).

Context (o : Order).

Definition build_cfg_for_c (p : Pipeline) (t : InstructionTable) : stage Pipeline :=
  let done bt := Some (Value (mkPipeline (image p) (config p) (Some bt) None (ir_blocks p) (ir_instructions p)
                                (registry p) (extra_entry_points p))) in
  match analysis_mode (config p) with
  | FullCfg =>
      then_ (of_run (BlockTable.from_instruction_table o X t (registry p))) (fun bt =>
        if enable_superblock (config p) then
          then_ (of_run (BlockTable.optimize (registry p) o bt)) (fun r => done (snd r))
        else
          then_ (of_run (BlockTable.merge_blocks (registry p) bt)) (fun r =>
            match BlockTable.tail_duplicate (registry p) o (snd r) DEFAULT_TAIL_DUP_SIZE with
            | Panic => Some Crash
            | Ok r =>
                match BlockTable.fix_stale_mappings o (snd r) with
                | Some bt => done bt
                | None => None
                end
            end))
  | Basic => then_ (of_run (BlockTable.linear t)) done
  end.

Definition build_cfg_for_asm (p : Pipeline) (t : InstructionTable) : stage Pipeline :=
  let done bt := Some (Value (mkPipeline (image p) (config p) bt (Some t) (ir_blocks p) (ir_instructions p)
                                (registry p) (extra_entry_points p))) in
  match analysis_mode (config p) with
  | FullCfg => then_ (of_run (BlockTable.from_instruction_table o X t (registry p))) (fun bt => done (Some bt))
  | Basic => done None
  end.

(** The table over all executable segments. *)
Definition build_table (p : Pipeline) : stage InstructionTable :=
  let entry_pc := entry_point (image p) in
  then_ (Some (
    exec ← collect_exec_segments p entry_pc;
    range ← exec_segments_range exec entry_pc;
    t ← lift (InstructionTable.new range.1 range.2 entry_pc);
    mret (exec, t)))
    (fun et =>
      then_ (of_run (decode_exec_segments (registry p) et.1 et.2)) (fun t =>
        Some (Value (add_ro_segments_to_table p (add_extra_entry_points_to_table p t))))).

Definition build_cfg (p : Pipeline) : stage Pipeline :=
  then_ (build_table p) (fun t =>
    match backend (config p) with
    | BC => build_cfg_for_c p t
    | _ => build_cfg_for_asm p t
    end).

(** ** Lifting *)

Section lift_blocks.
Context (r : ExtensionRegistry) (t : InstructionTable).

(** The loop over one range. *)
Fixpoint lift_range (fuel : nat) (is_last_range : bool) (pc range_end : Z) (b : BlockIR) : run BlockIR :=
  match fuel with
  | O => None
  | S fuel =>
      if pc <? range_end then
        match InstructionTable.get_at_pc t pc with
        | None => Some (Ok b)
        | Some instr =>
            match (ir ← ExtensionRegistry.lift r instr;
                   b ← BlockIR.push X b ir;
                   pc ← add_u 64 pc (di_size instr);
                   mret (ir, b, pc)) with
            | Panic => Some Panic
            | Ok (ir, b, pc) =>
                if Terminator.is_control_flow (terminator ir) && is_last_range then Some (Ok b)
                else lift_range fuel is_last_range pc range_end b
            end
        end
      else Some (Ok b)
  end.

Fixpoint lift_ranges (ranges : list range) (b : BlockIR) : run BlockIR :=
  match ranges with
  | [] => Some (Ok b)
  | (range_start, range_end) :: rest =>
      match lift_range (S (Z.to_nat (range_end - range_start))) (bool_decide (rest = [])) range_start range_end b with
      | Some (Ok b) => lift_ranges rest b
      | x => x
      end
  end.

(** A block that does not end in a jump falls through to the end of its last range. *)
Definition finish_block (ranges : list range) (b : BlockIR) : BlockIR :=
  match last (instructions b) with
  | Some i =>
      if Terminator.is_control_flow (terminator i) then b
      else
        let final_pc := match last ranges with Some (_, e) => e | None => end_pc b end in
        mkBlockIR (start_pc b) (end_pc b)
          (removelast (instructions b) ++
           [mkInstrIR (ir_pc i) (ir_size i) (ir_op i) (ir_raw i) (statements i)
              (Fall (Some (from_u64 X final_pc))) (source_loc i)])
  | None => b
  end.

Definition lift_block_with_continuations (start end_ : Z) (continuations : option (list range))
    : run (option BlockIR) :=
  let ranges := (start, end_) :: default [] continuations in
  match lift_ranges ranges (BlockIR.new (from_u64 X start)) with
  | Some (Ok b) =>
      let b := finish_block ranges b in
      Some (Ok (if BlockIR.is_empty b then None else Some b))
  | Some Panic => Some Panic
  | None => None
  end.

Fixpoint lift_all (conts : Z -> option (list range)) (l : list BasicBlock) (m : gmap Z BlockIR)
    : run (gmap Z BlockIR) :=
  match l with
  | [] => Some (Ok m)
  | b :: l' =>
      match lift_block_with_continuations (b_start b) (b_end b) (conts (b_start b)) with
      | Some (Ok (Some ir)) => lift_all conts l' (<[b_start b := ir]> m)
      | Some (Ok None) => lift_all conts l' m
      | Some Panic => Some Panic
      | None => None
      end
  end.
End lift_blocks.

Definition lift_to_ir (p : Pipeline) : stage Pipeline :=
  match block_table p with
  | None => Some (Error (CfgNotBuilt "lift_to_ir"))
  | Some bt =>
      let conts start :=
        match backend (config p) with BC => block_continuations bt !! start | _ => None end in
      then_ (of_run (lift_all (registry p) (instruction_table bt) conts (blocks bt) (ir_blocks p))) (fun m =>
        Some (Value (mkPipeline (image p) (config p) (block_table p) (pl_instruction_table p) m (ir_instructions p)
                       (registry p) (extra_entry_points p))))
  end.

(** [valid_instructions().map(|(_, i)| registry.lift(i))] *)
Fixpoint lift_each (r : ExtensionRegistry) (l : list DecodedInstr) : result (list InstrIR) :=
  match l with
  | [] => Ok []
  | i :: l' => ir ← ExtensionRegistry.lift r i; rest ← lift_each r l'; mret (ir :: rest)
  end.

Definition lift_to_ir_linear (p : Pipeline) : stage Pipeline :=
  match pl_instruction_table p with
  | None => Some (Error (CfgNotBuilt "lift_to_ir_linear"))
  | Some t =>
      Some (
        l ← lift (lift_each (registry p) (map snd (InstructionTable.valid_instructions t)));
        mret (mkPipeline (image p) (config p) (block_table p) (pl_instruction_table p) (ir_blocks p) l
                (registry p) (extra_entry_points p)))
  end.

Fixpoint single_blocks (l : list InstrIR) (m : gmap Z BlockIR) : result (gmap Z BlockIR) :=
  match l with
  | [] => Ok m
  | i :: l' =>
      e ← add_u 64 (to_u64 X (ir_pc i)) (ir_size i);
      single_blocks l' (<[to_u64 X (ir_pc i) := mkBlockIR (ir_pc i) (from_u64 X e) [i]]> m)
  end.

Definition lift_to_ir_as_single_blocks (p : Pipeline) : stage Pipeline :=
  match block_table p with
  | None => Some (Error (CfgNotBuilt "lift_to_ir_as_single_blocks"))
  | Some bt =>
      Some (
        l ← lift (lift_each (registry p) (map snd (InstructionTable.valid_instructions (instruction_table bt))));
        m ← lift (single_blocks l ∅);
        mret (mkPipeline (image p) (config p) (block_table p) (pl_instruction_table p) m (ir_instructions p)
                (registry p) (extra_entry_points p)))
  end.

(** ** The inputs of the emitters *)

(** The inputs that [emit_c] derives. *)
Definition c_inputs (p : Pipeline) : outcome PipelineError EmitInputs :=
  match block_table p with
  | None => Error (CfgNotBuilt "emit_c")
  | Some bt =>
      let entry := to_u64 X (entry_point (image p)) in
      let bs := map snd (map_to_list (ir_blocks p)) in
      let i := EmitInputs.with_initial_brk
                 (EmitInputs.with_text_start
                    (EmitInputs.new entry (default 0 (max_of (map (fun b => to_u64 X (end_pc b)) bs))))
                    (default entry (min_of (map (fun b => to_u64 X (start_pc b)) bs))))
                 (to_u64 X (ElfImage.get_initial_program_break (image p))) in
      Value (mkInputs (in_entry_point i) (text_start i) (pc_end i) (dom (ir_blocks p)) (absorbed_to_merged bt)
               (initial_brk i))
  end.

(** [ir.pc + ir.size] of each instruction, with checked addition. *)
Fixpoint instruction_ends (l : list InstrIR) : result (list Z) :=
  match l with
  | [] => Ok []
  | i :: l' => e ← add_u 64 (to_u64 X (ir_pc i)) (ir_size i); r ← instruction_ends l'; mret (e :: r)
  end.

Definition instruction_range (p : Pipeline) (entry : Z) : result (Z * Z) :=
  match ir_instructions p with
  | [] => Ok (entry, 0)
  | l =>
      ends ← instruction_ends l;
      mret (default entry (min_of (map (fun i => to_u64 X (ir_pc i)) l)), default 0 (max_of ends))
  end.

(** The inputs that [emit_x86] and [emit_arm64] derive. *)
Definition asm_inputs (p : Pipeline) (step : string) : outcome PipelineError EmitInputs :=
  match ir_instructions p with
  | [] => Error (CfgNotBuilt step)
  | l =>
      let entry := to_u64 X (entry_point (image p)) in
      range ← lift (instruction_range p entry);
      let i := EmitInputs.with_initial_brk (EmitInputs.with_text_start (EmitInputs.new entry range.2) range.1)
                 (to_u64 X (ElfImage.get_initial_program_break (image p))) in
      mret (mkInputs (in_entry_point i) (text_start i) (pc_end i)
              (list_to_set (map (fun i => to_u64 X (ir_pc i)) l)) (in_absorbed_to_merged i) (initial_brk i))
  end.

(** [stats]: lifted blocks, basic blocks, absorbed blocks. *)
Definition stats (p : Pipeline) : nat * nat * nat :=
  (size (ir_blocks p), from_option BlockTable.len 0%nat (block_table p),
   from_option (fun bt => size (absorbed_to_merged bt)) 0%nat (block_table p)).
End xlen.
End Pipeline.
