(* ===== verification/BlockExec.v ===== *)
(** * Running the code of a block

    What the code emitted for a block does ([render_block] and
    [render_instruction_impl] of [crates/rvr-emit/src/c/emitter]), in terms of the
    IR, and that it is a run of the machine. *)

From stdpp Require Import sorting.
From S2P Require Import Prelude Xlen IR IRBuild IRSem IRFacts Isa Ext Syscalls Registry InstrTable RiscvSpec LiftFacts.
From S2P Require Import Base MExt AExt ZicsrExt ZifenceiExt ZbaExt ZbbExt ZbsExt ZbkbExt ZicondExt CExt.
From S2P Require Import BaseSpec MCorrect ACorrect ZicsrCorrect ZicondCorrect ZbaCorrect ZbbCorrect TableDecode.
From S2P Require Import ZbsCorrect ZbkbCorrect CSpec CLift BaseLift Promise RegistryCorrect ExecFacts TableFacts.
#[local] Open Scope word_scope.

(** ** Facts on the instruction set *)

Definition keeps_exited (f : state -> state * next) : Prop := forall st, s_exited (f st).1 = s_exited st.

Ltac keep_exited :=
  intros; intros st;
  first [ reflexivity
        | cbn; unfold set_reg, set_csr, store; repeat case_match; reflexivity ].

Lemma standard_keeps_exited :
  Forall (fun e => forall X raw pc size, keeps_exited (i_sem e X raw pc size)) isa_standard.
Proof.
  unfold isa_standard, standard_tables. cbn [concat app isa_I isa_M isa_A isa_Zicsr isa_Zifencei isa_Zba
    isa_Zbb isa_Zbs isa_Zbkb isa_Zicond].
  repeat apply List.Forall_cons; [..|apply List.Forall_nil]; keep_exited.
Qed.

Lemma compressed_keeps_exited :
  Forall (fun e => forall X raw pc size, keeps_exited (c_sem e X raw pc size)) isa_C.
Proof. unfold isa_C. repeat apply List.Forall_cons; [..|apply List.Forall_nil]; keep_exited. Qed.

(** No instruction of the manual sets the exit flag. *)
Lemma isa_effect_keeps_exited X bytes pc f : isa_effect X bytes pc = Some f -> keeps_exited f.
Proof.
  unfold isa_effect. destruct (_ <? _)%nat; [done|]. destruct (negb _).
  - unfold effect16. destruct (lookup_c X _) as [e|] eqn:E; [|by intros [= <-]].
    destruct (_ || _); [done|]. intros [= <-]. apply lookup_c_Some in E as (He & _).
    pose proof compressed_keeps_exited as H. rewrite List.Forall_forall in H. by apply H.
  - destruct (_ <=? _)%nat; [|done]. destruct (lookup_isa _ _ _) as [e|] eqn:E; [|done]. cbn.
    unfold effect32. destruct (departs _ _); [done|]. destruct (OpId.eqb _ _); intros [= <-]; [done|].
    apply lookup_isa_Some in E as (He & _).
    pose proof standard_keeps_exited as H. rewrite List.Forall_forall in H. by apply H.
Qed.

(** ** Falling through

    An instruction that is lifted to a fall through goes to the next one. *)

(** The instructions with a control transfer of their own. *)
Definition transfers (o : OpId) : bool :=
  existsb (OpId.eqb o) [OP_MRET; OP_ECALL; OP_EBREAK; OP_JAL; OP_JALR; OP_BEQ; OP_BNE; OP_BLT; OP_BGE; OP_BLTU; OP_BGEU].
Definition c_transfers (o : OpId) : bool :=
  existsb (OpId.eqb o) [OP_C_EBREAK; OP_C_J; OP_C_JAL; OP_C_JR; OP_C_JALR; OP_C_BEQZ; OP_C_BNEZ].

Definition goes_on (X : Xlen) (pc size : Z) (f : state -> state * next) : Prop :=
  forall st, (f st).2 = next_seq X pc size \/ (f st).2 = NTrap.

Lemma standard_goes_on :
  Forall (fun e => transfers (i_opid e) = true \/ forall X raw pc size, goes_on X pc size (i_sem e X raw pc size))
    isa_standard.
Proof.
  unfold isa_standard, standard_tables. cbn [concat app isa_I isa_M isa_A isa_Zicsr isa_Zifencei isa_Zba
    isa_Zbb isa_Zbs isa_Zbkb isa_Zicond].
  repeat apply List.Forall_cons; [..|apply List.Forall_nil];
    first [ left; reflexivity | right; intros X raw pc size st; left; reflexivity
          | right; intros X raw pc size st; right; reflexivity ].
Qed.

Lemma compressed_goes_on :
  Forall (fun e => c_transfers (c_opid e) = true \/ forall X raw pc size, goes_on X pc size (c_sem e X raw pc size))
    isa_C.
Proof.
  unfold isa_C. repeat apply List.Forall_cons; [..|apply List.Forall_nil];
    first [ left; reflexivity | right; intros X raw pc size st; left; reflexivity
          | right; intros X raw pc size st; right; reflexivity ].
Qed.

(** The terminator of code that is put together with binds. *)
Ltac unwrap_lift :=
  intros Hlift; unfold lift_branch in Hlift; cbn -[VALUE] in Hlift;
  unfold mret, result_ret, mbind, result_bind in Hlift;
  repeat (case_match; simplify_eq); simplify_eq; reflexivity.

Lemma standard_transfers :
  Forall (fun e => transfers (i_opid e) = true -> i_opid e <> OP_MRET -> forall X raw pc ir,
    ExtensionRegistry.lift (ExtensionRegistry.standard X) (decoded_of pc raw e) = Ok ir ->
    Terminator.is_control_flow (terminator ir) = true) isa_standard.
Proof.
  unfold isa_standard, standard_tables. cbn [concat app isa_I isa_M isa_A isa_Zicsr isa_Zifencei isa_Zba
    isa_Zbb isa_Zbs isa_Zbkb isa_Zicond].
  repeat apply List.Forall_cons; [..|apply List.Forall_nil];
    first [ discriminate 1 | intros _ []; reflexivity | intros _ _ X raw pc ir];
    try (rewrite lift_no_override by done; cbn -[VALUE]);
    try (unfold ExtensionRegistry.lift, ExtensionRegistry.lift_without_override; cbn -[VALUE]);
    unwrap_lift.
Qed.

Lemma compressed_transfers :
  Forall (fun e => c_transfers (c_opid e) = true -> forall X raw pc ir,
    lift_with (mkDecoded (c_opid e) pc 2 raw (c_args e raw)) (lift_c X (c_args e raw) (c_opid e) pc 2) = Ok ir ->
    Terminator.is_control_flow (terminator ir) = true) isa_C.
Proof.
  unfold isa_C. repeat apply List.Forall_cons; [..|apply List.Forall_nil];
    first [ discriminate 1 | intros _ X raw pc ir; cbn -[VALUE]; unwrap_lift ].
Qed.

Lemma refines_fall X ir f pc size o :
  instr_refines X (Ok ir) f -> goes_on X pc size f -> ir_pc ir = pc -> ir_size ir = size ->
  terminator ir = Fall o -> default (wrap (VALUE X) (pc + size)) o = wrap (VALUE X) (pc + size).
Proof.
  intros (? & [= <-] & _ & _ & Hx) Hg <- <- Ht.
  destruct (Hx (fun _ => 0) (fun _ _ _ => None) zero_state (zero_state_wf X) eq_refl) as (st' & He & _).
  unfold exec_instr in He. destruct (exec_stmts _ _ _ _ _) as [st1|]; [|done]. cbn [mbind option_bind] in He.
  destruct (Hg zero_state) as [Hn|Hn]; rewrite Hn in He; destruct (_ && _); try done; rewrite Ht in He; cbn in He;
    by injection He.
Qed.

(** The address and the size of the lifted code are those of the instruction. *)
Definition lifts_in_place (e : InstructionExtension) : Prop :=
  forall i, exists r, Ext.lift e i = lift_with i r.

Lemma standard_in_place X : Forall lifts_in_place (extensions (ExtensionRegistry.standard X)).
Proof.
  rewrite standard_extensions. change (standard_chain X) with
    [Base.BaseExtension X; MExtension X; AExtension X; ZicsrExtension X; ZifenceiExtension X;
     ZbaExtension X; ZbbExtension X; ZbsExtension X; ZbkbExtension X; ZicondExtension X].
  repeat apply List.Forall_cons; [..|apply List.Forall_nil]; intros i; eexists; reflexivity.
Qed.

Lemma lift_from_in_place es i ir :
  Forall lifts_in_place es -> ExtensionRegistry.lift_from es i = Ok ir ->
  ir_pc ir = di_pc i /\ ir_size ir = di_size i.
Proof.
  induction 1 as [|e es He _ IH]; cbn [ExtensionRegistry.lift_from]; [by intros [= <-]|].
  destruct (_ =? _); [|done]. destruct (He i) as [[[ss t]|] ->]; [|done]. by intros [= <-].
Qed.

Lemma standard_lift_at X i ir :
  ExtensionRegistry.lift (ExtensionRegistry.standard X) i = Ok ir -> ir_pc ir = di_pc i /\ ir_size ir = di_size i.
Proof.
  destruct (OpId.eqb (opid i) OP_ECALL) eqn:E.
  - unfold ExtensionRegistry.lift, ExtensionRegistry.lift_without_override.
    change (overrides (ExtensionRegistry.standard X)) with (∅ : gmap OpId InstructionOverride).
    rewrite lookup_empty, E. by intros [= <-].
  - rewrite lift_no_override by done. apply lift_from_in_place, standard_in_place.
Qed.

(** The manual's effect of an instruction and the code it is lifted to. *)
Lemma lifted_at X bytes pc i f :
  Forall (in_u 8) bytes -> not_reserved X bytes = true -> pc_ok X pc -> isa_effect X bytes pc = Some f ->
  ExtensionRegistry.decode (ExtensionRegistry.standard X) bytes pc = Some i ->
  exists ir, ExtensionRegistry.lift (ExtensionRegistry.standard X) i = Ok ir /\ instr_refines X (Ok ir) f /\
    ir_pc ir = pc /\ ir_size ir = di_size i.
Proof.
  intros Hb Hr Hpc Hf Hd. destruct (standard_step_spec X bytes pc f Hb Hr Hpc Hf) as (j & Hj & Hp & Hl).
  simplify_eq. pose proof Hl as (ir & E & _). exists ir. rewrite E in Hl.
  apply standard_lift_at in E as H. destruct H. split_and!; done.
Qed.

Lemma fall_next X bytes pc i f ir o :
  Forall (in_u 8) bytes -> not_reserved X bytes = true -> pc_ok X pc -> isa_effect X bytes pc = Some f ->
  ExtensionRegistry.decode (ExtensionRegistry.standard X) bytes pc = Some i ->
  ExtensionRegistry.lift (ExtensionRegistry.standard X) i = Ok ir -> terminator ir = Fall o ->
  default (wrap (VALUE X) (pc + di_size i)) o = wrap (VALUE X) (pc + di_size i).
Proof.
  intros Hb Hr Hpc Hf Hd Hl Ht.
  destruct (lifted_at X bytes pc i f Hb Hr Hpc Hf Hd) as (ir' & E & Href & Hp & Hs).
  assert (ir' = ir) as -> by congruence.
  assert (Terminator.is_control_flow (terminator ir) = false) as Hcf by by rewrite Ht.
  eapply (refines_fall X ir f pc (di_size i) o Href); [|exact Hp | exact Hs | exact Ht].
  rewrite standard_decode_spec in Hd by done. unfold isa_decode, isa_effect in *.
  destruct (_ <? _)%nat; [done|]. destruct (negb _).
  - injection Hd as <-. unfold c_decoded, effect16 in *. destruct (lookup_c X _) as [e|] eqn:Ee.
    + apply lookup_c_Some in Ee as (He & _ & _). destruct (_ || _); simplify_eq. cbn [di_size].
      pose proof compressed_goes_on as Hg. rewrite List.Forall_forall in Hg.
      destruct (Hg e He) as [Htr|Hn]; [|apply Hn].
      rewrite standard_lift16 in E by by apply isa_C_ext.
      pose proof compressed_transfers as Hc. rewrite List.Forall_forall in Hc.
      specialize (Hc e He Htr _ _ _ _ E). congruence.
    + simplify_eq. right. done.
  - destruct (_ <=? _)%nat; [|done]. unfold table_decode in Hd.
    destruct (lookup_isa _ _ _) as [e|] eqn:Ee; [|done]. cbn in Hd, Hf. simplify_eq. cbn [decoded_of di_size].
    apply lookup_isa_Some in Ee as (He & _). unfold effect32 in Hf.
    destruct (departs _ e) eqn:Hdep; [done|]. apply orb_false_iff in Hdep as [Hm _].
    pose proof standard_transfers as Hc. rewrite List.Forall_forall in Hc.
    assert (transfers (i_opid e) = true -> False) as Hno.
    { intros Htr. specialize (Hc e He Htr). rewrite (Hc) with (2 := E) in Hcf; [done|].
      intros Eo. rewrite Eo in Hm. done. }
    destruct (OpId.eqb (i_opid e) OP_ECALL) eqn:Hec.
    + exfalso. apply Hno. unfold transfers. cbn [existsb]. rewrite Hec. by destruct (OpId.eqb _ _).
    + simplify_eq. pose proof standard_goes_on as Hg. rewrite List.Forall_forall in Hg.
      destruct (Hg e He) as [Htr|Hn]; [by apply Hno in Htr | apply Hn].
Qed.

(** ** The machine

    The program in memory, run by the manual.  The scratch temporaries are not part
    of the machine: a step may leave anything in them. *)

Section blocks.
Context (X : Xlen) (code : list Z) (base : Z).

Definition effect_at (pc : Z) : option (state -> state * next) :=
  let bytes := drop (Z.to_nat (pc - base)) code in
  if not_reserved X bytes then isa_effect X bytes pc else None.

(** [machine_run n pc st st' k]: [n] instructions from [pc] on; after the last one
    control goes to [k]. *)
Inductive machine_run : nat -> Z -> state -> state -> next -> Prop :=
| run_one pc st f st' :
    effect_at pc = Some f -> arch st' = arch (f st).1 -> machine_run 1 pc st st' (f st).2
| run_step n pc st f st1 pc1 st' k :
    effect_at pc = Some f -> (f st).2 = NPc pc1 -> arch st1 = arch (f st).1 ->
    machine_run n pc1 st1 st' k -> machine_run (S n) pc st st' k.

(** The run of [n] instructions, computed. *)
Fixpoint machine_iter (n : nat) (pc : Z) (st : state) : option (state * next) :=
  match n with
  | O => None
  | S n =>
      f ← effect_at pc;
      match n, (f st).2 with
      | S _, NPc pc' => machine_iter n pc' (f st).1
      | S _, _ => None
      | O, k => Some ((f st).1, k)
      end
  end.

Lemma machine_iter_run n : forall pc st st' k,
  machine_iter n pc st = Some (st', k) -> machine_run n pc st st' k.
Proof.
  induction n as [|n IH]; intros pc st st' k; cbn [machine_iter]; [done|].
  destruct (effect_at pc) as [f|] eqn:Hf; [|done]. cbn [mbind option_bind].
  destruct n as [|n]; [intros [= <- <-]; by apply run_one|].
  destruct (f st).2 as [pc'| |] eqn:Hn; [|done..]. intros H%IH. by eapply run_step.
Qed.

(** ** The code of a block

    The code of an instruction that is not the last of its block is its statements,
    the test of the exit flag and, for a branch, the jump out of the block if it is
    taken; then comes the code of the next instruction, whatever the terminator.
    Only the terminator of the last instruction is rendered in full. *)

Context (vars : string -> Z) (extern : string -> list Z -> state -> option (Z * state)).

Definition exec_inner (st : state) (i : InstrIR) : option (state * option next) :=
  st' ← exec_stmts vars extern X st (statements i);
  if statements_write_exit (statements i) && negb (s_exited st' =? 0)
  then Some (st', Some (NExit (s_exit_code st')))
  else match terminator i with
       | Branch cond target _ _ =>
           b ← eval vars X st' cond; Some (st', if b =? 0 then None else Some (NPc target))
       | _ => Some (st', None)
       end.

Fixpoint exec_block (st : state) (l : list InstrIR) : option (state * next) :=
  match l with
  | [] => None
  | [i] => exec_instr vars extern X st i
  | i :: l' =>
      '(st', o) ← exec_inner st i;
      match o with Some n => Some (st', n) | None => exec_block st' l' end
  end.

(** What makes it right to continue at [pc] after [i], and with [j]. *)
Definition continues_to (i : InstrIR) (pc : Z) : Prop :=
  let next := wrap (VALUE X) (ir_pc i + ir_size i) in
  match terminator i with
  | Fall o => default next o = pc
  | Jump a => a = pc
  | Branch _ _ o _ => default next o = pc
  | _ => False
  end.
Definition continues (i j : InstrIR) : Prop := continues_to i (ir_pc j).

(** The code of an instruction of the program. *)
Definition realises (i : InstrIR) : Prop :=
  exists f, effect_at (ir_pc i) = Some f /\ instr_refines X (Ok i) f.

Lemma inner_step st i j st' n :
  exec_instr vars extern X st i = Some (st', n) -> continues i j ->
  exec_inner st i = Some (st', None) /\ n = NPc (ir_pc j) \/ exec_inner st i = Some (st', Some n).
Proof.
  unfold exec_instr, exec_inner, continues, continues_to. destruct (exec_stmts _ _ _ _ _) as [st1|]; [|done].
  cbn [mbind option_bind]. destruct (_ && _); [intros [= <- <-]; by right|].
  destruct (terminator i) as [o|a|a rs|c a o h|c|m]; cbn [exec_term mbind option_bind]; try done.
  - intros [= <- <-] <-. by left.
  - intros [= <- <-] <-. by left.
  - destruct (eval vars X st1 c) as [b|]; [|done]. cbn. intros [= <- <-] <-.
    destruct (b =? 0); [by left | by right].
Qed.

Hypothesis (Hext : extern_ok extern X).

(** Running the code of a block is a run of the machine. *)
Lemma exec_block_run l i st :
  Forall realises (i :: l) -> Sorted continues (i :: l) -> wf_state X st -> s_exited st = 0 ->
  exists st' k n, exec_block st (i :: l) = Some (st', k) /\ machine_run n (ir_pc i) st st' k /\
    (n <= S (length l))%nat /\ wf_state X st' /\ next_ok X k.
Proof.
  revert i st. induction l as [|j l IH]; intros i st Hall Hs Hst He;
    apply Forall_cons in Hall as [(f & Hf & ? & [= <-] & Hw & Ht & Hx) Hall];
    destruct (Hx vars extern st Hst He) as (st1 & E & Ha);
    destruct (exec_instr_wf vars extern X Hext i st st1 (f st).2 Hst Hw Ht E) as [Hst1 Hn].
  - exists st1, (f st).2, 1%nat. cbn [exec_block length]. split_and!; [done | by apply run_one | lia | done..].
  - apply Sorted_inv in Hs as [Hs Hij]. apply HdRel_inv in Hij.
    change (exec_block st (i :: j :: l)) with
      ('(st', o) ← exec_inner st i; match o with Some n => Some (st', n) | None => exec_block st' (j :: l) end).
    destruct (inner_step st i j st1 (f st).2 E Hij) as [[-> Hk] | ->]; cbn [mbind option_bind].
    + assert (s_exited st1 = 0) as He1.
      { assert (s_exited st1 = s_exited (f st).1) as -> by (change (s_exited (arch st1) = s_exited (arch (f st).1)); congruence).
        unfold effect_at in Hf. destruct (not_reserved _ _); [|done]. by rewrite (isa_effect_keeps_exited _ _ _ _ Hf). }
      destruct (IH j st1 Hall Hs Hst1 He1) as (st' & k & n & Hb & Hr & Hle & ?).
      exists st', k, (S n). cbn [length]. split_and!; [done | by eapply run_step | lia | naive_solver..].
    + exists st1, (f st).2, 1%nat. cbn [length]. split_and!; [done | by apply run_one | lia | done..].
Qed.
End blocks.
