(* ===== verification/LiftBlocks.v ===== *)
(** * Lifting blocks

    The code that the pipeline lifts for a block and the ranges that continue it. *)

From stdpp Require Import sorting.
From S2P Require Import Prelude Xlen IR IRBuild IRSem IRFacts Isa Ext Registry InstrTable LiftFacts BaseLift Promise.
From S2P Require Import RegistryCorrect ExecFacts TableFacts CfgData CfgScan CfgFlow ScanFacts BlockTable BlockFacts.
From S2P Require Import MergeFacts Elf Pipeline BlockExec.
#[local] Open Scope word_scope.

(** ** Replacing the last terminator *)

(** [finish_block] makes the fall through of the last instruction explicit. *)
Definition with_terminator (i : InstrIR) (t : Terminator) : InstrIR :=
  mkInstrIR (ir_pc i) (ir_size i) (ir_op i) (ir_raw i) (statements i) t (source_loc i).

Lemma refines_with_fall X i f o a :
  instr_refines X (Ok i) f -> terminator i = Fall o ->
  default (wrap (VALUE X) (ir_pc i + ir_size i)) o = a -> in_reg X a ->
  instr_refines X (Ok (with_terminator i (Fall (Some a)))) f.
Proof.
  intros (? & [= <-] & Hs & _ & Hx) Ht Ha Hr. eexists. split; [done|].
  split_and!; [done | by apply in_ub_spec|]. intros vars extern st Hst He.
  destruct (Hx vars extern st Hst He) as (st' & E & Hst'). exists st'. split; [|done]. rewrite <- E.
  unfold exec_instr. cbn [statements terminator with_terminator ir_pc ir_size]. rewrite Ht.
  destruct (exec_stmts _ _ _ _ _); [|done]. cbn. by rewrite <- Ha.
Qed.

Lemma sorted_replace_last X l x y :
  Sorted (continues X) (l ++ [x]) -> ir_pc y = ir_pc x -> Sorted (continues X) (l ++ [y]).
Proof.
  intros Hs E. induction l as [|i l IH]; [by repeat constructor|].
  cbn [app] in *. apply Sorted_inv in Hs as [Hs Hi]. constructor; [auto|].
  destruct l as [|j l]; cbn [app] in *; apply HdRel_inv in Hi; constructor; [|done].
  unfold continues in *. by rewrite E.
Qed.

Section lifting.
Context (X : Xlen) (r : ExtensionRegistry) (t : InstructionTable).

(** ** The code of one range

    [lifted_range pc e l last]: the instructions from [pc] to [e] lift to [l], which
    ends with the code of [last]; only it can be a jump. *)
Inductive lifted_range : Z -> Z -> list InstrIR -> Z -> Prop :=
| lifted_last pc i ir :
    InstructionTable.get_at_pc t pc = Some i -> ExtensionRegistry.lift r i = Ok ir ->
    lifted_range pc (pc + di_size i) [ir] pc
| lifted_cons pc i ir e l last :
    InstructionTable.get_at_pc t pc = Some i -> ExtensionRegistry.lift r i = Ok ir ->
    Terminator.is_control_flow (terminator ir) = false -> lifted_range (pc + di_size i) e l last ->
    lifted_range pc e (ir :: l) last.

Hypothesis (Hok : table_ok t).
(** Lifting does not panic and keeps addresses. *)
Hypothesis (Hlift : forall pc i, InstructionTable.get_at_pc t pc = Some i ->
  exists ir, ExtensionRegistry.lift r i = Ok ir /\ ir_pc ir = pc /\ ir_size ir = di_size i).

Lemma straight_lifted leaders pc n last e :
  straight t r leaders pc n last e -> exists l, lifted_range pc e l last /\ length l = n.
Proof.
  induction 1 as [pc i Hi|pc i n last e Hi Hne _ _ (l & Hl & Hn)]; destruct (Hlift _ _ Hi) as (ir & Hir & _).
  - exists [ir]. split; [by apply lifted_last | done].
  - exists (ir :: l). split; [|cbn; congruence]. eapply lifted_cons; [done..| |done].
    apply not_true_is_false. intros Hc. apply Hne. by exists i, ir.
Qed.

Lemma lifted_range_lt pc e l last : lifted_range pc e l last -> pc <= last < e /\ l <> [].
Proof. induction 1 as [pc i ir Hi|pc i ir e l last Hi _ _ _ IH]; apply (entry_facts t Hok) in Hi; (split; [lia | done]). Qed.

Lemma push_ok pc i ir b : InstructionTable.get_at_pc t pc = Some i -> ExtensionRegistry.lift r i = Ok ir ->
  BlockIR.push X b ir = Ok (mkBlockIR (start_pc b) (from_u64 X (pc + di_size i)) (instructions b ++ [ir])).
Proof.
  intros Hi Hir. destruct (Hlift _ _ Hi) as (ir' & Hir' & Hp & Hs).
  assert (ir' = ir) as -> by congruence.
  unfold BlockIR.push, InstrIR.next_pc, to_u64. by rewrite Hp, Hs, (next_pc_ok t Hok _ _ Hi).
Qed.

Lemma lift_range_spec il pc e l last : lifted_range pc e l last ->
  forall fuel b, (Z.to_nat (e - pc) < fuel)%nat ->
  Pipeline.lift_range X r t fuel il pc e b
  = Some (Ok (mkBlockIR (start_pc b) (from_u64 X e) (instructions b ++ l))).
Proof.
  induction 1 as [pc i ir Hi Hir|pc i ir e l last Hi Hir Hc Hl IH]; intros fuel b Hf;
    destruct (entry_facts t Hok _ _ Hi) as (_ & Hsz & _); (destruct fuel as [|fuel]; [lia|]);
    cbn [Pipeline.lift_range].
  - rewrite (proj2 (Z.ltb_lt pc _)), Hi, Hir by lia. cbn [mbind result_bind].
    rewrite (push_ok pc i ir b Hi Hir). cbn [mbind result_bind]. rewrite (next_pc_ok t Hok _ _ Hi).
    cbn [mbind result_bind mret result_ret]. destruct (_ && _); [done|]. destruct fuel as [|fuel]; [lia|].
    cbn [Pipeline.lift_range]. by rewrite Z.ltb_irrefl.
  - destruct (lifted_range_lt _ _ _ _ Hl) as [Hlt _].
    rewrite (proj2 (Z.ltb_lt pc e)), Hi, Hir by lia. cbn [mbind result_bind].
    rewrite (push_ok pc i ir b Hi Hir). cbn [mbind result_bind]. rewrite (next_pc_ok t Hok _ _ Hi).
    cbn [mbind result_bind mret result_ret]. rewrite Hc. cbn [andb]. rewrite IH by lia.
    cbn [start_pc instructions]. by rewrite <- app_assoc.
Qed.

(** ** The ranges of a block *)

Definition lifted_ranges (ranges : list range) (ls : list (list InstrIR)) (lasts : list Z) : Prop :=
  length ranges = length ls /\ length ranges = length lasts /\
  forall k p l z, ranges !! k = Some p -> ls !! k = Some l -> lasts !! k = Some z -> lifted_range p.1 p.2 l z.

Lemma lift_ranges_spec ranges : forall ls lasts b, lifted_ranges ranges ls lasts ->
  exists e, Pipeline.lift_ranges X r t ranges b
    = Some (Ok (mkBlockIR (start_pc b) e (instructions b ++ concat ls))).
Proof.
  induction ranges as [|[s e] ranges IH]; intros [|l ls] [|z lasts] b (H1 & H2 & H); try done; cbn [Pipeline.lift_ranges].
  - exists (end_pc b). cbn. rewrite app_nil_r. by destruct b.
  - rewrite (lift_range_spec _ _ _ _ _ (H 0%nat _ _ _ eq_refl eq_refl eq_refl)) by (cbn; lia). cbn [fst snd].
    destruct (IH ls lasts (mkBlockIR (start_pc b) (from_u64 X e) (instructions b ++ l))) as [e' ->].
    { split; [by injection H1|]. split; [by injection H2|]. intros k. apply (H (S k)). }
    exists e'. cbn [start_pc instructions concat]. by rewrite <- app_assoc.
Qed.
End lifting.

(** ** The code realises the program *)

Section realising.
Context (X : Xlen) (code : list Z) (base : Z) (t : InstructionTable).
Hypothesis (Hcode : Forall (in_u 8) code) (Hbase : in_u 64 base).
Hypothesis (Ht : InstructionTable.from_bytes X (ExtensionRegistry.standard X) code base = Some (Ok t)).
Hypothesis (Hend : end_address t <= 2 ^ VALUE X).

(** The manual gives the instruction at [pc] an effect. *)
Definition has_effect (pc : Z) : Prop := pc_ok X pc /\ is_Some (effect_at X code base pc).

Lemma table_ok_built : table_ok t.
Proof. pose proof (standard_sized X). by eapply (from_bytes_ok X (ExtensionRegistry.standard X)). Qed.

Lemma entry_decodes pc i : InstructionTable.get_at_pc t pc = Some i ->
  ExtensionRegistry.decode (ExtensionRegistry.standard X) (drop (Z.to_nat (pc - base)) code) pc = Some i /\
  in_reg X pc.
Proof.
  intros Hi. destruct (entry_facts t table_ok_built _ _ Hi) as (_ & Hs & Hb & He).
  destruct (ok_wf _ table_ok_built) as (Hb' & _). unfold in_u in Hb'.
  assert (in_reg X pc) as Hr by (unfold in_u; lia). split; [|done].
  pose proof (standard_sized X) as Hsz.
  destruct (from_bytes_inv X (ExtensionRegistry.standard X) code base t Hbase Ht) as [He' E]. rewrite E in Hi.
  apply swept_get_pc in Hi as (o & -> & _ & Hd); [|done..]. rewrite from_u64_id in Hd by done.
  by replace (Z.to_nat _) with o by lia.
Qed.

Lemma lift_at pc i ir : InstructionTable.get_at_pc t pc = Some i ->
  ExtensionRegistry.lift (ExtensionRegistry.standard X) i = Ok ir -> ir_pc ir = pc /\ ir_size ir = di_size i.
Proof.
  intros [Hd _]%entry_decodes [Hp Hs]%standard_lift_at. split; [|done].
  destruct (registry_sized _ _ _ _ (standard_sized X) Hd) as (n & _ & _ & Hn). unfold decoded_at in Hn. naive_solver.
Qed.

Lemma effect_spec pc : has_effect pc -> exists f, effect_at X code base pc = Some f /\
  not_reserved X (drop (Z.to_nat (pc - base)) code) = true /\ pc_ok X pc /\
  isa_effect X (drop (Z.to_nat (pc - base)) code) pc = Some f.
Proof.
  intros [Hpc [f Hf]]. exists f. split; [done|]. unfold effect_at in Hf. by destruct (not_reserved _ _).
Qed.

(** The code of the instruction at [pc]. *)
Lemma entry_realises pc i ir :
  InstructionTable.get_at_pc t pc = Some i -> has_effect pc ->
  ExtensionRegistry.lift (ExtensionRegistry.standard X) i = Ok ir ->
  realises X code base ir /\ ir_pc ir = pc /\ ir_size ir = di_size i /\
  in_reg X (pc + di_size i) /\
  forall o, terminator ir = Fall o -> default (wrap (VALUE X) (pc + di_size i)) o = pc + di_size i.
Proof.
  intros Hi He Hir. destruct (entry_decodes pc i Hi) as [Hd Hr].
  destruct (effect_spec pc He) as (f & Hf & Hres & Hpc & Hisa).
  assert (Forall (in_u 8) (drop (Z.to_nat (pc - base)) code)) as Hb by by apply Forall_drop.
  destruct (lifted_at X _ pc i f Hb Hres Hpc Hisa Hd) as (ir' & E & Href & Hp & Hs).
  assert (ir' = ir) as -> by congruence.
  assert (in_reg X (pc + di_size i)) as Hn.
  { destruct (entry_facts t table_ok_built _ _ Hi) as (_ & Hsz & _). destruct Hpc as (? & ? & _). unfold in_u. lia. }
  split_and!; [by exists f; rewrite Hp | done..|].
  intros o Hto. rewrite (fall_next X _ pc i f ir o Hb Hres Hpc Hisa Hd Hir Hto). by apply wrap_id.
Qed.

Lemma range_realises pc e l last :
  lifted_range (ExtensionRegistry.standard X) t pc e l last -> Forall (fun ir => has_effect (ir_pc ir)) l ->
  Forall (realises X code base) l /\ Sorted (continues X) l /\ (exists i l', l = i :: l' /\ ir_pc i = pc) /\
  exists l' x, l = l' ++ [x] /\ ir_pc x = last /\ in_reg X e /\
    (forall o, terminator x = Fall o -> default (wrap (VALUE X) (ir_pc x + ir_size x)) o = e) /\
    exists i, InstructionTable.get_at_pc t last = Some i /\
      ExtensionRegistry.lift (ExtensionRegistry.standard X) i = Ok x.
Proof.
  intros Hl Hall. induction Hl as [pc i ir Hi Hir|pc i ir e l last Hi Hir Hc Hl IH].
  - apply Forall_cons in Hall as [He _]. rewrite (proj1 (lift_at _ _ _ Hi Hir)) in He.
    destruct (entry_realises pc i ir Hi He Hir) as (H1 & H2 & H3 & Hr & H4).
    split_and!; [by repeat constructor | by repeat constructor | by exists ir, [] |].
    exists [], ir. split_and!; [done..| |by exists i]. intros o. rewrite H2, H3. apply H4.
  - apply Forall_cons in Hall as [He Hall]. rewrite (proj1 (lift_at _ _ _ Hi Hir)) in He.
    destruct (entry_realises pc i ir Hi He Hir) as (H1 & H2 & H3 & _ & H4).
    destruct (IH Hall) as (H5 & H6 & (j & l' & -> & Hj) & l'' & x & E & Hx).
    split_and!; [by constructor | | by eexists ir, _ |].
    + constructor; [done|]. constructor. unfold continues, continues_to. destruct (terminator ir) as [o| | | | |]; try done.
      rewrite H2, H3, Hj. by apply H4.
    + exists (ir :: l''), x. rewrite E. done.
Qed.

(** ** Chains of blocks *)

(** Control goes, or can go, from the last instruction of [b] to [c]. *)
Definition flows_into (b c : BasicBlock) : Prop :=
  exists i ir, InstructionTable.get_at_pc t (last_pc b) = Some i /\
    ExtensionRegistry.lift (ExtensionRegistry.standard X) i = Ok ir /\ continues_to X ir (b_start c).

Lemma sorted_join l x y l' :
  Sorted (continues X) (l ++ [x]) -> continues X x y -> Sorted (continues X) (y :: l') ->
  Sorted (continues X) ((l ++ [x]) ++ y :: l').
Proof.
  intros Hl Hxy Hy. induction l as [|i l IH]; [by constructor; [|constructor]|].
  cbn [app] in *. apply Sorted_inv in Hl as [Hl Hi]. constructor; [auto|].
  destruct l; cbn [app] in *; apply HdRel_inv in Hi; by constructor.
Qed.

Lemma chain_realises chain : forall b ls,
  lifted_ranges (ExtensionRegistry.standard X) t (map BlockTable.block_range (b :: chain)) ls (map last_pc (b :: chain)) ->
  linked flows_into (b :: chain) -> Forall (fun ir => has_effect (ir_pc ir)) (concat ls) ->
  Forall (realises X code base) (concat ls) /\ Sorted (continues X) (concat ls) /\
  (exists i l', concat ls = i :: l' /\ ir_pc i = b_start b) /\
  exists l' x, concat ls = l' ++ [x] /\ in_reg X (b_end (chain_end b chain)) /\
    (forall o, terminator x = Fall o ->
       default (wrap (VALUE X) (ir_pc x + ir_size x)) o = b_end (chain_end b chain)).
Proof.
  induction chain as [|c chain IH]; intros b [|l ls] (H1 & H2 & H) Hlink Hall; try done.
  all: pose proof (H 0%nat _ _ _ eq_refl eq_refl eq_refl) as Hl; cbn [fst snd BlockTable.block_range] in Hl.
  all: cbn [concat] in *; apply Forall_app in Hall as [Ha1 Ha2].
  all: destruct (range_realises _ _ _ _ Hl Ha1) as (R1 & R2 & (i & l' & El & Hi) & l'' & x & El' & Hx & Hreg & Hf & Hget).
  - destruct ls; [|done]. cbn [concat]. rewrite app_nil_r. split_and!; [done | done | by exists i, l' |].
    exists l'', x. done.
  - destruct (IH c ls) as (C1 & C2 & (j & m & Em & Hj) & m' & y & Em' & Hy).
    { split; [by injection H1|]. split; [by rewrite !length_map|]. intros k. apply (H (S k)). }
    { by apply linked_cons in Hlink as [_ ?]. }
    { done. }
    split_and!.
    + by apply Forall_app.
    + rewrite El', Em. rewrite El' in R2. rewrite Em in C2. apply sorted_join; [done| |done].
      apply linked_cons in Hlink as [Hbc _]. destruct (Hbc c eq_refl) as (i1 & ir1 & G1 & G2 & G3).
      destruct Hget as (i2 & G4 & G5). assert (i1 = i2) as -> by congruence.
      assert (ir1 = x) as -> by congruence. unfold continues. by rewrite Hj.
    + exists i, (l' ++ concat ls). by rewrite El.
    + exists (l ++ m'), y. rewrite Em', <- app_assoc. done.
Qed.

(** ** Lifting a chain

    Lifting does not panic for any instruction of the table. *)
Hypothesis (Hlift : forall pc i, InstructionTable.get_at_pc t pc = Some i ->
  exists ir, ExtensionRegistry.lift (ExtensionRegistry.standard X) i = Ok ir).

Lemma lift_in_place pc i : InstructionTable.get_at_pc t pc = Some i ->
  exists ir, ExtensionRegistry.lift (ExtensionRegistry.standard X) i = Ok ir /\ ir_pc ir = pc /\ ir_size ir = di_size i.
Proof.
  intros Hi. destruct (Hlift pc i Hi) as [ir Hir]. exists ir. split; [done|].
  by apply lift_at.
Qed.

(** The code of a block and its chain runs as the machine does. *)
Definition runs_as_machine (pc : Z) (l : list InstrIR) : Prop :=
  forall vars extern st, extern_ok extern X -> wf_state X st -> s_exited st = 0 ->
  exists st' k n, exec_block X vars extern st l = Some (st', k) /\ machine_run X code base n pc st st' k /\
    (n <= length l)%nat /\ wf_state X st' /\ next_ok X k.

Lemma runs_of_chain l i l' pc :
  Forall (realises X code base) l -> Sorted (continues X) l -> l = i :: l' -> ir_pc i = pc -> runs_as_machine pc l.
Proof.
  intros Hall Hs -> <- vars extern st Hext Hst He.
  exact (exec_block_run X code base vars extern Hext l' i st Hall Hs Hst He).
Qed.

Lemma lifted_blocks leaders bs :
  Forall (fun b => straight t (ExtensionRegistry.standard X) leaders (b_start b) (instruction_count b) (last_pc b) (b_end b)) bs ->
  exists ls, lifted_ranges (ExtensionRegistry.standard X) t (map BlockTable.block_range bs) ls (map last_pc bs) /\
    length (concat ls) = sum_list (map instruction_count bs).
Proof.
  induction 1 as [|b bs Hb _ (ls & (H1 & H2 & H) & Hn)]; [by exists []|].
  destruct (straight_lifted _ t lift_in_place _ _ _ _ _ Hb) as (l & Hl & Hc).
  exists (l :: ls). split; [|cbn; rewrite length_app; lia]. split; [by cbn; rewrite H1|].
  split; [by cbn; rewrite !length_map|]. intros [|k] p l' z; cbn; [by intros [= <-] [= <-] [= <-] | apply H].
Qed.

Lemma last_range b chain : last (map BlockTable.block_range (b :: chain)) = Some (BlockTable.block_range (chain_end b chain)).
Proof. revert b. induction chain as [|c chain IH]; intros b; [done|]. exact (IH c). Qed.

(** The last instruction falls through to the end of the chain. *)
Lemma finished_runs chain b ls l' x o :
  lifted_ranges (ExtensionRegistry.standard X) t (map BlockTable.block_range (b :: chain)) ls (map last_pc (b :: chain)) ->
  linked flows_into (b :: chain) -> concat ls = l' ++ [x] -> terminator x = Fall o ->
  let y := with_terminator x (Fall (Some (from_u64 X (b_end (chain_end b chain))))) in
  Forall (fun ir => has_effect (ir_pc ir)) (l' ++ [y]) -> runs_as_machine (b_start b) (l' ++ [y]).
Proof.
  intros Hls Hlink El Ho y Hall.
  assert (Forall (fun ir => has_effect (ir_pc ir)) (concat ls)) as Hall'.
  { rewrite El. apply Forall_app in Hall as [H1 H2]. apply Forall_app. split; [done|].
    apply Forall_cons in H2 as [H2 _]. apply Forall_singleton. exact H2. }
  destruct (chain_realises chain b ls Hls Hlink Hall') as (R1 & R2 & (i & m & Ei & Hi) & l2 & x2 & E2 & Hreg & Hf).
  rewrite El in *. apply app_inj_tail in E2 as [<- <-]. specialize (Hf o Ho).
  apply Forall_app in R1 as [R1 (f & Hfx & Href)%Forall_singleton].
  assert (Forall (realises X code base) (l' ++ [y])) as R1'.
  { apply Forall_app. split; [done|]. apply Forall_singleton. exists f. split; [done|].
    unfold y. rewrite from_u64_id by done. by eapply refines_with_fall. }
  assert (exists i' m', l' ++ [y] = i' :: m' /\ ir_pc i' = b_start b) as (i' & m' & Ei' & Hi').
  { destruct l' as [|z l']; cbn [app] in *; injection Ei as -> _; eauto. }
  eapply runs_of_chain; [done| |done..]. by eapply sorted_replace_last.
Qed.

Lemma lift_chain leaders b chain conts :
  Forall (fun b => straight t (ExtensionRegistry.standard X) leaders (b_start b) (instruction_count b) (last_pc b) (b_end b))
    (b :: chain) ->
  linked flows_into (b :: chain) -> default [] conts = map BlockTable.block_range chain ->
  exists ir, Pipeline.lift_block_with_continuations X (ExtensionRegistry.standard X) t (b_start b) (b_end b) conts
    = Some (Ok (Some ir)) /\ start_pc ir = from_u64 X (b_start b) /\
    length (instructions ir) = sum_list (map instruction_count (b :: chain)) /\
    (Forall (fun j => has_effect (ir_pc j)) (instructions ir) -> runs_as_machine (b_start b) (instructions ir)).
Proof.
  intros Hst Hlink Hc. destruct (lifted_blocks leaders (b :: chain) Hst) as (ls & Hls & Hn).
  unfold Pipeline.lift_block_with_continuations. rewrite Hc.
  change ((b_start b, b_end b) :: map BlockTable.block_range chain) with (map BlockTable.block_range (b :: chain)).
  destruct (lift_ranges_spec X _ t table_ok_built lift_in_place _ ls _ (BlockIR.new (from_u64 X (b_start b))) Hls) as [e ->].
  unfold Pipeline.finish_block. rewrite last_range.
  cbn [instructions start_pc end_pc BlockTable.block_range BlockIR.new app].
  destruct (exists_last (l := concat ls)) as (l' & x & El).
  { intros E. rewrite E in Hn. apply Forall_cons in Hst as [(Hpos & _)%(straight_entry t _ _ table_ok_built) _].
    cbn in Hn. lia. }
  rewrite El in *. rewrite last_snoc, removelast_last.
  assert (Terminator.is_control_flow (terminator x) = true \/ exists o, terminator x = Fall o) as [Hcf | [o Ho]]
    by (destruct (terminator x); eauto).
  - rewrite Hcf. exists (mkBlockIR (from_u64 X (b_start b)) e (l' ++ [x])). split_and!; [|done..|].
    { unfold BlockIR.is_empty. cbn [instructions]. by destruct l'. }
    cbn [instructions]. rewrite <- El. intros Hall.
    destruct (chain_realises chain b ls Hls Hlink Hall) as (R1 & R2 & (i & m & Ei & Hi) & _). by eapply runs_of_chain.
  - rewrite Ho. cbn [Terminator.is_control_flow negb].
    fold (with_terminator x (Fall (Some (from_u64 X (b_end (chain_end b chain)))))).
    set (y := with_terminator x _).
    exists (mkBlockIR (from_u64 X (b_start b)) e (l' ++ [y])). split_and!; [|done| |].
    { unfold BlockIR.is_empty. cbn [instructions]. by destruct l'. }
    { cbn [instructions]. rewrite length_app in Hn |- *. exact Hn. }
    by eapply finished_runs.
Qed.
End realising.

(** ** All blocks *)

Lemma lift_all_spec X r t conts (P : BasicBlock -> BlockIR -> Prop) l : forall m,
  NoDup (map b_start l) ->
  (forall b, b ∈ l -> exists ir, Pipeline.lift_block_with_continuations X r t (b_start b) (b_end b) (conts (b_start b))
     = Some (Ok (Some ir)) /\ P b ir) ->
  exists m', Pipeline.lift_all X r t conts l m = Some (Ok m') /\
    dom m' = dom m ∪ list_to_set (map b_start l) /\
    (forall x, x ∉ map b_start l -> m' !! x = m !! x) /\
    (forall b, b ∈ l -> exists ir, m' !! b_start b = Some ir /\ P b ir).
Proof.
  induction l as [|b l IH]; intros m Hnd Hl; cbn [Pipeline.lift_all].
  { exists m. split_and!; [done | set_solver | done | set_solver]. }
  apply NoDup_cons in Hnd as [Hb Hnd]. destruct (Hl b) as (ir & -> & HP); [left|].
  destruct (IH (<[b_start b := ir]> m) Hnd) as (m' & -> & Hd & Hold & Hin); [intros; apply Hl; by right|].
  exists m'. split_and!; [done | rewrite Hd, dom_insert_L; set_solver | |].
  - cbn. intros x [Hx Hx']%not_elem_of_cons. rewrite Hold by done. by rewrite lookup_insert_ne.
  - intros c [->|Hc]%elem_of_cons; [|by apply Hin]. exists ir. split; [|done].
    rewrite Hold by done. by rewrite lookup_insert_eq.
Qed.

(** The blocks of the analysis. *)
Lemma analysed_blocks o X t registry bt :
  table_ok t -> (forall pc i, InstructionTable.get_at_pc t pc = Some i -> exists ir, ExtensionRegistry.lift registry i = Ok ir) ->
  BlockTable.from_instruction_table o X t registry = Some (Ok bt) ->
  instruction_table bt = t /\ absorbed_to_merged bt = ∅ /\ block_continuations bt = ∅ /\
  NoDup (map b_start (blocks bt)) /\ NoDup (map last_pc (blocks bt)) /\
  exists leaders, Forall (block_ok t registry leaders) (blocks bt).
Proof.
  intros Hok Hlift. unfold BlockTable.from_instruction_table.
  destruct (analyze t _ X) as [[a|]|]; [|done..]. unfold BlockTable.create_blocks_from_leaders.
  destruct (sort_spec (cf_leaders a)) as [Hs Hin].
  destruct (create_blocks_spec t registry (cf_leaders a) Hok Hlift (sort (elements (cf_leaders a))) Hs) as (bs & -> & _ & Hall & Hsort);
    [by intros x ?%Hin|].
  intros [= <-]. cbn [instruction_table absorbed_to_merged block_continuations blocks].
  destruct (blocks_distinct t registry (cf_leaders a) bs Hok Hall Hsort). by split_and!; eauto.
Qed.
