(* ===== verification/PipelineProps.v ===== *)
(** * Properties of the pipeline *)

From stdpp Require Import sorting.
From S2P Require Import Prelude Xlen IR IRBuild IRSem IRFacts Isa Ext Registry InstrTable LiftFacts BaseLift Promise.
From S2P Require Import RegistryCorrect ExecFacts TableFacts CfgData CfgScan CfgFlow ScanFacts BlockTable BlockFacts.
From S2P Require Import MergeFacts TailFacts Elf Pipeline BlockExec LiftBlocks BlockProps.
#[local] Open Scope word_scope.

Section program.
Context (X : Xlen) (code : list Z) (base : Z) (t : InstructionTable).

(** A program in memory, decoded; its instructions lift. *)
Definition program_ok : Prop :=
  Forall (in_u 8) code /\ in_u 64 base /\
  InstructionTable.from_bytes X (ExtensionRegistry.standard X) code base = Some (Ok t) /\
  end_address t <= 2 ^ VALUE X /\ lifts_ok (ExtensionRegistry.standard X) t = true.

(** The code of a block that starts at [pc]: if the manual gives all its
    instructions an effect, running it is a run of the program. *)
Definition block_realised (pc : Z) (ir : BlockIR) : Prop :=
  start_pc ir = from_u64 X pc /\
  (Forall (fun j => has_effect X code base (ir_pc j)) (instructions ir) ->
   runs_as_machine X code base pc (instructions ir)).

Lemma only_edge_flows bt b c :
  program_ok -> instruction_table bt = t -> only_edge (ExtensionRegistry.standard X) bt b c -> flows_into X t b c.
Proof.
  intros (Hc & Hb & Ht & He & _) Hbt [Hg _]. unfold goes_to, BlockTable.terminator_at in Hg. rewrite Hbt in Hg.
  destruct (InstructionTable.get_at_pc t (last_pc b)) as [i|] eqn:Hi; [|by destruct Hg].
  destruct (ExtensionRegistry.lift _ i) as [ir|] eqn:Hir; [|by destruct Hg].
  exists i, ir. split_and!; [done..|]. unfold continues_to.
  destruct Hg as [[= ->] | [= ->]]; done.
Qed.
End program.


(** ** The sample program *)

Definition tails_merged : BlockTable :=
  match BlockTable.merge_blocks rv64_registry tails_blocks with Some (Ok (_, bt)) => bt | _ => tails_blocks end.

Definition sample_config : EmitConfig := mkConfig BC FullCfg true 32 [].
Definition sample_image : ElfImage :=
  match ElfImage.from_bytecode Rv64 tails_code 0x80000000 with Ok i => i | Panic => mkImage 0 0 [] [] [] end.

(** A pipeline after [build_cfg]. *)
Definition with_blocks (bt : BlockTable) : Pipeline :=
  mkPipeline sample_image sample_config (Some bt) None ∅ [] rv64_registry [].
Definition lifted_of (bt : BlockTable) : Pipeline :=
  match Pipeline.lift_to_ir Rv64 (with_blocks bt) with Some (Value p) => p | _ => with_blocks bt end.
Definition tails_lifted : Pipeline := lifted_of tails_merged.

Lemma tails_program_ok : program_ok Rv64 tails_code 0x80000000 tails_table.
Proof.
  split_and!; [| | |vm_compute; congruence | vm_compute; reflexivity].
  - apply (bool_decide_unpack _). vm_compute. exact I.
  - split; vm_compute; congruence.
  - pose proof (standard_sized Rv64). apply from_bytes_sweep; [done | split; vm_compute; congruence..].
Defined.

Lemma tails_analysed :
  BlockTable.from_instruction_table list_order Rv64 tails_table (ExtensionRegistry.standard Rv64)
  = Some (Ok tails_blocks).
Proof.
  change (ExtensionRegistry.standard Rv64) with rv64_registry.
  assert (match BlockTable.from_instruction_table list_order Rv64 tails_table rv64_registry with
          | Some (Ok _) => true | _ => false end = true) as H by (vm_compute; reflexivity).
  unfold tails_blocks. by destruct (BlockTable.from_instruction_table _ _ _ _) as [[bt|]|].
Defined.

(** The manual gives the instruction at [pc] an effect, as a test. *)
Definition has_effectb (pc : Z) : bool :=
  match effect_at Rv64 tails_code 0x80000000 pc with Some _ => true | None => false end.

Lemma has_effectb_spec l :
  forallb (fun pc => has_effectb pc && (0 <=? pc) && (pc <? 2 ^ 62)) (map ir_pc l) = true ->
  Forall (fun j => has_effect Rv64 tails_code 0x80000000 (ir_pc j)) l.
Proof.
  intros H. apply Forall_forall. intros j Hj. rewrite forallb_forall in H.
  specialize (H (ir_pc j)). rewrite !andb_true_iff, Z.leb_le, Z.ltb_lt in H.
  destruct H as [[H1 H2] H3]; [apply in_map; by apply list_elem_of_In|]. split.
  - unfold pc_ok, to_signed. cbn. rewrite (proj2 (Z.ltb_lt _ _)) by lia. lia.
  - unfold has_effectb in H1. destruct (effect_at _ _ _ _); [by eexists | done].
Qed.


(** ** Tail duplication

    The emitted program: the block an address resolves to, then the block of the
    address it leaves to, [n] blocks in all. *)
Section emitted.
Context (X : Xlen) (p : Pipeline) (inputs : EmitInputs).
Context (vars : string -> Z) (extern : string -> list Z -> state -> option (Z * state)).

Fixpoint run_blocks (n : nat) (pc : Z) (st : state) : option (state * next) :=
  match n with
  | O => Some (st, NPc pc)
  | S n =>
      b ← ir_blocks p !! EmitInputs.resolve_address inputs pc;
      '(st', k) ← exec_block X vars extern st (instructions b);
      match k with NPc pc' => run_blocks n pc' st' | _ => Some (st', k) end
  end.
End emitted.

(** Two jumps to the same code; the second one is reached by two branches. *)
Definition twin_code : list Z :=
  [0x63; 0x06; 0x05; 0x00;   (* 00  beq  x10, x0, 0c *)
   0x63; 0x84; 0x05; 0x00;   (* 04  beq  x11, x0, 0c *)
   0x6F; 0x00; 0x80; 0x00;   (* 08  jal  x0, 10      *)
   0x6F; 0x00; 0x40; 0x00;   (* 0c  jal  x0, 10      *)
   0x93; 0x82; 0x12; 0x00;   (* 10  addi x5, x5, 1   *)
   0x6F; 0x00; 0x80; 0x00;   (* 14  jal  x0, 1c      *)
   0x6F; 0x00; 0xC0; 0x00;   (* 18  jal  x0, 24      *)
   0x13; 0x03; 0x13; 0x00;   (* 1c  addi x6, x6, 1   *)
   0x63; 0x90; 0x72; 0x00;   (* 20  bne  x5, x7, 20  *)
   0x6F; 0x00; 0x00; 0x00].  (* 24  jal  x0, 24      *)
Definition twin_table : InstructionTable := swept Rv64 rv64_registry twin_code 0x80000000.

(** The blocks of [build_cfg_for_c] with superblocks. *)
Definition twin_blocks : BlockTable :=
  match BlockTable.from_instruction_table list_order Rv64 twin_table rv64_registry with
  | Some (Ok bt) =>
      match BlockTable.optimize rv64_registry list_order bt with Some (Ok (_, bt)) => bt | _ => bt end
  | _ => BlockTable.empty twin_table
  end.
Definition twin_pipeline : Pipeline := lifted_of twin_blocks.
Definition twin_inputs : EmitInputs :=
  match Pipeline.c_inputs Rv64 twin_pipeline with Value i => i | _ => EmitInputs.new 0 0 end.

(** The registers [x5] and [x6], and where control goes. *)
Definition outcome_of (r : option (state * next)) : option (Z * Z * next) :=
  (fun '(st, k) => (get_reg st 5, get_reg st 6, k)) <$> r.

