(* ===== verification/ExtProps.v ===== *)
(** * Properties of the instruction extensions *)

From S2P Require Import Base BaseSpec BaseDecode BaseLift MExt MCorrect AExt ACorrect ZicsrExt.
From S2P Require Import ZicsrCorrect ZifenceiExt ZicondExt ZicondCorrect ZbaExt ZbaCorrect ZbbExt.
From S2P Require Import ZbbCorrect ZbsExt ZbsCorrect ZbkbExt ZbkbCorrect CExt CSpec CDecode CLift.
From S2P Require Import Prelude Xlen IR IRBuild IRSem IRFacts Isa Ext RiscvSpec Fields TableDecode.
From S2P Require Import LiftFacts Promise RegistryCorrect ExecFacts IRProps.
#[local] Open Scope word_scope.

Ltac extension_word decode_table lift_lemma :=
  apply word_correct_intro; [apply decode_table | intros; apply lift_with_refines, lift_lemma; done].



(** C8. The M extension: multiplication, high products, division and remainder,
    with division by zero and overflow as the manual defines them. *)
Theorem m_extension_correct X raw pc : word_correct X (MExtension X) isa_M raw pc.
Proof. extension_word decode32_m_table lift_m_refines. Qed.

(** C9. The A extension: load-reserved, store-conditional and the
    read-modify-write operations on words and doublewords. *)
Theorem a_extension_correct X raw pc : word_correct X (AExtension X) isa_A raw pc.
Proof. extension_word decode32_a_table lift_a_refines. Qed.

(** C10. The Zicsr extension: the exchanges of CSR and register, except where the
    destination is the source ([departs]). *)
Theorem zicsr_extension_correct X raw pc : word_correct X (ZicsrExtension X) isa_Zicsr raw pc.
Proof.
  apply word_correct_intro; [apply decode32_zicsr_table|].
  intros e He _ [_ Ho]%orb_false_iff. by apply lift_with_refines, lift_zicsr_refines.
Qed.

(** The Zbb extension: logic with complement, leading and trailing zeros,
    population count, minimum and maximum, sign and zero extension, rotations,
    byte reversal and OR-combine. *)
Lemma zbb_extension_correct X raw pc : word_correct X (ZbbExtension X) isa_Zbb raw pc.
Proof. extension_word decode32_zbb_table lift_zbb_refines. Qed.

(** The Zba extension: shift-and-add address generation. *)
Lemma zba_extension_correct X raw pc : word_correct X (ZbaExtension X) isa_Zba raw pc.
Proof. extension_word decode32_zba_table lift_zba_refines. Qed.

(** The Zbs extension: single-bit clear, extract, invert and set. *)
Lemma zbs_extension_correct X raw pc : word_correct X (ZbsExtension X) isa_Zbs raw pc.
Proof. extension_word decode32_zbs_table lift_zbs_refines. Qed.

(** The Zbkb extension: packing, bit reversal in bytes and interleaving. *)
Lemma zbkb_extension_correct X raw pc : word_correct X (ZbkbExtension X) isa_Zbkb raw pc.
Proof. extension_word decode32_zbkb_table lift_zbkb_refines. Qed.

(** The Zicond extension: conditional zero. *)
Lemma zicond_extension_correct X raw pc : word_correct X (ZicondExtension X) isa_Zicond raw pc.
Proof. extension_word decode32_zicond_table lift_zicond_refines. Qed.

(** The Zifencei extension: the instruction fence does nothing. *)
Lemma zifencei_extension_correct X raw pc :
  word_correct X (ZifenceiExtension X) isa_Zifencei raw pc.
Proof. extension_word decode32_zifencei_table lift_zifencei_refines. Qed.

(** C11. The remaining extensions: on every word, bit manipulation (Zba, Zbb, Zbs, Zbkb),
    conditional zero (Zicond) and the instruction fence (Zifencei) decode by their
    encoding tables and lift to code with the effect the manual gives. *)
Theorem bit_extensions_correct X raw pc :
  word_correct X (ZbbExtension X) isa_Zbb raw pc /\ word_correct X (ZbaExtension X) isa_Zba raw pc /\
  word_correct X (ZbsExtension X) isa_Zbs raw pc /\ word_correct X (ZbkbExtension X) isa_Zbkb raw pc /\
  word_correct X (ZicondExtension X) isa_Zicond raw pc /\
  word_correct X (ZifenceiExtension X) isa_Zifencei raw pc.
Proof.
  split_and!; auto using zbb_extension_correct, zba_extension_correct, zbs_extension_correct,
    zbkb_extension_correct, zicond_extension_correct, zifencei_extension_correct.
Qed.

(** ** Compressed instructions *)



(** C13. The compressed indirect jumps jump to the register without clearing its
    bit 0, and so agree with the manual exactly on even targets. *)
Theorem c_indirect_jumps X raw pc :
  pc_ok X pc ->
  (instr_refines X (lift (CExtension X) (mkDecoded OP_C_JR pc 2 raw (fmt_ci zero cf_rd zero raw)))
     (cjalr_code 0 X raw pc 2) /\
   instr_refines X (lift (CExtension X) (mkDecoded OP_C_JALR pc 2 raw (fmt_ci ra cf_rd zero raw)))
     (cjalr_code 1 X raw pc 2)) /\
  forall link st, cjalr_code link X raw pc 2 st = cjalr_type link X raw pc 2 st
                  <-> get_reg st (cf_rd raw) mod 2 = 0.
Proof.
  intros Hpc. destruct (lift_c_indirect X raw pc 2 Hpc ltac:(lia)) as [H1 H2].
  split; [split; by apply lift_with_refines|]. intros link st. split; [|apply cjalr_code_even].
  unfold cjalr_code, cjalr_type. intros [=]. lia.
Qed.

Lemma c_indirect_jumps_witness :
  instr_refines Rv64 (lift (CExtension Rv64) (mkDecoded OP_C_JR 0x1000 2 0x8082 (A_I 0 1 0)))
    (cjalr_code 0 Rv64 0x8082 0x1000 2).
Proof.
  apply (c_indirect_jumps Rv64 0x8082 0x1000).
  split; [discriminate | split; [reflexivity | split; [discriminate | reflexivity]]].
Defined.

(** ** Where the lifted code departs from the manual *)

(** C12. A CSR exchange whose destination is its (nonzero) source reads the
    destination after it was overwritten with the old CSR value: [csrrw] and
    [csrrs] leave the CSR as it was and [csrrc] clears it, whatever the register
    held. *)
Theorem csr_overlap_behaviour X raw pc size :
  f_rd raw <> 0 -> f_rd raw = f_rs1 raw ->
  let effect v := fun st => csr_exchange (f_csr raw) (f_rd raw) (Some (v (s_csrs st (f_csr raw)))) X pc size st in
  refines X (lift_zicsr X (fmt_csr raw) OP_CSRRW) pc size (effect (fun old => old)) /\
  refines X (lift_zicsr X (fmt_csr raw) OP_CSRRS) pc size (effect (fun old => old)) /\
  refines X (lift_zicsr X (fmt_csr raw) OP_CSRRC) pc size (effect (fun _ => 0)).
Proof.
  intros Hz Heq effect. pose proof (denotes_read X _ (f_rs1_range raw)) as Hr.
  pose proof (denotes_csr X _ (f_csr_range raw)) as Hc.
  split_and!; (eapply refines_ext;
    [eapply (csr_overlap_refines X raw pc size _ _ _) | ]).
  - exact (Hr : denotes X _ (fun st => csr_write (VALUE X) (s_csrs st (f_csr raw)) (get_reg st (f_rs1 raw)))).
  - done.
  - done.
  - by instantiate (1 := true).
  - done.
  - exact (denotes_or X _ _ _ _ Hc Hr :
      denotes X _ (fun st => csr_set (VALUE X) (s_csrs st (f_csr raw)) (get_reg st (f_rs1 raw)))).
  - done.
  - done.
  - by instantiate (1 := false).
  - intros st _. unfold effect, csr_set. cbv zeta. by rewrite Z.lor_diag.
  - exact (ldiff_and X _ _ _ _ Hc Hr).
  - done.
  - done.
  - by instantiate (1 := false).
  - intros st _. unfold effect, csr_clear. cbv zeta. by rewrite Z.ldiff_diag.
Qed.

(** [csrrw x5, mscratch, x5]: by the manual the CSR gets the register. *)
Lemma csr_overlap_behaviour_witness :
  refines Rv64 (lift_zicsr Rv64 (fmt_csr 0x340292F3) OP_CSRRW) 0x1000 4
    (fun st => csr_exchange 0x340 5 (Some (s_csrs st 0x340)) Rv64 0x1000 4 st).
Proof.
  apply (csr_overlap_behaviour Rv64 0x340292F3 0x1000 4); [discriminate | reflexivity].
Defined.

(** [mret] is lifted to a fall through: control goes to the next
    instruction, where the manual has it go to the address in [mepc]. *)
Theorem mret_falls_through X raw pc size args :
  refines X (lift_base X args OP_MRET pc size) pc size (nop_sem X raw pc size) /\
  forall st, s_csrs st CSR_MEPC <> wrap (VALUE X) (pc + size) ->
    (nop_sem X raw pc size st).2 <> (mret_sem X raw pc size st).2.
Proof.
  split; [apply refines_nop|]. intros st Hne. cbn. unfold next_seq. congruence.
Qed.

(** ** Fields *)

(** C17. The shifts and masks of the five immediate formats compute the
    sign-extended immediates the manual draws. *)
Theorem immediates_correct raw :
  in_u 32 raw ->
  decode_i_imm raw = imm_I raw /\ decode_s_imm raw = imm_S raw /\ decode_b_imm raw = imm_B raw /\
  decode_u_imm raw = imm_U raw /\ decode_j_imm raw = imm_J raw.
Proof.
  intros H. split_and!; auto using decode_i_imm_spec, decode_s_imm_spec, decode_b_imm_spec,
    decode_u_imm_spec, decode_j_imm_spec.
Qed.

(** [jal x0, -4]. *)
Lemma immediates_correct_witness : imm_J 0xFFDFF06F = -4.
Proof.
  destruct (immediates_correct 0xFFDFF06F) as (_ & _ & _ & _ & <-);
    [split; [discriminate | reflexivity] | reflexivity].
Defined.

(** ** Sequences *)

(** The effect of a lifted instruction, in a state reached by other code. *)
Lemma instr_refines_exec vars extern X r f st :
  instr_refines X r f -> extern_ok extern X -> wf_state X st -> s_exited st = 0 ->
  exists ir st', r = Ok ir /\ exec_instr vars extern X st ir = Some (st', (f st).2) /\
    arch st' = arch (f st).1 /\ wf_state X st'.
Proof.
  intros (ir & -> & Hs & Ht & H) Hext Hst He. destruct (H vars extern st Hst He) as (st' & Hx & Ha).
  exists ir, st'. split_and!; try done. by eapply exec_instr_wf.
Qed.

Lemma arch_proj {A} (g : state -> A) st st' :
  (forall s, g (arch s) = g s) -> arch st = arch st' -> g st = g st'.
Proof. intros Hg E. by rewrite <- (Hg st), E. Qed.



Lemma zext_h_pack raw pc size st :
  f_rs2 raw = 0 ->
  r_type pack_v Rv32 raw pc size st = unary_type (fun _ => wrap 16) Rv32 raw pc size st /\
  r_type packw_v Rv64 raw pc size st = unary_type (fun _ => wrap 16) Rv64 raw pc size st.
Proof.
  intros E. unfold unary_type, r_type, op_rr, packw_v, pack_v. rewrite E.
  change (get_reg st 0) with 0. cbn [VALUE].
  change (32 / 2) with 16. change (wrap 16 0 * 2 ^ 16) with 0. rewrite Z.add_0_r.
  split; [done|]. do 2 f_equal. pose proof (wrap_range 16 (get_reg st (f_rs1 raw)) ltac:(lia)) as [? ?].
  rewrite sext_id by (done || split; lia). apply wrap_id. split; lia.
Qed.

(** The one word two extensions accept, [zext.h], which is [pack] (RV32) or
    [packw] (RV64) with [x0]: the code Zbkb lifts it to has the effect of
    [zext.h]. *)
Theorem pack_x0_is_zext_h raw pc :
  f_rs2 raw = 0 ->
  instr_refines Rv32 (lift (ZbkbExtension Rv32) (mkDecoded OP_PACK pc 4 raw (fmt_R raw)))
    (unary_type (fun _ => wrap 16) Rv32 raw pc 4) /\
  instr_refines Rv64 (lift (ZbkbExtension Rv64) (mkDecoded OP_PACKW pc 4 raw (fmt_R raw)))
    (unary_type (fun _ => wrap 16) Rv64 raw pc 4).
Proof.
  intros E. split; apply lift_with_refines; (eapply refines_ext;
    [|intros st _; apply (zext_h_pack raw pc 4 st E)]).
  - apply (lift_zbkb_refines Rv32 (mkEntry OP_PACK any (opf7 0x33 4 0x04) fmt_R (r_type pack_v)) raw pc 4);
      [by left | done].
  - apply (lift_zbkb_refines Rv64 (mkEntry OP_PACKW rv64 (opf7 0x3B 4 0x04) fmt_R (r_type packw_v)) raw pc 4);
      [by do 2 right; left | done].
Qed.

Lemma pack_x0_is_zext_h_witness :
  instr_refines Rv32 (lift (ZbkbExtension Rv32) (mkDecoded OP_PACK 0 4 0x0800C0B3 (fmt_R 0x0800C0B3)))
    (unary_type (fun _ => wrap 16) Rv32 0x0800C0B3 0 4).
Proof. apply (pack_x0_is_zext_h 0x0800C0B3 0). reflexivity. Defined.
