(* ===== verification/SyscallProps.v ===== *)
(** * Properties of the system call lowering *)

From S2P Require Import Prelude Xlen IR IRBuild IRSem IRFacts Isa Ext Syscalls RiscvSpec LiftFacts.
From S2P Require Import SyscallCorrect ExecFacts IRProps.
#[local] Open Scope word_scope.


(** An exit system call ends the program with the exit code in [a0]. *)
Theorem syscall_exit_ends vars extern X t i st :
  let n := get_reg st (syscall_reg (abi t)) in
  Forall (fun e => in_reg X (num e)) (entries t) -> wf_state X st -> in_reg X (di_pc i + di_size i) ->
  exit_match t n = true -> call_match t n = None ->
  exists ir st', handle_ecall (TableHandler X t) i = Ok ir /\
    exec_instr vars extern X st ir = Some (st', NExit (get_reg st REG_A0)).
Proof. apply syscall_exits. Qed.

(** The Linux table: which numbers exit, which are served. *)
Definition linux_exits : list Z := [93; 94].
Definition linux_served : list Z :=
  map num (List.filter (fun e => negb (is_exit_entry e)) (entries (linux_table Standard))).

Lemma linux_nums X a : Forall (fun e => in_reg X (num e)) (entries (linux_table a)).
Proof.
  apply List.Forall_forall. intros e He. apply in_ub_spec.
  assert (forallb (fun e => in_ub (VALUE X) (num e)) (entries (linux_table a)) = true) as H
    by (by destruct X, a).
  rewrite forallb_forall in H. by apply H.
Qed.

Lemma linux_exit_match a n : exit_match (linux_table a) n = existsb (Z.eqb n) linux_exits.
Proof. unfold exit_match. cbn. by rewrite !(Z.eqb_sym n). Qed.

Lemma find_none_existsb {A} (p : A -> bool) l : existsb p l = false -> find p l = None.
Proof. induction l as [|x l IH]; [done|]. cbn. by destruct (p x). Qed.

Lemma existsb_nums (q : SyscallEntry -> bool) n l :
  existsb (fun e => q e && (num e =? n)) l = existsb (Z.eqb n) (map num (List.filter q l)).
Proof.
  induction l as [|e l IH]; [done|]. cbn. rewrite IH. destruct (q e); cbn; [|done].
  by rewrite (Z.eqb_sym n).
Qed.

Lemma linux_call_match_none a n :
  existsb (Z.eqb n) linux_served = false -> call_match (linux_table a) n = None.
Proof.
  intros H. unfold call_match. apply find_none_existsb. rewrite existsb_nums.
  assert (map num (List.filter (fun e => negb (is_exit_entry e)) (entries (linux_table a)))
    = linux_served) as -> by (destruct a; vm_compute; reflexivity). exact H.
Qed.

(** A system call that does not exit, in a running program. *)
Lemma linux_continues vars extern X a i st st' :
  let n := get_reg st (syscall_reg a) in
  wf_state X st -> s_exited st = 0 -> in_reg X (di_pc i + di_size i) ->
  existsb (Z.eqb n) linux_exits = false ->
  run_call vars extern X (linux_table a) n st = Some st' -> s_exited st' = 0 ->
  exists ir, handle_ecall (LinuxHandler X a) i = Ok ir /\
    exec_instr vars extern X st ir = Some (st', NPc (di_pc i + di_size i)).
Proof.
  cbv zeta. intros Hst He Hpc Hx Hc He'.
  destruct (build_ir_exec vars extern X (linux_table a) i st (linux_nums X a) Hst Hpc) as (ir & Hir & E).
  exists ir. split; [done|]. rewrite E. unfold syscall_effect. cbv zeta.
  change (abi (linux_table a)) with a in *. rewrite linux_exit_match, Hx.
  replace (existsb _ (entries (linux_table a))) with true by done. rewrite Hc. cbn [mbind option_bind].
  unfold after_syscall. rewrite He'. by rewrite andb_false_r.
Qed.

(** C20. The Linux handler answers a number that is not in its table with
    [-ENOSYS] and continues at the next instruction; nothing else changes. *)
Theorem linux_unknown_enosys vars extern X a i st :
  let n := get_reg st (syscall_reg a) in
  wf_state X st -> s_exited st = 0 -> in_reg X (di_pc i + di_size i) ->
  existsb (Z.eqb n) (linux_exits ++ linux_served) = false ->
  exists ir, handle_ecall (LinuxHandler X a) i = Ok ir /\
    exec_instr vars extern X st ir
    = Some (set_reg st REG_A0 (wrap (VALUE X) (-38)), NPc (di_pc i + di_size i)).
Proof.
  cbv zeta. intros Hst He Hpc Hn. rewrite existsb_app in Hn. apply orb_false_iff in Hn as [Hx Hs].
  apply linux_continues; try done. unfold run_call. by rewrite linux_call_match_none.
Qed.

Definition sample_ecall : DecodedInstr := mkDecoded (mkOpId 0 49) 0x1000 4 0x73 A_None.

Lemma linux_unknown_enosys_witness :
  exists ir, handle_ecall (LinuxHandler Rv64 Standard) sample_ecall = Ok ir /\
    exec_instr (fun _ => 0) no_extern Rv64 zero_state ir
    = Some (set_reg zero_state 10 (wrap 64 (-38)), NPc 0x1004).
Proof.
  apply (linux_unknown_enosys (fun _ => 0) no_extern Rv64 Standard sample_ecall zero_state);
    [apply zero_state_wf | reflexivity | split; [discriminate | reflexivity] | reflexivity].
Defined.

(** The guard around the dispatch negates the exit condition bit by bit, so
    it never holds the dispatch back: after an exit system call of Linux the
    program ends with the code that was in [a0], and [a0] itself has been
    overwritten with [-ENOSYS]. *)
Theorem exit_overwrites_a0 vars extern X a i st :
  let n := get_reg st (syscall_reg a) in
  wf_state X st -> in_reg X (di_pc i + di_size i) -> existsb (Z.eqb n) linux_exits = true ->
  exists ir st', handle_ecall (LinuxHandler X a) i = Ok ir /\
    exec_instr vars extern X st ir = Some (st', NExit (get_reg st REG_A0)) /\
    get_reg st' REG_A0 = wrap (VALUE X) (-38).
Proof.
  cbv zeta. intros Hst Hpc Hx.
  assert (call_match (linux_table a) (get_reg st (syscall_reg a)) = None) as Hc.
  { apply linux_call_match_none. cbn in Hx. rewrite orb_false_r in Hx.
    apply orb_true_iff in Hx as [->%Z.eqb_eq | ->%Z.eqb_eq]; done. }
  rewrite <- (linux_exit_match a) in Hx.
  destruct (build_ir_exec vars extern X (linux_table a) i st (linux_nums X a) Hst Hpc) as (ir & Hir & E).
  rewrite (syscall_exit_effect vars extern X (linux_table a) st Hx Hc) in E.
  exists ir. eexists. split; [done|]. split; [exact E | done].
Qed.

(** [exit(7)]. *)
Definition exit_state : state := set_reg (set_reg zero_state 17 93) 10 7.

Lemma exit_state_wf X : wf_state X exit_state.
Proof.
  apply wf_state_set_reg; [apply wf_state_set_reg; [apply zero_state_wf|]|];
    destruct X; split; (discriminate || reflexivity).
Defined.

Lemma exit_overwrites_a0_witness :
  exists ir st', handle_ecall (LinuxHandler Rv64 Standard) sample_ecall = Ok ir /\
    exec_instr (fun _ => 0) no_extern Rv64 exit_state ir = Some (st', NExit 7) /\
    get_reg st' 10 = wrap 64 (-38).
Proof.
  apply (exit_overwrites_a0 (fun _ => 0) no_extern Rv64 Standard sample_ecall exit_state);
    [apply exit_state_wf | split; [discriminate | reflexivity] | reflexivity].
Defined.

(** A table with a runtime call, a constant and an exit. *)
Definition sample_table : SyscallTable :=
  SyscallTable.with_return (SyscallTable.with_runtime (SyscallTable.with_exit (SyscallTable.new Standard) 93)
    64 "rv_sys_write" 3) 200 (-1).

Lemma sample_nums : Forall (fun e => in_reg Rv64 (num e)) (entries sample_table).
Proof. repeat constructor; discriminate. Defined.


Lemma syscall_exit_ends_witness :
  exists ir st', handle_ecall (TableHandler Rv64 sample_table) sample_ecall = Ok ir /\
    exec_instr (fun _ => 0) no_extern Rv64 exit_state ir = Some (st', NExit 7).
Proof.
  apply (syscall_exit_ends (fun _ => 0) no_extern Rv64 sample_table sample_ecall exit_state);
    [apply sample_nums | apply exit_state_wf | split; [discriminate | reflexivity] | reflexivity | reflexivity].
Defined.
