(* ===== verification/RegistryProps.v ===== *)
(** * Properties of the registry *)

From S2P Require Import Base MExt AExt ZicsrExt ZifenceiExt ZbaExt ZbbExt ZbsExt ZbkbExt ZicondExt.
From S2P Require Import CExt CSpec.
From S2P Require Import Prelude Xlen IR IRBuild IRSem IRFacts Isa Ext Syscalls Registry RiscvSpec.
From S2P Require Import Fields TableDecode BaseSpec BaseLift LiftFacts Promise RegistryCorrect.
From S2P Require Import Order IRProps.
#[local] Open Scope word_scope.


(** [addi x1, x0, 42] at [0x80000000]. *)
Definition addi_bytes : list Z := [0x93; 0x00; 0xA0; 0x02].

Lemma addi_bytes_ok : Forall (in_u 8) addi_bytes.
Proof. repeat constructor; discriminate. Defined.




(** C4. Registration order does not matter: a registry with the standard
    extensions in any order decodes the same, but for the word [zext.h], which is
    also a [pack]. *)
Theorem registration_order_irrelevant X es bytes pc :
  Permutation es (extensions (ExtensionRegistry.standard X)) ->
  Forall (in_u 8) bytes -> not_reserved X bytes = true ->
  is_zext_h X (from_le_bytes (take 4 bytes)) = false ->
  ExtensionRegistry.decode (ExtensionRegistry.new es) bytes pc
  = ExtensionRegistry.decode (ExtensionRegistry.standard X) bytes pc.
Proof. apply standard_order. Qed.

Lemma registration_order_irrelevant_witness :
  ExtensionRegistry.decode
    (ExtensionRegistry.new (rev (extensions (ExtensionRegistry.standard Rv64)))) addi_bytes 0
  = ExtensionRegistry.decode (ExtensionRegistry.standard Rv64) addi_bytes 0.
Proof.
  apply (registration_order_irrelevant Rv64 (rev (extensions (ExtensionRegistry.standard Rv64))) addi_bytes 0);
    [apply Permutation_sym, Permutation_rev | apply addi_bytes_ok | reflexivity | reflexivity].
Defined.

(** C5. Lifting precedence: an override for the identifier wins over the system
    call handler, the last override registered for it over earlier ones; the
    system call handler gets every other [ecall]; neither changes how other
    instructions are lifted, nor what is decoded. *)
Theorem lift_precedence r o h k i :
  ExtensionRegistry.lift (ExtensionRegistry.with_override r o h) i
    = (if decide (opid i = o) then ov_lift h i (ExtensionRegistry.lift_without_override r)
       else ExtensionRegistry.lift r i) /\
  ExtensionRegistry.lift (ExtensionRegistry.with_syscall_handler r k) i
    = (match overrides r !! opid i with
       | Some g => ov_lift g i
           (ExtensionRegistry.lift_without_override (ExtensionRegistry.with_syscall_handler r k))
       | None =>
           if decide (opid i = OP_ECALL) then handle_ecall k i else ExtensionRegistry.lift r i
       end) /\
  ExtensionRegistry.decode (ExtensionRegistry.with_override r o h) = ExtensionRegistry.decode r /\
  ExtensionRegistry.decode (ExtensionRegistry.with_syscall_handler r k) = ExtensionRegistry.decode r.
Proof.
  split_and!; [| |done..]; unfold ExtensionRegistry.lift; cbn.
  - destruct (decide (opid i = o)) as [<-|E]; [by rewrite lookup_insert_eq | by rewrite lookup_insert_ne].
  - destruct (overrides r !! opid i); [done|]. unfold ExtensionRegistry.lift_without_override. cbn.
    destruct (decide (opid i = OP_ECALL)) as [E|E].
    + by rewrite (proj2 (opid_eqb_spec _ _) E).
    + destruct (OpId.eqb _ _) eqn:E'; [|done]. by apply opid_eqb_spec in E'.
Qed.

(** ** Metadata *)

Definition standard_infos : list OpInfo :=
  OP_INFO_C ++ OP_INFO_I ++ OP_INFO_M ++ OP_INFO_A ++ OP_INFO_ZICSR ++ OP_INFO_ZIFENCEI ++ OP_INFO_ZBA
  ++ OP_INFO_ZBB ++ OP_INFO_ZBS ++ OP_INFO_ZBKB ++ OP_INFO_ZICOND.

Definition info_consistent (X : Xlen) (info : OpInfo) : bool :=
  bool_decide (ExtensionRegistry.op_info (ExtensionRegistry.standard X) (oi_opid info) = Some info)
  && String.eqb (op_mnemonic (OpId.pack (oi_opid info))) (oi_name info).

Lemma infos_consistent X : forallb (info_consistent X) standard_infos = true.
Proof. destruct X; vm_compute; reflexivity. Qed.

Definition has_info (X : Xlen) (o : OpId) : bool :=
  match ExtensionRegistry.op_info (ExtensionRegistry.standard X) o with Some _ => true | None => false end.

Lemma entries_have_info X :
  forallb (fun e => has_info X (i_opid e)) isa_standard
  && forallb (fun e => has_info X (c_opid e)) isa_C = true.
Proof. destruct X; vm_compute; reflexivity. Qed.

